(* ===== verification/_CoqProject ===== *)
-Q . S2P
Prelude.v
Ownership.v
Numbers.v
Memory.v
ByteRing.v
RingSafety.v
RingSpec.v
RingWeak.v
InterprocessSignal.v
RingWait.v
Signal.v
SignalWeak.v
SPSCQueue.v
QueueSpec.v
QueueThreads.v
QueueExample.v
IpcExample.v
MemoryStream.v
BinarySerializer.v
Reflection.v
SerializationExample.v
Transfer.v
Channel.v
QueueExchange.v
TextExample.v
Rpc.v
SharedMemory.v
SharedMemoryExample.v
InterprocessQueue.v
SignalSetup.v
WindowsSignal.v
RingWeakWait.v
RingExchange.v
IpcRun.v
WindowsMemory.v
Semaphore.v
SemaphoreExample.v
MultiLock.v
TaskExecutor.v
TaskSubmit.v
Address.v
TcpSocket.v
WindowsSocket.v
SocketExchange.v
RpcSession.v
NamedPipe.v
PipeExchange.v
WindowsPipe.v
DynLibrary.v
ErrorHandling.v
Serial.v
SymmetricKey.v
Cipher.v
OpenSsl.v
Io.v
Random.v
Hash.v
EvpKey.v
Signature.v
Certificate.v
Store.v
DiffieHellman.v
FileExamples.v
