(* ===== verification/Prelude.v ===== *)
(** * A verified model of Gicame

    Gicame is a C++17 library of building blocks for programs that exchange messages and share
    data: channels between threads, processes and machines, serialization, remote calls, and a
    front end to OpenSSL.  The files of this development model the code under [src/src],
    [src/headers] and [src/internal_headers], one file per component or two where a component has
    a data part and a concurrent part, and the example programs under [src/examples], which show the
    components at work together.  Definitions keep the names of the code, and each file
    says in its own header which sources it models.

    ** How the program is put together

    - At the bottom are numbers, memory and streams: [safeNumericCast] (Numbers.v), [align] and the
      buffers handed to C code (Memory.v), streams over a block of memory (MemoryStream.v).
    - Data become bytes with [BinarySerializer] (BinarySerializer.v), or with the templates that
      walk the property tuple of a class (Reflection.v).
    - Bytes travel over an [IDataExchanger]: a TCP socket (TcpSocket.v, with the addresses of
      Address.v), a named pipe (NamedPipe.v), a serial port (Serial.v) or a queue (QueueExchange.v).
      Objects and texts are framed by a size and moved with loops (Transfer.v); remote calls
      are built on that (Rpc.v).  Channel.v is the interface between the two sides: the laws of a
      [channel], which a client relies on and a class of exchangers is proved to satisfy
      (SocketExchange.v for sockets, PipeExchange.v for pipes, QueueExchange.v for queues), and
      [Device], a class whose virtual methods are code over a kernel.
    - Threads and processes share rings: the lock-free [ByteRing] (ByteRing.v) lives in shared memory
      (SharedMemory.v, InterprocessQueue.v) and waits with interprocess signals
      (InterprocessSignal.v, SignalSetup.v); its in-process sibling is [SPSCQueue] (SPSCQueue.v,
      QueueSpec.v, QueueThreads.v), which waits with thread signals (Signal.v).  Named semaphores (Semaphore.v), a reentrant lock
      (MultiLock.v) and a worker thread (TaskExecutor.v) complete the concurrency part.
    - The crypto extension wraps objects of OpenSSL: symmetric ciphers (SymmetricKey.v, Cipher.v),
      digests and message authentication codes (Hash.v), keys (EvpKey.v), signatures (Signature.v),
      certificates and their store (Certificate.v, Store.v), key agreement (DiffieHellman.v), random
      bytes (Random.v), whole files (Io.v).  DynLibrary.v is the loader of dynamic libraries,
      ErrorHandling.v the text of the last error of the system.
    - The Windows branches are in WindowsSignal.v (events and semaphores), WindowsMemory.v,
      WindowsPipe.v and WindowsSocket.v, which also has the start of Winsock; Serial.v is Windows code,
      the only one there is.
    - The examples: QueueExample.v, IpcExample.v, IpcRun.v and TextExample.v (SPSCQueue),
      SharedMemoryExample.v, SemaphoreExample.v, SerializationExample.v, RpcSession.v (both RPC programs), PipeExchange.v
      (both pipe programs) and FileExamples.v (encryption and signature of a file).

    ** How the code is modelled

    An integer is the [Z] it denotes; wherever the C++ type is unsigned the reduction modulo
    [2^w] is written out ([wrap], [u64]), and conversions between widths are those of
    Numbers.v.  A byte is a [Z] between 0 and 255, a pointer the address it holds, 0 the null one.

    The outcome of code is a [res] below: a value, an exception, a thread that waits for ever,
    undefined behaviour, or fuel that ran out.  Undefined behaviour is an outcome, so that its
    absence can be proved: reading outside a vector, dividing by zero and storing past a buffer
    are tested for by the model.

    Code that calls the operating system, OpenSSL or a virtual function is a [prog]: it runs
    against an environment that answers every call as it likes, knowing all the calls made
    before.  A theorem for all environments holds whatever the other side does; a theorem that
    needs a documented behaviour of the other side (that an [mmap] that succeeded returns a block of
    the size asked for, that decryption undoes encryption) has it as a hypothesis, with a
    concrete environment in the witness.  The calls made are part of the outcome, so "closed
    exactly once" and "not called at all" can be said.  Ownership.v is a small Hoare logic
    over these programs, for who holds which handle.

    Concurrent code is a step relation over a state shared by threads, one step per access to
    shared memory, to a mutex or to a condition variable; reachability is [star], and invariants are
    proved by rule induction ([star_invariant]).  Atomic accesses are sequentially consistent, as
    most of the code asks for; the two files with other memory orders are run over weak memory as
    well, where a load may return an old value: ByteRing.h (RingWeak.v, with a detector of data
    races; RingWeakWait.v, with what the signals order) and Signal.h (SignalWeak.v).

    ** What is proved

    - Rings and queues: RingSafety.v shows, for every interleaving of the two sides, that the ring
      delivers the bytes in order, and that no access leaves the ring; RingSpec.v that a ring as
      [initRing] makes it answers any sequence of operations as a bounded list does; RingWeak.v that this holds
      under release/acquire memory without a data race, that [size()] and [freeSpace()] are safe
      to rely on there, and that none of the four memory orders can be relaxed;
      RingWait.v that no wake-up is lost over sticky signals, with the deadlock bound, and that one
      is lost over condition variables (the default build), all of it for sequential consistency;
      RingWeakWait.v the same over release/acquire memory, for signals that order what was done
      before them (the Windows build; a signal of the futex build that finds the word set does not),
      and RingExchange.v that a message is exchanged in a bounded number of steps over such signals
      when each ends one wait.  A [SPSCQueue] as its constructor makes it carries nothing: QueueThreads.v
      shows that under every interleaving its first [push] is undefined and that nothing is ever popped.
      The algorithm of the class, over a vector of the size of the ring which no constructor
      makes, is that of a bounded first-in-first-out list (QueueSpec.v) and under every interleaving
      delivers the bytes in order, safely, without losing a wake-up (QueueThreads.v, QueueExample.v);
      InterprocessQueue.v and SignalSetup.v that what the constructors place in shared memory lies
      inside it.
    - Signals and threads: Signal.v shows that a signal is neither lost nor consumed twice and that
      the group never deadlocks, SignalWeak.v the same with the relaxed load of the code;
      TaskExecutor.v that tasks run once and in order, but one that the destructor finds in the slot
      and that is never run, TaskSubmit.v what the future of
      [submitTask] can hold; SemaphoreExample.v that a semaphore of count [n] lets at
      most [n] of its users in.
    - Serialization: round trips for values, argument lists and objects with nested properties: the
      members come back bit for bit, and [equals], which compares floating-point members as C++ does,
      holds of the two objects unless a member is not a number.
    - Channels: what [sendText] sends [receiveText] reads, over any channel that moves at least a
      byte at a time, which connected sockets, pipes and the byte ring are shown to be; a remote call
      returns the value of the function, and a whole session of calls over a connection whose sockets
      receive whole messages returns those of all of them, both sides ending normally.  The server writes
      to const members of the request it receives, which the language leaves undefined: a parameter
      of the model says whether it is, or stores; the theorems about calls are about the second
      case, and in it a round of the server is safe whatever bytes come in.
    - Resources: descriptors, mappings, pipes, libraries, contexts, keys and certificates are
      given back exactly once whatever the system answers, exceptions included, or the theorem says
      which are not (descriptor 0, which a socket takes for none; the answer of an [mmap] that failed,
      which is unmapped as if it were a mapping; revocation lists).
    - Crypto: decryption undoes encryption through the whole wrapper, [verify] accepts what [sign]
      returns, feeding a code piece by piece equals one call, both parties agree on a secret: given
      that OpenSSL does this for its own calls, within what it documents of their arguments: the
      room a decryption needs, a key generated before it is read, values and moduli it accepts, a
      certificate that parses.
    - Examples: the counters arrive in order under every interleaving, the pair on the interprocess
      queue ends in a bounded number of steps over signals that are remembered, the texts arrive over
      a ring, the two processes on shared memory and the two threads on a semaphore
      wait for one another as they should (and do not, when started in the other order), the remote
      sum is returned, a file is encrypted and decrypted, its signature verifies.
    - Some theorems show where the code does not do what it means to (a lost wake-up, a queue whose
      buffer is never sized, a leaked reference, a session freed twice); they state what the
      code does.

    ** Fuel

    Loops that end only when another party answers take fuel, a unit per turn.  The theorems give an
    amount that is enough: a turn per call restarted, a turn per byte for the transfer
    loops, a turn per request of a session, two turns for an operation of a queue that nobody
    else touches; or they show that no amount is enough, where the code runs for ever.

    ** Not modelled

    Of the examples, the serialization to a file stream (to a buffer, which is the same code over
    another stream, it is).  Overloads that pass a vector as a pointer and a size are
    their target, and [EncryptionAlgorithm::toEvpCipher], a name for a constant of OpenSSL, is the
    algorithm itself.  Macros, build files, the unit tests. *)

From stdpp Require Export base numbers list gmap strings.
From stdpp Require Import options.
From Stdlib Require Export ZArith.
#[export] Set Default Goal Selector "!".

#[global] Arguments Z.eqb : simpl never.
#[global] Arguments Z.ltb : simpl never.
#[global] Arguments Z.leb : simpl never.
#[global] Arguments Z.geb : simpl never.
#[global] Arguments Z.gtb : simpl never.
#[global] Arguments Z.of_nat : simpl never.
#[global] Arguments Z.to_nat : simpl never.
#[global] Arguments Z.add : simpl never.
#[global] Arguments Z.sub : simpl never.
#[global] Arguments Z.mul : simpl never.
#[global] Arguments Z.div : simpl never.
#[global] Arguments Z.modulo : simpl never.
#[global] Arguments Z.pow : simpl never.

Declare Scope gicame_scope.
Delimit Scope gicame_scope with gic.
#[global] Open Scope Z_scope.

(** ** Machine integers

    An integer of C++ type [T] is the [Z] it denotes; conversions and arithmetic on
    unsigned types reduce modulo [2^w]. *)

Definition wrap (w z : Z) : Z := z mod 2 ^ w.
Abbreviation u8 := (wrap 8).
Abbreviation u32 := (wrap 32).
Abbreviation u64 := (wrap 64).

Definition SIZE_MAX : Z := 2 ^ 64 - 1.
Definition INT_MAX : Z := 2 ^ 31 - 1.

(** [in_u w z]: [z] is a value of the unsigned [w]-bit type. *)
Definition in_u (w z : Z) : Prop := 0 <= z < 2 ^ w.
Abbreviation is_byte := (in_u 8).
Abbreviation is_size := (in_u 64).

#[global] Instance in_u_dec w z : Decision (in_u w z).
Proof. unfold in_u. apply _. Defined.

Lemma wrap_in_u w z : 0 <= w -> in_u w (wrap w z).
Proof. intros. unfold in_u, wrap. apply Z.mod_pos_bound. lia. Qed.

Lemma wrap_small w z : in_u w z -> wrap w z = z.
Proof. unfold in_u, wrap. intros. by apply Z.mod_small. Qed.

Lemma wrap_u64_small z : 0 <= z < 18446744073709551616 -> u64 z = z.
Proof. intros. apply wrap_small. unfold in_u. lia. Qed.

Lemma wrap_u32_small z : 0 <= z < 4294967296 -> u32 z = z.
Proof. intros. apply wrap_small. unfold in_u. lia. Qed.

Lemma wrap_wrap w z : 0 <= w -> wrap w (wrap w z) = wrap w z.
Proof. intros. apply wrap_small, wrap_in_u. lia. Qed.

Lemma wrap_add_idemp_l w a b : wrap w (wrap w a + b) = wrap w (a + b).
Proof. unfold wrap. apply Zplus_mod_idemp_l. Qed.

Lemma wrap_add_idemp_r w a b : wrap w (a + wrap w b) = wrap w (a + b).
Proof. unfold wrap. apply Zplus_mod_idemp_r. Qed.

(** ** Outcomes of C++ code *)

(** A C++ expression either yields a value, throws, blocks the calling thread for good
    (no other thread acts), runs into undefined behaviour, or (only in definitions that take
    fuel) is cut short. *)
Inductive res (A : Type) : Type :=
  | Ok (a : A)
  | Throw (msg : string)
  | Block
  | UB (why : string)
  | OutOfFuel.
Arguments Ok {A} a.
Arguments Throw {A} msg.
Arguments Block {A}.
Arguments UB {A} why.
Arguments OutOfFuel {A}.

#[global] Instance res_ret : MRet res := @Ok.
#[global] Instance res_bind : MBind res := fun A B f m =>
  match m with
  | Ok a => f a
  | Throw e => Throw e
  | Block => Block
  | UB w => UB w
  | OutOfFuel => OutOfFuel
  end.
#[global] Instance res_eq_dec {A} `{EqDecision A} : EqDecision (res A).
Proof. solve_decision. Defined.

(** An exception was thrown. *)
Definition throws {A} (r : res A) : Prop := exists m, r = Throw m.
(** The code returned normally. *)
Definition returns {A} (r : res A) : Prop := exists a, r = Ok a.
(** The behaviour is undefined. *)
Definition undefined {A} (r : res A) : Prop := exists w, r = UB w.

(** ** Code that talks to the operating system or to another library

    A [Sys] lists the calls a component makes and the type each one answers with.  The
    answers come from an environment that may depend on everything asked so far, so a
    theorem that holds for every [env] holds for every behaviour of the callee.  The
    history of calls is part of the outcome: what the code asked for, and in which
    order, is observable. *)
Class Sys := { call : Type; reply : call -> Type }.

Definition env `{Sys} : Type := forall (h : list call) (c : call), reply c.

(** A program over the object state [S]: it maps an environment, the object and the calls
    made so far (oldest first) to an outcome, the new object and the extended history.  The
    object keeps the changes made before an exception, as in C++. *)
Definition prog `{Sys} (S A : Type) : Type :=
  env -> S -> list call -> res A * S * list call.

Section Prog.
Context `{Sys} {S : Type}.

#[global] Instance prog_ret : MRet (prog S) := fun A a _ s h => (Ok a, s, h).
#[global] Instance prog_bind : MBind (prog S) := fun A B f m E s h =>
  match m E s h with
  | (Ok a, s', h') => f a E s' h'
  | (Throw e, s', h') => (Throw e, s', h')
  | (Block, s', h') => (Block, s', h')
  | (UB w, s', h') => (UB w, s', h')
  | (OutOfFuel, s', h') => (OutOfFuel, s', h')
  end.

Definition get : prog S S := fun _ s h => (Ok s, s, h).
Definition gets {A} (f : S -> A) : prog S A := fun _ s h => (Ok (f s), s, h).
Definition modify (f : S -> S) : prog S unit := fun _ s h => (Ok tt, f s, h).
Definition throw {A} (m : string) : prog S A := fun _ s h => (Throw m, s, h).
Definition lift {A} (r : res A) : prog S A := fun _ s h => (r, s, h).
Definition sys (c : call) : prog S (reply c) := fun E s h => (Ok (E h c), s, h ++ [c]).
Definition when (b : bool) (m : prog S unit) : prog S unit := if b then m else mret tt.

(** Running a sequence one call at a time. *)
Lemma bind_ok {A B} (m : prog S A) (f : A -> prog S B) E s h a s' h' :
  m E s h = (Ok a, s', h') -> (m ≫= f) E s h = f a E s' h'.
Proof. unfold mbind, prog_bind. by intros ->. Qed.

Lemma bind_throw {A B} (m : prog S A) (f : A -> prog S B) E s h e s' h' :
  m E s h = (Throw e, s', h') -> (m ≫= f) E s h = (Throw e, s', h').
Proof. unfold mbind, prog_bind. by intros ->. Qed.

Lemma bind_ub {A B} (m : prog S A) (f : A -> prog S B) E s h w s' h' :
  m E s h = (UB w, s', h') -> (m ≫= f) E s h = (UB w, s', h').
Proof. unfold mbind, prog_bind. by intros ->. Qed.

Lemma bind_lift {A B} (r : res A) (f : A -> prog S B) E s h :
  (lift r ≫= f) E s h =
  match r with
  | Ok a => f a E s h
  | Throw e => (Throw e, s, h)
  | Block => (Block, s, h)
  | UB w => (UB w, s, h)
  | OutOfFuel => (OutOfFuel, s, h)
  end.
Proof. by destruct r. Qed.

Lemma bind_gets {A B} (g : S -> A) (f : A -> prog S B) E s h :
  (gets g ≫= f) E s h = f (g s) E s h.
Proof. done. Qed.

Lemma bind_get {B} (f : S -> prog S B) E s h : (get ≫= f) E s h = f s E s h.
Proof. done. Qed.

Lemma bind_modify {B} (g : S -> S) (f : unit -> prog S B) E s h :
  (modify g ≫= f) E s h = f tt E (g s) h.
Proof. done. Qed.

Lemma bind_sys {B} (c : call) (f : reply c -> prog S B) E s h :
  (sys c ≫= f) E s h = f (E h c) E s (h ++ [c]).
Proof. done. Qed.

End Prog.

Definition outcome {A S H} (x : res A * S * H) : res A := x.1.1.
Definition object {A S H} (x : res A * S * H) : S := x.1.2.
Definition history {A S H} (x : res A * S * H) : H := x.2.

(** Choosing a branch. *)
Lemma if_true {A} (b : bool) (x y : A) : b = true -> (if b then x else y) = x.
Proof. by intros ->. Qed.
Lemma if_false {A} (b : bool) (x y : A) : b = false -> (if b then x else y) = y.
Proof. by intros ->. Qed.

(** ** Reflexive-transitive closure *)

Inductive star {A} (R : A -> A -> Prop) : A -> A -> Prop :=
  | star_refl a : star R a a
  | star_step a b c : R a b -> star R b c -> star R a c.

Create HintDb gicame discriminated.
#[export] Hint Constructors star : gicame.

Lemma star_one {A} (R : A -> A -> Prop) a b : R a b -> star R a b.
Proof. eauto with gicame. Qed.

Lemma star_trans {A} (R : A -> A -> Prop) a b c : star R a b -> star R b c -> star R a c.
Proof. induction 1; eauto with gicame. Qed.

#[export] Hint Resolve star_one : gicame.

(** Rule induction, packaged: a predicate that every step preserves holds of everything
    reachable. *)
Lemma star_invariant {A} (R : A -> A -> Prop) (I : A -> Prop) a b :
  (forall x y, I x -> R x y -> I y) -> star R a b -> I a -> I b.
Proof. intros Hstep. induction 1; eauto. Qed.

(** ** Lists *)

Lemma lookup_snoc {A} (l : list A) x i :
  (l ++ [x]) !! i = if decide (i = length l) then Some x else l !! i.
Proof.
  case_decide; subst.
  - by rewrite list_lookup_middle.
  - destruct (decide (i < length l)%nat).
    + by rewrite lookup_app_l.
    + rewrite !lookup_ge_None_2; [done|lia|]. rewrite length_app. simpl. lia.
Qed.

Lemma take_S_lookup {A} (l : list A) n x :
  l !! n = Some x -> take (S n) l = take n l ++ [x].
Proof. intros. by apply take_S_r. Qed.

Lemma drop_nonempty {A} (l : list A) n : (n < length l)%nat -> drop n l <> [].
Proof. intros Hn Heq. apply (f_equal length) in Heq. rewrite length_drop in Heq. simpl in Heq. lia. Qed.

(** Indexing with a C++ integer: out of range there is no element to read or write. *)
Definition zget {A} (l : list A) (i : Z) : option A :=
  if i <? 0 then None else l !! Z.to_nat i.
Definition zset {A} (l : list A) (i : Z) (x : A) : option (list A) :=
  if (0 <=? i) && (i <? Z.of_nat (length l)) then Some (<[Z.to_nat i := x]> l) else None.

Lemma zget_nonneg {A} (l : list A) i : 0 <= i -> zget l i = l !! Z.to_nat i.
Proof. intros. unfold zget. by destruct (Z.ltb_spec i 0); [lia|]. Qed.

Lemma zget_is_Some {A} (l : list A) i :
  0 <= i < Z.of_nat (length l) -> is_Some (zget l i).
Proof. intros. rewrite zget_nonneg by lia. apply lookup_lt_is_Some. lia. Qed.

Lemma zset_is_Some {A} (l : list A) i x :
  0 <= i < Z.of_nat (length l) -> zset l i x = Some (<[Z.to_nat i := x]> l).
Proof.
  intros. unfold zset. by rewrite (proj2 (Z.leb_le _ _)), (proj2 (Z.ltb_lt _ _)) by lia.
Qed.

Lemma zset_range {A} (l l' : list A) i x :
  zset l i x = Some l' -> 0 <= i < Z.of_nat (length l) /\ l' = <[Z.to_nat i := x]> l.
Proof.
  unfold zset. destruct (Z.leb_spec 0 i), (Z.ltb_spec i (Z.of_nat (length l)));
    intros [= <-]; split; (lia || done).
Qed.

Lemma zset_length {A} (l l' : list A) i x : zset l i x = Some l' -> length l' = length l.
Proof. intros [_ ->]%zset_range. apply length_insert. Qed.

Lemma zget_zset {A} (l l' : list A) i j x :
  zset l i x = Some l' -> zget l' j = if decide (j = i) then Some x else zget l j.
Proof.
  intros [Hi ->]%zset_range. unfold zget.
  destruct (Z.ltb_spec j 0); case_decide; try done; try lia.
  - subst. apply list_lookup_insert_eq. lia.
  - apply list_lookup_insert_ne. lia.
Qed.

(** ** Little-endian bytes: the object representation of an unsigned integer *)

Fixpoint le_bytes (n : nat) (z : Z) : list Z :=
  match n with
  | O => []
  | S n' => z mod 256 :: le_bytes n' (z / 256)
  end.

Fixpoint le_val (bs : list Z) : Z :=
  match bs with
  | [] => 0
  | b :: bs' => b + 256 * le_val bs'
  end.

Lemma length_le_bytes n z : length (le_bytes n z) = n.
Proof. revert z. induction n; intros; simpl; by rewrite ?IHn. Qed.

Lemma le_bytes_is_byte n z : Forall is_byte (le_bytes n z).
Proof.
  revert z. induction n; intros; simpl; constructor; [|done].
  unfold in_u. change (2 ^ 8) with 256. apply Z.mod_pos_bound. lia.
Qed.

Lemma le_val_bound bs : Forall is_byte bs -> 0 <= le_val bs < 256 ^ Z.of_nat (length bs).
Proof.
  induction 1 as [|b bs Hb _ IH]; [simpl; lia|].
  cbn [length le_val]. rewrite Nat2Z.inj_succ, Z.pow_succ_r by lia.
  unfold in_u in Hb. change (2 ^ 8) with 256 in Hb. nia.
Qed.

Lemma le_val_le_bytes n z : le_val (le_bytes n z) = z mod 256 ^ Z.of_nat n.
Proof.
  revert z. induction n as [|n IH]; intros z.
  - simpl. by rewrite Z.mod_1_r.
  - cbn [le_bytes le_val]. rewrite IH, Nat2Z.inj_succ, Z.pow_succ_r by lia.
    rewrite Z.rem_mul_r by lia. reflexivity.
Qed.

Lemma le_val_le_bytes_small n z : 0 <= z < 256 ^ Z.of_nat n -> le_val (le_bytes n z) = z.
Proof. intros. by rewrite le_val_le_bytes, Z.mod_small. Qed.

Lemma le_bytes_le_val bs : Forall is_byte bs -> le_bytes (length bs) (le_val bs) = bs.
Proof.
  induction 1 as [|b bs Hb _ IH]; [done|].
  cbn [length le_bytes le_val]. unfold in_u in Hb. change (2 ^ 8) with 256 in Hb.
  replace ((b + 256 * le_val bs) mod 256) with b by (Z.to_euclidean_division_equations; lia).
  replace ((b + 256 * le_val bs) / 256) with (le_val bs)
    by (Z.to_euclidean_division_equations; lia).
  by rewrite IH.
Qed.

#[export] Hint Resolve le_bytes_is_byte : gicame.
#[export] Hint Rewrite @length_le_bytes @length_app @length_take @length_drop @length_insert
  @length_replicate @length_fmap : len.

(** ** Tactics *)

(** Turn boolean comparisons in the context and the goal into propositions. *)
Ltac bools :=
  repeat match goal with
  | H : (_ && _)%bool = true |- _ => apply andb_true_iff in H as [? ?]
  | H : (_ || _)%bool = false |- _ => apply orb_false_iff in H as [? ?]
  | H : (_ <? _) = true |- _ => apply Z.ltb_lt in H
  | H : (_ <? _) = false |- _ => apply Z.ltb_ge in H
  | H : (_ <=? _) = true |- _ => apply Z.leb_le in H
  | H : (_ <=? _) = false |- _ => apply Z.leb_gt in H
  | H : (_ =? _) = true |- _ => apply Z.eqb_eq in H
  | H : (_ =? _) = false |- _ => apply Z.eqb_neq in H
  | H : (_ >? _) = true |- _ => apply Z.gtb_lt in H
  | H : (_ >? _) = false |- _ => rewrite Z.gtb_ltb in H; apply Z.ltb_ge in H
  | H : (_ >=? _) = true |- _ => apply Z.geb_le in H
  | H : (_ >=? _) = false |- _ => rewrite Z.geb_leb in H; apply Z.leb_gt in H
  | H : negb _ = true |- _ => apply negb_true_iff in H
  | H : negb _ = false |- _ => apply negb_false_iff in H
  end.

(** Case analysis on every boolean test of the goal, keeping the arithmetic facts. *)
Ltac case_bool :=
  match goal with
  | |- context [if ?b then _ else _] =>
      lazymatch b with context [if _ then _ else _] => fail | _ => idtac end;
      lazymatch type of b with bool => let E := fresh "E" in destruct b eqn:E; bools end
  end.

(** Length arithmetic. *)
Ltac len := autorewrite with len in *; simpl length in *; lia.
