(* ===== verification/Ownership.v ===== *)
(** * Who holds which handle

    Most classes of the library own handles of the operating system or of OpenSSL: descriptors,
    contexts, keys.  This file is a small Hoare logic for that: a triple follows, along a run,
    the handles that have been acquired and not released yet.  A component says which of its
    calls acquire and release handles ([Resources]), proves triples for its operations with the
    rules below, and concludes with [released_exactly]: on every run, errors included, the
    handles released are those acquired, each once. *)

From S2P Require Import Prelude.

Class Resources `{Sys} (handle : Type) := {
  acquired : forall c : call, reply c -> list handle;
  released : call -> list handle }.

Section Logic.
Context {Sy : Sys} {Hd : Type} {R : @Resources Sy Hd} {S : Type}.

(** The handles acquired by the calls [cs], made after the history [h], and those released. *)
Fixpoint acquires (E : env) (h cs : list call) : list Hd :=
  match cs with
  | [] => []
  | c :: cs' => acquired c (E h c) ++ acquires E (h ++ [c]) cs'
  end.
Definition releases (cs : list call) : list Hd := cs ≫= released.

Lemma acquires_app E h cs1 cs2 :
  acquires E h (cs1 ++ cs2) = acquires E h cs1 ++ acquires E (h ++ cs1) cs2.
Proof.
  revert h. induction cs1 as [|c cs1 IH]; intros h; simpl.
  - by rewrite app_nil_r.
  - rewrite IH, <-!(app_assoc _ (acquires _ _ _)). do 3 f_equal. symmetry. apply (app_assoc h [c]).
Qed.

Lemma releases_app cs1 cs2 : releases (cs1 ++ cs2) = releases cs1 ++ releases cs2.
Proof. apply bind_app. Qed.

(** [P s held]: the object is [s] and the handles held, by it or by local variables, are [held].
    [Q] is what holds on a normal return and [X] on any other end. *)
Definition assertion := S -> list Hd -> Prop.

Definition triple {A} (P : assertion) (p : prog S A) (Q : A -> assertion) (X : assertion) : Prop :=
  forall E s h held r s' h', P s held -> p E s h = (r, s', h') ->
  exists cs held', h' = h ++ cs /\
    acquires E h cs ++ held ≡ₚ releases cs ++ held' /\
    match r with Ok a => Q a s' held' | _ => X s' held' end.

(** ** Rules *)

Lemma triple_ret {A} (a : A) (P : assertion) (Q : A -> assertion) X :
  (forall s held, P s held -> Q a s held) -> triple P (mret a) Q X.
Proof.
  intros HQ E s h held r s' h' HP [= <- <- <-]. exists [], held. rewrite app_nil_r. auto.
Qed.

Lemma triple_throw {A} m (P : assertion) (Q : A -> assertion) (X : assertion) :
  (forall s held, P s held -> X s held) -> triple P (throw m) Q X.
Proof.
  intros HX E s h held r s' h' HP [= <- <- <-]. exists [], held. rewrite app_nil_r. auto.
Qed.

Lemma triple_lift {A} (r : res A) (P : assertion) (Q : A -> assertion) (X : assertion) :
  (forall s held, P s held -> X s held) -> (forall a s held, r = Ok a -> P s held -> Q a s held) ->
  triple P (lift r) Q X.
Proof.
  intros HX HQ E s h held r' s' h' HP [= <- <- <-]. exists [], held. rewrite app_nil_r.
  split_and!; [done..|]. destruct r; auto.
Qed.

Lemma triple_get {A} (f : S -> prog S A) (P : assertion) (Q : A -> assertion) X :
  (forall s0, triple (fun s held => s = s0 /\ P s held) (f s0) Q X) -> triple P (get ≫= f) Q X.
Proof. intros Hf E s h held r s' h' HP H. by apply (Hf s E s h held). Qed.

Lemma triple_gets {A} (g : S -> A) (P : assertion) (Q : A -> assertion) X :
  (forall s held, P s held -> Q (g s) s held) -> triple P (gets g) Q X.
Proof.
  intros HQ E s h held r s' h' HP [= <- <- <-]. exists [], held. rewrite app_nil_r. auto.
Qed.

Lemma triple_modify (g : S -> S) (P : assertion) (Q : unit -> assertion) X :
  (forall s held, P s held -> Q tt (g s) held) -> triple P (modify g) Q X.
Proof.
  intros HQ E s h held r s' h' HP [= <- <- <-]. exists [], held. rewrite app_nil_r. auto.
Qed.

Lemma triple_bind {A B} (p : prog S A) (f : A -> prog S B) P M Q X :
  triple P p M X -> (forall a, triple (M a) (f a) Q X) -> triple P (p ≫= f) Q X.
Proof.
  intros Hp Hf E s h held r s' h' HP H. unfold mbind, prog_bind in H.
  destruct (p E s h) as [[r1 s1] h1] eqn:E1.
  destruct (Hp _ _ _ _ _ _ _ HP E1) as (cs1 & held1 & -> & Hb1 & HM).
  destruct r1 as [a|e| |w|]; try (injection H as <- <- <-; by exists cs1, held1).
  destruct (Hf a _ _ _ _ _ _ _ HM H) as (cs2 & held2 & -> & Hb2 & HQ).
  exists (cs1 ++ cs2), held2. split; [by rewrite app_assoc|]. split; [|done].
  rewrite acquires_app, releases_app, <-(app_assoc (releases cs1)), <-Hb2.
  rewrite (Permutation_app_comm (acquires E h cs1)), <-app_assoc, Hb1.
  apply Permutation_app_swap_app.
Qed.

(** A call that acquires and releases nothing. *)
Lemma triple_sys_neutral (c : call) (P : assertion) (Q : reply c -> assertion) X :
  (forall r, acquired c r = []) -> released c = [] ->
  (forall r s held, P s held -> Q r s held) -> triple P (sys c) Q X.
Proof.
  intros Ha Hr HQ E s h held r s' h' HP [= <- <- <-]. exists [c], held. split; [done|].
  split; [|by apply HQ]. unfold releases. simpl. by rewrite Ha, Hr.
Qed.

Lemma triple_sys_acquire (c : call) (P : assertion) (Q : reply c -> assertion) X :
  released c = [] -> (forall r s held, P s held -> Q r s (acquired c r ++ held)) ->
  triple P (sys c) Q X.
Proof.
  intros Hr HQ E s h held r s' h' HP [= <- <- <-]. exists [c], (acquired c (E h c) ++ held).
  split; [done|]. split; [|by apply HQ]. unfold releases. simpl. by rewrite Hr, app_nil_r.
Qed.

Lemma triple_sys_release (c : call) x (P : assertion) (Q : reply c -> assertion) X :
  (forall r, acquired c r = []) -> released c = [x] ->
  (forall r s held, P s held -> exists held', held ≡ₚ x :: held' /\ Q r s held') ->
  triple P (sys c) Q X.
Proof.
  intros Ha Hr HQ E s h held r s' h' HP [= <- <- <-].
  destruct (HQ (E h c) s held HP) as (held' & Hheld & HQ'). exists [c], held'.
  split; [done|]. split; [|done]. unfold releases. simpl. by rewrite Ha, Hr.
Qed.

Lemma triple_weaken {A} (p : prog S A) (P P' : assertion) (Q Q' : A -> assertion) (X X' : assertion) :
  triple P p Q X -> (forall s held, P' s held -> P s held) ->
  (forall a s held, Q a s held -> Q' a s held) -> (forall s held, X s held -> X' s held) ->
  triple P' p Q' X'.
Proof.
  intros Hp HP HQ HX E s h held r s' h' HP' H.
  destruct (Hp _ _ _ _ _ _ _ (HP _ _ HP') H) as (cs & held' & -> & Hb & Hpost).
  exists cs, held'. split; [done|]. split; [done|]. destruct r; auto.
Qed.

(** ** Following a run

    Rules for a precondition that says exactly what the object is and what is held: they take
    a program one call at a time. *)
Definition owns (s : S) (held : list Hd) : assertion := fun s' held' => s' = s /\ held' = held.

Lemma triple_follow {A} (p : prog S A) (P : assertion) Q X :
  (forall s held, P s held -> triple (owns s held) p Q X) -> triple P p Q X.
Proof. intros Hp E s h held r s' h' HP H. by apply (Hp s held HP E s h held). Qed.

Lemma owns_ret {A} (a : A) s held (Q : A -> assertion) X :
  Q a s held -> triple (owns s held) (mret a) Q X.
Proof. intros HQ. apply triple_ret. by intros ? ? [-> ->]. Qed.

Lemma owns_throw {A} m s held (Q : A -> assertion) (X : assertion) :
  X s held -> triple (owns s held) (throw m) Q X.
Proof. intros HX. apply triple_throw. by intros ? ? [-> ->]. Qed.

Lemma owns_get {A} (f : S -> prog S A) s held Q X :
  triple (owns s held) (f s) Q X -> triple (owns s held) (get ≫= f) Q X.
Proof. intros Hf E s0 h held0 r s' h' [-> ->] H. by apply (Hf E s h held). Qed.

Lemma owns_gets {A B} (g : S -> B) (f : B -> prog S A) s held Q X :
  triple (owns s held) (f (g s)) Q X -> triple (owns s held) (gets g ≫= f) Q X.
Proof. intros Hf E s0 h held0 r s' h' [-> ->] H. by apply (Hf E s h held). Qed.

Lemma owns_modify {A} g (f : unit -> prog S A) s held Q X :
  triple (owns (g s) held) (f tt) Q X -> triple (owns s held) (modify g ≫= f) Q X.
Proof. intros Hf E s0 h held0 r s' h' [-> ->] H. by apply (Hf E (g s) h held). Qed.

Lemma owns_lift {A B} (x : res B) (f : B -> prog S A) s held Q (X : assertion) :
  X s held -> (forall b, x = Ok b -> triple (owns s held) (f b) Q X) ->
  triple (owns s held) (lift x ≫= f) Q X.
Proof.
  intros HX Hf. apply (triple_bind _ _ _ (fun b s' held' => x = Ok b /\ owns s held s' held')).
  - apply triple_lift; [by intros ? ? [-> ->]|]. by intros b ? ? -> [-> ->].
  - intros b. apply triple_follow. intros ? ? (Hx & -> & ->). by apply Hf.
Qed.

Lemma owns_ok {A B} (b : B) (f : B -> prog S A) s held Q X :
  triple (owns s held) (f b) Q X -> triple (owns s held) (lift (Ok b) ≫= f) Q X.
Proof. intros Hf E s0 h held0 r s' h' [-> ->] H. by apply (Hf E s h held). Qed.

Lemma owns_sys {A} (c : call) (f : reply c -> prog S A) s held Q X :
  released c = [] -> (forall r, triple (owns s (acquired c r ++ held)) (f r) Q X) ->
  triple (owns s held) (sys c ≫= f) Q X.
Proof.
  intros Hr Hf. apply (triple_bind _ _ _ (fun r => owns s (acquired c r ++ held))); [|done].
  apply triple_sys_acquire; [done|]. by intros r ? ? [-> ->].
Qed.

Lemma owns_release {A} (c : call) x (f : reply c -> prog S A) s held held' Q X :
  (forall r, acquired c r = []) -> released c = [x] -> held ≡ₚ x :: held' ->
  (forall r, triple (owns s held') (f r) Q X) -> triple (owns s held) (sys c ≫= f) Q X.
Proof.
  intros Ha Hr Hp Hf. apply (triple_bind _ _ _ (fun r => owns s held')); [|done].
  apply (triple_sys_release c x); [done..|]. intros r ? ? [-> ->]. by exists held'.
Qed.

(** Calling a program whose triple is known, the rest of what is held being kept. *)
Lemma owns_call {A B} (p : prog S A) (f : A -> prog S B) s held M Q (X : assertion) :
  triple (owns s held) p M X ->
  (forall a s' held', M a s' held' -> triple (owns s' held') (f a) Q X) ->
  triple (owns s held) (p ≫= f) Q X.
Proof.
  intros Hp Hf. apply (triple_bind _ _ _ M _ _ Hp). intros a. apply triple_follow. auto.
Qed.

(** ** An object on the stack

    Constructed, used, and destroyed on every way out of the block; an object whose constructor
    throws is not destroyed. *)
Definition local_object {T A} (s0 : S) (construct : prog S unit) (body : prog S A)
  (destroy : prog S unit) : prog T A := fun E t h =>
  match construct E s0 h with
  | (Ok _, s, h1) =>
      let '(r, s', h2) := body E s h1 in
      let '(_, _, h3) := destroy E s' h2 in (r, t, h3)
  | (Throw e, _, h1) => (Throw e, t, h1)
  | (Block, _, h1) => (Block, t, h1)
  | (UB w, _, h1) => (UB w, t, h1)
  | (OutOfFuel, _, h1) => (OutOfFuel, t, h1)
  end.

(** ** Conclusions *)

(** From nothing held to nothing held: what was acquired was released, each handle once. *)
Lemma released_exactly {A} (p : prog S A) (P : assertion) E s r s' h :
  triple P p (fun _ _ held => held = []) (fun _ held => held = []) -> P s [] ->
  p E s [] = (r, s', h) -> releases h ≡ₚ acquires E [] h.
Proof.
  intros Hp HP H. destruct (Hp _ _ _ _ _ _ _ HP H) as (cs & held & -> & Hb & Hpost).
  assert (held = []) as -> by (destruct r; done). simpl in *. by rewrite !app_nil_r in Hb.
Qed.

(** Running the operations of an owner, who catches every exception, and then the destructor. *)
Context {op : Type} (run_op : op -> prog S unit) (destroy : prog S unit).
Fixpoint lifetime (ops : list op) : prog S unit :=
  match ops with
  | [] => destroy
  | o :: ops' => fun E s h => let '(_, s', h') := run_op o E s h in lifetime ops' E s' h'
  end.

Lemma triple_lifetime (I : assertion) ops (Q : assertion) :
  (forall o, triple I (run_op o) (fun _ => I) I) ->
  triple I destroy (fun _ => Q) Q -> triple I (lifetime ops) (fun _ => Q) Q.
Proof.
  intros Hop Hdestroy. induction ops as [|o ops IH]; [done|].
  intros E s h held r s' h' HI H. simpl in H.
  destruct (run_op o E s h) as [[r1 s1] h1] eqn:E1.
  destruct (Hop o _ _ _ _ _ _ _ HI E1) as (cs1 & held1 & -> & Hb1 & HI1).
  assert (I s1 held1) as HI2 by (destruct r1; done).
  destruct (IH _ _ _ _ _ _ _ HI2 H) as (cs2 & held2 & -> & Hb2 & HQ).
  exists (cs1 ++ cs2), held2. split; [by rewrite app_assoc|]. split; [|done].
  rewrite acquires_app, releases_app, <-(app_assoc (releases cs1)), <-Hb2.
  rewrite (Permutation_app_comm (acquires E h cs1)), <-app_assoc, Hb1.
  apply Permutation_app_swap_app.
Qed.
End Logic.

(** A block with an object of its own leaves its caller's handles as they were. *)
Lemma triple_local {Sy} {Hd} {R : @Resources Sy Hd} {S T A : Type} (s0 : S)
  (construct destroy : prog S unit) (body : prog S A) (I : S -> list Hd -> Prop)
  (P : T -> list Hd -> Prop) :
  triple (fun s held => s = s0 /\ held = []) construct (fun _ => I) (fun _ held => held = []) ->
  triple I body (fun _ => I) I ->
  triple I destroy (fun _ _ held => held = []) (fun _ held => held = []) ->
  triple P (local_object s0 construct body destroy) (fun _ => P) P.
Proof.
  intros Hc Hb Hdestroy E t h held r t' h' HP Hrun. unfold local_object in Hrun.
  destruct (construct E s0 h) as [[r1 s1] h1] eqn:E1.
  destruct (Hc E s0 h [] _ _ _ (conj eq_refl eq_refl) E1) as (cs1 & held1 & -> & B1 & H1).
  destruct r1 as [[]|e| |w|].
  2-5: injection Hrun as <- <- <-; subst held1; rewrite !app_nil_r in B1;
    exists cs1, held; by rewrite B1.
  destruct (body E s1 _) as [[r2 s2] h2] eqn:E2.
  destruct (Hb _ _ _ _ _ _ _ H1 E2) as (cs2 & held2 & -> & B2 & H2).
  destruct (destroy E s2 _) as [[r3 s3] h3] eqn:E3.
  assert (I s2 held2) as H2' by (by destruct r2).
  destruct (Hdestroy _ _ _ _ _ _ _ H2' E3) as (cs3 & held3 & -> & B3 & H3).
  assert (held3 = []) as -> by (by destruct r3). injection Hrun as <- <- <-.
  exists (cs1 ++ cs2 ++ cs3), held. split; [by rewrite !app_assoc|]. split; [|by destruct r2].
  rewrite !app_nil_r in B1. rewrite app_nil_r in B3.
  rewrite !acquires_app, !releases_app. apply Permutation_app_tail.
  rewrite B1, <-app_assoc. apply Permutation_app_head.
  rewrite app_assoc, (Permutation_app_comm held1), B2, <-app_assoc.
  apply Permutation_app_head. by rewrite Permutation_app_comm, B3.
Qed.

Arguments triple_sys_neutral {Sy Hd R S} c.
Arguments triple_sys_acquire {Sy Hd R S} c.
Arguments triple_sys_release {Sy Hd R S} c.

(** The rule for a call, whatever the type its arguments are displayed with. *)
Ltac sys_neutral :=
  match goal with |- @triple ?Sy _ _ _ _ _ (sys ?c) _ _ => apply (triple_sys_neutral (Sy:=Sy) c) end.
Ltac sys_acquire :=
  match goal with |- @triple ?Sy _ _ _ _ _ (sys ?c) _ _ => apply (triple_sys_acquire (Sy:=Sy) c) end.
Ltac sys_release x :=
  match goal with |- @triple ?Sy _ _ _ _ _ (sys ?c) _ _ => apply (triple_sys_release (Sy:=Sy) c x) end.

Create HintDb owned discriminated.

(** One step of a run: [owning] takes programs apart down to the ends of their branches, where it
    leaves the postcondition unless it is immediate. *)
Ltac owning_step :=
  lazymatch goal with
  | |- triple _ (mret _) _ _ => apply owns_ret
  | |- triple _ (throw _) _ _ => apply owns_throw
  | |- triple _ (get ≫= _) _ _ => apply owns_get
  | |- triple _ (gets _ ≫= _) _ _ => apply owns_gets
  | |- triple _ (modify _ ≫= _) _ _ => apply owns_modify
  | |- triple _ (lift (Ok _) ≫= _) _ _ => apply owns_ok
  | |- triple _ (lift _ ≫= _) _ _ => apply owns_lift; [|intros ? ?]
  | |- @triple ?Sy _ _ _ _ _ (sys ?c ≫= _) _ _ =>
      first [ apply (@owns_sys Sy _ _ _ _ c); [reflexivity|intros ?]
            | eapply (@owns_release Sy _ _ _ _ c);
              [intros ?; reflexivity|first [reflexivity|solve [eauto with owned]]
              |first [reflexivity|apply perm_swap]|intros ?] ];
      cbn [app]
  | |- triple _ (if ?b then _ else _) _ _ => let E := fresh "E" in destruct b eqn:E
  | |- triple _ (let '(_, _) := ?x in _) _ _ => destruct x
  end; cbv beta.
