(* ===== verification/Numbers.v ===== *)
(** * Checked integer conversions (headers/utils/Numbers.h)

    [safeNumericCast] is the library's only defence against silently truncated sizes: every
    wrapper around an [int]- or [DWORD]-sized system interface goes through it.  The template
    is modelled over the two type parameters [Target] and [Original], as values of [ity]. *)

From S2P Require Import Prelude.

(** An integer type of C++: its signedness and its width in bits. *)
Record ity := Ity { is_signed : bool; width : Z }.

#[global] Instance ity_eq_dec : EqDecision ity.
Proof. solve_decision. Defined.

Definition uint8_t := Ity false 8.
Definition uint16_t := Ity false 16.
Definition uint32_t := Ity false 32.
Definition uint64_t := Ity false 64.
Definition int8_t := Ity true 8.
Definition int16_t := Ity true 16.
Definition int32_t := Ity true 32.
Definition int64_t := Ity true 64.
Definition int_t := int32_t.
Definition unsigned_int := uint32_t.
Definition size_t := uint64_t.
Definition DWORD := uint32_t.
Definition BYTE := uint8_t.
Definition LONG := int32_t.

(** [std::numeric_limits<T>::max()] and [min()]. *)
Definition limits_max (t : ity) : Z :=
  if is_signed t then 2 ^ (width t - 1) - 1 else 2 ^ width t - 1.
Definition limits_min (t : ity) : Z :=
  if is_signed t then - 2 ^ (width t - 1) else 0.

Definition in_ty (t : ity) (z : Z) : Prop := limits_min t <= z <= limits_max t.
#[global] Instance in_ty_dec t z : Decision (in_ty t z).
Proof. unfold in_ty. apply _. Defined.

(** The types of the platform: at most 64 bits wide. *)
Definition ity_ok (t : ity) : Prop := 1 < width t <= 64.

(** The conversion [(T)z]: modulo [2^w], two's complement for a signed [T]. *)
Definition c_cast (t : ity) (z : Z) : Z :=
  let m := z mod 2 ^ width t in
  if is_signed t then (if m <? 2 ^ (width t - 1) then m else m - 2 ^ width t) else m.

Definition maxOf (t out : ity) : Z := c_cast out (limits_max t).
Definition minOf (t out : ity) : Z := c_cast out (limits_min t).

(** The template, one [if constexpr] after the other. *)
Definition safeNumericCast (Target Original : ity) (original : Z) : res Z :=
  if decide (Target = Original) then Ok original
  else if Bool.eqb (is_signed Target) (is_signed Original)
          && (width Original <=? width Target) then Ok (c_cast Target original)
  else if negb (is_signed Target) && negb (is_signed Original)
          && (original >? limits_max Target) then Throw "original too big"
  else if is_signed Target && is_signed Original
          && (c_cast int64_t original >? maxOf Target int64_t)
          then Throw "original too positive"
  else if is_signed Target && is_signed Original
          && (c_cast int64_t original <? minOf Target int64_t)
          then Throw "original too negative"
  else if negb (is_signed Target) && is_signed Original && (original <? 0)
          then Throw "original is negative and Target is unsigned"
  else if negb (is_signed Target) && is_signed Original
          && (c_cast uint64_t original >? maxOf Target uint64_t)
          then Throw "original too big"
  else if is_signed Target && negb (is_signed Original)
          && (c_cast uint64_t original >? maxOf Target uint64_t)
          then Throw "original too big"
  else Ok (c_cast Target original).

(** ** Helper lemmas *)

Lemma pow2_split w : 1 < w -> 2 ^ w = 2 * 2 ^ (w - 1).
Proof. intros. rewrite <- Z.pow_succ_r by lia. f_equal. lia. Qed.

Lemma pow2_le a b : 0 <= a <= b -> 2 ^ a <= 2 ^ b.
Proof. intros. apply Z.pow_le_mono_r; lia. Qed.

Lemma c_cast_id t z : ity_ok t -> in_ty t z -> c_cast t z = z.
Proof.
  unfold ity_ok, in_ty, limits_min, limits_max, c_cast. intros Ht Hz.
  pose proof (pow2_split (width t) ltac:(lia)) as Hp.
  assert (0 < 2 ^ (width t - 1)) by (apply Z.pow_pos_nonneg; lia).
  destruct (is_signed t).
  - destruct (Z.ltb_spec z 0).
    + replace (z mod 2 ^ width t) with (z + 2 ^ width t).
      * case_bool; lia.
      * symmetry. rewrite <- (Z.mod_add z 1) by lia. rewrite Z.mod_small; lia.
    + rewrite Z.mod_small by lia. case_bool; lia.
  - by rewrite Z.mod_small by lia.
Qed.

Lemma in_ty_widen (s t : ity) z :
  ity_ok s -> ity_ok t -> is_signed s = is_signed t -> width s <= width t ->
  in_ty s z -> in_ty t z.
Proof.
  unfold ity_ok, in_ty, limits_min, limits_max. intros Hs Ht <- Hw.
  pose proof (pow2_le (width s) (width t) ltac:(lia)).
  pose proof (pow2_le (width s - 1) (width t - 1) ltac:(lia)).
  destruct (is_signed s); lia.
Qed.

(** Every bound of a type of the platform is exact in the 64-bit type it is compared in. *)
Lemma limits_in_64 t :
  ity_ok t -> in_ty (Ity (is_signed t) 64) (limits_max t)
              /\ in_ty (Ity (is_signed t) 64) (limits_min t).
Proof.
  intros Ht. assert (in_ty t (limits_max t) /\ in_ty t (limits_min t)) as [? ?].
  { unfold in_ty, limits_min, limits_max, ity_ok in *.
    assert (0 < 2 ^ (width t - 1)) by (apply Z.pow_pos_nonneg; lia).
    assert (0 < 2 ^ width t) by (apply Z.pow_pos_nonneg; lia).
    destruct (is_signed t); lia. }
  split; apply (in_ty_widen t); unfold ity_ok in *; simpl; try lia; done.
Qed.

Lemma limits_max_pos t : ity_ok t -> 0 <= limits_max t.
Proof.
  unfold ity_ok, limits_max. intros.
  assert (0 < 2 ^ (width t - 1)) by (apply Z.pow_pos_nonneg; lia).
  assert (0 < 2 ^ width t) by (apply Z.pow_pos_nonneg; lia).
  destruct (is_signed t); lia.
Qed.

Lemma limits_max_u64 t : ity_ok t -> maxOf t uint64_t = limits_max t.
Proof.
  intros Ht. apply c_cast_id; [by cbv|].
  pose proof (limits_max_pos t Ht). split; [done|].
  unfold ity_ok, limits_max, uint64_t in *. simpl.
  pose proof (pow2_le (width t) 64 ltac:(lia)).
  pose proof (pow2_le (width t - 1) 64 ltac:(lia)). destruct (is_signed t); lia.
Qed.

Lemma limits_i64 t :
  ity_ok t -> is_signed t = true ->
  maxOf t int64_t = limits_max t /\ minOf t int64_t = limits_min t.
Proof.
  intros Ht Hs. destruct (limits_in_64 t Ht) as [Hmx Hmn]. rewrite Hs in Hmx, Hmn.
  split; apply c_cast_id; done.
Qed.

(** ** Properties *)

(** C22. For any two integer types of the platform and any value of the original type,
    [safeNumericCast] returns the very same mathematical value when the target type can
    represent it and throws otherwise: it never returns a truncated number and never rejects
    a representable one. *)
Theorem safeNumericCast_exact (Target Original : ity) (x : Z) :
  ity_ok Target -> ity_ok Original -> in_ty Original x ->
  (in_ty Target x -> safeNumericCast Target Original x = Ok x) /\
  (~ in_ty Target x -> throws (safeNumericCast Target Original x)).
Proof.
  intros HT HO Hx. unfold safeNumericCast, throws.
  destruct (decide (Target = Original)) as [->|Hne]; [tauto|].
  pose proof (limits_max_u64 _ HT) as Hu. pose proof (limits_max_pos _ HT) as Hp.
  destruct (is_signed Target) eqn:ST, (is_signed Original) eqn:SO;
    cbn [Bool.eqb andb negb]; rewrite ?Hu.
  - destruct (limits_i64 _ HT ST) as [-> ->].
    assert (c_cast int64_t x = x) as ->.
    { apply c_cast_id; [by cbv|]. apply (in_ty_widen Original); unfold ity_ok in *; simpl; auto; lia. }
    destruct (Z.leb_spec (width Original) (width Target)).
    + assert (in_ty Target x) by (apply (in_ty_widen Original); auto; congruence).
      rewrite c_cast_id by done. tauto.
    + repeat case_bool; unfold in_ty; split; intros; eauto; try lia.
      rewrite c_cast_id; auto.
  - assert (limits_min Target <= 0).
    { unfold limits_min. rewrite ST. assert (0 < 2 ^ (width Target - 1)); [|lia].
      apply Z.pow_pos_nonneg; unfold ity_ok in HT; lia. }
    assert (0 <= x) by (revert Hx; unfold in_ty, limits_min; rewrite SO; lia).
    assert (c_cast uint64_t x = x) as ->.
    { apply c_cast_id; [by cbv|]. apply (in_ty_widen Original); unfold ity_ok in *; simpl; auto; lia. }
    repeat case_bool; unfold in_ty; split; intros; eauto; try lia.
    rewrite c_cast_id; auto.
  - assert (limits_min Target = 0) as Hm0 by (unfold limits_min; by rewrite ST).
    assert (in_ty int64_t x).
    { apply (in_ty_widen Original); unfold ity_ok in *; simpl; auto; lia. }
    destruct (Z.ltb_spec x 0); [unfold in_ty; split; intros; [lia|eauto]|].
    assert (c_cast uint64_t x = x) as ->.
    { apply c_cast_id; [by cbv|]. revert H. unfold in_ty. cbn. lia. }
    repeat case_bool; unfold in_ty; split; intros; eauto; try lia.
    rewrite c_cast_id; auto.
  - assert (limits_min Target = 0) as Hm0 by (unfold limits_min; by rewrite ST).
    assert (0 <= x) by (revert Hx; unfold in_ty, limits_min; rewrite SO; lia).
    destruct (Z.leb_spec (width Original) (width Target)).
    + assert (in_ty Target x) by (apply (in_ty_widen Original); auto; congruence).
      rewrite c_cast_id by done. tauto.
    + repeat case_bool; unfold in_ty; split; intros; eauto; try lia.
      rewrite c_cast_id; auto.
Qed.

Lemma safeNumericCast_exact_witness :
  safeNumericCast int_t size_t 2147483647 = Ok 2147483647
  /\ throws (safeNumericCast int_t size_t 2147483648).
Proof.
  split.
  - apply (safeNumericCast_exact int_t size_t); vm_compute; repeat split; discriminate.
  - apply (safeNumericCast_exact int_t size_t); try (vm_compute; repeat split; discriminate).
    intros [_ H]. vm_compute in H. by apply H.
Defined.

(** Clients use the conversion through these two consequences. *)
Lemma safeNumericCast_size_int x :
  0 <= x <= INT_MAX -> safeNumericCast int_t size_t x = Ok x.
Proof.
  unfold INT_MAX. intros. unfold safeNumericCast. cbn -[c_cast].
  destruct (decide _) as [E|_]; [discriminate E|].
  assert (c_cast uint64_t x = x) as -> by (apply c_cast_id; unfold ity_ok, in_ty; cbn; lia).
  assert (maxOf int_t uint64_t = 2147483647) as -> by reflexivity.
  case_bool; [lia|]. f_equal. apply c_cast_id; unfold ity_ok, in_ty; cbn; lia.
Qed.

Lemma safeNumericCast_i64_size x :
  0 <= x < 2 ^ 63 -> safeNumericCast size_t int64_t x = Ok x.
Proof.
  intros. unfold safeNumericCast. cbn -[c_cast].
  destruct (decide _) as [E|_]; [discriminate E|].
  assert (c_cast uint64_t x = x) as -> by (apply c_cast_id; unfold ity_ok, in_ty; cbn; lia).
  assert (maxOf size_t uint64_t = 18446744073709551615) as -> by reflexivity.
  case_bool; [lia|]. case_bool; [lia|]. f_equal. apply c_cast_id; unfold ity_ok, in_ty; cbn; lia.
Qed.

Lemma safeNumericCast_size_uint x :
  0 <= x < 2 ^ 32 -> safeNumericCast unsigned_int size_t x = Ok x.
Proof.
  intros. unfold safeNumericCast. cbn -[c_cast].
  destruct (decide _) as [E|_]; [discriminate E|].
  unfold limits_max. simpl. case_bool; [lia|]. f_equal.
  apply c_cast_id; unfold ity_ok, in_ty, limits_min, limits_max; simpl; lia.
Qed.
