(* ===== verification/Memory.v ===== *)
(** * Memory utilities (headers/utils/Memory.h)

    Erasing, aligning and advancing, with the buffers that the library hands to C code.  A pointer
    is the address it holds, 0 for the null one. *)

From S2P Require Import Prelude.

(** [eraseMemory]: one byte at a time through a volatile pointer. *)
Fixpoint eraseMemory (size : nat) (mem : list Z) : res (list Z) :=
  match size with
  | O => Ok mem
  | S size' =>
      match mem with
      | [] => UB "write outside the block"
      | _ :: mem' => rest ← eraseMemory size' mem'; Ok (0 :: rest)
      end
  end.

(** [std::align]: the first aligned address of the block where [size] bytes still fit; the
    null pointer, 0, when there is none. *)
Definition std_align (alignment size ptr space : Z) : Z * Z :=
  let aligned := (ptr + (alignment - 1)) / alignment * alignment in
  let pad := aligned - ptr in
  if pad + size <=? space then (u64 aligned, space - pad) else (0, space).

Definition align (alignment size ptr space : Z) : Z * Z :=
  let '(p, space') := std_align alignment size ptr space in
  (p, if p =? 0 then 0 else space').

Definition advance (ptr displacement : Z) : Z := u64 (ptr + displacement).

(** [deleteAndNullify]: the pointers deleted, and the pointer after. *)
Definition deleteAndNullify (ptr : Z) : list Z * Z := if ptr =? 0 then ([], 0) else ([ptr], 0).

(** Bytes stored at an offset of the caller's buffer. *)
Definition store (buf : list Z) (off : Z) (bytes : list Z) : res (list Z) :=
  if Z.of_nat (length buf) <? off + Z.of_nat (length bytes) then UB "write past the buffer"
  else Ok (take (Z.to_nat off) buf ++ bytes ++ drop (Z.to_nat off + length bytes) buf).

(** [v.resize(n)] to a smaller or larger size. *)
Definition resized (v : list Z) (n : Z) : list Z :=
  take (Z.to_nat n) v ++ replicate (Z.to_nat n - length v) 0.

(** ** Properties *)

(** Erasing a block zeroes its first [size] bytes, each exactly once, and leaves the rest; it
    runs out of the block exactly when the block is too short. *)
Lemma eraseMemory_spec n mem :
  eraseMemory n mem =
  if (length mem <? n)%nat then UB "write outside the block"
  else Ok (replicate n 0 ++ drop n mem).
Proof.
  revert mem. induction n as [|n IH]; intros mem; [done|]. destruct mem as [|b mem]; [done|].
  cbn [eraseMemory]. rewrite IH. cbn [length]. change (S (length mem) <? S n)%nat with (length mem <? n)%nat.
  by destruct (length mem <? n)%nat.
Qed.

Lemma align_block alignment sz p space q left :
  0 < alignment -> 0 <= sz -> 0 <= p -> p + space < 2 ^ 64 ->
  align alignment sz p space = (q, left) -> q <> 0 ->
  q mod alignment = 0 /\ p <= q < p + alignment /\ q + left = p + space /\ sz <= left.
Proof.
  intros Ha Hs Hp Hend. unfold align, std_align.
  set (k := (p + (alignment - 1)) / alignment).
  assert (p <= k * alignment < p + alignment) as Hk.
  { unfold k. Z.to_euclidean_division_equations. nia. }
  destruct (Z.leb_spec (k * alignment - p + sz) space) as [Hfit|]; intros [= <- <-] Hq; [|done].
  rewrite wrap_u64_small in * by lia. rewrite (proj2 (Z.eqb_neq _ _)) by done.
  split_and!; [apply Z.mod_mul; lia|lia..].
Qed.

(** Aligning: a result that is not null is aligned, inside the block, and leaves room for
    the object up to the end of the block; the size returned is what is left from there on. *)
Theorem align_in_block alignment sz p space q left :
  0 < alignment -> 0 <= sz -> 0 <= p -> p + space < 2 ^ 64 ->
  align alignment sz p space = (q, left) -> q <> 0 ->
  q mod alignment = 0 /\ p <= q < p + alignment /\ q + left = p + space /\ sz <= left.
Proof. apply align_block. Qed.

Lemma align_in_block_witness :
  128 mod 64 = 0 /\ 100 <= 128 < 100 + 64 /\ 128 + 172 = 100 + 200 /\ 128 <= 172.
Proof. by apply (align_in_block 64 128 100 200 128 172). Defined.

(** ** Buffers that calls of C libraries fill *)

Lemma store_fits buf off bytes :
  off + Z.of_nat (length bytes) <= Z.of_nat (length buf) ->
  store buf off bytes = Ok (take (Z.to_nat off) buf ++ bytes ++ drop (Z.to_nat off + length bytes) buf).
Proof. intros. unfold store. by rewrite if_false by (by apply Z.ltb_ge). Qed.

Lemma store_too_long buf off bytes :
  Z.of_nat (length buf) < off + Z.of_nat (length bytes) ->
  store buf off bytes = UB "write past the buffer".
Proof. intros. unfold store. by rewrite if_true by (by apply Z.ltb_lt). Qed.

Lemma store_0 buf bytes :
  (length bytes <= length buf)%nat -> store buf 0 bytes = Ok (bytes ++ drop (length bytes) buf).
Proof. intros. rewrite store_fits by lia. simpl. done. Qed.

(** [resized] keeps the part that was written. *)
Lemma resized_prefix bytes rest : resized (bytes ++ rest) (Z.of_nat (length bytes)) = bytes.
Proof.
  unfold resized. rewrite Nat2Z.id, take_app_length, length_app.
  replace (length bytes - (length bytes + length rest))%nat with 0%nat by lia. by rewrite app_nil_r.
Qed.

(** The vector cut to what was written. *)
Lemma trimmed bytes rest :
  (if Z.of_nat (length (bytes ++ rest)) >? Z.of_nat (length bytes)
   then resized (bytes ++ rest) (Z.of_nat (length bytes)) else bytes ++ rest) = bytes.
Proof.
  rewrite resized_prefix. case_bool; [done|]. rewrite length_app in *.
  destruct rest; [apply app_nil_r|simpl in *; lia].
Qed.
