(* ===== verification/ByteRing.v ===== *)
(** * The byte ring (headers/concurrency/ByteRing.h, implementation_details/CircularBuffer.h)

    A ring shared by one producer and one consumer, possibly in two processes.  Each side is
    a thread whose atomic actions are the steps of [producer_step] and [consumer_step]: one
    step per access to the shared descriptor, per byte copied and per call into the wait
    policy.  The system of the two threads interleaves those steps in any order.

    Loads and stores are sequentially consistent here; RingWeak.v runs the same steps over
    release/acquire memory, with the orders of the code.  A [memcpy] copies byte by byte. *)

From S2P Require Import Prelude.

(** ** CircularBuffer.h *)

Definition circularBufferSize (cap h t : Z) : Z :=
  if h >=? t then u64 (h - t) else u64 (cap - u64 (t - h)).

Definition circularBufferFreeSpace (cap h t : Z) : Z :=
  let size := if h >=? t then u64 (h - t) else u64 (cap - u64 (t - h)) in
  u64 (u64 (cap - size) - 1).

(** ** The object and the shared memory *)

Inductive ConcurrencyRole := MASTER | SLAVE.

(** The two events of a wait policy. *)
Inductive event := DataPresent | DataFree.

(** What [ByteRing] asks of its [WaitPolicy] parameter: a wait that begins and, when the
    policy lets the thread go on, ends ([None]: the thread stays blocked); and a signal. *)
Class WaitPolicy := {
  wstate : Type;
  wait_begin : event -> wstate -> wstate;
  wait_end : event -> wstate -> option wstate;
  signal : event -> wstate -> wstate }.

Section Ring.
Context `{WP : WaitPolicy}.

(** The descriptor, the ring bytes and the state behind the wait policy: what both sides see. *)
Record shared := Shared { head : Z; tail : Z; buffer : list Z; waiter : wstate }.

(** The private fields of a [ByteRing] object. *)
Record ring_obj := RingObj { capacity : Z; cachedHead : Z; cachedTail : Z }.

Definition initRing (sh : shared) (capacity_ : Z) (cr : ConcurrencyRole)
  : res (shared * ring_obj) :=
  let maxCapacity := SIZE_MAX in
  if capacity_ >? maxCapacity then Throw "Capacity too big"
  else if capacity_ <? 2 then Throw "Insufficient capacity"
  else match cr with
       | MASTER => Ok (Shared 0 0 (buffer sh) (waiter sh), RingObj capacity_ 0 0)
       | SLAVE => Ok (sh, RingObj capacity_ (head sh) (tail sh))
       end.

(** [size()] and [freeSpace()]. *)
Definition size (o : ring_obj) (sh : shared) : Z :=
  circularBufferSize (capacity o) (head sh) (tail sh).
Definition freeSpace (o : ring_obj) (sh : shared) : Z :=
  circularBufferFreeSpace (capacity o) (head sh) (tail sh).

(** ** Arithmetic of one chunk, shared by [push] and [pop] *)

Definition chunkSize (cap dataSize : Z) : Z :=
  if dataSize <? u64 (cap - 1) then dataSize else u64 (cap - 1).

(** How many bytes fit before the end of the ring. *)
Definition first_part (cap idx chunk : Z) : Z :=
  let avail := u64 (cap - idx) in if chunk <? avail then chunk else avail.

(** The ring offset the two [memcpy] calls use for the [w]-th byte of the chunk. *)
Definition slot (cap idx chunk w : Z) : Z :=
  let first := first_part cap idx chunk in
  if w <? first then idx + w else w - first.

Definition next_index (cap idx chunk : Z) : Z :=
  let next := u64 (idx + chunk) in
  if next >=? cap then u64 (next - cap) else next.

(** ** The producer: [push] and [waitFreeSpace] *)

Inductive ppc :=
  | PIdle                                 (** outside [push] *)
  | PLoop                                 (** [while (dataSize)] *)
  | PWaitFreeSpace (chunk : Z)            (** first load of [head] in [waitFreeSpace] *)
  | PLoadTail (chunk h : Z)               (** [cachedTail = tail.load()], then the test *)
  | PWaitBegin (chunk h : Z)              (** entering [waiter.waitDataFree()] *)
  | PWaitEnd (chunk h : Z)                (** inside [waiter.waitDataFree()] *)
  | PLoadHead (chunk : Z)                 (** [h = head.load()] in [push] *)
  | PCopy (chunk h w : Z)                 (** the copies, [w] bytes done *)
  | PStoreHead (chunk h : Z)              (** [head.store(nextHead)] *)
  | PSignal (chunk : Z).                  (** [signalDataPresent()], then advance *)

Record producer := Producer { p_obj : ring_obj; p_pc : ppc; p_data : list Z }.

Definition p_goto (p : producer) (pc : ppc) : producer := Producer (p_obj p) pc (p_data p).

Definition producer_step (sh : shared) (p : producer) : res (shared * producer) :=
  let cap := capacity (p_obj p) in
  let dataSize := Z.of_nat (length (p_data p)) in
  match p_pc p with
  | PIdle => Block
  | PLoop =>
      if dataSize =? 0 then Ok (sh, p_goto p PIdle)
      else Ok (sh, p_goto p (PWaitFreeSpace (chunkSize cap dataSize)))
  | PWaitFreeSpace chunk =>
      let h := head sh in
      if circularBufferFreeSpace cap h (cachedTail (p_obj p)) >=? chunk
      then Ok (sh, p_goto p (PLoadHead chunk))
      else Ok (sh, p_goto p (PLoadTail chunk h))
  | PLoadTail chunk h =>
      let o := RingObj cap (cachedHead (p_obj p)) (tail sh) in
      if circularBufferFreeSpace cap h (tail sh) <? chunk
      then Ok (sh, Producer o (PWaitBegin chunk h) (p_data p))
      else Ok (sh, Producer o (PLoadHead chunk) (p_data p))
  | PWaitBegin chunk h =>
      Ok (Shared (head sh) (tail sh) (buffer sh) (wait_begin DataFree (waiter sh)),
          p_goto p (PWaitEnd chunk h))
  | PWaitEnd chunk h =>
      match wait_end DataFree (waiter sh) with
      | None => Block
      | Some w => Ok (Shared (head sh) (tail sh) (buffer sh) w, p_goto p (PLoadTail chunk h))
      end
  | PLoadHead chunk => Ok (sh, p_goto p (PCopy chunk (head sh) 0))
  | PCopy chunk h w =>
      if w <? chunk then
        match zget (p_data p) w with
        | None => UB "read past the end of the source"
        | Some b =>
            match zset (buffer sh) (slot cap h chunk w) b with
            | None => UB "write outside the ring"
            | Some buf =>
                Ok (Shared (head sh) (tail sh) buf (waiter sh), p_goto p (PCopy chunk h (w + 1)))
            end
        end
      else Ok (sh, p_goto p (PStoreHead chunk h))
  | PStoreHead chunk h =>
      Ok (Shared (next_index cap h chunk) (tail sh) (buffer sh) (waiter sh),
          p_goto p (PSignal chunk))
  | PSignal chunk =>
      Ok (Shared (head sh) (tail sh) (buffer sh) (signal DataPresent (waiter sh)),
          Producer (p_obj p) PLoop (drop (Z.to_nat chunk) (p_data p)))
  end.

(** ** The consumer: [pop] and [waitElemPresent] *)

Inductive cpc :=
  | CIdle
  | CLoop
  | CWaitElemPresent (chunk : Z)
  | CLoadHead (chunk t : Z)
  | CWaitBegin (chunk t : Z)
  | CWaitEnd (chunk t : Z)
  | CLoadTail (chunk : Z)
  | CCopy (chunk t w : Z)
  | CStoreTail (chunk t : Z)
  | CSignal (chunk : Z).

(** [c_want] is the [dataSize] still to pop; [c_out] gathers every byte written to the
    callers' buffers, oldest first. *)
Record consumer := Consumer { c_obj : ring_obj; c_pc : cpc; c_want : Z; c_out : list Z }.

Definition c_goto (c : consumer) (pc : cpc) : consumer :=
  Consumer (c_obj c) pc (c_want c) (c_out c).

Definition consumer_step (sh : shared) (c : consumer) : res (shared * consumer) :=
  let cap := capacity (c_obj c) in
  match c_pc c with
  | CIdle => Block
  | CLoop =>
      if c_want c =? 0 then Ok (sh, c_goto c CIdle)
      else Ok (sh, c_goto c (CWaitElemPresent (chunkSize cap (c_want c))))
  | CWaitElemPresent chunk =>
      let t := tail sh in
      if circularBufferSize cap (cachedHead (c_obj c)) t >=? chunk
      then Ok (sh, c_goto c (CLoadTail chunk))
      else Ok (sh, c_goto c (CLoadHead chunk t))
  | CLoadHead chunk t =>
      let o := RingObj cap (head sh) (cachedTail (c_obj c)) in
      if circularBufferSize cap (head sh) t <? chunk
      then Ok (sh, Consumer o (CWaitBegin chunk t) (c_want c) (c_out c))
      else Ok (sh, Consumer o (CLoadTail chunk) (c_want c) (c_out c))
  | CWaitBegin chunk t =>
      Ok (Shared (head sh) (tail sh) (buffer sh) (wait_begin DataPresent (waiter sh)),
          c_goto c (CWaitEnd chunk t))
  | CWaitEnd chunk t =>
      match wait_end DataPresent (waiter sh) with
      | None => Block
      | Some w => Ok (Shared (head sh) (tail sh) (buffer sh) w, c_goto c (CLoadHead chunk t))
      end
  | CLoadTail chunk => Ok (sh, c_goto c (CCopy chunk (tail sh) 0))
  | CCopy chunk t w =>
      if w <? chunk then
        match zget (buffer sh) (slot cap t chunk w) with
        | None => UB "read outside the ring"
        | Some b => Ok (sh, Consumer (c_obj c) (CCopy chunk t (w + 1)) (c_want c) (c_out c ++ [b]))
        end
      else Ok (sh, c_goto c (CStoreTail chunk t))
  | CStoreTail chunk t =>
      Ok (Shared (head sh) (next_index cap t chunk) (buffer sh) (waiter sh),
          c_goto c (CSignal chunk))
  | CSignal chunk =>
      Ok (Shared (head sh) (tail sh) (buffer sh) (signal DataFree (waiter sh)),
          Consumer (c_obj c) CLoop (c_want c - chunk) (c_out c))
  end.

(** ** The system *)

(** [pushed] gathers every byte handed to [push] so far, oldest first. *)
Record system := System { sh : shared; pr : producer; co : consumer; pushed : list Z }.

Inductive step : system -> system -> Prop :=
  | step_push s data :
      p_pc (pr s) = PIdle ->
      step s (System (sh s) (Producer (p_obj (pr s)) PLoop data) (co s) (pushed s ++ data))
  | step_pop s n :
      c_pc (co s) = CIdle -> 0 <= n ->
      step s (System (sh s) (pr s) (Consumer (c_obj (co s)) CLoop n (c_out (co s))) (pushed s))
  | step_producer s sh' p' :
      producer_step (sh s) (pr s) = Ok (sh', p') -> step s (System sh' p' (co s) (pushed s))
  | step_consumer s sh' c' :
      consumer_step (sh s) (co s) = Ok (sh', c') -> step s (System sh' (pr s) c' (pushed s)).

(** The two objects over a ring that the master has just initialised. *)
Definition initial (cap : Z) (buf : list Z) (w : wstate) : system :=
  let o := RingObj cap 0 0 in
  System (Shared 0 0 buf w) (Producer o PIdle []) (Consumer o CIdle 0 []) [].

(** A run of one thread alone, at most [fuel] steps, until it is outside the operation. *)
Fixpoint run_producer (fuel : nat) (sh : shared) (p : producer) : res (shared * producer) :=
  match p_pc p with
  | PIdle => Ok (sh, p)
  | _ => match fuel with
         | O => OutOfFuel
         | S n => '(sh', p') ← producer_step sh p; run_producer n sh' p'
         end
  end.
Fixpoint run_consumer (fuel : nat) (sh : shared) (c : consumer) : res (shared * consumer) :=
  match c_pc c with
  | CIdle => Ok (sh, c)
  | _ => match fuel with
         | O => OutOfFuel
         | S n => '(sh', c') ← consumer_step sh c; run_consumer n sh' c'
         end
  end.
End Ring.

(** The policy of [SLInterprocessQueue]: every member function is empty, so a wait never
    blocks and the loops around it spin. *)
Definition SLIntPrQueueLockPolicy : WaitPolicy := {|
  wstate := unit; wait_begin _ w := w; wait_end _ w := Some w; signal _ w := w |}.
