(* ===== verification/RingSafety.v ===== *)
(** * Safety of the byte ring under every interleaving

    The invariant relates the wrapped indices of the code to unbounded counters: [H] bytes
    ever published by the producer, [T] bytes ever released by the consumer, and the stale
    copies [T'] and [H'] behind [cachedTail] and [cachedHead].  It holds in every reachable
    state of [ByteRing.step], whatever the wait policy does. *)

From S2P Require Import Prelude ByteRing.

(** ** Index arithmetic *)

(** The capacities for which the index computations of the code do not wrap. *)
Definition cap_ok (cap : Z) : Prop := 2 <= cap <= 2 ^ 63.

Lemma mod_add_cases cap x d :
  0 < cap -> 0 <= d < cap ->
  (x + d) mod cap = if x mod cap + d <? cap then x mod cap + d else x mod cap + d - cap.
Proof.
  intros Hc Hd. pose proof (Z.mod_pos_bound x cap Hc).
  rewrite Z.add_mod, (Z.mod_small d) by lia.
  destruct (Z.ltb_spec (x mod cap + d) cap); [apply Z.mod_small; lia|].
  rewrite <- (Z.mod_add _ (-1)) by lia. apply Z.mod_small. lia.
Qed.

Lemma mod_distinct cap a b : a < b < a + cap -> a mod cap <> b mod cap.
Proof.
  intros Hab. pose proof (Z.mod_pos_bound a cap ltac:(lia)).
  replace b with (a + (b - a)) by lia. rewrite mod_add_cases by lia.
  case_bool; lia.
Qed.

(** Remove the reductions modulo [2^64] whose argument is in range. *)
Ltac unwrap :=
  repeat match goal with
  | |- context [wrap 64 ?z] => rewrite (wrap_u64_small z) by lia
  | H : context [wrap 64 ?z] |- _ => rewrite (wrap_u64_small z) in H by lia
  end.

(** Case analysis on where an index lands in the ring. *)
Ltac ring_arith cap x :=
  unfold cap_ok in *; pose proof (Z.mod_pos_bound x cap ltac:(lia));
  rewrite ?mod_add_cases by lia; unwrap;
  repeat (case_bool; unwrap); try lia.

Lemma size_mod cap H T :
  cap_ok cap -> T <= H < T + cap -> circularBufferSize cap (H mod cap) (T mod cap) = H - T.
Proof.
  intros Hc Hd. unfold circularBufferSize. replace H with (T + (H - T)) by lia.
  ring_arith cap T.
Qed.

Lemma free_mod cap H T :
  cap_ok cap -> T <= H < T + cap ->
  circularBufferFreeSpace cap (H mod cap) (T mod cap) = cap - 1 - (H - T).
Proof.
  intros Hc Hd. pose proof (size_mod cap H T Hc Hd) as Hs.
  unfold circularBufferFreeSpace. unfold circularBufferSize in Hs. rewrite Hs.
  unfold cap_ok in Hc. rewrite !wrap_u64_small by (rewrite ?wrap_u64_small by lia; lia). lia.
Qed.

Lemma next_index_mod cap H c :
  cap_ok cap -> 0 <= c < cap -> next_index cap (H mod cap) c = (H + c) mod cap.
Proof. intros Hc Hd. unfold next_index. ring_arith cap H. Qed.

(** The two-piece copy of [push] and [pop] addresses exactly the bytes that the modulo
    loop it replaces would address: byte [w] of a chunk that starts at ring offset
    [H mod cap] sits at offset [(H + w) mod cap]. *)
Theorem slot_mod cap H c w :
  cap_ok cap -> 0 <= w < c -> c < cap -> slot cap (H mod cap) c w = (H + w) mod cap.
Proof. intros Hc Hw Hd. unfold slot, first_part. ring_arith cap H. Qed.

Lemma slot_mod_witness : slot 8 (29 mod 8) 6 4 = (29 + 4) mod 8.
Proof. apply (slot_mod 8 29 6 4); unfold cap_ok; lia. Defined.

Lemma chunkSize_bounds cap n :
  cap_ok cap -> 0 < n -> 0 < chunkSize cap n < cap /\ chunkSize cap n <= n.
Proof.
  unfold cap_ok, chunkSize. intros. rewrite !wrap_u64_small by lia. case_bool; lia.
Qed.

(** ** The invariant *)

Section Inv.
Context `{WP : WaitPolicy}.

(** Ring bytes [lo .. hi) (unbounded positions) hold the corresponding pushed bytes. *)
Definition holds (cap : Z) (buf pushed : list Z) (lo hi : Z) : Prop :=
  forall k, lo <= k < hi -> zget buf (k mod cap) = zget pushed k.

(** Position of [ptr] in the stream of pushed bytes. *)
Definition p_base (H : Z) (pc : ppc) : Z :=
  match pc with PSignal c => H - c | _ => H end.

Definition p_inv (cap H T' : Z) (buf pushed : list Z) (p : producer) : Prop :=
  let n := Z.of_nat (length pushed) in
  let fits c := 0 < c < cap /\ H + c <= n in
  0 <= p_base H (p_pc p) <= n /\
  p_data p = drop (Z.to_nat (p_base H (p_pc p))) pushed /\
  match p_pc p with
  | PIdle => H = n
  | PLoop => True
  | PWaitFreeSpace c => fits c
  | PLoadTail c h | PWaitBegin c h | PWaitEnd c h => fits c /\ h = H mod cap
  | PLoadHead c => fits c /\ H + c < T' + cap
  | PCopy c h w =>
      fits c /\ H + c < T' + cap /\ h = H mod cap /\ 0 <= w <= c
      /\ holds cap buf pushed H (H + w)
  | PStoreHead c h =>
      fits c /\ H + c < T' + cap /\ h = H mod cap /\ holds cap buf pushed H (H + c)
  | PSignal c => 0 < c
  end.

(** Bytes of the current chunk already handed to the caller. *)
Definition c_done (pc : cpc) : Z :=
  match pc with CCopy _ _ w => w | CStoreTail c _ => c | _ => 0 end.

Definition c_inv (cap T H' : Z) (pushed : list Z) (c : consumer) : Prop :=
  let fits n := 0 < n < cap /\ n <= c_want c in
  0 <= c_want c /\ 0 <= c_done (c_pc c) /\
  c_out c = take (Z.to_nat (T + c_done (c_pc c))) pushed /\
  match c_pc c with
  | CIdle => c_want c = 0
  | CLoop => True
  | CWaitElemPresent n => fits n
  | CLoadHead n t | CWaitBegin n t | CWaitEnd n t => fits n /\ t = T mod cap
  | CLoadTail n => fits n /\ T + n <= H'
  | CCopy n t w => fits n /\ T + n <= H' /\ t = T mod cap /\ w <= n
  | CStoreTail n t => fits n /\ T + n <= H' /\ t = T mod cap
  | CSignal n => fits n
  end.

Record ring_inv (cap : Z) (s : system) (H T T' H' : Z) : Prop := RingInv {
  inv_cap : cap_ok cap;
  inv_cap_p : capacity (p_obj (pr s)) = cap;
  inv_cap_c : capacity (c_obj (co s)) = cap;
  inv_len : Z.of_nat (length (buffer (sh s))) = cap;
  inv_order : 0 <= T' <= T /\ T <= H' <= H /\ H < T' + cap /\ H <= Z.of_nat (length (pushed s));
  inv_head : head (sh s) = H mod cap;
  inv_tail : tail (sh s) = T mod cap;
  inv_ct : cachedTail (p_obj (pr s)) = T' mod cap;
  inv_ch : cachedHead (c_obj (co s)) = H' mod cap;
  inv_data : holds cap (buffer (sh s)) (pushed s) T H;
  inv_p : p_inv cap H T' (buffer (sh s)) (pushed s) (pr s);
  inv_c : c_inv cap T H' (pushed s) (co s) }.

Definition good (cap : Z) (s : system) : Prop := exists H T T' H', ring_inv cap s H T T' H'.

(** Destruct a state that satisfies the invariant down to its fields. *)
Ltac open_inv s Hinv :=
  destruct s as [[hd tl buf wt] [[pcap pch pct] pc data] [[ccap cch cct] pcc want out] str];
  destruct Hinv as [Hc Hcp Hcc Hlen Hord Hhd Htl Hct Hch Hdat Hp Hco]; simpl in *;
  subst pcap ccap hd tl pct cch.

Lemma holds_extend cap buf buf' str lo hi x :
  0 < cap -> Z.of_nat (length buf) = cap -> lo <= hi -> hi < lo + cap ->
  holds cap buf str lo hi -> zset buf (hi mod cap) x = Some buf' -> zget str hi = Some x ->
  holds cap buf' str lo (hi + 1).
Proof.
  intros Hc Hl Hle Hroom Hh Hs Hx k Hk.
  rewrite (zget_zset _ _ _ _ _ Hs). destruct (decide (k = hi)) as [->|Hne].
  - by rewrite decide_True.
  - rewrite decide_False; [apply Hh; lia|]. apply mod_distinct. lia.
Qed.

Lemma holds_app cap buf str lo mid hi :
  holds cap buf str lo mid -> holds cap buf str mid hi -> holds cap buf str lo hi.
Proof. intros H1 H2 k Hk. destruct (Z.lt_ge_cases k mid); [apply H1|apply H2]; lia. Qed.

Lemma holds_weaken cap buf str lo hi lo' hi' :
  holds cap buf str lo hi -> lo <= lo' -> hi' <= hi -> holds cap buf str lo' hi'.
Proof. intros H1 ? ? k Hk. apply H1. lia. Qed.

Lemma holds_more cap buf str more lo hi :
  0 <= lo -> hi <= Z.of_nat (length str) ->
  holds cap buf str lo hi -> holds cap buf (str ++ more) lo hi.
Proof.
  intros Hlo Hhi Hh k Hk. rewrite Hh by lia.
  rewrite !zget_nonneg by lia. rewrite lookup_app_l; [done|]. lia.
Qed.

Lemma p_byte (str : list Z) H w b :
  0 <= H -> 0 <= w -> zget (drop (Z.to_nat H) str) w = Some b -> zget str (H + w) = Some b.
Proof.
  intros ? ?. rewrite !zget_nonneg, lookup_drop by lia. intros <-. f_equal. lia.
Qed.

Lemma take_snoc_byte (str : list Z) n b :
  0 <= n -> zget str n = Some b -> take (Z.to_nat n) str ++ [b] = take (Z.to_nat (n + 1)) str.
Proof.
  intros. rewrite zget_nonneg in * by lia.
  replace (Z.to_nat (n + 1)) with (S (Z.to_nat n)) by lia. by rewrite (take_S_r _ _ b).
Qed.

(** Close the clauses of the invariant that a step leaves alone. *)
Ltac keep :=
  cbv beta iota zeta; split; simpl; try done; try lia; unfold p_inv, c_inv; simpl; repeat split; try lia; try done.

(** The copy step of the producer: the byte lands in free space and in bounds. *)
Lemma producer_copy_good cap s H T T' H' c h w :
  ring_inv cap s H T T' H' -> p_pc (pr s) = PCopy c h w -> w < c ->
  exists sh' p', producer_step (sh s) (pr s) = Ok (sh', p')
    /\ ring_inv cap (System sh' p' (co s) (pushed s)) H T T' H'.
Proof.
  intros Hinv Epc Hlt. open_inv s Hinv. subst pc. unfold p_inv in Hp; simpl in Hp.
  destruct Hp as (Hb & Hdata & Hf & Hr & -> & Hw & Hh). pose proof Hc as Hc'.
  unfold cap_ok in Hc'. unfold producer_step; simpl. rewrite (proj2 (Z.ltb_lt _ _) Hlt).
  destruct (zget_is_Some data w) as [b Hgb]; [subst data; rewrite length_drop; lia|].
  rewrite Hgb. rewrite slot_mod by (done || lia).
  pose proof (Z.mod_pos_bound (H + w) cap ltac:(lia)).
  pose proof (zset_is_Some buf ((H + w) mod cap) b ltac:(lia)) as Hz. rewrite Hz.
  subst data. apply p_byte in Hgb; [|lia..].
  pose proof (holds_extend cap _ _ str T (H + w) b ltac:(lia) Hlen ltac:(lia) ltac:(lia)
    (holds_app _ _ _ _ _ _ Hdat Hh) Hz Hgb) as Hall.
  do 2 eexists. split; [done|]. keep.
  - by rewrite length_insert.
  - eapply holds_weaken; [exact Hall|lia|lia].
  - eapply holds_weaken; [exact Hall|lia|lia].
Qed.

(** The load of [tail] may even return an older value than the present one, as long as it is not
    older than the one cached. *)
Lemma producer_load_inv cap s H T T' H' Tk c h :
  ring_inv cap s H T T' H' -> p_pc (pr s) = PLoadTail c h -> T' <= Tk <= T ->
  let old := Shared (head (sh s)) (Tk mod cap) (buffer (sh s)) (waiter (sh s)) in
  exists p', producer_step old (pr s) = Ok (old, p') /\
    ring_inv cap (System (sh s) p' (co s) (pushed s)) H T Tk H'.
Proof.
  intros Hinv Epc Hk. open_inv s Hinv. subst pc. unfold p_inv in Hp; simpl in Hp.
  destruct Hp as (Hb & Hdata & ? & ->). pose proof Hc as Hc'. unfold cap_ok in Hc'.
  unfold producer_step, p_goto; simpl. rewrite free_mod by (done || lia).
  case_bool; (eexists; split; [done|]; keep).
Qed.

(** How a step of the producer moves its counters: a store publishes the chunk, a load of
    [tail] learns what the consumer has released. *)
Definition head_after (pc : ppc) (H : Z) : Z :=
  match pc with PStoreHead c _ => H + c | _ => H end.
Definition tail_seen (pc : ppc) (T T' : Z) : Z :=
  match pc with PLoadTail _ _ => T | _ => T' end.

(** The producer alone keeps the invariant, and never leaves the bounds of its buffers. *)
Lemma producer_step_inv cap s H T T' H' :
  ring_inv cap s H T T' H' ->
  match producer_step (sh s) (pr s) with
  | Ok (sh', p') =>
      ring_inv cap (System sh' p' (co s) (pushed s))
        (head_after (p_pc (pr s)) H) T (tail_seen (p_pc (pr s)) T T') H'
  | Block => True
  | _ => False
  end.
Proof.
  intros Hinv. pose proof Hinv as Hinv0. open_inv s Hinv. unfold p_inv in Hp; simpl in Hp.
  destruct Hp as (Hb & Hdata & Hpc). pose proof Hc as Hc'. unfold cap_ok in Hc'.
  unfold producer_step. destruct pc as [| |c|c h|c h|c h|c|c h w0|c h|c]; simpl in *; [done|..].
  - case_bool; simpl.
    + keep. subst data. rewrite length_drop in *. lia.
    + destruct (chunkSize_bounds cap (Z.of_nat (length data)) Hc ltac:(lia)) as [? ?].
      keep. subst data. rewrite length_drop in *. lia.
  - rewrite free_mod by (done || lia). case_bool; keep.
  - destruct Hpc as [? ->]. rewrite free_mod by (done || lia).
    case_bool; keep.
  - keep.
  - destruct (wait_end DataFree wt); [|done]. keep.
  - keep. intros k; lia.
  - case_bool.
    + destruct (producer_copy_good _ _ _ _ _ _ c h w0 Hinv0 eq_refl ltac:(done))
        as (sh' & p' & Hs & Hi).
      unfold producer_step in Hs. simpl in Hs. rewrite (proj2 (Z.ltb_lt _ _) E) in Hs.
      by rewrite Hs.
    + destruct Hpc as (Hf & Hr & -> & Hw & Hh). keep.
      eapply holds_weaken; [exact Hh|lia|lia].
  - destruct Hpc as (Hf & Hr & -> & Hh). keep.
    + apply next_index_mod; [done|lia].
    + by eapply holds_app.
    + by replace (H + c - c) with H by lia.
  - keep. subst data. rewrite drop_drop. f_equal. lia.
Qed.

Lemma producer_step_good cap s H T T' H' :
  ring_inv cap s H T T' H' ->
  match producer_step (sh s) (pr s) with
  | Ok (sh', p') => exists H2 T2', ring_inv cap (System sh' p' (co s) (pushed s)) H2 T T2' H'
  | Block => True
  | _ => False
  end.
Proof.
  intros Hinv. pose proof (producer_step_inv _ _ _ _ _ _ Hinv) as Hg.
  destruct (producer_step _ _) as [[sh' p']| | | |]; eauto.
Qed.

(** The copy step of the consumer reads a byte the producer published, in order. *)
Lemma consumer_copy_good cap s H T T' H' c t w :
  ring_inv cap s H T T' H' -> c_pc (co s) = CCopy c t w -> w < c ->
  exists c', consumer_step (sh s) (co s) = Ok (sh s, c')
    /\ ring_inv cap (System (sh s) (pr s) c' (pushed s)) H T T' H'.
Proof.
  intros Hinv Epc Hlt. open_inv s Hinv. subst pcc. unfold c_inv in Hco; simpl in Hco.
  destruct Hco as (Hwant & Hw & Hout & Hf & Hr & -> & Hwc). pose proof Hc as Hc'.
  unfold cap_ok in Hc'. unfold consumer_step; simpl. rewrite (proj2 (Z.ltb_lt _ _) Hlt).
  rewrite slot_mod by (done || lia). rewrite Hdat by lia.
  destruct (zget_is_Some str (T + w)) as [b Hgb]; [lia|]. rewrite Hgb.
  eexists. split; [done|]. keep.
  rewrite Hout, (take_snoc_byte _ _ b) by (done || lia). f_equal. lia.
Qed.

Lemma consumer_load_inv cap s H T T' H' Hk c t :
  ring_inv cap s H T T' H' -> c_pc (co s) = CLoadHead c t -> H' <= Hk <= H ->
  let old := Shared (Hk mod cap) (tail (sh s)) (buffer (sh s)) (waiter (sh s)) in
  exists c', consumer_step old (co s) = Ok (old, c') /\
    ring_inv cap (System (sh s) (pr s) c' (pushed s)) H T T' Hk.
Proof.
  intros Hinv Epc Hl. open_inv s Hinv. subst pcc. unfold c_inv in Hco; simpl in Hco.
  destruct Hco as (Hwant & Hd & Hout & ? & ->). pose proof Hc as Hc'. unfold cap_ok in Hc'.
  unfold consumer_step, c_goto; simpl. rewrite size_mod by (done || lia).
  case_bool; (eexists; split; [done|]; keep).
Qed.

Definition tail_after (pc : cpc) (T : Z) : Z :=
  match pc with CStoreTail c _ => T + c | _ => T end.
Definition head_seen (pc : cpc) (H H' : Z) : Z :=
  match pc with CLoadHead _ _ => H | _ => H' end.

(** The consumer alone keeps the invariant, and never reads outside the ring. *)
Lemma consumer_step_inv cap s H T T' H' :
  ring_inv cap s H T T' H' ->
  match consumer_step (sh s) (co s) with
  | Ok (sh', c') =>
      ring_inv cap (System sh' (pr s) c' (pushed s))
        H (tail_after (c_pc (co s)) T) T' (head_seen (c_pc (co s)) H H')
  | Block => True
  | _ => False
  end.
Proof.
  intros Hinv. pose proof Hinv as Hinv0. open_inv s Hinv. unfold c_inv in Hco; simpl in Hco.
  destruct Hco as (Hwant & Hd & Hout & Hpc). pose proof Hc as Hc'. unfold cap_ok in Hc'.
  unfold consumer_step. destruct pcc as [| |c|c t|c t|c t|c|c t w0|c t|c]; simpl in *; [done|..].
  - case_bool; simpl.
    + keep.
    + destruct (chunkSize_bounds cap want Hc ltac:(lia)) as [? ?]. keep.
  - rewrite size_mod by (done || lia). case_bool; keep.
  - destruct Hpc as [? ->]. rewrite size_mod by (done || lia). case_bool; keep.
  - keep.
  - destruct (wait_end DataPresent wt); [|done]. keep.
  - keep.
  - case_bool.
    + destruct (consumer_copy_good _ _ _ _ _ _ c t w0 Hinv0 eq_refl ltac:(done))
        as (c' & Hs & Hi).
      unfold consumer_step in Hs. simpl in Hs. rewrite (proj2 (Z.ltb_lt _ _) E) in Hs.
      by rewrite Hs.
    + destruct Hpc as (Hf & Hr & -> & Hw). keep.
      rewrite Hout. do 2 f_equal. lia.
  - destruct Hpc as (Hf & Hr & ->). keep.
    + apply next_index_mod; [done|lia].
    + eapply holds_weaken; [exact Hdat|lia|lia].
    + rewrite Hout. do 2 f_equal. lia.
  - keep.
Qed.

Lemma consumer_step_good cap s H T T' H' :
  ring_inv cap s H T T' H' ->
  match consumer_step (sh s) (co s) with
  | Ok (sh', c') =>
      exists T2 H2', T <= T2 /\ ring_inv cap (System sh' (pr s) c' (pushed s)) H T2 T' H2'
  | Block => True
  | _ => False
  end.
Proof.
  intros Hinv. pose proof (consumer_step_inv _ _ _ _ _ _ Hinv) as Hg.
  destruct (consumer_step _ _) as [[sh' c']| | | |]; try done.
  do 2 eexists. split; [|exact Hg].
  destruct (inv_c _ _ _ _ _ _ Hinv) as (_ & _ & _ & Hp). destruct (c_pc (co s)); simpl; lia.
Qed.

(** Beginning a [push] or a [pop] keeps the counters. *)
Lemma push_begin_inv cap s H T T' H' more :
  ring_inv cap s H T T' H' -> p_pc (pr s) = PIdle ->
  ring_inv cap (System (sh s) (Producer (p_obj (pr s)) PLoop more) (co s) (pushed s ++ more))
    H T T' H'.
Proof.
  intros Hinv Hpc. open_inv s Hinv. subst pc. unfold p_inv in Hp; simpl in Hp.
  destruct Hp as (Hb & Hdata & Hpc).
  unfold c_inv in Hco; simpl in Hco. destruct Hco as (? & ? & -> & Hpcc).
  assert (T + c_done pcc <= H') by (destruct pcc; simpl in *; lia).
  keep; rewrite ?length_app; try lia.
  + apply holds_more; [lia|lia|done].
  + rewrite drop_app_ge by lia. by replace (Z.to_nat H - length str)%nat with 0%nat by lia.
  + rewrite take_app_le; [done|lia].
Qed.

Lemma pop_begin_inv cap s H T T' H' n :
  ring_inv cap s H T T' H' -> c_pc (co s) = CIdle -> 0 <= n ->
  ring_inv cap (System (sh s) (pr s) (Consumer (c_obj (co s)) CLoop n (c_out (co s))) (pushed s))
    H T T' H'.
Proof.
  intros Hinv Hpc Hn. open_inv s Hinv. subst pcc. unfold c_inv in Hco; simpl in Hco.
  keep. tauto.
Qed.
Lemma step_good cap s s' : good cap s -> step s s' -> good cap s'.
Proof.
  intros (H & T & T' & H' & Hinv) Hstep.
  destruct Hstep as [s more Hpc|s n Hpc Hn|s sh' p' Hs|s sh' c' Hs].
  - exists H, T, T', H'. by apply push_begin_inv.
  - exists H, T, T', H'. by apply pop_begin_inv.
  - pose proof (producer_step_good _ _ _ _ _ _ Hinv) as Hg. rewrite Hs in Hg.
    destruct Hg as (H2 & T2' & ?). by exists H2, T, T2', H'.
  - pose proof (consumer_step_good _ _ _ _ _ _ Hinv) as Hg. rewrite Hs in Hg.
    destruct Hg as (T2 & H2' & _ & ?). by exists H, T2, T', H2'.
Qed.

Lemma initial_inv cap buf w :
  cap_ok cap -> Z.of_nat (length buf) = cap -> ring_inv cap (initial cap buf w) 0 0 0 0.
Proof.
  intros Hc Hl. unfold initial. pose proof Hc as Hc'. unfold cap_ok in Hc'.
  keep; rewrite ?Z.mod_0_l by lia; try done. intros k; lia.
Qed.

Lemma initial_good cap buf w :
  cap_ok cap -> Z.of_nat (length buf) = cap -> good cap (initial cap buf w).
Proof. exists 0, 0, 0, 0. by apply initial_inv. Qed.

Lemma reachable_good cap buf w s :
  cap_ok cap -> Z.of_nat (length buf) = cap -> star step (initial cap buf w) s -> good cap s.
Proof.
  intros Hc Hl Hstar. refine (star_invariant _ (good cap) _ _ _ Hstar _).
  - intros x y. apply step_good.
  - by apply initial_good.
Qed.

(** What a consumer would read next: [n] ring bytes from [tail] on. *)
Definition ring_contents (cap : Z) (sh : shared) (n : Z) : list Z :=
  (fun i => default 0 (zget (buffer sh) ((tail sh + i) mod cap))) <$> seqZ 0 n.

Lemma ring_contents_slice cap s H T :
  0 < cap -> 0 <= T <= H -> H <= Z.of_nat (length (pushed s)) -> tail (sh s) = T mod cap ->
  holds cap (buffer (sh s)) (pushed s) T H ->
  ring_contents cap (sh s) (H - T)
    = take (Z.to_nat (H - T)) (drop (Z.to_nat T) (pushed s)).
Proof.
  intros Hc HT HH Htl Hd. unfold ring_contents. apply list_eq_same_length with
    (n := Z.to_nat (H - T)); rewrite ?length_fmap, ?length_seqZ, ?length_take, ?length_drop; [lia..|].
  intros i x y Hi. rewrite list_lookup_fmap, lookup_seqZ_lt by lia. simpl.
  rewrite Htl, Zplus_mod_idemp_l, lookup_take_lt, lookup_drop by lia.
  replace (T + (0 + Z.of_nat i)) with (T + Z.of_nat i) by lia.
  rewrite Hd by lia. rewrite zget_nonneg by lia.
  replace (Z.to_nat (T + Z.of_nat i)) with (Z.to_nat T + i)%nat by lia.
  intros [= <-] Hy. by rewrite Hy.
Qed.

Lemma inv_size cap s H T T' H' o :
  ring_inv cap s H T T' H' -> capacity o = cap -> size o (sh s) = H - T.
Proof.
  intros [Hc _ _ _ Ho Hh Ht _ _ _ _ _] Ho'. unfold size. rewrite Ho', Hh, Ht.
  rewrite size_mod by (done || lia). done.
Qed.

Lemma inv_free cap s H T T' H' o :
  ring_inv cap s H T T' H' -> capacity o = cap -> freeSpace o (sh s) = cap - 1 - (H - T).
Proof.
  intros [Hc _ _ _ Ho Hh Ht _ _ _ _ _] Ho'. unfold freeSpace. rewrite Ho', Hh, Ht.
  rewrite free_mod by (done || lia). done.
Qed.

Lemma inv_contents cap s H T T' H' n :
  ring_inv cap s H T T' H' -> 0 <= n <= H - T ->
  ring_contents cap (sh s) n = take (Z.to_nat n) (drop (Z.to_nat T) (pushed s)).
Proof.
  intros [Hc _ _ _ Ho _ Htl _ _ Hd _ _] Hn. unfold cap_ok in Hc.
  replace n with (T + n - T) by lia. apply ring_contents_slice; try done; try lia.
  eapply holds_weaken; [exact Hd|lia|lia].
Qed.

(** A producer outside [push] has published everything it was given, a consumer outside
    [pop] has released everything it delivered. *)
Lemma inv_idle_p cap s H T T' H' :
  ring_inv cap s H T T' H' -> p_pc (pr s) = PIdle -> H = Z.of_nat (length (pushed s)).
Proof. intros Hinv Hpc. destruct (inv_p _ _ _ _ _ _ Hinv) as (_ & _ & Hp). by rewrite Hpc in Hp. Qed.

Lemma inv_idle_c cap s H T T' H' :
  ring_inv cap s H T T' H' -> c_pc (co s) = CIdle ->
  c_out (co s) = take (Z.to_nat T) (pushed s) /\ T = Z.of_nat (length (c_out (co s))).
Proof.
  intros Hinv Hpc. pose proof (inv_order _ _ _ _ _ _ Hinv).
  destruct (inv_c _ _ _ _ _ _ Hinv) as (_ & _ & Hout & _). rewrite Hpc in Hout. simpl in Hout.
  rewrite Z.add_0_r in Hout. split; [done|]. rewrite Hout, length_take. lia.
Qed.

(** ** Properties *)

(** FIFO, lossless, for every interleaving: in any reachable state of one producer and
    one consumer, the bytes handed to the callers of [pop] are a prefix of the bytes handed
    to [push], byte by byte, also in the middle of either operation and whatever the wait
    policy does (spurious wake-ups included). *)
Theorem ring_fifo cap buf w s :
  cap_ok cap -> Z.of_nat (length buf) = cap -> star step (initial cap buf w) s ->
  c_out (co s) `prefix_of` pushed s.
Proof.
  intros Hc Hl Hr. destruct (reachable_good _ _ _ _ Hc Hl Hr) as (H & T & T' & H' & Hinv).
  destruct (inv_c _ _ _ _ _ _ Hinv) as (_ & _ & -> & _).
  eexists. symmetry. apply take_drop.
Qed.

(** Memory safety of both operations: no reachable step of [push] or [pop] touches a
    byte outside the ring or outside the caller's buffer, and none throws. *)
Theorem ring_memory_safe cap buf w s :
  cap_ok cap -> Z.of_nat (length buf) = cap -> star step (initial cap buf w) s ->
  (producer_step (sh s) (pr s) = Block \/ returns (producer_step (sh s) (pr s))) /\
  (consumer_step (sh s) (co s) = Block \/ returns (consumer_step (sh s) (co s))).
Proof.
  intros Hc Hl Hr. destruct (reachable_good _ _ _ _ Hc Hl Hr) as (H & T & T' & H' & Hinv).
  pose proof (producer_step_good _ _ _ _ _ _ Hinv).
  pose proof (consumer_step_good _ _ _ _ _ _ Hinv). unfold returns.
  split; [destruct (producer_step _ _)|destruct (consumer_step _ _)]; naive_solver.
Qed.

(** Between operations [size()] counts exactly the bytes pushed and not yet popped,
    [freeSpace()] is what is left of [capacity - 1], and those bytes sit in the ring in
    order. *)
Theorem ring_quiescent cap buf w s :
  cap_ok cap -> Z.of_nat (length buf) = cap -> star step (initial cap buf w) s ->
  p_pc (pr s) = PIdle -> c_pc (co s) = CIdle ->
  let n := size (c_obj (co s)) (sh s) in
  n = Z.of_nat (length (pushed s)) - Z.of_nat (length (c_out (co s))) /\
  freeSpace (p_obj (pr s)) (sh s) = cap - 1 - n /\ 0 <= n < cap /\
  pushed s = c_out (co s) ++ ring_contents cap (sh s) n.
Proof.
  intros Hc Hl Hr Hpi Hci.
  destruct (reachable_good _ _ _ _ Hc Hl Hr) as (H & T & T' & H' & Hinv).
  pose proof (inv_order _ _ _ _ _ _ Hinv).
  pose proof (inv_idle_p _ _ _ _ _ _ Hinv Hpi) as HH.
  destruct (inv_idle_c _ _ _ _ _ _ Hinv Hci) as [Hout HT].
  intros n. subst n. rewrite (inv_size _ _ _ _ _ _ _ Hinv (inv_cap_c _ _ _ _ _ _ Hinv)).
  rewrite (inv_free _ _ _ _ _ _ _ Hinv (inv_cap_p _ _ _ _ _ _ Hinv)).
  rewrite (inv_contents _ _ _ _ _ _ (H - T) Hinv) by lia. repeat split; try lia.
  rewrite Hout, (take_ge (drop _ _)); [by rewrite take_drop|]. rewrite length_drop. lia.
Qed.

(** ** One operation run on its own *)

Lemma run_producer_S n sh p :
  run_producer (S n) sh p =
    match p_pc p with
    | PIdle => Ok (sh, p)
    | _ => '(sh', p') ← producer_step sh p; run_producer n sh' p'
    end.
Proof. reflexivity. Qed.

Lemma run_consumer_S n sh c :
  run_consumer (S n) sh c =
    match c_pc c with
    | CIdle => Ok (sh, c)
    | _ => '(sh', c') ← consumer_step sh c; run_consumer n sh' c'
    end.
Proof. reflexivity. Qed.

Lemma run_producer_good cap fuel s H T T' H' sh' p' :
  ring_inv cap s H T T' H' -> run_producer fuel (sh s) (pr s) = Ok (sh', p') ->
  exists H2 T2', ring_inv cap (System sh' p' (co s) (pushed s)) H2 T T2' H'.
Proof.
  revert s H T'. induction fuel as [|n IH]; intros s H T' Hinv; simpl.
  - destruct (p_pc (pr s)); intros [= <- <-]; exists H, T'; by destruct s.
  - pose proof (producer_step_good _ _ _ _ _ _ Hinv) as Hg.
    destruct (p_pc (pr s)) eqn:Ep; [intros [= <- <-]; exists H, T'; by destruct s|..];
      (destruct (producer_step (sh s) (pr s)) as [[sh1 p1]| | | |]; try done;
       destruct Hg as (H2 & T2' & Hi); simpl; intros Hr; apply (IH _ _ _ Hi Hr)).
Qed.

Lemma run_consumer_good cap fuel s H T T' H' sh' c' :
  ring_inv cap s H T T' H' -> run_consumer fuel (sh s) (co s) = Ok (sh', c') ->
  exists T2 H2', T <= T2 /\ ring_inv cap (System sh' (pr s) c' (pushed s)) H T2 T' H2'.
Proof.
  revert s T H'. induction fuel as [|n IH]; intros s T H' Hinv; simpl.
  - destruct (c_pc (co s)); intros [= <- <-]; exists T, H'; (split; [lia|]); by destruct s.
  - pose proof (consumer_step_good _ _ _ _ _ _ Hinv) as Hg.
    destruct (c_pc (co s)) eqn:Ep; [intros [= <- <-]; exists T, H'; (split; [lia|]); by destruct s|..];
      (destruct (consumer_step (sh s) (co s)) as [[sh1 c1]| | | |]; try done;
       destruct Hg as (T2 & H2' & Hle & Hi); simpl; intros Hr;
       destruct (IH _ _ _ Hi Hr) as (T3 & H3' & ? & ?); exists T3, H3'; split; [lia|done]).
Qed.

(** One step of a thread run on its own. *)
#[local] Arguments run_producer : simpl never.
#[local] Arguments run_consumer : simpl never.
Ltac run1 :=
  first [rewrite run_producer_S | rewrite run_consumer_S];
  cbn [p_pc p_goto c_pc c_goto];
  first [unfold producer_step at 1 | unfold consumer_step at 1]; simpl.

(** The copy loops terminate: [c - w] more steps, and only ring bytes change. *)
Lemma run_producer_copy cap hd tl buf wt o data H c w n k :
  cap_ok cap -> capacity o = cap -> Z.of_nat (length buf) = cap -> 0 <= w -> c < cap ->
  w + Z.of_nat n = c -> c <= Z.of_nat (length data) ->
  exists buf', run_producer (n + k) (Shared hd tl buf wt) (Producer o (PCopy c (H mod cap) w) data)
    = run_producer k (Shared hd tl buf' wt) (Producer o (PCopy c (H mod cap) c) data).
Proof.
  intros Hc Ho. revert buf w. induction n as [|n IH]; intros buf w Hl Hw Hcc Hn Hd.
  - exists buf. by replace w with c by lia.
  - cbn [Nat.add]. run1. rewrite Ho.
    rewrite (proj2 (Z.ltb_lt w c)) by lia.
    destruct (zget_is_Some data w) as [b ->]; [lia|].
    pose proof (Z.mod_pos_bound (H + w) cap ltac:(unfold cap_ok in Hc; lia)).
    rewrite slot_mod, zset_is_Some by (done || lia).
    apply (IH _ (w + 1)); [rewrite length_insert|..]; lia.
Qed.

Lemma run_consumer_copy cap shd o want out H c w n k :
  cap_ok cap -> capacity o = cap -> Z.of_nat (length (buffer shd)) = cap -> 0 <= w -> c < cap ->
  w + Z.of_nat n = c ->
  exists out', run_consumer (n + k) shd (Consumer o (CCopy c (H mod cap) w) want out)
    = run_consumer k shd (Consumer o (CCopy c (H mod cap) c) want out').
Proof.
  intros Hc Ho Hl. revert out w. induction n as [|n IH]; intros out w Hw Hcc Hn.
  - exists out. by replace w with c by lia.
  - cbn [Nat.add]. run1. rewrite Ho.
    rewrite (proj2 (Z.ltb_lt w c)) by lia.
    pose proof (Z.mod_pos_bound (H + w) cap ltac:(unfold cap_ok in Hc; lia)).
    rewrite slot_mod by (done || lia).
    destruct (zget_is_Some (buffer shd) ((H + w) mod cap)) as [b ->]; [lia|].
    apply (IH _ (w + 1)); lia.
Qed.

Lemma chunkSize_fits cap n : cap_ok cap -> n < cap -> chunkSize cap n = n.
Proof. unfold cap_ok, chunkSize. intros. unwrap. case_bool; lia. Qed.


(** The tail of a chunk: store the index, signal, leave the loop. *)
Lemma run_producer_finish cap H T buf wt o data c k :
  capacity o = cap -> c = Z.of_nat (length data) ->
  exists sh' p', p_pc p' = PIdle /\ tail sh' = T /\
    run_producer (4 + k) (Shared H T buf wt) (Producer o (PCopy c H c) data) = Ok (sh', p').
Proof.
  intros Ho ->. cbn [Nat.add]. run1. rewrite Z.ltb_irrefl. simpl. run1. run1.
  rewrite Nat2Z.id, drop_all. run1.
  do 2 eexists. split; [|split; [|by destruct k]]; done.
Qed.

Lemma run_consumer_finish cap H T buf wt o out c k :
  capacity o = cap ->
  exists sh' c', c_pc c' = CIdle /\ tail sh' = next_index cap T c /\
    run_consumer (4 + k) (Shared H T buf wt) (Consumer o (CCopy c T c) c out) = Ok (sh', c').
Proof.
  intros Ho. cbn [Nat.add]. run1. rewrite Z.ltb_irrefl. simpl. run1. run1.
  rewrite Z.sub_diag. run1.
  do 2 eexists. split; [|split; [|by destruct k]]; simpl; by rewrite ?Ho.
Qed.

(** The producer alone completes a [push] that fits in the free space, the consumer alone
    a [pop] of what is present; neither ever waits. *)
Lemma run_push cap s H T T' H' new :
  ring_inv cap s H T T' H' -> 0 < Z.of_nat (length new) < cap - (H - T) ->
  exists sh' p', p_pc p' = PIdle /\ tail sh' = tail (sh s) /\
    run_producer (length new + 9) (sh s) (Producer (p_obj (pr s)) PLoop new) = Ok (sh', p').
Proof.
  intros Hinv Hn. open_inv s Hinv. clear Hp Hco Hdat.
  assert (forall k o, capacity o = cap -> exists sh' p', p_pc p' = PIdle /\ tail sh' = T mod cap /\
    run_producer (length new + (4 + k)) (Shared (H mod cap) (T mod cap) buf wt)
      (Producer o (PCopy (Z.of_nat (length new)) (H mod cap) 0) new) = Ok (sh', p')) as Hcopy.
  { intros k o Ho.
    destruct (run_producer_copy cap (H mod cap) (T mod cap) buf wt o new H
      (Z.of_nat (length new)) 0 (length new) (4 + k)) as [buf' ->]; try done; try lia.
    by apply (run_producer_finish cap). }
  replace (length new + 9)%nat with (S (S (S (length new + 6)))) by lia.
  run1. rewrite (proj2 (Z.eqb_neq _ _)) by lia. simpl. rewrite chunkSize_fits by (done || lia).
  run1. rewrite !free_mod by (done || lia). case_bool; simpl; run1.
  - apply (Hcopy 2%nat). done.
  - rewrite free_mod, (proj2 (Z.ltb_ge _ _)) by (done || lia). simpl.
    replace (length new + 6)%nat with (S (length new + 5)) by lia. run1. apply (Hcopy 1%nat). done.
Qed.

Lemma run_pop cap s H T T' H' n :
  ring_inv cap s H T T' H' -> 0 < n <= H - T ->
  exists sh' c', c_pc c' = CIdle /\ tail sh' = (T + n) mod cap /\
    run_consumer (Z.to_nat n + 9) (sh s) (Consumer (c_obj (co s)) CLoop n (c_out (co s)))
      = Ok (sh', c').
Proof.
  intros Hinv Hn. open_inv s Hinv. clear Hp Hco.
  assert (forall k o, capacity o = cap -> exists sh' c',
    c_pc c' = CIdle /\ tail sh' = (T + n) mod cap /\
    run_consumer (Z.to_nat n + (4 + k)) (Shared (H mod cap) (T mod cap) buf wt)
      (Consumer o (CCopy n (T mod cap) 0) n out) = Ok (sh', c')) as Hcopy.
  { intros k o Ho.
    destruct (run_consumer_copy cap (Shared (H mod cap) (T mod cap) buf wt) o n out T
      n 0 (Z.to_nat n) (4 + k)) as [out' ->]; try done; try lia.
    rewrite <- next_index_mod by (done || lia). by apply (run_consumer_finish cap). }
  replace (Z.to_nat n + 9)%nat with (S (S (S (Z.to_nat n + 6)))) by lia.
  run1. rewrite (proj2 (Z.eqb_neq _ _)) by lia. simpl. rewrite chunkSize_fits by (done || lia).
  run1. rewrite !size_mod by (done || lia). case_bool; simpl; run1.
  - apply (Hcopy 2%nat). done.
  - rewrite size_mod, (proj2 (Z.ltb_ge _ _)) by (done || lia). simpl.
    replace (Z.to_nat n + 6)%nat with (S (Z.to_nat n + 5)) by lia. run1. apply (Hcopy 1%nat). done.
Qed.

(** [push] as a function: from any reachable state in which the producer is outside
    [push], if the data fits in [freeSpace()] the call runs to completion on its own without
    waiting (bounded number of steps) and the readable contents of the ring become the old
    contents followed by the data. *)
Theorem ring_push_appends cap buf w s data :
  cap_ok cap -> Z.of_nat (length buf) = cap -> star step (initial cap buf w) s ->
  p_pc (pr s) = PIdle -> 0 < Z.of_nat (length data) <= freeSpace (p_obj (pr s)) (sh s) ->
  let n := size (p_obj (pr s)) (sh s) in
  exists sh' p',
    run_producer (length data + 9) (sh s) (Producer (p_obj (pr s)) PLoop data) = Ok (sh', p') /\
    p_pc p' = PIdle /\ size (p_obj p') sh' = n + Z.of_nat (length data) /\
    ring_contents cap sh' (n + Z.of_nat (length data)) = ring_contents cap (sh s) n ++ data.
Proof.
  intros Hc Hl Hr Hpi Hfit n.
  destruct (reachable_good _ _ _ _ Hc Hl Hr) as (H & T & T' & H' & Hinv).
  pose proof (inv_order _ _ _ _ _ _ Hinv) as Hord.
  pose proof (inv_cap_p _ _ _ _ _ _ Hinv) as Hcap.
  rewrite (inv_free _ _ _ _ _ _ _ Hinv Hcap) in Hfit.
  assert (n = H - T) as -> by (apply (inv_size _ _ _ _ _ _ _ Hinv Hcap)).
  destruct (run_push _ _ _ _ _ _ data Hinv) as (sh' & p' & Hpc' & Htl' & Hrun); [lia|].
  destruct (run_producer_good _ _ _ _ _ _ _ _ _
    (push_begin_inv _ _ _ _ _ _ data Hinv Hpi) Hrun) as (H2 & T2 & Hi2).
  pose proof (inv_idle_p _ _ _ _ _ _ Hinv Hpi) as HH.
  pose proof (inv_idle_p _ _ _ _ _ _ Hi2 Hpc') as HH2. cbn [pushed] in HH2.
  rewrite length_app in HH2.
  exists sh', p'. split; [done|]. split; [done|]. split.
  - pose proof (inv_size _ _ _ _ _ _ _ Hi2 (inv_cap_p _ _ _ _ _ _ Hi2)) as E. simpl in E.
    rewrite E. lia.
  - pose proof (inv_contents _ _ _ _ _ _ (H - T + Z.of_nat (length data)) Hi2 ltac:(lia)) as E.
    simpl in E. rewrite E, (inv_contents _ _ _ _ _ _ (H - T) Hinv) by lia.
    rewrite drop_app_le by lia.
    rewrite !take_ge by (rewrite ?length_app, ?length_drop; lia). done.
Qed.

(** [pop] as a function: from any reachable state in which the consumer is outside
    [pop], if [n] bytes are present the call runs to completion on its own without waiting,
    delivers exactly the [n] oldest bytes of the ring and leaves the others. *)
Theorem ring_pop_takes cap buf w s n :
  cap_ok cap -> Z.of_nat (length buf) = cap -> star step (initial cap buf w) s ->
  c_pc (co s) = CIdle -> 0 < n <= size (c_obj (co s)) (sh s) ->
  exists sh' c',
    run_consumer (Z.to_nat n + 9) (sh s) (Consumer (c_obj (co s)) CLoop n (c_out (co s)))
      = Ok (sh', c') /\
    c_pc c' = CIdle /\ size (c_obj c') sh' = size (c_obj (co s)) (sh s) - n /\
    c_out c' = c_out (co s) ++ ring_contents cap (sh s) n.
Proof.
  intros Hc Hl Hr Hci Hfit.
  destruct (reachable_good _ _ _ _ Hc Hl Hr) as (H & T & T' & H' & Hinv).
  pose proof (inv_order _ _ _ _ _ _ Hinv) as Hord.
  pose proof (inv_cap_c _ _ _ _ _ _ Hinv) as Hcap.
  rewrite (inv_size _ _ _ _ _ _ _ Hinv Hcap) in *.
  destruct (run_pop _ _ _ _ _ _ n Hinv) as (sh' & c' & Hpc' & Htl' & Hrun); [lia|].
  destruct (run_consumer_good _ _ _ _ _ _ _ _ _
    (pop_begin_inv _ _ _ _ _ _ n Hinv Hci ltac:(lia)) Hrun) as (T2 & H2 & HT2 & Hi2).
  pose proof (inv_order _ _ _ _ _ _ Hi2) as Hord2.
  pose proof (inv_tail _ _ _ _ _ _ Hi2) as Htl2. simpl in Htl2. rewrite Htl2 in Htl'.
  assert (T2 = T + n) as ->.
  { destruct (Z.lt_trichotomy T2 (T + n)) as [?|[?|?]]; [|done|];
      [pose proof (mod_distinct cap T2 (T + n))|pose proof (mod_distinct cap (T + n) T2)]; lia. }
  destruct (inv_idle_c _ _ _ _ _ _ Hinv Hci) as [Hout HT].
  destruct (inv_idle_c _ _ _ _ _ _ Hi2 Hpc') as [Hout2 _]. simpl in Hout2.
  exists sh', c'. split; [done|]. split; [done|]. split.
  - pose proof (inv_size _ _ _ _ _ _ _ Hi2 (inv_cap_c _ _ _ _ _ _ Hi2)) as E. simpl in E.
    rewrite E. lia.
  - rewrite Hout2, Hout, (inv_contents _ _ _ _ _ _ n Hinv) by lia.
    rewrite Z2Nat.inj_add by lia. by rewrite take_take_drop.
Qed.
End Inv.

(** ** Witnesses: an actual interleaving *)

(** A schedule of the system, executed. *)
Inductive action := APush (data : list Z) | APop (n : Z) | AProducer | AConsumer.

Definition act `{WaitPolicy} (a : action) (s : system) : option system :=
  match a with
  | APush data =>
      match p_pc (pr s) with
      | PIdle => Some (System (sh s) (Producer (p_obj (pr s)) PLoop data) (co s) (pushed s ++ data))
      | _ => None
      end
  | APop n =>
      match c_pc (co s) with
      | CIdle => if 0 <=? n
                 then Some (System (sh s) (pr s) (Consumer (c_obj (co s)) CLoop n (c_out (co s)))
                              (pushed s))
                 else None
      | _ => None
      end
  | AProducer => match producer_step (sh s) (pr s) with
                 | Ok (sh', p') => Some (System sh' p' (co s) (pushed s)) | _ => None end
  | AConsumer => match consumer_step (sh s) (co s) with
                 | Ok (sh', c') => Some (System sh' (pr s) c' (pushed s)) | _ => None end
  end.

Fixpoint exec `{WaitPolicy} (acts : list action) (s : system) : option system :=
  match acts with
  | [] => Some s
  | a :: acts' => s' ← act a s; exec acts' s'
  end.

Lemma exec_star `{WaitPolicy} acts s s' : exec acts s = Some s' -> star step s s'.
Proof.
  revert s. induction acts as [|a acts IH]; intros s; simpl.
  - intros [= ->]. constructor.
  - destruct (act a s) as [s1|] eqn:E; simpl; [|done]. intros Hx.
    apply star_step with s1; [|by apply IH].
    destruct a; simpl in E.
    + destruct (p_pc (pr s)) eqn:Ep; simplify_eq. by constructor.
    + destruct (c_pc (co s)) eqn:Ep; simplify_eq.
      destruct (Z.leb_spec 0 n); simplify_eq. by constructor.
    + destruct (producer_step _ _) as [[sh' p']| | | |] eqn:Ep; simplify_eq. by constructor.
    + destruct (consumer_step _ _) as [[sh' p']| | | |] eqn:Ep; simplify_eq. by constructor.
Qed.

#[local] Existing Instance SLIntPrQueueLockPolicy.

(** Capacity 4; [push] of 5 bytes in two chunks with a wrap, one blocked round of the
    producer, a [pop] of 2 bytes that starts before the data is published. *)
Definition demo_acts : list action :=
  [APush [10; 11; 12; 13; 14]] ++ replicate 4 AProducer ++ [APop 2] ++ replicate 3 AConsumer
  ++ replicate 20 AProducer ++ replicate 10 AConsumer ++ replicate 10 AProducer.

Definition demo_state (n : nat) : system :=
  default (initial 4 [0; 0; 0; 0] tt) (exec (take n demo_acts) (initial 4 [0; 0; 0; 0] tt)).

Lemma ring_fifo_witness :
  c_out (co (demo_state 35)) = [10; 11] /\
  c_out (co (demo_state 35)) `prefix_of` pushed (demo_state 35).
Proof.
  split; [reflexivity|].
  apply (ring_fifo (WP := SLIntPrQueueLockPolicy) 4 [0; 0; 0; 0] tt); [unfold cap_ok; lia|reflexivity|].
  apply (exec_star (take 35 demo_acts)). vm_compute. reflexivity.
Defined.

Lemma ring_memory_safe_witness :
  let s := demo_state 34 in
  (producer_step (sh s) (pr s) = Block \/ returns (producer_step (sh s) (pr s))) /\
  (consumer_step (sh s) (co s) = Block \/ returns (consumer_step (sh s) (co s))).
Proof.
  apply (ring_memory_safe (WP := SLIntPrQueueLockPolicy) 4 [0; 0; 0; 0] tt); [unfold cap_ok; lia|reflexivity|].
  apply (exec_star (take 34 demo_acts)). vm_compute. reflexivity.
Defined.

Lemma ring_quiescent_witness :
  let s := demo_state 49 in
  size (c_obj (co s)) (sh s) = 3 /\ pushed s = c_out (co s) ++ ring_contents 4 (sh s) 3.
Proof.
  destruct (ring_quiescent (WP := SLIntPrQueueLockPolicy) 4 [0; 0; 0; 0] tt (demo_state 49)) as (Hn & _ & _ & Hp);
    [unfold cap_ok; lia|reflexivity| |reflexivity|reflexivity|].
  - apply (exec_star (take 49 demo_acts)). vm_compute. reflexivity.
  - split; [reflexivity|exact Hp].
Defined.

Definition fresh : system := initial (WP := SLIntPrQueueLockPolicy) 4 [7; 7; 7; 7] tt.

Lemma ring_push_appends_witness :
  exists sh' p',
    run_producer 10 (sh fresh) (Producer (RingObj 4 0 0) PLoop [1]) = Ok (sh', p')
    /\ ring_contents 4 sh' 1 = [1].
Proof.
  destruct (ring_push_appends (WP := SLIntPrQueueLockPolicy) 4 [7; 7; 7; 7] tt
    fresh [1]) as (sh' & p' & Hrun & _ & _ & Hc);
    [unfold cap_ok; lia|reflexivity|constructor|reflexivity|vm_compute; split; congruence|].
  exists sh', p'. split; [exact Hrun|exact Hc].
Defined.

Lemma ring_pop_takes_witness :
  let s := demo_state 49 in
  exists sh' c',
    run_consumer 11 (sh s) (Consumer (c_obj (co s)) CLoop 2 (c_out (co s))) = Ok (sh', c')
    /\ c_out c' = [10; 11; 12; 13].
Proof.
  destruct (ring_pop_takes (WP := SLIntPrQueueLockPolicy) 4 [0; 0; 0; 0] tt (demo_state 49) 2)
    as (sh' & c' & Hrun & _ & _ & Hc); [unfold cap_ok; lia|reflexivity| |reflexivity| |].
  - apply (exec_star (take 49 demo_acts)). vm_compute. reflexivity.
  - vm_compute. split; congruence.
  - exists sh', c'. split; [exact Hrun|exact Hc].
Defined.
