(* ===== verification/RingSpec.v ===== *)
(** * The byte ring implements a bounded queue (headers/concurrency/ByteRing.h)

    The abstract specification of [ByteRing] is a list of bytes with a capacity, on which each
    operation is one line.  The ring as [initRing] makes it, with its indices, its cached copies of
    them and its two-part copies, is related to it by a lock-step simulation over any sequence of
    operations, each run on its own by its side. *)

From S2P Require Import Prelude ByteRing RingSafety.

Section Spec.
Context `{WP : WaitPolicy}.

(** ** One operation run on its own *)

Definition push_alone (fuel : nat) (s : system) (data : list Z) : res system :=
  '(sh', p') ← run_producer fuel (sh s) (Producer (p_obj (pr s)) PLoop data);
  Ok (System sh' p' (co s) (pushed s ++ data)).

(** The bytes [pop] stores for its caller are the ones gathered during the call. *)
Definition pop_alone (fuel : nat) (s : system) (n : Z) : res (list Z * system) :=
  '(sh', c') ← run_consumer fuel (sh s) (Consumer (c_obj (co s)) CLoop n (c_out (co s)));
  Ok (drop (length (c_out (co s))) (c_out c'), System sh' (pr s) c' (pushed s)).

Inductive op := Push (data : list Z) | Pop (n : Z).
(** A size is not negative. *)
Definition valid (o : op) : Prop := match o with Push _ => True | Pop n => 0 <= n end.

(** What an operation answers: nothing for [push], the bytes for [pop]. *)
Abbreviation answer := (list Z).

Definition ring_op (fuel : nat) (s : system) (o : op) : res (answer * system) :=
  match o with
  | Push data => s' ← push_alone fuel s data; Ok ([], s')
  | Pop n => pop_alone fuel s n
  end.

(** An operation that does not wait takes a step per byte and at most nine more. *)
Definition op_fuel (o : op) : nat :=
  match o with Push data => length data + 9 | Pop n => Z.to_nat n + 9 end.

(** The operations in order, until one does not return: the answers, what is left, and whether
    all of them returned. *)
Fixpoint ring_run (s : system) (ops : list op) : list answer * system * bool :=
  match ops with
  | [] => ([], s, true)
  | o :: ops' =>
      match ring_op (op_fuel o) s o with
      | Ok (a, s') => let '(answers, s'', all) := ring_run s' ops' in (a :: answers, s'', all)
      | _ => ([], s, false)
      end
  end.

(** ** The specification: a list with room for [room] bytes *)

(** [None]: the operation waits for the other side. *)
Definition fifo_op (room : Z) (l : list Z) (o : op) : option (answer * list Z) :=
  match o with
  | Push data =>
      if Z.of_nat (length l) + Z.of_nat (length data) <=? room then Some ([], l ++ data) else None
  | Pop n =>
      if n <=? Z.of_nat (length l) then Some (take (Z.to_nat n) l, drop (Z.to_nat n) l) else None
  end.
Fixpoint fifo_run (room : Z) (l : list Z) (ops : list op) : list answer * list Z * bool :=
  match ops with
  | [] => ([], l, true)
  | o :: ops' =>
      match fifo_op room l o with
      | Some (a, l') => let '(answers, l'', all) := fifo_run room l' ops' in (a :: answers, l'', all)
      | None => ([], l, false)
      end
  end.

(** ** Runs of one side *)

(** What is still to be popped, counted from the released bytes. *)
Definition left_to_pop (c : consumer) : Z :=
  match c_pc c with CSignal n => c_want c - n | _ => c_want c end.

Lemma consumer_step_left shd c sh' c' T :
  consumer_step shd c = Ok (sh', c') ->
  tail_after (c_pc c) T + left_to_pop c' = T + left_to_pop c.
Proof.
  destruct c as [[cap ch ct] pc want out]. unfold consumer_step, left_to_pop, c_goto.
  destruct pc; simpl; intros H; 
    repeat case_match; simplify_eq/=; lia.
Qed.

Lemma run_producer_idle fuel shd p sh' p' :
  run_producer fuel shd p = Ok (sh', p') -> p_pc p' = PIdle.
Proof.
  revert shd p. induction fuel as [|fuel IH]; intros shd p; simpl.
  - destruct (p_pc p) eqn:E; intros [= <- <-]; done.
  - destruct (p_pc p) eqn:E; [by intros [= <- <-]|..];
      (destruct (producer_step shd p) as [[sh1 p1]| | | |]; try done; apply IH).
Qed.

Lemma idle_left cap s H T T' H' :
  ring_inv cap s H T T' H' -> c_pc (co s) = CIdle ->
  ring_inv cap (System (sh s) (pr s) (co s) (pushed s)) H (T + left_to_pop (co s)) T' H'.
Proof.
  intros Hinv E. destruct (inv_c _ _ _ _ _ _ Hinv) as (_ & _ & _ & Hw). unfold left_to_pop.
  rewrite E in Hw |- *. rewrite Hw, Z.add_0_r. by destruct s.
Qed.

Lemma run_consumer_exact cap fuel s H T T' H' sh' c' :
  ring_inv cap s H T T' H' -> run_consumer fuel (sh s) (co s) = Ok (sh', c') ->
  c_pc c' = CIdle /\
  exists H2', ring_inv cap (System sh' (pr s) c' (pushed s)) H (T + left_to_pop (co s)) T' H2'.
Proof.
  revert s T H'. induction fuel as [|fuel IH]; intros s T H' Hinv.
  - simpl. destruct (c_pc (co s)) eqn:E; intros [= <- <-]. split; [done|]. exists H'.
    by apply idle_left.
  - rewrite run_consumer_S. pose proof (consumer_step_inv _ _ _ _ _ _ Hinv) as Hg.
    destruct (c_pc (co s)) eqn:E;
      [intros [= <- <-]; split; [done|]; exists H'; by apply idle_left|..];
      (destruct (consumer_step (sh s) (co s)) as [[sh1 c1]| | | |] eqn:E1; try done;
       cbn [mbind res_bind]; intros Hs;
       destruct (IH (System sh1 (pr s) c1 (pushed s)) _ _ Hg Hs) as (Hi & H2' & Hinv2);
       split; [done|]; exists H2'; simpl in Hinv2;
       pose proof (consumer_step_left _ _ _ _ T E1) as Hl; rewrite E in Hl; simpl in Hl;
       by rewrite Hl in Hinv2).
Qed.

(** A side that is alone returns, waits or goes round its wait, but does nothing undefined. *)
Definition waits {A} (r : res A) : Prop := r = Block \/ r = OutOfFuel.

Lemma run_producer_sound cap fuel s H T T' H' :
  ring_inv cap s H T T' H' ->
  returns (run_producer fuel (sh s) (pr s)) \/ waits (run_producer fuel (sh s) (pr s)).
Proof.
  revert s H T'. induction fuel as [|fuel IH]; intros s H T' Hinv.
  - simpl. destruct (p_pc (pr s)); [left; by eexists|..]; by right; right.
  - rewrite run_producer_S. pose proof (producer_step_good _ _ _ _ _ _ Hinv) as Hg.
    destruct (p_pc (pr s)); [left; by eexists|..];
      (destruct (producer_step (sh s) (pr s)) as [[sh1 p1]| | | |]; try done; [|by right; left];
       destruct Hg as (H2 & T2' & Hg); apply (IH _ _ _ Hg)).
Qed.

Lemma run_consumer_sound cap fuel s H T T' H' :
  ring_inv cap s H T T' H' ->
  returns (run_consumer fuel (sh s) (co s)) \/ waits (run_consumer fuel (sh s) (co s)).
Proof.
  revert s T H'. induction fuel as [|fuel IH]; intros s T H' Hinv.
  - simpl. destruct (c_pc (co s)); [left; by eexists|..]; by right; right.
  - rewrite run_consumer_S. pose proof (consumer_step_inv _ _ _ _ _ _ Hinv) as Hg.
    destruct (c_pc (co s)); [left; by eexists|..];
      (destruct (consumer_step (sh s) (co s)) as [[sh1 c1]| | | |]; try done; [|by right; left];
       apply (IH _ _ _ Hg)).
Qed.

(** ** The simulation *)

(** A ring of capacity [cap], both sides outside an operation, that holds [l]. *)
Definition represents (cap : Z) (s : system) (l : list Z) : Prop :=
  p_pc (pr s) = PIdle /\ c_pc (co s) = CIdle /\
  exists H T T' H', ring_inv cap s H T T' H' /\ l = drop (Z.to_nat T) (pushed s).

(** What the ring holds, read out of its memory. *)
Definition contents (s : system) : list Z :=
  ring_contents (capacity (p_obj (pr s))) (sh s) (size (p_obj (pr s)) (sh s)).

Lemma represents_contents cap s l :
  represents cap s l ->
  contents s = l /\ size (p_obj (pr s)) (sh s) = Z.of_nat (length l) /\
  freeSpace (p_obj (pr s)) (sh s) = cap - 1 - Z.of_nat (length l) /\ Z.of_nat (length l) < cap.
Proof.
  intros (Hp & Hc & H & T & T' & H' & Hinv & ->). unfold contents.
  pose proof (inv_order _ _ _ _ _ _ Hinv) as Ho. pose proof (inv_idle_p _ _ _ _ _ _ Hinv Hp) as HH.
  pose proof (inv_cap_p _ _ _ _ _ _ Hinv) as Hcap.
  rewrite (inv_size _ _ _ _ _ _ _ Hinv Hcap), (inv_free _ _ _ _ _ _ _ Hinv Hcap), Hcap, length_drop.
  rewrite (inv_contents _ _ _ _ _ _ _ Hinv) by lia. rewrite take_ge by (rewrite length_drop; lia).
  split_and!; try done; lia.
Qed.

Lemma ring_push_simulates cap s l data :
  represents cap s l -> Z.of_nat (length l) + Z.of_nat (length data) <= cap - 1 ->
  exists s', push_alone (length data + 9) s data = Ok s' /\ represents cap s' (l ++ data).
Proof.
  intros HR Hfit. pose proof HR as (Hp & Hc & H & T & T' & H' & Hinv & ->).
  pose proof (inv_order _ _ _ _ _ _ Hinv) as Ho. pose proof (inv_idle_p _ _ _ _ _ _ Hinv Hp) as HH.
  rewrite length_drop in Hfit.
  assert (exists sh' p', run_producer (length data + 9) (sh s) (Producer (p_obj (pr s)) PLoop data) =
    Ok (sh', p')) as (sh' & p' & Hrun).
  { destruct data as [|b data]; [by do 2 eexists|].
    destruct (run_push _ _ _ _ _ _ (b :: data) Hinv) as (sh' & p' & _ & _ & Hr); [simpl in *; lia|].
    by exists sh', p'. }
  exists (System sh' p' (co s) (pushed s ++ data)). unfold push_alone. rewrite Hrun. split; [done|].
  destruct (run_producer_good _ _ _ _ _ _ _ _ _ (push_begin_inv _ _ _ _ _ _ data Hinv Hp) Hrun)
    as (H2 & T2' & Hi2).
  split; [by eapply run_producer_idle|]. split; [done|]. exists H2, T, T2', H'. split; [exact Hi2|].
  simpl. by rewrite drop_app_le by lia.
Qed.

(** A [push] that returned has found room. *)
Lemma push_returns_fits cap s l data fuel s' :
  represents cap s l -> push_alone fuel s data = Ok s' ->
  Z.of_nat (length l) + Z.of_nat (length data) <= cap - 1.
Proof.
  intros (Hp & Hc & H & T & T' & H' & Hinv & ->). unfold push_alone.
  destruct (run_producer fuel _ _) as [[sh' p']| | | |] eqn:Hrun; try done. intros _.
  destruct (run_producer_good _ _ _ _ _ _ _ _ _ (push_begin_inv _ _ _ _ _ _ data Hinv Hp) Hrun)
    as (H2 & T2' & Hi2).
  pose proof (inv_order _ _ _ _ _ _ Hinv) as Ho. pose proof (inv_order _ _ _ _ _ _ Hi2) as Ho2.
  pose proof (inv_idle_p _ _ _ _ _ _ Hi2 (run_producer_idle _ _ _ _ _ Hrun)) as HH.
  simpl in *. rewrite length_drop, length_app in *. lia.
Qed.

Lemma pop_returns cap s l n fuel sh' c' :
  represents cap s l -> 0 <= n ->
  run_consumer fuel (sh s) (Consumer (c_obj (co s)) CLoop n (c_out (co s))) = Ok (sh', c') ->
  n <= Z.of_nat (length l) /\
  drop (length (c_out (co s))) (c_out c') = take (Z.to_nat n) l /\
  represents cap (System sh' (pr s) c' (pushed s)) (drop (Z.to_nat n) l).
Proof.
  intros (Hp & Hc & H & T & T' & H' & Hinv & ->) Hn Hrun.
  destruct (run_consumer_exact _ _ _ _ _ _ _ _ _ (pop_begin_inv _ _ _ _ _ _ n Hinv Hc Hn) Hrun)
    as (Hi & H2' & Hinv2). unfold left_to_pop in Hinv2. simpl in Hinv2.
  pose proof (inv_order _ _ _ _ _ _ Hinv) as Ho. pose proof (inv_order _ _ _ _ _ _ Hinv2) as Ho2.
  destruct (inv_idle_c _ _ _ _ _ _ Hinv Hc) as [Hout HT].
  destruct (inv_idle_c _ _ _ _ _ _ Hinv2 Hi) as [Hout2 HT2]. simpl in *.
  rewrite length_drop, drop_drop. split; [lia|]. split.
  - replace (length (c_out (co s))) with (Z.to_nat T) by lia. rewrite Hout2, Z2Nat.inj_add by lia.
    symmetry. apply take_drop_commute.
  - split; [done|]. split; [done|]. exists H, (T + n), T', H2'. split; [done|].
    simpl. f_equal. lia.
Qed.

Lemma ring_pop_simulates cap s l n :
  represents cap s l -> 0 <= n <= Z.of_nat (length l) ->
  exists s', pop_alone (Z.to_nat n + 9) s n = Ok (take (Z.to_nat n) l, s') /\
    represents cap s' (drop (Z.to_nat n) l).
Proof.
  intros HR Hn. pose proof HR as (Hp & Hc & H & T & T' & H' & Hinv & Hl).
  pose proof (inv_order _ _ _ _ _ _ Hinv) as Ho. pose proof (inv_idle_p _ _ _ _ _ _ Hinv Hp) as HH.
  assert (Hlen : Z.of_nat (length l) = H - T) by (rewrite Hl, length_drop; lia).
  assert (exists sh' c', run_consumer (Z.to_nat n + 9) (sh s)
    (Consumer (c_obj (co s)) CLoop n (c_out (co s))) = Ok (sh', c')) as (sh' & c' & Hrun).
  { destruct (Z.eq_dec n 0) as [->|Hn0]; [by do 2 eexists|].
    destruct (run_pop _ _ _ _ _ _ n Hinv) as (sh' & c' & _ & _ & Hr); [lia|]. by exists sh', c'. }
  destruct (pop_returns cap s l n _ sh' c' HR ltac:(lia) Hrun) as (_ & Hd & HR').
  exists (System sh' (pr s) c' (pushed s)). unfold pop_alone. rewrite Hrun. cbn [mbind res_bind].
  by rewrite Hd.
Qed.

Lemma op_simulates cap s l o :
  represents cap s l -> valid o ->
  match fifo_op (cap - 1) l o with
  | Some (a, l') => exists s', ring_op (op_fuel o) s o = Ok (a, s') /\ represents cap s' l'
  | None => forall fuel, waits (ring_op fuel s o)
  end.
Proof.
  intros HR Hv. pose proof HR as (Hp & Hc & H & T & T' & H' & Hinv & _).
  destruct o as [data|n]; simpl in *.
  - destruct (Z.leb_spec (Z.of_nat (length l) + Z.of_nat (length data)) (cap - 1)) as [Hfit|Hbig].
    { destruct (ring_push_simulates cap s l data HR Hfit) as (s' & -> & HR'). by exists s'. }
    intros fuel. pose proof (push_returns_fits cap s l data fuel) as Hret.
    destruct (run_producer_sound _ fuel _ _ _ _ _ (push_begin_inv _ _ _ _ _ _ data Hinv Hp))
      as [[[sh' p'] Hr]|Hr]; unfold push_alone in *; simpl in Hr.
    + rewrite Hr in Hret. exfalso. specialize (Hret _ HR eq_refl). lia.
    + by destruct Hr as [-> | ->]; [left|right].
  - destruct (Z.leb_spec n (Z.of_nat (length l))) as [Hfit|Hbig].
    { destruct (ring_pop_simulates cap s l n HR) as (s' & -> & HR'); [lia|]. by exists s'. }
    intros fuel. unfold pop_alone.
    destruct (run_consumer_sound _ fuel _ _ _ _ _ (pop_begin_inv _ _ _ _ _ _ n Hinv Hc Hv))
      as [[[sh' c'] Hr]|Hr]; simpl in Hr.
    + destruct (pop_returns cap s l n fuel sh' c' HR Hv Hr) as [Hle _]. lia.
    + by destruct Hr as [-> | ->]; [left|right].
Qed.

Lemma ring_run_simulates cap s l ops :
  represents cap s l -> Forall valid ops ->
  let '(answers, s', all) := ring_run s ops in
  fifo_run (cap - 1) l ops = (answers, contents s', all) /\
  (all = false -> exists o, ops !! length answers = Some o /\ forall fuel, waits (ring_op fuel s' o)).
Proof.
  revert s l. induction ops as [|o ops IH]; intros s l HR Hv; cbn [ring_run fifo_run].
  { destruct (represents_contents cap s l HR) as [-> _]. done. }
  apply Forall_cons in Hv as [Ho Hv]. pose proof (op_simulates cap s l o HR Ho) as Hop.
  destruct (fifo_op (cap - 1) l o) as [[a l']|].
  - destruct Hop as (s' & -> & HR'). specialize (IH s' l' HR' Hv).
    destruct (ring_run s' ops) as [[answers s''] all]. destruct IH as [-> IH]. split; [done|exact IH].
  - destruct (represents_contents cap s l HR) as [Hl _].
    destruct (Hop (op_fuel o)) as [-> | ->]; (split; [by rewrite Hl|]); intros _; by exists o.
Qed.

(** ** The ring as it is made *)

(** The two objects over one shared memory: the side that is the master initialises it, the other
    one attaches to it. *)
Definition made (mem : shared) (cap : Z) : res system :=
  '(sh1, o1) ← initRing mem cap MASTER;
  '(sh2, o2) ← initRing sh1 cap SLAVE;
  Ok (System sh2 (Producer o1 PIdle []) (Consumer o2 CIdle 0 []) []).

Lemma made_represents mem cap s :
  made mem cap = Ok s -> cap <= 2 ^ 63 -> Z.of_nat (length (buffer mem)) = cap ->
  represents cap s [].
Proof.
  unfold made, initRing, SIZE_MAX. intros H Hcap Hl.
  destruct (Z.gtb_spec cap (2 ^ 64 - 1)); [lia|]. destruct (Z.ltb_spec cap 2); [done|].
  injection H as <-. split; [done|]. split; [done|]. exists 0, 0, 0, 0. split; [|done].
  apply (initial_inv cap (buffer mem) (waiter mem)); [unfold cap_ok; lia|done].
Qed.

(** C17. [ByteRing] implements a bounded first-in-first-out queue: over a ring as [initRing] makes
    it, with any memory of the capacity's size behind it and any wait policy, any sequence of [push]
    and [pop] of any sizes, each run on its own, gives the answers of a list with room for one byte
    less than the capacity, up to the first operation for which the list has too little room or too
    few bytes; that one never returns on its own and does nothing undefined, and until then every
    operation takes a step per byte and at most nine more. *)
Theorem ring_refines_fifo mem cap s ops :
  made mem cap = Ok s -> cap <= 2 ^ 63 -> Z.of_nat (length (buffer mem)) = cap ->
  Forall valid ops ->
  let '(answers, s', all) := ring_run s ops in
  fifo_run (cap - 1) [] ops = (answers, contents s', all) /\
  (all = false -> exists o, ops !! length answers = Some o /\ forall fuel, waits (ring_op fuel s' o)).
Proof. intros Hm Hcap Hl. apply ring_run_simulates. by apply (made_represents mem). Qed.
End Spec.

(** ** Witnesses *)

#[local] Existing Instance SLIntPrQueueLockPolicy.

(** Four slots with some bytes of an earlier use in them. *)
Definition old_memory : shared := Shared 3 1 [7; 8; 9; 10] tt.
Definition some_ops : list op := [Push [30; 31]; Pop 1; Push [40; 50]; Pop 3; Push [60]; Pop 2].

Lemma ring_refines_fifo_witness :
  exists s s', made old_memory 4 = Ok s /\
    ring_run s some_ops = ([[]; [30]; []; [31; 40; 50]; []], s', false) /\
    contents s' = [60] /\ forall fuel, waits (ring_op fuel s' (Pop 2)).
Proof.
  destruct (made old_memory 4) as [s| | | |] eqn:Hm; try (vm_compute in Hm; discriminate Hm).
  pose proof (ring_refines_fifo old_memory 4 s some_ops Hm ltac:(lia) eq_refl) as H.
  assert (Hv : Forall valid some_ops) by (repeat constructor; simpl; lia). specialize (H Hv).
  vm_compute in Hm. injection Hm as <-.
  destruct (ring_run _ some_ops) as [[answers s'] all] eqn:Hr in H. do 2 eexists.
  split; [reflexivity|]. change (fifo_run (4 - 1) [] some_ops) with
    ([[]; [30]; []; [31; 40; 50]; []], [60], false) in H.
  destruct H as [[= <- Hc <-] H]. destruct (H eq_refl) as (o & [= <-] & Hw).
  split; [exact Hr|]. split; [by symmetry|exact Hw].
Defined.
