(* ===== verification/RingWeak.v ===== *)
(** * The byte ring under release/acquire (headers/concurrency/ByteRing.h, memory orders)

    The steps of ByteRing.v, run over a memory that is not sequentially consistent.  [head] and
    [tail] are the lists of all values stored to them; a thread that loads the index of the
    other side may get any value at least as new as the last one it saw, and the ring bytes are
    plain memory, with a detector of data races: a copy that meets an access of the other side
    which does not happen before it is undefined behaviour.

    A thread has a clock, the number of stores it made to its own index.  An access to a ring
    byte is stamped with the clock of its thread.  A release store sends the clock along with the
    value, and an acquire load that reads the value takes over what was sent: accesses with
    an earlier stamp happen before whatever the loading thread does next.  Nothing else
    orders the two threads; in particular the wait policy gives no ordering here, which allows
    more than any actual policy does (RingWeakWait.v adds the order that signals give).

    The memory orders are a parameter of the steps.  With those of the code there is no race and
    the bytes arrive in order; with any one of the four weakened there is a run with a race. *)

From S2P Require Import Prelude ByteRing RingSafety.

Inductive memory_order := memory_order_relaxed | memory_order_acquire | memory_order_release.

(** The orders of the accesses by which the two sides communicate. *)
Record orders := Orders {
  store_head : memory_order; load_head : memory_order;
  store_tail : memory_order; load_tail : memory_order }.

Definition ring_orders : orders := {|
  store_head := memory_order_release; load_head := memory_order_acquire;
  store_tail := memory_order_release; load_tail := memory_order_acquire |}.

(** A stored value, with the clock that an acquire load of it takes over. *)
Record message := Message { m_val : Z; m_clock : nat }.

(** [wrote] has the stamp of the producer's last write to each ring byte, [was_read] that of the
    consumer's last read. *)
Record memory := Memory {
  heads : list message; tails : list message; cells : list Z;
  wrote : gmap Z nat; was_read : gmap Z nat }.

(** [seen]: the newest message of the other side's index that was loaded;
    [acquired]: the other side's accesses with a smaller stamp happen before this thread. *)
Record view := View { clock : nat; seen : nat; acquired : nat }.

(** An index has one writer, who reads back what it stored last. *)
Definition latest (ms : list message) : Z := from_option m_val 0 (last ms).

Definition atomic_store (o : memory_order) (x : Z) (ms : list message) (v : view)
  : list message * view :=
  (ms ++ [Message x match o with memory_order_release => S (clock v) | _ => 0%nat end],
   View (S (clock v)) (seen v) (acquired v)).

(** [k] is the message the load happens to read. *)
Definition atomic_load (o : memory_order) (k : nat) (ms : list message) (v : view)
  : option (Z * view) :=
  if (seen v <=? k)%nat then
    msg ← ms !! k;
    Some (m_val msg,
      View (clock v) k
        match o with
        | memory_order_acquire => Nat.max (acquired v) (m_clock msg)
        | _ => acquired v
        end)
  else None.

#[global] Arguments atomic_load : simpl never.

(** The other side's last access to byte [i] happens before this point. *)
Definition ordered (stamps : gmap Z nat) (i : Z) (v : view) : bool :=
  match stamps !! i with Some e => (e <? acquired v)%nat | None => true end.

Section Weak.
Context `{WP : WaitPolicy} (Ord : orders).

Definition weak_producer_step (k : nat) (m : memory) (wt : wstate) (v : view) (p : producer)
  : res (memory * wstate * view * producer) :=
  let sees t := Shared (latest (heads m)) t (cells m) wt in
  match p_pc p with
  | PLoadTail _ _ =>
      match atomic_load (load_tail Ord) k (tails m) v with
      | None => Block
      | Some (t, v') => '(sh', p') ← producer_step (sees t) p; Ok (m, waiter sh', v', p')
      end
  | PCopy chunk h w =>
      let i := slot (capacity (p_obj p)) h chunk w in
      if (w <? chunk) && negb (ordered (was_read m) i v) then UB "data race on a ring byte"
      else
        '(sh', p') ← producer_step (sees (latest (tails m))) p;
        Ok (Memory (heads m) (tails m) (buffer sh')
              (if w <? chunk then <[i := clock v]> (wrote m) else wrote m) (was_read m),
            waiter sh', v, p')
  | PStoreHead _ _ =>
      '(sh', p') ← producer_step (sees (latest (tails m))) p;
      let '(ms, v') := atomic_store (store_head Ord) (head sh') (heads m) v in
      Ok (Memory ms (tails m) (cells m) (wrote m) (was_read m), waiter sh', v', p')
  | _ =>
      '(sh', p') ← producer_step (sees (latest (tails m))) p; Ok (m, waiter sh', v, p')
  end.

Definition weak_consumer_step (k : nat) (m : memory) (wt : wstate) (v : view) (c : consumer)
  : res (memory * wstate * view * consumer) :=
  let sees h := Shared h (latest (tails m)) (cells m) wt in
  match c_pc c with
  | CLoadHead _ _ =>
      match atomic_load (load_head Ord) k (heads m) v with
      | None => Block
      | Some (h, v') => '(sh', c') ← consumer_step (sees h) c; Ok (m, waiter sh', v', c')
      end
  | CCopy chunk t w =>
      let i := slot (capacity (c_obj c)) t chunk w in
      if (w <? chunk) && negb (ordered (wrote m) i v) then UB "data race on a ring byte"
      else
        '(sh', c') ← consumer_step (sees (latest (heads m))) c;
        Ok (Memory (heads m) (tails m) (cells m) (wrote m)
              (if w <? chunk then <[i := clock v]> (was_read m) else was_read m),
            waiter sh', v, c')
  | CStoreTail _ _ =>
      '(sh', c') ← consumer_step (sees (latest (heads m))) c;
      let '(ms, v') := atomic_store (store_tail Ord) (tail sh') (tails m) v in
      Ok (Memory (heads m) ms (cells m) (wrote m) (was_read m), waiter sh', v', c')
  | _ =>
      '(sh', c') ← consumer_step (sees (latest (heads m))) c; Ok (m, waiter sh', v, c')
  end.

(** [size()] and [freeSpace()], with [f] the function of CircularBuffer.h they call, as the
    producer and as the consumer run them: two acquire loads, one of which is of the
    thread's own index. *)
Definition producer_observes (f : Z -> Z -> Z -> Z) (cap : Z) (k : nat) (m : memory) (v : view)
  : option (Z * view) :=
  '(t, v') ← atomic_load memory_order_acquire k (tails m) v;
  Some (f cap (latest (heads m)) t, v').
Definition consumer_observes (f : Z -> Z -> Z -> Z) (cap : Z) (k : nat) (m : memory) (v : view)
  : option (Z * view) :=
  '(h, v') ← atomic_load memory_order_acquire k (heads m) v;
  Some (f cap h (latest (tails m)), v').

Record weak_system := WSystem {
  mem : memory; wt : wstate; p_view : view; c_view : view;
  w_pr : producer; w_co : consumer; w_pushed : list Z }.

(** The state of ByteRing.v that has the newest value of either index. *)
Definition newest (s : weak_system) : system :=
  System (Shared (latest (heads (mem s))) (latest (tails (mem s))) (cells (mem s)) (wt s))
    (w_pr s) (w_co s) (w_pushed s).

(** A call of [push], or of [pop], begins. *)
Definition begin_push (data : list Z) (s : weak_system) : weak_system :=
  WSystem (mem s) (wt s) (p_view s) (c_view s) (Producer (p_obj (w_pr s)) PLoop data) (w_co s)
    (w_pushed s ++ data).
Definition begin_pop (n : Z) (s : weak_system) : weak_system :=
  WSystem (mem s) (wt s) (p_view s) (c_view s) (w_pr s)
    (Consumer (c_obj (w_co s)) CLoop n (c_out (w_co s))) (w_pushed s).

Inductive weak_step : weak_system -> weak_system -> Prop :=
  | weak_push s data :
      p_pc (w_pr s) = PIdle ->
      weak_step s (begin_push data s)
  | weak_pop s n :
      c_pc (w_co s) = CIdle -> 0 <= n -> weak_step s (begin_pop n s)
  | weak_producer s k m w v p :
      weak_producer_step k (mem s) (wt s) (p_view s) (w_pr s) = Ok (m, w, v, p) ->
      weak_step s (WSystem m w v (c_view s) p (w_co s) (w_pushed s))
  | weak_consumer s k m w v c :
      weak_consumer_step k (mem s) (wt s) (c_view s) (w_co s) = Ok (m, w, v, c) ->
      weak_step s (WSystem m w (p_view s) v (w_pr s) c (w_pushed s))
  | weak_producer_observes s f cap k x v :
      p_pc (w_pr s) = PIdle -> producer_observes f cap k (mem s) (p_view s) = Some (x, v) ->
      weak_step s (WSystem (mem s) (wt s) v (c_view s) (w_pr s) (w_co s) (w_pushed s))
  | weak_consumer_observes s f cap k x v :
      c_pc (w_co s) = CIdle -> consumer_observes f cap k (mem s) (c_view s) = Some (x, v) ->
      weak_step s (WSystem (mem s) (wt s) (p_view s) v (w_pr s) (w_co s) (w_pushed s)).

(** A ring that the master initialised before either side ran. *)
Definition weak_initial (cap : Z) (buf : list Z) (w : wstate) : weak_system :=
  let s := initial cap buf w in
  WSystem (Memory [Message 0 0] [Message 0 0] buf ∅ ∅) w (View 0 0 0) (View 0 0 0)
    (pr s) (co s) [].

(** A schedule, executed: a step of the producer or of the consumer comes with the message that
    its load reads. *)
Inductive weak_action :=
  | WPush (data : list Z) | WPop (n : Z) | WProducer (k : nat) | WConsumer (k : nat).

Definition weak_act (a : weak_action) (s : weak_system) : res weak_system :=
  match a with
  | WPush data =>
      match p_pc (w_pr s) with
      | PIdle => Ok (begin_push data s)
      | _ => Block
      end
  | WPop n =>
      match c_pc (w_co s) with
      | CIdle => if 0 <=? n then Ok (begin_pop n s) else Block
      | _ => Block
      end
  | WProducer k =>
      '(m, w, v, p) ← weak_producer_step k (mem s) (wt s) (p_view s) (w_pr s);
      Ok (WSystem m w v (c_view s) p (w_co s) (w_pushed s))
  | WConsumer k =>
      '(m, w, v, c) ← weak_consumer_step k (mem s) (wt s) (c_view s) (w_co s);
      Ok (WSystem m w (p_view s) v (w_pr s) c (w_pushed s))
  end.

Fixpoint weak_exec (acts : list weak_action) (s : weak_system) : res weak_system :=
  match acts with
  | [] => Ok s
  | a :: acts' => s' ← weak_act a s; weak_exec acts' s'
  end.
End Weak.

(** ** The messages of one index

    The values stored to an index are the successive values of an unbounded counter, reduced
    modulo the capacity; the clock of each message is its place in the list. *)

Definition published (cap : Z) (xs : list Z) : list message :=
  imap (fun k x => Message (x mod cap) k) xs.

Definition mono (xs : list Z) : Prop :=
  forall i j x y, (i <= j)%nat -> xs !! i = Some x -> xs !! j = Some y -> x <= y.

(** The writer of an index: [X] is its counter now. *)
Record owns (cap : Z) (xs : list Z) (X : Z) (ms : list message) (v : view) : Prop := Owns {
  own_messages : ms = published cap xs;
  own_mono : mono xs;
  own_clock : length xs = S (clock v);
  own_now : xs !! clock v = Some X }.

(** The other side: it has cached the value [X'] of the counter and may have seen more. *)
Record follows (xs : list Z) (X' : Z) (v : view) : Prop := Follows {
  fol_acquired : acquired v = seen v;
  fol_seen : exists x, xs !! seen v = Some x /\ X' <= x }.

(** Every stamp is of an access to a position between the counter at that time and [hi]. *)
Definition stamped (cap : Z) (xs : list Z) (stamps : gmap Z nat) (hi : Z) : Prop :=
  forall i e, stamps !! i = Some e ->
  exists q x, q mod cap = i /\ xs !! e = Some x /\ x <= q < hi.

Lemma mono_snoc xs n X Y :
  mono xs -> length xs = S n -> xs !! n = Some X -> X <= Y -> mono (xs ++ [Y]).
Proof.
  intros Hm Hl HX HY i j x y Hij. rewrite !lookup_snoc. repeat case_decide; subst.
  - intros [= <-] [= <-]. lia.
  - intros ? ?%lookup_lt_Some. lia.
  - intros Hi [= <-]. pose proof (lookup_lt_Some _ _ _ Hi).
    pose proof (Hm i n x X ltac:(lia) Hi HX). lia.
  - by apply Hm.
Qed.

Lemma owns_latest cap xs X ms v : owns cap xs X ms v -> latest ms = X mod cap.
Proof.
  intros [-> _ Hl HX]. unfold latest, published. rewrite last_lookup, length_imap, Hl.
  simpl. rewrite list_lookup_imap, HX. done.
Qed.

Lemma owns_store cap xs X ms v Y :
  owns cap xs X ms v -> X <= Y ->
  let r := atomic_store memory_order_release (Y mod cap) ms v in
  owns cap (xs ++ [Y]) Y r.1 r.2.
Proof.
  intros [-> Hm Hl HX] HY. split; simpl.
  - unfold published. rewrite imap_app. simpl. by rewrite Hl, Nat.add_0_r.
  - by eapply mono_snoc.
  - rewrite length_app. simpl. lia.
  - rewrite lookup_snoc. by rewrite decide_True.
Qed.

(** Looking at the other side changes nothing for one's own index, and storing nothing for
    what was seen. *)
Lemma owns_view cap xs X ms v v' : owns cap xs X ms v -> clock v' = clock v -> owns cap xs X ms v'.
Proof. intros [? ? ? ?] E. split; by rewrite ?E. Qed.

Lemma follows_view xs X v v' :
  follows xs X v -> acquired v' = acquired v -> seen v' = seen v -> follows xs X v'.
Proof. intros [? ?] E1 E2. split; by rewrite ?E1, ?E2. Qed.

Lemma follows_more xs X v Y : follows xs X v -> follows (xs ++ [Y]) X v.
Proof. intros [? (x & Hx & ?)]. split; [done|]. exists x. by rewrite (lookup_app_l_Some _ _ _ _ Hx). Qed.

Lemma follows_weaken xs X X' v : follows xs X v -> X' <= X -> follows xs X' v.
Proof. intros [? (x & ? & ?)] ?. split; [done|]. exists x. split; [done|lia]. Qed.

(** An acquire load reads a value of the counter between the one cached and the one now, and
    takes over all that was done before it was stored. *)
Lemma follows_load cap xs X ms w X' v k x v' :
  owns cap xs X ms w -> follows xs X' v ->
  atomic_load memory_order_acquire k ms v = Some (x, v') ->
  exists y, x = y mod cap /\ X' <= y <= X /\ follows xs y v' /\ clock v' = clock v.
Proof.
  intros [-> Hm Hl HX] [Ha (z & Hz & HX')]. unfold atomic_load.
  destruct (Nat.leb_spec (seen v) k) as [Hk|]; [|done].
  unfold published. rewrite list_lookup_imap. destruct (xs !! k) as [y|] eqn:Ey; [|done].
  intros [= <- <-]. exists y. pose proof (lookup_lt_Some _ _ _ Ey).
  pose proof (Hm _ _ _ _ Hk Hz Ey). pose proof (Hm k (clock w) _ _ ltac:(lia) Ey HX).
  repeat split; simpl; try lia. by exists y.
Qed.

Lemma stamped_weaken cap xs stamps hi hi' :
  stamped cap xs stamps hi -> hi <= hi' -> stamped cap xs stamps hi'.
Proof. intros Hs Hle i e He. destruct (Hs i e He) as (q & x & ? & ? & ?). exists q, x. repeat split; try done; lia. Qed.

Lemma stamped_more cap xs stamps hi Y :
  stamped cap xs stamps hi -> stamped cap (xs ++ [Y]) stamps hi.
Proof.
  intros Hs i e He. destruct (Hs i e He) as (q & x & ? & Hx & ?).
  exists q, x. by rewrite (lookup_app_l_Some _ _ _ _ Hx).
Qed.

Lemma stamped_insert cap xs X ms v stamps hi r :
  stamped cap xs stamps hi -> owns cap xs X ms v -> X <= r < hi ->
  stamped cap xs (<[r mod cap := clock v]> stamps) hi.
Proof.
  intros Hs [_ _ _ HX] Hr i e. destruct (decide (i = r mod cap)) as [->|Hne].
  - rewrite lookup_insert_eq. intros [= <-]. by exists r, X.
  - rewrite lookup_insert_ne by done. apply Hs.
Qed.

(** The heart of the matter: a stamp that is not ordered belongs to a position beyond the
    cached counter, and no such position shares its cell with [r]. *)
Lemma stamped_ordered cap xs stamps hi X' v r :
  stamped cap xs stamps hi -> mono xs -> follows xs X' v ->
  (forall q, X' <= q < hi -> r < q < r + cap \/ q < r < q + cap) ->
  ordered stamps (r mod cap) v = true.
Proof.
  intros Hs Hm [Ha (z & Hz & HX')] Hq. unfold ordered.
  destruct (stamps !! (r mod cap)) as [e|] eqn:Ee; [|done].
  destruct (Hs _ _ Ee) as (q & x & Hqr & Hx & Hxq). apply Nat.ltb_lt. rewrite Ha.
  destruct (Nat.lt_ge_cases e (seen v)) as [?|Hge]; [done|].
  pose proof (Hm _ _ _ _ Hge Hz Hx).
  destruct (Hq q ltac:(lia)); [pose proof (mod_distinct cap r q)|pose proof (mod_distinct cap q r)];
    exfalso; lia || naive_solver lia.
Qed.

(** ** The invariant *)

Section WeakInv.
Context `{WP : WaitPolicy}.

(** What a step can touch. *)
Lemma producer_frame sh p sh' p' :
  producer_step sh p = Ok (sh', p') ->
  sh' = Shared (match p_pc p with PStoreHead _ _ => head sh' | _ => head sh end) (tail sh)
          (match p_pc p with PCopy _ _ _ => buffer sh' | _ => buffer sh end) (waiter sh').
Proof.
  destruct sh as [hd tl buf w], p as [o pc data]. unfold producer_step, p_goto. simpl.
  destruct pc; simpl; repeat case_match; by intros [= <- <-].
Qed.

Lemma consumer_frame sh c sh' c' :
  consumer_step sh c = Ok (sh', c') ->
  sh' = Shared (head sh) (match c_pc c with CStoreTail _ _ => tail sh' | _ => tail sh end)
          (buffer sh) (waiter sh').
Proof.
  destruct sh as [hd tl buf w], c as [o pc want out]. unfold consumer_step, c_goto. simpl.
  destruct pc; simpl; repeat case_match; by intros [= <- <-].
Qed.

(** What the step [Es] from the program counter [Epc] left alone. *)
Ltac framed lem Es Epc := apply lem in Es; rewrite Epc in Es; simpl in Es.

(** The ring as the newest values show it satisfies the invariant of RingSafety.v; each side
    owns its index, follows the other's, and the stamps of the ring bytes stay where the other
    side has not been told to go. *)
Record weak_inv (cap : Z) (s : weak_system) (hs ts : list Z) (H T T' H' : Z) : Prop := WeakInv {
  wk_ring : ring_inv cap (newest s) H T T' H';
  wk_heads : owns cap hs H (heads (mem s)) (p_view s);
  wk_tails : owns cap ts T (tails (mem s)) (c_view s);
  wk_p : follows ts T' (p_view s);
  wk_c : follows hs H' (c_view s);
  wk_wrote : stamped cap hs (wrote (mem s)) (T' + cap);
  wk_read : stamped cap ts (was_read (mem s)) H' }.

Definition weak_good (cap : Z) (s : weak_system) : Prop :=
  exists hs ts H T T' H', weak_inv cap s hs ts H T T' H'.

(** The three accesses of the producer that matter, and all the others. *)
Lemma weak_load_tail_good cap s hs ts H T T' H' k c h :
  weak_inv cap s hs ts H T T' H' -> p_pc (w_pr s) = PLoadTail c h ->
  match weak_producer_step ring_orders k (mem s) (wt s) (p_view s) (w_pr s) with
  | Ok (m, w, v, p) => weak_good cap (WSystem m w v (c_view s) p (w_co s) (w_pushed s))
  | Block => True
  | _ => False
  end.
Proof.
  intros [Hr Hh Ht Hp Hc Hw Hrd] Epc. unfold weak_producer_step. rewrite Epc. simpl.
  destruct (atomic_load _ _ _ _) as [[x v']|] eqn:El; [|done].
  destruct (follows_load _ _ _ _ _ _ _ _ _ _ Ht Hp El) as (y & -> & Hy & Hf & Hck).
  destruct (producer_load_inv _ _ _ _ _ _ y c h Hr Epc Hy) as (p' & Hs & Hi).
  simpl in Hs. rewrite Hs. simpl. exists hs, ts, H, T, y, H'. split; try done.
  - by eapply owns_view.
  - eapply stamped_weaken; [done|lia].
Qed.

Lemma weak_store_head_good cap s hs ts H T T' H' k c h :
  weak_inv cap s hs ts H T T' H' -> p_pc (w_pr s) = PStoreHead c h ->
  match weak_producer_step ring_orders k (mem s) (wt s) (p_view s) (w_pr s) with
  | Ok (m, w, v, p) => weak_good cap (WSystem m w v (c_view s) p (w_co s) (w_pushed s))
  | Block => True
  | _ => False
  end.
Proof.
  intros [Hr Hh Ht Hp Hc Hw Hrd] Epc.
  pose proof (producer_step_inv _ _ _ _ _ _ Hr) as Hg. simpl in Hg.
  unfold weak_producer_step. rewrite Epc in *. simpl in *.
  destruct (inv_p _ _ _ _ _ _ Hr) as (_ & _ & Hpc). simpl in Hpc. rewrite Epc in Hpc.
  destruct (producer_step _ _) as [[sh' p']| | | |] eqn:Es; try done. simpl.
  framed producer_frame Es Epc.
  pose proof (inv_head _ _ _ _ _ _ Hg) as Hhd. simpl in Hhd. rewrite Hhd.
  pose proof (owns_store _ _ _ _ _ (H + c) Hh ltac:(lia)) as Ho. simpl in Ho.
  exists (hs ++ [H + c]), ts, (H + c), T, T', H'. split; simpl; try done.
  - unfold newest; simpl. by rewrite (owns_latest _ _ _ _ _ Ho), <- Hhd, <- Es.
  - by eapply follows_view.
  - by apply follows_more.
  - by apply stamped_more.
Qed.

(** The producer writes where nothing of the consumer's is still going on. *)
Lemma weak_write_good cap s hs ts H T T' H' k c h w0 :
  weak_inv cap s hs ts H T T' H' -> p_pc (w_pr s) = PCopy c h w0 ->
  match weak_producer_step ring_orders k (mem s) (wt s) (p_view s) (w_pr s) with
  | Ok (m, w, v, p) => weak_good cap (WSystem m w v (c_view s) p (w_co s) (w_pushed s))
  | Block => True
  | _ => False
  end.
Proof.
  intros [Hr Hh Ht Hp Hc Hw Hrd] Epc.
  pose proof (producer_step_inv _ _ _ _ _ _ Hr) as Hg. simpl in Hg.
  unfold weak_producer_step. rewrite Epc in *. simpl in *.
  destruct (inv_p _ _ _ _ _ _ Hr) as (_ & _ & Hpc). simpl in Hpc. rewrite Epc in Hpc.
  destruct Hpc as (Hf & Hroom & -> & Hw0 & _). pose proof (inv_order _ _ _ _ _ _ Hr) as Hord.
  pose proof (inv_cap _ _ _ _ _ _ Hr) as Hcap. pose proof (inv_cap_p _ _ _ _ _ _ Hr) as Ecap.
  simpl in Ecap. rewrite Ecap.
  destruct (Z.ltb_spec w0 c) as [Hlt|]; simpl.
  - rewrite slot_mod by (done || lia).
    rewrite (stamped_ordered cap ts _ H' T' (p_view s) (H + w0) Hrd (own_mono _ _ _ _ _ Ht) Hp)
      by (intros; lia). simpl.
    destruct (producer_step _ _) as [[sh' p']| | | |] eqn:Es; try done. simpl.
    framed producer_frame Es Epc.
    exists hs, ts, H, T, T', H'. split; simpl; try done.
    + unfold newest; simpl. by rewrite <- Es.
    + eapply stamped_insert; [done..|lia].
  - destruct (producer_step _ _) as [[sh' p']| | | |] eqn:Es; try done. simpl.
    framed producer_frame Es Epc.
    exists hs, ts, H, T, T', H'. split; simpl; try done. unfold newest; simpl. by rewrite <- Es.
Qed.

Lemma weak_producer_good cap s hs ts H T T' H' k :
  weak_inv cap s hs ts H T T' H' ->
  match weak_producer_step ring_orders k (mem s) (wt s) (p_view s) (w_pr s) with
  | Ok (m, w, v, p) => weak_good cap (WSystem m w v (c_view s) p (w_co s) (w_pushed s))
  | Block => True
  | _ => False
  end.
Proof.
  intros Hi. destruct (p_pc (w_pr s)) as [| |c|c h|c h|c h|c|c h w0|c h|c] eqn:Epc;
    [..|by eapply weak_load_tail_good| | | |by eapply weak_write_good
      |by eapply weak_store_head_good|];
    destruct Hi as [Hr Hh Ht Hp Hc Hw Hrd];
    pose proof (producer_step_inv _ _ _ _ _ _ Hr) as Hg; simpl in Hg;
    unfold weak_producer_step; rewrite Epc in *; simpl in *;
    (destruct (producer_step _ _) as [[sh' p']| | | |] eqn:Es; try done); simpl;
    framed producer_frame Es Epc;
    (exists hs, ts, H, T, T', H'; split; simpl; try done);
    unfold newest; simpl; by rewrite <- Es.
Qed.

(** The same three of the consumer. *)
Lemma weak_load_head_good cap s hs ts H T T' H' k c t :
  weak_inv cap s hs ts H T T' H' -> c_pc (w_co s) = CLoadHead c t ->
  match weak_consumer_step ring_orders k (mem s) (wt s) (c_view s) (w_co s) with
  | Ok (m, w, v, c) => weak_good cap (WSystem m w (p_view s) v (w_pr s) c (w_pushed s))
  | Block => True
  | _ => False
  end.
Proof.
  intros [Hr Hh Ht Hp Hc Hw Hrd] Epc. unfold weak_consumer_step. rewrite Epc. simpl.
  destruct (atomic_load _ _ _ _) as [[x v']|] eqn:El; [|done].
  destruct (follows_load _ _ _ _ _ _ _ _ _ _ Hh Hc El) as (y & -> & Hy & Hf & Hck).
  destruct (consumer_load_inv _ _ _ _ _ _ y c t Hr Epc Hy) as (c' & Hs & Hi).
  simpl in Hs. rewrite Hs. simpl. exists hs, ts, H, T, T', y. split; try done.
  - by eapply owns_view.
  - eapply stamped_weaken; [done|lia].
Qed.

Lemma weak_store_tail_good cap s hs ts H T T' H' k c t :
  weak_inv cap s hs ts H T T' H' -> c_pc (w_co s) = CStoreTail c t ->
  match weak_consumer_step ring_orders k (mem s) (wt s) (c_view s) (w_co s) with
  | Ok (m, w, v, c) => weak_good cap (WSystem m w (p_view s) v (w_pr s) c (w_pushed s))
  | Block => True
  | _ => False
  end.
Proof.
  intros [Hr Hh Ht Hp Hc Hw Hrd] Epc.
  pose proof (consumer_step_inv _ _ _ _ _ _ Hr) as Hg. simpl in Hg.
  unfold weak_consumer_step. rewrite Epc in *. simpl in *.
  destruct (inv_c _ _ _ _ _ _ Hr) as (_ & _ & _ & Hpc). simpl in Hpc. rewrite Epc in Hpc.
  destruct (consumer_step _ _) as [[sh' c']| | | |] eqn:Es; try done. simpl.
  framed consumer_frame Es Epc.
  pose proof (inv_tail _ _ _ _ _ _ Hg) as Htl. simpl in Htl. rewrite Htl.
  pose proof (owns_store _ _ _ _ _ (T + c) Ht ltac:(lia)) as Ho. simpl in Ho.
  exists hs, (ts ++ [T + c]), H, (T + c), T', H'. split; simpl; try done.
  - unfold newest; simpl. by rewrite (owns_latest _ _ _ _ _ Ho), <- Htl, <- Es.
  - by apply follows_more.
  - by eapply follows_view.
  - by apply stamped_more.
Qed.

Lemma weak_read_good cap s hs ts H T T' H' k c t w0 :
  weak_inv cap s hs ts H T T' H' -> c_pc (w_co s) = CCopy c t w0 ->
  match weak_consumer_step ring_orders k (mem s) (wt s) (c_view s) (w_co s) with
  | Ok (m, w, v, c) => weak_good cap (WSystem m w (p_view s) v (w_pr s) c (w_pushed s))
  | Block => True
  | _ => False
  end.
Proof.
  intros [Hr Hh Ht Hp Hc Hw Hrd] Epc.
  pose proof (consumer_step_inv _ _ _ _ _ _ Hr) as Hg. simpl in Hg.
  unfold weak_consumer_step. rewrite Epc in *. simpl in *.
  destruct (inv_c _ _ _ _ _ _ Hr) as (_ & Hw0 & _ & Hpc). simpl in Hpc, Hw0.
  rewrite Epc in Hpc, Hw0. simpl in Hw0.
  destruct Hpc as (Hf & Hroom & -> & _). pose proof (inv_order _ _ _ _ _ _ Hr) as Hord.
  pose proof (inv_cap _ _ _ _ _ _ Hr) as Hcap. pose proof (inv_cap_c _ _ _ _ _ _ Hr) as Ecap.
  simpl in Ecap. rewrite Ecap.
  destruct (Z.ltb_spec w0 c) as [Hlt|]; simpl.
  - rewrite slot_mod by (done || lia).
    rewrite (stamped_ordered cap hs _ (T' + cap) H' (c_view s) (T + w0) Hw (own_mono _ _ _ _ _ Hh) Hc)
      by (intros; lia). simpl.
    destruct (consumer_step _ _) as [[sh' c']| | | |] eqn:Es; try done. simpl.
    framed consumer_frame Es Epc.
    exists hs, ts, H, T, T', H'. split; simpl; try done.
    + unfold newest; simpl. by rewrite <- Es.
    + eapply stamped_insert; [done..|lia].
  - destruct (consumer_step _ _) as [[sh' c']| | | |] eqn:Es; try done. simpl.
    framed consumer_frame Es Epc.
    exists hs, ts, H, T, T', H'. split; simpl; try done. unfold newest; simpl. by rewrite <- Es.
Qed.

Lemma weak_consumer_good cap s hs ts H T T' H' k :
  weak_inv cap s hs ts H T T' H' ->
  match weak_consumer_step ring_orders k (mem s) (wt s) (c_view s) (w_co s) with
  | Ok (m, w, v, c) => weak_good cap (WSystem m w (p_view s) v (w_pr s) c (w_pushed s))
  | Block => True
  | _ => False
  end.
Proof.
  intros Hi. destruct (c_pc (w_co s)) as [| |c|c h|c h|c h|c|c h w0|c h|c] eqn:Epc;
    [..|by eapply weak_load_head_good| | | |by eapply weak_read_good
      |by eapply weak_store_tail_good|];
    destruct Hi as [Hr Hh Ht Hp Hc Hw Hrd];
    pose proof (consumer_step_inv _ _ _ _ _ _ Hr) as Hg; simpl in Hg;
    unfold weak_consumer_step; rewrite Epc in *; simpl in *;
    (destruct (consumer_step _ _) as [[sh' c']| | | |] eqn:Es; try done); simpl;
    framed consumer_frame Es Epc;
    (exists hs, ts, H, T, T', H'; split; simpl; try done);
    unfold newest; simpl; by rewrite <- Es.
Qed.

Lemma weak_step_good cap s s' : weak_good cap s -> weak_step ring_orders s s' -> weak_good cap s'.
Proof.
  intros (hs & ts & H & T & T' & H' & Hi) Hstep.
  destruct Hstep as [s data Hpc|s n Hpc Hn|s k m w v p Hs|s k m w v c Hs|s f cp k x v _ Ho|s f cp k x v _ Ho].
  - destruct Hi as [Hr]. exists hs, ts, H, T, T', H'. split; try done.
    exact (push_begin_inv _ _ _ _ _ _ data Hr Hpc).
  - destruct Hi as [Hr]. exists hs, ts, H, T, T', H'. split; try done.
    exact (pop_begin_inv _ _ _ _ _ _ n Hr Hpc Hn).
  - pose proof (weak_producer_good _ _ _ _ _ _ _ _ k Hi) as Hg. by rewrite Hs in Hg.
  - pose proof (weak_consumer_good _ _ _ _ _ _ _ _ k Hi) as Hg. by rewrite Hs in Hg.
  - unfold producer_observes in Ho. destruct (atomic_load _ _ _ _) as [[y v']|] eqn:El; simplify_eq/=.
    destruct Hi as [Hr Hh Ht Hp Hc Hw Hrd].
    destruct (follows_load _ _ _ _ _ _ _ _ _ _ Ht Hp El) as (z & _ & Hz & Hf & Hck).
    exists hs, ts, H, T, T', H'. split; try done; [by eapply owns_view|].
    eapply follows_weaken; [done|lia].
  - unfold consumer_observes in Ho. destruct (atomic_load _ _ _ _) as [[y v']|] eqn:El; simplify_eq/=.
    destruct Hi as [Hr Hh Ht Hp Hc Hw Hrd].
    destruct (follows_load _ _ _ _ _ _ _ _ _ _ Hh Hc El) as (z & _ & Hz & Hf & Hck).
    exists hs, ts, H, T, T', H'. split; try done; [by eapply owns_view|].
    eapply follows_weaken; [done|lia].
Qed.

Lemma weak_initial_good cap buf w :
  cap_ok cap -> Z.of_nat (length buf) = cap -> weak_good cap (weak_initial cap buf w).
Proof.
  intros Hc Hl. exists [0], [0], 0, 0, 0, 0.
  assert (owns cap [0] 0 [Message 0 0] (View 0 0 0)) as Ho.
  { split; try done.
    intros [|i] [|j] x y ?; simpl; intros; simplify_eq; lia. }
  assert (follows [0] 0 (View 0 0 0)) as Hf by (split; [done|]; by exists 0).
  split; try done. by apply initial_inv.
Qed.

Lemma weak_reachable_good cap buf w s :
  cap_ok cap -> Z.of_nat (length buf) = cap ->
  star (weak_step ring_orders) (weak_initial cap buf w) s -> weak_good cap s.
Proof.
  intros Hc Hl Hstar. refine (star_invariant _ (weak_good cap) _ _ _ Hstar _).
  - intros x y. apply weak_step_good.
  - by apply weak_initial_good.
Qed.

(** ** What the consumer still has to hand out *)

(** How many bytes will have been handed out when the current operation ends. *)
Definition ring_due (c : consumer) : Z :=
  Z.of_nat (length (c_out c)) + c_want c -
  match c_pc c with CCopy _ _ w => w | CStoreTail n _ | CSignal n => n | _ => 0 end.

Lemma ring_keeps_due sh c sh' c' :
  (forall n t w, c_pc c = CCopy n t w -> w <= n) ->
  consumer_step sh c = Ok (sh', c') -> c_pc c <> CIdle /\ ring_due c' = ring_due c.
Proof.
  destruct c as [o pc want out]. unfold ring_due, consumer_step, c_goto. simpl. intros Hw.
  destruct pc as [| |n|n t|n t|n t|n|n t w|n t|n]; simpl; try (specialize (Hw _ _ _ eq_refl));
    repeat case_bool; intros; simplify_eq/=; try (split; [done|lia]).
  - destruct (wait_end _ _); simplify_eq/=. split; [done|lia].
  - destruct (zget _ _); simplify_eq/=. rewrite length_app. simpl. split; [done|lia].
Qed.

(** The stream as the consumer sees it: what it has handed out is the beginning of what was pushed,
    in full between operations. *)
Lemma weak_good_out cap s :
  weak_good cap s ->
  (forall n t w, c_pc (w_co s) = CCopy n t w -> w <= n) /\
  (c_pc (w_co s) = CIdle -> c_want (w_co s) = 0) /\
  c_out (w_co s) = take (length (c_out (w_co s))) (w_pushed s).
Proof.
  intros (hs & ts & H & T & T' & H' & Hi). pose proof (wk_ring _ _ _ _ _ _ _ _ Hi) as Hr.
  destruct (inv_c _ _ _ _ _ _ Hr) as (_ & _ & Hout & Hc). simpl in *.
  split; [intros n t w E; rewrite E in Hc; lia|]. split; [intros E; by rewrite E in Hc|].
  rewrite Hout, length_take, <- take_take. f_equal. by rewrite take_ge.
Qed.

(** ** Properties *)

(** C1. The memory orders of the code are enough: from every state that the two sides can reach
    under release/acquire memory, with every load returning any value it may, neither side runs
    into undefined behaviour: no data race on a ring byte, no access outside the ring. *)
Theorem weak_ring_race_free cap buf w s k :
  cap_ok cap -> Z.of_nat (length buf) = cap ->
  star (weak_step ring_orders) (weak_initial cap buf w) s ->
  let p := weak_producer_step ring_orders k (mem s) (wt s) (p_view s) (w_pr s) in
  let c := weak_consumer_step ring_orders k (mem s) (wt s) (c_view s) (w_co s) in
  (p = Block \/ returns p) /\ (c = Block \/ returns c).
Proof.
  intros Hc Hl Hr. destruct (weak_reachable_good _ _ _ _ Hc Hl Hr) as (hs & ts & H & T & T' & H' & Hi).
  pose proof (weak_producer_good _ _ _ _ _ _ _ _ k Hi) as Hp.
  pose proof (weak_consumer_good _ _ _ _ _ _ _ _ k Hi) as Hco.
  intros p c. fold p in Hp. fold c in Hco. unfold returns.
  split; [destruct p|destruct c]; try done; eauto.
Qed.

(** C2. FIFO and lossless under release/acquire memory: the bytes delivered to the callers of
    [pop] are a prefix of the bytes handed to [push], whatever the wait policy does. *)
Theorem weak_ring_fifo cap buf w s :
  cap_ok cap -> Z.of_nat (length buf) = cap ->
  star (weak_step ring_orders) (weak_initial cap buf w) s ->
  c_out (w_co s) `prefix_of` w_pushed s.
Proof.
  intros Hc Hl Hr. destruct (weak_reachable_good _ _ _ _ Hc Hl Hr) as (hs & ts & H & T & T' & H' & Hi).
  destruct (inv_c _ _ _ _ _ _ (wk_ring _ _ _ _ _ _ _ _ Hi)) as (_ & _ & Hout & _).
  simpl in Hout. rewrite Hout. apply prefix_take.
Qed.

(** C13. What the two sides learn from [freeSpace()] and [size()] can be relied on, however
    old the index they read: the producer never sees more free space than there is, the
    consumer never more data, and both figures are those of a ring of that capacity. *)
Theorem weak_size_conservative cap buf w s k n v :
  cap_ok cap -> Z.of_nat (length buf) = cap ->
  star (weak_step ring_orders) (weak_initial cap buf w) s ->
  let hd := latest (heads (mem s)) in
  let tl := latest (tails (mem s)) in
  (producer_observes circularBufferFreeSpace cap k (mem s) (p_view s) = Some (n, v) ->
   0 <= n <= circularBufferFreeSpace cap hd tl) /\
  (consumer_observes circularBufferSize cap k (mem s) (c_view s) = Some (n, v) ->
   0 <= n <= circularBufferSize cap hd tl).
Proof.
  intros Hc Hl Hr. destruct (weak_reachable_good _ _ _ _ Hc Hl Hr) as (hs & ts & H & T & T' & H' & Hi).
  destruct Hi as [Hring Hh Ht Hp Hco _ _]. pose proof (inv_order _ _ _ _ _ _ Hring).
  simpl. unfold producer_observes, consumer_observes.
  rewrite (owns_latest _ _ _ _ _ Hh), (owns_latest _ _ _ _ _ Ht).
  rewrite free_mod, size_mod by (done || lia).
  split; destruct (atomic_load _ _ _ _) as [[x v']|] eqn:El; try done; intros [= <- <-].
  - destruct (follows_load _ _ _ _ _ _ _ _ _ _ Ht Hp El) as (y & -> & ? & _).
    rewrite free_mod by (done || lia). lia.
  - destruct (follows_load _ _ _ _ _ _ _ _ _ _ Hh Hco El) as (y & -> & ? & _).
    rewrite size_mod by (done || lia). lia.
Qed.

(** A load may read the newest value. *)
Lemma load_newest o cap xs X ms w X' v :
  owns cap xs X ms w -> follows xs X' v ->
  exists v', atomic_load o (clock w) ms v = Some (latest ms, v').
Proof.
  intros Ho [_ (x & Hx & _)]. rewrite (owns_latest _ _ _ _ _ Ho). destruct Ho as [-> _ Hl HX].
  apply lookup_lt_Some in Hx. unfold atomic_load. rewrite (proj2 (Nat.leb_le _ _)) by lia.
  unfold published. rewrite list_lookup_imap, HX. simpl. eauto.
Qed.

Lemma producer_step_newest cap s hs ts H T T' H' sh' p' :
  weak_inv cap s hs ts H T T' H' -> producer_step (sh (newest s)) (w_pr s) = Ok (sh', p') ->
  exists k m v, weak_producer_step ring_orders k (mem s) (wt s) (p_view s) (w_pr s)
      = Ok (m, waiter sh', v, p') /\
    Shared (latest (heads m)) (latest (tails m)) (cells m) (waiter sh') = sh'.
Proof.
  intros Hi Hs. pose proof Hi as [Hr Hh Ht Hp _ _ _]. exists (clock (c_view s)).
  pose proof (weak_producer_good _ _ _ _ _ _ _ _ (clock (c_view s)) Hi) as Hg. simpl in Hs.
  pose proof (producer_frame _ _ _ _ Hs) as Hf.
  unfold weak_producer_step in *.
  destruct (load_newest (load_tail ring_orders) _ _ _ _ _ _ _ Ht Hp) as [v' Hv]. rewrite Hv in *.
  rewrite Hs in *. simpl in *.
  destruct (p_pc (w_pr s)) as [| |c|c h|c h|c h|c|c h w0|c h|c]; simpl in *; eauto.
  - destruct (_ && _); [done|]. simpl in *. eauto.
  - do 2 eexists. split; [done|]. simpl. unfold latest at 1. rewrite last_snoc. simpl. congruence.
Qed.

Lemma consumer_step_newest cap s hs ts H T T' H' sh' c' :
  weak_inv cap s hs ts H T T' H' -> consumer_step (sh (newest s)) (w_co s) = Ok (sh', c') ->
  exists k m v, weak_consumer_step ring_orders k (mem s) (wt s) (c_view s) (w_co s)
      = Ok (m, waiter sh', v, c') /\
    Shared (latest (heads m)) (latest (tails m)) (cells m) (waiter sh') = sh'.
Proof.
  intros Hi Hs. pose proof Hi as [Hr Hh Ht _ Hco _ _]. exists (clock (p_view s)).
  pose proof (weak_consumer_good _ _ _ _ _ _ _ _ (clock (p_view s)) Hi) as Hg. simpl in Hs.
  pose proof (consumer_frame _ _ _ _ Hs) as Hf.
  unfold weak_consumer_step in *.
  destruct (load_newest (load_head ring_orders) _ _ _ _ _ _ _ Hh Hco) as [v' Hv]. rewrite Hv in *.
  rewrite Hs in *. simpl in *.
  destruct (c_pc (w_co s)) as [| |c|c h|c h|c h|c|c h w0|c h|c]; simpl in *; eauto.
  - destruct (_ && _); [done|]. simpl in *. eauto.
  - do 2 eexists. split; [done|]. simpl. unfold latest at 2. rewrite last_snoc. simpl. congruence.
Qed.

(** Sequential consistency is one of the behaviours: every run of the two sides in ByteRing.v
    is a run over this memory, of loads that read the newest value. *)
Theorem sc_run_is_weak cap buf w s :
  cap_ok cap -> Z.of_nat (length buf) = cap -> star step (initial cap buf w) s ->
  exists ws, star (weak_step ring_orders) (weak_initial cap buf w) ws /\ newest ws = s.
Proof.
  intros Hc Hl Hr.
  enough (forall a b, star step a b -> forall wa, weak_good cap wa -> newest wa = a ->
    exists wb, star (weak_step ring_orders) wa wb /\ newest wb = b) as Hsim.
  { apply (Hsim _ _ Hr (weak_initial cap buf w)); [by apply weak_initial_good|done]. }
  clear Hr. induction 1 as [a|a b c Hab Hbc IH]; intros wa Hg <-.
  { exists wa. split; [constructor|done]. }
  enough (exists wb, weak_step ring_orders wa wb /\ newest wb = b) as (wb & Hw & Hb).
  { destruct (IH wb (weak_step_good _ _ _ Hg Hw) Hb) as (wc & Hs & Hwc).
    exists wc. split; [by apply star_step with wb|done]. }
  destruct Hg as (hs & ts & H & T & T' & H' & Hi). inversion Hab; subst; simpl in *.
  - eexists. by split; [by apply weak_push|].
  - eexists. by split; [by apply weak_pop|].
  - edestruct producer_step_newest as (k & m & v & Hs & Hsh); [done..|].
    eexists. split; [by apply (weak_producer _ _ k)|]. unfold newest. simpl. by rewrite Hsh.
  - edestruct consumer_step_newest as (k & m & v & Hs & Hsh); [done..|].
    eexists. split; [by apply (weak_consumer _ _ k)|]. unfold newest. simpl. by rewrite Hsh.
Qed.
End WeakInv.

Lemma weak_exec_star `{WP : WaitPolicy} Ord acts s s' :
  weak_exec Ord acts s = Ok s' -> star (weak_step Ord) s s'.
Proof.
  revert s. induction acts as [|a acts IH]; intros s; simpl.
  - intros [= ->]. constructor.
  - destruct (weak_act Ord a s) as [s1| | | |] eqn:E; simpl; try done. intros Hx.
    apply star_step with s1; [|by apply IH]. destruct a as [data|n|k|k]; simpl in E.
    + destruct (p_pc (w_pr s)) eqn:Ep; simplify_eq. by constructor.
    + destruct (c_pc (w_co s)) eqn:Ep; simplify_eq.
      destruct (Z.leb_spec 0 n); simplify_eq. by constructor.
    + destruct (weak_producer_step _ _ _ _ _ _) as [[[[m w] v] p]| | | |] eqn:Ep; simplify_eq/=.
      by eapply weak_producer.
    + destruct (weak_consumer_step _ _ _ _ _ _) as [[[[m w] v] c]| | | |] eqn:Ep; simplify_eq/=.
      by eapply weak_consumer.
Qed.

(** ** Runs *)

#[local] Existing Instance SLIntPrQueueLockPolicy.

(** Capacity 3.  Two bytes are pushed and popped, then a third is pushed over the first. *)
Definition weak_start : weak_system := weak_initial 3 [0; 0; 0] tt.
Definition push_two : list weak_action := [WPush [1; 2]] ++ replicate 9 (WProducer 0).
Definition pop_two : list weak_action := [WPop 2] ++ replicate 10 (WConsumer 1).
Definition push_third : list weak_action := [WPush [3; 4]] ++ replicate 9 (WProducer 1).
Definition weak_acts : list weak_action := push_two ++ pop_two ++ push_third.

(** The orders with one access relaxed. *)
Definition relaxed_orders : list orders := [
  Orders memory_order_relaxed memory_order_acquire memory_order_release memory_order_acquire;
  Orders memory_order_release memory_order_relaxed memory_order_release memory_order_acquire;
  Orders memory_order_release memory_order_acquire memory_order_relaxed memory_order_acquire;
  Orders memory_order_release memory_order_acquire memory_order_release memory_order_relaxed].

(** None of the four memory orders can be relaxed: the same schedule, which is fine with the
    orders of the code, has a data race with any one of them weakened. *)
Theorem every_order_is_needed :
  returns (weak_exec ring_orders weak_acts weak_start) /\
  Forall (fun o => undefined (weak_exec o weak_acts weak_start)) relaxed_orders.
Proof.
  split; [vm_compute; by eexists|]. repeat constructor; vm_compute; by eexists.
Qed.

Definition weak_state (n : nat) : weak_system :=
  match weak_exec ring_orders (take n weak_acts) weak_start with Ok s => s | _ => weak_start end.

(** The third byte is about to be copied over the first, which was read. *)
Lemma weak_ring_race_free_witness :
  let s := weak_state 27 in
  let p := weak_producer_step ring_orders 1 (mem s) (wt s) (p_view s) (w_pr s) in
  p_pc (w_pr s) = PCopy 2 2 1 /\ (p = Block \/ returns p).
Proof.
  split; [vm_compute; reflexivity|].
  apply (weak_ring_race_free (WP := SLIntPrQueueLockPolicy) 3 [0; 0; 0] tt (weak_state 27) 1);
    [unfold cap_ok; lia|reflexivity|].
  apply (weak_exec_star ring_orders (take 27 weak_acts)). vm_compute. reflexivity.
Defined.

Lemma weak_ring_fifo_witness :
  let s := weak_state 32 in
  c_out (w_co s) = [1; 2] /\ w_pushed s = [1; 2; 3; 4] /\ c_out (w_co s) `prefix_of` w_pushed s.
Proof.
  split; [vm_compute; reflexivity|]. split; [vm_compute; reflexivity|].
  apply (weak_ring_fifo (WP := SLIntPrQueueLockPolicy) 3 [0; 0; 0] tt (weak_state 32));
    [unfold cap_ok; lia|reflexivity|].
  apply (weak_exec_star ring_orders weak_acts). vm_compute. reflexivity.
Defined.

(** The consumer asks for [size()] and reads a [head] that is out of date: it learns that nothing
    is there, which is less than the two bytes that are. *)
Lemma weak_size_conservative_witness :
  let s := weak_state 32 in
  consumer_observes circularBufferSize 3 1 (mem s) (c_view s) = Some (0, View 1 1 1) /\
  circularBufferSize 3 (latest (heads (mem s))) (latest (tails (mem s))) = 2 /\
  0 <= 0 <= circularBufferSize 3 (latest (heads (mem s))) (latest (tails (mem s))).
Proof.
  split; [vm_compute; reflexivity|]. split; [vm_compute; reflexivity|].
  apply (weak_size_conservative (WP := SLIntPrQueueLockPolicy) 3 [0; 0; 0] tt (weak_state 32) 1
    0 (View 1 1 1)); [unfold cap_ok; lia|reflexivity| |vm_compute; reflexivity].
  apply (weak_exec_star ring_orders weak_acts). vm_compute. reflexivity.
Defined.

Lemma sc_run_is_weak_witness :
  exists ws, star (weak_step ring_orders) (weak_initial 4 [0; 0; 0; 0] tt) ws /\
    newest ws = demo_state 35.
Proof.
  apply (sc_run_is_weak (WP := SLIntPrQueueLockPolicy) 4 [0; 0; 0; 0] tt (demo_state 35));
    [unfold cap_ok; lia|reflexivity|].
  apply (exec_star (take 35 demo_acts)). vm_compute. reflexivity.
Defined.
