(* ===== verification/InterprocessSignal.v ===== *)
(** * Interprocess signals (src/concurrency/InterprocessSignal.cpp, internal_headers/futex/Futex.h)

    Two POSIX implementations of the same interface: the process-shared mutex and condition
    variable of the default build, and the futex word of a build with [GICAME_USE_FUTEX].
    Each is also packaged as the [WaitPolicy] of [InterprocessQueue] (two signals, one per
    event, see [IntPrQueueLockPolicy] in headers/concurrency/InterprocessQueue.h). *)

From S2P Require Import Prelude ByteRing.

Inductive WaitResult := OK | TIMEOUT_ELAPSED | FAILED.

(** ** The mutex and condition variable build *)

Definition ETIMEDOUT : Z := 110.

(** The pthread calls of [wait] and [signal]; each answers with its error code. *)
Inductive pthread_call := MutexLock | MutexUnlock | CondWait | CondSignal.
#[global] Instance pthread_call_eq_dec : EqDecision pthread_call.
Proof. solve_decision. Defined.

Definition pthread : Sys := {| call := pthread_call; reply _ := Z |}.
#[local] Existing Instance pthread.

Definition posix_wait : prog unit WaitResult :=
  errorCode ← sys (MutexLock : call);
  if negb (errorCode =? 0) then throw "pthread_mutex_lock failed"
  else
    condWaitErrorCode ← sys (CondWait : call);
    errorCode ← sys (MutexUnlock : call);
    if negb (errorCode =? 0) then throw "pthread_mutex_unlock failed"
    else if condWaitErrorCode =? ETIMEDOUT then mret TIMEOUT_ELAPSED
    else if negb (condWaitErrorCode =? 0) then mret FAILED
    else mret OK.

Definition posix_signal : prog unit unit :=
  errorCode ← sys (MutexLock : call);
  if negb (errorCode =? 0) then throw "pthread_mutex_lock failed"
  else
    condSigErrorCode ← sys (CondSignal : call);
    errorCode ← sys (MutexUnlock : call);
    if negb (errorCode =? 0) then throw "pthread_mutex_unlock failed"
    else if negb (condSigErrorCode =? 0) then throw "pthread_cond_signal failed"
    else mret tt.

(** The stub signal waits for nothing and reports a timeout. *)
Definition stub_wait : WaitResult := TIMEOUT_ELAPSED.

(** ** The futex build

    A thread inside [fwait] keeps the local [one], which a failed
    [atomic_compare_exchange_strong] overwrites with the value it found. *)
Inductive fpc :=
  | FCas (one : Z)      (** about to compare-exchange [*futexp] from [one] to 0 *)
  | FCall (one : Z)     (** about to call [futex(FUTEX_WAIT, 0)] *)
  | FAsleep (one : Z)   (** blocked in the kernel *)
  | FDone.              (** returned from [fwait] *)
#[global] Instance fpc_eq_dec : EqDecision fpc.
Proof. solve_decision. Defined.

(** Entering [fwait]. *)
Definition fwait_enter : fpc := FCas 1.

(** One step of [fwait] on the futex word; [None] when the thread is asleep or done.  The
    kernel puts the caller to sleep when the word is still 0 and fails with [EAGAIN]
    otherwise, in which case the loop goes round. *)
Definition fwait_step (word : Z) (pc : fpc) : option (Z * fpc) :=
  match pc with
  | FCas one => if word =? one then Some (0, FDone) else Some (word, FCall word)
  | FCall one => if word =? 0 then Some (word, FAsleep one) else Some (word, FCas one)
  | FAsleep _ | FDone => None
  end.

(** [FUTEX_WAKE] with a count of 1: the thread that has been asleep longest returns from
    the kernel and goes round the loop. *)
Fixpoint futex_wake (ts : list fpc) : list fpc :=
  match ts with
  | [] => []
  | FAsleep one :: ts' => FCas one :: ts'
  | t :: ts' => t :: futex_wake ts'
  end.

(** [fpost]: compare-exchange from 0 to 1, then wake one waiter. *)
Definition fpost (word : Z) (ts : list fpc) : Z * list fpc :=
  if word =? 0 then (1, futex_wake ts) else (word, ts).

(** The waiters of one futex word, and the number of [fpost] calls so far. *)
Record fsys := FSys { fword : Z; fthreads : list fpc; fposts : nat }.

Inductive fstep : fsys -> fsys -> Prop :=
  | fstep_wait s i pc w' pc' :
      fthreads s !! i = Some pc -> fwait_step (fword s) pc = Some (w', pc') ->
      fstep s (FSys w' (<[i := pc']> (fthreads s)) (fposts s))
  | fstep_post s w' ts' :
      fpost (fword s) (fthreads s) = (w', ts') -> fstep s (FSys w' ts' (S (fposts s))).

(** [n] threads that enter [fwait] on a cleared word. *)
Definition finit (n : nat) : fsys := FSys 0 (replicate n fwait_enter) 0.

(** Waits that have returned. *)
Definition freturned (s : fsys) : nat := length (filter (fun t => t = FDone) (fthreads s)).

(** ** As wait policies of the ring *)

(** [IntPrQueueLockPolicy] over futexes, for one waiter per event: a wait returns when the
    word is 1 and clears it, a signal sets it. *)
Definition futex_policy : WaitPolicy := {|
  wstate := bool * bool;
  wait_begin _ w := w;
  wait_end e w :=
    match e with
    | DataPresent => if w.1 then Some (false, w.2) else None
    | DataFree => if w.2 then Some (w.1, false) else None
    end;
  signal e w := match e with DataPresent => (true, w.2) | DataFree => (w.1, true) end |}.

(** A condition variable seen by one potential waiter: [cv_wait] blocks it,
    [cv_return] gives it back when it may run, [cv_signal] is [pthread_cond_signal]. *)
Class CondVar := {
  cv : Type;
  cv_idle : cv;
  cv_wait : cv -> cv;
  cv_return : cv -> option cv;
  cv_signal : cv -> cv }.

(** POSIX: a signal has no effect when no thread is blocked, and a blocked thread that
    nobody signals stays blocked. *)
Class CondVarLaws `{CondVar} : Prop := {
  cv_signal_nobody : cv_signal cv_idle = cv_idle;
  cv_blocked : cv_return (cv_wait cv_idle) = None }.

(** [IntPrQueueLockPolicy] over [PosixMutexCV]s: [wait()] waits unconditionally. *)
Definition condvar_policy `{CondVar} : WaitPolicy := {|
  wstate := cv * cv;
  wait_begin e w :=
    match e with DataPresent => (cv_wait w.1, w.2) | DataFree => (w.1, cv_wait w.2) end;
  wait_end e w :=
    match e with
    | DataPresent => c ← cv_return w.1; Some (c, w.2)
    | DataFree => c ← cv_return w.2; Some (w.1, c)
    end;
  signal e w :=
    match e with DataPresent => (cv_signal w.1, w.2) | DataFree => (w.1, cv_signal w.2) end |}.

(** ** Properties *)

(** The default build does not implement a sticky signal: whatever was signalled before,
    [wait()] calls [pthread_cond_wait] exactly once and returns only after it, so a signal
    raised while nobody waits is not remembered by the object (the class comment calls the
    signal sticky).  The error codes map to the three results or to an exception. *)
Theorem posix_wait_always_blocks (E : env) (h : list pthread_call) r (h' : list pthread_call) :
  posix_wait E tt h = (Ok r, tt, h') ->
  h' = h ++ [MutexLock; CondWait; MutexUnlock] /\
  (r = OK <-> E (h ++ [MutexLock]) CondWait = 0) /\
  (r = TIMEOUT_ELAPSED <-> E (h ++ [MutexLock]) CondWait = ETIMEDOUT).
Proof.
  unfold posix_wait, throw, mret, prog_ret, sys, mbind, prog_bind, ETIMEDOUT.
  repeat (case_bool; [|]); intros; simplify_eq; rewrite <- ?app_assoc; simpl;
    repeat split; intros; try done; simpl in *; congruence || lia.
Qed.

Lemma posix_wait_always_blocks_witness :
  let E : @env pthread := fun _ _ => 0 in
  posix_wait E tt [MutexLock; CondSignal; MutexUnlock]
    = (Ok OK, tt, [MutexLock; CondSignal; MutexUnlock; MutexLock; CondWait; MutexUnlock]) /\
  (OK = OK <-> 0 = 0).
Proof.
  intros E. split; [reflexivity|].
  apply (posix_wait_always_blocks E [MutexLock; CondSignal; MutexUnlock] OK
    [MutexLock; CondSignal; MutexUnlock; MutexLock; CondWait; MutexUnlock]). reflexivity.
Defined.

(** The invariant of a lone waiter: the word is 0 or 1, a thread that goes round the loop
    with [one = 0] finds the word set, and a returned wait is paid for by a post. *)
Definition flone (s : fsys) : Prop :=
  (fword s = 0 \/ fword s = 1) /\
  match fthreads s with
  | [FCas one] => (one = 1 /\ (fword s = 1 -> (0 < fposts s)%nat)) \/ (one = 0 /\ fword s = 1 /\ (0 < fposts s)%nat)
  | [FCall one] => (one = 0 \/ one = 1) /\ (fword s = 1 -> (0 < fposts s)%nat) /\ (one = 1 -> fword s = 1)
  | [FAsleep one] => one = 0 /\ fword s = 0
  | [FDone] => (0 < fposts s)%nat
  | _ => False
  end.

Lemma flone_step s s' : flone s -> fstep s s' -> flone s'.
Proof.
  destruct s as [w [|t [|t2 ts]] p]; unfold flone; simpl; try tauto; try (destruct t; tauto).
  intros [Hw Ht] Hs. inversion Hs as [? i pc w' pc' Hi Hstep|? w' ts' Hp]; subst; simpl in *.
  - destruct i; simpl in Hi; simplify_eq.
    destruct pc; simpl in *; try done; revert Hstep; case_bool; intros; simplify_eq; simpl;
      (split; [lia|]); intuition lia.
  - unfold fpost in Hp. revert Hp. case_bool; intros; simplify_eq; simpl; (split; [lia|]);
      destruct t; simpl in *; intuition lia.
Qed.

(** Scripted runs: the given thread takes a step, or somebody posts. *)
Ltac thread i := eapply star_step; [eapply (fstep_wait _ i); reflexivity|]; simpl.
Ltac post := eapply star_step; [eapply fstep_post; reflexivity|]; simpl.

(** With a single waiter per word, as the ring uses it, the futex build is sound: a
    [fwait] that has returned was paid for by a [fpost], in every interleaving. *)
Theorem futex_single_waiter s :
  star fstep (finit 1) s -> (freturned s <= fposts s)%nat.
Proof.
  intros Hr. assert (flone s) as Hs.
  { refine (star_invariant _ flone _ _ flone_step Hr _).
    unfold flone, finit, fwait_enter; simpl. split; [by left|]. left. split; [done|lia]. }
  destruct s as [w [|t [|t2 ts]] p]; unfold flone, freturned in *; simpl in *; try tauto;
    try (destruct t; tauto).
  destruct Hs as [_ Hs]. rewrite filter_cons. case_decide; subst; simpl; lia.
Qed.

Lemma futex_single_waiter_witness :
  star fstep (finit 1) (FSys 0 [FDone] 1) /\ (freturned (FSys 0 [FDone] 1) <= 1)%nat.
Proof.
  assert (star fstep (finit 1) (FSys 0 [FDone] 1)) as H.
  { post.
    thread 0%nat. constructor. }
  split; [exact H|]. exact (futex_single_waiter _ H).
Defined.

(** With two waiters the futex build loses the correspondence between waits and
    posts: [fwait] retries its compare-exchange with the value the failed one stored in
    [one], so a waiter woken after another has consumed the signal exchanges 0 for 0 and
    returns.  One [fpost], two returned waits. *)
Theorem futex_two_waiters_unsound :
  exists s, star fstep (finit 2) s /\ fposts s = 1%nat /\ freturned s = 2%nat.
Proof.
  exists (FSys 0 [FDone; FDone] 1). split; [|done].
  thread 0%nat.
  thread 0%nat.
  post.
  thread 1%nat.
  thread 0%nat. constructor.
Qed.
