(* ===== verification/RingWait.v ===== *)
(** * Waiting on the byte ring: wake-ups and deadlocks

    [RingSafety] holds for every wait policy; whether a blocked side is ever woken depends on
    the policy.  [StickyPolicy] is what the ring needs from it; the futex signals provide it,
    the condition variables of the default build do not.  The two sides are sequentially
    consistent here; RingWeakWait.v is about waiting over release/acquire memory. *)

From S2P Require Import Prelude ByteRing RingSafety InterprocessSignal.

(** ** The interface *)

(** A policy whose signals are remembered: [pending e w] tells whether one is waiting to be
    consumed; only a completed wait for [e] may clear it, and a wait with a pending signal
    is never blocked. *)
Class StickyPolicy `{WP : WaitPolicy} := {
  pending : event -> wstate -> bool;
  pending_signal e w : pending e (signal e w) = true;
  pending_signal_other e e' w : pending e w = true -> pending e (signal e' w) = true;
  pending_begin e e' w : pending e (wait_begin e' w) = pending e w;
  pending_end_other e e' w w' : e <> e' -> wait_end e' w = Some w' -> pending e w' = pending e w;
  blocked_not_pending e w : wait_end e w = None -> pending e w = false }.

#[export] Instance event_eq_dec : EqDecision event.
Proof. solve_decision. Defined.

#[export] Instance futex_sticky : @StickyPolicy futex_policy.
Proof.
  refine {| pending := fun e (w : @wstate futex_policy) =>
              match e with DataPresent => w.1 | DataFree => w.2 end |};
    intros; repeat match goal with e : event |- _ => destruct e end;
    repeat match goal with w : wstate |- _ => destruct w as [[] []] end;
    simpl in *; try discriminate; try done; by simplify_eq.
Defined.

(** ** No lost wake-up *)

Section Sticky.
Context `{WP : WaitPolicy, SP : !StickyPolicy}.

(** A waiting consumer knows the latest [head], or a signal is pending, or the producer is
    about to raise one; symmetrically for a waiting producer. *)
Definition wake_inv (s : system) : Prop :=
  match c_pc (co s) with
  | CWaitBegin n t | CWaitEnd n t =>
      circularBufferSize (capacity (c_obj (co s))) (cachedHead (c_obj (co s))) t < n /\
      (cachedHead (c_obj (co s)) = head (sh s) \/ pending DataPresent (waiter (sh s)) = true \/
       exists c, p_pc (pr s) = PSignal c)
  | _ => True
  end /\
  match p_pc (pr s) with
  | PWaitBegin c h | PWaitEnd c h =>
      circularBufferFreeSpace (capacity (p_obj (pr s))) h (cachedTail (p_obj (pr s))) < c /\
      (cachedTail (p_obj (pr s)) = tail (sh s) \/ pending DataFree (waiter (sh s)) = true \/
       exists n, c_pc (co s) = CSignal n)
  | _ => True
  end.

(** Settle the signal-related disjunctions after a step. *)
Ltac settle :=
  rewrite ?pending_begin in *;
  repeat match goal with
  | H : exists _, _ |- _ => destruct H
  | H : _ \/ _ |- _ => destruct H
  | H : _ /\ _ |- _ => destruct H
  end; try discriminate;
  try (left; done); try (right; left; done); try (right; right; eauto; done);
  right; left; eauto using pending_signal, pending_signal_other;
  (erewrite pending_end_other; [done| |done]; done).

Lemma wake_producer s sh' p' :
  wake_inv s -> producer_step (sh s) (pr s) = Ok (sh', p') ->
  wake_inv (System sh' p' (co s) (pushed s)).
Proof.
  destruct s as [[hd tl buf w] [[cap pch pct] pc data] [[ccap cch cct] pcc want out] str].
  unfold wake_inv, producer_step; simpl. intros [Hcw Hpw].
  destruct pc; simpl; repeat case_bool; simpl;
    try (destruct (wait_end DataFree w) eqn:?);
    try (destruct (zget _ _); [|done]; destruct (zset _ _ _); [|done]);
    intros; simplify_eq; simpl;
    (split; [destruct pcc; try done; (split; [tauto|]); settle|]);
    try done; try (split; [tauto|]; settle); by split; [|left].
Qed.

Lemma wake_consumer s sh' c' :
  wake_inv s -> consumer_step (sh s) (co s) = Ok (sh', c') ->
  wake_inv (System sh' (pr s) c' (pushed s)).
Proof.
  destruct s as [[hd tl buf w] [[cap pch pct] pc data] [[ccap cch cct] pcc want out] str].
  unfold wake_inv, consumer_step; simpl. intros [Hcw Hpw].
  destruct pcc; simpl; repeat case_bool; simpl;
    try (destruct (wait_end DataPresent w) eqn:?);
    try (destruct (zget _ _); [|done]);
    intros; simplify_eq; simpl;
    (split; [|destruct pc; try done; (split; [tauto|]); settle]);
    try done; try (split; [tauto|]; settle); by split; [|left].
Qed.

Lemma wake_step s s' : wake_inv s -> step s s' -> wake_inv s'.
Proof.
  intros Hi Hs. destruct Hs as [s data Hpc|s n Hpc Hn|s sh' p' Hs|s sh' c' Hs].
  - unfold wake_inv in *; simpl. rewrite Hpc in Hi. split; [|done].
    destruct (c_pc (co s)); try tauto; destruct Hi as [[? [?|[?|[? ?]]]] _]; by auto.
  - unfold wake_inv in *; simpl. rewrite Hpc in Hi. split; [done|].
    destruct (p_pc (pr s)); try tauto; destruct Hi as [_ [? [?|[?|[? ?]]]]]; by auto.
  - by eapply wake_producer.
  - by eapply wake_consumer.
Qed.

Lemma reachable_wake cap buf w s : star step (initial cap buf w) s -> wake_inv s.
Proof. intros Hr. refine (star_invariant _ wake_inv _ _ wake_step Hr _). done. Qed.

(** What a blocked consumer, or producer, tells about the ring. *)
Lemma blocked_consumer cap s H T T' H' n t :
  ring_inv cap s H T T' H' -> wake_inv s -> c_pc (co s) = CWaitEnd n t ->
  consumer_step (sh s) (co s) = Block -> (forall c, p_pc (pr s) <> PSignal c) ->
  H - T < n < cap.
Proof.
  intros Hinv [Hw _] Hpc Hb Hnp. rewrite Hpc in Hw. destruct Hw as [Hlt Hor].
  unfold consumer_step in Hb. rewrite Hpc in Hb.
  destruct (wait_end DataPresent (waiter (sh s))) eqn:He; [done|].
  apply blocked_not_pending in He.
  destruct Hor as [Heq|[?|[c ?]]]; [|congruence|naive_solver].
  rewrite (inv_cap_c _ _ _ _ _ _ Hinv), Heq in Hlt.
  destruct (inv_c _ _ _ _ _ _ Hinv) as (_ & _ & _ & Hc). rewrite Hpc in Hc.
  destruct Hc as [? ->]. rewrite (inv_head _ _ _ _ _ _ Hinv) in Hlt.
  pose proof (inv_order _ _ _ _ _ _ Hinv). pose proof (inv_cap _ _ _ _ _ _ Hinv).
  rewrite size_mod in Hlt by (done || lia). lia.
Qed.

Lemma blocked_producer cap s H T T' H' c h :
  ring_inv cap s H T T' H' -> wake_inv s -> p_pc (pr s) = PWaitEnd c h ->
  producer_step (sh s) (pr s) = Block -> (forall n, c_pc (co s) <> CSignal n) ->
  cap - 1 - (H - T) < c < cap.
Proof.
  intros Hinv [_ Hw] Hpc Hb Hnp. rewrite Hpc in Hw. destruct Hw as [Hlt Hor].
  unfold producer_step in Hb. rewrite Hpc in Hb.
  destruct (wait_end DataFree (waiter (sh s))) eqn:He; [done|].
  apply blocked_not_pending in He.
  destruct Hor as [Heq|[?|[n ?]]]; [|congruence|naive_solver].
  rewrite (inv_cap_p _ _ _ _ _ _ Hinv), Heq in Hlt.
  destruct (inv_p _ _ _ _ _ _ Hinv) as (_ & _ & Hp). rewrite Hpc in Hp.
  destruct Hp as [? ->]. rewrite (inv_tail _ _ _ _ _ _ Hinv) in Hlt.
  pose proof (inv_order _ _ _ _ _ _ Hinv). pose proof (inv_cap _ _ _ _ _ _ Hinv).
  rewrite free_mod in Hlt by (done || lia). lia.
Qed.

(** No lost wake-up under a sticky policy: in every reachable state, a consumer that
    cannot run inside [waitDataPresent] is right to wait, that is, fewer than [n] bytes are
    in the ring, unless the producer is just about to signal. *)
Theorem sticky_no_lost_wakeup cap buf w s n t :
  cap_ok cap -> Z.of_nat (length buf) = cap -> star step (initial cap buf w) s ->
  c_pc (co s) = CWaitEnd n t -> consumer_step (sh s) (co s) = Block ->
  (forall c, p_pc (pr s) <> PSignal c) ->
  size (c_obj (co s)) (sh s) < n.
Proof.
  intros Hc Hl Hr Hpc Hb Hnp.
  destruct (reachable_good _ _ _ _ Hc Hl Hr) as (H & T & T' & H' & Hinv).
  rewrite (inv_size _ _ _ _ _ _ _ Hinv (inv_cap_c _ _ _ _ _ _ Hinv)).
  apply (blocked_consumer _ _ _ _ _ _ _ _ Hinv (reachable_wake _ _ _ _ Hr) Hpc Hb Hnp).
Qed.

(** Deadlock freedom under a sticky policy for matching sizes: when the chunk being
    pushed and the chunk being popped together do not exceed the capacity, the two sides are
    never blocked on each other. *)
Theorem sticky_no_deadlock cap buf w s c h n t :
  cap_ok cap -> Z.of_nat (length buf) = cap -> star step (initial cap buf w) s ->
  p_pc (pr s) = PWaitEnd c h -> c_pc (co s) = CWaitEnd n t -> c + n <= cap ->
  returns (producer_step (sh s) (pr s)) \/ returns (consumer_step (sh s) (co s)).
Proof.
  intros Hc Hl Hr Hp Hpc Hsum.
  destruct (reachable_good _ _ _ _ Hc Hl Hr) as (H & T & T' & H' & Hinv).
  pose proof (reachable_wake _ _ _ _ Hr) as Hw.
  pose proof (producer_step_good _ _ _ _ _ _ Hinv) as Hpg.
  pose proof (consumer_step_good _ _ _ _ _ _ Hinv) as Hcg. unfold returns.
  destruct (producer_step _ _) eqn:Ep; try done; [eauto|].
  destruct (consumer_step _ _) eqn:Ec; try done; [eauto|].
  pose proof (blocked_producer _ _ _ _ _ _ _ _ Hinv Hw Hp Ep) as H1.
  pose proof (blocked_consumer _ _ _ _ _ _ _ _ Hinv Hw Hpc Ec) as H2.
  rewrite Hp in H2. rewrite Hpc in H1.
  specialize (H1 ltac:(done)). specialize (H2 ltac:(done)). lia.
Qed.
End Sticky.

(** ** Witnesses and counterexamples *)

#[local] Existing Instance futex_policy.

(** Capacity 4, one [push] of 6 bytes against [pop]s of 2: after the first [pop] one byte is
    left, the next [pop] wants two and the producer wants room for a chunk of three. *)
Definition mismatch_acts : list action :=
  [APush [1; 2; 3; 4; 5; 6]] ++ replicate 13 AProducer ++ [APop 2] ++ replicate 10 AConsumer
  ++ [APop 2] ++ replicate 7 AConsumer ++ replicate 3 AProducer.

Definition after (n : nat) (acts : list action) : system :=
  default (initial 4 [0; 0; 0; 0] (false, false))
    (exec (take n acts) (initial 4 [0; 0; 0; 0] (false, false))).

Lemma sticky_no_lost_wakeup_witness : size (c_obj (co (after 33 mismatch_acts))) (sh (after 33 mismatch_acts)) < 2.
Proof.
  apply (sticky_no_lost_wakeup (WP := futex_policy) 4 [0; 0; 0; 0] (false, false) _ 2 2);
    [unfold cap_ok; lia|reflexivity| |reflexivity|reflexivity|].
  - apply (exec_star (take 33 mismatch_acts)). vm_compute. reflexivity.
  - intros c H. vm_compute in H. discriminate H.
Defined.

(** Both sides inside their wait, with chunks of two: the pending signal lets the consumer
    go. *)
Definition matching_acts : list action :=
  [APop 2] ++ replicate 4 AConsumer ++ [APush [5; 6]] ++ replicate 9 AProducer
  ++ [APush [7; 8]] ++ replicate 4 AProducer.

Lemma sticky_no_deadlock_witness :
  let s := after 20 matching_acts in
  returns (producer_step (sh s) (pr s)) \/ returns (consumer_step (sh s) (co s)).
Proof.
  apply (sticky_no_deadlock (WP := futex_policy) 4 [0; 0; 0; 0] (false, false) _ 2 2 2 0);
    [unfold cap_ok; lia|reflexivity| |reflexivity|reflexivity|lia].
  apply (exec_star (take 20 matching_acts)). vm_compute. reflexivity.
Defined.

(** Two blocked threads are a deadlock. *)
Lemma stuck `{WaitPolicy} (s : system) :
  p_pc (pr s) <> PIdle -> c_pc (co s) <> CIdle ->
  producer_step (sh s) (pr s) = Block -> consumer_step (sh s) (co s) = Block ->
  forall s', ~ step s s'.
Proof. intros ? ? ? ? s' Hs. destruct Hs; congruence. Qed.

(** Beyond that bound the design deadlocks even with sticky signals: a chunk is moved
    only when all of it fits (or is present), so a capacity-4 ring with one 6-byte [push]
    against 2-byte [pop]s reaches a state with a byte available, four more to send, and no
    step at all left. *)
Theorem ring_size_mismatch_deadlock :
  exists s : system,
    star step (initial 4 [0; 0; 0; 0] (false, false)) s /\ (forall s', ~ step s s') /\
    pushed s = [1; 2; 3; 4; 5; 6] /\ c_out (co s) = [1; 2] /\ c_want (co s) = 2 /\
    size (c_obj (co s)) (sh s) = 1.
Proof.
  destruct (exec (take 36 mismatch_acts) (initial (WP := futex_policy) 4 [0; 0; 0; 0] (false, false))) as [s|] eqn:E;
    [|vm_compute in E; discriminate E].
  exists s. split; [by apply (exec_star (take 36 mismatch_acts))|].
  vm_compute in E. injection E as <-. split; [by apply stuck|]. done.
Qed.

(** Over condition variables (the default POSIX build) a wake-up is lost: the consumer
    finds the ring empty, the producer then completes a whole [push] and signals nobody, and
    only then does the consumer block, for good, with its byte in the ring. *)
Theorem condvar_lost_wakeup `{CV : CondVar, !CondVarLaws} :
  exists s : @system condvar_policy,
    star step (initial (WP := condvar_policy) 4 [0; 0; 0; 0] (cv_idle, cv_idle)) s /\
    p_pc (pr s) = PIdle /\ pushed s = [42] /\ c_pc (co s) = CWaitEnd 1 0 /\
    size (c_obj (co s)) (sh s) = 1 /\ consumer_step (sh s) (co s) = Block.
Proof.
  pose (acts := [APop 1] ++ replicate 3 AConsumer ++ [APush [42]] ++ replicate 8 AProducer
                ++ [AConsumer]).
  destruct (exec (H := condvar_policy) acts
    (initial (WP := condvar_policy) 4 [0; 0; 0; 0] (cv_idle, cv_idle))) as [s|] eqn:E;
    [|vm_compute in E; discriminate E].
  exists s. split; [by apply (exec_star acts)|].
  cbv -[cv cv_idle cv_wait cv_return cv_signal] in E. injection E as <-. repeat split.
  unfold consumer_step. simpl. rewrite cv_signal_nobody, cv_blocked. done.
Qed.

(** A condition variable in the flesh: idle, blocked or released. *)
Definition cv3 : CondVar := {|
  cv := nat; cv_idle := 0%nat; cv_wait _ := 1%nat;
  cv_return c := match c with 1%nat => None | _ => Some 0%nat end;
  cv_signal c := match c with 1%nat => 2%nat | _ => c end |}.

#[export] Instance cv3_laws : @CondVarLaws cv3.
Proof. split; reflexivity. Qed.

Lemma condvar_lost_wakeup_witness :
  exists s : @system (@condvar_policy cv3), pushed s = [42] /\
    consumer_step (sh s) (co s) = Block.
Proof.
  destruct (@condvar_lost_wakeup cv3 cv3_laws) as (s & _ & _ & H1 & _ & _ & H2).
  exists s. split; [exact H1|exact H2].
Defined.
