(* ===== verification/Signal.v ===== *)
(** * Inter-thread signals (headers/concurrency/Signal.h)

    [SignalGroup<SIG_COUNT>] is an array of two-level events with one mutex and one
    condition variable; [Signal] is the same algorithm on a single event (its member
    functions are those of the group with the index left out).  Each call is a thread of
    [tpc] steps, one per atomic access, mutex operation or condition-variable operation.

    The condition variable is the language's: [wait] releases the mutex and blocks in one
    step, [notify_all] releases every blocked thread, and a blocked thread may also wake up
    spuriously or, when it has a deadline, by timeout. *)

From S2P Require Import Prelude.

(** ** Calls *)

(** One call of a waiting function: [target = Some i] for [wait(i, ..)], [None] for
    [waitOne(..)]; [timeout = None] for the overloads without [timeoutMs]. *)
Record wait_op := WaitOp { target : option nat; timeout : option Z }.

(** Where in the call [tryConsume] runs: before locking, in the loop, after the deadline. *)
Inductive phase := Fast | Locked | Final.

Inductive tpc :=
  | WLoad (o : wait_op) (ph : phase) (i : nat)   (** [events[i].load()] *)
  | WCas (o : wait_op) (ph : phase) (i : nat)    (** [compare_exchange_strong(1, 0)] *)
  | WLock (o : wait_op)                          (** taking [mtx] *)
  | WSleep (o : wait_op)                         (** about to wait on [eventFired] *)
  | WAsleep (o : wait_op)                        (** blocked on [eventFired] *)
  | WRelock (o : wait_op) (timedout : bool)      (** awake, taking [mtx] back *)
  | WDone (r : option nat)                       (** returned: the consumed index, if any *)
  | SStore (i : nat)                             (** [events[i].store(1)] *)
  | SLock (i : nat)                              (** taking [mtx] *)
  | SNotify (i : nat)                            (** [notify_all()], then unlock *)
  | SDone (i : nat).

(** The first index a call looks at and the one after [i], if the call looks further
    ([tryConsumeOne] scans upwards, [tryConsume] looks at one event only). *)
Definition first_index (o : wait_op) : nat := default 0%nat (target o).
Definition next_index (n : nat) (o : wait_op) (i : nat) : option nat :=
  match target o with
  | Some _ => None
  | None => if (S i <? n)%nat then Some (S i) else None
  end.

(** Entry of the calls: the index is checked first. *)
Definition enter_wait (n : nat) (o : wait_op) : res tpc :=
  match target o with
  | Some i => if (n <=? i)%nat then Throw "signalIndex out of range"
              else Ok (WLoad o Fast i)
  | None => Ok (WLoad o Fast 0)
  end.
Definition enter_signal (n : nat) (i : nat) : res tpc :=
  if (n <=? i)%nat then Throw "signalIndex out of range" else Ok (SStore i).

(** After a failed [tryConsume]/[tryConsumeOne] attempt at index [i]: go on scanning, or
    take the branch of the enclosing function.  The flag tells whether [mtx] is released. *)
Definition after_fail (n : nat) (o : wait_op) (ph : phase) (i : nat) : tpc * bool :=
  match next_index n o i with
  | Some i' => (WLoad o ph i', false)
  | None =>
      match ph with
      | Fast => match timeout o with
                | Some ms => if ms =? 0 then (WDone None, false) else (WLock o, false)
                | None => (WLock o, false)
                end
      | Locked => (WSleep o, false)
      | Final => (WDone None, true)
      end
  end.

(** ** The group *)

Record group := Group { events : list Z; mtx : option nat; threads : list tpc }.

(** One step of thread [t] at [pc]: new events, new owner of the mutex, new position.
    [None] when it cannot step by itself. *)
Definition thread_step (ev : list Z) (mx : option nat) (t : nat) (pc : tpc)
  : option (list Z * option nat * tpc) :=
  let n := length ev in
  let fail o ph i :=
    let '(pc', released) := after_fail n o ph i in
    Some (ev, if released : bool then None else mx, pc') in
  match pc with
  | WLoad o ph i =>
      match ev !! i with
      | None => None
      | Some v => if v =? 0 then fail o ph i else Some (ev, mx, WCas o ph i)
      end
  | WCas o ph i =>
      match ev !! i with
      | None => None
      | Some v =>
          if v =? 1
          then Some (<[i := 0]> ev, match ph with Fast => mx | _ => None end, WDone (Some i))
          else fail o ph i
      end
  | WLock o =>
      match mx with None => Some (ev, Some t, WLoad o Locked (first_index o)) | _ => None end
  | WSleep o => Some (ev, None, WAsleep o)
  | WRelock o timedout =>
      match mx with
      | None => Some (ev, Some t, WLoad o (if timedout : bool then Final else Locked)
                                    (first_index o))
      | _ => None
      end
  | SStore i => Some (<[i := 1]> ev, mx, SLock i)
  | SLock i => match mx with None => Some (ev, Some t, SNotify i) | _ => None end
  | SNotify i => Some (ev, None, SDone i)
  | WAsleep _ | WDone _ | SDone _ => None
  end.

(** [notify_all] *)
Definition wake (pc : tpc) : tpc :=
  match pc with WAsleep o => WRelock o false | _ => pc end.

Definition is_notify (pc : tpc) : bool := match pc with SNotify _ => true | _ => false end.

Inductive gstep : group -> group -> Prop :=
  | g_call_wait g o pc :
      enter_wait (length (events g)) o = Ok pc ->
      gstep g (Group (events g) (mtx g) (threads g ++ [pc]))
  | g_call_signal g i pc :
      enter_signal (length (events g)) i = Ok pc ->
      gstep g (Group (events g) (mtx g) (threads g ++ [pc]))
  | g_run g t pc ev' mx' pc' :
      threads g !! t = Some pc -> thread_step (events g) (mtx g) t pc = Some (ev', mx', pc') ->
      gstep g (Group ev' mx' (if is_notify pc then wake <$> <[t := pc']> (threads g)
                              else <[t := pc']> (threads g)))
  | g_spurious g t o :
      threads g !! t = Some (WAsleep o) ->
      gstep g (Group (events g) (mtx g) (<[t := WRelock o false]> (threads g)))
  | g_timeout g t o ms :
      threads g !! t = Some (WAsleep o) -> timeout o = Some ms ->
      gstep g (Group (events g) (mtx g) (<[t := WRelock o true]> (threads g))).

(** The constructor: all events low. *)
Definition new_group (n : nat) : group := Group (replicate n 0) None [].

(** [Signal] is the same algorithm on one event: its functions are those of a group of one,
    without the index check. *)
Definition new_signal : group := new_group 1.
Definition signal_wait (timeoutMs : option Z) : tpc := WLoad (WaitOp (Some 0%nat) timeoutMs) Fast 0.
Definition signal_signal : tpc := SStore 0.

(** [SignalOfAGroup]: a group and an index; its functions are the group's at that index. *)
Record signal_of_a_group := SignalOfAGroup { sog_count : nat; sog_index : nat }.
Definition getSignal (n signalIndex : nat) : res signal_of_a_group :=
  if (n <=? signalIndex)%nat then Throw "signalIndex out of range"
  else Ok (SignalOfAGroup n signalIndex).
Definition sog_wait (s : signal_of_a_group) (timeoutMs : option Z) : res tpc :=
  enter_wait (sog_count s) (WaitOp (Some (sog_index s)) timeoutMs).
Definition sog_signal (s : signal_of_a_group) : res tpc :=
  enter_signal (sog_count s) (sog_index s).

(** ** Invariants *)

(** The thread is between taking [mtx] and releasing it. *)
Definition holds_mtx (pc : tpc) : bool :=
  match pc with
  | WLoad _ ph _ | WCas _ ph _ => match ph with Fast => false | _ => true end
  | WSleep _ | SNotify _ => true
  | _ => false
  end.

Definition mutex_inv (g : group) : Prop :=
  (forall t pc, threads g !! t = Some pc -> (holds_mtx pc = true <-> mtx g = Some t)) /\
  (forall t, mtx g = Some t -> (t < length (threads g))%nat).

(** Some thread has set event [j] and not notified yet. *)
Definition pending (ts : list tpc) (j : nat) : Prop :=
  exists t, ts !! t = Some (SLock j) \/ ts !! t = Some (SNotify j).

(** The events a call has found low, in the loop under the mutex, when it is at [pc]. *)
Definition scanned (n : nat) (pc : tpc) (j : nat) : Prop :=
  match pc with
  | WLoad o Locked i | WCas o Locked i =>
      match target o with Some _ => False | None => (j < i)%nat end
  | WSleep o | WAsleep o =>
      match target o with Some i => j = i | None => (j < n)%nat end
  | _ => False
  end.

(** The index a thread is working on is in range, and a call for one event stays on it. *)
Definition pc_ok (n : nat) (pc : tpc) : Prop :=
  match pc with
  | WLoad o _ i | WCas o _ i =>
      (i < n)%nat /\ match target o with Some k => i = k | None => True end
  | WLock o | WSleep o | WAsleep o | WRelock o _ =>
      match target o with Some k => (k < n)%nat | None => (0 < n)%nat end
  | SStore i | SLock i | SNotify i => (i < n)%nat
  | _ => True
  end.

Definition wake_ok (g : group) : Prop :=
  forall t pc j, threads g !! t = Some pc -> scanned (length (events g)) pc j ->
    events g !! j = Some 0 \/ pending (threads g) j.

Record group_inv (g : group) : Prop := GroupInv {
  gi_mutex : mutex_inv g;
  gi_pcs : Forall (pc_ok (length (events g))) (threads g);
  gi_wake : wake_ok g;
  gi_levels : Forall (fun v => v = 0 \/ v = 1) (events g);
  gi_size : (0 < length (events g))%nat }.

(** ** Helper lemmas *)

Lemma insert_cases {A} (l : list A) t x k y :
  <[t := x]> l !! k = Some y -> (k = t /\ y = x) \/ (k <> t /\ l !! k = Some y).
Proof. intros [(-> & -> & _)|[? ?]]%list_lookup_insert_Some; [left|right]; auto. Qed.

Lemma pending_insert (ts : list tpc) t pc pc' j :
  ts !! t = Some pc -> pc <> SNotify j -> (pc = SLock j -> pc' = SNotify j) ->
  pending ts j -> pending (<[t := pc']> ts) j.
Proof.
  intros Ht Hn Hl [k Hk]. exists k.
  destruct (decide (k = t)) as [->|Hne]; [|by rewrite !list_lookup_insert_ne].
  rewrite list_lookup_insert_eq by by eapply lookup_lt_Some.
  destruct Hk as [Hk|Hk]; rewrite Ht in Hk; simplify_eq. right. by rewrite Hl.
Qed.

(** Where a failed attempt leads, for a call whose position is well formed. *)
Lemma after_fail_spec n o ph i pc' r :
  after_fail n o ph i = (pc', r) -> pc_ok n (WLoad o ph i) ->
  pc_ok n pc' /\
  holds_mtx pc' = (if r then false else holds_mtx (WLoad o ph i)) /\
  (r = true -> ph = Final) /\ is_notify pc' = false /\
  (forall j, scanned n pc' j -> (j = i /\ ph = Locked) \/ scanned n (WLoad o ph i) j).
Proof.
  unfold after_fail, next_index, pc_ok, holds_mtx, scanned.
  intros Heq [Hi Ho]. destruct (target o) as [k|] eqn:Et; [|destruct (Nat.ltb_spec (S i) n)];
    destruct ph; try destruct (timeout o) as [ms|]; repeat case_match; simplify_eq;
    rewrite ?Et; repeat split; intros; simplify_eq; try done; try lia; auto;
    (destruct (decide (j = i)); [by left|right; lia]).
Qed.

Lemma wake_scanned n pc j : scanned n (wake pc) j -> holds_mtx (wake pc) = true /\ wake pc = pc.
Proof. destruct pc; simpl; try done; by destruct ph. Qed.

(** A call that enters is well formed and owes nothing. *)
Lemma enter_wait_ok n o pc :
  (0 < n)%nat -> enter_wait n o = Ok pc ->
  pc_ok n pc /\ holds_mtx pc = false /\ forall j, ~ scanned n pc j.
Proof.
  unfold enter_wait, pc_ok. intros Hn. destruct (target o) eqn:Et.
  - destruct (Nat.leb_spec n n0); intros; simplify_eq. rewrite Et. repeat split; auto; lia.
  - intros; simplify_eq. rewrite Et. repeat split; auto.
Qed.

Lemma group_inv_spawn g pc :
  group_inv g -> pc_ok (length (events g)) pc -> holds_mtx pc = false ->
  (forall j, ~ scanned (length (events g)) pc j) ->
  group_inv (Group (events g) (mtx g) (threads g ++ [pc])).
Proof.
  intros [Hm Hp Hw Hl Hs] Hok Hh Hsc. split; simpl; try done.
  - destruct Hm as [Hm Ho]. split; simpl.
    + intros t pc0 Ht. apply lookup_snoc_Some in Ht as [[_ Ht]|[Ht <-]]; [by apply Hm|].
      rewrite Hh. split; [done|]. intros Hx%Ho. lia.
    + intros t Ht%Ho. rewrite length_app. lia.
  - apply Forall_app; auto.
  - intros t pc0 j Ht Hj. simpl in *.
    apply lookup_snoc_Some in Ht as [[_ Ht]|[_ <-]]; [|by apply Hsc in Hj].
    destruct (Hw _ _ _ Ht Hj) as [?|[k Hk]]; [by left|right].
    exists k. destruct Hk as [Hk|Hk]; [left|right]; by apply lookup_app_l_Some.
Qed.

(** A step of one thread that is not the notification. *)
Lemma group_inv_move g t pc ev' mx' pc' :
  group_inv g -> threads g !! t = Some pc -> is_notify pc = false ->
  length ev' = length (events g) -> Forall (fun v => v = 0 \/ v = 1) ev' ->
  pc_ok (length (events g)) pc' ->
  (holds_mtx pc' = true <-> mx' = Some t) ->
  (mx' = mtx g \/ (mtx g = None \/ mtx g = Some t) /\ (mx' = None \/ mx' = Some t)) ->
  (forall j, events g !! j = Some 0 -> ev' !! j = Some 0 \/ pc' = SLock j) ->
  (forall j, pc = SLock j -> pc' = SNotify j) ->
  (forall j, scanned (length (events g)) pc' j ->
     (events g !! j = Some 0 \/ pending (threads g) j) \/ scanned (length (events g)) pc j) ->
  group_inv (Group ev' mx' (<[t := pc']> (threads g))).
Proof.
  intros [Hm Hp Hw Hl Hs] Ht Hnn Hlen Hlev Hok Hmt Hmo Hev Hlk Hsc.
  assert (t < length (threads g))%nat as Htl by by eapply lookup_lt_Some.
  assert (forall j, events g !! j = Some 0 \/ pending (threads g) j ->
            ev' !! j = Some 0 \/ pending (<[t:=pc']> (threads g)) j) as Hkeep.
  { intros j [H0|Hpd].
    - destruct (Hev j H0) as [?|?]; [by left|right]. exists t. left.
      rewrite list_lookup_insert_eq; congruence.
    - right. eapply pending_insert; eauto. by intros ->. }
  split; simpl; rewrite ?Hlen; try done.
  - destruct Hm as [Hm Ho]. split; simpl.
    + intros k pc0 Hk. apply insert_cases in Hk as [[-> ->]|[Hne Hk]]; [done|].
      rewrite (Hm _ _ Hk). intuition congruence.
    + rewrite length_insert. intros k Hk. destruct (decide (k = t)) as [->|]; [done|].
      apply Ho. intuition congruence.
  - by apply Forall_insert.
  - intros k pc0 j Hk Hj. simpl in *. rewrite Hlen in Hj. apply Hkeep.
    apply insert_cases in Hk as [[-> ->]|[Hne Hk]]; [|by eapply Hw].
    destruct (Hsc j Hj) as [?|?]; [done|by eapply Hw].
Qed.

(** The notification: nobody is left asleep, and no other thread can be in the critical
    section of a wait. *)
Lemma group_inv_notify g t i :
  group_inv g -> threads g !! t = Some (SNotify i) ->
  group_inv (Group (events g) None (wake <$> <[t := SDone i]> (threads g))).
Proof.
  intros [[Hm Ho] Hp Hw Hl Hs] Ht. pose proof (proj1 (Hm _ _ Ht) eq_refl) as Hmt.
  assert (forall k pc, (wake <$> <[t := SDone i]> (threads g)) !! k = Some pc ->
            holds_mtx pc = true -> False) as Hfree.
  { intros k pc Hk Hh. rewrite list_lookup_fmap in Hk.
    destruct (<[t:=SDone i]> (threads g) !! k) as [pc0|] eqn:Hk0; simplify_eq/=.
    apply insert_cases in Hk0 as [[-> ->]|[Hne Hk0]]; [done|].
    assert (holds_mtx pc0 = true) as Hh0 by (by destruct pc0).
    pose proof (proj1 (Hm _ _ Hk0) Hh0). congruence. }
  split; simpl; try done.
  - split; simpl; [|done]. intros k pc Hk. split; [|done].
    intros Hh. by destruct (Hfree _ _ Hk Hh).
  - apply Forall_fmap, Forall_insert; [|done]. eapply Forall_impl; [exact Hp|].
    intros []; simpl; auto.
  - intros k pc j Hk Hj. simpl in *. exfalso. rewrite list_lookup_fmap in Hk.
    destruct (<[t:=SDone i]> (threads g) !! k) as [pc0|] eqn:Hk0; simplify_eq/=.
    destruct (wake_scanned _ _ _ Hj) as [Hh _]. apply (Hfree k (wake pc0)); [|done].
    by rewrite list_lookup_fmap, Hk0.
Qed.

Lemma zero_after_clear (ev : list Z) i j :
  ev !! j = Some 0 -> <[i := 0]> ev !! j = Some 0.
Proof.
  intros Hj. destruct (decide (i = j)) as [->|]; [|by rewrite list_lookup_insert_ne].
  apply list_lookup_insert_eq. by eapply lookup_lt_Some.
Qed.

(** A failed attempt keeps the invariant; under the mutex, a call may give an event up only if it
    is low or about to be announced. *)
Lemma group_inv_fail g t pc o ph i pc' r :
  group_inv g -> threads g !! t = Some pc -> pc = WLoad o ph i \/ pc = WCas o ph i ->
  (ph = Locked -> events g !! i = Some 0 \/ pending (threads g) i) -> after_fail (length (events g)) o ph i = (pc', r) ->
  group_inv (Group (events g) (if r then None else mtx g) (<[t := pc']> (threads g))).
Proof.
  intros Hg Ht Hpc Hi Haf. pose proof Hg as [Hm Hp Hw Hl Hs].
  pose proof (Forall_lookup_1 _ _ _ _ Hp Ht) as Hok.
  assert (pc_ok (length (events g)) (WLoad o ph i)) as Hok' by (by destruct Hpc; subst).
  destruct (after_fail_spec _ _ _ _ _ _ Haf Hok') as (H1 & H2 & H3 & H4 & H5).
  assert (holds_mtx (WLoad o ph i) = true <-> mtx g = Some t) as Hown.
  { rewrite <- (proj1 Hm t pc Ht). by destruct Hpc; subst. }
  eapply group_inv_move; eauto; try (by destruct Hpc; subst).
  - rewrite H2. destruct r; [done|exact Hown].
  - destruct r; [|by left]. right. split; [right|by left]. apply Hown. by rewrite (H3 eq_refl).
  - intros j Hj. destruct (H5 j Hj) as [[-> Hph]|Hsc]; [left; auto|right]. by destruct Hpc; subst.
Qed.

Lemma group_inv_run g t pc ev' mx' pc' :
  group_inv g -> threads g !! t = Some pc -> is_notify pc = false ->
  thread_step (events g) (mtx g) t pc = Some (ev', mx', pc') ->
  group_inv (Group ev' mx' (<[t := pc']> (threads g))).
Proof.
  intros Hg Ht Hnn Hst. pose proof Hg as [Hm Hp Hw Hl Hs].
  pose proof (Forall_lookup_1 _ _ _ _ Hp Ht) as Hok.
  pose proof (proj1 Hm _ _ Ht) as Hown.
  destruct pc as [o ph i|o ph i|o|o|o|o b|r|i|i|i|i]; simpl in Hst, Hown; try done.
  - destruct (events g !! i) as [v|] eqn:Ei; [|done]. destruct (Z.eqb_spec v 0) as [->|].
    + destruct (after_fail (length (events g)) o ph i) as [pc0 r] eqn:Ef; simplify_eq.
      eapply group_inv_fail; eauto.
    + simplify_eq. eapply group_inv_move; eauto; done.
  - destruct (events g !! i) as [v|] eqn:Ei; [|done]. destruct (Z.eqb_spec v 1) as [->|].
    + simplify_eq. eapply group_inv_move; eauto; try done.
      * apply length_insert.
      * by apply Forall_insert; auto.
      * destruct ph; simpl; intuition congruence.
      * destruct ph; [by left|..]; right; intuition congruence.
      * intros j Hj. left. by apply zero_after_clear.
    + assert (v = 0) as -> by (pose proof (Forall_lookup_1 _ _ _ _ Hl Ei); simpl in *; lia).
      destruct (after_fail (length (events g)) o ph i) as [pc0 r] eqn:Ef; simplify_eq.
      eapply group_inv_fail; eauto.
  - destruct (mtx g) eqn:Em; simplify_eq. eapply group_inv_move; eauto; try done; simpl.
    + simpl in Hok. unfold first_index. destruct (target o); simpl in *; auto.
    + intros j. unfold first_index. destruct (target o); simpl; intros; [done|exfalso; lia].
  - simplify_eq. eapply group_inv_move; eauto; try done. right. intuition congruence.
  - destruct (mtx g) eqn:Em; simplify_eq. eapply group_inv_move; eauto; try done; simpl.
    + simpl in Hok. unfold first_index. destruct (target o); simpl in *; auto.
    + by destruct b.
    + intros j. destruct b; [done|]. unfold first_index.
      destruct (target o); simpl; intros; [done|exfalso; lia].
  - simplify_eq. eapply group_inv_move; eauto; try done; auto.
    + apply length_insert.
    + by apply Forall_insert; auto.
    + intros j Hj. destruct (decide (i = j)) as [->|]; [by right|left].
      by rewrite list_lookup_insert_ne.
  - destruct (mtx g) eqn:Em; simplify_eq. eapply group_inv_move; eauto; try done; simpl.
    + intros; by simplify_eq.
Qed.

(** Waking up, for whatever reason. *)
Lemma group_inv_awake g t o b :
  group_inv g -> threads g !! t = Some (WAsleep o) ->
  group_inv (Group (events g) (mtx g) (<[t := WRelock o b]> (threads g))).
Proof.
  intros Hg Ht. pose proof (Forall_lookup_1 _ _ _ _ (gi_pcs _ Hg) Ht).
  pose proof (proj1 (gi_mutex _ Hg) _ _ Ht).
  eapply group_inv_move; eauto; try done. apply gi_levels, Hg.
Qed.

Lemma group_inv_step g g' : group_inv g -> gstep g g' -> group_inv g'.
Proof.
  intros Hg Hs. pose proof (gi_size _ Hg).
  destruct Hs as [g o pc He|g i pc He|g t pc ev' mx' pc' Ht Hst|g t o Ht|g t o ms Ht Hto].
  - destruct (enter_wait_ok _ _ _ H He) as (? & ? & ?). by apply group_inv_spawn.
  - unfold enter_signal in He. destruct (Nat.leb_spec (length (events g)) i); simplify_eq.
    apply group_inv_spawn; simpl; auto.
  - destruct (is_notify pc) eqn:En.
    + destruct pc; try done. simpl in Hst. simplify_eq. by apply group_inv_notify.
    + by eapply group_inv_run.
  - apply group_inv_awake; auto.
  - apply group_inv_awake; auto.
Qed.

Lemma group_inv_new n : (0 < n)%nat -> group_inv (new_group n).
Proof.
  intros. split; simpl; rewrite ?length_replicate; try done.
  apply Forall_replicate. by left.
Qed.

Lemma reachable_group n g : (0 < n)%nat -> star gstep (new_group n) g -> group_inv g.
Proof.
  intros Hn Hr. refine (star_invariant _ group_inv _ _ group_inv_step Hr _).
  by apply group_inv_new.
Qed.

(** ** No lost wake-up, no deadlock *)

(** Call [o] is waiting for event [j]. *)
Definition waits_for (n : nat) (o : wait_op) (j : nat) : Prop :=
  match target o with Some i => j = i | None => (j < n)%nat end.

(** No signal is lost on a sleeping waiter: whenever a thread is blocked in [wait] or
    [waitOne] of a group and an event it waits for is raised, the thread that raised it has
    not yet reached its [notify_all], which will wake the waiter up. *)
Theorem signal_not_lost n g t o j :
  (0 < n)%nat -> star gstep (new_group n) g ->
  threads g !! t = Some (WAsleep o) -> waits_for (length (events g)) o j ->
  events g !! j = Some 1 -> pending (threads g) j.
Proof.
  intros Hn Hr Ht Hj H1.
  destruct (gi_wake _ (reachable_group _ _ Hn Hr) _ _ j Ht) as [H0|?]; [done| |done].
  congruence.
Qed.

(** No thread can take a step of its own. *)
Definition stuck (g : group) : Prop :=
  forall t pc, threads g !! t = Some pc -> thread_step (events g) (mtx g) t pc = None.

Lemma holder_steps g t pc :
  group_inv g -> threads g !! t = Some pc -> holds_mtx pc = true ->
  thread_step (events g) (mtx g) t pc <> None.
Proof.
  intros Hg Ht Hh. pose proof (Forall_lookup_1 _ _ _ _ (gi_pcs _ Hg) Ht) as Hok.
  destruct pc as [o ph i|o ph i|o|o|o|o b|r|i|i|i|i]; simpl in *; try done;
    destruct (lookup_lt_is_Some_2 (events g) i (proj1 Hok)) as [v ->];
    repeat case_match; done.
Qed.

Lemma stuck_means g :
  group_inv g -> stuck g ->
  mtx g = None /\
  forall t pc, threads g !! t = Some pc ->
    match pc with
    | WDone _ | SDone _ => True
    | WAsleep o => forall j, waits_for (length (events g)) o j -> events g !! j = Some 0
    | _ => False
    end.
Proof.
  intros Hg Hst. pose proof (gi_mutex _ Hg) as [Hm Ho].
  assert (mtx g = None) as Hfree.
  { destruct (mtx g) as [k|] eqn:Em; [exfalso|done].
    destruct (lookup_lt_is_Some_2 _ _ (Ho k eq_refl)) as [pc Hk].
    apply (holder_steps g k pc Hg Hk); [by apply (Hm k pc Hk)|exact (Hst _ _ Hk)]. }
  split; [done|]. intros t pc Ht. pose proof (Hst _ _ Ht) as Hs. rewrite Hfree in Hs.
  pose proof (Forall_lookup_1 _ _ _ _ (gi_pcs _ Hg) Ht) as Hok.
  destruct pc as [o ph i|o ph i|o|o|o|o b|r|i|i|i|i]; simpl in *; try done.
  1-2: destruct (lookup_lt_is_Some_2 (events g) i (proj1 Hok)) as [v Hv]; rewrite Hv in Hs;
    revert Hs; repeat case_match; done.
  intros j Hj. destruct (gi_wake _ Hg _ _ j Ht Hj) as [?|[k Hk]]; [done|exfalso].
  destruct Hk as [Hk|Hk]; pose proof (Hst _ _ Hk) as Hks; rewrite Hfree in Hks; done.
Qed.

(** The group never deadlocks: when no thread can move, the mutex is free, every call
    has returned or is blocked on the condition variable, and every event a blocked call waits
    for is low, so only a new signal (or a timeout) is missing. *)
Theorem group_never_deadlocks n g :
  (0 < n)%nat -> star gstep (new_group n) g -> stuck g ->
  mtx g = None /\
  forall t pc, threads g !! t = Some pc ->
    match pc with
    | WDone _ | SDone _ => True
    | WAsleep o => forall j, waits_for (length (events g)) o j -> events g !! j = Some 0
    | _ => False
    end.
Proof. intros Hn Hr. by apply stuck_means, (reachable_group n). Qed.

(** ** A signal is consumed at most once *)

Definition b2n (b : bool) : nat := if b then 1 else 0.
Definition count (f : tpc -> bool) (ts : list tpc) : nat := list_sum ((fun pc => b2n (f pc)) <$> ts).

(** Calls that have consumed event [j], and calls that have raised it. *)
Definition consumed (j : nat) (pc : tpc) : bool :=
  match pc with WDone (Some i) => (i =? j)%nat | _ => false end.
Definition raised (j : nat) (pc : tpc) : bool :=
  match pc with SLock i | SNotify i | SDone i => (i =? j)%nat | _ => false end.

Lemma count_insert f ts t pc pc' :
  ts !! t = Some pc -> (count f (<[t := pc']> ts) + b2n (f pc) = count f ts + b2n (f pc'))%nat.
Proof.
  unfold count. revert t. induction ts as [|x ts IH]; intros [|t] Ht; simplify_eq/=; [lia|].
  specialize (IH _ Ht). lia.
Qed.

Lemma count_snoc f ts pc : count f (ts ++ [pc]) = (count f ts + b2n (f pc))%nat.
Proof. unfold count. rewrite fmap_app, list_sum_app. simpl. lia. Qed.

Lemma count_wake f ts : (forall pc, f (wake pc) = f pc) -> count f (wake <$> ts) = count f ts.
Proof.
  intros Hf. unfold count. rewrite <- list_fmap_compose. f_equal.
  apply list_fmap_ext. intros. simpl. by rewrite Hf.
Qed.

Definition level (ev : list Z) (j : nat) : nat := b2n (default 0 (ev !! j) =? 1).

(** Every signal raises the event once, and every consumption lowers it. *)
Definition balance (j : nat) (g : group) : Prop :=
  (count (consumed j) (threads g) + level (events g) j <= count (raised j) (threads g))%nat.

Lemma thread_step_balance j g t pc ev' mx' pc' :
  thread_step (events g) (mtx g) t pc = Some (ev', mx', pc') ->
  (b2n (consumed j pc') + level ev' j + b2n (raised j pc) <=
   b2n (consumed j pc) + level (events g) j + b2n (raised j pc'))%nat.
Proof.
  assert (forall n o ph i pc0 r, after_fail n o ph i = (pc0, r) ->
    consumed j pc0 = false /\ raised j pc0 = false) as Haf.
  { unfold after_fail. intros. repeat case_match; simplify_eq; done. }
  destruct pc as [o ph i|o ph i|o|o|o|o b|r|i|i|i|i]; simpl; intros Hs; try done.
  1-2: destruct (events g !! i) as [v|] eqn:Ei; [|done]; revert Hs; case_bool;
    [|try destruct (after_fail _ _ _ _) as [pc0 r] eqn:Ef]; intros; simplify_eq; simpl;
    try (destruct (after_fail _ _ _ _) as [pc0 r] eqn:Ef; simplify_eq);
    try (destruct (Haf _ _ _ _ _ _ Ef) as [-> ->]; simpl; lia); try lia.
  - unfold level. destruct (Nat.eqb_spec i j) as [->|Hne].
    + rewrite list_lookup_insert_eq, Ei by (by eapply lookup_lt_Some). simpl. lia.
    + rewrite list_lookup_insert_ne by done. simpl. lia.
  - destruct (mtx g); simplify_eq. simpl. lia.
  - simplify_eq. simpl. lia.
  - destruct (mtx g); simplify_eq. simpl. lia.
  - simplify_eq. simpl. unfold level. destruct (Nat.eqb_spec i j) as [->|Hne].
    + assert (forall b, (b2n b <= 1)%nat) as Hb by (intros []; simpl; lia).
      pose proof (Hb (default 0 (<[j:=1]> (events g) !! j) =? 1)). simpl. lia.
    + rewrite list_lookup_insert_ne by done. simpl. lia.
  - destruct (mtx g); simplify_eq. simpl. lia.
  - simplify_eq. simpl. lia.
Qed.

Lemma balance_step j g g' : balance j g -> gstep g g' -> balance j g'.
Proof.
  unfold balance. intros Hb Hs.
  destruct Hs as [g o pc He|g i pc He|g t pc ev' mx' pc' Ht Hst|g t o Ht|g t o ms Ht Hto]; simpl.
  - rewrite !count_snoc. unfold enter_wait in He. repeat case_match; simplify_eq; simpl; lia.
  - rewrite !count_snoc. unfold enter_signal in He. repeat case_match; simplify_eq; simpl; lia.
  - pose proof (thread_step_balance j _ _ _ _ _ _ Hst).
    pose proof (count_insert (consumed j) _ _ _ pc' Ht).
    pose proof (count_insert (raised j) _ _ _ pc' Ht).
    destruct (is_notify pc); [rewrite !count_wake by (by intros [])|]; lia.
  - pose proof (count_insert (consumed j) _ _ _ (WRelock o false) Ht).
    pose proof (count_insert (raised j) _ _ _ (WRelock o false) Ht). simpl in *. lia.
  - pose proof (count_insert (consumed j) _ _ _ (WRelock o true) Ht).
    pose proof (count_insert (raised j) _ _ _ (WRelock o true) Ht). simpl in *. lia.
Qed.

(** Every raise of an event is consumed at most once: in every reachable state the calls
    that returned having consumed event [j], plus one if the event is still up, are at most
    the calls of [signal(j)] that raised it. *)
Theorem signal_consumed_at_most_once n g j :
  star gstep (new_group n) g ->
  (count (consumed j) (threads g) + level (events g) j <= count (raised j) (threads g))%nat.
Proof.
  intros Hr. refine (star_invariant _ (balance j) _ _ (balance_step j) Hr _).
  unfold balance, level. simpl. destruct (decide (j < n)%nat).
  - by rewrite lookup_replicate_2.
  - by rewrite lookup_ge_None_2 by (rewrite length_replicate; lia).
Qed.

(** ** One call at a time *)

(** The thread runs with nobody else around, until it returns or cannot go on. *)
Fixpoint run_alone (fuel : nat) (ev : list Z) (mx : option nat) (t : nat) (pc : tpc)
  : list Z * option nat * tpc :=
  match fuel with
  | O => (ev, mx, pc)
  | S fuel' =>
      match thread_step ev mx t pc with
      | Some (ev', mx', pc') => run_alone fuel' ev' mx' t pc'
      | None => (ev, mx, pc)
      end
  end.

(** The event a call has to consume when nobody else moves: its own, or the lowest raised. *)
Definition is_raised (v : Z) : bool := v =? 1.
Definition find_event (ev : list Z) (o : wait_op) : option nat :=
  match target o with
  | Some i => if is_raised (default 0 (ev !! i)) then Some i else None
  | None => fst <$> list_find (fun v => is_raised v = true) ev
  end.

Lemma run_alone_add a b ev mx t pc :
  run_alone (a + b) ev mx t pc =
  (let '(ev', mx', pc') := run_alone a ev mx t pc in run_alone b ev' mx' t pc').
Proof.
  revert ev mx pc. induction a as [|a IH]; intros; simpl; [done|].
  destruct (thread_step ev mx t pc) as [[[ev' mx'] pc']|] eqn:E; [apply IH|].
  destruct b; simpl; [done|]. by rewrite E.
Qed.

Definition unlocked (ph : phase) (mx : option nat) : option nat :=
  match ph with Fast => mx | _ => None end.

(** A raised event is consumed in two steps, a low one is left in one. *)
Lemma attempt_hit fuel ev mx t o ph i :
  ev !! i = Some 1 ->
  run_alone (S (S fuel)) ev mx t (WLoad o ph i) =
  run_alone fuel (<[i := 0]> ev) (unlocked ph mx) t (WDone (Some i)).
Proof. intros Hi. simpl. rewrite Hi. simpl. by rewrite Hi. Qed.

Lemma attempt_miss fuel ev mx t o ph i :
  ev !! i = Some 0 ->
  run_alone (S fuel) ev mx t (WLoad o ph i) =
  (let '(pc', r) := after_fail (length ev) o ph i in
   run_alone fuel ev (if r then None else mx) t pc').
Proof. intros Hi. simpl. rewrite Hi. simpl. by destruct (after_fail _ _ _ _). Qed.

Lemma done_stays fuel ev mx t r : run_alone fuel ev mx t (WDone r) = (ev, mx, WDone r).
Proof. by destruct fuel. Qed.

(** A whole round of [tryConsumeOne] from index [i], all events below which are low. *)
Lemma scan_all_low fuel ev mx t to ph i :
  (i < length ev)%nat -> (forall j, (i <= j < length ev)%nat -> ev !! j = Some 0) ->
  run_alone (length ev - i + fuel) ev mx t (WLoad (WaitOp None to) ph i) =
  (let '(pc', r) := after_fail (length ev) (WaitOp None to) ph (length ev - 1) in
   run_alone fuel ev (if r then None else mx) t pc').
Proof.
  remember (length ev - i)%nat as d eqn:Hd. revert i Hd.
  induction d as [|d IH]; intros i Hd Hi Hlow; [lia|].
  change (S d + fuel)%nat with (S (d + fuel)).
  rewrite attempt_miss by (apply Hlow; lia).
  destruct (Nat.eqb_spec (S i) (length ev)) as [He|He].
  - replace d with 0%nat by lia. by replace (length ev - 1)%nat with i by lia.
  - unfold after_fail at 1, next_index. simpl.
    rewrite (proj2 (Nat.ltb_lt (S i) (length ev))) by lia.
    apply IH; [lia|lia|]. intros j Hj. apply Hlow. lia.
Qed.

Lemma scan_hit fuel ev mx t to ph i k :
  (i <= k)%nat -> ev !! k = Some 1 ->
  (forall j, (i <= j < k)%nat -> ev !! j = Some 0) ->
  run_alone (k - i + (2 + fuel)) ev mx t (WLoad (WaitOp None to) ph i) =
  (<[k := 0]> ev, unlocked ph mx, WDone (Some k)).
Proof.
  intros Hik Hk. pose proof (lookup_lt_Some _ _ _ Hk) as Hlen.
  remember (k - i)%nat as d eqn:Hd. revert i Hik Hd.
  induction d as [|d IH]; intros i Hik Hd Hlow.
  - replace i with k by lia. simpl plus. by rewrite attempt_hit, done_stays.
  - change (S d + (2 + fuel))%nat with (S (d + (2 + fuel))).
    rewrite attempt_miss by (apply Hlow; lia).
    unfold after_fail, next_index. simpl target. cbv iota beta.
    rewrite (proj2 (Nat.ltb_lt (S i) (length ev))) by lia.
    apply IH; [lia|lia|]. intros j Hj. apply Hlow. lia.
Qed.

Definition levels_ok (ev : list Z) : Prop := Forall (fun v => v = 0 \/ v = 1) ev.
(** The index the call looks at last before it takes the failure branch. *)
Definition last_index (n : nat) (o : wait_op) : nat := default (n - 1)%nat (target o).

Lemma round_hit ev mx t o ph k :
  levels_ok ev -> find_event ev o = Some k ->
  exists fuel, run_alone fuel ev mx t (WLoad o ph (first_index o)) =
    (<[k := 0]> ev, unlocked ph mx, WDone (Some k)).
Proof.
  intros Hl. destruct o as [[i|] to]; unfold find_event, first_index; simpl.
  - destruct (ev !! i) as [v|] eqn:Ei; simpl; [|done]. unfold is_raised.
    destruct (Z.eqb_spec v 1) as [->|]; intros; simplify_eq. exists 2%nat.
    by rewrite attempt_hit, done_stays.
  - intros [[k' v] [Hf ->]]%fmap_Some. apply list_find_Some in Hf as (Hk & Hv & Hlow).
    unfold is_raised in Hv. bools. subst. exists (k' - 0 + (2 + 0))%nat.
    apply scan_hit; [lia|done|]. intros j Hj. simpl in Hj.
    destruct (lookup_lt_is_Some_2 ev j) as [w Hw].
    { pose proof (lookup_lt_Some _ _ _ Hk). lia. }
    rewrite Hw. destruct (Forall_lookup_1 _ _ _ _ Hl Hw) as [->| ->]; [done|].
    destruct (Hlow j 1 Hw); [lia|done].
Qed.

Lemma round_miss ev mx t o ph :
  levels_ok ev -> pc_ok (length ev) (WLock o) -> find_event ev o = None ->
  exists fuel, run_alone fuel ev mx t (WLoad o ph (first_index o)) =
    (let '(pc', r) := after_fail (length ev) o ph (last_index (length ev) o) in
     (ev, if r : bool then None else mx, pc')).
Proof.
  intros Hl. destruct o as [[i|] to]; unfold find_event, first_index, last_index; simpl; intros Hi.
  - destruct (lookup_lt_is_Some_2 ev i Hi) as [v Hv]. rewrite Hv. simpl. unfold is_raised.
    destruct (Forall_lookup_1 _ _ _ _ Hl Hv) as [->| ->]; intros; simplify_eq.
    exists 1%nat. by rewrite attempt_miss.
  - intros Hf. destruct (list_find _ ev) as [|] eqn:Hnone; [done|].
    apply list_find_None in Hnone. exists (length ev - 0 + 0)%nat. apply scan_all_low; [lia|].
    intros j Hj. destruct (lookup_lt_is_Some_2 ev j) as [w Hw]; [lia|]. rewrite Hw.
    destruct (Forall_lookup_1 _ _ _ _ Hl Hw) as [->| ->]; [done|].
    by pose proof (Forall_lookup_1 _ _ _ _ Hnone Hw).
Qed.

Lemma enter_wait_first n o pc :
  enter_wait n o = Ok pc -> (0 < n)%nat -> pc = WLoad o Fast (first_index o) /\ pc_ok n (WLock o).
Proof.
  unfold enter_wait, first_index. destruct o as [[i|] to]; simpl; [|by intros; simplify_eq].
  destruct (Nat.leb_spec n i); intros; simplify_eq; auto.
Qed.

(** A wait that finds an event: whichever overload is called, the call returns, with the
    event it was asked for ([wait]) or the lowest raised one ([waitOne]); exactly that event
    is lowered and the mutex is free. *)
Theorem wait_finds_event ev t o pc k :
  levels_ok ev -> enter_wait (length ev) o = Ok pc -> find_event ev o = Some k ->
  exists fuel, run_alone fuel ev None t pc = (<[k := 0]> ev, None, WDone (Some k)).
Proof.
  intros Hl He Hf. destruct (enter_wait_first _ _ _ He) as [-> _]; [|by apply round_hit].
  destruct ev; [|simpl; lia]. unfold find_event in Hf. by destruct (target o).
Qed.

(** The tests a call makes before it blocks, and after its deadline. *)
Lemma blocks_without_event ev t o :
  levels_ok ev -> pc_ok (length ev) (WLock o) -> find_event ev o = None ->
  exists fuel, run_alone fuel ev None t (WLock o) = (ev, None, WAsleep o).
Proof.
  intros Hl Hok Hf. destruct (round_miss ev (Some t) t o Locked Hl Hok Hf) as [f Hr].
  exists (1 + (f + 1))%nat. simpl run_alone. rewrite run_alone_add, Hr.
  unfold after_fail, next_index, last_index. destruct (target o) as [|]; simpl; [done|].
  destruct (Nat.ltb_spec (S (length ev - 1)) (length ev)); [lia|done].
Qed.

(** A wait that finds nothing: with a zero timeout the call returns false at once and
    changes nothing; every other overload blocks on the condition variable, with the mutex
    released; and if its deadline passes without a signal it returns false. *)
Theorem wait_finds_nothing ev t o pc :
  levels_ok ev -> (0 < length ev)%nat ->
  enter_wait (length ev) o = Ok pc -> find_event ev o = None ->
  (exists fuel, run_alone fuel ev None t pc =
    (ev, None, if decide (timeout o = Some 0) then WDone None else WAsleep o)) /\
  (exists fuel, run_alone fuel ev None t (WRelock o true) = (ev, None, WDone None)).
Proof.
  intros Hl Hn He Hf. destruct (enter_wait_first _ _ _ He Hn) as [-> Hok].
  assert (next_index (length ev) o (last_index (length ev) o) = None) as Hlast.
  { unfold next_index, last_index. destruct (target o); simpl; [done|].
    destruct (Nat.ltb_spec (S (length ev - 1)) (length ev)); [lia|done]. }
  split.
  - destruct (round_miss ev None t o Fast Hl Hok Hf) as [f Hr].
    destruct (blocks_without_event ev t o Hl Hok Hf) as [f' Hb].
    unfold after_fail in Hr. rewrite Hlast in Hr.
    exists (f + (if decide (timeout o = Some 0%Z) then 0 else f'))%nat.
    rewrite run_alone_add, Hr. destruct (timeout o) as [ms|] eqn:Et.
    + destruct (Z.eqb_spec ms 0) as [->|]; case_decide; simplify_eq; done.
    + by case_decide.
  - destruct (round_miss ev (Some t) t o Final Hl Hok Hf) as [f Hr].
    exists (1 + f)%nat. simpl run_alone. rewrite Hr. unfold after_fail. by rewrite Hlast.
Qed.

(** The calls of [Signal] and of [SignalOfAGroup] are calls of the group that pass its index
    check, so every theorem above is about them too. *)
Lemma signal_wait_enters t : enter_wait 1 (WaitOp (Some 0%nat) t) = Ok (signal_wait t).
Proof. done. Qed.

Lemma signal_signal_enters : enter_signal 1 0 = Ok signal_signal.
Proof. done. Qed.

Lemma getSignal_enters n i s t :
  getSignal n i = Ok s ->
  sog_wait s t = Ok (WLoad (WaitOp (Some i) t) Fast i) /\ sog_signal s = Ok (SStore i).
Proof.
  unfold getSignal, sog_wait, sog_signal, enter_wait, enter_signal.
  destruct (Nat.leb_spec n i); intros; simplify_eq; simpl.
  destruct (Nat.leb_spec n i); [lia|done].
Qed.

(** ** Concrete runs *)

(** A schedule: the calls made and the threads that run, in order. *)
Inductive gaction := CallWait (o : wait_op) | CallSignal (i : nat) | Run (t : nat).

Definition gexec1 (g : group) (a : gaction) : option group :=
  let spawn r := match r with
                 | Ok pc => Some (Group (events g) (mtx g) (threads g ++ [pc]))
                 | _ => None
                 end in
  match a with
  | CallWait o => spawn (enter_wait (length (events g)) o)
  | CallSignal i => spawn (enter_signal (length (events g)) i)
  | Run t =>
      match threads g !! t with
      | Some pc =>
          match thread_step (events g) (mtx g) t pc with
          | Some (ev', mx', pc') =>
              Some (Group ev' mx' (if is_notify pc then wake <$> <[t := pc']> (threads g)
                                   else <[t := pc']> (threads g)))
          | None => None
          end
      | None => None
      end
  end.

Fixpoint gexec (g : group) (acts : list gaction) : option group :=
  match acts with
  | [] => Some g
  | a :: acts' => match gexec1 g a with Some g' => gexec g' acts' | None => None end
  end.

Lemma gexec1_step g a g' : gexec1 g a = Some g' -> gstep g g'.
Proof.
  destruct a as [o|i|t]; simpl.
  - destruct (enter_wait _ _) eqn:E; intros; simplify_eq. by eapply g_call_wait.
  - destruct (enter_signal _ _) eqn:E; intros; simplify_eq. by eapply g_call_signal.
  - destruct (threads g !! t) as [pc|] eqn:Et; [|done].
    destruct (thread_step _ _ _ _) as [[[ev' mx'] pc']|] eqn:Es; intros; simplify_eq.
    by eapply g_run.
Qed.

Lemma gexec_star g acts g' : gexec g acts = Some g' -> star gstep g g'.
Proof.
  revert g. induction acts as [|a acts IH]; simpl; intros g; [by intros [= <-]; constructor|].
  destruct (gexec1 g a) as [g1|] eqn:E; [|done]. intros H.
  econstructor; [by eapply gexec1_step|by apply IH].
Qed.

(** A waiter falls asleep on event 1 of two, another thread raises it. *)
Definition sleeper : wait_op := WaitOp (Some 1%nat) None.
Definition asleep_then_raised : list gaction :=
  [CallWait sleeper; Run 0; Run 0; Run 0; Run 0; CallSignal 1; Run 1].

Lemma signal_not_lost_witness :
  exists g, star gstep (new_group 2) g /\ threads g !! 0%nat = Some (WAsleep sleeper) /\
    events g !! 1%nat = Some 1 /\ pending (threads g) 1.
Proof.
  destruct (gexec (new_group 2) asleep_then_raised) as [g|] eqn:E; [|vm_compute in E; discriminate].
  exists g. pose proof (gexec_star _ _ _ E) as Hr.
  vm_compute in E. injection E as <-.
  split; [exact Hr|]. split; [reflexivity|]. split; [reflexivity|].
  apply (signal_not_lost 2 _ 0 sleeper 1); [lia|exact Hr|reflexivity|reflexivity|reflexivity].
Defined.

(** Both calls finish; a third one stays asleep. *)
Definition three_calls : list gaction :=
  asleep_then_raised ++ [Run 1; Run 1; Run 0; Run 0; Run 0; CallWait (WaitOp None None);
                         Run 2; Run 2; Run 2; Run 2; Run 2; Run 2].

Lemma group_never_deadlocks_witness :
  exists g, star gstep (new_group 2) g /\ stuck g /\ mtx g = None /\
    threads g = [WDone (Some 1%nat); SDone 1; WAsleep (WaitOp None None)].
Proof.
  destruct (gexec (new_group 2) three_calls) as [g|] eqn:E; [|vm_compute in E; discriminate].
  exists g. pose proof (gexec_star _ _ _ E) as Hr.
  vm_compute in E. injection E as <-.
  match goal with |- _ /\ stuck ?g /\ _ => assert (stuck g) as Hst end.
  { intros [|[|[|t]]] pc Ht; simpl in Ht; simplify_eq; reflexivity. }
  split; [exact Hr|]. split; [exact Hst|]. split; [|reflexivity].
  apply (group_never_deadlocks 2 _); [lia|exact Hr|exact Hst].
Defined.

Lemma signal_consumed_at_most_once_witness :
  exists g, star gstep (new_group 2) g /\ count (raised 1) (threads g) = 1%nat /\
    (count (consumed 1) (threads g) + level (events g) 1 <= count (raised 1) (threads g))%nat.
Proof.
  destruct (gexec (new_group 2) three_calls) as [g|] eqn:E; [|vm_compute in E; discriminate].
  exists g. pose proof (gexec_star _ _ _ E) as Hr.
  split; [exact Hr|]. split; [vm_compute in E; injection E as <-; reflexivity|].
  exact (signal_consumed_at_most_once 2 g 1 Hr).
Defined.

Lemma wait_finds_event_witness :
  exists fuel, run_alone fuel [0; 1; 1] None 7 (WLoad (WaitOp None None) Fast 0) =
    ([0; 0; 1], None, WDone (Some 1%nat)).
Proof.
  apply (wait_finds_event [0; 1; 1] 7 (WaitOp None None) (WLoad (WaitOp None None) Fast 0) 1);
    [repeat (apply Forall_cons_2; [auto|]); by apply Forall_nil_2|reflexivity|reflexivity].
Defined.

Lemma wait_finds_nothing_witness :
  (exists fuel, run_alone fuel [0; 1] None 7 (WLoad (WaitOp (Some 0%nat) (Some 250)) Fast 0) =
    ([0; 1], None, WAsleep (WaitOp (Some 0%nat) (Some 250)))) /\
  (exists fuel, run_alone fuel [0; 1] None 7 (WRelock (WaitOp (Some 0%nat) (Some 250)) true) =
    ([0; 1], None, WDone None)).
Proof.
  apply (wait_finds_nothing [0; 1] 7 (WaitOp (Some 0%nat) (Some 250))
           (WLoad (WaitOp (Some 0%nat) (Some 250)) Fast 0));
    [repeat (apply Forall_cons_2; [auto|]); by apply Forall_nil_2|simpl; lia|reflexivity|reflexivity].
Defined.
