(* ===== verification/SignalWeak.v ===== *)
(** * Inter-thread signals under weak memory (headers/concurrency/Signal.h, memory orders)

    [tryConsume] looks at an event with a relaxed load before it tries the compare-exchange.  Such a
    load may return any earlier value of the event that the thread is not known to have
    passed, so here an event is the list of all values stored to it, and every thread has a
    view: how far in each list it is known to be.  The steps are those of Signal.v; only the load
    is different.  The store and the compare-exchange are sequentially consistent and act on
    the newest value.  The mutex carries the view of the thread that released it to the next
    one that takes it, and nothing else does, which allows more than C++ does (a stored value, and
    the start of a thread, would also carry one).

    What Signal.v shows of the sequentially consistent steps holds here as well: the load can be
    relaxed because it is repeated under the mutex that [signal] takes after its store. *)

From S2P Require Import Prelude Signal.

Abbreviation view := (nat -> nat).
Definition join (v w : view) : view := fun i => Nat.max (v i) (w i).
Definition see (v : view) (i k : nat) : view := fun j => if (j =? i)%nat then k else v j.

(** [hist] has the values stored to each event, oldest first; [mview] is what the mutex
    carries. *)
Record weak_group := WeakGroup {
  hist : list (list Z); w_mtx : option nat; w_threads : list tpc;
  views : list view; mview : view }.

Definition newest (h : list Z) : Z := default 0 (last h).
Definition levels (h : list (list Z)) : list Z := newest <$> h.

(** The state of Signal.v with the newest value of each event. *)
Definition as_group (g : weak_group) : group := Group (levels (hist g)) (w_mtx g) (w_threads g).

(** The store a step makes, if any: that of [signal], or that of a compare-exchange that
    succeeds. *)
Definition stored (pc pc' : tpc) : option (nat * Z) :=
  match pc, pc' with
  | SStore i, _ => Some (i, 1)
  | WCas _ _ i, WDone (Some _) => Some (i, 0)
  | _, _ => None
  end.

(** What a step stores, and what the thread has seen then. *)
Definition store (h : list (list Z)) (w : option (nat * Z)) : list (list Z) :=
  match w with Some (i, x) => alter (fun l => l ++ [x]) i h | None => h end.
Definition see_store (h : list (list Z)) (w : option (nat * Z)) (v : view) : view :=
  match w with Some (i, x) => see v i (length (default [] (h !! i))) | None => v end.

(** One step of thread [t]: the new lists of values, the owner of the mutex, the position and
    the view.  [k] is the value that the relaxed load reads. *)
Definition weak_thread_step (k : nat) (h : list (list Z)) (mx : option nat) (t : nat) (v : view)
    (pc : tpc) : option (list (list Z) * option nat * tpc * view) :=
  match pc with
  | WLoad _ _ i =>
      x ← h !! i ≫= (.!! k);
      if (v i <=? k)%nat then
        '(_, mx', pc') ← thread_step (<[i := x]> (levels h)) mx t pc;
        Some (h, mx', pc', see v i k)
      else None
  | _ =>
      '(_, mx', pc') ← thread_step (levels h) mx t pc;
      Some (store h (stored pc pc'), mx', pc', see_store h (stored pc pc') v)
  end.

(** Taking the mutex, and letting it go. *)
Definition on_lock (mx mx' : option nat) (t : nat) (m v : view) : view :=
  if decide (mx = None /\ mx' = Some t) then join m v else v.
Definition on_unlock (mx mx' : option nat) (t : nat) (m v : view) : view :=
  if decide (mx = Some t /\ mx' = None) then join m v else m.

Inductive wstep : weak_group -> weak_group -> Prop :=
  | w_call_wait g o pc :
      enter_wait (length (hist g)) o = Ok pc ->
      wstep g (WeakGroup (hist g) (w_mtx g) (w_threads g ++ [pc])
                 (views g ++ [fun _ => 0%nat]) (mview g))
  | w_call_signal g i pc :
      enter_signal (length (hist g)) i = Ok pc ->
      wstep g (WeakGroup (hist g) (w_mtx g) (w_threads g ++ [pc])
                 (views g ++ [fun _ => 0%nat]) (mview g))
  | w_run g t k pc v h' mx' pc' v' :
      w_threads g !! t = Some pc -> views g !! t = Some v ->
      weak_thread_step k (hist g) (w_mtx g) t v pc = Some (h', mx', pc', v') ->
      wstep g (WeakGroup h' mx'
                 (if is_notify pc then wake <$> <[t := pc']> (w_threads g)
                  else <[t := pc']> (w_threads g))
                 (<[t := on_lock (w_mtx g) mx' t (mview g) v']> (views g))
                 (on_unlock (w_mtx g) mx' t (mview g) v'))
  | w_spurious g t o :
      w_threads g !! t = Some (WAsleep o) ->
      wstep g (WeakGroup (hist g) (w_mtx g) (<[t := WRelock o false]> (w_threads g))
                 (views g) (mview g))
  | w_timeout g t o ms :
      w_threads g !! t = Some (WAsleep o) -> timeout o = Some ms ->
      wstep g (WeakGroup (hist g) (w_mtx g) (<[t := WRelock o true]> (w_threads g))
                 (views g) (mview g)).

Definition new_weak_group (n : nat) : weak_group :=
  WeakGroup (replicate n [0]) None [] [] (fun _ => 0%nat).

(** ** Lists of values and views *)

Lemma levels_alter h i x : levels (alter (fun l => l ++ [x]) i h) = <[i := x]> (levels h).
Proof.
  unfold levels. apply list_eq. intros j. rewrite list_lookup_fmap.
  destruct (decide (i = j)) as [->|Hne].
  - rewrite list_lookup_alter, decide_True by done. destruct (h !! j) as [l|] eqn:Ej; simpl.
    + rewrite list_lookup_insert_eq by (rewrite length_fmap; by eapply lookup_lt_Some).
      unfold newest. by rewrite last_snoc.
    + symmetry. apply lookup_ge_None_2. rewrite length_insert, length_fmap. by apply lookup_ge_None_1.
  - by rewrite list_lookup_alter_ne, list_lookup_insert_ne, list_lookup_fmap.
Qed.

Lemma newest_last (l : list Z) : l <> [] -> l !! (length l - 1)%nat = Some (newest l).
Proof.
  intros Hl. unfold newest. rewrite last_lookup. replace (length l - 1)%nat with (pred (length l)) by lia.
  destruct (lookup_lt_is_Some_2 l (pred (length l))) as [x ->]; [|done].
  destruct l; simpl in *; [done|lia].
Qed.

Lemma on_lock_ge mx mx' t m v i : (v i <= on_lock mx mx' t m v i)%nat.
Proof. unfold on_lock, join. case_decide; lia. Qed.

Lemma on_unlock_ge mx mx' t m v i : (m i <= on_unlock mx mx' t m v i)%nat.
Proof. unfold on_unlock, join. case_decide; lia. Qed.

(** Each view stays within the lists when its parts do. *)
Lemma on_lock_lt mx mx' t m v i n : (m i < n)%nat -> (v i < n)%nat -> (on_lock mx mx' t m v i < n)%nat.
Proof. unfold on_lock, join. case_decide; lia. Qed.

Lemma on_unlock_lt mx mx' t m v i n : (m i < n)%nat -> (v i < n)%nat -> (on_unlock mx mx' t m v i < n)%nat.
Proof. unfold on_unlock, join. case_decide; lia. Qed.

(** ** Steps of a thread *)

Definition is_load (pc : tpc) : bool := match pc with WLoad _ _ _ => true | _ => false end.

Lemma thread_step_stored ev mx t pc ev' mx' pc' :
  is_load pc = false -> thread_step ev mx t pc = Some (ev', mx', pc') ->
  ev' = match stored pc pc' with Some (i, x) => <[i := x]> ev | None => ev end.
Proof.
  assert (forall n o ph i pc0 r, after_fail n o ph i = (pc0, r) -> forall o' ph' i',
    stored (WCas o' ph' i') pc0 = None) as Haf.
  { unfold after_fail. intros. repeat case_match; simplify_eq; done. }
  destruct pc as [o ph i|o ph i|o|o|o|o b|r|i|i|i|i]; simpl; intros ? Hs; simplify_eq; try done.
  - destruct (ev !! i) as [v|]; [|done]. destruct (v =? 1); [by simplify_eq|].
    destruct (after_fail _ _ _ _) as [pc0 r] eqn:Ef. simplify_eq.
    pose proof (Haf _ _ _ _ _ _ Ef o ph i) as E. simpl in E. by rewrite E.
  - by destruct mx; simplify_eq.
  - by destruct mx; simplify_eq.
  - by destruct mx; simplify_eq.
Qed.

Lemma plain_step k h mx t v pc h' mx' pc' v' :
  is_load pc = false -> weak_thread_step k h mx t v pc = Some (h', mx', pc', v') ->
  thread_step (levels h) mx t pc = Some (levels h', mx', pc') /\
  h' = store h (stored pc pc') /\ v' = see_store h (stored pc pc') v.
Proof.
  intros Hl Hst. assert (weak_thread_step k h mx t v pc =
    ('(_, mx', pc') ← thread_step (levels h) mx t pc;
     Some (store h (stored pc pc'), mx', pc', see_store h (stored pc pc') v))) as Heq.
  { by destruct pc. }
  rewrite Heq in Hst. destruct (thread_step _ _ _ _) as [[[ev' m] q]|] eqn:Es; [|done].
  simplify_eq/=. split; [|done]. rewrite (thread_step_stored _ _ _ _ _ _ _ Hl Es).
  unfold store. destruct (stored pc pc') as [[i x]|]; by rewrite ?levels_alter.
Qed.

(** The mutex stays, is taken by a thread that finds it free, or is let go by its holder. *)
Lemma thread_step_mutex ev mx t pc ev' mx' pc' :
  pc_ok (length ev) pc -> (holds_mtx pc = true <-> mx = Some t) ->
  thread_step ev mx t pc = Some (ev', mx', pc') ->
  mx' = mx \/ (mx = None /\ mx' = Some t) \/ (mx = Some t /\ mx' = None).
Proof.
  intros Hok Hown.
  assert (forall o ph i pc0 (r : bool), pc_ok (length ev) (WLoad o ph i) ->
    (holds_mtx (WLoad o ph i) = true <-> mx = Some t) ->
    after_fail (length ev) o ph i = (pc0, r) ->
    (if r then None else mx) = mx \/ (mx = Some t /\ (if r then None else mx) = None)) as Haf.
  { intros o ph i pc0 r Hok0 Hown0 Hf. destruct (after_fail_spec _ _ _ _ _ _ Hf Hok0) as (_ & _ & Hr & _).
    destruct r; [right|by left]. split; [apply Hown0; by rewrite Hr|done]. }
  destruct pc as [o ph i|o ph i|o|o|o|o b|r|i|i|i|i]; simpl; intros Hs; simplify_eq; try tauto.
  - destruct (ev !! i) as [v|]; [|done]. destruct (v =? 0); [|simplify_eq; tauto].
    destruct (after_fail _ _ _ _) as [pc0 r] eqn:Ef. simplify_eq.
    destruct (Haf _ _ _ _ _ Hok Hown Ef) as [?|?]; tauto.
  - destruct (ev !! i) as [v|]; [|done]. destruct (v =? 1).
    + simplify_eq. destruct ph; [by left|..]; right; right; (split; [by apply Hown|done]).
    + destruct (after_fail _ _ _ _) as [pc0 r] eqn:Ef. simplify_eq.
      destruct (Haf _ _ _ _ _ Hok Hown Ef) as [?|?]; tauto.
  - destruct mx; simplify_eq; tauto.
  - destruct mx; simplify_eq; tauto.
  - destruct mx; simplify_eq; tauto.
Qed.

(** ** The invariant *)

(** A thread that raised event [i] with store number [k], or a later one, and has not notified. *)
Definition announces (g : weak_group) (i k : nat) : Prop :=
  exists t v, views g !! t = Some v /\ (k <= v i)%nat /\
    (w_threads g !! t = Some (SLock i) \/ w_threads g !! t = Some (SNotify i)).

(** The newest values obey the invariant of Signal.v; views are of values that exist; whoever
    holds the mutex knows what it carries; and every raise of an event that the mutex does not
    carry yet is about to be announced. *)
Record weak_inv (g : weak_group) : Prop := WeakInv {
  si_group : group_inv (as_group g);
  si_len : length (views g) = length (w_threads g);
  si_seen : forall i h, hist g !! i = Some h ->
    (mview g i < length h)%nat /\
    forall t v, views g !! t = Some v -> (v i < length h)%nat;
  si_holder : forall t v i, w_mtx g = Some t -> views g !! t = Some v -> (mview g i <= v i)%nat;
  si_told : forall i h k, hist g !! i = Some h -> h !! k = Some 1 ->
    (k <= mview g i)%nat \/ announces g i k }.

Lemma announces_pending g i k : announces g i k -> pending (w_threads g) i.
Proof. intros (t & v & _ & _ & H). by exists t. Qed.

(** A call that holds the mutex and reads an old value of an event sees it low only when it is
    low, or when a notification is still to come. *)
Lemma load_under_mutex g t v i h k :
  weak_inv g -> w_mtx g = Some t -> views g !! t = Some v -> hist g !! i = Some h ->
  (v i <= k)%nat -> h !! k = Some 0 ->
  levels (hist g) !! i = Some 0 \/ pending (w_threads g) i.
Proof.
  intros Hi Hm Hv Hh Hk H0. pose proof (lookup_lt_Some _ _ _ H0) as Hlt.
  assert (h !! (length h - 1)%nat = Some (newest h)) as Hl by (apply newest_last; by destruct h).
  assert (levels (hist g) !! i = Some (newest h)) as Hlev by (unfold levels; by rewrite list_lookup_fmap, Hh).
  destruct (Forall_lookup_1 _ _ _ _ (gi_levels _ (si_group _ Hi)) Hlev) as [E|E]; [left; congruence|].
  destruct (si_told _ Hi i h (length h - 1)%nat Hh ltac:(congruence)) as [Hle|Ha];
    [|right; by eapply announces_pending].
  pose proof (si_holder _ Hi _ _ i Hm Hv).
  replace k with (length h - 1)%nat in H0 by lia. congruence.
Qed.

(** The projection of a step: a load that reads an old value may fail where it could have
    succeeded, or go on to a compare-exchange that will fail. *)
Lemma weak_run_group g t k pc v h' mx' pc' v' :
  weak_inv g -> w_threads g !! t = Some pc -> views g !! t = Some v ->
  weak_thread_step k (hist g) (w_mtx g) t v pc = Some (h', mx', pc', v') ->
  group_inv (Group (levels h') mx'
    (if is_notify pc then wake <$> <[t := pc']> (w_threads g) else <[t := pc']> (w_threads g))).
Proof.
  intros Hi Ht Hv Hst. pose proof (si_group _ Hi) as Hg. destruct (is_load pc) eqn:El.
  - destruct pc as [o ph i| | | | | | | | | |]; try done. unfold weak_thread_step in Hst.
    destruct (hist g !! i) as [h|] eqn:Eh; [|done]. simpl in Hst.
    destruct (h !! k) as [x|] eqn:Ex; [|done]. simpl in Hst.
    destruct (Nat.leb_spec (v i) k) as [Hk|]; [|done].
    assert (i < length (levels (hist g)))%nat as Hil
      by (unfold levels; rewrite length_fmap; by eapply lookup_lt_Some).
    rewrite list_lookup_insert_eq, length_insert in Hst by done.
    pose proof (proj1 (gi_mutex _ Hg) _ _ Ht) as Hown. simpl in Hown.
    destruct (Z.eqb_spec x 0) as [->|].
    + destruct (after_fail _ _ _ _) as [pc0 r] eqn:Ef. simplify_eq/=.
      refine (group_inv_fail _ _ _ _ _ _ _ _ Hg Ht (or_introl eq_refl) _ Ef).
      intros ->. by apply (load_under_mutex g t v i h k); auto; apply Hown.
    + simplify_eq/=. refine (group_inv_move _ _ _ _ _ _ Hg Ht _ _ _ _ _ _ _ _ _); try done; auto.
      * apply (gi_levels _ Hg).
      * apply (Forall_lookup_1 _ _ _ _ (gi_pcs _ Hg) Ht).
  - destruct (plain_step _ _ _ _ _ _ _ _ _ _ El Hst) as (Hs & _ & _).
    apply (group_inv_step (as_group g) _ Hg). by apply (g_run (as_group g) t pc).
Qed.

(** What a step does to the lists and to the view of its thread: both only grow, the view stays
    within the lists, and only [signal] stores a one, which its thread has then seen. *)
Lemma weak_step_grows k h mx t v pc h' mx' pc' v' :
  (forall i l, h !! i = Some l -> (v i < length l)%nat) -> pc_ok (length h) pc ->
  weak_thread_step k h mx t v pc = Some (h', mx', pc', v') ->
  (forall i, v i <= v' i)%nat /\
  (forall i l', h' !! i = Some l' -> (v' i < length l')%nat /\
    exists l, h !! i = Some l /\ (length l <= length l')%nat /\
      forall j, l' !! j = Some 1 -> l !! j = Some 1 \/ (pc' = SLock i /\ (j <= v' i)%nat)).
Proof.
  intros Hv Hok Hst. destruct (is_load pc) eqn:El.
  - destruct pc as [o ph i| | | | | | | | | |]; try done. unfold weak_thread_step in Hst.
    destruct (h !! i) as [l|] eqn:Eh; [|done]. simpl in Hst.
    destruct (l !! k) as [x|] eqn:Ex; [|done]. simpl in Hst.
    destruct (Nat.leb_spec (v i) k) as [Hk|]; [|done].
    apply bind_Some in Hst as ([[ev m] q] & _ & Hst). simplify_eq/=. unfold see.
    split; [intros j; destruct (Nat.eqb_spec j i); subst; lia|].
    intros j l' Hj. split; [|exists l'; auto].
    destruct (Nat.eqb_spec j i) as [->|]; [|by apply Hv]. simplify_eq. by eapply lookup_lt_Some.
  - destruct (plain_step _ _ _ _ _ _ _ _ _ _ El Hst) as (Hs & -> & ->).
    destruct (stored pc pc') as [[i x]|] eqn:Est; simpl;
      [|split; [done|]; intros j l' Hj; split; [by apply Hv|eauto 6]].
    assert (i < length h)%nat as Hi by (destruct pc; simpl in *; repeat case_match; simplify_eq; tauto || lia).
    destruct (lookup_lt_is_Some_2 h i Hi) as [l Hl]. rewrite Hl. simpl. unfold see.
    pose proof (Hv _ _ Hl). split; [intros j; destruct (Nat.eqb_spec j i); subst; lia|].
    intros j l' Hj. destruct (Nat.eqb_spec j i) as [->|Hne].
    + rewrite list_lookup_alter, decide_True, Hl in Hj by done. simplify_eq/=.
      rewrite length_app. simpl. split; [lia|]. exists l. split; [done|]. split; [lia|].
      intros j. rewrite lookup_snoc. case_decide; [subst|by left].
      intros [= ->]. right. split; [|lia].
      destruct pc; simpl in *; repeat case_match; simplify_eq; done.
    + rewrite list_lookup_alter_ne in Hj by done. split; [by apply Hv|eauto].
Qed.

Lemma weak_step_mutex k h mx t v pc h' mx' pc' v' :
  pc_ok (length h) pc -> (holds_mtx pc = true <-> mx = Some t) ->
  weak_thread_step k h mx t v pc = Some (h', mx', pc', v') ->
  mx' = mx \/ (mx = None /\ mx' = Some t) \/ (mx = Some t /\ mx' = None).
Proof.
  intros Hok Hown Hst.
  assert (forall ev q, length ev = length h -> thread_step ev mx t pc = Some (q, mx', pc') ->
    mx' = mx \/ (mx = None /\ mx' = Some t) \/ (mx = Some t /\ mx' = None)) as Hgen.
  { intros ev q Hlen. apply thread_step_mutex; by rewrite ?Hlen. }
  destruct (is_load pc) eqn:El.
  - destruct pc as [o ph i| | | | | | | | | |]; try done. unfold weak_thread_step in Hst.
    destruct (h !! i ≫= _) as [x|]; [|done]. simpl in Hst. destruct (v i <=? k)%nat; [|done].
    apply bind_Some in Hst as ([[ev m] q] & Hs & Hst). simplify_eq.
    eapply Hgen; [|exact Hs]. unfold levels. by rewrite length_insert, length_fmap.
  - destruct (plain_step _ _ _ _ _ _ _ _ _ _ El Hst) as (Hs & _ & _).
    eapply Hgen; [|exact Hs]. unfold levels. by rewrite length_fmap.
Qed.

(** What the threads are after a step of [t], as far as announcements go. *)
Definition moved (b : bool) (t : nat) (pc' : tpc) (ts : list tpc) : list tpc :=
  if b then wake <$> <[t := pc']> ts else <[t := pc']> ts.

Lemma moved_other b t pc' ts s q :
  s <> t -> ts !! s = Some q -> wake q = q -> moved b t pc' ts !! s = Some q.
Proof.
  intros Hne Hs Hq. unfold moved.
  destruct b; rewrite ?list_lookup_fmap, list_lookup_insert_ne, Hs by done; simpl; by rewrite ?Hq.
Qed.

Lemma moved_self b t pc' ts :
  (t < length ts)%nat -> wake pc' = pc' -> moved b t pc' ts !! t = Some pc'.
Proof.
  intros Hlt Hq. unfold moved.
  destruct b; rewrite ?list_lookup_fmap, list_lookup_insert_eq by done; simpl; by rewrite ?Hq.
Qed.

Lemma length_moved b t pc' ts : length (moved b t pc' ts) = length ts.
Proof. unfold moved. destruct b; by rewrite ?length_fmap, length_insert. Qed.

(** Where an announcing thread goes next: to its notification, or past it. *)
Lemma announcer_moves ev mx t pc i ev' mx' pc' :
  (holds_mtx pc = true <-> mx = Some t) -> pc = SLock i \/ pc = SNotify i ->
  thread_step ev mx t pc = Some (ev', mx', pc') ->
  pc' = SNotify i \/ (mx = Some t /\ mx' = None).
Proof.
  intros Hown [->| ->]; simpl; intros Hs.
  - destruct mx; simplify_eq. by left.
  - simplify_eq. right. split; [by apply Hown|done].
Qed.

(** The state after thread [t] took a step from [pc]. *)
Definition after (g : weak_group) (t : nat) (pc : tpc) (h' : list (list Z)) (mx' : option nat)
    (pc' : tpc) (v' : view) : weak_group :=
  WeakGroup h' mx' (moved (is_notify pc) t pc' (w_threads g))
    (<[t := on_lock (w_mtx g) mx' t (mview g) v']> (views g))
    (on_unlock (w_mtx g) mx' t (mview g) v').

(** The mutex hands on what it carries. *)
Lemma holder_after g t pc k v h' mx' pc' v' s w i :
  weak_inv g -> w_threads g !! t = Some pc -> views g !! t = Some v -> pc_ok (length (hist g)) pc ->
  weak_thread_step k (hist g) (w_mtx g) t v pc = Some (h', mx', pc', v') ->
  (v i <= v' i)%nat -> let g' := after g t pc h' mx' pc' v' in
  w_mtx g' = Some s -> views g' !! s = Some w -> (mview g' i <= w i)%nat.
Proof.
  intros [Hg Hl Hseen Hhold Htold] Ht Hv Hok Hst Hge. simpl. intros Hm Hs.
  pose proof (weak_step_mutex _ _ _ _ _ _ _ _ _ _ Hok (proj1 (gi_mutex _ Hg) _ _ Ht) Hst) as Hmx.
  simpl in Hmx. unfold on_unlock. rewrite decide_False by (intros [_ ?]; congruence).
  apply insert_cases in Hs as [[-> ->]|[Hne Hs]].
  - unfold on_lock, join. case_decide; [lia|].
    assert (w_mtx g = Some t) as Hmt by (destruct Hmx as [?|[?|?]]; intuition congruence).
    pose proof (Hhold _ _ i Hmt Hv). lia.
  - apply (Hhold s); [|done]. destruct Hmx as [?|[?|?]]; intuition congruence.
Qed.

(** No raise is forgotten. *)
Lemma told_after g t pc k v h' mx' pc' v' i l j :
  weak_inv g -> w_threads g !! t = Some pc -> views g !! t = Some v ->
  weak_thread_step k (hist g) (w_mtx g) t v pc = Some (h', mx', pc', v') ->
  (v i <= v' i)%nat -> hist g !! i = Some l -> l !! j = Some 1 ->
  let g' := after g t pc h' mx' pc' v' in (j <= mview g' i)%nat \/ announces g' i j.
Proof.
  intros [Hg Hl Hseen Hhold Htold] Ht Hv Hst Hge Hll Hj. simpl.
  pose proof (on_unlock_ge (w_mtx g) mx' t (mview g) v' i).
  pose proof (on_lock_ge (w_mtx g) mx' t (mview g) v' i).
  destruct (Htold i l j Hll Hj) as [?|(s & w & Hw & Hle & Hpc)]; [left; lia|].
  destruct (decide (s = t)) as [->|Hne].
  - assert (w = v) as -> by congruence.
    assert (pc = SLock i \/ pc = SNotify i) as Hpc'
      by (destruct Hpc as [E|E]; [left|right]; congruence).
    destruct (plain_step k (hist g) (w_mtx g) t v pc h' mx' pc' v') as (Hs & _ & _);
      [by destruct Hpc' as [->| ->]|done|].
    destruct (announcer_moves _ _ _ _ _ _ _ _ (proj1 (gi_mutex _ Hg) _ _ Ht) Hpc' Hs)
      as [->|[Hm Hm']]; [right|left].
    + exists t, (on_lock (w_mtx g) mx' t (mview g) v'). simpl.
      rewrite list_lookup_insert_eq, moved_self by (done || by eapply lookup_lt_Some).
      split; [done|]. split; [lia|by right].
    + unfold on_unlock, join. rewrite decide_True by done. lia.
  - right. exists s, w. simpl. rewrite list_lookup_insert_ne by done. split; [done|]. split; [done|].
    destruct Hpc as [Hpc|Hpc]; [left|right]; by apply moved_other.
Qed.

Lemma weak_run_inv g t k pc v h' mx' pc' v' :
  weak_inv g -> w_threads g !! t = Some pc -> views g !! t = Some v ->
  weak_thread_step k (hist g) (w_mtx g) t v pc = Some (h', mx', pc', v') ->
  weak_inv (after g t pc h' mx' pc' v').
Proof.
  intros Hi Ht Hv Hst. pose proof (weak_run_group _ _ _ _ _ _ _ _ _ Hi Ht Hv Hst) as Hg'.
  pose proof Hi as [Hg Hl Hseen _ _].
  assert (pc_ok (length (hist g)) pc) as Hok.
  { pose proof (Forall_lookup_1 _ _ _ _ (gi_pcs _ Hg) Ht) as Hok.
    simpl in Hok. unfold levels in Hok. by rewrite length_fmap in Hok. }
  destruct (weak_step_grows _ _ _ _ _ _ _ _ _ _ (fun i l Hh => proj2 (Hseen i l Hh) _ _ Hv) Hok Hst)
    as [Hge Hgrow].
  pose proof (lookup_lt_Some _ _ _ Hv) as Htv. pose proof (lookup_lt_Some _ _ _ Ht) as Htt.
  split; [done|by simpl; rewrite length_moved, length_insert|..].
  - intros i l' Hl'. destruct (Hgrow _ _ Hl') as (Hlt & l & Hll & Hle & _).
    destruct (Hseen _ _ Hll) as [Hm Hvs]. simpl. split; [apply on_unlock_lt; lia|].
    intros s w Hs. apply insert_cases in Hs as [[-> ->]|[_ Hs]]; [apply on_lock_lt; lia|].
    specialize (Hvs _ _ Hs). lia.
  - intros s w i. by eapply holder_after.
  - intros i l' j Hl' Hj. destruct (Hgrow _ _ Hl') as (_ & l & Hll & _ & Hone).
    destruct (Hone j Hj) as [Hold|[-> Hle]]; [by eapply told_after|right].
    exists t, (on_lock (w_mtx g) mx' t (mview g) v'). simpl.
    rewrite list_lookup_insert_eq, moved_self by done. split; [done|].
    split; [|by left]. pose proof (on_lock_ge (w_mtx g) mx' t (mview g) v' i). lia.
Qed.

(** A call that enters knows nothing of the events but that they were constructed. *)
Lemma weak_spawn_inv g pc :
  weak_inv g -> pc_ok (length (hist g)) pc -> holds_mtx pc = false ->
  (forall j, ~ scanned (length (hist g)) pc j) ->
  weak_inv (WeakGroup (hist g) (w_mtx g) (w_threads g ++ [pc]) (views g ++ [fun _ => 0%nat]) (mview g)).
Proof.
  intros [Hg Hl Hseen Hhold Htold] Hok Hh Hsc.
  assert (length (levels (hist g)) = length (hist g)) as Hlen by apply length_fmap.
  split; simpl.
  - apply (group_inv_spawn (as_group g)); simpl; rewrite ?Hlen; done.
  - rewrite !length_app. simpl. lia.
  - intros i h Hi. destruct (Hseen i h Hi) as [Hm Hv]. split; [done|].
    intros t v [[_ Ht]|[_ Ht]]%lookup_snoc_Some; [by eapply Hv|subst v; simpl; lia].
  - intros t v i Hm [[_ Ht]|[Ht <-]]%lookup_snoc_Some; [by eapply Hhold|].
    pose proof (proj2 (gi_mutex _ Hg) t Hm). simpl in *. lia.
  - intros i h k Hi Hk. destruct (Htold i h k Hi Hk) as [?|(t & v & Hv & Hle & Hpc)]; [by left|right].
    exists t, v. simpl. rewrite (lookup_app_l_Some _ _ _ _ Hv). split; [done|]. split; [done|].
    destruct Hpc as [Hpc|Hpc]; [left|right]; by apply lookup_app_l_Some.
Qed.

Lemma weak_awake_inv g t o b :
  weak_inv g -> w_threads g !! t = Some (WAsleep o) ->
  weak_inv (WeakGroup (hist g) (w_mtx g) (<[t := WRelock o b]> (w_threads g)) (views g) (mview g)).
Proof.
  intros [Hg Hl Hseen Hhold Htold] Ht. split; simpl; try done.
  - exact (group_inv_awake (as_group g) t o b Hg Ht).
  - by rewrite length_insert.
  - intros i h k Hi Hk. destruct (Htold i h k Hi Hk) as [?|(s & v & Hv & Hle & Hpc)]; [by left|right].
    exists s, v. simpl. split; [done|]. split; [done|].
    rewrite list_lookup_insert_ne; [done|]. intros <-. destruct Hpc; congruence.
Qed.

Lemma weak_inv_step g g' : weak_inv g -> wstep g g' -> weak_inv g'.
Proof.
  intros Hi Hs. assert (0 < length (hist g))%nat as Hn.
  { pose proof (gi_size _ (si_group _ Hi)) as Hn. simpl in Hn. unfold levels in Hn.
    by rewrite length_fmap in Hn. }
  destruct Hs as [g o pc He|g i pc He|g t k pc v h' mx' pc' v' Ht Hv Hst|g t o Ht|g t o ms Ht Hto].
  - destruct (enter_wait_ok _ _ _ Hn He) as (? & ? & ?). by apply weak_spawn_inv.
  - unfold enter_signal in He. destruct (Nat.leb_spec (length (hist g)) i); simplify_eq.
    apply weak_spawn_inv; simpl; auto.
  - by apply (weak_run_inv g t k pc v).
  - by apply weak_awake_inv.
  - by apply weak_awake_inv.
Qed.

Lemma weak_inv_new n : (0 < n)%nat -> weak_inv (new_weak_group n).
Proof.
  intros Hn. split; simpl; try done.
  - replace (as_group (new_weak_group n)) with (new_group n); [by apply group_inv_new|].
    unfold as_group, new_group. simpl. f_equal. unfold levels. by rewrite fmap_replicate.
  - intros i h [-> _]%lookup_replicate. split; [simpl; lia|done].
  - intros i h k [-> _]%lookup_replicate. by destruct k as [|[|k]].
Qed.

Lemma weak_reachable n g : (0 < n)%nat -> star wstep (new_weak_group n) g -> weak_inv g.
Proof.
  intros Hn Hr. refine (star_invariant _ weak_inv _ _ weak_inv_step Hr _). by apply weak_inv_new.
Qed.

(** Reading the newest value is one of the possibilities, so whatever Signal.v can do is done here
    as well. *)
Lemma newest_step g t pc v ev' mx' pc' :
  weak_inv g -> w_threads g !! t = Some pc -> views g !! t = Some v ->
  thread_step (levels (hist g)) (w_mtx g) t pc = Some (ev', mx', pc') ->
  exists k h' v', weak_thread_step k (hist g) (w_mtx g) t v pc = Some (h', mx', pc', v') /\
    levels h' = ev'.
Proof.
  intros [Hg _ Hseen _ _] Ht Hv Hs. destruct (is_load pc) eqn:El.
  - destruct pc as [o ph i| | | | | | | | | |]; try done.
    pose proof Hs as Hs0. simpl in Hs0. unfold levels in Hs0 at 1. rewrite list_lookup_fmap in Hs0.
    destruct (hist g !! i) as [h|] eqn:Eh; [simpl in Hs0|done].
    destruct (Hseen _ _ Eh) as [Hm Hvs]. specialize (Hvs _ _ Hv).
    exists (length h - 1)%nat, (hist g), (see v i (length h - 1)). unfold weak_thread_step.
    assert (hist g !! i ≫= (.!! (length h - 1)%nat) = Some (newest h)) as ->
      by (rewrite Eh; apply newest_last; by destruct h; simpl in *; [lia|]).
    cbn [mbind option_bind]. rewrite (proj2 (Nat.leb_le _ _)) by lia.
    rewrite list_insert_id by (unfold levels; by rewrite list_lookup_fmap, Eh).
    rewrite Hs. simpl. split; [done|]. revert Hs0. repeat case_match; intros; simplify_eq; done.
  - exists 0%nat, (store (hist g) (stored pc pc')), (see_store (hist g) (stored pc pc') v).
    assert (weak_thread_step 0 (hist g) (w_mtx g) t v pc =
      Some (store (hist g) (stored pc pc'), mx', pc', see_store (hist g) (stored pc pc') v)) as Hw
      by (destruct pc; try done; unfold weak_thread_step; by rewrite Hs).
    split; [done|]. destruct (plain_step _ _ _ _ _ _ _ _ _ _ El Hw) as (Hs' & _ & _). congruence.
Qed.

(** No thread can take a step of its own, whatever it reads. *)
Definition weak_stuck (g : weak_group) : Prop :=
  forall t pc v k, w_threads g !! t = Some pc -> views g !! t = Some v ->
    weak_thread_step k (hist g) (w_mtx g) t v pc = None.

Lemma weak_stuck_stuck g : weak_inv g -> weak_stuck g -> stuck (as_group g).
Proof.
  intros Hi Hst t pc Ht. simpl in *.
  destruct (lookup_lt_is_Some_2 (views g) t) as [v Hv].
  { rewrite (si_len _ Hi). by eapply lookup_lt_Some. }
  destruct (thread_step _ _ _ _) as [[[ev' mx'] pc']|] eqn:Hs; [exfalso|done].
  destruct (newest_step g t pc v _ _ _ Hi Ht Hv Hs) as (k & h' & v' & Hw & _).
  by rewrite (Hst t pc v k Ht Hv) in Hw.
Qed.

Lemma weak_balance_step j g g' : balance j (as_group g) -> wstep g g' -> balance j (as_group g').
Proof.
  intros Hb Hs. assert (length (levels (hist g)) = length (hist g)) as Hlen by apply length_fmap.
  destruct Hs as [g o pc He|g i pc He|g t k pc v h' mx' pc' v' Ht Hv Hst|g t o Ht|g t o ms Ht Hto].
  - apply (balance_step j _ _ Hb), (g_call_wait (as_group g) o). simpl. by rewrite Hlen.
  - apply (balance_step j _ _ Hb), (g_call_signal (as_group g) i). simpl. by rewrite Hlen.
  - destruct (is_load pc) eqn:El.
    + destruct pc as [o ph i| | | | | | | | | |]; try done. unfold weak_thread_step in Hst.
      destruct (hist g !! i ≫= _) as [x|]; [|done]. simpl in Hst. destruct (v i <=? k)%nat; [|done].
      apply bind_Some in Hst as ([[ev m] q] & Hs & Hst). simplify_eq.
      set (g0 := Group (<[i := x]> (levels (hist g))) (w_mtx g) []).
      pose proof (thread_step_balance j g0 t (WLoad o ph i) ev mx' pc' Hs) as Hd. simpl in Hs, Hd.
      assert (ev = <[i := x]> (levels (hist g))) as ->
        by (revert Hs; repeat case_match; intros; by simplify_eq).
      pose proof (count_insert (consumed j) _ _ _ pc' Ht).
      pose proof (count_insert (raised j) _ _ _ pc' Ht). unfold balance in *. simpl in *. lia.
    + destruct (plain_step _ _ _ _ _ _ _ _ _ _ El Hst) as (Hs & _ & _).
      apply (balance_step j _ _ Hb). by apply (g_run (as_group g) t pc).
  - by apply (balance_step j _ _ Hb), (g_spurious (as_group g) t o).
  - by apply (balance_step j _ _ Hb), (g_timeout (as_group g) t o ms).
Qed.

(** ** Properties *)

(** C14. No signal is lost, although [tryConsume] reads with a relaxed load: whenever a thread is
    blocked in [wait] or [waitOne] and an event it waits for is up, whatever old values the
    thread has read, the one that raised it has not yet reached its [notify_all]. *)
Theorem weak_signal_not_lost n g t o j :
  (0 < n)%nat -> star wstep (new_weak_group n) g ->
  w_threads g !! t = Some (WAsleep o) -> waits_for (length (hist g)) o j ->
  levels (hist g) !! j = Some 1 -> pending (w_threads g) j.
Proof.
  intros Hn Hr Ht Hj H1. pose proof (weak_reachable _ _ Hn Hr) as Hi.
  assert (scanned (length (levels (hist g))) (WAsleep o) j) as Hsc
    by (unfold levels; rewrite length_fmap; by destruct o as [[]]).
  destruct (gi_wake _ (si_group _ Hi) t _ j Ht Hsc) as [H0|?]; [simpl in H0; congruence|done].
Qed.

(** C15. The group never deadlocks under weak memory either: when no thread can move, whatever it
    reads, the mutex is free, every call has returned or is blocked on the condition
    variable, and every event a blocked call waits for is low. *)
Theorem weak_group_never_deadlocks n g :
  (0 < n)%nat -> star wstep (new_weak_group n) g -> weak_stuck g ->
  w_mtx g = None /\
  forall t pc, w_threads g !! t = Some pc ->
    match pc with
    | WDone _ | SDone _ => True
    | WAsleep o => forall j, waits_for (length (hist g)) o j -> levels (hist g) !! j = Some 0
    | _ => False
    end.
Proof.
  intros Hn Hr Hst. pose proof (weak_reachable _ _ Hn Hr) as Hi.
  destruct (stuck_means _ (si_group _ Hi) (weak_stuck_stuck _ Hi Hst)) as [Hm Hall].
  split; [done|]. intros t pc Ht. specialize (Hall t pc Ht). simpl in Hall.
  unfold levels in *. by rewrite length_fmap in Hall.
Qed.

(** C16. Every raise of an event is consumed at most once, although the test that precedes the
    compare-exchange may read an old value. *)
Theorem weak_signal_consumed_at_most_once n g j :
  star wstep (new_weak_group n) g ->
  (count (consumed j) (w_threads g) + level (levels (hist g)) j <= count (raised j) (w_threads g))%nat.
Proof.
  intros Hr. refine (star_invariant _ (fun g => balance j (as_group g)) _ _ (weak_balance_step j) Hr _).
  unfold balance, level. simpl. unfold levels. rewrite list_lookup_fmap.
  destruct (decide (j < n)%nat).
  - by rewrite lookup_replicate_2.
  - by rewrite lookup_ge_None_2 by (rewrite length_replicate; lia).
Qed.

(** Sequential consistency is one of the behaviours. *)
Theorem sc_signals_are_weak n g :
  (0 < n)%nat -> star gstep (new_group n) g ->
  exists wg, star wstep (new_weak_group n) wg /\ as_group wg = g.
Proof.
  intros Hn Hr.
  enough (forall a b, star gstep a b -> forall wa, weak_inv wa -> as_group wa = a ->
    exists wb, star wstep wa wb /\ as_group wb = b) as Hsim.
  { apply (Hsim _ _ Hr (new_weak_group n)); [by apply weak_inv_new|].
    unfold as_group, new_group. simpl. f_equal. unfold levels. by rewrite fmap_replicate. }
  clear Hr. induction 1 as [a|a b c Hab Hbc IH]; intros wa Hi <-.
  { exists wa. split; [constructor|done]. }
  enough (exists wb, wstep wa wb /\ as_group wb = b) as (wb & Hw & Hb).
  { destruct (IH wb (weak_inv_step _ _ Hi Hw) Hb) as (wc & Hs & Hwc).
    exists wc. split; [by apply star_step with wb|done]. }
  assert (length (levels (hist wa)) = length (hist wa)) as Hlen by apply length_fmap.
  inversion Hab as [g0 o pc He|g0 i pc He|g0 t pc ev' mx' pc' Ht Hst|g0 t o Ht|g0 t o ms Ht Hto];
    subst; simpl in *; rewrite ?Hlen in *.
  - eexists. by split; [by eapply w_call_wait|].
  - eexists. by split; [by eapply w_call_signal|].
  - destruct (lookup_lt_is_Some_2 (views wa) t) as [v Hv].
    { rewrite (si_len _ Hi). by eapply lookup_lt_Some. }
    destruct (newest_step wa t pc v _ _ _ Hi Ht Hv Hst) as (k & h' & v' & Hw & <-).
    eexists. by split; [by eapply w_run|].
  - eexists. by split; [by apply (w_spurious wa t o)|].
  - eexists. by split; [by eapply w_timeout|].
Qed.

(** ** Concrete runs *)

(** A schedule: the calls made and the threads that run, with the value that a load reads. *)
Inductive waction := WCallWait (o : wait_op) | WCallSignal (i : nat) | WRun (t k : nat).

Definition wexec1 (g : weak_group) (a : waction) : option weak_group :=
  let spawn r := match r with
                 | Ok pc => Some (WeakGroup (hist g) (w_mtx g) (w_threads g ++ [pc])
                                    (views g ++ [fun _ => 0%nat]) (mview g))
                 | _ => None
                 end in
  match a with
  | WCallWait o => spawn (enter_wait (length (hist g)) o)
  | WCallSignal i => spawn (enter_signal (length (hist g)) i)
  | WRun t k =>
      pc ← w_threads g !! t;
      v ← views g !! t;
      '(h', mx', pc', v') ← weak_thread_step k (hist g) (w_mtx g) t v pc;
      Some (after g t pc h' mx' pc' v')
  end.

Fixpoint wexec (g : weak_group) (acts : list waction) : option weak_group :=
  match acts with
  | [] => Some g
  | a :: acts' => g' ← wexec1 g a; wexec g' acts'
  end.

Lemma wexec_star g acts g' : wexec g acts = Some g' -> star wstep g g'.
Proof.
  revert g. induction acts as [|a acts IH]; simpl; intros g; [by intros [= <-]; constructor|].
  intros (g1 & E & H)%bind_Some. econstructor; [|by apply IH]. destruct a as [o|i|t k]; simpl in E.
  - destruct (enter_wait _ _) eqn:Ec; simplify_eq. by eapply w_call_wait.
  - destruct (enter_signal _ _) eqn:Ec; simplify_eq. by eapply w_call_signal.
  - apply bind_Some in E as (pc & Ht & E). apply bind_Some in E as (v & Hv & E).
    apply bind_Some in E as ([[[h' mx'] pc'] v'] & Hs & [= <-]). by apply (w_run g t k pc v).
Qed.

(** Event 1 of two is raised; the waiter reads twice the value from before and falls asleep
    on it, with the notification still to come. *)
Definition reads_old : list waction :=
  [WCallSignal 1; WRun 0 0; WCallWait sleeper; WRun 1 0; WRun 1 0; WRun 1 0; WRun 1 0].

Lemma weak_signal_not_lost_witness :
  exists g, star wstep (new_weak_group 2) g /\ w_threads g !! 1%nat = Some (WAsleep sleeper) /\
    levels (hist g) !! 1%nat = Some 1 /\ pending (w_threads g) 1.
Proof.
  assert ((fun g => (w_threads g !! 1%nat, levels (hist g) !! 1%nat)) <$>
    wexec (new_weak_group 2) reads_old = Some (Some (WAsleep sleeper), Some 1)) as Hw
    by (vm_compute; reflexivity).
  destruct (wexec (new_weak_group 2) reads_old) as [g|] eqn:E; [|discriminate].
  pose proof (wexec_star _ _ _ E) as Hr. exists g. injection Hw as Ht Hl.
  split; [exact Hr|]. split; [exact Ht|]. split; [exact Hl|].
  apply (weak_signal_not_lost 2 g 1 sleeper 1); [lia|exact Hr|exact Ht|reflexivity|exact Hl].
Defined.

(** The notification wakes it up, and it finds the event: with the mutex, it can no longer read
    the old value.  A third call stays asleep. *)
Definition old_value_gone : list waction :=
  reads_old ++ [WRun 0 0; WRun 0 0; WRun 1 0; WRun 1 1; WRun 1 0; WCallWait (WaitOp None None);
                WRun 2 0; WRun 2 0; WRun 2 0; WRun 2 0; WRun 2 2; WRun 2 0].

Lemma final_state :
  exists g, wexec (new_weak_group 2) old_value_gone = Some g /\
    w_threads g = [SDone 1; WDone (Some 1%nat); WAsleep (WaitOp None None)].
Proof.
  assert (w_threads <$> wexec (new_weak_group 2) old_value_gone =
    Some [SDone 1; WDone (Some 1%nat); WAsleep (WaitOp None None)]) as Hw
    by (vm_compute; reflexivity).
  destruct (wexec (new_weak_group 2) old_value_gone) as [g|]; [|discriminate].
  injection Hw as Hts. by exists g.
Qed.

Lemma weak_group_never_deadlocks_witness :
  exists g, star wstep (new_weak_group 2) g /\ weak_stuck g /\ w_mtx g = None /\
    w_threads g = [SDone 1; WDone (Some 1%nat); WAsleep (WaitOp None None)].
Proof.
  destruct final_state as (g & E & Hts).
  pose proof (wexec_star _ _ _ E) as Hr. exists g.
  assert (weak_stuck g) as Hst.
  { clear E Hr. intros [|[|[|t]]] pc v k Ht _; rewrite Hts in Ht; simpl in Ht; simplify_eq; reflexivity. }
  split; [exact Hr|]. split; [exact Hst|]. split; [|exact Hts].
  apply (weak_group_never_deadlocks 2 g); [lia|exact Hr|exact Hst].
Defined.

Lemma weak_signal_consumed_at_most_once_witness :
  exists g, star wstep (new_weak_group 2) g /\ count (raised 1) (w_threads g) = 1%nat /\
    (count (consumed 1) (w_threads g) + level (levels (hist g)) 1
       <= count (raised 1) (w_threads g))%nat.
Proof.
  destruct final_state as (g & E & Hts).
  pose proof (wexec_star _ _ _ E) as Hr. exists g. split; [exact Hr|].
  split; [rewrite Hts; reflexivity|].
  exact (weak_signal_consumed_at_most_once 2 g 1 Hr).
Defined.

Lemma sc_signals_are_weak_witness :
  exists g wg, gexec (new_group 2) three_calls = Some g /\
    star wstep (new_weak_group 2) wg /\ as_group wg = g.
Proof.
  destruct (gexec (new_group 2) three_calls) as [g|] eqn:E; [|vm_compute in E; discriminate].
  destruct (sc_signals_are_weak 2 g) as (wg & Hw & Hg); [lia|by apply (gexec_star _ three_calls)|].
  exists g, wg. split; [reflexivity|]. split; [exact Hw|exact Hg].
Defined.
