(* ===== verification/SPSCQueue.v ===== *)
(** * The in-process queue (src/concurrency/SPSCQueue.cpp, headers/concurrency/SPSCQueue.h)

    [SPSCQueue] is the ring of [ByteRing] inside one object, with a [Signal] per direction and
    the modulo written out.  The model is sequential: each operation runs to its end with
    nobody else around, so a wait on a low event blocks for good.  The interleavings of two
    threads are in QueueThreads.v, those of the signals in Signal.v.

    The constructor leaves the vector empty, and nothing in the class gives it a size: the first
    byte pushed on a queue the class can make is written outside it ([constructed_push_undefined], and
    QueueThreads.v for what two threads see).  The invariant [wf] and the theorems that need it are
    about the algorithm over a vector of the size of the ring, which a correct constructor would
    give; no queue of the program is in such a state.

    An operation changes the object even when it does not return: it yields an outcome and
    the object it leaves. *)

From S2P Require Import Prelude.

(** ** The object *)

Record queue := Queue {
  capacity : Z;
  head : Z;
  tail : Z;
  buffer : list Z;              (** [std::vector<uint8_t> buffer] *)
  dataPresentEvent : bool;      (** a [Signal]: raised or not *)
  dataFreeEvent : bool }.

(** The constructor: [buffer] is default-constructed, that is, empty. *)
Definition SPSCQueue (capacity_ : Z) : queue := Queue capacity_ 0 0 [] false false.

Definition set_head (q : queue) (h : Z) : queue :=
  Queue (capacity q) h (tail q) (buffer q) (dataPresentEvent q) (dataFreeEvent q).
Definition set_tail (q : queue) (t : Z) : queue :=
  Queue (capacity q) (head q) t (buffer q) (dataPresentEvent q) (dataFreeEvent q).
Definition set_buffer (q : queue) (b : list Z) : queue :=
  Queue (capacity q) (head q) (tail q) b (dataPresentEvent q) (dataFreeEvent q).
Definition set_present (q : queue) (b : bool) : queue :=
  Queue (capacity q) (head q) (tail q) (buffer q) b (dataFreeEvent q).
Definition set_free (q : queue) (b : bool) : queue :=
  Queue (capacity q) (head q) (tail q) (buffer q) (dataPresentEvent q) b.

(** ** Operations *)

Definition size (q : queue) : Z :=
  let h := head q in
  let t := tail q in
  if h >=? t then u64 (h - t) else u64 (capacity q - u64 (t - h)).

Definition freeSpace (q : queue) : Z := u64 (u64 (capacity q - size q) - 1).

(** The loop goes round once for a raised event, which the wait consumes, and then blocks,
    since nothing else changes the indices. *)
Definition waitElemPresent (q : queue) (dataSize : Z) : res unit * queue :=
  if size q <? dataSize then (Block, set_present q false) else (Ok tt, q).

Definition waitFreeSpace (q : queue) (dataSize : Z) : res unit * queue :=
  if freeSpace q <? dataSize then (Block, set_free q false) else (Ok tt, q).

(** The timed one: both [wait(0)] and the wait until the deadline consume a raised event. *)
Definition waitElemPresent_timed (q : queue) (dataSize : Z) : bool * queue :=
  if size q >=? dataSize then (true, q)
  else
    let q1 := set_present q false in
    if size q1 >=? dataSize then (true, q1)
    else (size q1 >=? dataSize, set_present q1 false).

Definition chunkSize (cap dataSize : Z) : Z :=
  if dataSize <? u64 (cap - 1) then dataSize else u64 (cap - 1).

(** [x % capacity]: division by zero is undefined. *)
Definition ring_index (cap x : Z) : res Z :=
  if cap =? 0 then UB "modulo by zero" else Ok (u64 x mod cap).

(** [for (i = 0; i < chunkSize; ++i) buffer[(h + i) % capacity] = ptr[i];] *)
Fixpoint copy_in (cap h i : Z) (chunk : list Z) (buf : list Z) : res (list Z) :=
  match chunk with
  | [] => Ok buf
  | b :: chunk' =>
      k ← ring_index cap (h + i);
      match zset buf k b with
      | None => UB "write outside the vector"
      | Some buf' => copy_in cap h (i + 1) chunk' buf'
      end
  end.

(** [for (i = 0; i < n; ++i) ptr[i] = buffer[(t + i) % capacity];] *)
Fixpoint copy_out (cap t i : Z) (n : nat) (buf : list Z) : res (list Z) :=
  match n with
  | O => Ok []
  | S n' =>
      k ← ring_index cap (t + i);
      match zget buf k with
      | None => UB "read outside the vector"
      | Some b => rest ← copy_out cap t (i + 1) n' buf; Ok (b :: rest)
      end
  end.

Definition with_queue {A B} (q : queue) (r : res A) (f : A -> res B * queue) : res B * queue :=
  match r with
  | Ok a => f a
  | Throw m => (Throw m, q)
  | Block => (Block, q)
  | UB w => (UB w, q)
  | OutOfFuel => (OutOfFuel, q)
  end.

(** [push]: one turn of [while (dataSize)] per unit of fuel. *)
Fixpoint push (fuel : nat) (q : queue) (data : list Z) : res unit * queue :=
  let dataSize := Z.of_nat (length data) in
  if dataSize =? 0 then (Ok tt, q)
  else match fuel with
  | O => (OutOfFuel, q)
  | S fuel' =>
      let chunk := chunkSize (capacity q) dataSize in
      let '(w, q1) := waitFreeSpace q chunk in
      with_queue q1 w (fun _ =>
        let h := head q1 in
        with_queue q1 (copy_in (capacity q1) h 0 (take (Z.to_nat chunk) data) (buffer q1))
          (fun buf =>
            with_queue (set_buffer q1 buf) (ring_index (capacity q1) (h + chunk)) (fun h' =>
              let q2 := set_present (set_head (set_buffer q1 buf) h') true in
              push fuel' q2 (drop (Z.to_nat chunk) data))))
  end.

(** [pop]: [n] bytes still wanted, the bytes read so far in [acc]. *)
Fixpoint pop (fuel : nat) (q : queue) (n : Z) (acc : list Z) : res (list Z) * queue :=
  if n =? 0 then (Ok acc, q)
  else match fuel with
  | O => (OutOfFuel, q)
  | S fuel' =>
      let chunk := chunkSize (capacity q) n in
      let '(w, q1) := waitElemPresent q chunk in
      with_queue q1 w (fun _ =>
        let t := tail q1 in
        with_queue q1 (copy_out (capacity q1) t 0 (Z.to_nat chunk) (buffer q1)) (fun bytes =>
          with_queue q1 (ring_index (capacity q1) (t + chunk)) (fun t' =>
            pop fuel' (set_free (set_tail q1 t') true) (n - chunk) (acc ++ bytes))))
  end.

(** [pop] with a timeout: [None] when it returns false. *)
Definition pop_timed (q : queue) (dataSize : Z) : res (option (list Z)) * queue :=
  if dataSize >? u64 (capacity q - 1) then (Ok None, q)
  else
    let '(ok, q1) := waitElemPresent_timed q dataSize in
    if negb ok then (Ok None, q1)
    else
      let t := tail q1 in
      with_queue q1 (copy_out (capacity q1) t 0 (Z.to_nat dataSize) (buffer q1)) (fun bytes =>
        with_queue q1 (ring_index (capacity q1) (t + dataSize)) (fun t' =>
          (Ok (Some bytes), set_free (set_tail q1 t') true))).

(** The [IDataExchanger] face of the queue. *)
Definition send (fuel : nat) (q : queue) (data : list Z) : res Z * queue :=
  let '(r, q') := push fuel q data in (_ ← r; Ok (Z.of_nat (length data)), q').
Definition receive (fuel : nat) (q : queue) (n : Z) : res (list Z * Z) * queue :=
  let '(r, q') := pop fuel q n [] in (bytes ← r; Ok (bytes, n), q').

(** ** Specification *)

(** A queue as its users mean it: at least one byte fits and the vector has the size of the
    ring (the constructor does not arrange this; see [constructed_push_undefined]). *)
Record wf (q : queue) : Prop := WF {
  wf_cap : 2 <= capacity q <= 2 ^ 63;
  wf_head : 0 <= head q < capacity q;
  wf_tail : 0 <= tail q < capacity q;
  wf_buf : Z.of_nat (length (buffer q)) = capacity q }.

Definition used (q : queue) : Z := (head q - tail q) mod capacity q.

(** [n] bytes of the ring from [start] on. *)
Definition ring_slice (cap : Z) (buf : list Z) (start : Z) (n : nat) : list Z :=
  (fun k => default 0 (zget buf ((start + Z.of_nat k) mod cap))) <$> seq 0 n.

(** What is in the queue, oldest first. *)
Definition contents (q : queue) : list Z :=
  ring_slice (capacity q) (buffer q) (tail q) (Z.to_nat (used q)).

(** ** Lemmas *)

Lemma used_bounds q : wf q -> 0 <= used q < capacity q.
Proof. intros []. unfold used. apply Z.mod_pos_bound. lia. Qed.

Lemma size_used q : wf q -> size q = used q.
Proof.
  intros [Hc Hh Ht Hb]. unfold size, used. case_bool.
  - rewrite wrap_u64_small by lia. by rewrite Z.mod_small by lia.
  - rewrite !wrap_u64_small by (rewrite ?wrap_u64_small; lia).
    apply Z.mod_unique_pos with (-1); lia.
Qed.

Lemma freeSpace_used q : wf q -> freeSpace q = capacity q - 1 - used q.
Proof.
  intros Hq. pose proof (used_bounds q Hq). unfold freeSpace. rewrite size_used by done.
  destruct Hq. rewrite !wrap_u64_small by (rewrite ?wrap_u64_small; lia). lia.
Qed.

Lemma chunk_fits q n : wf q -> 0 <= n <= capacity q - 1 -> chunkSize (capacity q) n = n.
Proof.
  intros [] Hn. unfold chunkSize. rewrite wrap_u64_small by lia. case_bool; lia.
Qed.

Lemma length_slice cap buf s n : length (ring_slice cap buf s n) = n.
Proof. unfold ring_slice. by rewrite length_fmap, length_seq. Qed.

Lemma length_contents q : wf q -> Z.of_nat (length (contents q)) = used q.
Proof. intros Hq. unfold contents. rewrite length_slice. pose proof (used_bounds q Hq). lia. Qed.

Lemma slice_S cap buf s n :
  ring_slice cap buf s (S n) =
  default 0 (zget buf (s mod cap)) :: ring_slice cap buf (s + 1) n.
Proof.
  unfold ring_slice. cbn [seq fmap list_fmap]. rewrite <- seq_shift.
  change (list_fmap nat Z) with (@fmap list _ nat Z). rewrite Z.add_0_r. f_equal.
  rewrite <- list_fmap_compose. apply list_fmap_ext. intros i k _. simpl.
  do 3 f_equal. lia.
Qed.

Lemma slice_app cap buf s n m :
  ring_slice cap buf s (n + m) =
  ring_slice cap buf s n ++ ring_slice cap buf (s + Z.of_nat n) m.
Proof.
  revert s. induction n as [|n IH]; intros s.
  - simpl. by rewrite Z.add_0_r.
  - change (S n + m)%nat with (S (n + m)). rewrite !slice_S, IH. simpl. do 3 f_equal. lia.
Qed.

Lemma slice_mod cap buf s n : 0 < cap -> ring_slice cap buf (s mod cap) n = ring_slice cap buf s n.
Proof.
  intros. unfold ring_slice. apply list_fmap_ext. intros i k _. by rewrite Zplus_mod_idemp_l.
Qed.

(** Distinct offsets of one lap fall on distinct slots. *)
Lemma slot_inj cap h i j :
  0 <= i < cap -> 0 <= j < cap -> (h + i) mod cap = (h + j) mod cap -> i = j.
Proof.
  intros Hi Hj Heq. assert ((i - j) mod cap = 0) as H.
  { replace (i - j) with ((h + i) - (h + j)) by lia.
    rewrite Zminus_mod, Heq, Z.sub_diag. apply Zmod_0_l. }
  apply Z.mod_divide in H as [q Hq]; [|lia].
  destruct (Z.lt_trichotomy q 0) as [|[->|]]; nia.
Qed.

Lemma ring_index_ok cap x :
  2 <= cap -> 0 <= x < 18446744073709551616 -> ring_index cap x = Ok (x mod cap).
Proof. intros. unfold ring_index. case_bool; [lia|]. by rewrite wrap_u64_small. Qed.

Lemma copy_in_spec cap h chunk : forall i buf,
  2 <= cap <= 2 ^ 63 -> 0 <= h < cap -> 0 <= i -> i + Z.of_nat (length chunk) <= cap ->
  Z.of_nat (length buf) = cap ->
  exists buf', copy_in cap h i chunk buf = Ok buf' /\ length buf' = length buf /\
    ring_slice cap buf' (h + i) (length chunk) = chunk /\
    forall j, 0 <= j < i \/ i + Z.of_nat (length chunk) <= j < cap ->
      zget buf' ((h + j) mod cap) = zget buf ((h + j) mod cap).
Proof.
  induction chunk as [|b chunk IH]; intros i buf Hc Hh Hi Hl Hb; [by exists buf|].
  cbn [length copy_in] in *. rewrite ring_index_ok by lia. cbn [mbind res_bind].
  pose proof (Z.mod_pos_bound (h + i) cap ltac:(lia)) as Hslot.
  rewrite zset_is_Some by lia. set (buf1 := <[_ := b]> buf).
  assert (zset buf ((h + i) mod cap) b = Some buf1) as Hset by (apply zset_is_Some; lia).
  destruct (IH (i + 1) buf1) as (buf' & Hr & Hlen & Hsl & Hout); try lia.
  { rewrite (zset_length _ _ _ _ Hset). lia. }
  exists buf'. rewrite (zset_length _ _ _ _ Hset) in Hlen. split_and!; try done.
  - rewrite slice_S, Hout, (zget_zset _ _ _ _ _ Hset) by lia.
    rewrite decide_True by done. simpl. f_equal. rewrite <- Hsl at 2. f_equal. lia.
  - intros j Hj. rewrite Hout, (zget_zset _ _ _ _ _ Hset) by lia.
    apply decide_False. intros Heq. apply slot_inj in Heq; lia.
Qed.

Lemma copy_out_spec cap t buf n : forall i,
  2 <= cap <= 2 ^ 63 -> 0 <= t < cap -> 0 <= i -> i + Z.of_nat n <= cap ->
  Z.of_nat (length buf) = cap ->
  copy_out cap t i n buf = Ok (ring_slice cap buf (t + i) n).
Proof.
  induction n as [|n IH]; intros i Hc Ht Hi Hn Hb; [done|].
  cbn [copy_out]. rewrite ring_index_ok by lia. cbn [mbind res_bind].
  pose proof (Z.mod_pos_bound (t + i) cap ltac:(lia)) as Hslot.
  destruct (zget_is_Some buf ((t + i) mod cap)) as [b Hg]; [lia|].
  rewrite slice_S, Hg, IH by lia. simpl. do 3 f_equal. lia.
Qed.

(** A slice that stays outside the region written by [copy_in]. *)
Lemma slice_unchanged cap buf buf' h s n lo :
  (forall j, lo <= j < cap -> zget buf' ((h + j) mod cap) = zget buf ((h + j) mod cap)) ->
  0 < cap -> lo <= s -> s + Z.of_nat n <= cap ->
  ring_slice cap buf' (h + s) n = ring_slice cap buf (h + s) n.
Proof.
  intros Hout Hc Hs Hn. unfold ring_slice. apply list_fmap_ext. intros i k Hk.
  apply lookup_seq in Hk as [-> Hk]. rewrite <- Z.add_assoc, Hout by lia. done.
Qed.

Lemma used_after_push q n :
  wf q -> 0 <= n -> n + used q < capacity q ->
  ((head q + n) mod capacity q - tail q) mod capacity q = used q + n.
Proof.
  intros Hq Hn Hlt. pose proof (used_bounds q Hq). rewrite Zminus_mod_idemp_l.
  unfold used in *. replace (head q + n - tail q) with ((head q - tail q) + n) by lia.
  rewrite <- Zplus_mod_idemp_l. apply Z.mod_small. lia.
Qed.

Lemma used_after_pop q n :
  wf q -> 0 <= n <= used q ->
  (head q - (tail q + n) mod capacity q) mod capacity q = used q - n.
Proof.
  intros Hq Hn. pose proof (used_bounds q Hq). rewrite Zminus_mod_idemp_r.
  unfold used in *. replace (head q - (tail q + n)) with ((head q - tail q) + - n) by lia.
  rewrite <- Zplus_mod_idemp_l. apply Z.mod_small. lia.
Qed.

Lemma push_nil fuel q : push fuel q [] = (Ok tt, q).
Proof. by destruct fuel. Qed.

Lemma pop_zero fuel q acc : pop fuel q 0 acc = (Ok acc, q).
Proof. by destruct fuel. Qed.

(** ** The operations on a well-formed queue *)

Lemma chunkSize_min q n : wf q -> 0 <= n -> chunkSize (capacity q) n = Z.min n (capacity q - 1).
Proof. intros [] Hn. unfold chunkSize. rewrite wrap_u64_small by lia. case_bool; lia. Qed.

(** A write of [data] at [head]: the slots already in use keep their bytes. *)
Lemma contents_after_write q data buf :
  wf q -> Z.of_nat (length data) + used q < capacity q ->
  ring_slice (capacity q) buf (head q + 0) (length data) = data ->
  (forall j, Z.of_nat (length data) <= j < capacity q ->
    zget buf ((head q + j) mod capacity q) = zget (buffer q) ((head q + j) mod capacity q)) ->
  ring_slice (capacity q) buf (tail q) (Z.to_nat (used q + Z.of_nat (length data))) =
    contents q ++ data.
Proof.
  intros Hq Hfit Hsl Hout. pose proof (used_bounds q Hq) as Hu. pose proof Hq as [Hc Hh Ht _].
  rewrite Z2Nat.inj_add by lia. rewrite Nat2Z.id, slice_app, Z2Nat.id by lia. f_equal.
  - unfold contents. rewrite <- (slice_mod _ buf), <- (slice_mod _ (buffer q)) by lia.
    replace (tail q mod capacity q)
      with ((head q + (capacity q - used q)) mod capacity q).
    + rewrite !slice_mod by lia.
      eapply (slice_unchanged _ _ _ _ _ _ (Z.of_nat (length data))); [|lia..].
      intros j Hj. apply Hout. lia.
    + pose proof (Z.div_mod (head q - tail q) (capacity q) ltac:(lia)) as Hdm.
      fold (used q) in Hdm.
      replace (head q + (capacity q - used q))
        with (tail q + (1 + (head q - tail q) / capacity q) * capacity q) by lia.
      apply Z_mod_plus_full.
  - rewrite <- slice_mod by lia. unfold used. rewrite Zplus_mod_idemp_r.
    replace (tail q + (head q - tail q)) with (head q + 0) by lia.
    rewrite slice_mod by lia. exact Hsl.
Qed.

(** One turn of the loop of [push] whose chunk fits. *)
Lemma push_turn q data fuel :
  wf q -> data <> [] ->
  let c := Z.min (Z.of_nat (length data)) (capacity q - 1) in
  c <= freeSpace q ->
  exists q1, push (S fuel) q data = push fuel q1 (drop (Z.to_nat c) data) /\ wf q1 /\
    contents q1 = contents q ++ take (Z.to_nat c) data /\ dataPresentEvent q1 = true /\
    capacity q1 = capacity q.
Proof.
  intros Hq Hne c Hfit. rewrite freeSpace_used in Hfit by done.
  pose proof (used_bounds q Hq) as Hu. pose proof Hq as [Hc Hh Ht Hb].
  assert (0 < Z.of_nat (length data)) as Hpos by (destruct data; simpl; [done|lia]).
  cbn [push]. rewrite (if_false (Z.of_nat (length data) =? 0)) by lia.
  rewrite chunkSize_min by (done || lia). fold c. unfold waitFreeSpace.
  rewrite freeSpace_used by done. rewrite (if_false (_ <? _)) by lia. cbn [with_queue].
  set (chunk := take (Z.to_nat c) data).
  assert (Z.of_nat (length chunk) = c) as Hlc by (unfold chunk; rewrite length_take; lia).
  destruct (copy_in_spec (capacity q) (head q) chunk 0 (buffer q)) as (buf & -> & Hl & Hsl & Hout);
    try lia.
  cbn [with_queue]. rewrite ring_index_ok by lia. cbn [with_queue].
  eexists. split; [reflexivity|].
  pose proof (used_after_push q c Hq ltac:(lia) ltac:(lia)) as Hused.
  split_and!; [|unfold contents|done..].
  - split; simpl; try done; [by apply Z.mod_pos_bound; lia|congruence].
  - unfold used at 1; simpl. rewrite Hused, <- Hlc.
    apply contents_after_write; [done|lia|done|]. intros j Hj. apply Hout. lia.
Qed.

(** Data that fits takes one turn. *)
Lemma push_run q data fuel :
  wf q -> data <> [] -> Z.of_nat (length data) <= freeSpace q ->
  exists q', push (S fuel) q data = (Ok tt, q') /\ wf q' /\
    contents q' = contents q ++ data /\ dataPresentEvent q' = true /\ capacity q' = capacity q.
Proof.
  intros Hq Hne Hfit. pose proof (freeSpace_used q Hq). pose proof (used_bounds q Hq).
  destruct (push_turn q data fuel Hq Hne ltac:(lia)) as (q' & Hr & Hw & Hc & He & Hcap).
  exists q'. rewrite Z.min_l, Nat2Z.id in * by lia. rewrite drop_all, push_nil in Hr.
  rewrite take_ge in Hc by lia. done.
Qed.

(** [push] of data that fits: the call returns, the queue stays well formed, its contents
    are extended by exactly the bytes pushed and the consumer is signalled. *)
Theorem push_appends q data fuel :
  wf q -> data <> [] -> Z.of_nat (length data) <= freeSpace q ->
  exists q', push (S fuel) q data = (Ok tt, q') /\ wf q' /\
    contents q' = contents q ++ data /\ dataPresentEvent q' = true.
Proof.
  intros Hq Hne Hfit. destruct (push_run q data fuel Hq Hne Hfit) as (q' & H & Hw & Hc & He & _).
  by exists q'.
Qed.

Lemma contents_split q n :
  0 <= n <= used q ->
  contents q = ring_slice (capacity q) (buffer q) (tail q) (Z.to_nat n) ++
    ring_slice (capacity q) (buffer q) (tail q + n) (Z.to_nat (used q - n)).
Proof.
  intros Hn. unfold contents.
  replace (Z.to_nat (used q)) with (Z.to_nat n + Z.to_nat (used q - n))%nat by lia.
  rewrite slice_app. do 2 f_equal. lia.
Qed.

(** One turn of the loop of [pop] whose chunk is there. *)
Lemma pop_turn q n acc fuel :
  wf q -> 0 < n -> let c := Z.min n (capacity q - 1) in c <= size q ->
  exists q1, pop (S fuel) q n acc =
      pop fuel q1 (n - c) (acc ++ take (Z.to_nat c) (contents q)) /\ wf q1 /\
    contents q1 = drop (Z.to_nat c) (contents q) /\ dataFreeEvent q1 = true /\
    capacity q1 = capacity q.
Proof.
  intros Hq Hn c Hfit. rewrite size_used in Hfit by done.
  pose proof (used_bounds q Hq) as Hu. pose proof Hq as [Hc Hh Ht Hb].
  cbn [pop]. rewrite (if_false (n =? 0)) by lia. rewrite chunkSize_min by (done || lia). fold c.
  unfold waitElemPresent. rewrite size_used by done. rewrite (if_false (_ <? _)) by lia.
  cbn [with_queue].
  rewrite copy_out_spec by lia. cbn [with_queue]. rewrite ring_index_ok by lia. cbn [with_queue].
  rewrite (contents_split q c) by (done || lia).
  rewrite Z.add_0_r, take_app_length', drop_app_length' by (rewrite length_slice; lia).
  eexists. split; [reflexivity|]. split_and!; [|unfold contents|done..].
  - split; simpl; try done. apply Z.mod_pos_bound. lia.
  - unfold used at 1; simpl. rewrite (used_after_pop q c Hq) by lia.
    rewrite slice_mod by lia. done.
Qed.

(** Bytes that are there take one turn. *)
Lemma pop_run q n fuel :
  wf q -> 0 < n <= size q ->
  exists q', pop (S fuel) q n [] = (Ok (take (Z.to_nat n) (contents q)), q') /\ wf q' /\
    contents q' = drop (Z.to_nat n) (contents q) /\ dataFreeEvent q' = true /\
    capacity q' = capacity q.
Proof.
  intros Hq Hn. pose proof (size_used q Hq). pose proof (used_bounds q Hq).
  destruct (pop_turn q n [] fuel Hq ltac:(lia) ltac:(lia)) as (q' & Hr & Hw & Hc & He & Hcap).
  exists q'. rewrite Z.min_l in * by lia. by rewrite Z.sub_diag, pop_zero in Hr.
Qed.

(** [pop] of bytes that are there: the call returns exactly the oldest [n] bytes, in
    order, removes them, and signals the producer. *)
Theorem pop_takes q n fuel :
  wf q -> 0 < n <= size q ->
  exists q', pop (S fuel) q n [] = (Ok (take (Z.to_nat n) (contents q)), q') /\ wf q' /\
    contents q' = drop (Z.to_nat n) (contents q) /\ dataFreeEvent q' = true.
Proof.
  intros Hq Hn. destruct (pop_run q n fuel Hq Hn) as (q' & H & Hw & Hc & He & _). by exists q'.
Qed.

(** The run of the timed [pop], with the capacity. *)
Lemma pop_timed_run q n :
  wf q -> 0 <= n ->
  exists q', wf q' /\
    pop_timed q n = (Ok (if n <=? size q then Some (take (Z.to_nat n) (contents q)) else None), q') /\
    contents q' = (if n <=? size q then drop (Z.to_nat n) (contents q) else contents q) /\
    capacity q' = capacity q.
Proof.
  intros Hq Hn. rewrite size_used by done.
  pose proof (used_bounds q Hq) as Hu. pose proof Hq as [Hc Hh Ht Hb].
  unfold pop_timed. rewrite wrap_u64_small by lia.
  destruct (Z.gtb_spec n (capacity q - 1)) as [Hbig|Hsmall].
  { exists q. case_bool; [lia|done]. }
  unfold waitElemPresent_timed.
  change (size (set_present q false)) with (size q). rewrite size_used by done.
  destruct (Z.leb_spec n (used q)); case_bool; try lia; cbn [negb].
  - rewrite copy_out_spec by lia. cbn [with_queue].
    rewrite ring_index_ok by lia. cbn [with_queue].
    rewrite (contents_split q n) by (done || lia).
    rewrite take_app_length', drop_app_length' by (rewrite length_slice; lia).
    rewrite Z.add_0_r. eexists. split; [|split; [done|]].
    + split; simpl; try done. apply Z.mod_pos_bound. lia.
    + unfold contents, used at 1. simpl. rewrite (used_after_pop q n Hq), slice_mod by lia. done.
  - exists (set_present (set_present q false) false).
    split; [by split|done].
Qed.

(** The timed [pop]: it returns the oldest bytes and removes them exactly when all of them
    are already there, and otherwise returns false with the contents untouched, whatever the
    state of the events. *)
Theorem pop_timed_spec q n :
  wf q -> 0 <= n ->
  exists q', wf q' /\
    pop_timed q n = (Ok (if n <=? size q then Some (take (Z.to_nat n) (contents q)) else None), q') /\
    contents q' = (if n <=? size q then drop (Z.to_nat n) (contents q) else contents q).
Proof.
  intros Hq Hn. destruct (pop_timed_run q n Hq Hn) as (q' & Hw & H & Hc & _). by exists q'.
Qed.

(** A turn of a loop whose chunk does not fit, or is not there, blocks. *)
Lemma push_blocked q data fuel :
  wf q -> data <> [] -> freeSpace q < Z.min (Z.of_nat (length data)) (capacity q - 1) ->
  push (S fuel) q data = (Block, set_free q false).
Proof.
  intros Hq Hne Hn. assert (0 < Z.of_nat (length data)) by (destruct data; simpl; [done|lia]).
  cbn [push]. rewrite (if_false (_ =? 0)) by lia. rewrite chunkSize_min by (done || lia).
  unfold waitFreeSpace. by rewrite (if_true (_ <? _)) by lia.
Qed.

Lemma pop_blocked q n acc fuel :
  wf q -> size q < Z.min n (capacity q - 1) ->
  pop (S fuel) q n acc = (Block, set_present q false).
Proof.
  intros Hq Hn. pose proof (size_used q Hq). pose proof (used_bounds q Hq).
  cbn [pop]. rewrite (if_false (n =? 0)) by lia. rewrite chunkSize_min by (done || lia).
  unfold waitElemPresent. by rewrite (if_true (_ <? _)) by lia.
Qed.

(** [push] of data that does not fit (but could in an empty queue) blocks until the other
    side makes room: the model, with nobody there to do so, blocks with the contents untouched. *)
Theorem push_waits_for_room q data fuel :
  wf q -> freeSpace q < Z.of_nat (length data) <= capacity q - 1 ->
  exists q', push (S fuel) q data = (Block, q') /\ contents q' = contents q.
Proof.
  intros Hq Hn. exists (set_free q false). split; [|done].
  pose proof (used_bounds q Hq). pose proof (freeSpace_used q Hq).
  apply push_blocked; [done| |lia]. intros ->. simpl in Hn. lia.
Qed.

(** As constructed, the queue cannot carry anything: [buffer] is never given the size of
    the ring, so the first byte written by [push] already lies outside the vector. *)
Theorem constructed_push_undefined c data fuel :
  2 <= c < 2 ^ 64 -> data <> [] -> Z.of_nat (length data) < 2 ^ 64 ->
  undefined (push (S fuel) (SPSCQueue c) data).1.
Proof.
  intros Hc Hne Hlen. destruct data as [|b data]; [done|].
  cbn [push]. case_bool; [simpl in *; lia|].
  set (n := Z.of_nat (length (b :: data))) in *.
  assert (1 <= chunkSize c n <= c - 1) as Hchunk.
  { unfold chunkSize. rewrite wrap_u64_small by lia. case_bool; lia. }
  change (capacity (SPSCQueue c)) with c. unfold waitFreeSpace.
  assert (freeSpace (SPSCQueue c) = c - 1) as Hfree.
  { unfold freeSpace, size. simpl. change (0 >=? 0) with true. cbv iota. change (u64 (0 - 0)) with 0.
    rewrite Z.sub_0_r, (wrap_u64_small c), wrap_u64_small by lia. done. }
  rewrite Hfree. case_bool; [lia|]. cbn [with_queue].
  destruct (Z.to_nat (chunkSize c n)) as [|k] eqn:Ek; [lia|].
  cbn [take copy_in]. change (capacity (SPSCQueue c)) with c. change (head (SPSCQueue c)) with 0.
  rewrite ring_index_ok by lia. cbn [mbind res_bind].
  unfold zset. simpl length. rewrite (proj2 (Z.ltb_ge _ _)), andb_false_r.
  - by eexists.
  - pose proof (Z.mod_pos_bound (0 + 0) c). simpl. lia.
Qed.

(** A queue of capacity one never finishes a non-empty [push]: the chunk size is zero, so
    the loop goes round for ever without moving a byte. *)
Theorem capacity_one_push_diverges q data fuel :
  capacity q = 1 -> head q = 0 -> tail q = 0 -> data <> [] ->
  (push fuel q data).1 = OutOfFuel.
Proof.
  intros Hc Hh Ht Hne. assert (0 < Z.of_nat (length data)) by (destruct data; simpl; [done|lia]).
  revert q Hc Hh Ht. induction fuel as [|fuel IH]; intros q Hc Hh Ht; cbn [push];
    (case_bool; [lia|]); [done|].
  rewrite Hc. replace (chunkSize 1 (Z.of_nat (length data))) with 0.
  2: { unfold chunkSize. change (u64 (1 - 1)) with 0. case_bool; lia. }
  unfold waitFreeSpace. replace (freeSpace q) with 0.
  2: { unfold freeSpace, size. by rewrite Hc, Hh, Ht. }
  change (0 <? 0) with false. cbv iota. cbn [with_queue]. rewrite Hc, Hh.
  cbn [copy_in take Z.to_nat with_queue]. change (Z.to_nat 0) with 0%nat. by apply IH.
Qed.

(** ** Concrete queues *)

(** Four slots, two bytes in the queue, the ring about to wrap. *)
Definition example_queue : queue := Queue 4 1 3 [20; 0; 0; 10] false false.

Lemma example_wf : wf example_queue.
Proof. split; simpl; lia. Qed.

Lemma push_appends_witness :
  contents example_queue = [10; 20] /\
  exists q', push 3 example_queue [30] = (Ok tt, q') /\ wf q' /\
    contents q' = [10; 20] ++ [30] /\ dataPresentEvent q' = true.
Proof.
  split; [reflexivity|].
  apply (push_appends example_queue [30] 2); [exact example_wf|done|vm_compute; done].
Defined.

Lemma pop_takes_witness :
  exists q', pop 3 example_queue 2 [] = (Ok [10; 20], q') /\ wf q' /\
    contents q' = [] /\ dataFreeEvent q' = true.
Proof. apply (pop_takes example_queue 2 2); [exact example_wf|vm_compute; done]. Defined.

Lemma pop_timed_spec_witness :
  exists q', wf q' /\ pop_timed example_queue 3 = (Ok None, q') /\ contents q' = [10; 20].
Proof. apply (pop_timed_spec example_queue 3); [exact example_wf|lia]. Defined.

Lemma push_waits_for_room_witness :
  exists q', push 3 example_queue [1; 2] = (Block, q') /\ contents q' = [10; 20].
Proof. apply (push_waits_for_room example_queue [1; 2] 2); [exact example_wf|vm_compute; done]. Defined.

Lemma constructed_push_undefined_witness : undefined (push 1 (SPSCQueue 1024) [1]).1.
Proof. apply (constructed_push_undefined 1024 [1] 0); [lia|done|simpl; lia]. Defined.

Lemma capacity_one_push_diverges_witness : (push 1000 (SPSCQueue 1) [7]).1 = OutOfFuel.
Proof. by apply (capacity_one_push_diverges (SPSCQueue 1) [7] 1000). Defined.
