(* ===== verification/QueueSpec.v ===== *)
(** * The in-process queue implements a bounded first-in-first-out queue

    The abstract specification of [SPSCQueue]: a list of bytes with a capacity, on which each
    operation is one line.  The queue of SPSCQueue.v, with its ring buffer, its indices modulo the
    capacity and its chunks, is related to it by a lock-step simulation over any sequence of
    operations; its type invariant and the order of delivery follow.  As in SPSCQueue.v, this is the
    algorithm over a vector of the size of the ring, which the constructor of the class does not make.
    The ring of the program that does work is [ByteRing], related to such a list in RingSpec.v. *)

From S2P Require Import Prelude SPSCQueue.

(** ** Runs of a machine *)

(** A machine performs an operation on its state; a run performs operations in order, until one
    does not return, and gathers the outcomes. *)
Section Machine.
Context {O A St : Type} (step : St -> O -> res A * St).

Fixpoint run_all (s : St) (ops : list O) : list (res A) * St :=
  match ops with
  | [] => ([], s)
  | o :: ops' =>
      let '(r, s') := step s o in
      match r with
      | Ok a => let '(rs, s'') := run_all s' ops' in (r :: rs, s'')
      | _ => ([r], s')
      end
  end.
End Machine.

(** Two machines whose related states answer alike and stay related have related runs. *)
Lemma run_all_simulates {O A S T} (f : S -> O -> res A * S) (g : T -> O -> res A * T)
    (R : S -> T -> Prop) (valid : O -> Prop) s t ops :
  (forall s t o, R s t -> valid o -> (f s o).1 = (g t o).1 /\ R (f s o).2 (g t o).2) ->
  R s t -> Forall valid ops ->
  (run_all f s ops).1 = (run_all g t ops).1 /\ R (run_all f s ops).2 (run_all g t ops).2.
Proof.
  intros Hsim. revert s t. induction ops as [|o ops IH]; intros s t HR Hv; [done|].
  apply Forall_cons in Hv as [Ho Hv]. destruct (Hsim s t o HR Ho) as [Hr HR'].
  cbn [run_all]. destruct (f s o) as [r s'], (g t o) as [r' t']. simpl in *. subst r'.
  destruct r as [a|e| |w|]; try done. destruct (IH s' t' HR' Hv) as [Hrs HR''].
  destruct (run_all f s' ops), (run_all g t' ops). simpl in *. by subst.
Qed.

(** ** The operations and their specification *)

Inductive op := Push (data : list Z) | Pop (n : Z) | PopTimed (n : Z).

(** A size is not negative. *)
Definition valid (o : op) : Prop := match o with Push _ => True | Pop n | PopTimed n => 0 <= n end.

(** What an operation answers: nothing for [push], the bytes for [pop], the bytes or "timed out"
    for the timed [pop]. *)
Definition answer : Type := option (list Z).

(** The queue.  A [push] or a [pop] on its own takes at most two turns of its loop: the second
    one, if any, blocks. *)
Definition queue_step (fuel : nat) (q : queue) (o : op) : res answer * queue :=
  match o with
  | Push data => let '(r, q') := push fuel q data in (_ ← r; Ok None, q')
  | Pop n => let '(r, q') := pop fuel q n [] in (bytes ← r; Ok (Some bytes), q')
  | PopTimed n => pop_timed q n
  end.

(** The specification, for a queue with room for [room] bytes.  Data goes in whole when it fits;
    data longer than the whole queue fills an empty queue and then waits; anything else waits
    without effect.  Dually for [pop]. *)
Definition fifo_step (room : Z) (l : list Z) (o : op) : res answer * list Z :=
  let len := Z.of_nat (length l) in
  match o with
  | Push data =>
      let size := Z.of_nat (length data) in
      if len + size <=? room then (Ok None, l ++ data)
      else (Block, if (room <? size) && (len =? 0) then take (Z.to_nat room) data else l)
  | Pop n =>
      if n <=? len then (Ok (Some (take (Z.to_nat n) l)), drop (Z.to_nat n) l)
      else (Block, if (room <? n) && (len =? room) then [] else l)
  | PopTimed n =>
      if n <=? len then (Ok (Some (take (Z.to_nat n) l)), drop (Z.to_nat n) l) else (Ok None, l)
  end.

(** ** The simulation *)

(** A queue of capacity [room + 1] that holds [l]. *)
Definition represents (room : Z) (q : queue) (l : list Z) : Prop :=
  wf q /\ contents q = l /\ capacity q = room + 1.

Lemma represents_sizes room q l :
  represents room q l -> size q = Z.of_nat (length l) /\ freeSpace q = room - Z.of_nat (length l) /\
    1 <= room /\ 0 <= Z.of_nat (length l) <= room.
Proof.
  intros (Hq & <- & Hc). pose proof (used_bounds q Hq).
  rewrite length_contents, size_used, freeSpace_used by done. pose proof (wf_cap q Hq). lia.
Qed.

(** The events are not part of what a queue holds. *)
Lemma represents_set_free room q l b : represents room q l -> represents room (set_free q b) l.
Proof. by intros ([] & ? & ?). Qed.
Lemma represents_set_present room q l b : represents room q l -> represents room (set_present q b) l.
Proof. by intros ([] & ? & ?). Qed.
#[local] Hint Resolve represents_set_free represents_set_present : core.

Lemma push_simulates room q l data fuel :
  represents room q l ->
  let '(r, q') := push (S (S fuel)) q data in
  (_ ← r; Ok None) = (fifo_step room l (Push data)).1 /\
  represents room q' (fifo_step room l (Push data)).2.
Proof.
  intros HR. pose proof (represents_sizes _ _ _ HR) as (_ & Hf & Hroom & Hl).
  pose proof HR as (Hq & Hl' & Hc). cbn [fifo_step].
  destruct (decide (data = [])) as [->|Hne].
  { rewrite push_nil. rewrite (if_true (_ <=? _)) by (apply Z.leb_le; simpl; lia). by rewrite app_nil_r. }
  assert (0 < Z.of_nat (length data)) by (destruct data; simpl; [done|lia]).
  destruct (Z.leb_spec (Z.of_nat (length l) + Z.of_nat (length data)) room) as [Hfit|Hbig].
  { destruct (push_run q data (S fuel) Hq Hne ltac:(lia)) as (q' & -> & Hw & Hc' & _ & Hcap).
    split; [done|]. unfold represents. rewrite Hc', Hl', Hcap. done. }
  destruct (Z.leb_spec (Z.min (Z.of_nat (length data)) room) (freeSpace q)) as [Hturn|Hwait].
  - rewrite (if_true (_ && _)) by lia.
    destruct (push_turn q data (S fuel) Hq Hne) as (q1 & -> & Hw & Hc' & _ & Hcap); [lia|].
    rewrite Hl', Hc, Z.add_simpl_r, Z.min_r in * by lia.
    destruct l; [|simpl in *; lia]. cbn [app] in Hc'.
    assert (represents room q1 (take (Z.to_nat room) data)) as HR1 by (repeat split; (apply Hw || congruence)).
    pose proof (represents_sizes _ _ _ HR1) as (_ & Hf1 & _). rewrite length_take in Hf1.
    rewrite push_blocked; [auto|done|apply drop_nonempty; lia|rewrite length_drop; lia].
  - rewrite (if_false (_ && _)) by lia. rewrite push_blocked by (done || lia). auto.
Qed.

Lemma pop_simulates room q l n fuel :
  represents room q l -> 0 <= n ->
  let '(r, q') := pop (S (S fuel)) q n [] in
  (bytes ← r; Ok (Some bytes)) = (fifo_step room l (Pop n)).1 /\
  represents room q' (fifo_step room l (Pop n)).2.
Proof.
  intros HR Hn. pose proof (represents_sizes _ _ _ HR) as (Hs & _ & Hroom & Hl).
  pose proof HR as (Hq & Hl' & Hc). cbn [fifo_step].
  destruct (decide (n = 0)) as [->|Hn0].
  { rewrite pop_zero. by rewrite (if_true (_ <=? _)) by (apply Z.leb_le; lia). }
  destruct (Z.leb_spec n (Z.of_nat (length l))) as [Hfit|Hbig].
  { destruct (pop_run q n (S fuel) Hq ltac:(lia)) as (q' & -> & Hw & Hc' & _ & Hcap).
    unfold represents. rewrite Hc', Hl', Hcap. done. }
  destruct (Z.leb_spec (Z.min n room) (size q)) as [Hturn|Hwait].
  - rewrite (if_true (_ && _)) by lia.
    destruct (pop_turn q n [] (S fuel) Hq) as (q1 & -> & Hw & Hc' & _ & Hcap); [lia..|].
    rewrite Hl', Hc, Z.add_simpl_r, Z.min_r in * by lia. rewrite drop_ge in Hc' by lia.
    assert (represents room q1 []) as HR1 by (repeat split; (apply Hw || congruence)).
    pose proof (represents_sizes _ _ _ HR1) as (Hs1 & _). simpl in Hs1.
    rewrite pop_blocked; [auto|done|lia].
  - rewrite (if_false (_ && _)) by lia. rewrite pop_blocked by (done || lia). auto.
Qed.

Lemma step_simulates room fuel q l o :
  represents room q l -> valid o ->
  (queue_step (S (S fuel)) q o).1 = (fifo_step room l o).1 /\
  represents room (queue_step (S (S fuel)) q o).2 (fifo_step room l o).2.
Proof.
  intros HR Hv. destruct o as [data|n|n]; simpl in Hv; unfold queue_step.
  - pose proof (push_simulates room q l data fuel HR) as H. by destruct (push _ _ _).
  - pose proof (pop_simulates room q l n fuel HR Hv) as H. by destruct (pop _ _ _ _).
  - pose proof (represents_sizes _ _ _ HR) as (Hs & _). pose proof HR as (Hq & Hl & Hc).
    destruct (pop_timed_run q n Hq Hv) as (q' & Hw & -> & Hc' & Hcap). cbn [fifo_step fst snd].
    rewrite Hs, Hl in *. unfold represents. rewrite Hc', Hcap. by case_bool.
Qed.

Lemma run_simulates q ops fuel :
  wf q -> Forall valid ops ->
  (run_all (queue_step (S (S fuel))) q ops).1 =
    (run_all (fifo_step (capacity q - 1)) (contents q) ops).1 /\
  represents (capacity q - 1) (run_all (queue_step (S (S fuel))) q ops).2
    (run_all (fifo_step (capacity q - 1)) (contents q) ops).2.
Proof.
  intros Hq Hv. apply (run_all_simulates _ _ (represents (capacity q - 1)) valid); [|split_and!|done].
  - intros s t o. apply step_simulates.
  - done.
  - done.
  - lia.
Qed.

(** ** What the specification guarantees *)

(** A step of the specification returns or waits. *)
Lemma fifo_outcome room l o : (exists a, (fifo_step room l o).1 = Ok a) \/ (fifo_step room l o).1 = Block.
Proof. destruct o; simpl; case_bool; simpl; eauto. Qed.

Definition returns_or_waits {A} (r : res A) : Prop := returns r \/ r = Block.

Lemma fifo_run_outcomes room l ops : Forall returns_or_waits (run_all (fifo_step room) l ops).1.
Proof.
  revert l. induction ops as [|o ops IH]; intros l; [constructor|]. cbn [run_all].
  destruct (fifo_outcome room l o) as [[a Ha]|Ha], (fifo_step room l o) as [r l']; simpl in Ha; subst r.
  - specialize (IH l'). destruct (run_all _ l' ops). constructor; [left; by exists a|done].
  - apply Forall_singleton. by right.
Qed.

(** The bytes that go in with an operation and come out with its outcome. *)
Definition bytes_in (o : op) : list Z := match o with Push data => data | _ => [] end.
Definition bytes_out (r : res answer) : list Z := match r with Ok (Some bytes) => bytes | _ => [] end.

Lemma fifo_step_order room l o a l' :
  fifo_step room l o = (Ok a, l') -> bytes_out (Ok a) ++ l' = l ++ bytes_in o.
Proof.
  destruct o as [data|n|n]; simpl; case_bool; intros; simplify_eq/=;
    by rewrite ?take_drop, ?app_nil_r.
Qed.

Lemma fifo_run_order room l ops :
  Forall returns (run_all (fifo_step room) l ops).1 ->
  concat (bytes_out <$> (run_all (fifo_step room) l ops).1) ++ (run_all (fifo_step room) l ops).2 =
    l ++ concat (bytes_in <$> ops).
Proof.
  revert l. induction ops as [|o ops IH]; intros l; [by rewrite app_nil_r|]. cbn [run_all].
  destruct (fifo_step room l o) as [r l'] eqn:Hs. destruct r as [a|e| |w|];
    try (intros Hr; apply Forall_cons in Hr as [[? ?] _]; discriminate).
  specialize (IH l'). destruct (run_all _ l' ops) as [rs l'']. intros Hr.
  apply Forall_cons in Hr as [_ Hr]. cbn [fst snd] in *. rewrite !fmap_cons. cbn [concat].
  rewrite <-app_assoc, IH by done. by rewrite !app_assoc, (fifo_step_order _ _ _ _ _ Hs).
Qed.

(** ** Theorems *)

(** [SPSCQueue] implements a bounded first-in-first-out queue: from any well-formed queue, any
    sequence of [push], [pop] and timed [pop], of any sizes, chunks larger than the queue
    included, gives the very outcomes of the specification, waits included, and leaves the
    contents the specification leaves. *)
Theorem queue_refines_fifo q ops fuel :
  wf q -> Forall valid ops ->
  (run_all (queue_step (S (S fuel))) q ops).1 =
    (run_all (fifo_step (capacity q - 1)) (contents q) ops).1 /\
  contents (run_all (queue_step (S (S fuel))) q ops).2 =
    (run_all (fifo_step (capacity q - 1)) (contents q) ops).2.
Proof. intros Hq Hv. by destruct (run_simulates q ops fuel Hq Hv) as (? & _ & ? & _). Qed.

(** The type invariant of the queue: every operation keeps the indices inside the ring, the
    vector of the size of the ring and the capacity, and no operation of a well-formed queue
    reads or writes outside the vector, divides by zero, throws or runs for ever: it returns or
    waits for the other side. *)
Theorem queue_type_preserved q ops fuel :
  wf q -> Forall valid ops ->
  wf (run_all (queue_step (S (S fuel))) q ops).2 /\
  capacity (run_all (queue_step (S (S fuel))) q ops).2 = capacity q /\
  Forall returns_or_waits (run_all (queue_step (S (S fuel))) q ops).1.
Proof.
  intros Hq Hv. destruct (run_simulates q ops fuel Hq Hv) as (Hr & Hw & _ & Hc).
  split_and!; [done|lia|]. rewrite Hr. apply fifo_run_outcomes.
Qed.

(** Bytes leave the queue in the order they entered it, none lost, none made up: when every
    operation of a sequence returns, what was popped followed by what is left is what was there
    followed by what was pushed. *)
Theorem queue_delivers_in_order q ops fuel :
  wf q -> Forall valid ops -> Forall returns (run_all (queue_step (S (S fuel))) q ops).1 ->
  concat (bytes_out <$> (run_all (queue_step (S (S fuel))) q ops).1) ++
    contents (run_all (queue_step (S (S fuel))) q ops).2 =
  contents q ++ concat (bytes_in <$> ops).
Proof.
  intros Hq Hv. destruct (run_simulates q ops fuel Hq Hv) as (-> & _ & -> & _). apply fifo_run_order.
Qed.

(** ** Witnesses *)

(** The ring of four slots of SPSCQueue.v, which holds 10 and 20. *)
Definition some_ops : list op := [Push [30]; Pop 2; PopTimed 5; Push [40; 50]; Pop 3; Push [1; 2; 3; 4; 5]].

Lemma queue_refines_fifo_witness :
  (run_all (queue_step 2) example_queue some_ops).1 =
    [Ok None; Ok (Some [10; 20]); Ok None; Ok None; Ok (Some [30; 40; 50]); Block] /\
  contents (run_all (queue_step 2) example_queue some_ops).2 = [1; 2; 3].
Proof.
  apply (queue_refines_fifo example_queue some_ops 0); [apply example_wf|].
  repeat constructor; simpl; lia.
Defined.

Lemma queue_type_preserved_witness :
  wf (run_all (queue_step 2) example_queue some_ops).2 /\
  capacity (run_all (queue_step 2) example_queue some_ops).2 = 4 /\
  Forall returns_or_waits (run_all (queue_step 2) example_queue some_ops).1.
Proof.
  apply (queue_type_preserved example_queue some_ops 0); [apply example_wf|].
  repeat constructor; simpl; lia.
Defined.

Lemma queue_delivers_in_order_witness :
  [10; 20] ++ [30] = [10; 20] ++ concat (bytes_in <$> [Push [30]; PopTimed 5; Pop 2]).
Proof.
  apply (queue_delivers_in_order example_queue [Push [30]; PopTimed 5; Pop 2] 0);
    [apply example_wf|repeat constructor; simpl; lia|].
  repeat constructor; eexists; vm_compute; reflexivity.
Defined.
