(* ===== verification/QueueThreads.v ===== *)
(** * The in-process queue under every interleaving

    The operations of SPSCQueue.v as threads: one step per load or store of an index, per byte
    copied and per call into a [Signal], over the same [queue] object, which both sides share.  One
    thread pushes, another one pops, with or without a timeout; the steps interleave in any
    order.  A [Signal] is what Signal.v shows it to be: raised by [signal], and lowered by the one
    [wait] that finds it raised.

    As the constructor makes it the queue has an empty vector, and [constructed_queue_carries_nothing]
    says what comes of that.  The other theorems are about the algorithm of the class over a vector of
    the size of the ring, [with_buffer], which is what the constructor leaves out. *)

From S2P Require Import Prelude RingSafety SPSCQueue.

(** ** The producer: [push] and [waitFreeSpace] *)

Inductive ppc :=
  | PIdle                          (** outside [push] *)
  | PLoop                          (** [while (dataSize)] *)
  | PSizeHead (chunk : Z)          (** [freeSpace()]: the load of [head] *)
  | PSizeTail (chunk h : Z)        (** the load of [tail], then the test of [waitFreeSpace] *)
  | PWait (chunk : Z)              (** [dataFreeEvent.wait()] *)
  | PHead (chunk : Z)              (** [h = head.load()] in [push] *)
  | PCopy (chunk h i : Z)          (** the copy, [i] bytes done *)
  | PStore (chunk h : Z)           (** [head.store(...)] *)
  | PSignal (chunk : Z).           (** [dataPresentEvent.signal()], then advance *)

Record producer := Producer { p_pc : ppc; p_data : list Z }.
Definition p_goto (p : producer) (pc : ppc) : producer := Producer pc (p_data p).

Definition producer_step (q : queue) (p : producer) : res (queue * producer) :=
  let dataSize := Z.of_nat (length (p_data p)) in
  match p_pc p with
  | PIdle => Block
  | PLoop =>
      if dataSize =? 0 then Ok (q, p_goto p PIdle)
      else Ok (q, p_goto p (PSizeHead (chunkSize (capacity q) dataSize)))
  | PSizeHead chunk => Ok (q, p_goto p (PSizeTail chunk (head q)))
  | PSizeTail chunk h =>
      if freeSpace (set_head q h) <? chunk then Ok (q, p_goto p (PWait chunk))
      else Ok (q, p_goto p (PHead chunk))
  | PWait chunk =>
      if dataFreeEvent q then Ok (set_free q false, p_goto p (PSizeHead chunk)) else Block
  | PHead chunk => Ok (q, p_goto p (PCopy chunk (head q) 0))
  | PCopy chunk h i =>
      if i <? chunk then
        k ← ring_index (capacity q) (h + i);
        match zget (p_data p) i with
        | None => UB "read past the end of the source"
        | Some b =>
            match zset (buffer q) k b with
            | None => UB "write outside the vector"
            | Some buf => Ok (set_buffer q buf, p_goto p (PCopy chunk h (i + 1)))
            end
        end
      else Ok (q, p_goto p (PStore chunk h))
  | PStore chunk h =>
      k ← ring_index (capacity q) (h + chunk); Ok (set_head q k, p_goto p (PSignal chunk))
  | PSignal chunk => Ok (set_present q true, Producer PLoop (drop (Z.to_nat chunk) (p_data p)))
  end.

(** ** The consumer: [pop], [waitElemPresent] and the timed overloads *)

(** Which wait a size test belongs to: that of [pop], or one of the three tests of the timed
    [waitElemPresent]. *)
Inductive test := Untimed | First | Second | Last.

Inductive cpc :=
  | CIdle
  | CLoop
  | CTimed (n : Z)                        (** entering the timed [pop] *)
  | CSizeHead (m : test) (n : Z)          (** [size()]: the load of [head] *)
  | CSizeTail (m : test) (n h : Z)        (** the load of [tail], then the test *)
  | CWait (n : Z)                         (** [dataPresentEvent.wait()] *)
  | CPoll (n : Z)                         (** [dataPresentEvent.wait(0u)] *)
  | CSleep (n : Z)                        (** [dataPresentEvent.wait(timeoutMs)] *)
  | CTail (n : Z)                         (** [t = tail.load()] in [pop] *)
  | CCopy (n t i : Z)
  | CStore (n t : Z)
  | CSignal (n : Z).

(** [c_want] is the [dataSize] still to pop; [c_out] gathers every byte stored in the callers'
    buffers, oldest first. *)
Record consumer := Consumer { c_pc : cpc; c_want : Z; c_out : list Z }.
Definition c_goto (c : consumer) (pc : cpc) : consumer := Consumer pc (c_want c) (c_out c).

(** The timed [pop] returns false. *)
Definition c_false (c : consumer) : consumer := Consumer CIdle 0 (c_out c).

(** [wait(0)] lowers a raised event and changes nothing otherwise; so does a wait with a
    timeout, which returns when the event is raised or, at any time, because the time is over. *)
Definition consumer_step (q : queue) (c : consumer) : res (queue * consumer) :=
  match c_pc c with
  | CIdle => Block
  | CLoop =>
      if c_want c =? 0 then Ok (q, c_goto c CIdle)
      else Ok (q, c_goto c (CSizeHead Untimed (chunkSize (capacity q) (c_want c))))
  | CTimed n =>
      if n >? u64 (capacity q - 1) then Ok (q, c_false c) else Ok (q, c_goto c (CSizeHead First n))
  | CSizeHead m n => Ok (q, c_goto c (CSizeTail m n (head q)))
  | CSizeTail m n h =>
      if size (set_head q h) <? n then
        Ok (q, match m with
               | Untimed => c_goto c (CWait n)
               | First => c_goto c (CPoll n)
               | Second => c_goto c (CSleep n)
               | Last => c_false c
               end)
      else Ok (q, c_goto c (CTail n))
  | CWait n =>
      if dataPresentEvent q then Ok (set_present q false, c_goto c (CSizeHead Untimed n)) else Block
  | CPoll n => Ok (set_present q false, c_goto c (CSizeHead Second n))
  | CSleep n => Ok (set_present q false, c_goto c (CSizeHead Last n))
  | CTail n => Ok (q, c_goto c (CCopy n (tail q) 0))
  | CCopy n t i =>
      if i <? n then
        k ← ring_index (capacity q) (t + i);
        match zget (buffer q) k with
        | None => UB "read outside the vector"
        | Some b => Ok (q, Consumer (CCopy n t (i + 1)) (c_want c) (c_out c ++ [b]))
        end
      else Ok (q, c_goto c (CStore n t))
  | CStore n t => k ← ring_index (capacity q) (t + n); Ok (set_tail q k, c_goto c (CSignal n))
  | CSignal n => Ok (set_free q true, Consumer CLoop (c_want c - n) (c_out c))
  end.

(** ** The system *)

Record system := System { sh : queue; pr : producer; co : consumer; pushed : list Z }.

Inductive step : system -> system -> Prop :=
  | step_push s data :
      p_pc (pr s) = PIdle ->
      step s (System (sh s) (Producer PLoop data) (co s) (pushed s ++ data))
  | step_pop s n :
      c_pc (co s) = CIdle -> 0 <= n ->
      step s (System (sh s) (pr s) (Consumer CLoop n (c_out (co s))) (pushed s))
  | step_pop_timed s n :
      c_pc (co s) = CIdle -> 0 <= n ->
      step s (System (sh s) (pr s) (Consumer (CTimed n) n (c_out (co s))) (pushed s))
  | step_producer s q' p' :
      producer_step (sh s) (pr s) = Ok (q', p') -> step s (System q' p' (co s) (pushed s))
  | step_consumer s q' c' :
      consumer_step (sh s) (co s) = Ok (q', c') -> step s (System q' (pr s) c' (pushed s)).

(** The queue as the constructor makes it, nobody inside an operation. *)
Definition initial (cap : Z) : system :=
  System (SPSCQueue cap) (Producer PIdle []) (Consumer CIdle 0 []) [].

(** The same over a vector of the size of the ring, which no constructor of the class makes. *)
Definition with_buffer (cap : Z) (buf : list Z) : system :=
  System (Queue cap 0 0 buf false false) (Producer PIdle []) (Consumer CIdle 0 []) [].

(** ** The queue as it is constructed *)

(** [fuel] steps of the producer on its own. *)
Fixpoint p_run (fuel : nat) (q : queue) (p : producer) : res (queue * producer) :=
  match fuel with
  | O => Ok (q, p)
  | S fuel' => '(q', p') ← producer_step q p; p_run fuel' q' p'
  end.

(** No data goes in, so no event is raised and no wait for data ends; the room, all but one byte of
    the capacity, is always enough. *)
Definition constructed_p (cap : Z) (p : producer) : Prop :=
  let n := Z.of_nat (length (p_data p)) in
  match p_pc p with
  | PIdle | PLoop => True
  | PSizeHead c | PHead c => 0 < c < cap /\ c <= n
  | PSizeTail c h => 0 < c < cap /\ c <= n /\ h = 0
  | PCopy c h i => 0 < c < cap /\ c <= n /\ h = 0 /\ i = 0
  | PWait _ | PStore _ _ | PSignal _ => False
  end.
(** Steps of a [push] that has begun up to the undefined one. *)
Definition push_left (pc : ppc) : nat :=
  match pc with
  | PLoop => 5 | PSizeHead _ => 4 | PSizeTail _ _ => 3 | PHead _ => 2 | PCopy _ _ _ => 1 | _ => 6
  end.
Definition constructed_c (c : consumer) : Prop :=
  0 <= c_want c /\
  match c_pc c with
  | CIdle | CLoop => True
  | CTimed n => 0 <= n
  | CSizeHead m n => 0 <= n
  | CSizeTail m n h => 0 <= n /\ h = 0
  | CWait n | CPoll n | CSleep n => 0 < n
  | CTail n | CSignal n => n = 0
  | CCopy n t i => n = 0 /\ t = 0 /\ i = 0
  | CStore n t => n = 0 /\ t = 0
  end.
Definition constructed_inv (cap : Z) (s : system) : Prop :=
  (exists free, sh s = set_free (SPSCQueue cap) free) /\ c_out (co s) = [] /\
  constructed_p cap (pr s) /\ constructed_c (co s).

Lemma constructed_chunk cap n :
  2 <= cap <= 2 ^ 63 -> 0 < n -> 0 < chunkSize cap n < cap /\ chunkSize cap n <= n.
Proof. intros Hc Hn. unfold chunkSize. rewrite wrap_u64_small by lia. case_bool; lia. Qed.

Lemma constructed_size cap free :
  2 <= cap <= 2 ^ 63 ->
  size (set_free (SPSCQueue cap) free) = 0 /\ freeSpace (set_free (SPSCQueue cap) free) = cap - 1.
Proof.
  intros Hc. assert (Hs : size (set_free (SPSCQueue cap) free) = 0) by done. split; [done|].
  unfold freeSpace. rewrite Hs. simpl. rewrite Z.sub_0_r, (wrap_u64_small cap), wrap_u64_small by lia.
  done.
Qed.

Lemma constructed_producer cap free p :
  2 <= cap <= 2 ^ 63 -> constructed_p cap p ->
  match producer_step (set_free (SPSCQueue cap) free) p with
  | Ok (q', p') => q' = set_free (SPSCQueue cap) free /\ constructed_p cap p' /\ p_data p' = p_data p /\
      (p_data p <> [] -> push_left (p_pc p) = S (push_left (p_pc p')))
  | Block => p_pc p = PIdle
  | UB _ => exists c h i, p_pc p = PCopy c h i
  | _ => False
  end.
Proof.
  intros Hc. destruct (constructed_size cap free Hc) as [_ Hf]. destruct p as [pc data].
  unfold constructed_p, producer_step, p_goto. destruct pc as [| |c|c h|c|c|c h i|c h|c]; simpl; try (intuition done).
  - intros _. destruct (Z.eqb_spec (Z.of_nat (length data)) 0).
    { by destruct data. }
    pose proof (constructed_chunk cap (Z.of_nat (length data)) Hc ltac:(lia)).
    split_and!; simpl; (done || lia).
  - intros (Hb & Hn & ->). change (set_head _ 0) with (set_free (SPSCQueue cap) free).
    rewrite Hf, if_false by (apply Z.ltb_ge; lia). done.
  - intros (Hb & Hn & -> & ->). rewrite if_true by (apply Z.ltb_lt; lia).
    rewrite ring_index_ok by lia. cbn [mbind res_bind].
    destruct (zget_is_Some data 0) as [b Hz]; [lia|]. rewrite Hz.
    assert (Hno : zset [] ((0 + 0) mod cap) b = None).
    { unfold zset. rewrite (proj2 (Z.ltb_ge _ _)), andb_false_r; [done|].
      pose proof (Z.mod_pos_bound (0 + 0) cap). simpl. lia. }
    rewrite Hno. by exists c, 0, 0.
Qed.

Lemma constructed_consumer cap free c :
  2 <= cap <= 2 ^ 63 -> constructed_c c -> c_out c = [] ->
  match consumer_step (set_free (SPSCQueue cap) free) c with
  | Ok (q', c') => (exists free', q' = set_free (SPSCQueue cap) free') /\ constructed_c c' /\ c_out c' = []
  | Block => c_pc c = CIdle \/ exists n, c_pc c = CWait n /\ 0 < n
  | _ => False
  end.
Proof.
  intros Hc. destruct (constructed_size cap free Hc) as [Hs _]. destruct c as [pc want out].
  unfold constructed_c, consumer_step, c_goto, c_false. simpl c_out. simpl c_want. simpl c_pc.
  assert (Hset : forall q' c' free', q' = set_free (SPSCQueue cap) free' -> constructed_c c' ->
    c_out c' = [] -> (exists free', q' = set_free (SPSCQueue cap) free') /\ constructed_c c' /\ c_out c' = [])
    by eauto.
  intros [Hw Hpc] ->. destruct pc as [| |n|m n|m n h|n|n|n|n|n t i|n t|n]; try done; [by left|..].
  - case_bool; (eapply Hset; [done| |done]); unfold constructed_c; simpl; [done|].
    pose proof (constructed_chunk cap want Hc ltac:(lia)). lia.
  - case_bool; (eapply Hset; [done| |done]); unfold constructed_c; simpl; lia.
  - by eapply Hset.
  - destruct Hpc as [Hn ->]. change (set_head _ 0) with (set_free (SPSCQueue cap) free). rewrite Hs.
    case_bool; (eapply Hset; [done| |by destruct m]); [destruct m|]; unfold constructed_c; simpl; lia.
  - right. by exists n.
  - eapply Hset; [done| |done]. unfold constructed_c. simpl. lia.
  - eapply Hset; [done| |done]. unfold constructed_c. simpl. lia.
  - by eapply Hset.
  - destruct Hpc as (-> & -> & ->). rewrite Z.ltb_irrefl. by eapply Hset.
  - destruct Hpc as (-> & ->). simpl. rewrite ring_index_ok by lia. cbn [mbind res_bind].
    rewrite Z.mod_0_l by lia. by eapply Hset.
  - subst n. rewrite Z.sub_0_r. by eapply (Hset _ _ true).
Qed.

Lemma constructed_step cap s s' :
  2 <= cap <= 2 ^ 63 -> constructed_inv cap s -> step s s' -> constructed_inv cap s'.
Proof.
  intros Hc ([free Hq] & Ho & Hp & Hco) Hs. unfold constructed_inv.
  destruct Hs as [s data Hpc|s n Hpc Hn|s n Hpc Hn|s q' p' Hs|s q' c' Hs]; simpl.
  - split; [by exists free|]. done.
  - split; [by exists free|]. done.
  - split; [by exists free|]. done.
  - rewrite Hq in Hs. pose proof (constructed_producer cap free _ Hc Hp) as H. rewrite Hs in H.
    destruct H as (-> & H & _ & _). split; [by exists free|]. done.
  - rewrite Hq in Hs. pose proof (constructed_consumer cap free _ Hc Hco Ho) as H. rewrite Hs in H.
    by destruct H as (H1 & H2 & H3).
Qed.

Lemma constructed_push_ends cap free fuel : forall p,
  2 <= cap <= 2 ^ 63 -> constructed_p cap p -> p_data p <> [] ->
  (push_left (p_pc p) <= fuel <= 5)%nat ->
  undefined (p_run fuel (set_free (SPSCQueue cap) free) p).
Proof.
  induction fuel as [|fuel IH]; intros p Hc Hp Hd Hf; [destruct p as [[]]; simpl in Hf; lia|].
  cbn [p_run]. pose proof (constructed_producer cap free p Hc Hp) as H.
  destruct (producer_step _ p) as [[q' p']| | |why|]; try done.
  - destruct H as (-> & Hp' & Hd' & Hl). cbn [mbind res_bind]. specialize (Hl Hd).
    apply IH; [done|done|by rewrite Hd'|lia].
  - rewrite H in Hf. simpl in Hf. lia.
  - by eexists.
Qed.


(** ** The invariant

    [H] bytes have been published by the producer and [T] released by the consumer since the
    beginning; the indices of the code are these reduced modulo the capacity. *)

(** Position of the rest of the data in the stream of pushed bytes. *)
Definition p_base (H : Z) (pc : ppc) : Z := match pc with PSignal c => H - c | _ => H end.

Definition p_inv (q : queue) (H T : Z) (pushed : list Z) (p : producer) : Prop :=
  let n := Z.of_nat (length pushed) in
  let cap := capacity q in
  let fits c := 0 < c < cap /\ H + c <= n in
  0 <= p_base H (p_pc p) <= n /\
  p_data p = drop (Z.to_nat (p_base H (p_pc p))) pushed /\
  match p_pc p with
  | PIdle => H = n
  | PLoop => True
  | PSizeHead c | PWait c => fits c
  | PSizeTail c h => fits c /\ h = H mod cap
  | PHead c => fits c /\ H + c < T + cap
  | PCopy c h i =>
      fits c /\ H + c < T + cap /\ h = H mod cap /\ 0 <= i <= c /\
      holds cap (buffer q) pushed H (H + i)
  | PStore c h =>
      fits c /\ H + c < T + cap /\ h = H mod cap /\ holds cap (buffer q) pushed H (H + c)
  | PSignal c => 0 < c
  end.

(** Bytes of the current chunk already in the caller's buffer. *)
Definition c_done (pc : cpc) : Z :=
  match pc with CCopy _ _ i => i | CStore n _ => n | _ => 0 end.

Definition c_inv (q : queue) (H T : Z) (pushed : list Z) (c : consumer) : Prop :=
  let cap := capacity q in
  let fits n := 0 <= n < cap /\ n <= c_want c in
  0 <= c_want c /\ 0 <= c_done (c_pc c) /\
  c_out c = take (Z.to_nat (T + c_done (c_pc c))) pushed /\
  match c_pc c with
  | CIdle => c_want c = 0
  | CLoop => True
  | CTimed n => 0 <= n <= c_want c
  | CSizeHead _ n | CWait n | CPoll n | CSleep n => fits n
  | CSizeTail _ n h => fits n /\ exists H', h = H' mod cap /\ T <= H' <= H
  | CTail n => fits n /\ T + n <= H
  | CCopy n t i => fits n /\ T + n <= H /\ t = T mod cap /\ i <= n
  | CStore n t => fits n /\ T + n <= H /\ t = T mod cap
  | CSignal n => fits n
  end.

Record q_inv (s : system) (H T : Z) : Prop := QInv {
  qi_wf : wf (sh s);
  qi_order : 0 <= T <= H /\ H < T + capacity (sh s) /\ H <= Z.of_nat (length (pushed s));
  qi_head : head (sh s) = H mod capacity (sh s);
  qi_tail : tail (sh s) = T mod capacity (sh s);
  qi_data : holds (capacity (sh s)) (buffer (sh s)) (pushed s) T H;
  qi_p : p_inv (sh s) H T (pushed s) (pr s);
  qi_c : c_inv (sh s) H T (pushed s) (co s) }.

(** The sizes computed from a [head] that may be old, for indices that come from counters. *)
Lemma size_at cap H T buf ev ef :
  2 <= cap <= 2 ^ 63 -> Z.of_nat (length buf) = cap -> T <= H < T + cap ->
  size (Queue cap (H mod cap) (T mod cap) buf ev ef) = H - T.
Proof.
  intros Hc Hb Ho. rewrite size_used; [|by split; simpl; try apply Z.mod_pos_bound; lia].
  unfold used. simpl. rewrite <-Zminus_mod. apply Z.mod_small. lia.
Qed.

Lemma free_at cap H T buf ev ef :
  2 <= cap <= 2 ^ 63 -> Z.of_nat (length buf) = cap -> T <= H < T + cap ->
  freeSpace (Queue cap (H mod cap) (T mod cap) buf ev ef) = cap - 1 - (H - T).
Proof.
  intros Hc Hb Ho. unfold freeSpace. rewrite size_at by done. simpl capacity.
  rewrite !wrap_u64_small by (rewrite ?wrap_u64_small; lia). lia.
Qed.

Lemma index_at cap x y :
  2 <= cap <= 2 ^ 63 -> 0 <= y < cap -> ring_index cap (x mod cap + y) = Ok ((x + y) mod cap).
Proof.
  intros Hc Hy. pose proof (Z.mod_pos_bound x cap ltac:(lia)).
  rewrite ring_index_ok by lia. by rewrite Zplus_mod_idemp_l.
Qed.

Lemma chunk_bounds cap n :
  2 <= cap <= 2 ^ 63 -> 0 < n -> 0 < chunkSize cap n < cap /\ chunkSize cap n <= n.
Proof. intros Hc Hn. unfold chunkSize. rewrite wrap_u64_small by lia. case_bool; lia. Qed.

(** ** Every step keeps the invariant *)

#[local] Arguments size : simpl never.
#[local] Arguments freeSpace : simpl never.
#[local] Arguments ring_index : simpl never.
#[local] Arguments chunkSize : simpl never.
#[local] Arguments set_head !q h /.
#[local] Arguments set_tail !q t /.
#[local] Arguments set_buffer !q b /.
#[local] Arguments set_present !q b /.
#[local] Arguments set_free !q b /.

Ltac open_inv s Hinv :=
  destruct s as [[cap hd tl buf ev ef] [pc data] [pcc want out] str];
  destruct Hinv as [Hq Hord Hhd Htl Hdat Hp Hco]; pose proof Hq as [Hc Hh0 Ht0 Hb];
  unfold p_inv in Hp; unfold c_inv in Hco; simpl in *; subst hd tl.

Ltac keep :=
  split; simpl; try done; try lia; unfold p_inv, c_inv; simpl; repeat split; simpl; try lia; try done.

Ltac settle_step H T := exists H, T; keep.

Lemma queue_producer_copy_good s H T c h i :
  q_inv s H T -> p_pc (pr s) = PCopy c h i -> i < c ->
  exists q' p', producer_step (sh s) (pr s) = Ok (q', p') /\
    q_inv (System q' p' (co s) (pushed s)) H T.
Proof.
  intros Hinv Epc Hlt. open_inv s Hinv. subst pc. simpl in *.
  destruct Hp as (Hb0 & Hdata & Hf & Hr & -> & Hi & Hh).
  unfold producer_step; simpl. rewrite (if_true (i <? c)) by (apply Z.ltb_lt; lia).
  rewrite index_at by lia. cbn [mbind res_bind].
  destruct (zget_is_Some data i) as [b Hgb]; [subst data; rewrite length_drop; lia|].
  rewrite Hgb. pose proof (Z.mod_pos_bound (H + i) cap ltac:(lia)).
  pose proof (zset_is_Some buf ((H + i) mod cap) b ltac:(lia)) as Hz. simpl. rewrite Hz.
  subst data. apply p_byte in Hgb; [|lia..].
  pose proof (holds_extend cap _ _ str T (H + i) b ltac:(lia) Hb ltac:(lia) ltac:(lia)
    (holds_app _ _ _ _ _ _ Hdat Hh) Hz Hgb) as Hall.
  do 2 eexists. split; [done|]. keep.
  - by rewrite length_insert.
  - eapply holds_weaken; [exact Hall|lia|lia].
  - eapply holds_weaken; [exact Hall|lia|lia].
Qed.

(** The producer alone keeps the invariant, and never leaves the bounds of its buffers. *)
Lemma queue_producer_step_good s H T :
  q_inv s H T ->
  match producer_step (sh s) (pr s) with
  | Ok (q', p') => exists H2, q_inv (System q' p' (co s) (pushed s)) H2 T
  | Block => True
  | _ => False
  end.
Proof.
  intros Hinv. pose proof Hinv as Hinv0. open_inv s Hinv. destruct Hp as (Hb0 & Hdata & Hpc).
  unfold producer_step. destruct pc as [| |c|c h|c|c|c h i|c h|c]; simpl in *; try done.
  - case_bool; exists H; keep; subst data; rewrite length_drop in *; try lia;
      destruct (chunk_bounds cap (Z.of_nat (length str - Z.to_nat H)) Hc ltac:(lia)); lia.
  - exists H; keep.
  - destruct Hpc as [Hf ->]. rewrite free_at by (done || lia). case_bool; exists H; keep.
  - destruct ef; [exists H; keep|done].
  - exists H; keep. intros k; lia.
  - case_bool.
    + destruct (queue_producer_copy_good _ H T c h i Hinv0 eq_refl ltac:(done)) as (q' & p' & Hs & Hi).
      unfold producer_step in Hs. simpl in Hs. rewrite (if_true (i <? c)) in Hs by (apply Z.ltb_lt; lia).
      rewrite Hs. by exists H.
    + destruct Hpc as (Hf & Hr & -> & Hi & Hh). exists H. keep.
      eapply holds_weaken; [exact Hh|lia|lia].
  - destruct Hpc as (Hf & Hr & -> & Hh). rewrite index_at by lia. cbn [mbind res_bind].
    pose proof (Z.mod_pos_bound (H + c) cap ltac:(lia)). exists (H + c). keep.
    + by eapply holds_app.
    + by replace (H + c - c) with H by lia.
    + apply Hco.
    + destruct Hco as (_ & _ & _ & Hco). destruct pcc; try done; try lia.
      destruct Hco as (? & H' & ? & ?). split; [done|]. exists H'. split; [done|lia].
  - exists H. keep. subst data. rewrite drop_drop. f_equal. lia.
Qed.

(** The copy step of the consumer reads a byte the producer published, in order. *)
Lemma queue_consumer_copy_good s H T n t i :
  q_inv s H T -> c_pc (co s) = CCopy n t i -> i < n ->
  exists c', consumer_step (sh s) (co s) = Ok (sh s, c') /\
    q_inv (System (sh s) (pr s) c' (pushed s)) H T.
Proof.
  intros Hinv Epc Hlt. open_inv s Hinv. subst pcc. simpl in *.
  destruct Hco as (Hwant & Hi & Hout & Hf & Hr & -> & Hin).
  unfold consumer_step; simpl. rewrite (if_true (i <? n)) by (apply Z.ltb_lt; lia).
  rewrite index_at by lia. cbn [mbind res_bind]. rewrite Hdat by lia.
  destruct (zget_is_Some str (T + i)) as [b Hgb]; [lia|]. rewrite Hgb.
  eexists. split; [done|]. keep.
  rewrite Hout, (take_snoc_byte _ _ b) by (done || lia). f_equal. lia.
Qed.

(** The consumer alone keeps the invariant, and never reads outside the vector. *)
Lemma queue_consumer_step_good s H T :
  q_inv s H T ->
  match consumer_step (sh s) (co s) with
  | Ok (q', c') => exists T2, q_inv (System q' (pr s) c' (pushed s)) H T2
  | Block => True
  | _ => False
  end.
Proof.
  intros Hinv. pose proof Hinv as Hinv0. open_inv s Hinv. destruct Hco as (Hwant & Hd & Hout & Hpc).
  unfold consumer_step. destruct pcc as [| |n|m n|m n h|n|n|n|n|n t i|n t|n]; simpl in *; try done.
  - case_bool; exists T; keep; destruct (chunk_bounds cap want Hc ltac:(lia)); lia.
  - rewrite wrap_u64_small by lia. case_bool; exists T; keep.
  - exists T. keep. exists H. split; [done|lia].
  - destruct Hpc as (Hf & H' & -> & HH'). rewrite size_at by (done || lia).
    case_bool; [destruct m|]; exists T; keep.
  - destruct ev; [exists T; keep|done].
  - exists T; keep.
  - exists T; keep.
  - exists T; keep.
  - case_bool.
    + destruct (queue_consumer_copy_good _ H T n t i Hinv0 eq_refl ltac:(done)) as (c' & Hs & Hi).
      unfold consumer_step in Hs. simpl in Hs. rewrite (if_true (i <? n)) in Hs by (apply Z.ltb_lt; lia).
      rewrite Hs. by exists T.
    + destruct Hpc as (Hf & Hr & -> & Hin). exists T. keep. rewrite Hout. do 2 f_equal. lia.
  - destruct Hpc as (Hf & Hr & ->). rewrite index_at by lia. cbn [mbind res_bind].
    pose proof (Z.mod_pos_bound (T + n) cap ltac:(lia)). exists (T + n). keep.
    + eapply holds_weaken; [exact Hdat|lia|lia].
    + apply Hp.
    + destruct Hp as (_ & _ & Hp). destruct pc; try done; destruct_and? Hp; split_and!; (done || lia).
    + rewrite Hout. do 2 f_equal. lia.
  - exists T. keep.
Qed.

Lemma queue_push_begin_inv s H T more :
  q_inv s H T -> p_pc (pr s) = PIdle ->
  q_inv (System (sh s) (Producer PLoop more) (co s) (pushed s ++ more)) H T.
Proof.
  intros Hinv Hpc. open_inv s Hinv. subst pc. simpl in *. destruct Hp as (Hb0 & Hdata & Hpc).
  destruct Hco as (? & ? & -> & Hpcc).
  assert (T + c_done pcc <= H) by (destruct pcc; simpl in *; lia).
  keep; rewrite ?length_app; try lia.
  + apply holds_more; [lia|lia|done].
  + rewrite drop_app_ge by lia. by replace (Z.to_nat H - length str)%nat with 0%nat by lia.
  + rewrite take_app_le; [done|lia].
Qed.

Lemma queue_pop_begin_inv s H T entry n :
  q_inv s H T -> c_pc (co s) = CIdle -> 0 <= n -> entry = CLoop \/ entry = CTimed n ->
  q_inv (System (sh s) (pr s) (Consumer entry n (c_out (co s))) (pushed s)) H T.
Proof.
  intros Hinv Hpc Hn Hor. open_inv s Hinv. subst pcc. simpl in *.
  destruct Hco as (? & ? & Hout & ?). destruct Hor as [-> | ->]; keep.
Qed.

Definition good (s : system) : Prop := exists H T, q_inv s H T.

Lemma queue_step_good s s' : good s -> step s s' -> good s'.
Proof.
  intros (H & T & Hinv) Hstep. destruct Hstep as [s more Hpc|s n Hpc Hn|s n Hpc Hn|s q' p' Hs|s q' c' Hs].
  - exists H, T. by apply queue_push_begin_inv.
  - exists H, T. apply queue_pop_begin_inv; auto.
  - exists H, T. apply queue_pop_begin_inv; auto.
  - pose proof (queue_producer_step_good _ _ _ Hinv) as Hg. rewrite Hs in Hg.
    destruct Hg as (H2 & ?). by exists H2, T.
  - pose proof (queue_consumer_step_good _ _ _ Hinv) as Hg. rewrite Hs in Hg.
    destruct Hg as (T2 & ?). by exists H, T2.
Qed.

Lemma queue_reachable_good cap buf s :
  2 <= cap <= 2 ^ 63 -> Z.of_nat (length buf) = cap -> star step (with_buffer cap buf) s -> good s.
Proof.
  intros Hc Hl Hstar. refine (star_invariant _ good _ _ queue_step_good Hstar _).
  exists 0, 0. keep; rewrite ?Z.mod_0_l by lia; try done. intros k; lia.
Qed.

(** ** Order and safety *)

(** The ring read from [T] on is the stream of pushed bytes from there on. *)
Lemma slice_holds cap buf str T H n :
  0 < cap -> 0 <= T -> T + Z.of_nat n <= H -> H <= Z.of_nat (length str) -> holds cap buf str T H ->
  ring_slice cap buf (T mod cap) n = take n (drop (Z.to_nat T) str).
Proof.
  intros Hc HT Hn HH Hh. rewrite slice_mod by done.
  apply list_eq_same_length with (n := n); rewrite ?length_slice, ?length_take, ?length_drop; [lia..|].
  intros k x y Hk. unfold ring_slice. rewrite list_lookup_fmap, lookup_seq_lt by lia. simpl.
  rewrite Hh by lia. rewrite lookup_take_lt, lookup_drop, zget_nonneg by lia.
  replace (Z.to_nat (T + Z.of_nat k)) with (Z.to_nat T + k)%nat by lia.
  intros [= <-] Hy. by rewrite Hy.
Qed.

Lemma inv_sizes s H T :
  q_inv s H T -> size (sh s) = H - T /\ freeSpace (sh s) = capacity (sh s) - 1 - (H - T).
Proof.
  intros Hinv. open_inv s Hinv. rewrite size_at, free_at by (done || lia). done.
Qed.

Lemma inv_quiescent s H T :
  q_inv s H T -> p_pc (pr s) = PIdle -> c_pc (co s) = CIdle ->
  pushed s = c_out (co s) ++ contents (sh s).
Proof.
  intros Hinv Hpi Hci. pose proof (inv_sizes _ _ _ Hinv) as [Hs _]. open_inv s Hinv. subst pc pcc.
  destruct Hp as (_ & _ & HH), Hco as (_ & _ & Hout & _). simpl in Hout. rewrite Z.add_0_r in Hout.
  unfold contents. rewrite <-size_used, Hs by done. simpl.
  rewrite (slice_holds cap buf str T H) by (done || lia).
  rewrite take_ge by (rewrite length_drop; lia). by rewrite Hout, take_drop.
Qed.

(** First in, first out, for every interleaving of one thread that pushes and one that pops,
    with or without a timeout: the bytes given to the callers of [pop] are, at every moment and also
    in the middle of an operation, a prefix of the bytes given to [push]; and when both threads
    are outside their operations, what has not been popped is exactly the contents of the
    queue. *)
Theorem queue_threads_fifo cap buf s :
  2 <= cap <= 2 ^ 63 -> Z.of_nat (length buf) = cap -> star step (with_buffer cap buf) s ->
  c_out (co s) `prefix_of` pushed s /\
  (p_pc (pr s) = PIdle -> c_pc (co s) = CIdle -> pushed s = c_out (co s) ++ contents (sh s)).
Proof.
  intros Hc Hl Hr. destruct (queue_reachable_good _ _ _ Hc Hl Hr) as (H & T & Hinv).
  split.
  - destruct (qi_c _ _ _ Hinv) as (_ & _ & -> & _). eexists. symmetry. apply take_drop.
  - by eapply inv_quiescent.
Qed.

(** No step of either thread, in any interleaving, leaves the vector or the callers' buffers,
    divides by zero or throws; the queue stays well formed. *)
Theorem queue_threads_safe cap buf s :
  2 <= cap <= 2 ^ 63 -> Z.of_nat (length buf) = cap -> star step (with_buffer cap buf) s ->
  wf (sh s) /\
  (producer_step (sh s) (pr s) = Block \/ returns (producer_step (sh s) (pr s))) /\
  (consumer_step (sh s) (co s) = Block \/ returns (consumer_step (sh s) (co s))).
Proof.
  intros Hc Hl Hr. destruct (queue_reachable_good _ _ _ Hc Hl Hr) as (H & T & Hinv).
  pose proof (queue_producer_step_good _ _ _ Hinv) as Hp. pose proof (queue_consumer_step_good _ _ _ Hinv) as Hco.
  split; [apply Hinv|].
  split; [destruct (producer_step _ _)|destruct (consumer_step _ _)]; try done;
    (by left) || (right; by eexists).
Qed.

(** ** Wake-ups *)

(** A consumer about to wait knows the latest [head], or the event is up, or the producer is about to
    raise it; a producer about to wait has found too little room, or the event is up, or the
    consumer is about to raise it. *)
Definition wake_inv (s : system) : Prop :=
  match c_pc (co s) with
  | CSizeTail Untimed n h =>
      h = head (sh s) \/ dataPresentEvent (sh s) = true \/ exists c, p_pc (pr s) = PSignal c
  | CWait n => size (sh s) < n \/ dataPresentEvent (sh s) = true \/ exists c, p_pc (pr s) = PSignal c
  | _ => True
  end /\
  match p_pc (pr s) with
  | PWait c => freeSpace (sh s) < c \/ dataFreeEvent (sh s) = true \/ exists n, c_pc (co s) = CSignal n
  | _ => True
  end.

Ltac wake :=
  repeat match goal with H : _ \/ _ |- _ => destruct H | H : exists _, _ |- _ => destruct H end;
  try discriminate; eauto.

Lemma queue_wake_producer s H T q' p' :
  q_inv s H T -> wake_inv s -> producer_step (sh s) (pr s) = Ok (q', p') ->
  wake_inv (System q' p' (co s) (pushed s)).
Proof.
  intros Hinv. open_inv s Hinv. destruct Hp as (_ & _ & Hp). clear Hdat Hco.
  unfold wake_inv, producer_step; simpl. intros [Hcw Hpw].
  destruct pc as [| |c|c h|c|c|c h i|c h|c]; simpl in *; try done; repeat case_bool; intros; simplify_eq/=;
    try (destruct ef; simplify_eq/=);
    try (destruct (ring_index _ _) as [k| | | |]; simplify_eq/=);
    try (destruct (zget _ _); simplify_eq/=; destruct (zset _ _ _); simplify_eq/=);
    (split; [destruct pcc as [| | | |[]| | | | | | |]; simpl in *; try done; wake|try done; wake]).
  left. by destruct Hp as [_ ->].
Qed.

Lemma queue_wake_consumer s H T q' c' :
  q_inv s H T -> wake_inv s -> consumer_step (sh s) (co s) = Ok (q', c') ->
  wake_inv (System q' (pr s) c' (pushed s)).
Proof.
  intros Hinv. open_inv s Hinv. clear Hdat Hp Hco.
  unfold wake_inv, consumer_step; simpl. intros [Hcw Hpw].
  destruct pcc as [| |n|m n|m n h|n|n|n|n|n t i|n t|n]; simpl in *; try done;
    repeat case_bool; intros; simplify_eq/=;
    try (destruct ev; simplify_eq/=);
    try (destruct (ring_index _ _) as [k| | | |]; simplify_eq/=);
    try (destruct (zget _ _); simplify_eq/=);
    (split; [try destruct m; simpl in *; try done; wake|destruct pc; simpl in *; try done; wake]).
  subst h. by left.
Qed.

Lemma queue_wake_step s s' : good s /\ wake_inv s -> step s s' -> good s' /\ wake_inv s'.
Proof.
  intros [Hg Hi] Hs. split; [by eapply queue_step_good|]. destruct Hg as (H & T & Hinv).
  destruct Hs as [s data Hpc|s n Hpc Hn|s n Hpc Hn|s q' p' Hs|s q' c' Hs];
    [| | |by eapply queue_wake_producer|by eapply queue_wake_consumer];
    destruct Hi as [Hc Hp]; rewrite Hpc in *; (split; simpl; [|try done]).
  - destruct (c_pc (co s)) as [| | | |[]| | | | | | |]; try done; wake.
  - done.
  - destruct (p_pc (pr s)); try done; wake.
  - done.
  - destruct (p_pc (pr s)); try done; wake.
Qed.

Lemma queue_reachable_wake cap buf s :
  2 <= cap <= 2 ^ 63 -> Z.of_nat (length buf) = cap -> star step (with_buffer cap buf) s ->
  good s /\ wake_inv s.
Proof.
  intros Hc Hl Hr. refine (star_invariant _ (fun s => good s /\ wake_inv s) _ _ queue_wake_step Hr _).
  split; [by eapply queue_reachable_good; [| |apply star_refl]|done].
Qed.

Lemma waiting_consumer s n :
  wake_inv s -> c_pc (co s) = CWait n -> consumer_step (sh s) (co s) = Block ->
  (forall c, p_pc (pr s) <> PSignal c) -> size (sh s) < n.
Proof.
  intros [Hw _] Hpc Hb Hnp. unfold consumer_step in Hb. rewrite Hpc in *.
  destruct (dataPresentEvent (sh s)); [done|]. destruct Hw as [?|[?|[c ?]]]; [done..|naive_solver].
Qed.

Lemma waiting_producer s c :
  wake_inv s -> p_pc (pr s) = PWait c -> producer_step (sh s) (pr s) = Block ->
  (forall n, c_pc (co s) <> CSignal n) -> freeSpace (sh s) < c.
Proof.
  intros [_ Hw] Hpc Hb Hnp. unfold producer_step in Hb. rewrite Hpc in *.
  destruct (dataFreeEvent (sh s)); [done|]. destruct Hw as [?|[?|[n ?]]]; [done..|naive_solver].
Qed.

(** No wake-up is lost: a thread that is stuck in a wait is right to wait, that is, the bytes or
    the room it wants are not there, unless the other thread is just about to signal. *)
Theorem queue_no_lost_wakeup cap buf s :
  2 <= cap <= 2 ^ 63 -> Z.of_nat (length buf) = cap -> star step (with_buffer cap buf) s ->
  (forall n, c_pc (co s) = CWait n -> consumer_step (sh s) (co s) = Block ->
    (forall c, p_pc (pr s) <> PSignal c) -> size (sh s) < n) /\
  (forall c, p_pc (pr s) = PWait c -> producer_step (sh s) (pr s) = Block ->
    (forall n, c_pc (co s) <> CSignal n) -> freeSpace (sh s) < c).
Proof.
  intros Hc Hl Hr. destruct (queue_reachable_wake _ _ _ Hc Hl Hr) as [_ Hw].
  split; [intros n; by apply waiting_consumer|intros c; by apply waiting_producer].
Qed.

(** The two threads never wait for each other as long as the chunk being pushed and the chunk
    being popped together do not exceed the capacity. *)
Theorem queue_no_deadlock cap buf s c n :
  2 <= cap <= 2 ^ 63 -> Z.of_nat (length buf) = cap -> star step (with_buffer cap buf) s ->
  p_pc (pr s) = PWait c -> c_pc (co s) = CWait n -> c + n <= capacity (sh s) ->
  returns (producer_step (sh s) (pr s)) \/ returns (consumer_step (sh s) (co s)).
Proof.
  intros Hc Hl Hr Hp Hcp Hsum. destruct (queue_reachable_wake _ _ _ Hc Hl Hr) as [(H & T & Hinv) Hw].
  pose proof (inv_sizes _ _ _ Hinv) as [Hs Hf].
  pose proof (queue_producer_step_good _ _ _ Hinv) as Hpg. pose proof (queue_consumer_step_good _ _ _ Hinv) as Hcg.
  unfold returns. destruct (producer_step _ _) eqn:Ep; try done; [eauto|].
  destruct (consumer_step _ _) eqn:Ec; try done; [eauto|].
  pose proof (waiting_producer s c Hw Hp Ep ltac:(by rewrite Hcp)).
  pose proof (waiting_consumer s n Hw Hcp Ec ltac:(by rewrite Hp)). lia.
Qed.

(** ** The timed [pop] *)

(** A consumer that will not wait any more: in the timed [pop], or in the last chunk of a [pop]
    after its wait. *)
Definition unblockable (c : consumer) : Prop :=
  match c_pc c with
  | CIdle => True
  | CLoop => c_want c = 0
  | CSizeHead Untimed _ | CSizeTail Untimed _ _ | CWait _ => False
  | CTimed n | CSizeHead _ n | CSizeTail _ n _ | CPoll n | CSleep n | CTail n | CCopy n _ _
  | CStore n _ | CSignal n => c_want c = n
  end.

(** The steps it has left, at most. *)
Definition steps_left (c : consumer) : Z :=
  match c_pc c with
  | CIdle | CWait _ | CSizeHead Untimed _ | CSizeTail Untimed _ _ => 0
  | CLoop => 1
  | CSignal _ => 2
  | CStore _ _ => 3
  | CCopy n _ i => 4 + (n - i)
  | CTail n => 5 + n
  | CSizeTail Last n _ => 6 + n
  | CSizeHead Last n => 7 + n
  | CSleep n => 8 + n
  | CSizeTail Second n _ => 9 + n
  | CSizeHead Second n => 10 + n
  | CPoll n => 11 + n
  | CSizeTail First n _ => 12 + n
  | CSizeHead First n => 13 + n
  | CTimed n => 14 + n
  end.

Lemma steps_left_nonneg s H T : q_inv s H T -> 0 <= steps_left (co s).
Proof.
  intros Hinv. open_inv s Hinv. destruct Hco as (_ & _ & _ & Hco). unfold steps_left.
  destruct pcc as [| |n|[] n|[] n h|n|n|n|n|n t i|n t|n]; simpl in *; lia.
Qed.

Lemma unblockable_step s H T q' c' :
  q_inv s H T -> unblockable (co s) -> consumer_step (sh s) (co s) = Ok (q', c') ->
  unblockable c' /\ steps_left c' < steps_left (co s).
Proof.
  intros Hinv. open_inv s Hinv. destruct Hco as (_ & _ & _ & Hco). clear Hdat Hp.
  unfold unblockable, steps_left, consumer_step.
  destruct pcc as [| |n|m n|m n h|n|n|n|n|n t i|n t|n]; simpl in *; try done; intros Hu;
    try (destruct m; simpl in *; try done);
    repeat case_bool; intros; simplify_eq/=;
    try (destruct (ring_index _ _) as [k| | | |]; simplify_eq/=);
    try (destruct (zget _ _); simplify_eq/=); lia.
Qed.

Lemma unblockable_runs s H T :
  q_inv s H T -> unblockable (co s) -> c_pc (co s) = CIdle \/ returns (consumer_step (sh s) (co s)).
Proof.
  intros Hinv Hu. pose proof (queue_consumer_step_good _ _ _ Hinv) as Hg.
  destruct (consumer_step (sh s) (co s)) as [[q' c']| | | |] eqn:Hs; try done; [right; by eexists|].
  left. revert Hs Hu. unfold consumer_step, unblockable, ring_index.
  destruct (c_pc (co s)) as [| |n|m n|m n h|n|n|n|n|n t i|n t|n]; try done; repeat case_bool; try done; simpl.
  by destruct (zget (buffer (sh s)) (u64 (t + i) mod capacity (sh s))).
Qed.

(** Both threads go on, the consumer inside one operation; its steps are counted. *)
Inductive meanwhile : nat -> system -> system -> Prop :=
  | mw_refl s : meanwhile 0 s s
  | mw_push k s data s' :
      p_pc (pr s) = PIdle ->
      meanwhile k (System (sh s) (Producer PLoop data) (co s) (pushed s ++ data)) s' ->
      meanwhile k s s'
  | mw_producer k s q' p' s' :
      producer_step (sh s) (pr s) = Ok (q', p') ->
      meanwhile k (System q' p' (co s) (pushed s)) s' -> meanwhile k s s'
  | mw_consumer k s q' c' s' :
      consumer_step (sh s) (co s) = Ok (q', c') ->
      meanwhile k (System q' (pr s) c' (pushed s)) s' -> meanwhile (S k) s s'.

Lemma meanwhile_bounded k s s' :
  meanwhile k s s' -> good s -> unblockable (co s) ->
  good s' /\ unblockable (co s') /\ Z.of_nat k + steps_left (co s') <= steps_left (co s).
Proof.
  induction 1 as [s|k s data s' Hpc _ IH|k s q' p' s' Hs _ IH|k s q' c' s' Hs _ IH]; intros Hg Hu.
  - split_and!; [done..|lia].
  - apply IH; [|done]. by eapply queue_step_good, step_push.
  - apply IH; [|done]. by eapply queue_step_good, step_producer.
  - destruct Hg as (H & T & Hinv).
    destruct (unblockable_step _ _ _ _ _ Hinv Hu Hs) as [Hu' Hlt].
    destruct IH as (Hg' & Hu'' & Hle); [eapply queue_step_good; [by exists H, T|by apply step_consumer]|done|].
    split_and!; [done..|]. simpl in Hle. lia.
Qed.

(** The timed [pop] returns: whatever the producer does in the meantime, it is over after at most
    [n + 14] steps of its own, for [n] bytes, and until then it can always make the next one. *)
Theorem timed_pop_returns cap buf s n k s' :
  2 <= cap <= 2 ^ 63 -> Z.of_nat (length buf) = cap -> star step (with_buffer cap buf) s ->
  c_pc (co s) = CTimed n -> c_want (co s) = n -> meanwhile k s s' ->
  Z.of_nat k <= n + 14 /\ (c_pc (co s') = CIdle \/ returns (consumer_step (sh s') (co s'))).
Proof.
  intros Hc Hl Hr Hpc Hw Hm.
  destruct (meanwhile_bounded k s s' Hm (queue_reachable_good _ _ _ Hc Hl Hr)) as ((H & T & Hinv) & Hu & Hle).
  { unfold unblockable. by rewrite Hpc. }
  pose proof (steps_left_nonneg _ _ _ Hinv). unfold steps_left at 2 in Hle. rewrite Hpc in Hle.
  split; [lia|]. by eapply unblockable_runs.
Qed.

(** ** A thread on its own is the sequential operation *)

Definition p_one (x y : queue * producer) : Prop := producer_step x.1 x.2 = Ok y.
Definition c_one (x y : queue * consumer) : Prop := consumer_step x.1 x.2 = Ok y.

(** The next step of a thread whose place in the code is known. *)
Ltac thread_step :=
  unfold p_one, producer_step, p_goto, c_one, consumer_step, c_goto, c_false;
  cbn [fst snd p_pc p_data c_pc c_want c_out].

Lemma copy_in_thread q data c h chunk : forall i buf buf',
  copy_in (capacity q) h i chunk buf = Ok buf' ->
  (forall j b, chunk !! j = Some b -> zget data (i + Z.of_nat j) = Some b) ->
  0 <= i -> i + Z.of_nat (length chunk) = c ->
  star p_one (set_buffer q buf, Producer (PCopy c h i) data)
    (set_buffer q buf', Producer (PStore c h) data).
Proof.
  induction chunk as [|b chunk IH]; intros i buf buf' Hcp Hdata Hi Hc; simpl in *.
  - injection Hcp as <-. apply star_one. thread_step.
    by rewrite (if_false (i <? c)) by lia.
  - destruct (ring_index (capacity q) (h + i)) as [k| | | |] eqn:Hk; try done. simpl in Hcp.
    destruct (zset buf k b) as [buf1|] eqn:Hz; [|done].
    eapply star_step; [|apply (IH (i + 1) buf1 buf' Hcp); [|lia..]].
    + thread_step.
      change (capacity (set_buffer q buf)) with (capacity q). change (buffer (set_buffer q buf)) with buf.
      rewrite (if_true (i <? c)) by lia. rewrite Hk. cbn [mbind res_bind].
      specialize (Hdata 0%nat b eq_refl). rewrite Z.add_0_r in Hdata. by rewrite Hdata, Hz.
    + intros j b' Hj. rewrite <-(Hdata (S j) b' Hj). f_equal. lia.
Qed.

Lemma copy_in_no_block cap h i chunk buf : copy_in cap h i chunk buf <> Block.
Proof.
  revert i buf. induction chunk as [|b chunk IH]; intros i buf; [done|]. simpl. unfold ring_index.
  case_bool; [done|]. simpl. by destruct (zset _ _ _).
Qed.

Lemma set_buffer_id q : set_buffer q (buffer q) = q.
Proof. by destruct q. Qed.
Lemma set_head_id q : set_head q (head q) = q.
Proof. by destruct q. Qed.
Lemma set_free_id q : dataFreeEvent q = false -> set_free q false = q.
Proof. destruct q. simpl. by intros ->. Qed.
Lemma set_present_id q : dataPresentEvent q = false -> set_present q false = q.
Proof. destruct q. simpl. by intros ->. Qed.

(** The size test of [waitFreeSpace], and what the thread does when it fails. *)
Lemma free_test_thread q c data :
  star p_one (q, Producer (PSizeHead c) data)
    (q, Producer (if freeSpace q <? c then PWait c else PHead c) data).
Proof.
  eapply star_step; [reflexivity|]. apply star_one. thread_step.
  rewrite set_head_id. by case_bool.
Qed.

Lemma free_wait_thread q c data :
  freeSpace q < c ->
  star p_one (q, Producer (PSizeHead c) data) (set_free q false, Producer (PWait c) data).
Proof.
  intros Hc. pose proof (free_test_thread q c data) as Ht. rewrite (if_true (_ <? _)) in Ht by lia.
  eapply star_trans; [exact Ht|]. destruct (dataFreeEvent q) eqn:He; [|rewrite set_free_id by done; constructor].
  eapply star_step; [thread_step; by rewrite He|].
  pose proof (free_test_thread (set_free q false) c data) as Ht'.
  rewrite (if_true (_ <? _)) in Ht' by exact Hc || (apply Z.ltb_lt; exact Hc). exact Ht'.
Qed.

(** The turn of [push] whose chunk fits, as steps. *)
Lemma push_turn_thread q data buf h' :
  data <> [] -> let c := chunkSize (capacity q) (Z.of_nat (length data)) in
  freeSpace q >= c ->
  copy_in (capacity q) (head q) 0 (take (Z.to_nat c) data) (buffer q) = Ok buf ->
  ring_index (capacity q) (head q + c) = Ok h' ->
  star p_one (q, Producer PLoop data)
    (set_present (set_head (set_buffer q buf) h') true, Producer PLoop (drop (Z.to_nat c) data)).
Proof.
  intros Hne c Hfree Hcp Hh.
  assert (0 < Z.of_nat (length data)) by (destruct data; simpl; [done|lia]).
  assert (0 <= c <= Z.of_nat (length data)) as Hc.
  { unfold c, chunkSize. pose proof (wrap_in_u 64 (capacity q - 1) ltac:(lia)) as [? _].
    case_bool; lia. }
  eapply star_step; [thread_step; by rewrite (if_false (_ =? 0)) by lia|].
  eapply star_trans; [apply free_test_thread|]. fold c. rewrite (if_false (_ <? _)) by lia.
  eapply star_step; [reflexivity|]. rewrite <-(set_buffer_id q) at 1. simpl head.
  eapply star_trans; [eapply (copy_in_thread q data c (head q) _ 0 _ _ Hcp)|].
  - intros j b Hj. apply lookup_take_Some in Hj as [Hj _]. rewrite zget_nonneg by lia.
    rewrite <-Hj. f_equal. lia.
  - lia.
  - rewrite length_take. lia.
  - eapply star_step; [thread_step;
      change (capacity (set_buffer q buf)) with (capacity q); rewrite Hh; reflexivity|].
    apply star_one. reflexivity.
Qed.

(** Run on its own, the thread that pushes does what the sequential [push] of SPSCQueue.v says: it
    ends with the queue that [push] leaves when [push] returns, and is stuck in its wait over that
    queue when [push] waits. *)
Theorem push_is_thread fuel q data r q' :
  push fuel q data = (r, q') ->
  match r with
  | Ok _ => star p_one (q, Producer PLoop data) (q', Producer PIdle [])
  | Block => exists c rest, star p_one (q, Producer PLoop data) (q', Producer (PWait c) rest) /\
               producer_step q' (Producer (PWait c) rest) = Block
  | _ => True
  end.
Proof.
  revert q data. induction fuel as [|fuel IH]; intros q data; cbn [push];
    (destruct (Z.eqb_spec (Z.of_nat (length data)) 0) as [Hz|Hz]; [intros [= <- <-]|]).
  - destruct data; [apply star_one; reflexivity|simpl in Hz; lia].
  - by intros [= <- <-].
  - destruct data; [apply star_one; reflexivity|simpl in Hz; lia].
  - assert (data <> []) as Hne by (by intros ->). unfold waitFreeSpace.
    set (c := chunkSize _ _). destruct (Z.ltb_spec (freeSpace q) c) as [Hw|Hw]; cbn [with_queue].
    { intros [= <- <-]. exists c, data. split; [|done].
      eapply star_step; [|by apply free_wait_thread].
      thread_step. by rewrite (if_false (_ =? 0)) by lia. }
    destruct (copy_in _ _ _ _ _) as [buf| | | |] eqn:Hcp; cbn [with_queue];
      [|intros [= <- <-]; try done..].
    2: { exfalso. by eapply copy_in_no_block. }
    destruct (ring_index _ _) as [h'| | | |] eqn:Hh; cbn [with_queue]; [|intros [= <- <-]; try done..].
    2: { exfalso. revert Hh. unfold ring_index. by case_bool. }
    intros Hrec. apply IH in Hrec.
    pose proof (push_turn_thread q data buf h' Hne ltac:(lia) Hcp Hh) as Ht.
    destruct r; try done; [by eapply star_trans|].
    destruct Hrec as (c' & rest & Hs & Hb). exists c', rest. split; [by eapply star_trans|done].
Qed.

Lemma copy_out_thread q t want c n : forall i bytes out,
  copy_out (capacity q) t i n (buffer q) = Ok bytes -> i + Z.of_nat n = c ->
  star c_one (q, Consumer (CCopy c t i) want out) (q, Consumer (CStore c t) want (out ++ bytes)).
Proof.
  induction n as [|n IH]; intros i bytes out Hcp Hc; cbn [copy_out] in Hcp.
  - injection Hcp as <-. rewrite app_nil_r. apply star_one. thread_step.
    by rewrite (if_false (i <? c)) by lia.
  - destruct (ring_index (capacity q) (t + i)) as [k| | | |] eqn:Hk; try done. simpl in Hcp.
    destruct (zget (buffer q) k) as [b|] eqn:Hz; [|done].
    destruct (copy_out _ _ (i + 1) _ _) as [bytes'| | | |] eqn:Hcp'; try done. injection Hcp as <-.
    eapply star_step; [thread_step; rewrite (if_true (i <? c)) by lia; rewrite Hk; simpl; by rewrite Hz|].
    change (b :: bytes') with ([b] ++ bytes'). rewrite app_assoc. apply (IH (i + 1)); [done|lia].
Qed.

Lemma copy_out_no_block cap t i n buf : copy_out cap t i n buf <> Block.
Proof.
  revert i. induction n as [|n IH]; intros i; [done|]. cbn [copy_out]. unfold ring_index.
  case_bool; [done|]. simpl. destruct (zget _ _); [|done].
  specialize (IH (i + 1)). by destruct (copy_out cap t (i + 1) n buf).
Qed.

Lemma size_test_thread q n want out :
  star c_one (q, Consumer (CSizeHead Untimed n) want out)
    (q, Consumer (if size q <? n then CWait n else CTail n) want out).
Proof.
  eapply star_step; [reflexivity|]. apply star_one. thread_step. rewrite set_head_id. by case_bool.
Qed.

Lemma size_wait_thread q n want out :
  size q < n ->
  star c_one (q, Consumer (CSizeHead Untimed n) want out)
    (set_present q false, Consumer (CWait n) want out).
Proof.
  intros Hn. pose proof (size_test_thread q n want out) as Ht. rewrite (if_true (_ <? _)) in Ht by lia.
  eapply star_trans; [exact Ht|].
  destruct (dataPresentEvent q) eqn:He; [|rewrite set_present_id by done; constructor].
  eapply star_step; [thread_step; by rewrite He|].
  pose proof (size_test_thread (set_present q false) n want out) as Ht'.
  rewrite (if_true (_ <? _)) in Ht' by (apply Z.ltb_lt; exact Hn). exact Ht'.
Qed.

(** The turn of [pop] whose chunk is there, as steps. *)
Lemma pop_turn_thread q n out bytes t' :
  0 < n -> let c := chunkSize (capacity q) n in
  size q >= c -> copy_out (capacity q) (tail q) 0 (Z.to_nat c) (buffer q) = Ok bytes ->
  ring_index (capacity q) (tail q + c) = Ok t' ->
  star c_one (q, Consumer CLoop n out)
    (set_free (set_tail q t') true, Consumer CLoop (n - c) (out ++ bytes)).
Proof.
  intros Hn c Hsize Hcp Ht.
  assert (0 <= c) by (unfold c, chunkSize; pose proof (wrap_in_u 64 (capacity q - 1) ltac:(lia)) as [? _];
    case_bool; lia).
  eapply star_step; [thread_step; by rewrite (if_false (_ =? 0)) by lia|].
  eapply star_trans; [apply size_test_thread|]. fold c. rewrite (if_false (_ <? _)) by lia.
  eapply star_step; [reflexivity|].
  eapply star_trans; [eapply (copy_out_thread q (tail q) n c _ 0 _ out Hcp); lia|].
  eapply star_step; [thread_step; rewrite Ht; reflexivity|]. apply star_one. reflexivity.
Qed.

(** Run on its own, the thread that pops does what the sequential [pop] of SPSCQueue.v says: the
    same bytes go to the caller, the same queue is left, and it is stuck in its wait when [pop]
    waits. *)
Theorem pop_is_thread fuel q n acc out r q' :
  pop fuel q n acc = (r, q') -> 0 <= n ->
  match r with
  | Ok bytes => exists new, bytes = acc ++ new /\
      star c_one (q, Consumer CLoop n out) (q', Consumer CIdle 0 (out ++ new))
  | Block => exists c want out',
      star c_one (q, Consumer CLoop n out) (q', Consumer (CWait c) want out') /\
      consumer_step q' (Consumer (CWait c) want out') = Block
  | _ => True
  end.
Proof.
  revert q n acc out. induction fuel as [|fuel IH]; intros q n acc out; cbn [pop];
    (destruct (Z.eqb_spec n 0) as [->|Hz];
      [intros [= <- <-] _; exists []; rewrite !app_nil_r; split; [done|apply star_one; reflexivity]|]).
  - by intros [= <- <-].
  - unfold waitElemPresent. set (c := chunkSize _ _).
    destruct (Z.ltb_spec (size q) c) as [Hw|Hw]; cbn [with_queue].
    { intros [= <- <-] Hn. exists c, n, out. split; [|done].
      eapply star_step; [|by apply size_wait_thread].
      thread_step. by rewrite (if_false (_ =? 0)) by lia. }
    destruct (copy_out _ _ _ _ _) as [bytes| | | |] eqn:Hcp; cbn [with_queue];
      [|intros [= <- <-]; try done..].
    2: { exfalso. by eapply copy_out_no_block. }
    destruct (ring_index _ _) as [t'| | | |] eqn:Ht; cbn [with_queue]; [|intros [= <- <-]; try done..].
    2: { exfalso. revert Ht. unfold ring_index. by case_bool. }
    intros Hrec Hn.
    assert (c <= n) by (unfold c, chunkSize; case_bool; lia).
    apply (IH _ _ _ (out ++ bytes)) in Hrec; [|lia].
    pose proof (pop_turn_thread q n out bytes t' ltac:(lia) ltac:(lia) Hcp Ht) as Hturn.
    destruct r as [all| | | |]; try done.
    + destruct Hrec as (new & -> & Hs). exists (bytes ++ new). rewrite !app_assoc.
      split; [done|]. by eapply star_trans.
    + destruct Hrec as (c' & want & out' & Hs & Hb). exists c', want, out'.
      split; [by eapply star_trans|done].
Qed.

(** ** Witnesses: an actual interleaving *)

Inductive action := APush (data : list Z) | APop (n : Z) | APopTimed (n : Z) | AProducer | AConsumer.

Definition act (a : action) (s : system) : option system :=
  match a with
  | APush data =>
      match p_pc (pr s) with
      | PIdle => Some (System (sh s) (Producer PLoop data) (co s) (pushed s ++ data))
      | _ => None
      end
  | APop n | APopTimed n =>
      match c_pc (co s) with
      | CIdle =>
          if 0 <=? n then
            let entry := match a with APopTimed n => CTimed n | _ => CLoop end in
            Some (System (sh s) (pr s) (Consumer entry n (c_out (co s))) (pushed s))
          else None
      | _ => None
      end
  | AProducer =>
      match producer_step (sh s) (pr s) with
      | Ok (q', p') => Some (System q' p' (co s) (pushed s))
      | _ => None
      end
  | AConsumer =>
      match consumer_step (sh s) (co s) with
      | Ok (q', c') => Some (System q' (pr s) c' (pushed s))
      | _ => None
      end
  end.

Fixpoint schedule (acts : list action) (s : system) : option system :=
  match acts with [] => Some s | a :: acts' => s' ← act a s; schedule acts' s' end.

Lemma schedule_star acts s s' : schedule acts s = Some s' -> star step s s'.
Proof.
  revert s. induction acts as [|a acts IH]; intros s; simpl; [intros [= ->]; constructor|].
  destruct (act a s) as [s1|] eqn:E; simpl; [|done]. intros Hx.
  apply star_step with s1; [|by apply IH]. destruct a; simpl in E.
  - destruct (p_pc (pr s)) eqn:Ep; simplify_eq. by constructor.
  - destruct (c_pc (co s)) eqn:Ep; simplify_eq. destruct (Z.leb_spec 0 n); simplify_eq. by constructor.
  - destruct (c_pc (co s)) eqn:Ep; simplify_eq. destruct (Z.leb_spec 0 n); simplify_eq. by constructor.
  - destruct (producer_step _ _) as [[q' p']| | | |] eqn:Ep; simplify_eq. by constructor.
  - destruct (consumer_step _ _) as [[q' c']| | | |] eqn:Ec; simplify_eq. by constructor.
Qed.

(** Capacity 4: five bytes pushed in two chunks against a [pop] of two that begins before any of
    them is there, then a timed [pop] of three. *)
Definition demo : list action :=
  [APop 2] ++ replicate 3 AConsumer ++ [APush [10; 11; 12; 13; 14]] ++ replicate 12 AProducer
  ++ replicate 10 AConsumer ++ replicate 8 AProducer ++ [APopTimed 3].
Definition run_demo (acts : list action) : system :=
  default (with_buffer 4 [0; 0; 0; 0]) (schedule acts (with_buffer 4 [0; 0; 0; 0])).

Ltac demo_runs acts := apply (schedule_star acts); vm_compute; reflexivity.

(** A push, a pop that waits, and the push at the store it cannot make. *)
Definition constructed_acts : list action :=
  [APop 2; APush [10; 11]] ++ replicate 3 AConsumer ++ replicate 4 AProducer.
Definition constructed_end : system := default (initial 4) (schedule constructed_acts (initial 4)).


Lemma queue_threads_fifo_witness :
  [10; 11] `prefix_of` [10; 11; 12; 13; 14] /\
  [10; 11; 12; 13; 14] = [10; 11] ++ contents (sh (run_demo (take 35 demo))).
Proof.
  destruct (queue_threads_fifo 4 [0; 0; 0; 0] (run_demo (take 35 demo))) as [Hp Hq];
    [lia|reflexivity|demo_runs (take 35 demo)|].
  split; [exact Hp|by apply Hq].
Defined.

Lemma queue_threads_safe_witness :
  let s := run_demo (take 22 demo) in
  wf (sh s) /\ (producer_step (sh s) (pr s) = Block \/ returns (producer_step (sh s) (pr s))) /\
  (consumer_step (sh s) (co s) = Block \/ returns (consumer_step (sh s) (co s))).
Proof.
  apply (queue_threads_safe 4 [0; 0; 0; 0]); [lia|reflexivity|demo_runs (take 22 demo)].
Defined.

Lemma queue_no_lost_wakeup_witness : size (sh (run_demo (take 4 demo))) < 2.
Proof.
  apply (queue_no_lost_wakeup 4 [0; 0; 0; 0] (run_demo (take 4 demo)));
    [lia|reflexivity|demo_runs (take 4 demo)|reflexivity|reflexivity|].
  intros c H. vm_compute in H. discriminate H.
Defined.

Lemma queue_no_deadlock_witness :
  let s := run_demo (take 17 demo ++ [AProducer]) in
  returns (producer_step (sh s) (pr s)) \/ returns (consumer_step (sh s) (co s)).
Proof.
  apply (queue_no_deadlock 4 [0; 0; 0; 0] _ 2 2);
    [lia|reflexivity|demo_runs (take 17 demo ++ [AProducer])|reflexivity|reflexivity|vm_compute; congruence].
Defined.

Lemma timed_pop_returns_witness :
  let s := run_demo demo in
  let s' := System (sh s) (pr s) (Consumer (CSizeTail First 3 1) 3 [10; 11]) (pushed s) in
  Z.of_nat 2 <= 3 + 14 /\ (c_pc (co s') = CIdle \/ returns (consumer_step (sh s') (co s'))).
Proof.
  apply (timed_pop_returns 4 [0; 0; 0; 0] (run_demo demo) 3);
    [lia|reflexivity|demo_runs demo|reflexivity|reflexivity|].
  eapply mw_consumer; [vm_compute; reflexivity|]. eapply mw_consumer; [vm_compute; reflexivity|].
  apply mw_refl.
Defined.

Lemma push_is_thread_witness :
  star p_one (example_queue, Producer PLoop [30])
    (set_present (set_head (set_buffer example_queue [20; 30; 0; 10]) 2) true, Producer PIdle []).
Proof. by apply (push_is_thread 2 example_queue [30] (Ok tt)). Defined.

Lemma pop_is_thread_witness : exists new, [10; 20] = [] ++ new /\
  star c_one (example_queue, Consumer CLoop 2 [9])
    (set_free (set_tail example_queue 1) true, Consumer CIdle 0 ([9] ++ new)).
Proof. by apply (pop_is_thread 2 example_queue 2 [] [9] (Ok [10; 20])). Defined.
