(* ===== verification/QueueExample.v ===== *)
(** * A program on the in-process queue (examples/SPSCQueue/main.cpp)

    The example starts a thread that pushes the counters 0, 1, ... as eight bytes each, and a thread
    that pops them and counts those that are not what it expects.  It runs over the queue of
    QueueThreads.v, every access to shared memory interleaving with the other thread's.  The ring starts
    with a buffer of its capacity, which the constructor of the queue does not give it: the example as
    it is has undefined behaviour at its first push ([QueueThreads.constructed_queue_carries_nothing]),
    and what is shown here is that nothing else is wrong with it. *)

From S2P Require Import Prelude RingSafety SPSCQueue QueueThreads.

Definition QUEUE_SIZE : Z := 8 * 1024 * 1024.
Definition ELEM_COUNT : Z := 64 * 1024 * 1024.

(** ** The two bodies *)

(** [produced] and [consumed] are the loop counters of the two bodies; [popping]: the consumer is
    between its call of [pop] and the comparison. *)
Record example := Example_ { sys_ : system; produced : Z; consumed : Z; popping : bool; errorCount : Z }.

(** What [pop(&elem, sizeof(elem))] has left in [elem]: the last eight bytes handed out. *)
Definition elem (out : list Z) : Z := le_val (drop (length out - 8) out).

(** [producerBody] begins a push; [consumerBody] begins a pop, and compares what it got; each thread
    goes on inside the queue. *)
Inductive ex_step (N : Z) : example -> example -> Prop :=
  | ex_push e :
      p_pc (pr (sys_ e)) = PIdle -> produced e < N ->
      let s := sys_ e in
      let data := le_bytes 8 (produced e) in
      ex_step N e (Example_ (System (sh s) (Producer PLoop data) (co s) (pushed s ++ data))
                     (produced e + 1) (consumed e) (popping e) (errorCount e))
  | ex_pop e :
      c_pc (co (sys_ e)) = CIdle -> popping e = false -> consumed e < N ->
      let s := sys_ e in
      ex_step N e (Example_ (System (sh s) (pr s) (Consumer CLoop 8 (c_out (co s))) (pushed s))
                     (produced e) (consumed e) true (errorCount e))
  | ex_check e :
      c_pc (co (sys_ e)) = CIdle -> popping e = true ->
      ex_step N e (Example_ (sys_ e) (produced e) (consumed e + 1) false
                     (if elem (c_out (co (sys_ e))) =? consumed e then errorCount e
                      else u64 (errorCount e + 1)))
  | ex_producer e q' p' :
      producer_step (sh (sys_ e)) (pr (sys_ e)) = Ok (q', p') ->
      ex_step N e (Example_ (System q' p' (co (sys_ e)) (pushed (sys_ e)))
                     (produced e) (consumed e) (popping e) (errorCount e))
  | ex_consumer e q' c' :
      consumer_step (sh (sys_ e)) (co (sys_ e)) = Ok (q', c') ->
      ex_step N e (Example_ (System q' (pr (sys_ e)) c' (pushed (sys_ e)))
                     (produced e) (consumed e) (popping e) (errorCount e)).

Definition ex_initial (cap : Z) (buf : list Z) : example := Example_ (with_buffer cap buf) 0 0 false 0.

(** ** Invariants *)

(** The counters pushed so far. *)
Definition counters (n : Z) : list Z := concat ((le_bytes 8) <$> seqZ 0 n).

(** The consumer is in no timed [pop]. *)
Definition untimed (c : consumer) : Prop :=
  match c_pc c with
  | CTimed _ | CPoll _ | CSleep _ => False
  | CSizeHead m _ | CSizeTail m _ _ => m = Untimed
  | _ => True
  end.

(** How many bytes will have been handed out when the current operation ends. *)
Definition due (c : consumer) : Z :=
  Z.of_nat (length (c_out c)) + c_want c -
  match c_pc c with CCopy _ _ i => i | CStore n _ | CSignal n => n | _ => 0 end.

Record ex_inv (N : Z) (e : example) : Prop := {
  xi_pushed : pushed (sys_ e) = counters (produced e);
  xi_produced : 0 <= produced e <= N;
  xi_data : (length (p_data (pr (sys_ e))) <= 8)%nat;
  xi_untimed : untimed (co (sys_ e));
  xi_want : c_want (co (sys_ e)) <= 8;
  xi_due : due (co (sys_ e)) = 8 * (consumed e + if popping e then 1 else 0);
  xi_consumed : 0 <= consumed e <= N;
  xi_popping : if popping e then consumed e < N else c_pc (co (sys_ e)) = CIdle;
  xi_errors : errorCount e = 0 }.

Lemma length_counters n : 0 <= n -> Z.of_nat (length (counters n)) = 8 * n.
Proof.
  intros Hn. unfold counters. pose proof (length_seqZ 0 n) as Hs.
  assert (Hc : forall l, length (concat (le_bytes 8 <$> l)) = (8 * length l)%nat).
  { induction l as [|x l IH]; [done|]. rewrite fmap_cons. cbn [concat length].
    rewrite length_app, IH, length_le_bytes. lia. }
  rewrite Hc, Hs. lia.
Qed.

Lemma counters_succ n : 0 <= n -> counters (n + 1) = counters n ++ le_bytes 8 n.
Proof.
  intros Hn. unfold counters. rewrite seqZ_app by lia. rewrite fmap_app, concat_app, Z.add_0_l.
  replace (seqZ n 1) with [n] by (unfold seqZ; simpl; f_equal; lia).
  cbn [fmap list_fmap concat]. by rewrite app_nil_r.
Qed.

(** The counter at position [k] of the stream. *)
Lemma counters_elem n k :
  0 <= k < n -> n <= 2 ^ 63 -> elem (take (Z.to_nat (8 * (k + 1))) (counters n)) = k.
Proof.
  intros Hk Hn. unfold elem.
  assert (Hpre : counters n = counters (k + 1) ++ drop (Z.to_nat (8 * (k + 1))) (counters n)).
  { unfold counters. replace n with ((k + 1) + (n - (k + 1))) at 1 2 by lia.
    rewrite seqZ_app by lia. rewrite fmap_app, concat_app. f_equal.
    pose proof (length_counters (k + 1) ltac:(lia)) as Hl. unfold counters in Hl.
    by rewrite drop_app_length' by lia. }
  rewrite Hpre, take_app_length' by (pose proof (length_counters (k + 1) ltac:(lia)); lia).
  rewrite counters_succ by lia. rewrite length_app, length_le_bytes.
  rewrite drop_app_length' by lia. apply le_val_le_bytes_small. change (256 ^ Z.of_nat 8) with (2 ^ 64). lia.
Qed.

(** ** Every step keeps the invariant *)

Lemma producer_keeps_data q p q' p' :
  producer_step q p = Ok (q', p') -> (length (p_data p') <= length (p_data p))%nat.
Proof.
  destruct p as [pc data]. unfold producer_step. simpl.
  destruct pc; try done; repeat case_bool; intros; simplify_eq/=; try lia;
    try (destruct (dataFreeEvent q); simplify_eq/=; lia);
    try (destruct (ring_index _ _) as [k| | | |]; simplify_eq/=; try lia;
         destruct (zget _ _); simplify_eq/=; destruct (zset _ _ _); simplify_eq/=; lia).
  rewrite length_drop. lia.
Qed.

Lemma consumer_keeps_due q c q' c' :
  untimed c -> (forall n t i, c_pc c = CCopy n t i -> i <= n) ->
  consumer_step q c = Ok (q', c') -> untimed c' /\ due c' = due c.
Proof.
  destruct c as [pc want out]. unfold untimed, due, consumer_step. simpl. intros Hu Hi. revert Hu.
  destruct pc as [| |n|m n|m n h|n|n|n|n|n t i|n t|n]; try done; simpl; intros Hu; subst;
    try (specialize (Hi _ _ _ eq_refl));
    repeat case_bool; intros; simplify_eq/=; try done; try lia;
    try (destruct (dataPresentEvent q); simplify_eq/=; done);
    try (destruct (ring_index _ _) as [k| | | |]; simplify_eq/=; try done;
         destruct (zget _ _); simplify_eq/=; rewrite length_app; simpl; (split; [done|lia])).
Qed.

(** At a check the consumer has exactly the bytes of the counters up to the one it compares. *)
Lemma checked_elem N cap e :
  2 <= cap <= 2 ^ 63 -> N <= 2 ^ 60 -> ex_inv N e -> good (sys_ e) ->
  c_pc (co (sys_ e)) = CIdle -> popping e = true -> elem (c_out (co (sys_ e))) = consumed e.
Proof.
  intros Hcap HN [Hpu Hpr _ _ _ Hdue Hco _ _] (H & T & [_ Ho _ _ _ _ Hc]) Hpc Hpop.
  unfold due, c_inv in *. rewrite Hpc, Hpop in *. destruct Hc as (_ & _ & Hout & Hw). simpl in Hout.
  rewrite Z.add_0_r in Hout. pose proof (length_counters (produced e) ltac:(lia)) as Hl.
  rewrite Hpu in Ho. assert (T = 8 * (consumed e + 1)) as HT.
  { rewrite Hw in Hdue. rewrite Hout, length_take, Hpu in Hdue. lia. }
  rewrite Hout, Hpu, HT. apply counters_elem; lia.
Qed.

Lemma copy_bound s n t i : good s -> c_pc (co s) = CCopy n t i -> i <= n.
Proof. intros (H & T & Hinv) Hpc. destruct (qi_c _ _ _ Hinv) as (_ & _ & _ & Hc). rewrite Hpc in Hc. lia. Qed.

Lemma consumer_keeps_want s q' c' :
  good s -> consumer_step (sh s) (co s) = Ok (q', c') -> c_want c' <= c_want (co s).
Proof.
  intros (H & T & Hinv). destruct (qi_c _ _ _ Hinv) as (Hw & _ & _ & Hc). clear Hinv. revert Hc.
  unfold consumer_step. destruct (c_pc (co s)) as [| |n|m n|m n h|n|n|n|n|n t i|n t|n]; try done; simpl;
    intros Hc; repeat case_bool; intros; simplify_eq/=; try lia;
    try (destruct m; simpl; lia); try (destruct (dataPresentEvent _); simplify_eq/=; lia);
    try (destruct (ring_index _ _) as [k| | | |]; simplify_eq/=; try lia;
         destruct (zget _ _); simplify_eq/=; lia).
Qed.

Lemma ex_step_inv N cap buf e e' :
  2 <= cap <= 2 ^ 63 -> Z.of_nat (length buf) = cap -> N <= 2 ^ 60 ->
  star step (with_buffer cap buf) (sys_ e) /\ ex_inv N e -> ex_step N e e' ->
  star step (with_buffer cap buf) (sys_ e') /\ ex_inv N e'.
Proof.
  intros Hcap Hbuf HN [Hr Hx] Hs. pose proof (queue_reachable_good _ _ _ Hcap Hbuf Hr) as Hg.
  pose proof (checked_elem N cap e Hcap HN Hx Hg) as Helem. pose proof Hx as [Hpu Hpr Hd Hu Hwant Hdue Hco Hpo He].
  destruct Hs as [e Hpc Hlt s data|e Hpc Hpop Hlt s|e Hpc Hpop|e q' p' Hs|e q' c' Hs].
  - split; [eapply star_trans; [exact Hr|]; apply star_one; by constructor|].
    subst s data. split; simpl; try done; try lia. rewrite Hpu, counters_succ by lia. done.
  - split; [eapply star_trans; [exact Hr|]; apply star_one; by constructor|].
    subst s. split; simpl; try done; try lia. unfold due in *. simpl. rewrite Hpc, Hpop in *.
    destruct Hg as (H & T & Hinv). destruct (qi_c _ _ _ Hinv) as (_ & _ & _ & Hw).
    rewrite Hpc in Hw. lia.
  - split; [done|]. rewrite Hpop in *. split; simpl; try done; try lia.
    by rewrite Helem, Z.eqb_refl.
  - split; [eapply star_trans; [exact Hr|]; apply star_one; by constructor|].
    split; simpl; try done. pose proof (producer_keeps_data _ _ _ _ Hs). lia.
  - destruct (consumer_keeps_due _ _ _ _ Hu (fun n t i => copy_bound _ n t i Hg) Hs) as [Hu' Hd'].
    split; [eapply star_trans; [exact Hr|]; apply star_one; by constructor|].
    pose proof (consumer_keeps_want _ _ _ Hg Hs).
    split; simpl; try done; [lia|by rewrite Hd'|]. destruct (popping e); [done|].
    unfold consumer_step in Hs. by rewrite Hpo in Hs.
Qed.

Lemma ex_reachable N cap buf e :
  2 <= cap <= 2 ^ 63 -> Z.of_nat (length buf) = cap -> 0 <= N <= 2 ^ 60 ->
  star (ex_step N) (ex_initial cap buf) e -> star step (with_buffer cap buf) (sys_ e) /\ ex_inv N e.
Proof.
  intros Hcap Hbuf HN Hr.
  refine (star_invariant _ (fun e => star step (with_buffer cap buf) (sys_ e) /\ ex_inv N e) _ _ _ Hr _).
  - intros x y Hx Hs. by eapply ex_step_inv; [| | |exact Hx|exact Hs]; try lia.
  - split; [apply star_refl|]. split; simpl; try done; try lia.
Qed.

(** ** Theorems *)

(** The example counts no error: under every interleaving of the two threads, at every moment,
    each element popped so far was the one expected; and when the consumer's loop is over, it
    has received all the counters. *)
Theorem example_no_errors N cap buf e :
  2 <= cap <= 2 ^ 63 -> Z.of_nat (length buf) = cap -> 0 <= N <= 2 ^ 60 ->
  star (ex_step N) (ex_initial cap buf) e ->
  errorCount e = 0 /\ (consumed e = N -> c_out (co (sys_ e)) = counters N).
Proof.
  intros Hcap Hbuf HN Hr. destruct (ex_reachable _ _ _ _ Hcap Hbuf HN Hr) as [Hsys Hx].
  pose proof Hx as [Hpu Hpr Hd Hu Hwant Hdue Hco Hpo He]. split; [done|]. intros HcN.
  destruct (popping e); [lia|].
  destruct (queue_reachable_good _ _ _ Hcap Hbuf Hsys) as (H & T & [_ Ho _ _ _ _ Hc]).
  unfold due, c_inv in *. rewrite Hpo in *. destruct Hc as (_ & _ & Hout & Hw). simpl in Hout.
  pose proof (length_counters (produced e) ltac:(lia)) as Hl. rewrite Hpu in *.
  rewrite Hw, Hout, length_take in Hdue. assert (produced e = N) as HP by lia.
  rewrite Hout, HP in *. apply take_ge. lia.
Qed.

(** Both loops are over. *)
Definition finished (N : Z) (e : example) : Prop :=
  produced e = N /\ consumed e = N /\ p_pc (pr (sys_ e)) = PIdle.

Lemma producer_blocked s H T :
  q_inv s H T -> producer_step (sh s) (pr s) = Block ->
  p_pc (pr s) = PIdle \/ exists c, p_pc (pr s) = PWait c.
Proof.
  intros Hinv. pose proof (queue_producer_step_good _ _ _ Hinv) as Hg. unfold producer_step in *.
  destruct (p_pc (pr s)) as [| |c|c h|c|c|c h i|c h|c] eqn:Hpc; try done; eauto;
    repeat case_bool; try done; unfold ring_index; repeat case_bool; simpl; try done;
    by repeat case_match.
Qed.

Lemma consumer_blocked s H T :
  q_inv s H T -> consumer_step (sh s) (co s) = Block ->
  c_pc (co s) = CIdle \/ exists n, c_pc (co s) = CWait n.
Proof.
  intros Hinv. unfold consumer_step.
  destruct (c_pc (co s)) as [| |n|m n|m n h|n|n|n|n|n t i|n t|n] eqn:Hpc; try done; eauto;
    repeat case_bool; try done; unfold ring_index; repeat case_bool; simpl; try done;
    by repeat case_match.
Qed.

(** What the positions of the two threads say of the stream. *)
Lemma stream_positions N e H T :
  ex_inv N e -> q_inv (sys_ e) H T ->
  Z.of_nat (length (pushed (sys_ e))) = 8 * produced e /\
  (forall n, c_pc (co (sys_ e)) = CWait n -> n <= 8 /\ T + n <= 8 * N) /\
  (forall c, p_pc (pr (sys_ e)) = PWait c -> 0 < c <= 8 /\ H + c <= 8 * produced e) /\
  (c_pc (co (sys_ e)) = CIdle -> popping e = false -> T = 8 * consumed e).
Proof.
  intros [Hpu Hpr Hd Hu Hwant Hdue Hco Hpo He] [_ Ho _ _ _ (Hb & Hpd & Hp) (_ & _ & Hout & Hc)].
  pose proof (length_counters (produced e) ltac:(lia)) as Hl. rewrite <-Hpu in Hl.
  assert (Hlen : c_done (c_pc (co (sys_ e))) = 0 -> Z.of_nat (length (c_out (co (sys_ e)))) = T).
  { intros Hz. rewrite Hout, Hz, length_take. lia. }
  split_and!; [done|intros n Hpc|intros c Hpc|intros Hpc Hpop].
  - unfold due in Hdue. rewrite Hpc in *. specialize (Hlen eq_refl).
    destruct (popping e); [lia|done].
  - rewrite Hpc in *. simpl in *. rewrite Hpd, length_drop in Hd. lia.
  - unfold due in Hdue. rewrite Hpc, Hpop in *. specialize (Hlen eq_refl). lia.
Qed.

Lemma capacity_constant s s' : step s s' -> capacity (sh s') = capacity (sh s).
Proof.
  intros [x data Hpc|x n Hpc Hn|x n Hpc Hn|x q' p' Hs|x q' c' Hs]; try done; simpl.
  - revert Hs. unfold producer_step. destruct (p_pc (pr x)); try done; repeat case_bool; intros; simplify_eq/=;
      try done; try (destruct (dataFreeEvent _); simplify_eq/=; done);
      try (destruct (ring_index _ _) as [k| | | |]; simplify_eq/=; try done;
           destruct (zget _ _); simplify_eq/=; destruct (zset _ _ _); simplify_eq/=; done).
  - revert Hs. unfold consumer_step. destruct (c_pc (co x)); try done; repeat case_bool; intros; simplify_eq/=;
      try done; try (destruct (dataPresentEvent _); simplify_eq/=; done);
      try (destruct (ring_index _ _) as [k| | | |]; simplify_eq/=; try done;
           destruct (zget _ _); simplify_eq/=; done).
Qed.

(** The threads do not get stuck: as long as one of the two loops is not over, one of the threads
    can go on, over a ring with room for two counters. *)
Theorem example_never_stuck N cap buf e :
  16 <= cap <= 2 ^ 63 -> Z.of_nat (length buf) = cap -> 0 <= N <= 2 ^ 60 ->
  star (ex_step N) (ex_initial cap buf) e ->
  finished N e \/ exists e', ex_step N e e'.
Proof.
  intros Hcap Hbuf HN Hr. destruct (ex_reachable N cap buf e ltac:(lia) Hbuf HN Hr) as [Hsys Hx].
  destruct (queue_reachable_wake cap buf (sys_ e) ltac:(lia) Hbuf Hsys) as [(H & T & Hinv) Hw].
  assert (Hcapq : capacity (sh (sys_ e)) = cap).
  { refine (star_invariant step (fun s => capacity (sh s) = cap) _ _ _ Hsys eq_refl).
    intros x y Hxy Hs. by rewrite (capacity_constant _ _ Hs). }
  pose proof (queue_producer_step_good _ _ _ Hinv) as Hpg. pose proof (queue_consumer_step_good _ _ _ Hinv) as Hcg.
  destruct (producer_step (sh (sys_ e)) (pr (sys_ e))) as [[q' p']| | | |] eqn:Ep; try done;
    [right; eexists; by constructor|].
  destruct (consumer_step (sh (sys_ e)) (co (sys_ e))) as [[q' c']| | | |] eqn:Ec; try done;
    [right; eexists; by constructor|].
  destruct (stream_positions N e H T Hx Hinv) as (Hl & HC & HP & HI).
  destruct (inv_sizes _ _ _ Hinv) as [Hsize Hfree]. pose proof (qi_order _ _ _ Hinv) as Ho.
  pose proof (xi_produced _ _ Hx). pose proof (xi_consumed _ _ Hx).
  destruct (producer_blocked _ _ _ Hinv Ep) as [Hpp|[c Hpp]], (consumer_blocked _ _ _ Hinv Ec) as [Hcp|[n Hcp]].
  - destruct (decide (produced e < N)); [right; eexists; by apply ex_push|].
    destruct (popping e) eqn:Hpop; [right; eexists; by apply ex_check|].
    destruct (decide (consumed e < N)); [right; eexists; by apply ex_pop|].
    left. split_and!; (done || lia).
  - destruct (decide (produced e < N)); [right; eexists; by apply ex_push|]. exfalso.
    pose proof (waiting_consumer _ n Hw Hcp Ec ltac:(by rewrite Hpp)). specialize (HC n Hcp).
    destruct (qi_p _ _ _ Hinv) as (_ & _ & HH). rewrite Hpp in HH. lia.
  - destruct (popping e) eqn:Hpop; [right; eexists; by apply ex_check|].
    destruct (decide (consumed e < N)); [right; eexists; by apply ex_pop|]. exfalso.
    specialize (HI Hcp eq_refl). specialize (HP c Hpp). lia.
  - exfalso. specialize (HC n Hcp). specialize (HP c Hpp).
    pose proof (waiting_consumer _ n Hw Hcp Ec ltac:(by rewrite Hpp)).
    pose proof (waiting_producer _ c Hw Hpp Ep ltac:(by rewrite Hcp)). lia.
Qed.

(** ** An actual run *)

(** A scheduler: the consumer when it can, otherwise the producer, otherwise the next turn of a
    loop. *)
Definition ex_next (N : Z) (e : example) : option example :=
  let s := sys_ e in
  match consumer_step (sh s) (co s) with
  | Ok (q', c') =>
      Some (Example_ (System q' (pr s) c' (pushed s)) (produced e) (consumed e) (popping e) (errorCount e))
  | _ =>
      match producer_step (sh s) (pr s) with
      | Ok (q', p') =>
          Some (Example_ (System q' p' (co s) (pushed s)) (produced e) (consumed e) (popping e) (errorCount e))
      | _ =>
          match c_pc (co s), p_pc (pr s) with
          | CIdle, _ =>
              if popping e then
                Some (Example_ s (produced e) (consumed e + 1) false
                       (if elem (c_out (co s)) =? consumed e then errorCount e else u64 (errorCount e + 1)))
              else if consumed e <? N then
                Some (Example_ (System (sh s) (pr s) (Consumer CLoop 8 (c_out (co s))) (pushed s))
                       (produced e) (consumed e) true (errorCount e))
              else None
          | _, PIdle =>
              if produced e <? N then
                Some (Example_ (System (sh s) (Producer PLoop (le_bytes 8 (produced e))) (co s)
                                 (pushed s ++ le_bytes 8 (produced e)))
                       (produced e + 1) (consumed e) (popping e) (errorCount e))
              else None
          | _, _ => None
          end
      end
  end.
Fixpoint ex_run (N : Z) (fuel : nat) (e : example) : example :=
  match fuel with
  | O => e
  | S fuel' => match ex_next N e with Some e' => ex_run N fuel' e' | None => e end
  end.

Lemma ex_next_step N e e' : ex_next N e = Some e' -> ex_step N e e'.
Proof.
  unfold ex_next. destruct (consumer_step _ _) as [[q' c']| | | |] eqn:Ec;
    [intros [= <-]; by constructor|..].
  all: destruct (producer_step _ _) as [[q' p']| | | |] eqn:Ep; [intros [= <-]; by constructor|..].
  all: destruct (c_pc (co (sys_ e))) eqn:Hc; try (destruct (p_pc (pr (sys_ e))) eqn:Hp; try done).
  all: try (destruct (popping e) eqn:Hpop; [intros [= <-]; by apply ex_check|]).
  all: repeat case_bool; intros [= <-]; first [by apply ex_pop | by apply ex_push].
Qed.

Lemma ex_run_star N fuel e : star (ex_step N) e (ex_run N fuel e).
Proof.
  revert e. induction fuel as [|fuel IH]; intros e; simpl; [constructor|].
  destruct (ex_next N e) as [e'|] eqn:He; [|constructor]. econstructor; [by apply ex_next_step|apply IH].
Qed.

(** Three counters through a ring of sixteen bytes. *)
Definition three : example := ex_run 3 400 (ex_initial 16 (replicate 16 0)).

Lemma example_no_errors_witness :
  errorCount three = 0 /\ c_out (co (sys_ three)) = counters 3.
Proof.
  destruct (example_no_errors 3 16 (replicate 16 0) three) as [He Hc];
    [lia|reflexivity|lia|apply ex_run_star|].
  split; [exact He|]. apply Hc. vm_compute. reflexivity.
Defined.

Lemma example_never_stuck_witness :
  let e := ex_run 3 7 (ex_initial 16 (replicate 16 0)) in
  finished 3 e \/ exists e', ex_step 3 e e'.
Proof.
  apply (example_never_stuck 3 16 (replicate 16 0)); [lia|reflexivity|lia|apply ex_run_star].
Defined.
