(* ===== verification/IpcExample.v ===== *)
(** * A program on the interprocess queue (examples/SPSCQueue/main.cpp, the second pair of threads)

    [producerBodyIpc] pushes the counters 0, 1, ... as eight bytes each and [consumerBodyIpc] pops them
    and counts those that are not what it expects.  The two threads share one [InterprocessQueue],
    of which each uses its own half of the private fields; they run over the ring of
    RingWeak.v, so the result holds under the memory orders of the code and for every wait
    policy, that is, for every build.  IpcRun.v shows that the pair comes to an end. *)

From S2P Require Import Prelude ByteRing RingSafety RingWeak QueueExample.

Section IpcExample.
Context `{WP : WaitPolicy}.

(** The loop counters of the two bodies; [ipc_popping]: the consumer is between its call of [pop]
    and the comparison. *)
Record ipc_example := IpcExample_ {
  ipc : weak_system; ipc_produced : Z; ipc_consumed : Z; ipc_popping : bool; ipc_errorCount : Z }.

Definition with_ipc (e : ipc_example) (s : weak_system) : ipc_example :=
  IpcExample_ s (ipc_produced e) (ipc_consumed e) (ipc_popping e) (ipc_errorCount e).

(** [ipcQueue.push(&i, sizeof(i))] and [ipcQueue.pop(&elem, sizeof(elem))] begin. *)
Definition ipc_begin_push (s : weak_system) (i : Z) : weak_system := begin_push (le_bytes 8 i) s.
Definition ipc_begin_pop (s : weak_system) : weak_system := begin_pop 8 s.

(** What the two bodies do between their calls: begin the next one, compare what was popped. *)
Inductive ipc_loop (N : Z) : ipc_example -> ipc_example -> Prop :=
  | ipc_push e :
      p_pc (w_pr (ipc e)) = PIdle -> ipc_produced e < N ->
      ipc_loop N e (IpcExample_ (ipc_begin_push (ipc e) (ipc_produced e)) (ipc_produced e + 1)
                      (ipc_consumed e) (ipc_popping e) (ipc_errorCount e))
  | ipc_pop e :
      c_pc (w_co (ipc e)) = CIdle -> ipc_popping e = false -> ipc_consumed e < N ->
      ipc_loop N e (IpcExample_ (ipc_begin_pop (ipc e)) (ipc_produced e) (ipc_consumed e) true
                      (ipc_errorCount e))
  | ipc_check e :
      c_pc (w_co (ipc e)) = CIdle -> ipc_popping e = true ->
      ipc_loop N e (IpcExample_ (ipc e) (ipc_produced e) (ipc_consumed e + 1) false
                      (if elem (c_out (w_co (ipc e))) =? ipc_consumed e then ipc_errorCount e
                       else u64 (ipc_errorCount e + 1))).

Inductive ipc_step (N : Z) : ipc_example -> ipc_example -> Prop :=
  | ipc_bodies e e' : ipc_loop N e e' -> ipc_step N e e'
  | ipc_producer e k m w v p :
      let s := ipc e in
      weak_producer_step ring_orders k (mem s) (wt s) (p_view s) (w_pr s) = Ok (m, w, v, p) ->
      ipc_step N e (with_ipc e (WSystem m w v (c_view s) p (w_co s) (w_pushed s)))
  | ipc_consumer e k m w v c :
      let s := ipc e in
      weak_consumer_step ring_orders k (mem s) (wt s) (c_view s) (w_co s) = Ok (m, w, v, c) ->
      ipc_step N e (with_ipc e (WSystem m w (p_view s) v (w_pr s) c (w_pushed s))).

Definition ipc_initial (cap : Z) (buf : list Z) (w : wstate) : ipc_example :=
  IpcExample_ (weak_initial cap buf w) 0 0 false 0.

(** ** Invariant *)

Record ipc_inv (N : Z) (e : ipc_example) : Prop := {
  ii_pushed : w_pushed (ipc e) = counters (ipc_produced e);
  ii_produced : 0 <= ipc_produced e <= N;
  ii_due : ring_due (w_co (ipc e)) = 8 * (ipc_consumed e + if ipc_popping e then 1 else 0);
  ii_consumed : 0 <= ipc_consumed e <= N;
  ii_popping : if ipc_popping e then ipc_consumed e < N else c_pc (w_co (ipc e)) = CIdle;
  ii_errors : ipc_errorCount e = 0 }.

(** A step of the consumer over weak memory is one of [consumer_step] on what it sees. *)
Lemma weak_consumer_sees Ord k m wt v c m' wt' v' c' :
  weak_consumer_step Ord k m wt v c = Ok (m', wt', v', c') ->
  exists sh sh', consumer_step sh c = Ok (sh', c').
Proof.
  assert (forall sh (f : shared -> memory * wstate * view), 
    ('(sh', c') ← consumer_step sh c; Ok (f sh', c')) = Ok (m', wt', v', c') ->
    exists sh sh', consumer_step sh c = Ok (sh', c')) as Hgen.
  { intros sh f Hs. destruct (consumer_step sh c) as [[sh' c0]| | | |] eqn:E; simplify_eq/=. eauto. }
  unfold weak_consumer_step. destruct (c_pc c); try apply (Hgen _ (fun sh' => (m, waiter sh', v))).
  - destruct (atomic_load _ _ _ _) as [[h v0]|]; [|done].
    apply (Hgen _ (fun sh' => (m, waiter sh', v0))).
  - destruct (_ && _); [done|].
    apply (Hgen _ (fun sh' => (Memory (heads m) (tails m) (cells m) (wrote m) _, waiter sh', v))).
  - apply (Hgen _ (fun sh' => (Memory (heads m) (tails m ++ [_]) (cells m) (wrote m) (was_read m), waiter sh', _))).
Qed.

(** At a check the consumer has exactly the bytes of the counters up to the one it compares. *)
Lemma ipc_checked N cap e :
  N <= 2 ^ 60 -> ipc_inv N e -> weak_good cap (ipc e) ->
  c_pc (w_co (ipc e)) = CIdle ->
  c_out (w_co (ipc e)) =
    take (Z.to_nat (8 * (ipc_consumed e + if ipc_popping e then 1 else 0))) (counters (ipc_produced e)).
Proof.
  intros HN [Hpu Hpr Hdue Hco _ _] Hg Hpc. destruct (weak_good_out _ _ Hg) as (_ & Hw & Hout).
  unfold ring_due in Hdue. rewrite Hpc, (Hw Hpc) in Hdue. rewrite Hout, Hpu. f_equal. lia.
Qed.

Lemma ipc_loop_inv N cap e e' :
  N <= 2 ^ 60 -> weak_good cap (ipc e) -> ipc_inv N e -> ipc_loop N e e' ->
  weak_good cap (ipc e') /\ ipc_inv N e'.
Proof.
  intros HN Hg Hx Hs. pose proof (ipc_checked N cap e HN Hx Hg) as Hout.
  pose proof Hx as [Hpu Hpr Hdue Hco Hpo He]. destruct (weak_good_out _ _ Hg) as (_ & Hwant & Hall).
  destruct Hs as [e Hpc Hlt|e Hpc Hpop Hlt|e Hpc Hpop].
  - split; [by eapply weak_step_good, (weak_push ring_orders)|].
    split; simpl; try done; try lia. by rewrite Hpu, counters_succ by lia.
  - split; [by eapply weak_step_good, (weak_pop ring_orders)|]. split; simpl; try done; try lia.
    specialize (Hwant Hpc). unfold ring_due in *. simpl. rewrite Hpc, Hpop in Hdue. lia.
  - split; [done|]. rewrite Hpop in *. split; simpl; try done; try lia.
    assert (ipc_consumed e < ipc_produced e) as Hlt.
    { pose proof (length_counters (ipc_produced e) ltac:(lia)) as Hl.
      unfold ring_due in Hdue. rewrite Hpc, (Hwant Hpc), Hall, length_take, Hpu in Hdue. lia. }
    by rewrite Hout, counters_elem, Z.eqb_refl by (done || lia).
Qed.

(** Inside the calls nothing changes that the bodies rely on. *)
Lemma ipc_ring_inv N e s :
  ipc_inv N e -> w_pushed s = w_pushed (ipc e) -> ring_due (w_co s) = ring_due (w_co (ipc e)) ->
  (c_pc (w_co (ipc e)) = CIdle -> c_pc (w_co s) = CIdle) -> ipc_inv N (with_ipc e s).
Proof.
  intros [Hpu Hpr Hdue Hco Hpo He] Hs Hd Hc. split; simpl; try done; [by rewrite Hs|by rewrite Hd|].
  destruct (ipc_popping e); auto.
Qed.

Lemma ipc_step_inv N cap e e' :
  N <= 2 ^ 60 -> weak_good cap (ipc e) /\ ipc_inv N e -> ipc_step N e e' ->
  weak_good cap (ipc e') /\ ipc_inv N e'.
Proof.
  intros HN [Hg Hx] Hs. destruct (weak_good_out _ _ Hg) as (Hcopy & _).
  destruct Hs as [e e' Hs|e k m wt0 v p s Hs|e k m wt0 v c s Hs]; [by eapply ipc_loop_inv|split..].
  - by eapply weak_step_good, (weak_producer ring_orders _ k).
  - by apply ipc_ring_inv.
  - by eapply weak_step_good, (weak_consumer ring_orders _ k).
  - destruct (weak_consumer_sees _ _ _ _ _ _ _ _ _ _ Hs) as (sh & sh' & Hc).
    destruct (ring_keeps_due _ _ _ _ Hcopy Hc) as [Hni Hd]. by apply ipc_ring_inv.
Qed.

(** When its loop is over the consumer has had all the counters. *)
Lemma ipc_finished N cap e :
  N <= 2 ^ 60 -> weak_good cap (ipc e) -> ipc_inv N e -> ipc_consumed e = N ->
  c_out (w_co (ipc e)) = counters N.
Proof.
  intros HN Hg Hx HcN. pose proof (ii_popping _ _ Hx) as Hpo. pose proof (ii_produced _ _ Hx) as Hpr.
  pose proof (ipc_checked N cap e HN Hx Hg) as Hout.
  destruct (weak_good_out _ _ Hg) as (_ & Hwant & _). pose proof (ii_due _ _ Hx) as Hdue.
  destruct (ipc_popping e); [lia|]. specialize (Hout Hpo).
  pose proof (length_counters (ipc_produced e) ltac:(lia)) as Hl.
  unfold ring_due in Hdue. rewrite Hpo, (Hwant Hpo), Hout, length_take in Hdue.
  assert (ipc_produced e = N) as HP by lia. rewrite Hout, HP in *. apply take_ge. lia.
Qed.

Lemma ipc_initial_inv N cap buf w :
  cap_ok cap -> Z.of_nat (length buf) = cap -> 0 <= N ->
  weak_good cap (ipc (ipc_initial cap buf w)) /\ ipc_inv N (ipc_initial cap buf w).
Proof. intros Hcap Hbuf HN. split; [by apply weak_initial_good|]. split; simpl; try done; lia. Qed.

(** The second pair of threads of the example counts no error: under every interleaving,
    release/acquire memory and any wait policy, each element popped is the one expected; no step of
    either thread is undefined; and when the consumer's loop is over, it has received all the
    counters. *)
Theorem ipc_example_no_errors N cap buf w e k :
  cap_ok cap -> Z.of_nat (length buf) = cap -> 0 <= N <= 2 ^ 60 ->
  star (ipc_step N) (ipc_initial cap buf w) e ->
  ipc_errorCount e = 0 /\
  (ipc_consumed e = N -> c_out (w_co (ipc e)) = counters N) /\
  ~ undefined (weak_producer_step ring_orders k (mem (ipc e)) (wt (ipc e)) (p_view (ipc e)) (w_pr (ipc e))) /\
  ~ undefined (weak_consumer_step ring_orders k (mem (ipc e)) (wt (ipc e)) (c_view (ipc e)) (w_co (ipc e))).
Proof.
  intros Hcap Hbuf HN Hr.
  assert (weak_good cap (ipc e) /\ ipc_inv N e) as [Hg Hx].
  { refine (star_invariant _ (fun e => weak_good cap (ipc e) /\ ipc_inv N e) _ _ _ Hr _);
      [|apply ipc_initial_inv; [done|done|lia]].
    intros x y Hx Hs. eapply ipc_step_inv; [|exact Hx|exact Hs]. lia. }
  split_and!; [apply (ii_errors _ _ Hx)|by apply (ipc_finished N cap e ltac:(lia))|intros [y Hy]|intros [y Hy]].
  - destruct Hg as (hs & ts & H & T & T' & H' & Hi).
    pose proof (weak_producer_good _ _ _ _ _ _ _ _ k Hi) as Hp. by rewrite Hy in Hp.
  - destruct Hg as (hs & ts & H & T & T' & H' & Hi).
    pose proof (weak_consumer_good _ _ _ _ _ _ _ _ k Hi) as Hp. by rewrite Hy in Hp.
Qed.
End IpcExample.

(** ** An actual run *)

(** A scheduler that lets the two threads take turns; unless it is to be [fresh], a load reads the
    message before the newest one if it may. *)
Definition try_loads {A} (fresh : bool) (n : nat) (f : nat -> res A) : res A :=
  if fresh then f (n - 1)%nat
  else match f (n - 2)%nat with Ok a => Ok a | _ => f (n - 1)%nat end.

Definition ipc_next `{WP : WaitPolicy} (N : Z) (turn fresh : bool) (e : ipc_example) : option ipc_example :=
  let s := ipc e in
  if turn then
    match p_pc (w_pr s) with
    | PIdle =>
        if ipc_produced e <? N then
          Some (IpcExample_ (ipc_begin_push s (ipc_produced e)) (ipc_produced e + 1) (ipc_consumed e)
                  (ipc_popping e) (ipc_errorCount e))
        else None
    | _ =>
        match try_loads fresh (length (tails (mem s)))
          (fun k => weak_producer_step ring_orders k (mem s) (wt s) (p_view s) (w_pr s)) with
        | Ok (m, w, v, p) => Some (with_ipc e (WSystem m w v (c_view s) p (w_co s) (w_pushed s)))
        | _ => None
        end
    end
  else
    match c_pc (w_co s) with
    | CIdle =>
        if ipc_popping e then
          Some (IpcExample_ s (ipc_produced e) (ipc_consumed e + 1) false
                  (if elem (c_out (w_co s)) =? ipc_consumed e then ipc_errorCount e
                   else u64 (ipc_errorCount e + 1)))
        else if ipc_consumed e <? N then
          Some (IpcExample_ (ipc_begin_pop s) (ipc_produced e) (ipc_consumed e) true (ipc_errorCount e))
        else None
    | _ =>
        match try_loads fresh (length (heads (mem s)))
          (fun k => weak_consumer_step ring_orders k (mem s) (wt s) (c_view s) (w_co s)) with
        | Ok (m, w, v, c) => Some (with_ipc e (WSystem m w (p_view s) v (w_pr s) c (w_pushed s)))
        | _ => None
        end
    end.

Fixpoint ipc_run `{WP : WaitPolicy} (N : Z) (fuel : nat) (turn : bool) (e : ipc_example) : ipc_example :=
  match fuel with
  | O => e
  | S fuel' => ipc_run N fuel' (negb turn) (default e (ipc_next N turn (fuel' mod 5 =? 0)%nat e))
  end.

Lemma try_loads_ok {A} fresh n (f : nat -> res A) a : try_loads fresh n f = Ok a -> exists k, f k = Ok a.
Proof. unfold try_loads. destruct fresh; [eauto|]. destruct (f (n - 2)%nat) eqn:E; eauto. intros [= <-]. eauto. Qed.

Lemma ipc_next_step `{WP : WaitPolicy} N turn fresh e e' : ipc_next N turn fresh e = Some e' -> ipc_step N e e'.
Proof.
  unfold ipc_next. destruct turn.
  - assert (forall r, try_loads fresh (length (tails (mem (ipc e)))) (fun k => weak_producer_step ring_orders k
      (mem (ipc e)) (wt (ipc e)) (p_view (ipc e)) (w_pr (ipc e))) = r ->
      match r with Ok (m, w, v, p) => Some (with_ipc e (WSystem m w v (c_view (ipc e)) p
        (w_co (ipc e)) (w_pushed (ipc e)))) | _ => None end = Some e' -> ipc_step N e e') as Hp.
    { intros [[[[m w] v] p]| | | |]; try done. intros [k Hk]%try_loads_ok [= <-].
      by apply (ipc_producer N e k). }
    destruct (p_pc (w_pr (ipc e))) eqn:Hpc; try (by apply Hp).
    case_bool; intros [= <-]. by apply ipc_bodies, ipc_push.
  - assert (forall r, try_loads fresh (length (heads (mem (ipc e)))) (fun k => weak_consumer_step ring_orders k
      (mem (ipc e)) (wt (ipc e)) (c_view (ipc e)) (w_co (ipc e))) = r ->
      match r with Ok (m, w, v, c) => Some (with_ipc e (WSystem m w (p_view (ipc e)) v (w_pr (ipc e))
        c (w_pushed (ipc e)))) | _ => None end = Some e' -> ipc_step N e e') as Hc.
    { intros [[[[m w] v] p]| | | |]; try done. intros [k Hk]%try_loads_ok [= <-].
      by apply (ipc_consumer N e k). }
    destruct (c_pc (w_co (ipc e))) eqn:Hpc; try (by apply Hc).
    destruct (ipc_popping e) eqn:Hpop; [intros [= <-]; by apply ipc_bodies, ipc_check|].
    case_bool; intros [= <-]. by apply ipc_bodies, ipc_pop.
Qed.

Lemma ipc_run_star `{WP : WaitPolicy} N fuel turn e : star (ipc_step N) e (ipc_run N fuel turn e).
Proof.
  revert turn e. induction fuel as [|fuel IH]; intros turn e; simpl; [constructor|].
  destruct (ipc_next N turn _ e) as [e'|] eqn:He; simpl; [|apply IH].
  econstructor; [by eapply ipc_next_step|apply IH].
Qed.

(** Three counters through a ring of eleven bytes. *)
Definition ipc_three : ipc_example :=
  ipc_run (WP := SLIntPrQueueLockPolicy) 3 400 true
    (ipc_initial (WP := SLIntPrQueueLockPolicy) 11 (replicate 11 0) tt).

Lemma ipc_example_no_errors_witness :
  ipc_errorCount ipc_three = 0 /\ c_out (w_co (ipc ipc_three)) = counters 3.
Proof.
  destruct (ipc_example_no_errors (WP := SLIntPrQueueLockPolicy) 3 11 (replicate 11 0) tt ipc_three 0)
    as (He & Hc & _); [unfold cap_ok; lia|reflexivity|lia|apply ipc_run_star|].
  split; [exact He|]. apply Hc. vm_compute. reflexivity.
Defined.
