(* ===== verification/MemoryStream.v ===== *)
(** * Memory streams (headers/stream/MemoryStream.h)

    [MemoryStreamBuf] is a stream buffer over a block of memory; [MemoryOStream] and
    [MemoryIStream] put the standard library's [basic_ostream] and [basic_istream] on top of
    it.  The buffer's virtual functions are modelled from the code; [write], [read], [tellp]
    and [tellg] are the unformatted operations of the language's streams: [write] sets
    [badbit] when the buffer takes fewer bytes than asked, [read] sets [failbit] when it gets
    fewer, and neither does anything on a stream that has already failed. *)

From S2P Require Import Prelude.

(** ** The stream buffer *)

Record membuf := MemBuf { buffer : list Z; bufferSize : Z; pos : Z }.

Definition MemoryStreamBuf (buffer : list Z) (bufferSize : Z) : membuf :=
  MemBuf buffer bufferSize 0.

Definition EOF : Z := -1.

(** [buffer[pos++] = b] and [buffer[pos++]]. *)
Definition put (m : membuf) (b : Z) : res membuf :=
  match zset (buffer m) (pos m) b with
  | Some buf => Ok (MemBuf buf (bufferSize m) (pos m + 1))
  | None => UB "write outside the buffer"
  end.
Definition take_byte (m : membuf) : res (Z * membuf) :=
  match zget (buffer m) (pos m) with
  | Some b => Ok (b, MemBuf (buffer m) (bufferSize m) (pos m + 1))
  | None => UB "read outside the buffer"
  end.

Fixpoint put_all (m : membuf) (bs : list Z) : res membuf :=
  match bs with
  | [] => Ok m
  | b :: bs' => m' ← put m b; put_all m' bs'
  end.
Fixpoint take_all (n : nat) (m : membuf) : res (list Z * membuf) :=
  match n with
  | O => Ok ([], m)
  | S n' =>
      '(b, m') ← take_byte m;
      '(bs, m'') ← take_all n' m';
      Ok (b :: bs, m'')
  end.

Definition xsputn (m : membuf) (bs : list Z) : res (Z * membuf) :=
  let toWrite := Z.min (Z.of_nat (length bs)) (bufferSize m - pos m) in
  m' ← put_all m (take (Z.to_nat toWrite) bs);
  Ok (toWrite, m').

Definition xsgetn (m : membuf) (count : Z) : res (list Z * membuf) :=
  let toRead := Z.min count (bufferSize m - pos m) in
  take_all (Z.to_nat toRead) m.

Definition overflow (m : membuf) (c : Z) : res (Z * membuf) :=
  if pos m >=? bufferSize m then Ok (EOF, m) else m' ← put m (u8 c); Ok (c, m').

Definition underflow (m : membuf) : res (Z * membuf) :=
  if pos m >=? bufferSize m then Ok (EOF, m) else take_byte m.

Definition seekoff (m : membuf) : Z := pos m.

Definition sync (m : membuf) : Z := 0.

(** ** The streams *)

(** [failed]: [failbit] or [badbit] is set. *)
Record stream := Stream { rdbuf : membuf; failed : bool }.

Definition MemoryOStream (buffer : list Z) (bufferSize : Z) : stream :=
  Stream (MemoryStreamBuf buffer bufferSize) false.
Definition MemoryIStream (buffer : list Z) (bufferSize : Z) : stream :=
  Stream (MemoryStreamBuf buffer bufferSize) false.

Definition write (out : stream) (bs : list Z) : res stream :=
  if failed out then Ok out
  else
    '(n, m) ← xsputn (rdbuf out) bs;
    Ok (Stream m (n <? Z.of_nat (length bs))).

(** [read(ptr, n)] yields the bytes it stored at [ptr], at most [n]. *)
Definition read (inp : stream) (n : Z) : res (list Z * stream) :=
  if failed inp then Ok ([], inp)
  else
    '(bs, m) ← xsgetn (rdbuf inp) n;
    Ok (bs, Stream m (Z.of_nat (length bs) <? n)).

Definition tellp (out : stream) : Z := if failed out then -1 else seekoff (rdbuf out).
Definition tellg (inp : stream) : Z := if failed inp then -1 else seekoff (rdbuf inp).

(** ** Specification *)

(** A buffer over memory that is really there, positioned inside it. *)
Record mem_ok (m : membuf) : Prop := MemOk {
  mem_size : bufferSize m <= Z.of_nat (length (buffer m));
  mem_pos : 0 <= pos m <= bufferSize m }.

(** Bytes written so far, bytes still to read, room left. *)
Definition written (m : membuf) : list Z := take (Z.to_nat (pos m)) (buffer m).
Definition rest (m : membuf) : list Z :=
  drop (Z.to_nat (pos m)) (take (Z.to_nat (bufferSize m)) (buffer m)).
Definition room (m : membuf) : Z := bufferSize m - pos m.

Lemma put_all_spec m bs :
  mem_ok m -> Z.of_nat (length bs) <= room m ->
  exists m', put_all m bs = Ok m' /\ mem_ok m' /\ written m' = written m ++ bs /\
    room m' = room m - Z.of_nat (length bs) /\ bufferSize m' = bufferSize m /\
    length (buffer m') = length (buffer m) /\ pos m' = pos m + Z.of_nat (length bs).
Proof.
  unfold room. revert m. induction bs as [|b bs IH]; intros m [Hs Hp] Hr.
  - exists m. rewrite app_nil_r. simpl in *. split_and!; (done || lia).
  - cbn [put_all length] in *. unfold put. rewrite zset_is_Some by lia. cbn [mbind res_bind].
    edestruct (IH (MemBuf (<[Z.to_nat (pos m):=b]> (buffer m)) (bufferSize m) (pos m + 1)))
      as (m' & Hm' & Hok & Hw & Hroom & Hb & Hl & Hpos); simpl in *; try lia.
    { split; simpl; rewrite ?length_insert; lia. }
    rewrite length_insert in Hl. exists m'. split_and!; try done; try lia.
    rewrite Hw. unfold written. simpl. rewrite Z2Nat.inj_add, Nat.add_1_r by lia.
    erewrite take_S_lookup by (apply list_lookup_insert_eq; lia).
    rewrite take_insert_ge by lia. by rewrite <- app_assoc.
Qed.

Lemma take_all_spec n m :
  mem_ok m -> Z.of_nat n <= room m ->
  take_all n m = Ok (take n (rest m), MemBuf (buffer m) (bufferSize m) (pos m + Z.of_nat n)).
Proof.
  unfold room. revert m. induction n as [|n IH]; intros m [Hs Hp] Hr.
  - simpl. destruct m; simpl. by rewrite Z.add_0_r.
  - cbn [take_all]. unfold take_byte.
    destruct (zget_is_Some (buffer m) (pos m)) as [b Hb]; [lia|].
    rewrite Hb. cbn [mbind res_bind]. rewrite IH by (split || idtac; simpl; lia).
    cbn [mbind res_bind buffer bufferSize pos]. rewrite zget_nonneg in Hb by lia.
    assert (rest m = b :: rest (MemBuf (buffer m) (bufferSize m) (pos m + 1))) as ->.
    { unfold rest. simpl. rewrite Z2Nat.inj_add, Nat.add_1_r by lia.
      apply drop_S. by rewrite lookup_take_lt by lia. }
    simpl. do 3 f_equal. lia.
Qed.

Lemma rest_room m : mem_ok m -> Z.of_nat (length (rest m)) = room m.
Proof. intros [Hs Hp]. unfold rest, room. rewrite length_drop, length_take. lia. Qed.

Lemma stream_write_spec out bs :
  mem_ok (rdbuf out) -> failed out = false ->
  exists out', write out bs = Ok out' /\ mem_ok (rdbuf out') /\
    written (rdbuf out') = written (rdbuf out) ++ take (Z.to_nat (room (rdbuf out))) bs /\
    failed out' = (room (rdbuf out) <? Z.of_nat (length bs)).
Proof.
  intros Hok Hf. pose proof Hok as [Hs Hp]. unfold write. rewrite Hf. unfold xsputn.
  fold (room (rdbuf out)). assert (0 <= room (rdbuf out)) by (unfold room; lia).
  set (k := Z.min _ _).
  destruct (put_all_spec (rdbuf out) (take (Z.to_nat k) bs) Hok) as (m' & Hm & Hok' & Hw & _).
  { rewrite length_take. lia. }
  rewrite Hm. cbn [mbind res_bind]. eexists. split; [reflexivity|]. simpl.
  split_and!; [done| |subst k; destruct (Z.ltb_spec (room (rdbuf out)) (Z.of_nat (length bs)));
    [apply Z.ltb_lt|apply Z.ltb_ge]; lia].
  rewrite Hw. f_equal. subst k. destruct (Z.leb_spec (Z.of_nat (length bs)) (room (rdbuf out))).
  - rewrite Z.min_l, !take_ge by lia. done.
  - by rewrite Z.min_r by lia.
Qed.

(** A stream write never leaves its buffer, and what it does depends on the room only:
    when the bytes fit they are appended and the stream stays good, when they do not the
    buffer is filled with the part that fits and the stream fails. *)
Theorem stream_write out bs :
  mem_ok (rdbuf out) -> failed out = false ->
  exists out', write out bs = Ok out' /\ mem_ok (rdbuf out') /\
    written (rdbuf out') = written (rdbuf out) ++ take (Z.to_nat (room (rdbuf out))) bs /\
    failed out' = (room (rdbuf out) <? Z.of_nat (length bs)).
Proof. apply stream_write_spec. Qed.

Lemma stream_read_spec inp n :
  mem_ok (rdbuf inp) -> failed inp = false -> 0 <= n ->
  exists inp', read inp n = Ok (take (Z.to_nat n) (rest (rdbuf inp)), inp') /\
    mem_ok (rdbuf inp') /\ rest (rdbuf inp') = drop (Z.to_nat n) (rest (rdbuf inp)) /\
    failed inp' = (room (rdbuf inp) <? n) /\ bufferSize (rdbuf inp') = bufferSize (rdbuf inp).
Proof.
  intros Hok Hf Hn. pose proof Hok as [Hs Hp]. unfold read. rewrite Hf. unfold xsgetn.
  fold (room (rdbuf inp)). assert (0 <= room (rdbuf inp)) by (unfold room; lia).
  pose proof (rest_room (rdbuf inp) Hok) as Hlen.
  rewrite take_all_spec by (done || lia). cbn [mbind res_bind].
  assert (take (Z.to_nat (Z.min n (room (rdbuf inp)))) (rest (rdbuf inp)) =
          take (Z.to_nat n) (rest (rdbuf inp))) as ->.
  { destruct (Z.leb_spec n (room (rdbuf inp))); [by rewrite Z.min_l|].
    by rewrite Z.min_r, !take_ge by lia. }
  eexists. split; [reflexivity|]. simpl. split_and!.
  - split; simpl; unfold room in *; lia.
  - unfold rest at 1. simpl. unfold rest. rewrite drop_drop.
    destruct (Z.leb_spec n (room (rdbuf inp))).
    + rewrite Z.min_l by lia. f_equal. lia.
    + rewrite !drop_ge; [done|..]; rewrite length_take; unfold room in *; lia.
  - rewrite length_take. destruct (Z.ltb_spec (room (rdbuf inp)) n);
      [apply Z.ltb_lt|apply Z.ltb_ge]; lia.
  - done.
Qed.


(** A stream read never leaves its buffer: it returns the next bytes, as many as asked
    if they are there; otherwise all that are left, and the stream fails. *)
Theorem stream_read inp n :
  mem_ok (rdbuf inp) -> failed inp = false -> 0 <= n ->
  exists inp', read inp n = Ok (take (Z.to_nat n) (rest (rdbuf inp)), inp') /\
    mem_ok (rdbuf inp') /\ rest (rdbuf inp') = drop (Z.to_nat n) (rest (rdbuf inp)) /\
    failed inp' = (room (rdbuf inp) <? n) /\ bufferSize (rdbuf inp') = bufferSize (rdbuf inp).
Proof. apply stream_read_spec. Qed.

(** [underflow] is the peek of the stream buffer and must leave the position alone; here
    it moves it, so peeking twice reads two different bytes. *)
Theorem underflow_consumes m b1 b2 :
  mem_ok m -> rest m = b1 :: b2 -> 
  exists m', underflow m = Ok (b1, m') /\ rest m' = b2.
Proof.
  intros Hok Hr. pose proof Hok as [Hs Hp].
  assert (0 < room m) as Hroom.
  { apply (f_equal length) in Hr. unfold rest, room in *.
    rewrite length_drop, length_take in Hr. simpl in Hr. lia. }
  unfold underflow. unfold room in Hroom. case_bool; [lia|].
  pose proof (take_all_spec 1 m Hok) as Ht. unfold room in Ht. rewrite Hr in Ht.
  unfold take_byte in *. destruct (zget_is_Some (buffer m) (pos m)) as [b Hb]; [lia|].
  rewrite Hb. specialize (Ht ltac:(lia)). simpl in Ht. unfold take_byte in Ht. rewrite Hb in Ht.
  simpl in Ht. injection Ht as ->. eexists. split; [reflexivity|].
  transitivity (drop 1 (rest m)); [|by rewrite Hr].
  unfold rest. simpl buffer. simpl bufferSize. simpl pos. rewrite drop_drop. f_equal. lia.
Qed.

(** ** Concrete streams *)

Lemma stream_write_witness :
  exists out', write (MemoryOStream [0; 0; 0] 3) [1; 2; 3; 4] = Ok out' /\
    mem_ok (rdbuf out') /\ written (rdbuf out') = [1; 2; 3] /\ failed out' = true.
Proof.
  apply (stream_write (MemoryOStream [0; 0; 0] 3) [1; 2; 3; 4]); [split; simpl; lia|reflexivity].
Defined.

Lemma stream_read_witness :
  exists inp', read (MemoryIStream [1; 2; 3] 3) 2 = Ok ([1; 2], inp') /\
    mem_ok (rdbuf inp') /\ rest (rdbuf inp') = [3] /\ failed inp' = false /\
    bufferSize (rdbuf inp') = 3.
Proof.
  apply (stream_read (MemoryIStream [1; 2; 3] 3) 2); [split; simpl; lia|reflexivity|lia].
Defined.

Lemma underflow_consumes_witness :
  exists m', underflow (MemoryStreamBuf [1; 2] 2) = Ok (1, m') /\ rest m' = [2].
Proof.
  apply (underflow_consumes (MemoryStreamBuf [1; 2] 2) 1 [2]); [split; simpl; lia|reflexivity].
Defined.
