(* ===== verification/BinarySerializer.v ===== *)
(** * The binary serializer (headers/dataSerialization/BinarySerializer.h)

    The templates branch on the type at compile time: [void], a fundamental type, or anything
    else, which they refuse at run time.  A fundamental type of [w] bits is stored as its
    [w/8] bytes, little endian (the object representation on the supported platforms); a
    floating-point value is the unsigned integer with the same representation. *)

From S2P Require Import Prelude Numbers MemoryStream.

(** ** Object representation *)

Definition sizeof (t : ity) : nat := Z.to_nat (width t / 8).

(** The types [std::is_fundamental] holds of, [void] apart. *)
Definition fundamental (t : ity) : Prop :=
  width t = 8 \/ width t = 16 \/ width t = 32 \/ width t = 64.
#[global] Instance fundamental_dec t : Decision (fundamental t).
Proof. unfold fundamental. apply _. Defined.

Definition object_bytes (t : ity) (z : Z) : list Z := le_bytes (sizeof t) (wrap (width t) z).
Definition bytes_object (t : ity) (bs : list Z) : Z := c_cast t (le_val bs).

(** ** The serializer *)

Inductive ctype := TVoid | TFund (t : ity) | TOther.

(** Method A: into a new vector. *)
Definition serialize (T : ctype) (data : Z) : res (list Z) :=
  match T with
  | TVoid => Ok []
  | TFund t => Ok (object_bytes t data)
  | TOther => Throw "Unsupported data type"
  end.

(** Storing bytes at the beginning of a block of memory. *)
Definition store (mem bs : list Z) : res (list Z) :=
  if (length bs <=? length mem)%nat then Ok (bs ++ drop (length bs) mem)
  else UB "write outside the buffer".
Definition load (mem : list Z) (n : nat) : res (list Z) :=
  if (n <=? length mem)%nat then Ok (take n mem) else UB "read outside the buffer".

(** Method B: into a block the caller says is [outBufferSize] bytes long. *)
Definition serialize_to (T : ctype) (data : Z) (outBuffer : list Z) (outBufferSize : Z)
  : res (list Z) :=
  match T with
  | TVoid => Ok outBuffer
  | TFund t =>
      if outBufferSize <? Z.of_nat (sizeof t) then Throw "outBuffer too short"
      else store outBuffer (object_bytes t data)
  | TOther => Throw "Unsupported data type"
  end.

(** Method C: to a stream. *)
Definition serialize_stream (T : ctype) (data : Z) (out : stream) : res stream :=
  match T with
  | TVoid => Ok out
  | TFund t => write out (object_bytes t data)
  | TOther => Throw "Unsupported data type"
  end.

Definition serializedSize (T : ctype) : res Z :=
  match T with
  | TVoid => Ok 0
  | TFund t => Ok (Z.of_nat (sizeof t))
  | TOther => Throw "Unsupported data type"
  end.

(** The value of a [void] expression is written 0. *)
Definition deserialize (T : ctype) (inBuffer : list Z) (inBufferSize : Z) : res Z :=
  match T with
  | TVoid => Ok 0
  | TFund t =>
      if inBufferSize <? Z.of_nat (sizeof t) then Throw "Invalid inBufferSize"
      else bs ← load inBuffer (sizeof t); Ok (bytes_object t bs)
  | TOther => Throw "Unsupported data type"
  end.

Definition deserialize_stream (T : ctype) (inp : stream) : res (Z * stream) :=
  match T with
  | TVoid => Ok (0, inp)
  | TFund t =>
      '(bs, inp') ← read inp (Z.of_nat (sizeof t));
      if failed inp' then Throw "Invalid inStream in" else Ok (bytes_object t bs, inp')
  | TOther => Throw "Unsupported data type"
  end.

(** The overloads for [ISerializable], whose virtual [serialize()] yields [dataBytes]. *)
Definition iserializable_serialize (dataBytes : list Z) : res (list Z) := Ok dataBytes.
Definition iserializable_serialize_to (dataBytes outBuffer : list Z) (outBufferSize : Z)
  : res (list Z) :=
  let dataSize := Z.of_nat (length dataBytes) in
  if dataSize >? outBufferSize then Throw "outBuffer too short"
  else store outBuffer dataBytes.
Definition iserializable_serialize_stream (dataBytes : list Z) (out : stream) : res stream :=
  write out dataBytes.
Definition iserializable_size (dataBytes : list Z) : Z := Z.of_nat (length dataBytes).

(** ** Several values, one after the other *)

Abbreviation arg := (ity * Z)%type.
Definition arg_ok (a : arg) : Prop := fundamental a.1 /\ in_ty a.1 a.2.
Definition arg_bytes (a : arg) : list Z := object_bytes a.1 a.2.

(** [(serializer.serialize(args, out), ...)], in order. *)
Fixpoint serialize_args (args : list arg) (out : stream) : res stream :=
  match args with
  | [] => Ok out
  | (t, z) :: args' => out' ← serialize_stream (TFund t) z out; serialize_args args' out'
  end.

(** Deserialising values of the given types, in order. *)
Fixpoint deserialize_args (ts : list ity) (inp : stream) : res (list Z * stream) :=
  match ts with
  | [] => Ok ([], inp)
  | t :: ts' =>
      '(z, inp') ← deserialize_stream (TFund t) inp;
      '(zs, inp'') ← deserialize_args ts' inp';
      Ok (z :: zs, inp'')
  end.

Definition args_bytes (args : list arg) : list Z := concat (arg_bytes <$> args).

(** ** Lemmas *)

Lemma fundamental_ok t : fundamental t -> ity_ok t.
Proof. unfold fundamental, ity_ok. lia. Qed.

Lemma sizeof_width t : fundamental t -> 256 ^ Z.of_nat (sizeof t) = 2 ^ width t.
Proof. unfold fundamental, sizeof. intros [-> | [-> | [-> | ->]]]; reflexivity. Qed.

Lemma length_object_bytes t z : length (object_bytes t z) = sizeof t.
Proof. apply length_le_bytes. Qed.

Lemma object_roundtrip t z :
  fundamental t -> in_ty t z -> bytes_object t (object_bytes t z) = z.
Proof.
  intros Hf Hz. unfold bytes_object, object_bytes.
  rewrite le_val_le_bytes, sizeof_width by done. unfold wrap. rewrite Zmod_mod.
  transitivity (c_cast t z); [|by apply c_cast_id; [apply fundamental_ok|]].
  unfold c_cast. by rewrite Zmod_mod.
Qed.

Lemma length_args_bytes args :
  length (args_bytes args) = list_sum ((fun a => sizeof a.1) <$> args).
Proof.
  induction args as [|a args IH]; [done|].
  change (args_bytes (a :: args)) with (arg_bytes a ++ args_bytes args).
  rewrite length_app, IH. unfold arg_bytes. by rewrite length_object_bytes.
Qed.

#[export] Hint Rewrite length_object_bytes length_args_bytes : len.

(** Round trip of a value: whichever way it was written (a vector, a caller's buffer that
    is long enough), reading the same type back gives the same value. *)
Theorem value_roundtrip t z mem :
  fundamental t -> in_ty t z -> (sizeof t <= length mem)%nat ->
  exists bytes mem', serialize (TFund t) z = Ok bytes /\
    serializedSize (TFund t) = Ok (Z.of_nat (length bytes)) /\
    deserialize (TFund t) bytes (Z.of_nat (length bytes)) = Ok z /\
    serialize_to (TFund t) z mem (Z.of_nat (length mem)) = Ok mem' /\
    deserialize (TFund t) mem' (Z.of_nat (length mem')) = Ok z /\
    mem' = bytes ++ drop (length bytes) mem.
Proof.
  intros Hf Hz Hm. pose proof (length_object_bytes t z) as Hl.
  exists (object_bytes t z), (object_bytes t z ++ drop (sizeof t) mem).
  cbn [serialize serializedSize serialize_to deserialize]. rewrite length_app, length_drop, Hl.
  unfold store, load. rewrite length_app, length_drop, Hl.
  rewrite (proj2 (Nat.leb_le (sizeof t) (length mem))),
    (proj2 (Nat.leb_le _ (sizeof t + (length mem - sizeof t)))) by lia.
  repeat (case_bool; [lia|]). rewrite Nat.leb_refl. cbn [mbind res_bind].
  rewrite take_app_length', take_ge, object_roundtrip by (done || lia).
  split_and!; try case_bool; (done || lia).
Qed.

(** A buffer that is too short is refused before anything is written or read. *)
Theorem short_buffer_refused t z mem n :
  n < Z.of_nat (sizeof t) ->
  serialize_to (TFund t) z mem n = Throw "outBuffer too short" /\
  deserialize (TFund t) mem n = Throw "Invalid inBufferSize".
Proof. intros Hn. cbn [serialize_to deserialize]. by case_bool; [|lia]. Qed.

(** Serialising to a stream with enough room appends the bytes. *)
Lemma serialize_stream_app t z out :
  mem_ok (rdbuf out) -> failed out = false ->
  Z.of_nat (sizeof t) <= room (rdbuf out) ->
  exists out', serialize_stream (TFund t) z out = Ok out' /\ mem_ok (rdbuf out') /\
    failed out' = false /\ written (rdbuf out') = written (rdbuf out) ++ object_bytes t z /\
    room (rdbuf out') = room (rdbuf out) - Z.of_nat (sizeof t) /\
    bufferSize (rdbuf out') = bufferSize (rdbuf out) /\
    length (buffer (rdbuf out')) = length (buffer (rdbuf out)).
Proof.
  intros Hok Hf Hr. unfold serialize_stream, write. rewrite Hf. unfold xsputn.
  rewrite length_object_bytes. fold (room (rdbuf out)). rewrite Z.min_l by lia.
  rewrite Nat2Z.id, take_ge by (rewrite length_object_bytes; lia).
  destruct (put_all_spec (rdbuf out) (object_bytes t z) Hok) as (m & -> & ? & ? & ? & ? & ? & ?).
  { rewrite length_object_bytes. lia. }
  cbn [mbind res_bind]. eexists. split; [reflexivity|]. simpl.
  rewrite length_object_bytes in *. rewrite Z.ltb_irrefl. by split_and!.
Qed.

Lemma serialize_args_app args out :
  mem_ok (rdbuf out) -> failed out = false ->
  Z.of_nat (length (args_bytes args)) <= room (rdbuf out) ->
  exists out', serialize_args args out = Ok out' /\ mem_ok (rdbuf out') /\
    failed out' = false /\ written (rdbuf out') = written (rdbuf out) ++ args_bytes args /\
    room (rdbuf out') = room (rdbuf out) - Z.of_nat (length (args_bytes args)) /\
    bufferSize (rdbuf out') = bufferSize (rdbuf out) /\
    length (buffer (rdbuf out')) = length (buffer (rdbuf out)).
Proof.
  revert out. induction args as [|[t z] args IH]; intros out Hok Hf Hr.
  - exists out. cbn [args_bytes concat fmap list_fmap length]. rewrite app_nil_r.
    split_and!; (done || lia).
  - change (args_bytes ((t, z) :: args)) with (object_bytes t z ++ args_bytes args) in *.
    rewrite length_app, length_object_bytes in Hr. cbn [serialize_args].
    destruct (serialize_stream_app t z out Hok Hf) as (o1 & -> & Hok1 & Hf1 & Hw1 & Hr1 & Hb1 & Hl1);
      [lia|].
    cbn [mbind res_bind].
    destruct (IH o1 Hok1 Hf1) as (o2 & -> & Hok2 & Hf2 & Hw2 & Hr2 & Hb2 & Hl2); [lia|].
    exists o2. rewrite Hw2, Hw1, length_app, length_object_bytes, <- app_assoc.
    split_and!; (done || lia).
Qed.

Lemma deserialize_args_rest args inp more :
  Forall arg_ok args -> mem_ok (rdbuf inp) -> failed inp = false ->
  rest (rdbuf inp) = args_bytes args ++ more ->
  exists inp', deserialize_args (fst <$> args) inp = Ok (snd <$> args, inp') /\
    mem_ok (rdbuf inp') /\ failed inp' = false /\ rest (rdbuf inp') = more.
Proof.
  intros Hall. revert inp. induction Hall as [|[t z] args [Hf Hz] _ IH]; intros inp Hok Hfail Hr.
  - by exists inp.
  - change (args_bytes ((t, z) :: args)) with (object_bytes t z ++ args_bytes args) in Hr.
    rewrite <- app_assoc in Hr. simpl in Hf, Hz.
    cbn [fmap list_fmap fst snd deserialize_args deserialize_stream].
    destruct (stream_read_spec inp (Z.of_nat (sizeof t)) Hok Hfail) as (i1 & -> & Hok1 & Hr1 & Hf1 & _);
      [lia|].
    rewrite Nat2Z.id, Hr in *. cbn [mbind res_bind].
    assert (failed i1 = false) as Hfail1.
    { rewrite Hf1. apply Z.ltb_ge. rewrite <- rest_room, Hr by done.
      rewrite length_app, length_object_bytes. lia. }
    rewrite Hfail1, take_app_length' by (by rewrite length_object_bytes).
    rewrite drop_app_length' in Hr1 by (by rewrite length_object_bytes).
    rewrite object_roundtrip by done. cbn [mbind res_bind].
    destruct (IH i1 Hok1 Hfail1 Hr1) as (i2 & -> & ?). by exists i2.
Qed.

Lemma args_roundtrip_spec args mem :
  Forall arg_ok args -> length mem = length (args_bytes args) ->
  exists out inp,
    serialize_args args (MemoryOStream mem (Z.of_nat (length mem))) = Ok out /\
    failed out = false /\ buffer (rdbuf out) = args_bytes args /\
    deserialize_args (fst <$> args)
      (MemoryIStream (buffer (rdbuf out)) (Z.of_nat (length mem))) = Ok (snd <$> args, inp) /\
    rest (rdbuf inp) = [].
Proof.
  intros Hall Hlen.
  destruct (serialize_args_app args (MemoryOStream mem (Z.of_nat (length mem))))
    as (out & Hs & Hok & Hf & Hw & Hr & Hb & Hl); simpl; try done.
  { split; simpl; lia. }
  { unfold room. simpl. lia. }
  assert (buffer (rdbuf out) = args_bytes args) as Hbuf.
  { unfold room in Hr. simpl in *. unfold written in Hw. simpl in Hw.
    rewrite take_ge in Hw by lia. done. }
  destruct (deserialize_args_rest args
    (MemoryIStream (buffer (rdbuf out)) (Z.of_nat (length mem))) [] Hall) as (inp & Hd & ? & ? & ?).
  - simpl in Hl. split; simpl; lia.
  - done.
  - unfold rest. simpl. rewrite Hbuf, app_nil_r, drop_0, take_ge; [done|lia].
  - by exists out, inp.
Qed.

(** C12. Round trip of a sequence of values through memory streams: what the serializer writes
    into a buffer of the total size fills it exactly, and reading the same types from it
    yields the same values in the same order. *)
Theorem args_roundtrip args mem :
  Forall arg_ok args -> length mem = length (args_bytes args) ->
  exists out inp,
    serialize_args args (MemoryOStream mem (Z.of_nat (length mem))) = Ok out /\
    failed out = false /\ buffer (rdbuf out) = args_bytes args /\
    deserialize_args (fst <$> args)
      (MemoryIStream (buffer (rdbuf out)) (Z.of_nat (length mem))) = Ok (snd <$> args, inp) /\
    rest (rdbuf inp) = [].
Proof. apply args_roundtrip_spec. Qed.

(** ** Concrete values *)

Lemma value_roundtrip_witness :
  exists bytes mem', serialize (TFund int32_t) (-2) = Ok bytes /\
    serializedSize (TFund int32_t) = Ok (Z.of_nat (length bytes)) /\
    deserialize (TFund int32_t) bytes (Z.of_nat (length bytes)) = Ok (-2) /\
    serialize_to (TFund int32_t) (-2) [9; 9; 9; 9; 9] 5 = Ok mem' /\
    deserialize (TFund int32_t) mem' (Z.of_nat (length mem')) = Ok (-2) /\
    mem' = bytes ++ drop (length bytes) [9; 9; 9; 9; 9].
Proof.
  apply (value_roundtrip int32_t (-2) [9; 9; 9; 9; 9]);
    [by vm_compute; auto|by vm_compute|vm_compute; lia].
Defined.

Lemma short_buffer_refused_witness :
  serialize_to (TFund uint64_t) 7 [0; 0; 0; 0] 4 = Throw "outBuffer too short" /\
  deserialize (TFund uint64_t) [0; 0; 0; 0] 4 = Throw "Invalid inBufferSize".
Proof. by apply (short_buffer_refused uint64_t 7 [0; 0; 0; 0] 4). Defined.

Definition example_args : list arg := [(uint8_t, 200); (int16_t, -3); (uint32_t, 70000)].

Lemma example_args_ok : Forall arg_ok example_args.
Proof. repeat constructor; vm_compute; auto; intros; discriminate. Qed.

Lemma args_roundtrip_witness :
  exists out inp,
    serialize_args example_args (MemoryOStream (replicate 7 0) 7) = Ok out /\
    failed out = false /\ buffer (rdbuf out) = [200; 253; 255; 112; 17; 1; 0] /\
    deserialize_args (fst <$> example_args) (MemoryIStream (buffer (rdbuf out)) 7) =
      Ok ([200; -3; 70000], inp) /\
    rest (rdbuf inp) = [].
Proof. apply (args_roundtrip example_args (replicate 7 0)); [exact example_args_ok|reflexivity]. Defined.
