(* ===== verification/Reflection.v ===== *)
(** * Reflection and its clients (headers/reflection/Property.h, Comparable.h,
    headers/serialization/Binary.h, Tree.h)

    A class with a static tuple [properties] lists pointers to its members with a name each;
    [binarySerialize], [binaryDeserialize], [buildTree] and [equals] are templates that walk
    the tuple in order.  A class is modelled by that tuple, an object by its members; a member
    is of a fundamental type, of a class with properties, or of another type, for which
    [toBinary] and [fromBinary] are declared in Binary.h but left to the user to define.

    A member of a floating-point type is its bits, and [equals] compares it as C++ does: a value that
    is not a number equals nothing, and the two zeros are equal. *)

From S2P Require Import Prelude Numbers MemoryStream BinarySerializer.

Set Warnings "-register-all".

(** ** Classes and objects *)

(** The floating-point types, in the representation of IEEE 754. *)
Inductive float_type := float | double.
#[global] Instance float_type_eq_dec : EqDecision float_type.
Proof. solve_decision. Defined.
Definition float_bits (f : float_type) : ity :=
  match f with float => Ity false 32 | double => Ity false 64 end.

(** A [Property] is a pointer to member, a name and the type of the member: an integer type, a
    floating-point one, a class with properties or another type. *)
Inductive ty :=
  | Fund (t : ity)
  | Float (f : float_type)
  | Plain (type_name : string)
  | Class (properties : list (string * string * ty)).

Definition property : Type := string * string * ty.
Definition makeProperty (member name : string) (T : ty) : property := (member, name, T).
Definition member (p : property) : string := p.1.1.
Definition prop_name (p : property) : string := p.1.2.
Definition prop_type (p : property) : ty := p.2.

Definition HasProperties (T : ty) : bool := match T with Class _ => true | _ => false end.

(** A floating-point value is the bits that represent it. *)
Inductive val :=
  | VNum (z : Z)
  | VFloat (f : float_type) (bits : Z)
  | VPlain (s : string)
  | VObj (members : list (string * val)).

Fixpoint assoc (m : string) (l : list (string * val)) : option val :=
  match l with
  | [] => None
  | (k, v) :: l' => if String.eqb k m then Some v else assoc m l'
  end.
Fixpoint assoc_set (m : string) (x : val) (l : list (string * val)) : list (string * val) :=
  match l with
  | [] => []
  | (k, v) :: l' => if String.eqb k m then (k, x) :: l' else (k, v) :: assoc_set m x l'
  end.

(** [object.*(prop.member)], read and written. *)
Definition get_member (v : val) (m : string) : option val :=
  match v with VObj l => assoc m l | _ => None end.
Definition set_member (v : val) (m : string) (x : val) : val :=
  match v with VObj l => VObj (assoc_set m x l) | _ => v end.

(** The object has every member its properties point to, with the declared type. *)
Fixpoint has_type (T : ty) (v : val) : Prop :=
  match T with
  | Fund t => fundamental t /\ exists z, v = VNum z /\ in_ty t z
  | Float f => exists z, v = VFloat f z /\ in_ty (float_bits f) z
  | Plain _ => exists s, v = VPlain s
  | Class ps =>
      (fix all (ps : list property) : Prop :=
         match ps with
         | [] => True
         | (m, _, T') :: ps' => (exists x, get_member v m = Some x /\ has_type T' x) /\ all ps'
         end) ps
  end.

(** ** Comparable.h *)

(** [==] on floating-point numbers: a NaN (all exponent bits set and some bit of the fraction) is
    equal to nothing, and the two zeros are equal. *)
Definition magnitude (f : float_type) (bits : Z) : Z := bits mod 2 ^ (width (float_bits f) - 1).
Definition infinity (f : float_type) : Z :=
  match f with float => 255 * 2 ^ 23 | double => 2047 * 2 ^ 52 end.
Definition is_nan (f : float_type) (bits : Z) : bool := infinity f <? magnitude f bits.
Definition float_eq (f : float_type) (x y : Z) : bool :=
  negb (is_nan f x) && negb (is_nan f y) &&
  ((x =? y) || (magnitude f x =? 0) && (magnitude f y =? 0)).

(** [==] on two members of a type without properties. *)
Definition value_eq (a b : val) : bool :=
  match a, b with
  | VNum x, VNum y => x =? y
  | VFloat f x, VFloat g y => bool_decide (f = g) && float_eq f x y
  | VPlain x, VPlain y => String.eqb x y
  | _, _ => false
  end.

(** [self.*m == o.*m]: built in, the class's own [operator==], or that of the other type. *)
Fixpoint equals (T : ty) (a b : val) : bool :=
  match T with
  | Fund _ | Float _ | Plain _ => value_eq a b
  | Class ps =>
      (fix go (ps : list property) (equality : bool) : bool :=
         match ps with
         | [] => equality
         | (m, _, T') :: ps' =>
             go ps' (equality &&
               match get_member a m, get_member b m with
               | Some x, Some y => equals T' x y
               | _, _ => false
               end)
         end) ps true
  end.

(** ** Tree.h *)

Inductive tree :=
  | Leaf (name : string) (value : val)
  | Node (name : string) (children : list tree).

Fixpoint buildTreeNode (name : string) (T : ty) (object : val) : tree :=
  match T with
  | Class ps =>
      Node name
        ((fix go (ps : list property) : list tree :=
            match ps with
            | [] => []
            | (m, n, T') :: ps' =>
                match get_member object m with
                | Some x => buildTreeNode n T' x :: go ps'
                | None => go ps'
                end
            end) ps)
  | _ => Leaf name object
  end.

Definition buildTree (name : string) (T : ty) (o : val) : tree := buildTreeNode name T o.

(** ** Binary.h *)

(** The representation of a fundamental type in memory; the bytes that [read] does not provide keep
    their old value. *)
Definition fundamentalToBinary (t : ity) (object : Z) (out : stream) : res stream :=
  write out (object_bytes t object).
Definition binaryToFundamental (t : ity) (object : Z) (inp : stream) : res (Z * stream) :=
  '(bs, inp') ← read inp (Z.of_nat (sizeof t));
  Ok (bytes_object t (bs ++ drop (length bs) (object_bytes t object)), inp').

Section Binary.
Context (toBinary : string -> string -> stream -> res stream).
Context (fromBinary : string -> stream -> res (string * stream)).

Fixpoint binarySerialize (T : ty) (object : val) (out : stream) : res stream :=
  match T with
  | Fund t => match object with
              | VNum z => fundamentalToBinary t z out
              | _ => UB "not a number"
              end
  | Float f => match object with
               | VFloat _ z => fundamentalToBinary (float_bits f) z out
               | _ => UB "not a number"
               end
  | Plain n => match object with VPlain s => toBinary n s out | _ => UB "wrong type" end
  | Class ps =>
      (fix go (ps : list property) (out : stream) : res stream :=
         match ps with
         | [] => Ok out
         | (m, _, T') :: ps' =>
             match get_member object m with
             | Some x => out' ← binarySerialize T' x out; go ps' out'
             | None => UB "no such member"
             end
         end) ps out
  end.

Fixpoint binaryDeserialize (T : ty) (object : val) (inp : stream) : res (val * stream) :=
  match T with
  | Fund t => match object with
              | VNum z => '(z', inp') ← binaryToFundamental t z inp; Ok (VNum z', inp')
              | _ => UB "not a number"
              end
  | Float f => match object with
               | VFloat _ z => '(z', inp') ← binaryToFundamental (float_bits f) z inp; Ok (VFloat f z', inp')
               | _ => UB "not a number"
               end
  | Plain n => '(s, inp') ← fromBinary n inp; Ok (VPlain s, inp')
  | Class ps =>
      (fix go (ps : list property) (object : val) (inp : stream) : res (val * stream) :=
         match ps with
         | [] => Ok (object, inp)
         | (m, _, T') :: ps' =>
             match get_member object m with
             | Some x =>
                 '(x', inp') ← binaryDeserialize T' x inp;
                 go ps' (set_member object m x') inp'
             | None => UB "no such member"
             end
         end) ps object inp
  end.

(** The loop of [binaryDeserialize] over the properties, by itself. *)
Fixpoint deserialize_properties (ps : list property) (object : val) (inp : stream)
  : res (val * stream) :=
  match ps with
  | [] => Ok (object, inp)
  | (m, _, T') :: ps' =>
      match get_member object m with
      | Some x =>
          '(x', inp') ← binaryDeserialize T' x inp;
          deserialize_properties ps' (set_member object m x') inp'
      | None => UB "no such member"
      end
  end.

Lemma binaryDeserialize_class ps object inp :
  binaryDeserialize (Class ps) object inp = deserialize_properties ps object inp.
Proof. reflexivity. Qed.

(** The overloads over a caller's buffer return the position in it. *)
Definition binarySerialize_buffer (T : ty) (object : val) (buffer : list Z) (bufferSize : Z)
  : res (Z * list Z) :=
  out ← binarySerialize T object (MemoryOStream buffer bufferSize);
  Ok (u64 (tellp out), MemoryStream.buffer (rdbuf out)).
Definition binaryDeserialize_buffer (T : ty) (object : val) (buffer : list Z) (bufferSize : Z)
  : res (Z * val) :=
  '(object', inp) ← binaryDeserialize T object (MemoryIStream buffer bufferSize);
  Ok (u64 (tellg inp), object').

End Binary.

(** ** Specification *)

(** Induction on types with the hypothesis for every property. *)
Definition ty_ind_props (P : ty -> Prop)
  (HF : forall t, P (Fund t)) (HD : forall f, P (Float f)) (HP : forall n, P (Plain n))
  (HC : forall ps, Forall (fun p => P (prop_type p)) ps -> P (Class ps)) : forall T, P T :=
  fix go T :=
    match T with
    | Fund t => HF t
    | Float f => HD f
    | Plain n => HP n
    | Class ps =>
        HC ps ((fix all ps : Forall (fun p => P (prop_type p)) ps :=
                  match ps with
                  | [] => Forall_nil_2 _
                  | (m, n, T') as p :: ps' => Forall_cons_2 _ p ps' (go T') (all ps')
                  end) ps)
    end.

(** The members of fundamental and other types below an object, in the order of the
    properties, each with the names that lead to it. *)
Fixpoint leaves (path : list string) (T : ty) (v : val) : list (list string * val) :=
  match T with
  | Class ps =>
      (fix go (ps : list property) : list (list string * val) :=
         match ps with
         | [] => []
         | (m, n, T') :: ps' =>
             match get_member v m with
             | Some x => leaves (path ++ [n]) T' x ++ go ps'
             | None => go ps'
             end
         end) ps
  | _ => [(path, v)]
  end.

(** The leaves of a tree with the names on the way. *)
Fixpoint tree_leaves (path : list string) (t : tree) : list (list string * val) :=
  match t with
  | Leaf n v => [(path ++ [n], v)]
  | Node n ts =>
      (fix go (ts : list tree) : list (list string * val) :=
         match ts with
         | [] => []
         | t' :: ts' => tree_leaves (path ++ [n]) t' ++ go ts'
         end) ts
  end.

Lemma has_type_class ps v :
  has_type (Class ps) v <->
  Forall (fun p => exists x, get_member v (member p) = Some x /\ has_type (prop_type p) x) ps.
Proof.
  induction ps as [|[[m n] T] ps IH]; [by split|].
  rewrite Forall_cons, <- IH. done.
Qed.

(** [buildTree] loses and reorders nothing: the leaves of the tree, with the names on the
    way to them, are the members reached through the properties, in order. *)
Theorem tree_has_all_leaves T name v path :
  tree_leaves path (buildTree name T v) = leaves (path ++ [name]) T v.
Proof.
  unfold buildTree. revert name v path.
  induction T as [t|f|n|ps IH] using ty_ind_props; intros name v path; [done..|].
  simpl. induction IH as [|[[m n] T] ps HT _ IHps]; [done|]. simpl in HT.
  destruct (get_member v m); [|exact IHps]. by rewrite HT, IHps.
Qed.

(** The loop of [equals], which never stops early, as a conjunction. *)
Definition equal_member (a b : val) (p : property) : bool :=
  match get_member a (member p), get_member b (member p) with
  | Some x, Some y => equals (prop_type p) x y
  | _, _ => false
  end.

Lemma equals_class ps a b : equals (Class ps) a b = forallb (equal_member a b) ps.
Proof.
  transitivity (true && forallb (equal_member a b) ps); [|done].
  simpl equals. generalize true. induction ps as [|[[m n] T] ps IH]; intros e.
  - simpl. by rewrite andb_true_r.
  - cbn [forallb]. rewrite andb_assoc. apply IH.
Qed.

(** How many leaves a type has does not depend on the object. *)
Lemma leaves_length T a b path :
  has_type T a -> has_type T b -> length (leaves path T a) = length (leaves path T b).
Proof.
  revert a b path. induction T as [t|f|n|ps IH] using ty_ind_props; intros a b path Ha Hb; [done..|].
  rewrite has_type_class in Ha, Hb. simpl.
  induction IH as [|[[m n] T] ps HT _ IHps]; [done|].
  apply Forall_cons in Ha as [(x & Hx & Htx) Ha], Hb as [(y & Hy & Hty) Hb].
  unfold member, prop_type in *. simpl in *. rewrite Hx, Hy, !length_app.
  rewrite (HT x y) by done. f_equal. by apply IHps.
Qed.

(** The same place, and [==] of what is in it. *)
Definition leaf_eq (l1 l2 : list string * val) : Prop := l1.1 = l2.1 /\ value_eq l1.2 l2.2 = true.

(** C23. [equals] compares exactly the members reached through the properties, in order: two objects of
    the class are equal iff each leaf of the one is [==] to the leaf of the other in the same place: a
    number as C++ compares it, a member of another type by its own [==], taken for equality of
    what it holds. *)
Theorem equals_iff_leaves T a b path :
  has_type T a -> has_type T b ->
  (equals T a b = true <-> Forall2 leaf_eq (leaves path T a) (leaves path T b)).
Proof.
  revert a b path. induction T as [t|f|n|ps IH] using ty_ind_props; intros a b path Ha Hb.
  1-3: simpl; rewrite Forall2_cons_iff; unfold leaf_eq; simpl; split; [done|by intros [[_ ?] _]].
  rewrite has_type_class in Ha, Hb. rewrite equals_class. simpl leaves.
  induction IH as [|[[m n] T] ps HT _ IHps]; [done|].
  apply Forall_cons in Ha as [(x & Hx & Htx) Ha], Hb as [(y & Hy & Hty) Hb].
  cbn [forallb]. rewrite andb_true_iff, IHps by done. unfold equal_member.
  unfold member, prop_type in *. simpl in Hx, Hy, HT, Htx, Hty |- *. rewrite Hx, Hy.
  rewrite (HT x y (path ++ [n]) Htx Hty). split; [intros []; by apply Forall2_app|].
  intros H%Forall2_app_inv; [done|]. by apply leaves_length.
Qed.

(** ** Binary round trip *)

(** No member of a type the serializer leaves to the user. *)
Fixpoint no_plain (T : ty) : bool :=
  match T with
  | Fund _ | Float _ => true
  | Plain _ => false
  | Class ps =>
      (fix go (ps : list property) : bool :=
         match ps with [] => true | (_, _, T') :: ps' => no_plain T' && go ps' end) ps
  end.

(** No class lists a member twice. *)
Fixpoint distinct (T : ty) : Prop :=
  match T with
  | Class ps => NoDup (member <$> ps) /\
      (fix all (ps : list property) : Prop :=
         match ps with [] => True | (_, _, T') :: ps' => distinct T' /\ all ps' end) ps
  | _ => True
  end.

(** The values below an object, each with its type, in the order of the properties. *)
Fixpoint scalars (T : ty) (v : val) : list arg :=
  match T with
  | Fund t => match v with VNum z => [(t, z)] | _ => [] end
  | Float f => match v with VFloat _ z => [(float_bits f, z)] | _ => [] end
  | Plain _ => []
  | Class ps =>
      (fix go (ps : list property) : list arg :=
         match ps with
         | [] => []
         | (m, _, T') :: ps' =>
             match get_member v m with Some x => scalars T' x ++ go ps' | None => go ps' end
         end) ps
  end.

(** A floating-point member below an object is a NaN. *)
Fixpoint has_nan (T : ty) (v : val) : bool :=
  match T with
  | Float f => match v with VFloat _ z => is_nan f z | _ => false end
  | Fund _ | Plain _ => false
  | Class ps =>
      (fix go (ps : list property) : bool :=
         match ps with
         | [] => false
         | (m, _, T') :: ps' =>
             match get_member v m with Some x => has_nan T' x | None => false end || go ps'
         end) ps
  end.

Lemma float_eq_refl f z : float_eq f z z = negb (is_nan f z).
Proof. unfold float_eq. rewrite Z.eqb_refl. by destruct (is_nan f z). Qed.

Lemma float_bits_fundamental f : fundamental (float_bits f).
Proof. destruct f; unfold fundamental; simpl; lia. Qed.

Lemma assoc_set_same m x l : is_Some (assoc m l) -> assoc m (assoc_set m x l) = Some x.
Proof.
  induction l as [|[k v] l IH]; simpl; [by intros []|].
  destruct (String.eqb k m) eqn:E; simpl; rewrite E; auto.
Qed.

Lemma assoc_set_other m m' x l : m <> m' -> assoc m' (assoc_set m x l) = assoc m' l.
Proof.
  intros Hne. induction l as [|[k v] l IH]; simpl; [done|].
  destruct (String.eqb_spec k m) as [->|]; simpl.
  - by rewrite (proj2 (String.eqb_neq m m')).
  - by rewrite IH.
Qed.

Lemma get_set_same v m x y : get_member v m = Some y -> get_member (set_member v m x) m = Some x.
Proof. destruct v; simpl; try done. intros H. apply assoc_set_same. by rewrite H. Qed.

Lemma get_set_other v m m' x : m <> m' -> get_member (set_member v m x) m' = get_member v m'.
Proof. destruct v; simpl; try done. apply assoc_set_other. Qed.

Lemma serialize_args_cat xs ys out :
  serialize_args (xs ++ ys) out = (out' ← serialize_args xs out; serialize_args ys out').
Proof.
  revert out. induction xs as [|[t z] xs IH]; intros out; [done|].
  simpl app. cbn [serialize_args]. destruct (serialize_stream (TFund t) z out); try done.
  cbn [mbind res_bind]. apply IH.
Qed.

Lemma args_bytes_app xs ys : args_bytes (xs ++ ys) = args_bytes xs ++ args_bytes ys.
Proof. unfold args_bytes. by rewrite fmap_app, concat_app. Qed.

(** Serialising an object is serialising its scalars. *)
Lemma binarySerialize_scalars toB T v out :
  no_plain T = true -> has_type T v ->
  binarySerialize toB T v out = serialize_args (scalars T v) out.
Proof.
  revert v out. induction T as [t|f|n|ps IH] using ty_ind_props; intros v out Hnp Hv; [| |done|].
  - destruct Hv as [_ (z & -> & _)]. simpl. unfold fundamentalToBinary. by destruct (write _ _).
  - destruct Hv as (z & -> & _). simpl. unfold fundamentalToBinary. by destruct (write _ _).
  - rewrite has_type_class in Hv. simpl in *. revert out.
    induction IH as [|[[m n] T] ps HT _ IHps]; intros out; [done|].
    apply andb_true_iff in Hnp as [HnT Hnp]. apply Forall_cons in Hv as [(x & Hx & Htx) Hv].
    unfold member, prop_type in *. simpl in Hx, HT, Htx. rewrite Hx, HT, serialize_args_cat by done.
    destruct (serialize_args (scalars T x) out); try done. cbn [mbind res_bind]. by apply IHps.
Qed.

Lemma scalars_ok T v : has_type T v -> Forall arg_ok (scalars T v).
Proof.
  revert v. induction T as [t|f|n|ps IH] using ty_ind_props; intros v Hv; [| |by constructor|].
  - destruct Hv as [Hf (z & -> & Hz)]. by apply Forall_singleton.
  - destruct Hv as (z & -> & Hz). apply Forall_singleton. split; [apply float_bits_fundamental|done].
  - rewrite has_type_class in Hv. simpl. induction IH as [|[[m n] T] ps HT _ IHps]; [by constructor|].
    apply Forall_cons in Hv as [(x & Hx & Htx) Hv]. unfold member, prop_type in *.
    simpl in Hx, HT, Htx. rewrite Hx. apply Forall_app. auto.
Qed.

Lemma scalars_length T a b :
  has_type T a -> has_type T b -> length (scalars T a) = length (scalars T b).
Proof.
  revert a b. induction T as [t|f|n|ps IH] using ty_ind_props; intros a b Ha Hb; [| |done|].
  - by destruct Ha as [_ (x & -> & _)], Hb as [_ (y & -> & _)].
  - by destruct Ha as (x & -> & _), Hb as (y & -> & _).
  - rewrite has_type_class in Ha, Hb. simpl. induction IH as [|[[m n] T] ps HT _ IHps]; [done|].
    apply Forall_cons in Ha as [(x & Hx & Htx) Ha], Hb as [(y & Hy & Hty) Hb].
    unfold member, prop_type in *. simpl in *. rewrite Hx, Hy, !length_app, (HT x y) by done.
    f_equal. by apply IHps.
Qed.

(** Objects with the same scalars are equal, unless a NaN is among them. *)
Lemma scalars_equals T a b :
  no_plain T = true -> has_type T a -> has_type T b -> scalars T a = scalars T b ->
  equals T a b = negb (has_nan T b).
Proof.
  revert a b. induction T as [t|f|n|ps IH] using ty_ind_props; intros a b Hnp Ha Hb Heq; [| |done|].
  - destruct Ha as [_ (x & -> & _)], Hb as [_ (y & -> & _)]. simpl in *. simplify_eq.
    by apply Z.eqb_eq.
  - destruct Ha as (x & -> & _), Hb as (y & -> & _). simpl in *. simplify_eq.
    rewrite bool_decide_true by done. apply float_eq_refl.
  - rewrite has_type_class in Ha, Hb. rewrite equals_class. simpl in Hnp, Heq |- *.
    induction IH as [|[[m n] T] ps HT _ IHps]; [done|].
    apply andb_true_iff in Hnp as [HnT Hnp].
    apply Forall_cons in Ha as [(x & Hx & Htx) Ha], Hb as [(y & Hy & Hty) Hb].
    cbn [forallb]. unfold equal_member, member, prop_type in *.
    simpl in Hx, Hy, HT, Htx, Hty |- *. rewrite Hx, Hy in *.
    apply app_inj_1 in Heq as [H1 H2]; [|by apply scalars_length].
    by rewrite (HT x y), IHps, negb_orb.
Qed.

(** What reading one value does when the bytes are there. *)
Lemma read_scalar t z old inp more :
  fundamental t -> in_ty t z -> mem_ok (rdbuf inp) -> failed inp = false ->
  rest (rdbuf inp) = object_bytes t z ++ more ->
  exists inp', binaryToFundamental t old inp = Ok (z, inp') /\
    mem_ok (rdbuf inp') /\ failed inp' = false /\ rest (rdbuf inp') = more /\
    bufferSize (rdbuf inp') = bufferSize (rdbuf inp).
Proof.
  intros Hf Hz Hok Hfail Hr. unfold binaryToFundamental.
  destruct (stream_read_spec inp (Z.of_nat (sizeof t)) Hok Hfail) as (i & -> & Hok' & Hr' & Hf' & Hb');
    [lia|].
  rewrite Nat2Z.id, Hr in *. cbn [mbind res_bind].
  rewrite take_app_length' by (by rewrite length_object_bytes).
  rewrite drop_app_length' in Hr' by (by rewrite length_object_bytes).
  rewrite drop_ge, app_nil_r, object_roundtrip by (done || by rewrite !length_object_bytes).
  exists i. split_and!; try done. rewrite Hf'. apply Z.ltb_ge.
  rewrite <- rest_room, Hr, length_app, length_object_bytes by done. lia.
Qed.

(** Reading the bytes of [v] over any object of the class reproduces the scalars of [v]. *)
Definition reads_back fromB (T : ty) : Prop := forall old v inp more,
  no_plain T = true -> distinct T -> has_type T old -> has_type T v ->
  mem_ok (rdbuf inp) -> failed inp = false ->
  rest (rdbuf inp) = args_bytes (scalars T v) ++ more ->
  exists new inp', binaryDeserialize fromB T old inp = Ok (new, inp') /\
    has_type T new /\ scalars T new = scalars T v /\
    mem_ok (rdbuf inp') /\ failed inp' = false /\ rest (rdbuf inp') = more /\
    bufferSize (rdbuf inp') = bufferSize (rdbuf inp).

(** Member [p] of [new] holds what the same member of [v] does. *)
Definition same_member (new v : val) (p : property) : Prop :=
  exists x y, get_member new (member p) = Some x /\ get_member v (member p) = Some y /\
    has_type (prop_type p) x /\ scalars (prop_type p) x = scalars (prop_type p) y.

Lemma same_members_class ps new v :
  Forall (same_member new v) ps ->
  has_type (Class ps) new /\ scalars (Class ps) new = scalars (Class ps) v.
Proof.
  intros Hall. rewrite has_type_class. simpl.
  induction Hall as [|[[m n] T] ps (x & y & Hx & Hy & Ht & Hs) _ [IH1 IH2]]; [done|].
  unfold member, prop_type in *. simpl in *. rewrite Hx, Hy, Hs, IH2. split; [|done].
  constructor; [by exists x|done].
Qed.

Lemma deserialize_properties_spec fromB ps : forall old v inp more,
  Forall (fun p => reads_back fromB (prop_type p)) ps ->
  no_plain (Class ps) = true -> distinct (Class ps) ->
  has_type (Class ps) old -> has_type (Class ps) v ->
  mem_ok (rdbuf inp) -> failed inp = false ->
  rest (rdbuf inp) = args_bytes (scalars (Class ps) v) ++ more ->
  exists new inp', deserialize_properties fromB ps old inp = Ok (new, inp') /\
    Forall (same_member new v) ps /\
    (forall m, m ∉ member <$> ps -> get_member new m = get_member old m) /\
    mem_ok (rdbuf inp') /\ failed inp' = false /\ rest (rdbuf inp') = more /\
    bufferSize (rdbuf inp') = bufferSize (rdbuf inp).
Proof.
  induction ps as [|[[m n] T] ps IHps]; intros old v inp more HT Hnp Hd Ho Hv Hok Hf Hr.
  { exists old, inp. simpl in Hr. by split_and!. }
  apply Forall_cons in HT as [HT HTs]. rewrite has_type_class in Ho, Hv.
  apply Forall_cons in Ho as [(x & Hx & Htx) Ho], Hv as [(y & Hy & Hty) Hv].
  destruct Hd as [[Hm Hnd]%NoDup_cons [Hd Hds]].
  apply andb_true_iff in Hnp as [HnT Hnp].
  unfold member, prop_type in *. cbn [fst snd fmap list_fmap] in *.
  cbn [scalars] in Hr. rewrite Hy, args_bytes_app, <- app_assoc in Hr.
  destruct (HT x y inp _ HnT Hd Htx Hty Hok Hf Hr)
    as (x' & i1 & Hdes & Htx' & Hsx & Hok1 & Hf1 & Hr1 & Hb1).
  cbn [deserialize_properties]. rewrite Hx, Hdes. cbn [mbind res_bind].
  assert (forall q, q ∈ ps -> get_member (set_member old m x') q.1.1 = get_member old q.1.1) as Hkeep.
  { intros q Hq. apply get_set_other. intros ->. apply Hm, list_elem_of_fmap. by exists q. }
  destruct (IHps (set_member old m x') v i1 more) as (new & i2 & -> & Hall & Hout & Hrest); try done.
  { rewrite has_type_class. rewrite Forall_forall in Ho |- *. intros q Hq.
    unfold member. rewrite Hkeep by done. by apply Ho. }
  { by rewrite has_type_class. }
  destruct Hrest as (? & ? & ? & Hb2).
  exists new, i2. rewrite Hb2. split_and!; try done.
  - constructor; [|done]. exists x', y. unfold member, prop_type. simpl.
    rewrite (Hout m Hm). split_and!; try done. by eapply get_set_same.
  - intros k Hk. apply not_elem_of_cons in Hk as [Hne Hk].
    rewrite Hout by done. by apply get_set_other.
Qed.

Lemma all_read_back fromB T : reads_back fromB T.
Proof.
  induction T as [t|f|n|ps IH] using ty_ind_props; intros old v inp more Hnp Hd Ho Hv Hok Hf Hr;
    [| |done|].
  - destruct Ho as [_ (o & -> & _)], Hv as [Hft (z & -> & Hz)].
    unfold scalars, args_bytes in Hr. simpl concat in Hr. rewrite app_nil_r in Hr.
    destruct (read_scalar t z o inp more) as (i & Hd' & ?); try done.
    exists (VNum z), i. split; [simpl; by rewrite Hd'|]. split; [|done]. simpl. eauto.
  - destruct Ho as (o & -> & _), Hv as (z & -> & Hz).
    unfold scalars, args_bytes in Hr. simpl concat in Hr. rewrite app_nil_r in Hr.
    destruct (read_scalar (float_bits f) z o inp more) as (i & Hd' & ?); try done;
      [apply float_bits_fundamental|].
    exists (VFloat f z), i. split; [simpl; by rewrite Hd'|]. split; [|done]. simpl. eauto.
  - destruct (deserialize_properties_spec fromB ps old v inp more) as (new & i & Hd' & Hall & _ & ?);
      try done.
    rewrite binaryDeserialize_class. exists new, i. split; [done|].
    destruct (same_members_class _ _ _ Hall). split; [done|]. by split.
Qed.

Lemma binary_roundtrip_spec toB fromB T a b mem :
  no_plain T = true -> distinct T -> has_type T a -> has_type T b ->
  Z.of_nat (length (args_bytes (scalars T a))) <= Z.of_nat (length mem) < 2 ^ 63 ->
  let n := Z.of_nat (length (args_bytes (scalars T a))) in
  exists mem' b',
    binarySerialize_buffer toB T a mem (Z.of_nat (length mem)) = Ok (n, mem') /\
    take (Z.to_nat n) mem' = args_bytes (scalars T a) /\ length mem' = length mem /\
    binaryDeserialize_buffer fromB T b mem' (Z.of_nat (length mem')) = Ok (n, b') /\
    has_type T b' /\ scalars T b' = scalars T a /\ equals T b' a = negb (has_nan T a).
Proof.
  intros Hnp Hd Ha Hb Hlen n. unfold binarySerialize_buffer, binaryDeserialize_buffer.
  rewrite binarySerialize_scalars by done.
  destruct (serialize_args_app (scalars T a) (MemoryOStream mem (Z.of_nat (length mem))))
    as (out & -> & Hok & Hf & Hw & Hr & Hbs & Hl); try done.
  { split; simpl; lia. }
  { unfold room. simpl. lia. }
  cbn [mbind res_bind]. unfold tellp, seekoff. rewrite Hf. unfold room in Hr. simpl in Hr, Hbs, Hl, Hw.
  assert (pos (rdbuf out) = n) as Hpos by lia.
  rewrite Hpos, wrap_u64_small by lia. unfold written in Hw. rewrite Hpos in Hw.
  exists (buffer (rdbuf out)).
  destruct (all_read_back fromB T b a
    (MemoryIStream (buffer (rdbuf out)) (Z.of_nat (length (buffer (rdbuf out)))))
    (drop (Z.to_nat n) (buffer (rdbuf out)))) as (b' & i & Hde & Htb & Hsc & Hoki & Hfi & Hri & Hbi);
    try done.
  { split; simpl; lia. }
  { unfold rest. simpl. rewrite drop_0, take_ge by lia. by rewrite <- Hw, take_drop. }
  exists b'. rewrite Hde. cbn [mbind res_bind]. unfold tellg, seekoff. rewrite Hfi.
  split_and!; try done; [|by apply scalars_equals].
  apply rest_room in Hoki. rewrite Hri, length_drop in Hoki. unfold room in Hoki.
  simpl in Hbi. rewrite wrap_u64_small by lia. do 2 f_equal. lia.
Qed.

(** C11. Binary round trip: an object written to a buffer that is long enough, read back over
    any object of the same class, gives an object with the same value, bit for bit, in every
    member; both calls return the number of bytes, and the bytes depend on the members only.  The
    object [equals] the original exactly when no floating-point member is a NaN. *)
Theorem binary_roundtrip toB fromB T a b mem :
  no_plain T = true -> distinct T -> has_type T a -> has_type T b ->
  Z.of_nat (length (args_bytes (scalars T a))) <= Z.of_nat (length mem) < 2 ^ 63 ->
  let n := Z.of_nat (length (args_bytes (scalars T a))) in
  exists mem' b',
    binarySerialize_buffer toB T a mem (Z.of_nat (length mem)) = Ok (n, mem') /\
    take (Z.to_nat n) mem' = args_bytes (scalars T a) /\ length mem' = length mem /\
    binaryDeserialize_buffer fromB T b mem' (Z.of_nat (length mem')) = Ok (n, b') /\
    has_type T b' /\ scalars T b' = scalars T a /\ equals T b' a = negb (has_nan T a).
Proof. apply binary_roundtrip_spec. Qed.

(** Writing more than there is room for fails the stream, and a failed stream stays failed. *)
Lemma serialize_args_failed args out : failed out = true -> serialize_args args out = Ok out.
Proof.
  intros Hf. induction args as [|[t z] args IH]; [done|].
  simpl. unfold write. by rewrite Hf.
Qed.

Lemma serialize_args_overflow args out :
  mem_ok (rdbuf out) -> failed out = false ->
  room (rdbuf out) < Z.of_nat (length (args_bytes args)) ->
  exists out', serialize_args args out = Ok out' /\ failed out' = true.
Proof.
  revert out. induction args as [|[t z] args IH]; intros out Hok Hf Hr.
  { destruct Hok. unfold room in Hr. simpl in Hr. lia. }
  change (args_bytes ((t, z) :: args)) with (object_bytes t z ++ args_bytes args) in Hr.
  rewrite length_app, length_object_bytes in Hr. cbn [serialize_args].
  destruct (Z.leb_spec (Z.of_nat (sizeof t)) (room (rdbuf out))) as [Hfit|Hbig].
  - destruct (serialize_stream_app t z out Hok Hf Hfit) as (o & -> & Hok' & Hf' & _ & Hr' & _).
    cbn [mbind res_bind]. apply IH; [done|done|lia].
  - destruct (stream_write_spec out (object_bytes t z) Hok Hf) as (o & Ho & _ & _ & Hfo).
    simpl. rewrite Ho. cbn [mbind res_bind]. exists o. rewrite length_object_bytes in Hfo.
    rewrite (proj2 (Z.ltb_lt _ _)) in Hfo by lia. split; [|done]. by apply serialize_args_failed.
Qed.

(** A buffer that is too short is not reported: [binarySerialize] returns normally, with
    the position of a failed stream, -1 converted to [size_t]. *)
Theorem binary_short_buffer_silent toB T a mem :
  no_plain T = true -> has_type T a ->
  Z.of_nat (length mem) < Z.of_nat (length (args_bytes (scalars T a))) ->
  exists mem', binarySerialize_buffer toB T a mem (Z.of_nat (length mem)) = Ok (SIZE_MAX, mem').
Proof.
  intros Hnp Ha Hlen. unfold binarySerialize_buffer. rewrite binarySerialize_scalars by done.
  destruct (serialize_args_overflow (scalars T a) (MemoryOStream mem (Z.of_nat (length mem))))
    as (out & -> & Hf); try done.
  - split; simpl; lia.
  - unfold room. simpl. lia.
  - cbn [mbind res_bind]. unfold tellp. rewrite Hf. by exists (buffer (rdbuf out)).
Qed.

(** ** The classes of the Serialization example *)

Definition no_toBinary (n s : string) (out : stream) : res stream := UB "toBinary is not defined".
Definition no_fromBinary (n : string) (inp : stream) : res (string * stream) :=
  UB "fromBinary is not defined".

(** [Pack1] stores [b], [a], [c] and lists them as [a], [b], [c]. *)
Definition Pack1 : ty := Class
  [makeProperty "a" "a" (Fund int_t); makeProperty "b" "b" (Float double);
   makeProperty "c" "c" (Fund unsigned_int)].
Definition Pack2 : ty := Class
  [makeProperty "pack1" "pack1" Pack1; makeProperty "a" "a" (Float double)].

Definition pack1 (a b c : Z) : val := VObj [("b", VFloat double b); ("a", VNum a); ("c", VNum c)].
Definition pack2 (p : val) (a : Z) : val := VObj [("pack1", p); ("a", VFloat double a)].

Lemma pack2_type a b c d :
  in_ty int_t a -> in_ty uint64_t b -> in_ty unsigned_int c -> in_ty uint64_t d ->
  has_type Pack2 (pack2 (pack1 a b c) d).
Proof.
  intros. split; [|split; [|exact I]].
  - exists (pack1 a b c). split; [reflexivity|].
    split; [|split; [|split; [|exact I]]]; (eexists; split; [reflexivity|]); [|by eexists|];
      (split; [unfold fundamental; simpl; lia|by eexists]).
  - eexists. split; [reflexivity|]. by eexists.
Qed.

Definition sample : val := pack2 (pack1 (-7) 4607182418800017408 9) 4616189618054758400.
Definition blank : val := pack2 (pack1 0 0 0) 0.

Lemma sample_type : has_type Pack2 sample /\ has_type Pack2 blank.
Proof. by split; apply pack2_type; vm_compute. Qed.

Lemma Pack2_distinct : distinct Pack2.
Proof. repeat split; try exact I; apply (bool_decide_unpack _); vm_compute; exact I. Qed.

Lemma binary_roundtrip_witness :
  exists mem' b',
    binarySerialize_buffer no_toBinary Pack2 sample (replicate 30 0) 30 = Ok (24, mem') /\
    take 24 mem' = args_bytes (scalars Pack2 sample) /\ length mem' = 30%nat /\
    binaryDeserialize_buffer no_fromBinary Pack2 blank mem' (Z.of_nat (length mem')) = Ok (24, b') /\
    has_type Pack2 b' /\ scalars Pack2 b' = scalars Pack2 sample /\ equals Pack2 b' sample = true.
Proof.
  apply (binary_roundtrip no_toBinary no_fromBinary Pack2 sample blank (replicate 30 0));
    [reflexivity|exact Pack2_distinct|apply sample_type|apply sample_type|by vm_compute].
Defined.

Lemma binary_short_buffer_silent_witness :
  exists mem', binarySerialize_buffer no_toBinary Pack2 sample (replicate 23 0) 23 = Ok (SIZE_MAX, mem').
Proof.
  apply (binary_short_buffer_silent no_toBinary Pack2 sample (replicate 23 0));
    [reflexivity|apply sample_type|by vm_compute].
Defined.

Lemma equals_iff_leaves_witness :
  equals Pack2 sample blank = true <->
  Forall2 leaf_eq (leaves ["x"] Pack2 sample) (leaves ["x"] Pack2 blank).
Proof. apply (equals_iff_leaves Pack2 sample blank ["x"]); apply sample_type. Defined.
