(* ===== verification/SerializationExample.v ===== *)
(** * A program on reflection (examples/Serialization/main.cpp)

    The example builds the tree of an object with nested properties and prints it, and writes another
    object to a buffer and reads it back.  The classes are property tuples of Reflection.v; what
    the program prints is a string. *)

From stdpp Require Import pretty.
From S2P Require Import Prelude Numbers MemoryStream BinarySerializer Reflection.

(** ** The classes *)

(** [std::string] and [std::vector<std::string>] are no classes with properties; [bool] is one
    byte. *)
Definition Dog : ty := Class
  [makeProperty "barkType" "barkType" (Plain "std::string");
   makeProperty "color" "color" (Plain "std::string");
   makeProperty "weight" "weight" (Fund int_t);
   makeProperty "awesome" "awesome" (Fund uint8_t);
   makeProperty "owners" "owners" (Plain "std::vector<std::string>")].
Definition Family : ty := Class
  [makeProperty "name" "name" (Plain "std::string"); makeProperty "dog" "dog" Dog].

(** ** Printing *)

Definition newline : string := String (Ascii.ascii_of_nat 10) "".

Fixpoint buildSpacer (spaceCount : nat) : string :=
  match spaceCount with O => "" | S n => " " +:+ buildSpacer n end.

Definition printTreeLeaf (name : string) (spaceCount : nat) : string :=
  buildSpacer spaceCount +:+ name +:+ " = " +:+ "??" +:+ newline.

(** [printTreeNode] on a node, with the branch on the kind of a child. *)
Fixpoint printTreeNode (node : tree) (spaceCount : nat) : string :=
  match node with
  | Node name children =>
      let spacer := buildSpacer spaceCount in
      spacer +:+ "Name: " +:+ name +:+ newline +:+
      spacer +:+ "Children (" +:+ pretty (length children) +:+ "):" +:+ newline +:+
      (fix go (children : list tree) : string :=
         match children with
         | [] => ""
         | child :: rest => printTreeNode child (spaceCount + 2) +:+ go rest
         end) children
  | Leaf name _ => printTreeLeaf name spaceCount
  end.

(** ** The program *)

Definition example_dog : val := VObj
  [("barkType", VPlain "loud"); ("color", VPlain "brown"); ("weight", VNum 0); ("awesome", VNum 1);
   ("owners", VPlain "")].
Definition example_family : val := VObj [("name", VPlain "test"); ("dog", example_dog)].

(** [memset(buff, 0xFF, sizeof(buff))]. *)
Definition example_buffer : list Z := replicate 1024 255.

(** What the program prints, the buffer it writes and the object it reads from it.  [pack]: the
    object written; [result1]: what the uninitialised object held. *)
Definition Serialization_main (pack result1 : val) : res (string * list Z * val) :=
  let printed := printTreeNode (buildTree "Family" Family example_family) 0 in
  '(_, buff) ← binarySerialize_buffer no_toBinary Pack2 pack example_buffer 1024;
  '(_, result1') ← binaryDeserialize_buffer no_fromBinary Pack2 result1 buff 1024;
  Ok (printed, buff, result1').

(** ** Theorems *)

(** The lines of a tree, each with its indentation. *)
Fixpoint tree_lines (indent : nat) (t : tree) : list (nat * string) :=
  match t with
  | Leaf n _ => [(indent, n +:+ " = ??")]
  | Node n ts =>
      (indent, "Name: " +:+ n) :: (indent, "Children (" +:+ pretty (length ts) +:+ "):") ::
      concat (tree_lines (indent + 2) <$> ts)
  end.
Definition print_lines (ls : list (nat * string)) : string :=
  foldr (fun l s => buildSpacer l.1 +:+ l.2 +:+ newline +:+ s) "" ls.

Lemma append_assoc (a b c : string) : (a +:+ b) +:+ c = a +:+ (b +:+ c).
Proof.
  induction a as [|x a IH]; [done|].
  change (String x ((a +:+ b) +:+ c) = String x (a +:+ (b +:+ c))). by rewrite IH.
Qed.
Lemma append_nil (a : string) : a +:+ "" = a.
Proof. induction a as [|x a IH]; [done|]. change (String x (a +:+ "") = String x a). by rewrite IH. Qed.

Lemma print_lines_app l1 l2 : print_lines (l1 ++ l2) = print_lines l1 +:+ print_lines l2.
Proof.
  induction l1 as [|[k s] l1 IH]; [done|]. simpl. rewrite IH. by rewrite !append_assoc.
Qed.

(** Induction on trees, with the hypothesis for every child. *)
Definition tree_ind_children (P : tree -> Prop)
  (HL : forall n v, P (Leaf n v)) (HN : forall n ts, Forall P ts -> P (Node n ts)) : forall t, P t :=
  fix go t :=
    match t with
    | Leaf n v => HL n v
    | Node n ts =>
        HN n ts ((fix all ts : Forall P ts :=
                    match ts with
                    | [] => Forall_nil_2 _
                    | t' :: ts' => Forall_cons_2 _ t' ts' (go t') (all ts')
                    end) ts)
    end.

Lemma tree_text t indent : printTreeNode t indent = print_lines (tree_lines indent t).
Proof.
  revert indent. induction t as [n v|n ts IH] using tree_ind_children; intros indent.
  - simpl. unfold printTreeLeaf. by rewrite !append_assoc, append_nil.
  - simpl. rewrite !append_assoc. do 9 f_equal.
    induction IH as [|t ts Ht _ IHts]; [done|]. by rewrite fmap_cons, Ht, IHts, <-print_lines_app.
Qed.

(** What is printed of a tree is its lines, top to bottom, children two columns further in. *)
Theorem tree_printed t indent : printTreeNode t indent = print_lines (tree_lines indent t).
Proof. apply tree_text. Qed.

(** The serialization example: whatever the four numbers of the object and whatever the
    uninitialised object holds, the program ends normally, prints the lines of the tree of the family,
    and the object it reads from the buffer has the values of the one it wrote, bit for bit, which
    took 24 bytes of it. *)
Theorem example_reads_back a b c d result1 :
  in_ty int_t a -> in_ty uint64_t b -> in_ty unsigned_int c -> in_ty uint64_t d ->
  has_type Pack2 result1 ->
  let pack := pack2 (pack1 a b c) d in
  exists buff result1',
    Serialization_main pack result1 =
      Ok (print_lines (tree_lines 0 (buildTree "Family" Family example_family)), buff, result1') /\
    take 24 buff = args_bytes (scalars Pack2 pack) /\ length buff = 1024%nat /\
    has_type Pack2 result1' /\ scalars Pack2 result1' = scalars Pack2 pack.
Proof.
  intros Ha Hb Hc Hd Hr pack.
  pose proof (pack2_type a b c d Ha Hb Hc Hd) as Hp.
  destruct (binary_roundtrip_spec no_toBinary no_fromBinary Pack2 pack result1 example_buffer)
    as (buff & r & Hs & Ht & Hl & Hde & Htr & Hsc & _);
    [reflexivity|exact Pack2_distinct|exact Hp|exact Hr|by vm_compute|].
  exists buff, r. unfold Serialization_main.
  change (Z.of_nat (length example_buffer)) with 1024 in Hs. rewrite Hs. cbn [mbind res_bind].
  rewrite Hl in Hde. change (Z.of_nat (length example_buffer)) with 1024 in Hde. rewrite Hde.
  cbn [mbind res_bind]. split; [by rewrite tree_text|]. by split_and!.
Qed.

(** ** Witnesses *)

Lemma example_reads_back_witness :
  exists buff result1', Serialization_main sample blank =
      Ok (print_lines (tree_lines 0 (buildTree "Family" Family example_family)), buff, result1') /\
    take 24 buff = args_bytes (scalars Pack2 sample) /\ length buff = 1024%nat /\
    has_type Pack2 result1' /\ scalars Pack2 result1' = scalars Pack2 sample.
Proof.
  apply (example_reads_back (-7) 4607182418800017408 9 4616189618054758400 blank);
    [by vm_compute|by vm_compute|by vm_compute|by vm_compute|apply sample_type].
Defined.

(** The lines of the example's tree. *)
Example family_lines :
  tree_lines 0 (buildTree "Family" Family example_family) =
    [(0, "Name: Family"); (0, "Children (2):"); (2, "name = ??"); (2, "Name: dog");
     (2, "Children (5):"); (4, "barkType = ??"); (4, "color = ??"); (4, "weight = ??");
     (4, "awesome = ??"); (4, "owners = ??")]%nat.
Proof. vm_compute. reflexivity. Qed.
