(* ===== verification/Transfer.v ===== *)
(** * Senders, receivers and framed transfer (headers/interfaces/ISender.h, IReceiver.h,
    IDataExchanger.h, headers/dataTransfer/ObjectSender.h, ObjectReceiver.h, TextSender.h,
    TextReceiver.h)

    [ISender] and [IReceiver] are abstract classes; what implements them (a socket, a pipe, a
    queue) is the environment of this model, which answers each virtual call.  The framed
    transfer sends the 64-bit size first and then the bytes, each with a loop that goes on
    until everything has gone through; every turn of a loop takes one unit of fuel. *)

From S2P Require Import Prelude.

(** ** The interfaces *)

Inductive io_call :=
  | CSend (data : list Z)
  | CReceive (size : Z)
  | CSenderConnected
  | CReceiverConnected
  | CConnected.

(** [receive] answers with its return value and the bytes it stored in the buffer. *)
Definition io_reply (c : io_call) : Type :=
  match c with
  | CSend _ => Z
  | CReceive _ => Z * list Z
  | CSenderConnected | CReceiverConnected | CConnected => bool
  end.

Definition exchanger : Sys := {| call := io_call; reply := io_reply |}.
#[export] Existing Instance exchanger.
Abbreviation iocall := (@call exchanger).

Definition io_send {S} (data : list Z) : prog S Z := sys (CSend data : iocall).
Definition io_receive {S} (n : Z) : prog S (Z * list Z) := sys (CReceive n : iocall).
Definition isSenderConnected {S} : prog S bool := sys (CSenderConnected : iocall).
Definition isReceiverConnected {S} : prog S bool := sys (CReceiverConnected : iocall).

Definition isConnected {S} : prog S bool := sys (CConnected : iocall).

(** [ISender::send(vector)]. *)
Definition send_vector {S} (buffer : list Z) : prog S Z := io_send buffer.

Lemma bind_send {S A} (f : Z -> prog S A) (E : @env exchanger) d s h :
  (send_vector d ≫= f) E s h = f (E h (CSend d : iocall)) E s (h ++ [CSend d : iocall]).
Proof. done. Qed.

(** The largest vector or string of bytes there can be. *)
Definition MAX_SIZE : Z := 2 ^ 63 - 1.

(** Storing [bytes] at offset [off] of [buf], of which the callee was told [room] bytes. *)
Definition overlay (buf : list Z) (off room : Z) (bytes : list Z) : res (list Z) :=
  if Z.of_nat (length bytes) >? room then UB "the receiver wrote past the buffer"
  else Ok (take (Z.to_nat off) buf ++ bytes ++ drop (Z.to_nat off + length bytes) buf).

(** [ret.resize(n)]. *)
Definition resize (l : list Z) (n : Z) : res (list Z) :=
  if n >? MAX_SIZE then Throw "length_error"
  else Ok (take (Z.to_nat n) l ++ replicate (Z.to_nat n - length l) 0).

(** [IReceiver::receive(size)]: a vector as long as the value [receive] returned. *)
Definition receive_vector {S} (size : Z) : prog S (list Z) :=
  if size >? MAX_SIZE then throw "length_error"
  else
    '(receivedBytes, bytes) ← io_receive size;
    ret ← lift (overlay (replicate (Z.to_nat size) 0) 0 size bytes);
    lift (resize ret receivedBytes).

(** ** The transfer loops *)

(** [do { sentBytes += sender->send(p + sentBytes, size - sentBytes); }
    while (sentBytes < size);] *)
Fixpoint send_all {S} (fuel : nat) (data : list Z) (sentBytes : Z) : prog S Z :=
  match fuel with
  | O => lift OutOfFuel
  | Datatypes.S fuel' =>
      n ← io_send (drop (Z.to_nat sentBytes) data);
      let sentBytes' := u64 (sentBytes + n) in
      if sentBytes' <? Z.of_nat (length data) then send_all fuel' data sentBytes'
      else mret sentBytes'
  end.

(** [do { receivedBytes += receiver->receive(p + receivedBytes, size - receivedBytes); }
    while (receivedBytes < size);]  [buf] is what the buffer holds. *)
Fixpoint receive_all {S} (fuel : nat) (buf : list Z) (size receivedBytes : Z)
  : prog S (list Z) :=
  match fuel with
  | O => lift OutOfFuel
  | Datatypes.S fuel' =>
      '(n, bytes) ← io_receive (size - receivedBytes);
      buf' ← lift (overlay buf receivedBytes (size - receivedBytes) bytes);
      let receivedBytes' := u64 (receivedBytes + n) in
      if receivedBytes' <? size then receive_all fuel' buf' size receivedBytes'
      else mret buf'
  end.

(** ** Object and text transfer *)

Definition sendObject {S} (fuel : nat) (buffer : list Z) : prog S Z :=
  let sizeToSend := le_bytes 8 (Z.of_nat (length buffer)) in
  _ ← send_all fuel sizeToSend 0;
  send_all fuel buffer 0.

(** [garbage]: what the uninitialised [incomingObjectSize] holds; [buffer]: the caller's
    buffer.  The bytes received are at its beginning. *)
Definition receiveObject {S} (fuel : nat) (garbage buffer : list Z) : prog S (list Z) :=
  header ← receive_all fuel garbage 8 0;
  let incomingObjectSize := le_val header in
  if incomingObjectSize >? Z.of_nat (length buffer)
  then throw "Incoming object size greater then buffer size"
  else receive_all fuel buffer incomingObjectSize 0.

Definition sendText {S} (fuel : nat) (s : list Z) : prog S Z :=
  let sizeToSend := le_bytes 8 (Z.of_nat (length s)) in
  _ ← send_all fuel sizeToSend 0;
  send_all fuel s 0.

Definition receiveText {S} (fuel : nat) (garbage : list Z) (maxTextSize : Z) : prog S (list Z) :=
  header ← receive_all fuel garbage 8 0;
  let incomingObjectSize := le_val header in
  if incomingObjectSize >? maxTextSize
  then throw "Incoming object size greater then maxTextSize"
  else if incomingObjectSize >? MAX_SIZE then throw "length_error"
  else receive_all fuel (replicate (Z.to_nat incomingObjectSize) 0) incomingObjectSize 0.

(** ** Specification: byte streams *)

(** The bytes the environment took from the [send] calls [cs] made after history [h]. *)
Definition took (E : env) (h : list call) (c : iocall) : list Z :=
  (match c as c return io_reply c -> list Z with
   | CSend d => fun n => take (Z.to_nat n) d
   | _ => fun _ => []
   end) (E h c).
Fixpoint accepted (E : env) (h : list call) (cs : list call) : list Z :=
  match cs with
  | [] => []
  | c :: cs' => took E h c ++ accepted E (h ++ [c]) cs'
  end.

(** How many bytes the [receive] calls [cs] made after [h] returned. *)
Definition gave (E : env) (h : list call) (c : iocall) : Z :=
  (match c as c return io_reply c -> Z with
   | CReceive _ => fun r => fst r
   | _ => fun _ => 0
   end) (E h c).
Fixpoint consumed (E : env) (h : list call) (cs : list call) : Z :=
  match cs with
  | [] => 0
  | c :: cs' => gave E h c + consumed E (h ++ [c]) cs'
  end.

(** A sender that takes part of what it is offered, at least one byte if there is one. *)
Definition reliable_sender (E : env) : Prop :=
  forall h d, (d = [] -> E h (CSend d : iocall) = 0) /\
    (d <> [] -> 1 <= E h (CSend d : iocall) <= Z.of_nat (length d)).

(** A receiver that hands out the bytes of [s] in order, in pieces of its choice. *)
Definition reliable_receiver (E : env) (s : list Z) : Prop :=
  forall h n, 0 <= n -> consumed E [] h + n <= Z.of_nat (length s) ->
    exists m, E h (CReceive n : iocall) =
        (m, take (Z.to_nat m) (drop (Z.to_nat (consumed E [] h)) s)) /\
      0 <= m <= n /\ (0 < n -> 1 <= m).

Lemma accepted_app E h cs1 cs2 :
  accepted E h (cs1 ++ cs2) = accepted E h cs1 ++ accepted E (h ++ cs1) cs2.
Proof.
  revert h. induction cs1 as [|c cs1 IH]; intros h; simpl.
  - by rewrite app_nil_r.
  - rewrite IH, app_assoc. f_equal. f_equal. symmetry. apply (app_assoc h [c] cs1).
Qed.

Lemma consumed_app E h cs1 cs2 :
  consumed E h (cs1 ++ cs2) = consumed E h cs1 + consumed E (h ++ cs1) cs2.
Proof.
  revert h. induction cs1 as [|c cs1 IH]; intros h; simpl.
  - by rewrite app_nil_r.
  - rewrite IH, Z.add_assoc. f_equal. f_equal. symmetry. apply (app_assoc h [c] cs1).
Qed.

(** What a sender promises.  [P h out room]: after the calls [h] the sender has taken the bytes
    [out] and has room for [room] more; of what it is offered it then takes a part, at least one
    byte if there is one. *)
Definition sends_from (P : list call -> list Z -> Z -> Prop) (E : env) : Prop :=
  forall h d out room, P h out room -> Z.of_nat (length d) <= room ->
    exists n room', E h (CSend d : iocall) = n /\ 0 <= n <= Z.of_nat (length d) /\
      (d <> [] -> 1 <= n) /\ room - n <= room' /\
      P (h ++ [CSend d : iocall]) (out ++ take (Z.to_nat n) d) room'.

(** What a receiver promises.  [P h incoming]: after the calls [h] the bytes [incoming] are still to
    come; asked for some of them, it hands out the next ones, at least one, in pieces of at most
    [limit]. *)
Definition receives_from (limit : Z) (P : list call -> list Z -> Prop) (E : env) : Prop :=
  forall h n incoming, P h incoming -> 0 <= n <= limit -> n <= Z.of_nat (length incoming) ->
    exists m, E h (CReceive n : iocall) = (m, take (Z.to_nat m) incoming) /\ 0 <= m <= n /\
      (0 < n -> 1 <= m) /\ P (h ++ [CReceive n : iocall]) (drop (Z.to_nat m) incoming).

Lemma send_all_from {S} P E fuel data sent (s : S) h out room :
  sends_from P E -> P h out room -> 0 <= sent <= Z.of_nat (length data) ->
  Z.of_nat (length data) - sent <= room -> Z.of_nat (length data) < 2 ^ 64 ->
  Z.of_nat (length data) - sent < Z.of_nat fuel ->
  exists cs room', send_all fuel data sent E s h = (Ok (Z.of_nat (length data)), s, h ++ cs) /\
    P (h ++ cs) (out ++ drop (Z.to_nat sent) data) room' /\
    room - (Z.of_nat (length data) - sent) <= room'.
Proof.
  intros HE. revert sent h out room. induction fuel as [|fuel IH]; intros sent h out room HP Hs Hr Hd Hf;
    [lia|].
  cbn [send_all]. unfold mbind, prog_bind, io_send, sys.
  remember (drop (Z.to_nat sent) data) as d eqn:Hd0.
  assert (Z.of_nat (length d) = Z.of_nat (length data) - sent) as Hl by (subst d; len).
  destruct (HE h d out room HP) as (n & room1 & -> & Hn & Hn1 & Hroom & HP1); [lia|].
  assert (0 < Z.of_nat (length d) -> 1 <= n) as Hn2.
  { intros. apply Hn1. intros ->. simpl in *. lia. }
  rewrite wrap_u64_small by lia. case_bool.
  - destruct (IH (sent + n) (h ++ [CSend d : iocall]) (out ++ take (Z.to_nat n) d) room1 HP1)
      as (cs & room2 & -> & HP2 & Hroom2); try lia.
    exists ((CSend d : iocall) :: cs), room2. rewrite <-app_assoc in *. split_and!; [done| |lia].
    replace (out ++ d) with (out ++ take (Z.to_nat n) d ++ drop (Z.to_nat (sent + n)) data);
      [by rewrite <-app_assoc in HP2|].
    replace (Z.to_nat (sent + n)) with (Z.to_nat sent + Z.to_nat n)%nat by lia.
    by rewrite <-drop_drop, <-Hd0, take_drop.
  - exists [CSend d : iocall], room1. unfold mret, prog_ret.
    rewrite take_ge in HP1 by lia. split_and!; [do 2 f_equal; f_equal; lia|done|lia].
Qed.

Lemma length_overlay buf off room bytes buf' :
  overlay buf off room bytes = Ok buf' -> (Z.to_nat off + length bytes <= length buf)%nat ->
  length buf' = length buf.
Proof.
  unfold overlay. case_bool; [done|]. intros [= <-] Hl.
  rewrite !length_app, length_take, length_drop. lia.
Qed.

(** Adding the next bytes of a stream to what a buffer already holds of it. *)
Lemma overlay_next buf (got m room : nat) (tl : list Z) :
  take got buf = take got tl -> (m <= room)%nat -> (got + room <= length buf)%nat ->
  (got + m <= length tl)%nat ->
  exists buf', overlay buf (Z.of_nat got) (Z.of_nat room) (take m (drop got tl)) = Ok buf' /\
    length buf' = length buf /\ take (got + m) buf' = take (got + m) tl /\
    forall k, (got + m <= k)%nat -> drop k buf' = drop k buf.
Proof.
  intros Htk Hm Hb Ht. assert (length (take m (drop got tl)) = m) as Hl.
  { rewrite length_take, length_drop. lia. }
  unfold overlay. rewrite Hl. destruct (Z.gtb_spec (Z.of_nat m) (Z.of_nat room)); [lia|].
  eexists. split; [reflexivity|]. rewrite Nat2Z.id.
  assert (take got buf ++ take m (drop got tl) = take (got + m) tl) as Hpre.
  { rewrite Htk. by rewrite <- (take_take_drop tl got m). }
  split_and!.
  - rewrite !length_app, length_take, length_drop, Hl. lia.
  - rewrite app_assoc, Hpre. apply take_app_length'. rewrite length_take. lia.
  - intros k Hk. rewrite app_assoc, Hpre, drop_app_ge by (rewrite length_take; lia).
    rewrite drop_drop. f_equal. rewrite length_take. lia.
Qed.

Lemma receive_all_from {S} limit P E fuel buf (size got : nat) tl (s : S) h :
  receives_from limit P E -> P h (drop got tl) -> (got <= size)%nat -> (size <= length tl)%nat ->
  (size <= length buf)%nat -> Z.of_nat size <= limit -> Z.of_nat size < 2 ^ 64 ->
  take got buf = take got tl -> (size - got < fuel)%nat ->
  exists cs buf', receive_all fuel buf (Z.of_nat size) (Z.of_nat got) E s h = (Ok buf', s, h ++ cs) /\
    length buf' = length buf /\ take size buf' = take size tl /\
    drop size buf' = drop size buf /\ P (h ++ cs) (drop size tl).
Proof.
  intros HE. revert got buf h. induction fuel as [|fuel IH]; intros got buf h HP Hg Htl Hb Hlim H64 Htk Hf;
    [lia|].
  cbn [receive_all]. unfold mbind, prog_bind, io_receive, sys.
  replace (Z.of_nat size - Z.of_nat got) with (Z.of_nat (size - got)) by lia.
  destruct (HE h (Z.of_nat (size - got)) _ HP) as (m & Hrep & Hm & Hm1 & HP1); [lia|len|].
  rewrite Hrep. rewrite drop_drop in HP1.
  destruct (overlay_next buf got (Z.to_nat m) (size - got) tl)
    as (buf1 & Hov & Hl1 & Htk1 & Hdr1); try done; try lia.
  unfold lift. rewrite Hov. rewrite wrap_u64_small by lia.
  replace (Z.of_nat got + m) with (Z.of_nat (got + Z.to_nat m)) by lia.
  case_bool.
  - edestruct (IH (got + Z.to_nat m)%nat buf1) as (cs & buf2 & -> & Hl2 & Htk2 & Hd2 & HP2);
      [exact HP1|lia..|exact Htk1|lia|].
    exists ((CReceive (Z.of_nat (size - got)) : iocall) :: cs), buf2.
    rewrite <- app_assoc in *. rewrite Hd2, Hdr1 by lia. split_and!; (done || lia).
  - exists [CReceive (Z.of_nat (size - got)) : iocall], buf1. unfold mret, prog_ret.
    replace (got + Z.to_nat m)%nat with size in * by lia.
    split_and!; try done. by apply Hdr1.
Qed.

(** ** Whole frames *)

(** The size on 8 bytes, then the bytes. *)
Definition frame (data : list Z) : list Z := le_bytes 8 (Z.of_nat (length data)) ++ data.

Lemma length_frame data : length (frame data) = (8 + length data)%nat.
Proof. unfold frame. by rewrite length_app, length_le_bytes. Qed.

(** The header read back. *)
Lemma header_value n : Z.of_nat n < 2 ^ 64 -> le_val (le_bytes 8 (Z.of_nat n)) = Z.of_nat n.
Proof. intros. apply le_val_le_bytes_small. change (256 ^ Z.of_nat 8) with (2 ^ 64). lia. Qed.

Lemma sendObject_from {S} P E data fuel (s : S) h out room :
  sends_from P E -> P h out room -> 8 + Z.of_nat (length data) <= room ->
  Z.of_nat (length data) < 2 ^ 64 -> (8 + length data < fuel)%nat ->
  exists cs room', sendObject fuel data E s h = (Ok (Z.of_nat (length data)), s, h ++ cs) /\
    P (h ++ cs) (out ++ frame data) room' /\ room - (8 + Z.of_nat (length data)) <= room'.
Proof.
  intros HE HP Hroom Hlen Hfuel. unfold sendObject. unfold mbind, prog_bind.
  destruct (send_all_from P E fuel (le_bytes 8 (Z.of_nat (length data))) 0 s h out room HE HP)
    as (cs1 & room1 & -> & HP1 & Hr1); rewrite ?length_le_bytes; try lia.
  rewrite length_le_bytes in Hr1.
  destruct (send_all_from P E fuel data 0 s (h ++ cs1) _ room1 HE HP1)
    as (cs2 & room2 & -> & HP2 & Hr2); try lia.
  exists (cs1 ++ cs2), room2. change (Z.to_nat 0) with 0%nat in HP2. rewrite !drop_0 in HP2.
  rewrite <-!app_assoc in HP2. rewrite <-app_assoc. split_and!; (done || lia).
Qed.

(** [sendText] is [sendObject] on the characters. *)
Lemma sendText_from {S} P E text fuel (s : S) h out room :
  sends_from P E -> P h out room -> 8 + Z.of_nat (length text) <= room ->
  Z.of_nat (length text) < 2 ^ 64 -> (8 + length text < fuel)%nat ->
  exists cs room', sendText fuel text E s h = (Ok (Z.of_nat (length text)), s, h ++ cs) /\
    P (h ++ cs) (out ++ frame text) room' /\ room - (8 + Z.of_nat (length text)) <= room'.
Proof. exact (sendObject_from P E text fuel s h out room). Qed.

Lemma receive_header {S} limit P E data more fuel garbage (s : S) h :
  receives_from limit P E -> P h (frame data ++ more) -> 8 <= limit ->
  length garbage = 8%nat -> (8 < fuel)%nat ->
  exists cs, receive_all fuel garbage 8 0 E s h =
      (Ok (le_bytes 8 (Z.of_nat (length data))), s, h ++ cs) /\ P (h ++ cs) (data ++ more).
Proof.
  intros HE HP Hlim Hg Hf. unfold frame in HP. rewrite <-app_assoc in HP.
  destruct (receive_all_from limit P E fuel garbage 8 0 _ s h HE HP)
    as (cs & buf & Hr & Hl & Htk & _ & HP1); try done; try lia.
  { rewrite length_app, length_le_bytes. lia. }
  exists cs. change (Z.of_nat 8) with 8 in Hr. change (Z.of_nat 0) with 0 in Hr. rewrite Hr.
  rewrite drop_app_length' in HP1 by (by rewrite length_le_bytes). split; [|done].
  rewrite take_app_length' in Htk by (by rewrite length_le_bytes).
  rewrite take_ge in Htk by lia. by rewrite Htk.
Qed.

(** The bytes after the header, into a buffer that is long enough. *)
Lemma receive_body {S} limit P E data more fuel buffer (s : S) h :
  receives_from limit P E -> P h (data ++ more) -> Z.of_nat (length data) <= limit ->
  (length data <= length buffer)%nat -> Z.of_nat (length data) < 2 ^ 64 -> (length data < fuel)%nat ->
  exists cs, receive_all fuel buffer (Z.of_nat (length data)) 0 E s h =
      (Ok (data ++ drop (length data) buffer), s, h ++ cs) /\ P (h ++ cs) more.
Proof.
  intros HE HP Hlim Hb H64 Hf.
  destruct (receive_all_from limit P E fuel buffer (length data) 0 _ s h HE HP)
    as (cs & buf & Hr & Hl & Htk & Hdr & HP1); try done; try lia.
  { rewrite length_app. lia. }
  change (Z.of_nat 0) with 0 in Hr. rewrite Hr. exists cs. rewrite drop_app_length in HP1.
  rewrite take_app_length in Htk. by rewrite <-(take_drop (length data) buf), Htk, Hdr.
Qed.

Lemma receiveObject_from {S} limit P E data more fuel garbage buffer (s : S) h :
  receives_from limit P E -> P h (frame data ++ more) -> 8 <= limit ->
  Z.of_nat (length data) <= limit -> length garbage = 8%nat -> (length data <= length buffer)%nat ->
  Z.of_nat (length data) < 2 ^ 64 -> (8 + length data < fuel)%nat ->
  exists cs, receiveObject fuel garbage buffer E s h =
      (Ok (data ++ drop (length data) buffer), s, h ++ cs) /\ P (h ++ cs) more.
Proof.
  intros HE HP H8 Hlim Hg Hb Hlen Hfuel. unfold receiveObject, mbind, prog_bind.
  destruct (receive_header limit P E data more fuel garbage s h HE HP H8 Hg) as (cs1 & -> & HP1); [lia|].
  rewrite header_value by done.
  destruct (Z.gtb_spec (Z.of_nat (length data)) (Z.of_nat (length buffer))); [lia|].
  destruct (receive_body limit P E data more fuel buffer s (h ++ cs1) HE HP1)
    as (cs2 & -> & HP2); try lia.
  exists (cs1 ++ cs2). by rewrite <-app_assoc in *.
Qed.

Lemma receiveText_from {S} limit P E text more fuel garbage max (s : S) h :
  receives_from limit P E -> P h (frame text ++ more) -> 8 <= limit ->
  Z.of_nat (length text) <= limit -> Z.of_nat (length text) <= max ->
  Z.of_nat (length text) <= MAX_SIZE -> length garbage = 8%nat -> (8 + length text < fuel)%nat ->
  exists cs, receiveText fuel garbage max E s h = (Ok text, s, h ++ cs) /\ P (h ++ cs) more.
Proof.
  intros HE HP H8 Hlim Hmax Hlen Hg Hfuel. unfold receiveText, mbind, prog_bind.
  destruct (receive_header limit P E text more fuel garbage s h HE HP H8 Hg) as (cs1 & -> & HP1); [lia|].
  assert (H64 : Z.of_nat (length text) < 2 ^ 64) by (unfold MAX_SIZE in *; lia).
  rewrite header_value by done.
  destruct (Z.gtb_spec (Z.of_nat (length text)) max); [lia|].
  destruct (Z.gtb_spec (Z.of_nat (length text)) MAX_SIZE); [lia|]. rewrite Nat2Z.id.
  destruct (receive_body limit P E text more fuel (replicate (length text) 0) s (h ++ cs1) HE HP1)
    as (cs2 & -> & HP2); rewrite ?length_replicate; try lia.
  exists (cs1 ++ cs2). rewrite drop_ge, app_nil_r by (by rewrite length_replicate).
  by rewrite <-app_assoc in *.
Qed.

(** Reliable senders and receivers keep these promises, for every history. *)
Lemma reliable_sends_from E h0 :
  reliable_sender E ->
  sends_from (fun h out _ => exists cs, h = h0 ++ cs /\ out = accepted E h0 cs) E.
Proof.
  intros HE h d out room (cs & -> & ->) Hd. destruct (HE (h0 ++ cs) d) as [H0 H1].
  set (n := E (h0 ++ cs) (CSend d : iocall)) in *.
  assert (0 <= n <= Z.of_nat (length d)) as Hn.
  { destruct d; [rewrite H0 by done; simpl; lia|]. specialize (H1 ltac:(done)). lia. }
  exists n, (room - n). split_and!; try done; try lia; [intros; by apply H1|].
  exists (cs ++ [CSend d : iocall]). rewrite app_assoc, accepted_app. split; [done|].
  cbn [accepted]. by rewrite app_nil_r.
Qed.

Lemma reliable_receives_from E str limit :
  reliable_receiver E str ->
  receives_from limit
    (fun h incoming => 0 <= consumed E [] h <= Z.of_nat (length str) /\
                       incoming = drop (Z.to_nat (consumed E [] h)) str) E.
Proof.
  intros HE h n incoming [Hc ->] Hn Hle. rewrite length_drop in Hle.
  destruct (HE h n) as (m & Hr & Hm & Hm1); [lia..|]. exists m.
  assert (consumed E [] (h ++ [CReceive n : iocall]) = consumed E [] h + m) as Hc1.
  { rewrite consumed_app. cbn [consumed app]. unfold gave. rewrite Hr. simpl. lia. }
  split_and!; try done; try lia. rewrite Hc1, drop_drop. f_equal. lia.
Qed.

(** The position of a receiver, from what is left. *)
Lemma position_of_rest E (str pre more : list Z) h :
  str = pre ++ more -> 0 <= consumed E [] h <= Z.of_nat (length str) ->
  more = drop (Z.to_nat (consumed E [] h)) str -> consumed E [] h = Z.of_nat (length pre).
Proof.
  intros -> Hc Hm. apply (f_equal length) in Hm. rewrite length_drop, length_app in Hm.
  rewrite length_app in Hc. lia.
Qed.

(** ** Theorems *)

Lemma sendObject_spec {S} E data fuel (s : S) h :
  reliable_sender E -> Z.of_nat (length data) < 2 ^ 64 -> (8 + length data < fuel)%nat ->
  exists cs, sendObject fuel data E s h = (Ok (Z.of_nat (length data)), s, h ++ cs) /\
    accepted E h cs = le_bytes 8 (Z.of_nat (length data)) ++ data.
Proof.
  intros HE Hlen Hfuel.
  destruct (sendObject_from _ E data fuel s h [] (8 + Z.of_nat (length data))
    (reliable_sends_from E h HE)) as (cs & room & -> & (cs' & Hcs & Hout) & _); try done.
  { exists []. by rewrite app_nil_r. }
  exists cs. split; [done|]. apply app_inv_head in Hcs as <-. by rewrite <-Hout.
Qed.

(** Framing: over any sender that takes at least one byte of what it is offered, however
    it cuts the data up, [sendObject] returns the size of the object after at most one call
    per byte, and what went out is the 8-byte size followed by the object. *)
Theorem sendObject_frames {S} E data fuel (s : S) h :
  reliable_sender E -> Z.of_nat (length data) < 2 ^ 64 -> (8 + length data < fuel)%nat ->
  exists cs, sendObject fuel data E s h = (Ok (Z.of_nat (length data)), s, h ++ cs) /\
    accepted E h cs = le_bytes 8 (Z.of_nat (length data)) ++ data.
Proof. apply sendObject_spec. Qed.

(** Framing, the other side: over any receiver that delivers the framed object in pieces
    of its choice, [receiveObject] with a buffer that is long enough returns, puts exactly the
    object at the beginning of the buffer, leaves the rest of it alone and consumes exactly
    the frame. *)
Theorem receiveObject_unframes {S} E data more fuel garbage buffer (s : S) :
  reliable_receiver E (le_bytes 8 (Z.of_nat (length data)) ++ data ++ more) ->
  length garbage = 8%nat -> (length data <= length buffer)%nat ->
  Z.of_nat (length data) < 2 ^ 64 -> (8 + length data < fuel)%nat ->
  exists cs, receiveObject fuel garbage buffer E s [] =
      (Ok (data ++ drop (length data) buffer), s, cs) /\
    consumed E [] cs = 8 + Z.of_nat (length data).
Proof.
  intros HE Hg Hb Hlen Hfuel.
  destruct (receiveObject_from (8 + Z.of_nat (length data)) _ E data more fuel garbage buffer s []
    (reliable_receives_from E _ _ HE)) as (cs & -> & Hc & Hm); try done; try lia.
  rewrite app_nil_l in *. exists cs. split; [done|].
  rewrite (position_of_rest E _ (frame data) more _ (app_assoc _ _ more) Hc Hm).
  rewrite length_frame. lia.
Qed.

(** An announced size above the buffer's is refused before any byte of the object is
    stored: the only receives made are those of the 8-byte header. *)
Theorem receiveObject_too_big {S} E data more fuel garbage buffer (s : S) :
  reliable_receiver E (le_bytes 8 (Z.of_nat (length data)) ++ data ++ more) ->
  length garbage = 8%nat -> (length buffer < length data)%nat ->
  Z.of_nat (length data) < 2 ^ 64 -> (8 < fuel)%nat ->
  exists cs, receiveObject fuel garbage buffer E s [] =
      (Throw "Incoming object size greater then buffer size", s, cs) /\ consumed E [] cs = 8.
Proof.
  intros HE Hg Hb Hlen Hfuel. unfold receiveObject, mbind, prog_bind.
  destruct (receive_header 8 _ E data more fuel garbage s []
    (reliable_receives_from E _ _ HE)) as (cs & -> & Hc & Hm); try done.
  rewrite app_nil_l in *. rewrite header_value by done. exists cs.
  destruct (Z.gtb_spec (Z.of_nat (length data)) (Z.of_nat (length buffer))); [|lia].
  split; [done|]. rewrite (position_of_rest E _ _ (data ++ more) _ eq_refl Hc Hm).
  by rewrite length_le_bytes.
Qed.

(** End of stream: when the receiver keeps returning 0, as a closed socket or pipe does,
    [receiveObject] never returns, whatever the fuel. *)
Theorem receiveObject_eof_diverges {S} (E : env) fuel garbage buffer (s : S) h :
  (forall h n, E h (CReceive n : iocall) = (0, [])) ->
  outcome (receiveObject fuel garbage buffer E s h) = OutOfFuel.
Proof.
  intros HE. assert (forall fuel buf h, exists h',
    receive_all fuel buf 8 0 E s h = (OutOfFuel, s, h')) as Hloop.
  { induction fuel0 as [|f IH]; intros buf h0; [by exists h0|].
    cbn [receive_all]. unfold mbind, prog_bind, io_receive, sys. rewrite HE. unfold lift, overlay.
    cbn [length]. destruct (Z.gtb_spec (Z.of_nat 0) (8 - 0)); [lia|].
    change (u64 (0 + 0)) with 0. apply IH. }
  unfold receiveObject, mbind, prog_bind. by destruct (Hloop fuel garbage h) as (h' & ->).
Qed.

(** A failed send that is reported as [~0], as [NamedPipe] does, ends both loops at once:
    [sendObject] makes two calls, delivers nothing and returns normally. *)
Theorem sendObject_error_unnoticed {S} (E : env) data fuel (s : S) h :
  (forall h d, E h (CSend d : iocall) = SIZE_MAX) -> Z.of_nat (length data) < 2 ^ 64 - 1 ->
  sendObject (Datatypes.S fuel) data E s h =
    (Ok SIZE_MAX, s, h ++ [CSend (le_bytes 8 (Z.of_nat (length data))); CSend data]).
Proof.
  intros HE Hlen. unfold sendObject. cbn [send_all].
  unfold mbind, prog_bind, io_send, sys, mret, prog_ret. rewrite !HE.
  change (u64 (0 + SIZE_MAX)) with (2 ^ 64 - 1). rewrite length_le_bytes.
  change (Z.to_nat 0) with 0%nat. rewrite !drop_0.
  destruct (Z.ltb_spec (2 ^ 64 - 1) (Z.of_nat 8)); [lia|].
  rewrite HE. change (u64 (0 + SIZE_MAX)) with (2 ^ 64 - 1).
  destruct (Z.ltb_spec (2 ^ 64 - 1) (Z.of_nat (length data))); [lia|].
  by rewrite <- app_assoc.
Qed.

(** C9. Text end to end: a text goes out over any sender that takes part of what it is offered,
    and whatever receiver delivers those bytes, in whatever pieces, [receiveText] returns the
    same text, provided it is within the receiver's limit. *)
Theorem text_end_to_end {S} E1 text fuel garbage max (s : S) h :
  reliable_sender E1 -> Z.of_nat (length text) <= max -> Z.of_nat (length text) <= MAX_SIZE ->
  length garbage = 8%nat -> (8 + length text < fuel)%nat ->
  exists cs, sendText fuel text E1 s h = (Ok (Z.of_nat (length text)), s, h ++ cs) /\
    forall E2, reliable_receiver E2 (accepted E1 h cs) ->
      exists cs2, receiveText fuel garbage max E2 s [] = (Ok text, s, cs2).
Proof.
  intros HE1 Hmax Hlen Hg Hf.
  destruct (sendObject_spec E1 text fuel s h HE1) as (cs & Hs & Hacc); [unfold MAX_SIZE in *; lia..|].
  exists cs. split; [exact Hs|]. rewrite Hacc. intros E2 HE2.
  destruct (receiveText_from (8 + Z.of_nat (length text)) _ E2 text [] fuel garbage max s []
    (reliable_receives_from E2 _ _ HE2)) as (cs2 & Hr & _); try done; try lia.
  { split; [simpl; lia|]. unfold frame. by rewrite app_nil_r. }
  by exists cs2.
Qed.

(** ** A byte at a time *)

(** A peer that moves one byte per call. *)
Fixpoint trickle_pos (h : list io_call) : nat :=
  match h with
  | [] => 0
  | c :: h' =>
      ((match c with CReceive n => if (1 <=? n)%Z then 1 else 0 | _ => 0 end) + trickle_pos h')%nat
  end.

Definition trickle (str : list Z) : @env exchanger := fun h c =>
  match c as c return io_reply c with
  | CSend d => Z.min 1 (Z.of_nat (length d))
  | CReceive n => if 1 <=? n then (1, take 1 (drop (trickle_pos h) str)) else (0, [])
  | _ => true
  end.

Lemma trickle_sender str : reliable_sender (trickle str).
Proof. intros h d. split; [by intros ->|]. destruct d; simpl; [done|lia]. Qed.

Lemma trickle_consumed str h cs : consumed (trickle str) h cs = Z.of_nat (trickle_pos cs).
Proof.
  revert h. induction cs as [|c cs IH]; intros h; [done|]. cbn [consumed trickle_pos].
  rewrite IH. destruct c; unfold gave; simpl; try lia.
  destruct (Z.leb_spec 1 size); simpl; lia.
Qed.

Lemma trickle_receiver str : reliable_receiver (trickle str) str.
Proof.
  intros h n Hn Hle. rewrite trickle_consumed in *. simpl.
  destruct (Z.leb_spec 1 n).
  - exists 1. rewrite Nat2Z.id. split; [done|lia].
  - exists 0. simpl. split; [done|lia].
Qed.

Lemma sendObject_frames_witness :
  exists cs, sendObject 12 [5; 6; 7] (trickle []) tt [] = (Ok 3, tt, [] ++ cs) /\
    accepted (trickle []) [] cs = [3; 0; 0; 0; 0; 0; 0; 0; 5; 6; 7].
Proof. apply (sendObject_frames (trickle []) [5; 6; 7] 12 tt []); [apply trickle_sender|simpl; lia..]. Defined.

Lemma text_end_to_end_witness :
  exists cs, sendText 12 [72; 105] (trickle []) tt [] = (Ok 2, tt, [] ++ cs) /\
    forall E2, reliable_receiver E2 (accepted (trickle []) [] cs) ->
      exists cs2, receiveText 12 (replicate 8 170) 100 E2 tt [] = (Ok [72; 105], tt, cs2).
Proof.
  apply (text_end_to_end (trickle []) [72; 105] 12 (replicate 8 170) 100 tt []);
    [apply trickle_sender|unfold MAX_SIZE; simpl; lia..].
Defined.

Definition framed : list Z := le_bytes 8 3 ++ [5; 6; 7] ++ [99].

Lemma receiveObject_unframes_witness :
  exists cs, receiveObject 12 (replicate 8 170) [0; 0; 0; 0; 0] (trickle framed) tt [] =
      (Ok [5; 6; 7; 0; 0], tt, cs) /\ consumed (trickle framed) [] cs = 11.
Proof.
  apply (receiveObject_unframes (trickle framed) [5; 6; 7] [99] 12 (replicate 8 170) [0; 0; 0; 0; 0] tt);
    [apply trickle_receiver|simpl; lia..].
Defined.

Lemma receiveObject_too_big_witness :
  exists cs, receiveObject 12 (replicate 8 170) [0; 0] (trickle framed) tt [] =
      (Throw "Incoming object size greater then buffer size", tt, cs) /\
    consumed (trickle framed) [] cs = 8.
Proof.
  apply (receiveObject_too_big (trickle framed) [5; 6; 7] [99] 12 (replicate 8 170) [0; 0] tt);
    [apply trickle_receiver|simpl; lia..].
Defined.

(** A peer that has closed the connection, and one on which every call fails. *)
Definition closed_peer : @env exchanger := fun h c =>
  match c as c return io_reply c with
  | CSend d => SIZE_MAX
  | CReceive n => (0, [])
  | _ => false
  end.

Lemma receiveObject_eof_diverges_witness :
  outcome (receiveObject 1000 (replicate 8 170) [0; 0] closed_peer tt []) = OutOfFuel.
Proof. by apply (receiveObject_eof_diverges closed_peer 1000 (replicate 8 170) [0; 0] tt []). Defined.

Lemma sendObject_error_unnoticed_witness :
  sendObject 1 [5; 6; 7] closed_peer tt [] =
    (Ok SIZE_MAX, tt, [CSend [3; 0; 0; 0; 0; 0; 0; 0]; CSend [5; 6; 7]]).
Proof. by apply (sendObject_error_unnoticed closed_peer [5; 6; 7] 0 tt []). Defined.
