(* ===== verification/Channel.v ===== *)
(** * Devices as channels (the implementations of headers/interfaces/IDataExchanger.h)

    A class that implements [IDataExchanger] answers its virtual calls by running its own code.
    [served_env] turns such a class into the environment of the senders and receivers of
    Transfer.v and Rpc.v: the answer to a call is what the code returns in the state the
    earlier calls have left.  The laws of a [channel] are what a client may rely on; whatever
    satisfies them carries objects and texts unharmed. *)

From S2P Require Import Prelude Transfer.

(** ** Serving the virtual calls *)

Section Served.
Context {W : Type}.
(** [answers w c]: what the call [c] returns in the state [w] of the object (and of what is
    behind it), and the state it leaves, if it returns. *)
Context (answers : W -> forall c : io_call, option (io_reply c * W)).

(** The state after a history of calls, when they all return. *)
Fixpoint served (w : W) (h : list io_call) : option W :=
  match h with
  | [] => Some w
  | c :: h' => '(_, w') ← answers w c; served w' h'
  end.

(** The environment the object is to its clients; what it answers to a call that does not return
    is never looked at. *)
Definition served_env (w : W) : @env exchanger := fun h c =>
  let answer :=
    match served w h with
    | Some w' => match answers w' c with Some (r, _) => Some r | None => None end
    | None => None
    end in
  match c as c return option (io_reply c) -> io_reply c with
  | CSend _ => default 0
  | CReceive _ => default (0, [])
  | CSenderConnected | CReceiverConnected | CConnected => default false
  end answer.

Lemma served_app w h1 h2 : served w (h1 ++ h2) = (w' ← served w h1; served w' h2).
Proof.
  revert w. induction h1 as [|c h1 IH]; intros w; [done|]. cbn [app served].
  destruct (answers w c) as [[r w']|]; [apply IH|done].
Qed.

Lemma served_next w0 h w c r w' :
  served w0 h = Some w -> answers w c = Some (r, w') ->
  served w0 (h ++ [c]) = Some w' /\ served_env w0 h c = r.
Proof.
  intros Hw Ha. split.
  - rewrite served_app, Hw. cbn [mbind option_bind served]. by rewrite Ha.
  - unfold served_env. rewrite Hw, Ha. by destruct c.
Qed.

(** ** Channels *)

(** [ok]: the states in which the object is connected; [out]: the bytes it has handed to the other
    side; [incoming]: those the other side has yet to hand to it; [room]: how many bytes it can
    be offered; [limit]: how many it can be asked for at once. *)
Context (ok : W -> Prop) (out incoming : W -> list Z) (room : W -> Z) (limit : Z).

Record channel : Prop := {
  channel_send w d : ok w -> Z.of_nat (length d) <= room w ->
    exists n w', answers w (CSend d) = Some (n, w') /\ ok w' /\
      0 <= n <= Z.of_nat (length d) /\ (d <> [] -> 1 <= n) /\ room w - n <= room w' /\
      out w' = out w ++ take (Z.to_nat n) d;
  channel_receive w n : ok w -> 0 <= n <= limit -> n <= Z.of_nat (length (incoming w)) ->
    exists m w', answers w (CReceive n) = Some ((m, take (Z.to_nat m) (incoming w)), w') /\
      ok w' /\ 0 <= m <= n /\ (0 < n -> 1 <= m) /\ incoming w' = drop (Z.to_nat m) (incoming w) }.

(** Where a history of calls has left the object. *)
Definition at_out (w0 : W) (h : list io_call) (o : list Z) (r : Z) : Prop :=
  exists w, served w0 h = Some w /\ ok w /\ out w = o /\ room w = r.
Definition at_incoming (w0 : W) (h : list io_call) (i : list Z) : Prop :=
  exists w, served w0 h = Some w /\ ok w /\ incoming w = i.

Lemma channel_sends w0 : channel -> sends_from (at_out w0) (served_env w0).
Proof.
  intros C h d o r (w & Hw & Hok & <- & <-) Hd.
  destruct (channel_send C w d Hok Hd) as (n & w' & Ha & Hok' & Hn & Hn1 & Hr & Ho).
  destruct (served_next w0 h w (CSend d) n w' Hw Ha) as [Hw' HE].
  exists n, (room w'). split_and!; try done; try lia. by exists w'.
Qed.

Lemma channel_receives w0 : channel -> receives_from limit (at_incoming w0) (served_env w0).
Proof.
  intros C h n i (w & Hw & Hok & <-) Hn Hle.
  destruct (channel_receive C w n Hok Hn Hle) as (m & w' & Ha & Hok' & Hm & Hm1 & Hi).
  destruct (served_next w0 h w (CReceive n) _ w' Hw Ha) as [Hw' HE].
  exists m. split_and!; try done; try lia. by exists w'.
Qed.

(** An exact channel moves whole messages, says it is connected, and answers nothing once the
    other side has nothing more to send. *)
Record exact_channel : Prop := {
  exact_send w d : ok w -> Z.of_nat (length d) <= limit ->
    exists w', answers w (CSend d) = Some (Z.of_nat (length d), w') /\ ok w' /\
      out w' = out w ++ d /\ incoming w' = incoming w;
  exact_receive w n : ok w -> 0 <= n <= limit -> n <= Z.of_nat (length (incoming w)) ->
    exists w', answers w (CReceive n) = Some ((n, take (Z.to_nat n) (incoming w)), w') /\ ok w' /\
      out w' = out w /\ incoming w' = drop (Z.to_nat n) (incoming w);
  exact_connected w : ok w ->
    exists w', answers w CConnected = Some (true, w') /\ ok w' /\ out w' = out w /\
      incoming w' = incoming w;
  exact_end w n : ok w -> incoming w = [] -> 0 <= n <= limit ->
    exists w', answers w (CReceive n) = Some ((0, []), w') /\ ok w' /\ out w' = out w }.

(** Where a history of calls has left both directions. *)
Definition at_both (w0 : W) (h : list io_call) (o i : list Z) : Prop :=
  exists w, served w0 h = Some w /\ ok w /\ out w = o /\ incoming w = i.

Lemma exact_sends w0 h d o i :
  exact_channel -> at_both w0 h o i -> Z.of_nat (length d) <= limit ->
  at_both w0 (h ++ [CSend d]) (o ++ d) i.
Proof.
  intros C (w & Hw & Hok & <- & <-) Hd. destruct (exact_send C w d Hok Hd) as (w' & Ha & Hok' & Ho & Hi).
  destruct (served_next w0 h w (CSend d) _ w' Hw Ha) as [Hw' _]. by exists w'.
Qed.

Lemma exact_receives_next w0 h n o i :
  exact_channel -> at_both w0 h o i -> 0 <= n <= limit -> n <= Z.of_nat (length i) ->
  served_env w0 h (CReceive n) = (n, take (Z.to_nat n) i) /\
  at_both w0 (h ++ [CReceive n]) o (drop (Z.to_nat n) i).
Proof.
  intros C (w & Hw & Hok & <- & <-) Hn Hle.
  destruct (exact_receive C w n Hok Hn Hle) as (w' & Ha & Hok' & Ho & Hi).
  destruct (served_next w0 h w (CReceive n) _ w' Hw Ha) as [Hw' HE]. split; [done|]. by exists w'.
Qed.

Lemma exact_says_connected w0 h o i :
  exact_channel -> at_both w0 h o i ->
  served_env w0 h CConnected = true /\ at_both w0 (h ++ [CConnected]) o i.
Proof.
  intros C (w & Hw & Hok & <- & <-). destruct (exact_connected C w Hok) as (w' & Ha & Hok' & Ho & Hi).
  destruct (served_next w0 h w CConnected _ w' Hw Ha) as [Hw' HE]. split; [done|]. by exists w'.
Qed.

Lemma exact_at_end w0 h n o :
  exact_channel -> at_both w0 h o [] -> 0 <= n <= limit ->
  served_env w0 h (CReceive n) = (0, []) /\
  exists w, served w0 (h ++ [CReceive n]) = Some w /\ ok w /\ out w = o.
Proof.
  intros C (w & Hw & Hok & <- & Hi) Hn. destruct (exact_end C w n Hok Hi Hn) as (w' & Ha & Hok' & Ho).
  destruct (served_next w0 h w (CReceive n) _ w' Hw Ha) as [Hw' HE]. split; [done|]. by exists w'.
Qed.

(** A text sent: it has all gone out, framed. *)
Lemma channel_sendText {S} w text fuel (s : S) :
  channel -> ok w -> 8 + Z.of_nat (length text) <= room w -> Z.of_nat (length text) < 2 ^ 64 ->
  (8 + length text < fuel)%nat ->
  exists cs w', sendText fuel text (served_env w) s [] = (Ok (Z.of_nat (length text)), s, cs) /\
    served w cs = Some w' /\ ok w' /\ out w' = out w ++ frame text.
Proof.
  intros C Hok Hroom H64 Hf.
  destruct (sendText_from _ _ text fuel s [] (out w) (room w) (channel_sends w C))
    as (cs & r & Hs & (w' & Hw' & Hok' & Ho & _) & _); try done; [by exists w|].
  by exists cs, w'.
Qed.

(** A text received: it is the one framed at the front of what is to come, and only that is
    consumed. *)
Lemma channel_receiveText {S} w text more fuel garbage max (s : S) :
  channel -> ok w -> incoming w = frame text ++ more -> 8 <= limit ->
  Z.of_nat (length text) <= limit -> Z.of_nat (length text) <= max ->
  Z.of_nat (length text) <= MAX_SIZE -> length garbage = 8%nat -> (8 + length text < fuel)%nat ->
  exists cs w', receiveText fuel garbage max (served_env w) s [] = (Ok text, s, cs) /\
    served w cs = Some w' /\ ok w' /\ incoming w' = more.
Proof.
  intros C Hok Hi H8 Hlim Hmax Hlen Hg Hf.
  destruct (receiveText_from limit _ _ text more fuel garbage max s [] (channel_receives w C))
    as (cs & Hr & (w' & Hw' & Hok' & Hm)); try done; [by exists w|].
  by exists cs, w'.
Qed.
End Served.

(** ** Objects over a kernel *)

(** A class whose methods are programs over a kernel: [IDataExchanger]'s virtual methods. *)
Class Device (K : Sys) (D : Type) := {
  device_send : list Z -> @prog K D Z;
  device_receive : Z -> @prog K D (Z * list Z);
  device_isSenderConnected : @prog K D bool;
  device_isReceiverConnected : @prog K D bool;
  device_isConnected : @prog K D bool }.

(** [IDataExchanger::isConnected], for the classes that do not override it. *)
Definition default_isConnected {K : Sys} {D} (receiver sender : @prog K D bool) : @prog K D bool :=
  r ← receiver; if (r : bool) then sender else mret false.

Section Device.
Context {K : Sys} {D : Type} `{!Device K D}.

(** The object and the calls made to the kernel so far. *)
Definition world : Type := D * list (@call K).

(** A virtual call: the method's outcome, the object and the calls to the kernel it leaves. *)
Definition device_call (E : @env K) (w : world) (c : io_call)
  : res (io_reply c) * D * list (@call K) :=
  match c as c return res (io_reply c) * D * list (@call K) with
  | CSend data => device_send data E w.1 w.2
  | CReceive n => device_receive n E w.1 w.2
  | CSenderConnected => device_isSenderConnected E w.1 w.2
  | CReceiverConnected => device_isReceiverConnected E w.1 w.2
  | CConnected => device_isConnected E w.1 w.2
  end.

Definition device_answers (E : @env K) (w : world) (c : io_call) : option (io_reply c * world) :=
  match device_call E w c with (Ok a, d, h) => Some (a, (d, h)) | _ => None end.

(** A device as the environment of its clients. *)
Definition device_env (E : @env K) (w : world) : @env exchanger := served_env (device_answers E) w.

(** The calls of a client on the device, up to the first that does not return. *)
Fixpoint device_run (E : @env K) (w : world) (cs : list io_call) : res unit * D * list (@call K) :=
  match cs with
  | [] => (Ok tt, w.1, w.2)
  | c :: cs' =>
      match device_call E w c with
      | (Ok _, d, h) => device_run E (d, h) cs'
      | (Throw m, d, h) => (Throw m, d, h)
      | (Block, d, h) => (Block, d, h)
      | (UB why, d, h) => (UB why, d, h)
      | (OutOfFuel, d, h) => (OutOfFuel, d, h)
      end
  end.

(** A client that uses the device, as code over the kernel: what a method throws passes through the
    client, which catches nothing. *)
Definition on_device {S A} (m : @prog exchanger S A) (s : S) : @prog K D A := fun E d h =>
  let '(r, _, cs) := m (device_env E (d, h)) s [] in
  match device_run E (d, h) cs with
  | (Ok _, d', h') => (r, d', h')
  | (Throw e, d', h') => (Throw e, d', h')
  | (Block, d', h') => (Block, d', h')
  | (UB why, d', h') => (UB why, d', h')
  | (OutOfFuel, d', h') => (OutOfFuel, d', h')
  end.

Lemma device_run_served E w cs d h :
  served (device_answers E) w cs = Some (d, h) -> device_run E w cs = (Ok tt, d, h).
Proof.
  revert w. induction cs as [|c cs IH]; intros [d0 h0]; cbn [served device_run].
  - by intros [= -> ->].
  - destruct (device_answers E (d0, h0) c) as [[r w]|] eqn:Ha; [|done]. unfold device_answers in Ha.
    destruct (device_call E (d0, h0) c) as [[[r1| | | |] d1] h1]; try done. injection Ha as _ <-.
    apply IH.
Qed.

Lemma on_device_ok {S A} (m : @prog exchanger S A) s E d h a s' cs d' h' :
  m (device_env E (d, h)) s [] = (Ok a, s', cs) ->
  served (device_answers E) (d, h) cs = Some (d', h') -> on_device m s E d h = (Ok a, d', h').
Proof. intros Hm Hs. unfold on_device. by rewrite Hm, (device_run_served E (d, h) cs d' h' Hs). Qed.
End Device.
Arguments world : clear implicits.

(** What a function of the calls made yields along a history: the bytes written to a descriptor,
    or read from it. *)
Fixpoint along {C A : Type} (f : list C -> C -> list A) (h cs : list C) : list A :=
  match cs with
  | [] => []
  | c :: cs' => f h c ++ along f (h ++ [c]) cs'
  end.

Lemma along_app {C A} (f : list C -> C -> list A) h cs1 cs2 :
  along f h (cs1 ++ cs2) = along f h cs1 ++ along f (h ++ cs1) cs2.
Proof.
  revert h. induction cs1 as [|c cs1 IH]; intros h; simpl; [by rewrite app_nil_r|].
  by rewrite IH, <-!app_assoc.
Qed.

Lemma along_snoc {C A} (f : list C -> C -> list A) h c :
  along f [] (h ++ [c]) = along f [] h ++ f h c.
Proof. rewrite along_app. simpl. by rewrite app_nil_r. Qed.
