(* ===== verification/QueueExchange.v ===== *)
(** * A queue as a channel (headers/concurrency/IDataExchangerQueueAdapter.h)

    [IDataExchangerQueueAdapter<Queue>] makes an [IDataExchanger] of any queue: [send] pushes and
    [receive] pops everything it is asked for.  The template parameter is the class [QueueOps] below;
    the transfer of texts works over any queue that satisfies its laws.  The class of the repository
    that derives from the adapter is [ByteRing], which satisfies them. *)

From S2P Require Import Prelude ByteRing RingSafety RingSpec Transfer Channel.

Class QueueOps (Q : Type) := {
  q_push : Q -> list Z -> res unit * Q;
  q_pop : Q -> Z -> res (list Z) * Q }.

(** ** The adapter *)

Section Adapter.
Context {Q : Type} `{QueueOps Q}.

Definition adapter_send (q : Q) (data : list Z) : res Z * Q :=
  let '(r, q') := q_push q data in (_ ← r; Ok (Z.of_nat (length data)), q').
Definition adapter_receive (q : Q) (dataSize : Z) : res (Z * list Z) * Q :=
  let '(r, q') := q_pop q dataSize in (bytes ← r; Ok (dataSize, bytes), q').
Definition adapter_isSenderConnected (q : Q) : bool := true.
Definition adapter_isReceiverConnected (q : Q) : bool := true.

(** One virtual call on the exchanger: its answer and the queue it leaves, when it returns. *)
Definition serve_call (q : Q) (c : io_call) : option (io_reply c * Q) :=
  match c as c return option (io_reply c * Q) with
  | CSend data => match adapter_send q data with (Ok n, q') => Some (n, q') | _ => None end
  | CReceive n => match adapter_receive q n with (Ok r, q') => Some (r, q') | _ => None end
  | CSenderConnected => Some (adapter_isSenderConnected q, q)
  | CReceiverConnected => Some (adapter_isReceiverConnected q, q)
  | CConnected => Some (adapter_isReceiverConnected q && adapter_isSenderConnected q, q)
  end.

(** The queue as the environment of a sender or a receiver. *)
Definition queue_env (q : Q) : @env exchanger := served_env serve_call q.

(** ** The laws *)

(** [ok]: the states a queue is in between operations; [stored]: the bytes in it; [room]: how many
    more fit. *)
Context (ok : Q -> Prop) (stored : Q -> list Z) (room : Q -> Z).
Record queue_laws : Prop := {
  push_law q data : ok q -> Z.of_nat (length data) <= room q ->
    exists q', q_push q data = (Ok tt, q') /\ ok q' /\ stored q' = stored q ++ data /\
      room q' = room q - Z.of_nat (length data);
  pop_law q n : ok q -> 0 <= n <= Z.of_nat (length (stored q)) ->
    exists q', q_pop q n = (Ok (take (Z.to_nat n) (stored q)), q') /\ ok q' /\
      stored q' = drop (Z.to_nat n) (stored q) /\ room q' = room q + n }.

(** A queue is a channel from its producer to its consumer. *)
Lemma queue_is_channel limit : queue_laws -> channel serve_call ok stored stored room limit.
Proof.
  intros L. split.
  - intros q data Hok Hd. destruct (push_law L q data Hok Hd) as (q' & Hp & Hok' & Hs & Hr).
    exists (Z.of_nat (length data)), q'. unfold serve_call, adapter_send. rewrite Hp.
    rewrite Nat2Z.id, take_ge by lia. split_and!; try done; try lia.
    intros Hne. destruct data; [done|simpl; lia].
  - intros q n Hok Hn Hle. destruct (pop_law L q n Hok) as (q' & Hp & Hok' & Hs & Hr); [lia|].
    exists n, q'. unfold serve_call, adapter_receive. rewrite Hp. split_and!; (done || lia).
Qed.

(** A queue that has been served is at the end of the history. *)
Lemma send_one {S} q0 q h data (s : S) :
  queue_laws -> served serve_call q0 h = Some q -> ok q -> data <> [] ->
  Z.of_nat (length data) <= room q -> Z.of_nat (length data) < 2 ^ 64 ->
  forall fuel, exists q', send_all (Datatypes.S fuel) data 0 (queue_env q0) s h =
      (Ok (Z.of_nat (length data)), s, h ++ [CSend data]) /\
    served serve_call q0 (h ++ [CSend data]) = Some q' /\ ok q' /\ stored q' = stored q ++ data /\
    room q' = room q - Z.of_nat (length data).
Proof.
  intros L Hh Hok Hne Hroom H64 fuel. destruct (push_law L q data Hok Hroom) as (q' & Hp & Hq').
  assert (Hc : serve_call q (CSend data) = Some (Z.of_nat (length data), q')).
  { unfold serve_call, adapter_send. by rewrite Hp. }
  exists q'. split; [|split; [|done]].
  - cbn [send_all]. unfold io_send. erewrite bind_ok by reflexivity. rewrite drop_0.
    destruct (served_next serve_call q0 h q (CSend data) _ q' Hh Hc) as [_ HE].
    unfold queue_env. rewrite HE.
    rewrite Z.add_0_l, wrap_u64_small by lia. by rewrite if_false by (by apply Z.ltb_ge).
  - by destruct (served_next serve_call q0 h q _ _ q' Hh Hc).
Qed.

Lemma receive_one {S} q0 q h buf n (s : S) :
  queue_laws -> served serve_call q0 h = Some q -> ok q -> 0 <= n <= Z.of_nat (length (stored q)) ->
  Z.of_nat (length buf) = n -> n < 2 ^ 64 ->
  forall fuel, exists q', receive_all (Datatypes.S fuel) buf n 0 (queue_env q0) s h =
      (Ok (take (Z.to_nat n) (stored q)), s, h ++ [CReceive n]) /\
    served serve_call q0 (h ++ [CReceive n]) = Some q' /\ ok q' /\ stored q' = drop (Z.to_nat n) (stored q) /\
    room q' = room q + n.
Proof.
  intros L Hh Hok Hn Hbuf H64 fuel. destruct (pop_law L q n Hok Hn) as (q' & Hp & Hq').
  assert (Hc : serve_call q (CReceive n) = Some ((n, take (Z.to_nat n) (stored q)), q')).
  { unfold serve_call, adapter_receive. by rewrite Hp. }
  exists q'. split; [|split; [|done]].
  - cbn [receive_all]. unfold io_receive. erewrite bind_ok by reflexivity. rewrite Z.sub_0_r.
    destruct (served_next serve_call q0 h q (CReceive n) _ q' Hh Hc) as [_ HE].
    unfold queue_env. rewrite HE.
    rewrite bind_lift. unfold overlay. rewrite length_take.
    rewrite (if_false (_ >? _)) by (rewrite Z.gtb_ltb; apply Z.ltb_ge; lia).
    rewrite Z.add_0_l, wrap_u64_small by lia. rewrite if_false by (by apply Z.ltb_ge).
    rewrite drop_ge by lia. by rewrite app_nil_r.
  - by destruct (served_next serve_call q0 h q _ _ q' Hh Hc).
Qed.

(** Texts over queues: on an empty queue with room for the text and its size, [sendText] through
    the adapter returns without blocking, in two pushes, and [receiveText] on the queue it leaves
    returns the same text, in two pops, leaving the queue empty: over any queue that satisfies
    the laws. *)
Lemma text_over_laws {S} q text fuel1 fuel2 garbage max (s : S) :
  queue_laws -> ok q -> stored q = [] -> text <> [] -> 8 + Z.of_nat (length text) <= room q ->
  Z.of_nat (length text) <= max -> Z.of_nat (length text) <= MAX_SIZE -> length garbage = 8%nat ->
  exists cs q', sendText (Datatypes.S fuel1) text (queue_env q) s [] =
      (Ok (Z.of_nat (length text)), s, cs) /\ served serve_call q cs = Some q' /\
    exists cs' q'', receiveText (Datatypes.S fuel2) garbage max (queue_env q') s [] =
        (Ok text, s, cs') /\ served serve_call q' cs' = Some q'' /\ ok q'' /\ stored q'' = [] /\ room q'' = room q.
Proof.
  intros L Hok Hst Hne Hroom Hmax Hlen Hg. set (n := Z.of_nat (length text)) in *.
  assert (Hn : 0 < n) by (unfold n; destruct text; [done|simpl; lia]). unfold MAX_SIZE in *.
  set (hdr := le_bytes 8 n). assert (Hh : length hdr = 8%nat) by apply length_le_bytes.
  destruct (send_one q q [] hdr s L eq_refl Hok) with (fuel := fuel1) as (q1 & R1 & S1 & O1 & C1 & M1);
    [by destruct hdr|lia|lia|].
  destruct (send_one q q1 _ text s L S1 O1 Hne) with (fuel := fuel1) as (q2 & R2 & S2 & O2 & C2 & M2);
    [lia|lia|].
  exists ([CSend hdr] ++ [CSend text]), q2. split.
  { unfold sendText. fold n. fold hdr. erewrite bind_ok by exact R1. exact R2. }
  split; [exact S2|]. rewrite Hst in C1. rewrite C1 in C2.
  destruct (receive_one q2 q2 [] garbage 8 s L eq_refl O2) with (fuel := fuel2)
    as (q3 & R3 & S3 & O3 & C3 & M3); [rewrite C2; len|lia|lia|].
  assert (Hhdr : take (Z.to_nat 8) (stored q2) = hdr) by (rewrite C2; by apply take_app_length').
  assert (Htl : stored q3 = text) by (rewrite C3, C2; by apply drop_app_length').
  destruct (receive_one q2 q3 _ (replicate (Z.to_nat n) 0) n s L S3 O3) with (fuel := fuel2)
    as (q4 & R4 & S4 & O4 & C4 & M4); [rewrite Htl; lia|rewrite length_replicate; lia|lia|].
  exists ([CReceive 8] ++ [CReceive n]), q4. split; [|split; [exact S4|]].
  - unfold receiveText. erewrite bind_ok by exact R3. rewrite Hhdr. unfold hdr.
    rewrite le_val_le_bytes_small by (change (256 ^ Z.of_nat 8) with (2 ^ 64); lia).
    rewrite (if_false (n >? max)) by (rewrite Z.gtb_ltb; apply Z.ltb_ge; lia).
    rewrite (if_false (n >? MAX_SIZE)) by (unfold MAX_SIZE; rewrite Z.gtb_ltb; apply Z.ltb_ge; lia).
    etrans; [exact R4|]. rewrite Htl. rewrite take_ge by lia. done.
  - split; [done|]. split; [|lia]. rewrite C4, Htl. apply drop_ge. lia.
Qed.
End Adapter.

(** ** The ring *)

Section Ring.
Context `{WP : WaitPolicy}.

#[export] Instance ring_queue : QueueOps system := {|
  q_push s data :=
    match push_alone (length data + 9) s data with
    | Ok s' => (Ok tt, s')
    | Throw m => (Throw m, s)
    | Block => (Block, s)
    | UB w => (UB w, s)
    | OutOfFuel => (OutOfFuel, s)
    end;
  q_pop s n :=
    match pop_alone (Z.to_nat n + 9) s n with
    | Ok (bytes, s') => (Ok bytes, s')
    | Throw m => (Throw m, s)
    | Block => (Block, s)
    | UB w => (UB w, s)
    | OutOfFuel => (OutOfFuel, s)
    end |}.

Definition ring_ok (cap : Z) (s : system) : Prop := exists l, represents cap s l.
Definition ring_room (s : system) : Z := freeSpace (p_obj (pr s)) (sh s).

Lemma ring_laws cap : queue_laws (ring_ok cap) contents ring_room.
Proof.
  split.
  - intros s data [l HR] Hroom. destruct (represents_contents cap s l HR) as (Hc & _ & Hf & _).
    unfold ring_room in Hroom. destruct (ring_push_simulates cap s l data HR) as (s' & Hp & HR'); [lia|].
    exists s'. destruct (represents_contents cap s' _ HR') as (Hc' & _ & Hf' & _). simpl.
    rewrite Hp, Hc, Hc'. unfold ring_room. rewrite Hf, Hf', length_app.
    split_and!; [done|by eexists|done|lia].
  - intros s n [l HR] Hn. destruct (represents_contents cap s l HR) as (Hc & _ & Hf & _).
    rewrite Hc in Hn. destruct (ring_pop_simulates cap s l n HR Hn) as (s' & Hp & HR').
    exists s'. destruct (represents_contents cap s' _ HR') as (Hc' & _ & Hf' & _). simpl.
    rewrite Hp, Hc, Hc'. unfold ring_room. rewrite Hf, Hf', length_drop.
    split_and!; [done|by eexists|done|lia].
Qed.

(** C40. Texts over a ring: over a ring as [initRing] makes it, with any memory of the capacity's
    size behind it and any wait policy, [sendText] of a text through the adapter returns its length
    when the ring has room for the text and its size, and [receiveText] on the ring it leaves
    returns the same text when it is not longer than the limits; the ring is then empty again, with all
    its room. *)
Theorem text_over_ring {S} mem cap ring text fuel1 fuel2 garbage max (s : S) :
  made mem cap = Ok ring -> cap <= 2 ^ 63 -> Z.of_nat (length (buffer mem)) = cap ->
  text <> [] -> 8 + Z.of_nat (length text) <= cap - 1 ->
  Z.of_nat (length text) <= max -> Z.of_nat (length text) <= MAX_SIZE -> length garbage = 8%nat ->
  exists cs ring', sendText (Datatypes.S fuel1) text (queue_env ring) s [] =
      (Ok (Z.of_nat (length text)), s, cs) /\ served serve_call ring cs = Some ring' /\
    exists cs' ring'', receiveText (Datatypes.S fuel2) garbage max (queue_env ring') s [] =
        (Ok text, s, cs') /\ served serve_call ring' cs' = Some ring'' /\
      contents ring'' = [] /\ ring_room ring'' = cap - 1.
Proof.
  intros Hm Hcap Hl Hne Hroom Hmax Hlen Hg. pose proof (made_represents mem cap ring Hm Hcap Hl) as HR.
  destruct (represents_contents cap ring [] HR) as (Hc & _ & Hf & _). simpl in Hf.
  assert (Hr : ring_room ring = cap - 1) by (unfold ring_room; rewrite Hf; lia).
  destruct (text_over_laws (ring_ok cap) contents ring_room ring text fuel1 fuel2 garbage max s
    (ring_laws cap)) as (cs & r1 & R1 & S1 & cs' & r2 & R2 & S2 & _ & Hc2 & Hr2);
    [by exists []|done|done|by rewrite Hr|done..|].
  exists cs, r1. split; [exact R1|]. split; [exact S1|]. exists cs', r2.
  split; [exact R2|]. split; [exact S2|]. split; [exact Hc2|]. by rewrite Hr2.
Qed.
End Ring.

#[local] Existing Instance SLIntPrQueueLockPolicy.

(** Sixteen slots with an earlier use in them. *)
Definition old_ring : shared := Shared 3 7 (replicate 16 9) tt.
Lemma text_over_ring_witness : exists ring, made old_ring 16 = Ok ring /\
  exists cs ring', sendText 1 [72; 105] (queue_env ring) tt [] = (Ok 2, tt, cs) /\
    served serve_call ring cs = Some ring' /\
    exists cs' ring'', receiveText 1 (replicate 8 170) 100 (queue_env ring') tt [] =
        (Ok [72; 105], tt, cs') /\ served serve_call ring' cs' = Some ring'' /\
      contents ring'' = [] /\ ring_room ring'' = 15.
Proof.
  eexists. split; [reflexivity|].
  apply (text_over_ring old_ring 16 _ [72; 105] 0 0 (replicate 8 170) 100 tt);
    (reflexivity || discriminate || (vm_compute; discriminate)).
Defined.
