(* ===== verification/TextExample.v ===== *)
(** * Texts through a queue (examples/SPSCQueue/main.cpp, the third pair of threads)

    One thread sends the decimal texts of 0, 1, ... with a [TextSender], the other receives them with a
    [TextReceiver] and counts those it did not expect.  Each is a program over its end of the queue: an
    end that takes bytes and one that hands them out in order, whatever they are made of and however
    they cut what they are given.  The example hands the bodies the [SPSCQueue] of the first pair, whose
    first [push] is undefined as the class is (see [QueueThreads.constructed_queue_carries_nothing]); the
    [ByteRing] of QueueExchange.v is a queue with such ends. *)

From S2P Require Import Prelude ByteRing RingSpec Transfer Channel QueueExchange.

(** ** The two bodies *)

(** [std::to_string] of a [size_t], which has at most 20 digits; 48 is the code of 0. *)
Fixpoint decimal (digits : nat) (n : Z) : list Z :=
  match digits with
  | O => []
  | S d => if n <? 10 then [48 + n] else decimal d (n / 10) ++ [48 + n mod 10]
  end.
Definition to_string (n : Z) : list Z := decimal 20 n.

Section Bodies.
Context {S : Type}.

(** [count] turns of the loop, from the index [i]; [fuel] bounds the calls of one transfer. *)
Fixpoint textProducerBody (fuel count : nat) (i : Z) : prog S unit :=
  match count with
  | O => mret tt
  | Datatypes.S count' => _ ← sendText fuel (to_string i); textProducerBody fuel count' (i + 1)
  end.

(** [garbage]: what the uninitialised size holds; without a limit of its own, the receiver takes any
    text. *)
Fixpoint textConsumerBody (fuel : nat) (garbage : list Z) (count : nat) (i errorCount : Z) : prog S Z :=
  match count with
  | O => mret errorCount
  | Datatypes.S count' =>
      elem ← receiveText fuel garbage SIZE_MAX;
      textConsumerBody fuel garbage count' (i + 1)
        (if bool_decide (elem = to_string i) then errorCount else u64 (errorCount + 1))
  end.

(** What the first body sends: the texts, framed. *)
Fixpoint text_stream (count : nat) (i : Z) : list Z :=
  match count with
  | O => []
  | Datatypes.S count' => frame (to_string i) ++ text_stream count' (i + 1)
  end.

Lemma length_decimal d n : (length (decimal d n) <= d)%nat.
Proof.
  revert n. induction d as [|d IH]; intros n; [done|]. simpl. destruct (n <? 10); [simpl; lia|].
  rewrite length_app. specialize (IH (n / 10)). simpl. lia.
Qed.
Lemma length_to_string n : (length (to_string n) <= 20)%nat.
Proof. apply length_decimal. Qed.

Lemma length_message_frame l : length (frame l) = (8 + length l)%nat.
Proof. unfold frame. by rewrite length_app, length_le_bytes. Qed.

Lemma producer_sends P (E : @env exchanger) fuel count i (s : S) h out room :
  sends_from P E -> P h out room -> Z.of_nat (length (text_stream count i)) <= room -> (28 < fuel)%nat ->
  exists cs room', textProducerBody fuel count i E s h = (Ok tt, s, h ++ cs) /\
    P (h ++ cs) (out ++ text_stream count i) room'.
Proof.
  intros HE. revert i h out room. induction count as [|count IH]; intros i h out room HP Hr Hf.
  - exists [], room. by rewrite !app_nil_r.
  - cbn [text_stream] in Hr. rewrite length_app, length_message_frame in Hr. pose proof (length_to_string i).
    destruct (sendText_from P E (to_string i) fuel s h out room HE HP) as (cs1 & room1 & R1 & P1 & Hr1);
      [lia|lia|lia|].
    destruct (IH (i + 1) (h ++ cs1) _ room1 P1) as (cs2 & room2 & R2 & P2); [lia|done|].
    exists (cs1 ++ cs2), room2. cbn [textProducerBody text_stream]. rewrite (bind_ok _ _ _ _ _ _ _ _ R1).
    rewrite !app_assoc in *. by rewrite R2.
Qed.

Lemma consumer_receives P (E : @env exchanger) fuel garbage count i errs more (s : S) h :
  receives_from SIZE_MAX P E -> P h (text_stream count i ++ more) -> length garbage = 8%nat -> (28 < fuel)%nat ->
  exists cs, textConsumerBody fuel garbage count i errs E s h = (Ok errs, s, h ++ cs) /\ P (h ++ cs) more.
Proof.
  intros HE. revert i h. induction count as [|count IH]; intros i h HP Hg Hf.
  - exists []. by rewrite app_nil_r.
  - cbn [text_stream] in HP. rewrite <-app_assoc in HP. pose proof (length_to_string i).
    destruct (receiveText_from SIZE_MAX P E (to_string i) _ fuel garbage SIZE_MAX s h HE HP) as (cs1 & R1 & P1);
      [unfold SIZE_MAX, MAX_SIZE in *; lia..|].
    destruct (IH (i + 1) (h ++ cs1) P1) as (cs2 & R2 & P2); [done|done|].
    exists (cs1 ++ cs2). cbn [textConsumerBody]. rewrite (bind_ok _ _ _ _ _ _ _ _ R1), bool_decide_true by done.
    rewrite !app_assoc. split; [|done]. exact R2.
Qed.
End Bodies.

(** The text example counts no error, for any number of texts: when what arrives is what the first body
    sends, the second receives every text as it was and takes nothing more; over any ends that move
    bytes in order, however they cut them. *)
Theorem text_example_no_errors {S} Pp Pc (Ep Ec : @env exchanger) count fuel garbage room more (s : S) :
  sends_from Pp Ep -> Pp [] [] room -> Z.of_nat (length (text_stream count 0)) <= room ->
  receives_from SIZE_MAX Pc Ec -> Pc [] (text_stream count 0 ++ more) ->
  length garbage = 8%nat -> (28 < fuel)%nat ->
  exists cs room' cs',
    textProducerBody fuel count 0 Ep s [] = (Ok tt, s, cs) /\ Pp cs (text_stream count 0) room' /\
    textConsumerBody fuel garbage count 0 0 Ec s [] = (Ok 0, s, cs') /\ Pc cs' more.
Proof.
  intros Hp HP Hr Hc HC Hg Hf.
  destruct (producer_sends Pp Ep fuel count 0 s [] [] room Hp HP Hr Hf) as (cs & room' & R1 & P1).
  destruct (consumer_receives Pc Ec fuel garbage count 0 0 more s [] Hc HC Hg Hf) as (cs' & R2 & P2).
  by exists cs, room', cs'.
Qed.

(** ** Witnesses *)

#[local] Existing Instance SLIntPrQueueLockPolicy.

(** Three texts through the byte ring: an empty ring of 32 bytes, and the ring in which the texts have
    been pushed. *)
Definition text_memory : shared := Shared 5 5 (replicate 32 0) tt.
Definition no_ring : system := initial 32 (replicate 32 0) tt.
Definition text_ring : system :=
  match made text_memory 32 with Ok s => s | _ => no_ring end.
Definition text_ring_full : system :=
  match push_alone 40 text_ring (text_stream 3 0) with Ok s => s | _ => no_ring end.

Lemma text_ring_represents : represents 32 text_ring [].
Proof. by apply (made_represents text_memory 32). Qed.

Lemma text_ring_full_represents : represents 32 text_ring_full (text_stream 3 0).
Proof.
  destruct (ring_push_simulates 32 text_ring [] (text_stream 3 0) text_ring_represents) as (s & Hs & HR);
    [by vm_compute|].
  assert (text_ring_full = s) as ->; [|exact HR]. unfold text_ring_full.
  assert (H : push_alone 40 text_ring (text_stream 3 0) =
    push_alone (length (text_stream 3 0) + 9) text_ring (text_stream 3 0)) by (by vm_compute).
  by rewrite H, Hs.
Qed.

Lemma text_example_no_errors_witness :
  exists cs cs', textProducerBody 29 3 0 (queue_env text_ring) tt [] = (Ok tt, tt, cs) /\
    textConsumerBody 29 (replicate 8 170) 3 0 0 (queue_env text_ring_full) tt [] = (Ok 0, tt, cs').
Proof.
  pose proof (queue_is_channel (ring_ok 32) contents ring_room SIZE_MAX (ring_laws 32)) as C.
  destruct (text_example_no_errors (at_out serve_call (ring_ok 32) contents ring_room text_ring)
    (at_incoming serve_call (ring_ok 32) contents text_ring_full) (queue_env text_ring)
    (queue_env text_ring_full) 3 29 (replicate 8 170) 31 [] tt) as (cs & room' & cs' & R1 & _ & R2 & _).
  - apply (channel_sends _ _ _ _ _ _ _ C).
  - exists text_ring. split; [reflexivity|]. split; [eexists; apply text_ring_represents|]. by vm_compute.
  - by vm_compute.
  - apply (channel_receives _ _ _ _ _ _ _ C).
  - exists text_ring_full. split; [reflexivity|]. split; [eexists; apply text_ring_full_represents|].
    by vm_compute.
  - reflexivity.
  - lia.
  - exists cs, cs'. split; [exact R1|exact R2].
Defined.
