(* ===== verification/Rpc.v ===== *)
(** * Remote procedure calls (headers/rpc/RpcCommon.h, RerBuilding.h, RpcClient.h, RpcServer.h,
    src/rpc/RpcClient.cpp, RpcServer.cpp)

    A client packs a call into a 57-byte request, [RpcExecutionRequest], followed by the
    serialized arguments, and waits for the bytes of the result; the server receives the
    request, checks it, receives the arguments, runs the function registered under the number
    and sends the result back.  Both talk through an [IDataExchanger], the environment here.

    [deserialize] copies over the const members of the request it fills, which the language leaves
    undefined.  [const_writes] says what an implementation makes of it: the receiver of a request
    takes it as a parameter.

    The functions a server runs are C++ callables: a parameter, from the values of the
    arguments to an outcome. *)

From S2P Require Import Prelude Numbers MemoryStream BinarySerializer Transfer.

(** ** The request *)

Definition MAGIC : Z := 3735928559.                      (** 0xDEADBEEF *)
Definition MAGIC_FOR_EMPTY_REQUESTS : Z := 4294967295.
Definition MAX_PARAM_COUNT : nat := 6.

(** [params] are the sizes of the six parameter descriptors. *)
Record rer := Rer { magic : Z; functionId : Z; params : list Z; paramCount : Z }.

(** The packed layout: two 32-bit words, six 64-bit words, one byte. *)
Definition SIZEOF_RER : nat := 57.

Definition empty_request : rer := Rer MAGIC_FOR_EMPTY_REQUESTS 0 (replicate MAX_PARAM_COUNT 0) 0.

Definition RpcExecutionRequest (functionId paramCount : Z) : res rer :=
  if paramCount >? Z.of_nat MAX_PARAM_COUNT then Throw "Invalid paramCount"
  else Ok (Rer MAGIC functionId (replicate MAX_PARAM_COUNT 0) paramCount).

Definition checkIntegrity (r : rer) : bool :=
  (magic r =? MAGIC) && (paramCount r <? Z.of_nat MAX_PARAM_COUNT).

(** The object representation. *)
Definition rer_bytes (r : rer) : list Z :=
  le_bytes 4 (magic r) ++ le_bytes 4 (functionId r) ++ concat (le_bytes 8 <$> params r) ++
  le_bytes 1 (paramCount r).
Fixpoint words (n : nat) (bs : list Z) : list Z :=
  match n with
  | O => []
  | S n' => le_val (take 8 bs) :: words n' (drop 8 bs)
  end.
Definition bytes_rer (bs : list Z) : rer :=
  Rer (le_val (take 4 bs)) (le_val (take 4 (drop 4 bs))) (words MAX_PARAM_COUNT (drop 8 bs))
    (le_val (take 1 (drop 56 bs))).

Definition rer_serialize (r : rer) (outBuffer : list Z) : res (list Z) :=
  store outBuffer (rer_bytes r).

(** [magic] and [functionId] are const members, and [deserialize] writes over them through a pointer to
    bytes.  The language leaves that undefined; the compilers in use store the bytes. *)
Inductive const_writes := Undefined | Stored.
Definition const_member_written : string := "a const member is modified".
Definition rer_deserialize (w : const_writes) (inBuffer : list Z) : res rer :=
  bs ← load inBuffer SIZEOF_RER;
  match w with
  | Undefined => UB const_member_written
  | Stored => Ok (bytes_rer bs)
  end.

(** ** RerBuilding::build *)

Abbreviation call_arg := (ctype * Z)%type.

Fixpoint serialize_all (args : list call_arg) (out : stream) : res stream :=
  match args with
  | [] => Ok out
  | (T, z) :: args' => out' ← serialize_stream T z out; serialize_all args' out'
  end.

Fixpoint serialized_sizes (args : list call_arg) : res (list Z) :=
  match args with
  | [] => Ok []
  | (T, _) :: args' => n ← serializedSize T; ns ← serialized_sizes args'; Ok (n :: ns)
  end.

(** [rer.params[i].size = sizes[i]], for every [i] of [sizes]. *)
Definition set_params (r : rer) (sizes : list Z) : rer :=
  Rer (magic r) (functionId r) (sizes ++ drop (length sizes) (params r)) (paramCount r).

Definition total_size (sizes : list Z) : Z := foldl (fun acc n => u64 (acc + n)) 0 sizes.

(** More than [MAX_PARAM_COUNT] arguments do not compile. *)
Definition build (functionId : Z) (args : list call_arg) : res (rer * list Z) :=
  let paramCount := Z.of_nat (length args) in
  r ← RpcExecutionRequest functionId (u8 paramCount);
  if paramCount =? 0 then Ok (r, [])
  else
    serBufferSizes ← serialized_sizes args;
    let totalSize := total_size serBufferSizes in
    let r' := set_params r serBufferSizes in
    let paramsDump := replicate (Z.to_nat totalSize) 0 in
    out ← serialize_all args (MemoryOStream paramsDump totalSize);
    Ok (r', buffer (rdbuf out)).

(** ** RpcClient *)

Definition sendExeRequest {S} (r : rer) (paramsDump : list Z) (replySize : Z)
  : prog S (list Z) :=
  header ← lift (rer_serialize r (replicate SIZEOF_RER 0));
  _ ← send_vector (header ++ paramsDump);
  receive_vector replySize.

(** The call operator of the callable that [get] returns. *)
Definition get_call {S} (RetType : ctype) (functionId : Z) (args : list call_arg) : prog S Z :=
  replySize ← lift (match RetType with TVoid => Ok 1 | _ => serializedSize RetType end);
  '(r, paramsDump) ← lift (build functionId args);
  serializedReply ← sendExeRequest r paramsDump replySize;
  match RetType with
  | TVoid => mret 0
  | _ => lift (deserialize RetType serializedReply (Z.of_nat (length serializedReply)))
  end.

(** ** RpcServer *)

Inductive InvalidRequestReason :=
  RER_INTEGRITY_CHECK_FAILED | INVALID_FUNCTION_ID | BAD_PARAMETERS.

Definition RpcFunction : Type := rer -> list Z -> res (list Z).
Definition InvalidRequestEventHandler : Type := rer -> InvalidRequestReason -> res bool.

Record server := Server {
  funStore : gmap Z RpcFunction;
  invalidRequestEventHandler : InvalidRequestEventHandler }.

(** The handler the constructor installs always throws. *)
Definition default_handler : InvalidRequestEventHandler := fun _ reason =>
  match reason with
  | INVALID_FUNCTION_ID => Throw "Invalid request: invalid functionId"
  | BAD_PARAMETERS => Throw "Invalid request: bad parameters"
  | RER_INTEGRITY_CHECK_FAILED => Throw "Invalid request: failed integrity check"
  end.

Definition RpcServer : server := Server ∅ default_handler.

Definition registerRpcFunction (s : server) (rpcFunction : RpcFunction) (functionId : Z) : server :=
  Server (<[functionId := rpcFunction]> (funStore s)) (invalidRequestEventHandler s).

Definition setInvalidRequestEventHandler (s : server) (h : InvalidRequestEventHandler) : server :=
  Server (funStore s) h.

(** [function(deserialize<Args>(stream)...)]: the language does not fix the order in which
    the arguments of a call are evaluated.  [order] lists the indices in the order chosen. *)
Fixpoint deserialize_in_order (Args : list ity) (order : list nat) (values : list Z) (inp : stream)
  : res (list Z) :=
  match order with
  | [] => Ok values
  | k :: order' =>
      match Args !! k with
      | None => UB "no such argument"
      | Some t =>
          '(z, inp') ← deserialize_stream (TFund t) inp;
          deserialize_in_order Args order' (<[k := z]> values) inp'
      end
  end.

(** The callable that [registerFunctionInternal] stores. *)
Definition wrap_function (Result : ctype) (Args : list ity) (order : list nat)
  (function : list Z -> res Z) : RpcFunction := fun _ params =>
  let memoryIStream := MemoryIStream params (Z.of_nat (length params)) in
  values ← deserialize_in_order Args order (replicate (length Args) 0) memoryIStream;
  result ← function values;
  match Result with
  | TVoid => Ok [0]
  | _ => serialize Result result
  end.

Definition registerFunction (s : server) (Result : ctype) (Args : list ity) (order : list nat)
  (function : list Z -> res Z) (functionId : Z) : server :=
  registerRpcFunction s (wrap_function Result Args order function) functionId.

(** [for (i = 0; i < paramCount; ++i) total += params[i].size;] *)
Fixpoint sum_params (n : nat) (params : list Z) (i : nat) (acc : Z) : res Z :=
  match n with
  | O => Ok acc
  | S n' =>
      match params !! i with
      | None => UB "read outside params"
      | Some size => sum_params n' params (S i) (u64 (acc + size))
      end
  end.

Definition oneShot (w : const_writes) : prog server bool :=
  serExeRequest ← receive_vector (Z.of_nat SIZEOF_RER);
  if negb (length serExeRequest =? SIZEOF_RER)%nat then mret false
  else
    exeRequest ← lift (rer_deserialize w serExeRequest);
    handler ← gets invalidRequestEventHandler;
    if negb (checkIntegrity exeRequest)
    then lift (handler exeRequest RER_INTEGRITY_CHECK_FAILED)
    else
      store ← gets funStore;
      match store !! functionId exeRequest with
      | None => lift (handler exeRequest INVALID_FUNCTION_ID)
      | Some rpcFunction =>
          total ← lift (sum_params (Z.to_nat (paramCount exeRequest)) (params exeRequest) 0 0);
          allParametersBuffer ← (if total >? 0 then receive_vector total else mret []);
          if negb (Z.of_nat (length allParametersBuffer) =? total)
          then lift (handler exeRequest BAD_PARAMETERS)
          else
            result ← lift (rpcFunction exeRequest allParametersBuffer);
            _ ← send_vector result;
            mret true
      end.

Fixpoint run (w : const_writes) (fuel : nat) : prog server unit :=
  match fuel with
  | O => lift OutOfFuel
  | S fuel' =>
      c ← isConnected;
      if (c : bool) then
        connectionStatus ← oneShot w;
        if (connectionStatus : bool) then run w fuel' else mret tt
      else mret tt
  end.

(** ** Well-formed requests *)

Record rer_ok (r : rer) : Prop := RerOk {
  ro_magic : in_u 32 (magic r);
  ro_fid : in_u 32 (functionId r);
  ro_params : Forall is_size (params r);
  ro_count : length (params r) = MAX_PARAM_COUNT;
  ro_pc : is_byte (paramCount r) }.

Lemma length_words8 ps : length (concat (le_bytes 8 <$> ps)) = (8 * length ps)%nat.
Proof.
  induction ps as [|p ps IH]; [done|]. cbn [fmap list_fmap concat length].
  rewrite length_app, length_le_bytes. change (list_fmap Z (list Z)) with (@fmap list _ Z (list Z)).
  rewrite IH. lia.
Qed.

Lemma length_rer_bytes r : length (params r) = MAX_PARAM_COUNT -> length (rer_bytes r) = SIZEOF_RER.
Proof.
  intros H. unfold rer_bytes. rewrite !length_app, !length_le_bytes, length_words8, H. done.
Qed.

Lemma words_concat ps more :
  Forall is_size ps -> words (length ps) (concat (le_bytes 8 <$> ps) ++ more) = ps.
Proof.
  induction 1 as [|p ps Hp _ IH]; [done|].
  cbn [fmap list_fmap concat length words]. rewrite <- app_assoc.
  rewrite take_app_length', drop_app_length' by (by rewrite length_le_bytes).
  change (list_fmap Z (list Z)) with (@fmap list _ Z (list Z)). rewrite IH.
  f_equal. apply le_val_le_bytes_small. exact Hp.
Qed.

Lemma rer_serialize_bytes r :
  rer_ok r -> rer_serialize r (replicate SIZEOF_RER 0) = Ok (rer_bytes r).
Proof.
  intros Hok. unfold rer_serialize, store. rewrite (length_rer_bytes r (ro_count _ Hok)).
  rewrite length_replicate, Nat.leb_refl, drop_ge, app_nil_r; [done|].
  by rewrite length_replicate.
Qed.

Lemma rer_deserialize_bytes r : rer_ok r -> rer_deserialize Stored (rer_bytes r) = Ok r.
Proof.
  intros [Hm Hf Hp Hn Hc]. pose proof (length_rer_bytes r Hn) as Hl.
  unfold rer_deserialize, load. rewrite Hl, Nat.leb_refl. cbn [mbind res_bind].
  rewrite take_ge by lia. f_equal. destruct r as [m f ps c]. unfold bytes_rer, rer_bytes.
  cbn [magic functionId params paramCount] in *. f_equal.
  - rewrite take_app_length' by (by rewrite length_le_bytes). by apply le_val_le_bytes_small.
  - rewrite drop_app_length', take_app_length' by (by rewrite length_le_bytes).
    by apply le_val_le_bytes_small.
  - rewrite app_assoc, drop_app_length' by (by rewrite length_app, !length_le_bytes).
    rewrite <- Hn. by apply words_concat.
  - rewrite !app_assoc, drop_app_length'.
    + rewrite take_ge by done. by apply le_val_le_bytes_small.
    + rewrite !length_app, !length_le_bytes, length_words8, Hn. done.
Qed.

(** Round trip of the request: what [serialize] writes, [deserialize] reads back, field by
    field, and its representation is the 57 bytes of the packed structure. *)
Theorem request_roundtrip r :
  rer_ok r ->
  exists bytes, rer_serialize r (replicate SIZEOF_RER 0) = Ok bytes /\
    length bytes = SIZEOF_RER /\ rer_deserialize Stored bytes = Ok r.
Proof.
  intros Hok. exists (rer_bytes r). split_and!; [by apply rer_serialize_bytes| |].
  - apply length_rer_bytes, ro_count, Hok.
  - by apply rer_deserialize_bytes.
Qed.

(** ** Building a request *)

Definition as_call (a : arg) : call_arg := (TFund a.1, a.2).

Lemma serialize_all_args args out :
  serialize_all (as_call <$> args) out = serialize_args args out.
Proof.
  revert out. induction args as [|[t z] args IH]; intros out; [done|].
  cbn [fmap list_fmap serialize_all serialize_args as_call fst snd].
  destruct (serialize_stream (TFund t) z out); try done. apply IH.
Qed.

Definition arg_sizes (args : list arg) : list Z := (fun a => Z.of_nat (sizeof a.1)) <$> args.

Lemma serialized_sizes_args args : serialized_sizes (as_call <$> args) = Ok (arg_sizes args).
Proof.
  induction args as [|[t z] args IH]; [done|]. rewrite fmap_cons.
  cbn [serialized_sizes as_call fst snd serializedSize mbind res_bind]. by rewrite IH.
Qed.

Lemma sizeof_small t : fundamental t -> (1 <= sizeof t <= 8)%nat.
Proof. unfold fundamental, sizeof. intros [-> | [-> | [-> | ->]]]; vm_compute; lia. Qed.

Lemma args_bytes_small args :
  Forall arg_ok args -> (length (args_bytes args) <= 8 * length args)%nat.
Proof.
  induction 1 as [|[t z] args [Hf _] _ IH]; [simpl; lia|].
  change (args_bytes ((t, z) :: args)) with (object_bytes t z ++ args_bytes args).
  rewrite length_app, length_object_bytes. simpl in Hf.
  pose proof (sizeof_small t Hf). simpl length. lia.
Qed.

Lemma total_size_acc args acc :
  Forall arg_ok args -> 0 <= acc -> acc + 8 * Z.of_nat (length args) < 18446744073709551616 ->
  foldl (fun acc n => u64 (acc + n)) acc (arg_sizes args) =
  acc + Z.of_nat (length (args_bytes args)).
Proof.
  intros Hall. revert acc. induction Hall as [|[t z] args [Hf _] _ IH]; intros acc Ha Hb.
  - simpl. lia.
  - change (args_bytes ((t, z) :: args)) with (object_bytes t z ++ args_bytes args).
    rewrite length_app, length_object_bytes. simpl in Hf. pose proof (sizeof_small t Hf).
    change (arg_sizes ((t, z) :: args)) with (Z.of_nat (sizeof t) :: arg_sizes args).
    simpl length in Hb. cbn [foldl]. rewrite wrap_u64_small by lia. rewrite IH by lia. lia.
Qed.

(** The request [build] makes for [args]. *)
Definition request (fid : Z) (args : list arg) : rer :=
  Rer MAGIC fid (arg_sizes args ++ replicate (MAX_PARAM_COUNT - length args) 0)
    (Z.of_nat (length args)).

Lemma request_ok fid args :
  in_u 32 fid -> Forall arg_ok args -> (length args <= MAX_PARAM_COUNT)%nat ->
  rer_ok (request fid args).
Proof.
  intros Hf Hall Hn. unfold MAX_PARAM_COUNT in *. split; simpl.
  - unfold in_u, MAGIC. lia.
  - done.
  - apply Forall_app. split; [|apply Forall_replicate; unfold in_u; lia].
    unfold arg_sizes. apply Forall_fmap. eapply Forall_impl; [exact Hall|].
    intros [t z] [Hft _]. simpl in *. pose proof (sizeof_small t Hft). unfold in_u. lia.
  - unfold arg_sizes. rewrite length_app, length_fmap, length_replicate. unfold MAX_PARAM_COUNT. lia.
  - unfold in_u. lia.
Qed.

Lemma build_packs_spec fid args :
  Forall arg_ok args -> (length args <= MAX_PARAM_COUNT)%nat ->
  build fid (as_call <$> args) = Ok (request fid args, args_bytes args).
Proof.
  intros Hall Hn. unfold MAX_PARAM_COUNT in Hn. unfold build. rewrite length_fmap.
  unfold wrap. rewrite Z.mod_small by lia. unfold RpcExecutionRequest, MAX_PARAM_COUNT.
  destruct (Z.gtb_spec (Z.of_nat (length args)) (Z.of_nat 6)); [lia|].
  cbn [mbind res_bind]. destruct (Z.eqb_spec (Z.of_nat (length args)) 0) as [H0|H0].
  { by destruct args. }
  rewrite serialized_sizes_args. cbn [mbind res_bind].
  pose proof (args_bytes_small args Hall).
  assert (total_size (arg_sizes args) = Z.of_nat (length (args_bytes args))) as ->.
  { unfold total_size. rewrite total_size_acc by (done || lia). lia. }
  rewrite serialize_all_args, Nat2Z.id.
  destruct (args_roundtrip_spec args (replicate (length (args_bytes args)) 0) Hall)
    as (out & inp & Hs & _ & Hb & _); [by rewrite length_replicate|].
  rewrite length_replicate in Hs. rewrite Hs. cbn [mbind res_bind]. rewrite Hb.
  do 2 f_equal. unfold set_params, request. cbn [magic functionId params paramCount].
  f_equal. f_equal. unfold arg_sizes. rewrite length_fmap. apply drop_replicate.
Qed.

(** [build] packs a call faithfully: the request carries the magic number, the function
    number, the number of arguments and their sizes, and the dump is the concatenation of the
    serialized arguments, without a byte more or less. *)
Theorem build_packs_arguments fid args :
  Forall arg_ok args -> (length args <= MAX_PARAM_COUNT)%nat ->
  build fid (as_call <$> args) = Ok (request fid args, args_bytes args).
Proof. apply build_packs_spec. Qed.

(** ** Exchanging bytes *)

(** A receiver that delivers all it is asked for, from the stream [str]. *)
Definition exact_receiver (E : @env exchanger) (str : list Z) : Prop :=
  forall h n, 0 <= n -> consumed E [] h + n <= Z.of_nat (length str) ->
    E h (CReceive n : iocall) = (n, take (Z.to_nat n) (drop (Z.to_nat (consumed E [] h)) str)).

Lemma overlay_full n bytes :
  length bytes = n -> overlay (replicate n 0) 0 (Z.of_nat n) bytes = Ok bytes.
Proof.
  intros Hl. unfold overlay. rewrite Hl.
  destruct (Z.gtb_spec (Z.of_nat n) (Z.of_nat n)); [lia|].
  simpl. by rewrite drop_ge, app_nil_r by (rewrite length_replicate; lia).
Qed.

Lemma resize_same l : Z.of_nat (length l) <= MAX_SIZE -> resize l (Z.of_nat (length l)) = Ok l.
Proof.
  intros Hl. unfold resize. destruct (Z.gtb_spec (Z.of_nat (length l)) MAX_SIZE); [lia|].
  by rewrite Nat2Z.id, take_ge, Nat.sub_diag, app_nil_r by lia.
Qed.

(** A vector received from a peer that answers with all the bytes asked for. *)
Lemma receive_vector_all {S} (E : @env exchanger) (s : S) h bytes :
  Z.of_nat (length bytes) <= MAX_SIZE ->
  E h (CReceive (Z.of_nat (length bytes)) : iocall) = (Z.of_nat (length bytes), bytes) ->
  receive_vector (Z.of_nat (length bytes)) E s h =
    (Ok bytes, s, h ++ [CReceive (Z.of_nat (length bytes)) : iocall]).
Proof.
  intros Hl HE. unfold receive_vector.
  destruct (Z.gtb_spec (Z.of_nat (length bytes)) MAX_SIZE); [lia|].
  unfold mbind, prog_bind, io_receive, sys. rewrite HE. unfold lift.
  by rewrite Nat2Z.id, overlay_full, resize_same.
Qed.

(** What such a receiver promises, along a history: [P h incoming] says that after the calls [h] the
    bytes [incoming] are still to come. *)
Definition receives_exactly (limit : Z) (P : list iocall -> list Z -> Prop) (E : @env exchanger) : Prop :=
  forall h n incoming, P h incoming -> 0 <= n <= limit -> n <= Z.of_nat (length incoming) ->
    E h (CReceive n : iocall) = (n, take (Z.to_nat n) incoming) /\
    P (h ++ [CReceive n : iocall]) (drop (Z.to_nat n) incoming).

Definition at_position (E : @env exchanger) (str : list Z) (h : list iocall) (incoming : list Z) : Prop :=
  0 <= consumed E [] h <= Z.of_nat (length str) /\ incoming = drop (Z.to_nat (consumed E [] h)) str.

Lemma exact_receives E str limit :
  exact_receiver E str -> receives_exactly limit (at_position E str) E.
Proof.
  intros HE h n incoming [Hc ->] Hn Hle. rewrite length_drop in Hle.
  pose proof (HE h n ltac:(lia) ltac:(lia)) as Hr.
  assert (consumed E [] (h ++ [CReceive n : iocall]) = consumed E [] h + n) as Hc1.
  { rewrite consumed_app. cbn [consumed app]. unfold gave. rewrite Hr. simpl. lia. }
  split; [done|]. unfold at_position. rewrite Hc1, drop_drop. split; [lia|]. f_equal. lia.
Qed.

Lemma receive_vector_exact {S} limit P E (s : S) h bytes more :
  receives_exactly limit P E -> P h (bytes ++ more) -> Z.of_nat (length bytes) <= limit ->
  Z.of_nat (length bytes) <= MAX_SIZE ->
  receive_vector (Z.of_nat (length bytes)) E s h =
    (Ok bytes, s, h ++ [CReceive (Z.of_nat (length bytes)) : iocall]) /\
  P (h ++ [CReceive (Z.of_nat (length bytes)) : iocall]) more.
Proof.
  intros HE HP Hlim Hl.
  destruct (HE h (Z.of_nat (length bytes)) _ HP) as [Hr HP1]; [lia|len|].
  rewrite Nat2Z.id in *. rewrite take_app_length in Hr. rewrite drop_app_length in HP1.
  split; [by apply receive_vector_all|done].
Qed.

(** ** Deserialising the arguments *)

Lemma deserialize_in_order_left ts inp pre acc n :
  length acc = length pre -> n = length ts ->
  deserialize_in_order (pre ++ ts) (seq (length pre) (length ts)) (acc ++ replicate n 0) inp =
  ('(zs, inp') ← deserialize_args ts inp; Ok (acc ++ zs)).
Proof.
  revert pre acc inp n. induction ts as [|t ts IH]; intros pre acc inp n Hl ->.
  - simpl. by rewrite app_nil_r.
  - cbn [length seq deserialize_in_order deserialize_args replicate].
    rewrite list_lookup_middle by done. destruct (deserialize_stream (TFund t) inp) as [[z i]| | | |];
      try done. cbn [mbind res_bind].
    rewrite insert_app_r_alt by lia. rewrite Hl, Nat.sub_diag. simpl insert.
    specialize (IH (pre ++ [t]) (acc ++ [z]) i (length ts)).
    rewrite !length_app, <- !app_assoc in IH. simpl length in IH. rewrite !Nat.add_1_r in IH.
    simpl app in IH. rewrite IH by lia.
    destruct (deserialize_args ts i) as [[zs i']| | | |]; try done. cbn [mbind res_bind].
    by rewrite <- app_assoc.
Qed.

Lemma wrap_function_in_order Result args f r :
  Forall arg_ok args ->
  wrap_function Result (fst <$> args) (seq 0 (length args)) f r (args_bytes args) =
  (result ← f (snd <$> args);
   match Result with TVoid => Ok [0] | _ => serialize Result result end).
Proof.
  intros Hall. unfold wrap_function. rewrite length_fmap.
  pose proof (deserialize_in_order_left (fst <$> args)
    (MemoryIStream (args_bytes args) (Z.of_nat (length (args_bytes args)))) [] [] (length args)) as Hd.
  rewrite !length_fmap in Hd. cbn [app length] in Hd. rewrite Hd by done.
  destruct (deserialize_args_rest args
    (MemoryIStream (args_bytes args) (Z.of_nat (length (args_bytes args)))) [] Hall)
    as (i & -> & _); try done.
  - split; simpl; lia.
  - unfold rest. simpl. by rewrite drop_0, take_ge, app_nil_r by lia.
Qed.

Lemma sum_params_request ps i n acc :
  Forall (fun p => 0 <= p <= 8) ps -> (i + n <= length ps)%nat -> 0 <= acc ->
  acc + 8 * Z.of_nat n < 18446744073709551616 ->
  sum_params n ps i acc = Ok (foldl (fun acc n => u64 (acc + n)) acc (take n (drop i ps))).
Proof.
  intros Hall. revert i acc. induction n as [|n IH]; intros i acc Hi Ha Hb.
  - by rewrite take_0.
  - cbn [sum_params]. destruct (lookup_lt_is_Some_2 ps i) as [p Hp]; [lia|].
    rewrite Hp, (drop_S ps p i) by done. cbn [take foldl].
    pose proof (Forall_lookup_1 _ _ _ _ Hall Hp) as Hp8. simpl in Hp8.
    rewrite wrap_u64_small by lia. apply IH; lia.
Qed.

Lemma request_total fid args :
  Forall arg_ok args -> (length args <= MAX_PARAM_COUNT)%nat ->
  sum_params (Z.to_nat (paramCount (request fid args))) (params (request fid args)) 0 0 =
  Ok (Z.of_nat (length (args_bytes args))).
Proof.
  intros Hall Hn. unfold MAX_PARAM_COUNT in Hn. simpl. rewrite Nat2Z.id.
  assert (length (arg_sizes args) = length args) as Hl by (unfold arg_sizes; by rewrite length_fmap).
  rewrite sum_params_request; try lia.
  - rewrite drop_0, take_app_length' by done. rewrite total_size_acc by (done || lia). f_equal.
  - apply Forall_app. split; [|apply Forall_replicate; lia]. unfold arg_sizes. apply Forall_fmap.
    eapply Forall_impl; [exact Hall|]. intros [t z] [Hf _]. simpl in *.
    pose proof (sizeof_small t Hf). lia.
  - rewrite length_app, length_replicate. unfold MAX_PARAM_COUNT. lia.
Qed.

(** ** A call end to end *)

(** The receives of a server that serves [request fid args], and its answer. *)
Definition server_calls (args : list arg) : list iocall :=
  CReceive (Z.of_nat SIZEOF_RER) ::
  (if decide (args_bytes args = []) then [] else [CReceive (Z.of_nat (length (args_bytes args)))]).

(** What the server has done when it has received a request and found the function. *)
Lemma oneShot_dispatch limit P E srv h fid args f more :
  in_u 32 fid -> Forall arg_ok args -> (length args < MAX_PARAM_COUNT)%nat ->
  funStore srv !! fid = Some f -> Z.of_nat SIZEOF_RER <= limit ->
  receives_exactly limit P E -> P h (rer_bytes (request fid args) ++ args_bytes args ++ more) ->
  oneShot Stored E srv h =
    match f (request fid args) (args_bytes args) with
    | Ok reply => (Ok true, srv, (h ++ server_calls args) ++ [CSend reply])
    | Throw m => (Throw m, srv, h ++ server_calls args)
    | Block => (Block, srv, h ++ server_calls args)
    | UB w => (UB w, srv, h ++ server_calls args)
    | OutOfFuel => (OutOfFuel, srv, h ++ server_calls args)
    end /\ P (h ++ server_calls args) more.
Proof.
  intros Hfid Hall Hn Hf Hlim HE HP. pose proof (request_ok fid args Hfid Hall ltac:(lia)) as Hok.
  pose proof (length_rer_bytes _ (ro_count _ Hok)) as Hl.
  pose proof (args_bytes_small args Hall) as Hsmall. unfold MAX_PARAM_COUNT in *.
  destruct (receive_vector_exact limit P E srv h _ _ HE HP) as [Hr1 HP1];
    [rewrite Hl; lia|rewrite Hl; unfold SIZEOF_RER, MAX_SIZE; lia|].
  rewrite Hl in Hr1, HP1. unfold oneShot. rewrite (bind_ok _ _ _ _ _ _ _ _ Hr1).
  rewrite Hl, Nat.eqb_refl. cbn [negb].
  rewrite bind_lift, (rer_deserialize_bytes _ Hok), bind_gets.
  assert (checkIntegrity (request fid args) = true) as ->.
  { apply andb_true_iff. split; [reflexivity|]. apply Z.ltb_lt.
    unfold MAX_PARAM_COUNT. simpl. lia. }
  cbn [negb]. rewrite bind_gets. change (functionId (request fid args)) with fid. rewrite Hf.
  rewrite bind_lift, request_total by (done || unfold MAX_PARAM_COUNT; lia).
  unfold server_calls. case_decide as Hempty.
  - rewrite Hempty in *. erewrite bind_ok by reflexivity.
    rewrite Z.eqb_refl. cbn [negb]. rewrite bind_lift. by destruct (f (request fid args) []).
  - assert (0 < Z.of_nat (length (args_bytes args))) by (destruct (args_bytes args); simpl; [done|lia]).
    destruct (Z.gtb_spec (Z.of_nat (length (args_bytes args))) 0); [|lia].
    destruct (receive_vector_exact limit P E srv _ _ _ HE HP1) as [Hr2 HP2];
      [unfold SIZEOF_RER in *; lia|unfold MAX_SIZE; lia|].
    rewrite (bind_ok _ _ _ _ _ _ _ _ Hr2), Z.eqb_refl. cbn [negb].
    rewrite <-!app_assoc in *. cbn [app] in *. split; [|done].
    rewrite bind_lift. destruct (f (request fid args) (args_bytes args)); try done.
Qed.

(** What the client does with a call: one send and one receive. *)
Lemma client_call {S} (E : @env exchanger) (s : S) t fid args h reply :
  Forall arg_ok args -> (length args <= MAX_PARAM_COUNT)%nat -> in_u 32 fid -> fundamental t ->
  length reply = sizeof t ->
  E (h ++ [CSend (rer_bytes (request fid args) ++ args_bytes args)])
    (CReceive (Z.of_nat (sizeof t)) : iocall) = (Z.of_nat (sizeof t), reply) ->
  get_call (TFund t) fid (as_call <$> args) E s h =
    (Ok (bytes_object t reply), s,
     h ++ [CSend (rer_bytes (request fid args) ++ args_bytes args); CReceive (Z.of_nat (sizeof t))]).
Proof.
  intros Hall Hn Hfid Hft Hl HE. pose proof (sizeof_small t Hft). unfold get_call.
  rewrite bind_lift. cbn [serializedSize]. rewrite bind_lift, build_packs_spec by done.
  unfold sendExeRequest. rewrite <- Hl in HE |- *.
  erewrite bind_ok.
  2: { rewrite bind_lift, rer_serialize_bytes by (by apply request_ok).
       rewrite bind_send.
       apply receive_vector_all; [unfold MAX_SIZE; lia|exact HE]. }
  unfold lift. cbn [deserialize]. rewrite Hl, Z.ltb_irrefl. unfold load. rewrite Hl, Nat.leb_refl.
  cbn [mbind res_bind]. rewrite take_ge by lia. by rewrite <- app_assoc.
Qed.

(** ** Theorems *)


(** The sixth parameter: a client can build a request with six arguments, which is what
    the descriptor array has room for, but the server's integrity check wants fewer than six
    and rejects it, whatever functions are registered. *)
Theorem six_parameters_rejected E srv fid args more :
  in_u 32 fid -> Forall arg_ok args -> length args = MAX_PARAM_COUNT ->
  exact_receiver E (rer_bytes (request fid args) ++ more) ->
  build fid (as_call <$> args) = Ok (request fid args, args_bytes args) /\
  oneShot Stored E srv [] = (invalidRequestEventHandler srv (request fid args) RER_INTEGRITY_CHECK_FAILED,
                      srv, [CReceive (Z.of_nat SIZEOF_RER)]).
Proof.
  intros Hfid Hall Hn HE. split; [apply build_packs_spec; [done|lia]|].
  pose proof (request_ok fid args Hfid Hall ltac:(lia)) as Hok.
  pose proof (length_rer_bytes _ (ro_count _ Hok)) as Hl.
  destruct (receive_vector_exact 57 _ E srv [] (rer_bytes (request fid args)) more
    (exact_receives E _ 57 HE)) as [Hr _]; [by split; [simpl; lia|]|..].
  { rewrite Hl. unfold SIZEOF_RER. lia. }
  { rewrite Hl. unfold SIZEOF_RER, MAX_SIZE. lia. }
  rewrite Hl in Hr. unfold oneShot. rewrite (bind_ok _ _ _ _ _ _ _ _ Hr).
  rewrite Hl, Nat.eqb_refl. cbn [negb]. rewrite bind_lift, (rer_deserialize_bytes _ Hok), bind_gets.
  replace (checkIntegrity (request fid args)) with false; [done|]. symmetry.
  apply andb_false_iff. right. apply Z.ltb_ge. simpl. lia.
Qed.

(** A peer within the contract of [receive]: it stores as many bytes as it says, at most as
    many as asked. *)
Definition contract (E : @env exchanger) : Prop :=
  forall h n, 0 <= n -> exists m bytes, E h (CReceive n : iocall) = (m, bytes) /\
    m = Z.of_nat (length bytes) /\ m <= n.

Lemma receive_vector_contract {S} E (s : S) h n :
  contract E -> 0 <= n ->
  receive_vector n E s h = (Throw "length_error", s, h) \/
  exists bytes, receive_vector n E s h = (Ok bytes, s, h ++ [CReceive n : iocall]).
Proof.
  intros HE Hn. unfold receive_vector. destruct (Z.gtb_spec n MAX_SIZE) as [|Hmax]; [by left|right].
  destruct (HE h n Hn) as (m & bytes & Hr & Hm & Hle).
  unfold mbind, prog_bind, io_receive, sys. rewrite Hr. unfold lift, overlay.
  destruct (Z.gtb_spec (Z.of_nat (length bytes)) n); [lia|].
  unfold resize. destruct (Z.gtb_spec m MAX_SIZE); [lia|]. by eexists.
Qed.

(** Functions registered through [registerFunction] read only the bytes they are given. *)
Definition never_undefined (g : RpcFunction) : Prop := forall r bs, ~ undefined (g r bs).

Lemma deserialize_in_order_safe Args order values inp :
  Forall (fun k => (k < length Args)%nat) order -> mem_ok (rdbuf inp) ->
  ~ undefined (deserialize_in_order Args order values inp).
Proof.
  intros Hall. revert values inp. induction Hall as [|k order Hk _ IH]; intros values inp Hok.
  - by intros [w Hw].
  - cbn [deserialize_in_order deserialize_stream].
    destruct (lookup_lt_is_Some_2 Args k Hk) as [t ->]. destruct (failed inp) eqn:Hf.
    + unfold read. rewrite Hf. cbn [mbind res_bind]. rewrite Hf. by intros [w Hw].
    + destruct (stream_read_spec inp (Z.of_nat (sizeof t)) Hok Hf) as (i & -> & Hok' & _); [lia|].
      cbn [mbind res_bind]. destruct (failed i); [by intros [w Hw]|]. by apply IH.
Qed.

Lemma wrap_function_safe t Args order f :
  Forall (fun k => (k < length Args)%nat) order -> (forall zs, ~ undefined (f zs)) ->
  never_undefined (wrap_function (TFund t) Args order f).
Proof.
  intros Hord Hf r bs. unfold wrap_function.
  pose proof (deserialize_in_order_safe Args order (replicate (length Args) 0)
    (MemoryIStream bs (Z.of_nat (length bs))) Hord) as Hd.
  specialize (Hd ltac:(split; simpl; lia)).
  destruct (deserialize_in_order _ _ _ _) as [zs| | |w|]; cbn [mbind res_bind];
    try (by intros [? ?]); [|by destruct Hd; eexists].
  specialize (Hf zs). destruct (f zs) as [z| | |w|]; cbn [mbind res_bind];
    try (by intros [? ?]). by destruct Hf; eexists.
Qed.

Lemma sum_params_safe n params i acc :
  (i + n <= length params)%nat -> exists total, sum_params n params i acc = Ok total.
Proof.
  revert i acc. induction n as [|n IH]; intros i acc Hi; [by exists acc|].
  cbn [sum_params]. destruct (lookup_lt_is_Some_2 params i) as [p ->]; [lia|]. apply IH. lia.
Qed.

Lemma length_words n bs : length (words n bs) = n.
Proof. revert bs. induction n; intros; simpl; auto. Qed.

Lemma sum_params_nonneg n params i acc total :
  0 <= acc -> sum_params n params i acc = Ok total -> 0 <= total.
Proof.
  revert i acc. induction n as [|n IH]; intros i acc Ha; [by intros [= <-]|].
  cbn [sum_params]. destruct (params !! i); [|done]. apply IH.
  pose proof (wrap_in_u 64 (acc + z)) as []; lia.
Qed.

(** Where the writes to the const members are defined nothing is undefined. *)
Lemma oneShot_stored_safe E srv :
  contract E ->
  (forall fid g, funStore srv !! fid = Some g -> never_undefined g) ->
  (forall r reason, ~ undefined (invalidRequestEventHandler srv r reason)) ->
  ~ undefined (outcome (oneShot Stored E srv [])).
Proof.
  intros HE Hfun Hh. unfold oneShot.
  destruct (receive_vector_contract E srv [] (Z.of_nat SIZEOF_RER) HE) as [Hr|[bytes Hr]]; [lia|..].
  { rewrite (bind_throw _ _ _ _ _ _ _ _ Hr). by intros [w Hw]. }
  rewrite (bind_ok _ _ _ _ _ _ _ _ Hr).
  destruct (Nat.eqb_spec (length bytes) SIZEOF_RER) as [Hl|]; [cbn [negb]|by intros [w Hw]].
  rewrite bind_lift. unfold rer_deserialize, load. rewrite Hl, Nat.leb_refl. cbn [mbind res_bind].
  rewrite bind_gets. set (r := bytes_rer _).
  destruct (checkIntegrity r) eqn:Hint; cbn [negb]; [|apply Hh].
  apply andb_true_iff in Hint as [_ Hpc]. apply Z.ltb_lt in Hpc.
  rewrite bind_gets. destruct (funStore srv !! functionId r) as [g|] eqn:Hg; [|apply Hh].
  destruct (sum_params_safe (Z.to_nat (paramCount r)) (params r) 0 0) as [total Htot].
  { subst r. simpl. unfold MAX_PARAM_COUNT in *. simpl in Hpc. lia. }
  rewrite bind_lift, Htot. apply sum_params_nonneg in Htot; [|lia].
  assert (forall buf h, ~ undefined (outcome
    ((if negb (Z.of_nat (length buf) =? total)
      then lift (invalidRequestEventHandler srv r BAD_PARAMETERS)
      else result ← lift (g r buf); _ ← send_vector result; mret true) E srv h))) as Hrest.
  { intros buf h. destruct (negb _); [apply Hh|]. rewrite bind_lift.
    pose proof (Hfun _ _ Hg r buf) as Hg'. destruct (g r buf) as [a| | |w|];
      try (by intros [? ?]). by destruct Hg'; eexists. }
  destruct (Z.gtb_spec total 0).
  - destruct (receive_vector_contract E srv ([] ++ [CReceive (Z.of_nat SIZEOF_RER)]) total HE)
      as [Hr2|[buf Hr2]]; [lia|..].
    + rewrite (bind_throw _ _ _ _ _ _ _ _ Hr2). by intros [w Hw].
    + rewrite (bind_ok _ _ _ _ _ _ _ _ Hr2). apply Hrest.
  - erewrite bind_ok by reflexivity. apply Hrest.
Qed.

(** C7. Memory safety of the server: whatever bytes a peer sends, however few, the only undefined
    behaviour of a round of the server is that [deserialize] modifies the const members of the
    request, and where that is defined, by the implementation, there is none: in particular the sizes a
    request declares never index outside the descriptor array.  The peer's [receive] stores as many
    bytes as it says, at most as many as asked; the registered functions and the handler, which are not
    the server's, are well-behaved. *)
Theorem oneShot_safe w E srv why :
  contract E ->
  (forall fid g, funStore srv !! fid = Some g -> never_undefined g) ->
  (forall r reason, ~ undefined (invalidRequestEventHandler srv r reason)) ->
  outcome (oneShot w E srv []) = UB why -> w = Undefined /\ why = const_member_written.
Proof.
  intros HE Hfun Hh Hub. destruct w.
  - split; [done|]. revert Hub. unfold oneShot.
    destruct (receive_vector_contract E srv [] (Z.of_nat SIZEOF_RER) HE) as [Hr|[bytes Hr]]; [lia|..].
    { by rewrite (bind_throw _ _ _ _ _ _ _ _ Hr). }
    rewrite (bind_ok _ _ _ _ _ _ _ _ Hr).
    destruct (Nat.eqb_spec (length bytes) SIZEOF_RER) as [Hl|]; [cbn [negb]|done].
    rewrite bind_lift. unfold rer_deserialize, load. rewrite Hl, Nat.leb_refl. by intros [= <-].
  - exfalso. apply (oneShot_stored_safe E srv HE Hfun Hh). by exists why.
Qed.

(** As the language has it, every round that gets a whole request is undefined, by the write to the
    const members. *)
Theorem whole_request_undefined (E : @env exchanger) srv h bytes :
  length bytes = SIZEOF_RER ->
  E h (CReceive (Z.of_nat SIZEOF_RER) : iocall) = (Z.of_nat SIZEOF_RER, bytes) ->
  outcome (oneShot Undefined E srv h) = UB const_member_written.
Proof.
  intros Hl HE. unfold oneShot.
  pose proof (receive_vector_all E srv h bytes) as Hr. rewrite Hl in Hr.
  rewrite (bind_ok _ _ _ _ _ _ _ _ (Hr ltac:(done) HE)).
  rewrite Hl, Nat.eqb_refl. cbn [negb]. rewrite bind_lift. unfold rer_deserialize, load.
  by rewrite Hl, Nat.leb_refl.
Qed.

(** The arguments of a registered function are deserialized inside one call expression,
    whose evaluation order the language leaves open.  A compiler that goes right to left
    passes a function of two equally wide arguments its arguments swapped. *)
Theorem argument_order_matters t x y f r :
  fundamental t -> in_ty t x -> in_ty t y ->
  wrap_function (TFund t) [t; t] [0; 1]%nat f r (args_bytes [(t, x); (t, y)]) =
    (z ← f [x; y]; serialize (TFund t) z) /\
  wrap_function (TFund t) [t; t] [1; 0]%nat f r (args_bytes [(t, x); (t, y)]) =
    (z ← f [y; x]; serialize (TFund t) z).
Proof.
  intros Ht Hx Hy.
  assert (Forall arg_ok [(t, x); (t, y)]) as Hall
    by (apply Forall_cons_2; [done|by apply Forall_singleton]).
  split; [by apply (wrap_function_in_order (TFund t) [(t, x); (t, y)])|].
  set (bs := args_bytes _).
  destruct (deserialize_args_rest [(t, x); (t, y)] (MemoryIStream bs (Z.of_nat (length bs))) [] Hall)
    as (i & Hd & _); try done.
  - split; simpl; lia.
  - unfold rest. simpl. by rewrite drop_0, take_ge, app_nil_r by lia.
  - unfold wrap_function. cbn [deserialize_in_order lookup list_lookup length replicate].
    cbn [fmap list_fmap fst snd deserialize_args] in Hd.
    destruct (deserialize_stream (TFund t) _) as [[z1 i1]| | | |]; try done.
    cbn [mbind res_bind] in Hd |- *.
    destruct (deserialize_stream (TFund t) i1) as [[z2 i2]| | | |]; try done.
    cbn [mbind res_bind] in Hd |- *. by injection Hd as -> -> ->.
Qed.

(** ** A concrete pair *)

Fixpoint asked (h : list io_call) : Z :=
  match h with
  | [] => 0
  | c :: h' => (match c with CReceive n => n | _ => 0 end) + asked h'
  end.

(** A peer that delivers the bytes of [str] exactly as asked. *)
Definition deliver (str : list Z) : @env exchanger := fun h c =>
  match c as c return io_reply c with
  | CSend d => Z.of_nat (length d)
  | CReceive n => (n, take (Z.to_nat n) (drop (Z.to_nat (asked h)) str))
  | _ => true
  end.

Lemma deliver_consumed str h cs : consumed (deliver str) h cs = asked cs.
Proof. revert h. induction cs as [|[] cs IH]; intros h; simpl; rewrite ?IH; done. Qed.

Lemma deliver_exact str : exact_receiver (deliver str) str.
Proof. intros h n _ _. rewrite deliver_consumed. done. Qed.

(** A peer that answers every receive with the same reply. *)
Definition answer (reply : list Z) : @env exchanger := fun h c =>
  match c as c return io_reply c with
  | CSend d => Z.of_nat (length d)
  | CReceive n => (Z.of_nat (length reply), reply)
  | _ => true
  end.

(** A peer that fills every buffer with ones. *)
Definition junk : @env exchanger := fun h c =>
  match c as c return io_reply c with
  | CSend d => Z.of_nat (length d)
  | CReceive n => (Z.of_nat (Z.to_nat n), replicate (Z.to_nat n) 255)
  | _ => true
  end.

Definition subtract (zs : list Z) : res Z :=
  match zs with [x; y] => Ok (c_cast int32_t (x - y)) | _ => Throw "arity" end.
Definition two_args : list arg := [(int32_t, 50); (int32_t, 8)].

Lemma two_args_ok : Forall arg_ok two_args.
Proof.
  assert (fundamental int32_t) by (unfold fundamental; simpl; lia).
  by repeat (apply Forall_cons_2; [by split|]).
Qed.

Lemma request_roundtrip_witness :
  exists bytes, rer_serialize (request 7 two_args) (replicate SIZEOF_RER 0) = Ok bytes /\
    length bytes = SIZEOF_RER /\ rer_deserialize Stored bytes = Ok (request 7 two_args).
Proof.
  apply (request_roundtrip (request 7 two_args)).
  apply request_ok; [by vm_compute|exact two_args_ok|vm_compute; lia].
Defined.

Lemma build_packs_arguments_witness :
  build 7 [(TFund int32_t, 50); (TFund int32_t, 8)] =
    Ok (Rer MAGIC 7 [4; 4; 0; 0; 0; 0] 2, [50; 0; 0; 0; 8; 0; 0; 0]).
Proof. apply (build_packs_arguments 7 two_args); [exact two_args_ok|vm_compute; lia]. Defined.

Definition wire : list Z := rer_bytes (request 7 two_args) ++ args_bytes two_args.
Definition sub_server : server :=
  registerFunction RpcServer (TFund int32_t) [int32_t; int32_t] [0; 1]%nat subtract 7.


Definition six_args : list arg := replicate 6 (uint8_t, 1).

Lemma six_parameters_rejected_witness :
  build 7 (as_call <$> six_args) = Ok (request 7 six_args, [1; 1; 1; 1; 1; 1]) /\
  oneShot Stored (deliver (rer_bytes (request 7 six_args) ++ [1; 1; 1; 1; 1; 1])) sub_server [] =
    (Throw "Invalid request: failed integrity check", sub_server, [CReceive 57]).
Proof.
  apply (six_parameters_rejected (deliver (rer_bytes (request 7 six_args) ++ [1; 1; 1; 1; 1; 1]))
           sub_server 7 six_args [1; 1; 1; 1; 1; 1]);
    [by vm_compute|by repeat (apply Forall_cons_2; [split; vm_compute; auto; by split|])
    |reflexivity|apply deliver_exact].
Defined.

Lemma junk_contract : contract junk.
Proof.
  intros h n Hn. exists (Z.of_nat (Z.to_nat n)), (replicate (Z.to_nat n) 255).
  split; [reflexivity|]. rewrite length_replicate. split; [reflexivity|lia].
Qed.

Lemma sub_server_safe fid g : funStore sub_server !! fid = Some g -> never_undefined g.
Proof.
  unfold sub_server, registerFunction, registerRpcFunction. simpl.
  intros [[_ <-]|[_ Hg]]%lookup_insert_Some; [|done].
  apply wrap_function_safe; [repeat constructor|].
  intros zs [w Hw]. unfold subtract in Hw. by destruct zs as [|? [|? [|? ?]]].
Qed.

(** Junk of the right length: undefined, but for one reason only. *)
Lemma oneShot_safe_witness :
  outcome (oneShot Undefined junk sub_server []) = UB const_member_written /\
  Undefined = Undefined /\ const_member_written = "a const member is modified".
Proof.
  split; [vm_compute; reflexivity|].
  apply (oneShot_safe Undefined junk sub_server "a const member is modified");
    [exact junk_contract|exact sub_server_safe|intros r [] [w Hw]; done|vm_compute; reflexivity].
Defined.

Lemma whole_request_undefined_witness :
  outcome (oneShot Undefined junk sub_server []) = UB const_member_written.
Proof. by apply (whole_request_undefined junk sub_server [] (replicate 57 255)). Defined.

Lemma argument_order_matters_witness :
  wrap_function (TFund int32_t) [int32_t; int32_t] [0; 1]%nat subtract (request 7 two_args)
    (args_bytes two_args) = Ok [42; 0; 0; 0] /\
  wrap_function (TFund int32_t) [int32_t; int32_t] [1; 0]%nat subtract (request 7 two_args)
    (args_bytes two_args) = Ok [214; 255; 255; 255].
Proof.
  apply (argument_order_matters int32_t 50 8 subtract (request 7 two_args));
    [unfold fundamental; simpl; lia|by vm_compute|by vm_compute].
Defined.
