(* ===== verification/SharedMemory.v ===== *)
(** * Shared memory (src/sm/SharedMemory.cpp, headers/sm/SharedMemory.h)

    The POSIX branch: a [SharedMemory] object wraps [shm_open], [ftruncate], [mmap], [munmap]
    and [shm_unlink].  The kernel is the environment: each system call answers with its return
    value, and the history is the list of calls made.  A pointer is the address it holds.

    The code tests the answer of [mmap] against the null pointer, so it takes [MAP_FAILED] for a
    mapping: what is there is counted from the calls themselves, and the theorems say what
    the class does with an answer that is none. *)

From S2P Require Import Prelude Memory.

(** ** System calls *)

Inductive shm_call :=
  | ShmOpen (name : string) (creat : bool)
  | Ftruncate (fd size : Z)
  | Mmap (size fd : Z)
  | Munmap (ptr size : Z)
  | ShmUnlink (name : string).

Definition shm : Sys := {| call := shm_call; reply _ := Z |}.
#[export] Existing Instance shm.
Abbreviation shmcall := (@call shm).

(** What [mmap] returns when it fails: [(void* )-1]. *)
Definition MAP_FAILED : Z := 2 ^ 64 - 1.

(** ** The object *)

Record shared_memory := SharedMem {
  name : string;
  size : Z;
  ptr : Z;
  fd : Z;
  unlinkOnDestruction : bool }.

Definition SharedMemory (name : string) (size : Z) : shared_memory :=
  SharedMem ("/" +:+ name) size 0 (-1) true.

Definition set_ptr (p : Z) (m : shared_memory) : shared_memory :=
  SharedMem (name m) (size m) p (fd m) (unlinkOnDestruction m).
Definition set_fd (f : Z) (m : shared_memory) : shared_memory :=
  SharedMem (name m) (size m) (ptr m) f (unlinkOnDestruction m).
Definition setUnlinkOnDestruction (uod : bool) (m : shared_memory) : shared_memory :=
  SharedMem (name m) (size m) (ptr m) (fd m) uod.

(** The move constructor: the new object and the source. *)
Definition move (other : shared_memory) : shared_memory * shared_memory :=
  (other, SharedMem (name other) (size other) 0 (-1) false).

Abbreviation sm := (prog shared_memory).

Definition syscall (c : shm_call) : sm Z := sys (c : shmcall).

Definition open (createIfNotExisting : bool) : sm bool :=
  this ← get;
  if negb (ptr this =? 0) then throw "SharedMemory already open"
  else
    f ← syscall (ShmOpen (name this) createIfNotExisting);
    _ ← modify (set_fd f);
    if f <? 0 then mret false
    else
      r ← syscall (Ftruncate f (size this));
      if r <? 0 then
        _ ← syscall (ShmUnlink (name this)); mret false
      else
        p ← syscall (Mmap (size this) f);
        _ ← modify (set_ptr p);
        if p =? 0 then
          _ ← syscall (ShmUnlink (name this)); mret false
        else mret true.

Definition close : sm unit :=
  this ← get;
  if ptr this =? 0 then throw "SharedMemory not created or opened"
  else
    _ ← syscall (Munmap (ptr this) (size this));
    modify (set_ptr 0).

Definition unlink : sm unit :=
  this ← get;
  _ ← (if negb (ptr this =? 0) then close else mret tt);
  _ ← syscall (ShmUnlink (name this));
  mret tt.

Definition destroy : sm unit :=
  this ← get;
  if negb (ptr this =? 0) then
    _ ← close;
    if unlinkOnDestruction this then unlink else mret tt
  else mret tt.

(** [getAs<T>] for a type of the given alignment and size: the address of the object. *)
Definition getAs (alignment sizeof : Z) (m : shared_memory) : Z :=
  (align alignment sizeof (ptr m) (size m)).1.

Lemma bind_syscall {A} c (f : Z -> sm A) (E : @env shm) m h :
  (syscall c ≫= f) E m h = f (E h (c : shmcall)) E m (h ++ [c : shmcall]).
Proof. done. Qed.

(** ** Using an object *)

Inductive op := OOpen (create : bool) | OClose | OUnlink | OSetUnlink (uod : bool).

Definition run_op (o : op) : sm unit :=
  match o with
  | OOpen c => _ ← open c; mret tt
  | OClose => close
  | OUnlink => unlink
  | OSetUnlink uod => modify (setUnlinkOnDestruction uod)
  end.

(** The operations of one owner, who catches every exception, and then the destructor. *)
Fixpoint run_ops (ops : list op) : sm unit :=
  match ops with
  | [] => destroy
  | o :: ops' => fun E m h => let '(_, m', h') := run_op o E m h in run_ops ops' E m' h'
  end.

(** ** Specification *)

(** The mappings made and not yet undone, addresses and sizes, and whether an [mmap] has failed and
    what it answered has not been unmapped since.  A mapping placed by the kernel is never at
    address 0. *)
Record mappings := Maps { there : list (Z * Z); failed : bool }.
Definition no_mappings : mappings := Maps [] false.

(** What the calls [cs], made after the history [h], leave of the mappings. *)
Definition after_call (E : env) (h : list shm_call) (c : shm_call) (ms : mappings) : mappings :=
  match c with
  | Mmap sz _ =>
      let p := E h (c : shmcall) in
      if p =? MAP_FAILED then Maps (there ms) true
      else if p =? 0 then ms
      else Maps ((p, sz) :: there ms) (failed ms)
  | Munmap p sz =>
      if p =? MAP_FAILED then Maps (there ms) false
      else Maps (filter (fun q => q <> (p, sz)) (there ms)) (failed ms)
  | _ => ms
  end.
Fixpoint mapped (E : env) (h cs : list shm_call) (ms : mappings) : mappings :=
  match cs with
  | [] => ms
  | c :: cs' => mapped E (h ++ [c]) cs' (after_call E h c ms)
  end.

(** Every [munmap] undoes a mapping that is there, of its size, but for one of [MAP_FAILED] after
    an [mmap] that failed. *)
Definition unmap_ok (c : shm_call) (ms : mappings) : Prop :=
  match c with
  | Munmap p sz => if p =? MAP_FAILED then failed ms = true else (p, sz) ∈ there ms
  | _ => True
  end.
Fixpoint unmaps_ok (E : env) (h cs : list shm_call) (ms : mappings) : Prop :=
  match cs with
  | [] => True
  | c :: cs' => unmap_ok c ms /\ unmaps_ok E (h ++ [c]) cs' (after_call E h c ms)
  end.

Definition owned (m : shared_memory) : mappings :=
  if ptr m =? MAP_FAILED then Maps [] true
  else if ptr m =? 0 then no_mappings
  else Maps [(ptr m, size m)] false.

(** What a piece of code does to the mappings: it keeps them in step with the object. *)
Definition keeps (A : Type) (p : sm A) : Prop := forall E m h r m' h',
  p E m h = (r, m', h') ->
  exists cs, h' = h ++ cs /\ unmaps_ok E h cs (owned m) /\ mapped E h cs (owned m) = owned m'.

Lemma mapped_app E h cs1 cs2 maps :
  mapped E h (cs1 ++ cs2) maps = mapped E (h ++ cs1) cs2 (mapped E h cs1 maps).
Proof.
  revert h maps. induction cs1 as [|c cs1 IH]; intros h maps; simpl.
  - by rewrite app_nil_r.
  - rewrite IH. f_equal. symmetry. apply (app_assoc h [c] cs1).
Qed.

Lemma unmaps_ok_app E h cs1 cs2 maps :
  unmaps_ok E h (cs1 ++ cs2) maps <->
  unmaps_ok E h cs1 maps /\ unmaps_ok E (h ++ cs1) cs2 (mapped E h cs1 maps).
Proof.
  revert h maps. induction cs1 as [|c cs1 IH]; intros h maps; simpl.
  - rewrite app_nil_r. tauto.
  - rewrite IH. replace ((h ++ [c]) ++ cs1) with (h ++ c :: cs1) by apply (app_assoc h [c] cs1).
    tauto.
Qed.

Lemma filter_self (p : Z * Z) : filter (fun q => q <> p) [p] = [].
Proof. rewrite filter_cons_False; [done|]. by intros []. Qed.

Lemma owned_closed m : ptr m = 0 -> owned m = no_mappings.
Proof. unfold owned. by intros ->. Qed.

Lemma keeps_nothing A (p : sm A) :
  (forall E m h, exists r m', p E m h = (r, m', h) /\ ptr m' = ptr m /\ size m' = size m) -> keeps A p.
Proof.
  intros Hp E m h r m' h' H. destruct (Hp E m h) as (r0 & m0 & Heq & Hptr & Hsize).
  rewrite Heq in H. injection H as -> -> ->. exists []. rewrite app_nil_r.
  unfold owned. rewrite Hptr, Hsize. by split_and!.
Qed.

Lemma keeps_ret A (a : A) : keeps A (mret a).
Proof. apply keeps_nothing. intros E m h. by exists (Ok a), m. Qed.

Lemma keeps_bind A B (p : sm A) (f : A -> sm B) :
  keeps A p -> (forall a, keeps B (f a)) -> keeps B (p ≫= f).
Proof.
  intros Hp Hf E m h r m' h' H. unfold mbind, prog_bind in H.
  destruct (p E m h) as [[r1 m1] h1] eqn:E1.
  destruct (Hp _ _ _ _ _ _ E1) as (cs1 & -> & Hu1 & Hm1).
  destruct r1 as [a|e| |w|]; try (injection H as <- <- <-; by exists cs1).
  destruct (Hf a _ _ _ _ _ _ H) as (cs2 & -> & Hu2 & Hm2).
  exists (cs1 ++ cs2). rewrite app_assoc, mapped_app, unmaps_ok_app, Hm1. by split_and!.
Qed.

Lemma keeps_get A (f : shared_memory -> sm A) :
  (forall m0 E h r m' h', f m0 E m0 h = (r, m', h') -> exists cs, h' = h ++ cs /\
     unmaps_ok E h cs (owned m0) /\ mapped E h cs (owned m0) = owned m') ->
  keeps A (get ≫= f).
Proof. intros Hf E m h r m' h' H. exact (Hf m E h r m' h' H). Qed.

(** A call that neither maps nor unmaps. *)
Lemma keeps_other c (f : Z -> sm unit) :
  (forall E h maps, after_call E h c maps = maps) ->
  (match c with Munmap _ _ => False | _ => True end) -> (forall z, keeps unit (f z)) ->
  keeps unit (syscall c ≫= f).
Proof.
  intros Hc Hn Hf. apply keeps_bind; [|exact Hf]. intros E m h r m' h' H.
  injection H as <- <- <-. exists [c : shmcall]. simpl. rewrite Hc. split_and!; try done.
  by destruct c.
Qed.

Lemma keeps_close : keeps unit close.
Proof.
  apply keeps_get. intros m E h r m' h'. destruct (Z.eqb_spec (ptr m) 0) as [H0|H0]; intros H.
  - injection H as <- <- <-. exists []. rewrite app_nil_r. by split_and!.
  - injection H as <- <- <-. exists [Munmap (ptr m) (size m) : shmcall].
    rewrite (owned_closed (set_ptr 0 m)) by done. apply Z.eqb_neq in H0. unfold owned. simpl.
    rewrite H0. destruct (ptr m =? MAP_FAILED); simpl; [by split_and!|].
    rewrite filter_self. split_and!; try done. set_solver.
Qed.

Lemma keeps_unlink : keeps unit unlink.
Proof.
  intros E m h r m' h' H. unfold unlink in H. revert E m h r m' h' H.
  assert (forall b s, keeps unit
    (_ ← (if negb b then close else mret tt); _ ← syscall (ShmUnlink s); mret tt)) as Hk.
  { intros b s. apply keeps_bind; [destruct b; [apply keeps_ret|apply keeps_close]|].
    intros _. apply keeps_other; [done|done|]. intros. apply keeps_ret. }
  intros E m h r m' h' H. exact (Hk (ptr m =? 0) (name m) E m h r m' h' H).
Qed.

Lemma keeps_destroy : keeps unit destroy.
Proof.
  intros E m h r m' h' H. revert H.
  assert (forall b b' : bool, keeps unit
    (if negb b then _ ← close; if b' then unlink else mret tt else mret tt)) as Hk.
  { intros [] b'; [apply keeps_ret|]. apply keeps_bind; [apply keeps_close|].
    intros _. destruct b'; [apply keeps_unlink|apply keeps_ret]. }
  intros H. exact (Hk (ptr m =? 0) (unlinkOnDestruction m) E m h r m' h' H).
Qed.

Lemma keeps_open c : keeps bool (open c).
Proof.
  apply keeps_get. intros m E h r m' h' H.
  destruct (Z.eqb_spec (ptr m) 0) as [H0|H0]; cbn [negb] in H.
  2: { injection H as <- <- <-. exists []. rewrite app_nil_r. by split_and!. }
  rewrite (owned_closed m) by done.
  set (c1 := ShmOpen (name m) c : shmcall) in *. set (f := E h c1) in *.
  set (c2 := Ftruncate f (size m) : shmcall) in *. set (c3 := Mmap (size m) f : shmcall) in *.
  unfold mbind, prog_bind, syscall, sys, modify, mret, prog_ret in H.
  fold c1 in H. fold f in H. destruct (Z.ltb_spec f 0).
  { injection H as <- <- <-. exists [c1]. simpl. by rewrite owned_closed. }
  fold c2 in H. destruct (Z.ltb_spec (E (h ++ [c1]) c2) 0).
  { injection H as <- <- <-. exists [c1; c2; ShmUnlink (name m) : shmcall].
    simpl. rewrite owned_closed by done. split_and!; try done. by rewrite <- !app_assoc. }
  fold c3 in H. change (reply c3) with Z in H. set (p := E ((h ++ [c1]) ++ [c2]) c3) in *.
  assert (Hend : mapped E h [c1; c2; c3] no_mappings = owned (set_ptr p m)).
  { change (mapped _ _ _ _) with (if p =? MAP_FAILED then Maps [] true
      else if p =? 0 then no_mappings else Maps [(p, size m)] false). reflexivity. }
  destruct (p =? 0) eqn:Hp; injection H as <- <- <-.
  - exists [c1; c2; c3; ShmUnlink (name m) : shmcall]. split; [by rewrite <- !app_assoc|].
    split; [by repeat split|exact Hend].
  - exists [c1; c2; c3]. split; [by rewrite <- !app_assoc|]. split; [by repeat split|exact Hend].
Qed.

Lemma keeps_op o : keeps unit (run_op o).
Proof.
  destruct o; simpl.
  - apply keeps_bind; [apply keeps_open|]. intros. apply keeps_ret.
  - apply keeps_close.
  - apply keeps_unlink.
  - apply keeps_nothing. intros E m h. by eexists _, _.
Qed.

Lemma keeps_run ops : keeps unit (run_ops ops).
Proof.
  induction ops as [|o ops IH]; [apply keeps_destroy|].
  intros E m h r m' h' H. simpl in H. destruct (run_op o E m h) as [[r1 m1] h1] eqn:E1.
  destruct (keeps_op o _ _ _ _ _ _ E1) as (cs1 & -> & Hu1 & Hm1).
  destruct (IH _ _ _ _ _ _ H) as (cs2 & -> & Hu2 & Hm2).
  exists (cs1 ++ cs2). rewrite app_assoc, mapped_app, unmaps_ok_app, Hm1. by split_and!.
Qed.

Lemma destroy_unmaps E m h : ptr (object (destroy E m h)) = 0.
Proof.
  unfold destroy. rewrite bind_get.
  destruct (Z.eqb_spec (ptr m) 0) as [H0|H0]; [exact H0|]. cbn [negb].
  erewrite bind_ok.
  2: { unfold close. rewrite bind_get.
       rewrite (proj2 (Z.eqb_neq _ _) H0). reflexivity. }
  by destruct (unlinkOnDestruction m).
Qed.

Lemma run_ops_unmaps ops E m0 h0 r m h : run_ops ops E m0 h0 = (r, m, h) -> ptr m = 0.
Proof.
  revert m0 h0. induction ops as [|o ops IH]; intros m0 h0 H.
  - pose proof (destroy_unmaps E m0 h0) as Hd. simpl in H. by rewrite H in Hd.
  - simpl in H. destruct (run_op o E m0 h0) as [[r1 m1] h1]. by apply IH in H.
Qed.

(** ** Theorems *)

(** C26. The mapping is managed exactly once: whatever the kernel answers and whatever the owner
    does between construction and destruction (open, close, unlink, in any order, errors
    included), every [munmap] undoes a mapping that is there and none is undone twice, except that
    an [mmap] that failed is followed by one [munmap] of the [MAP_FAILED] it answered; and after the
    destructor no mapping is left. *)
Theorem mapping_released_once E nm sz ops r m h :
  run_ops ops E (SharedMemory nm sz) [] = (r, m, h) ->
  unmaps_ok E [] h no_mappings /\ mapped E [] h no_mappings = no_mappings /\ ptr m = 0.
Proof.
  intros H. destruct (keeps_run ops _ _ _ _ _ _ H) as (cs & -> & Hu & Hm).
  apply run_ops_unmaps in H. rewrite (owned_closed m) in Hm by done. by split_and!.
Qed.

(** [open] takes a failed [mmap] for a success: [mmap] reports failure as [MAP_FAILED], but
    the code compares with the null pointer, so it returns true and keeps (void* )-1 as the
    address of the memory. *)
Theorem open_takes_failed_mmap E nm sz c :
  let o := ShmOpen ("/" +:+ nm) c : shmcall in
  let t := Ftruncate (E [] o) sz : shmcall in
  0 <= E [] o -> 0 <= E [o] t ->
  E [o; t] (Mmap sz (E [] o) : shmcall) = MAP_FAILED ->
  exists m h, open c E (SharedMemory nm sz) [] = (Ok true, m, h) /\ ptr m = MAP_FAILED.
Proof.
  intros o t Hf Ht Hp. unfold open, SharedMemory. rewrite bind_get.
  cbn [ptr name size]. change (negb (0 =? 0)) with false. cbv iota.
  rewrite bind_syscall, bind_modify, if_false by (apply Z.ltb_ge; exact Hf).
  rewrite bind_syscall, if_false by (apply Z.ltb_ge; exact Ht).
  rewrite bind_syscall, bind_modify, if_false.
  - eexists _, _. split; [reflexivity|exact Hp].
  - apply Z.eqb_neq. intros H0. pose proof (eq_trans (eq_sym Hp) H0). done.
Qed.

(** A moved-from object is inert: its destructor makes no system call, whatever the source
    owned before; the new object owns what the source did. *)
Theorem moved_from_inert E m h :
  let '(new, source) := move m in
  destroy E source h = (Ok tt, source, h) /\ owned new = owned m /\ owned source = no_mappings.
Proof. done. Qed.

(** ** Concrete runs *)

(** A kernel on which everything succeeds, and one where [mmap] does not. *)
Definition good_kernel : @env shm := fun h c =>
  match (c : shm_call) with ShmOpen _ _ => 3 | Mmap _ _ => 4096 | _ => 0 end.
Definition no_memory : @env shm := fun h c =>
  match (c : shm_call) with ShmOpen _ _ => 3 | Mmap _ _ => MAP_FAILED | _ => 0 end.

Lemma mapping_released_once_witness :
  let h := [ShmOpen "/x" true; Ftruncate 3 64; Mmap 64 3; Munmap 4096 64;
            ShmOpen "/x" false; Ftruncate 3 64; Mmap 64 3; Munmap 4096 64; ShmUnlink "/x"] in
  unmaps_ok good_kernel [] h no_mappings /\ mapped good_kernel [] h no_mappings = no_mappings /\ 0 = 0.
Proof.
  apply (mapping_released_once good_kernel "x" 64
           [OOpen true; OOpen true; OClose; OClose; OOpen false] (Ok tt)
           (SharedMem "/x" 64 0 3 true)).
  reflexivity.
Defined.

Lemma open_takes_failed_mmap_witness :
  exists m h, open true no_memory (SharedMemory "x" 64) [] = (Ok true, m, h) /\ ptr m = MAP_FAILED.
Proof. by apply (open_takes_failed_mmap no_memory "x" 64 true). Defined.
