(* ===== verification/SharedMemoryExample.v ===== *)
(** * A program on shared memory (examples/SharedMemory/main.cpp)

    Two processes share an object [MyData] in a named segment: the first writes it and waits until the
    second, which prints it, sets a flag in it.  Each process opens the segment with the code of
    SharedMemory.v over its own kernel; the object behind both mappings is one, and every access to a
    member (to a character, of the message) is a step of its own.  Accesses are taken to be in program
    order. *)

From S2P Require Import Prelude Memory SharedMemory.

(** ** The object *)

(** [b] is a [float]: the bits of its single-precision representation. *)
Record MyData := Data { a : Z; b : Z; message : list Z; readDone : bool }.
Definition MyData_size : Z := 268.
Definition MyData_align : Z := 4.

(** What a new segment holds: zeros. *)
Definition blank_data : MyData := Data 0 0 (replicate 256 0) false.

Definition set_a (x : Z) (d : MyData) : MyData := Data x (b d) (message d) (readDone d).
Definition set_b (x : Z) (d : MyData) : MyData := Data (a d) x (message d) (readDone d).
Definition set_message (m : list Z) (d : MyData) : MyData := Data (a d) (b d) m (readDone d).
Definition set_readDone (x : bool) (d : MyData) : MyData := Data (a d) (b d) (message d) x.

(** The bits of 12.0, and the characters of the text with the final zero. *)
Definition float_12 : Z := 1094713344.
Definition hello : list Z :=
  ((fun c => Z.of_nat (Ascii.nat_of_ascii c)) <$> String.list_ascii_of_string "Hello SharedMemory!") ++ [0].

(** One turn of [strcpy]: the character copied. *)
Definition myStrCpy (src : list Z) (i : Z) (dst : list Z) : res (list Z * bool) :=
  match zget src i with
  | None => UB "read past the source"
  | Some c =>
      match zset dst i c with
      | None => UB "write past the destination"
      | Some dst' => Ok (dst', c =? 0)
      end
  end.

(** ** The two processes *)

Inductive pc0 := Open0 | SetA | SetB | ClearDone | CopyMessage (i : Z) | Poll | Close0 | Over0.
#[global] Instance pc0_eq_dec : EqDecision pc0.
Proof. solve_decision. Defined.
Inductive pc1 := Open1 | PrintA | PrintB | PrintMessage (i : Z) | SetDone | Close1 | Over1.

(** The [SharedMemory] of a process, the calls it made to its kernel and its pointer [myData]. *)
Record peer (P : Type) := Peer { pc : P; mem : shared_memory; calls : list shmcall; myData : Z }.
Arguments Peer {P}.
Arguments pc {P}.
Arguments mem {P}.
Arguments calls {P}.
Arguments myData {P}.
Definition at_pc {P} (x : P) (p : peer P) : peer P := Peer x (mem p) (calls p) (myData p).

(** What the second process has printed: the numbers and the characters. *)
Record output := Printed { out_a : option Z; out_b : option Z; out_message : list Z }.

(** [segment]: the object in the segment of that name, if the segment exists. *)
Record system := System {
  segment : option MyData; first : peer pc0; second : peer pc1; out : output }.

(** [sm.open(...)], whose result is ignored, and [sm.getAs<MyData>(...)]. *)
Definition attach (createIfNotExisting : bool) : sm Z :=
  _ ← open createIfNotExisting; gets (getAs MyData_align MyData_size).
(** [sm.close()] and the destructor. *)
Definition detach : sm unit := _ ← close; destroy.

(** An access through [myData]: undefined when it is null. *)
Definition deref {P A} (p : peer P) (s : system) (f : MyData -> res A) : res A :=
  if myData p =? 0 then UB "null pointer" else
  match segment s with Some d => f d | None => UB "nothing is mapped" end.

Section Peers.
(** What each kernel answers; the one of the second process depends on whether the segment exists when
    it is opened. *)
Context (E0 : @env shm) (E1 : bool -> @env shm).

Definition write0 (s : system) (f : MyData -> MyData) (next : pc0) : res system :=
  deref (first s) s (fun d => Ok (System (Some (f d)) (at_pc next (first s)) (second s) (out s))).

Definition peer0_step (s : system) : res system :=
  match pc (first s) with
  | Open0 =>
      match attach true E0 (mem (first s)) (calls (first s)) with
      | (Ok p, m, h) =>
          Ok (System (if p =? 0 then segment s else Some (default blank_data (segment s)))
                (Peer SetA m h p) (second s) (out s))
      | (Throw e, _, _) => Throw e
      | _ => UB "open does not return"
      end
  | SetA => write0 s (set_a 5) SetB
  | SetB => write0 s (set_b float_12) ClearDone
  | ClearDone => write0 s (set_readDone false) (CopyMessage 0)
  | CopyMessage i =>
      deref (first s) s (fun d =>
        '(m, last) ← myStrCpy hello i (message d);
        write0 s (set_message m) (if (last : bool) then Poll else CopyMessage (i + 1)))
  | Poll =>
      deref (first s) s (fun d =>
        Ok (System (segment s) (at_pc (if readDone d then Close0 else Poll) (first s)) (second s) (out s)))
  | Close0 =>
      match detach E0 (mem (first s)) (calls (first s)) with
      | (Ok _, m, h) => Ok (System (segment s) (Peer Over0 m h (myData (first s))) (second s) (out s))
      | (Throw e, _, _) => Throw e
      | _ => UB "close does not return"
      end
  | Over0 => Block
  end.

(** One turn of [printMyData]. *)
Definition printMyData (d : MyData) (p : pc1) (o : output) : res (pc1 * output) :=
  match p with
  | PrintA => Ok (PrintB, Printed (Some (a d)) (out_b o) (out_message o))
  | PrintB => Ok (PrintMessage 0, Printed (out_a o) (Some (b d)) (out_message o))
  | PrintMessage i =>
      match zget (message d) i with
      | None => UB "read past the message"
      | Some c =>
          if c =? 0 then Ok (SetDone, o)
          else Ok (PrintMessage (i + 1), Printed (out_a o) (out_b o) (out_message o ++ [c]))
      end
  | p => Ok (p, o)
  end.

Definition peer1_step (s : system) : res system :=
  match pc (second s) with
  | Open1 =>
      match attach false (E1 (bool_decide (is_Some (segment s)))) (mem (second s)) (calls (second s)) with
      | (Ok p, m, h) => Ok (System (segment s) (first s) (Peer PrintA m h p) (out s))
      | (Throw e, _, _) => Throw e
      | _ => UB "open does not return"
      end
  | PrintA | PrintB | PrintMessage _ =>
      deref (second s) s (fun d =>
        '(p, o) ← printMyData d (pc (second s)) (out s);
        Ok (System (segment s) (first s) (at_pc p (second s)) o))
  | SetDone =>
      deref (second s) s (fun d =>
        Ok (System (Some (set_readDone true d)) (first s) (at_pc Close1 (second s)) (out s)))
  | Close1 =>
      match detach (E1 (bool_decide (is_Some (segment s)))) (mem (second s)) (calls (second s)) with
      | (Ok _, m, h) => Ok (System (segment s) (first s) (Peer Over1 m h (myData (second s))) (out s))
      | (Throw e, _, _) => Throw e
      | _ => UB "close does not return"
      end
  | Over1 => Block
  end.

Inductive step (s s' : system) : Prop :=
  | by_first : peer0_step s = Ok s' -> step s s'
  | by_second : peer1_step s = Ok s' -> step s s'.

(** The second process is started once the first says it is waiting. *)
Inductive orderly (s s' : system) : Prop :=
  | first_moves : peer0_step s = Ok s' -> orderly s s'
  | second_moves : (pc (second s) = Open1 -> pc (first s) = Poll) -> peer1_step s = Ok s' -> orderly s s'.
End Peers.

Definition new_memory : shared_memory := SharedMemory "MyMemory" MyData_size.
(** [before]: what an earlier run has left in the segment, if it is still there. *)
Definition initial (before : option MyData) : system :=
  System before (Peer Open0 new_memory [] 0) (Peer Open1 new_memory [] 0) (Printed None None []).

(** ** Specification *)

(** A kernel that opens the segment and maps it at a page of the process. *)
Record opens (E : @env shm) : Prop := {
  op_fd h n c : 0 <= E h (ShmOpen n c : shmcall);
  op_size h f n : 0 <= E h (Ftruncate f n : shmcall);
  op_map h f : let p := E h (Mmap MyData_size f : shmcall) in
    0 < p /\ p mod 4096 = 0 /\ p + MyData_size < 2 ^ 64 }.

Lemma attach_run E c : opens E ->
  exists p m h, attach c E new_memory [] = (Ok p, m, h) /\ p <> 0 /\ ptr m <> 0.
Proof.
  intros [Hf Hs Hm]. set (f := E [] (ShmOpen "/MyMemory" c : shmcall)).
  set (h2 := [ShmOpen "/MyMemory" c : shmcall] ++ [Ftruncate f 268 : shmcall]).
  set (p := E h2 (Mmap 268 f : shmcall)).
  assert (0 < p /\ p mod 4096 = 0 /\ p + 268 < 2 ^ 64) as (Hp & Hmod & Hend) by apply (Hm h2 f).
  assert (Ho : open c E new_memory [] =
    (Ok true, set_ptr p (set_fd f new_memory), h2 ++ [Mmap 268 f : shmcall])).
  { unfold open. rewrite bind_get, if_false by done. rewrite bind_syscall, bind_modify.
    rewrite if_false by (apply Z.ltb_ge, Hf). rewrite bind_syscall, if_false by (apply Z.ltb_ge, Hs).
    rewrite bind_syscall, bind_modify, if_false; [reflexivity|]. apply Z.eqb_neq.
    change (p <> 0). lia. }
  exists p, (set_ptr p (set_fd f new_memory)), (h2 ++ [Mmap 268 f : shmcall]).
  unfold attach. rewrite (bind_ok _ _ _ _ _ _ _ _ Ho). split_and!; [|lia|change (p <> 0); lia]. unfold gets, getAs, align, std_align, MyData_size, MyData_align. cbn [ptr size set_ptr set_fd].
  assert ((p + (4 - 1)) / 4 * 4 = p) as -> by (Z.to_euclidean_division_equations; lia).
  rewrite Z.sub_diag. cbn [size new_memory SharedMemory]. rewrite (if_true (_ <=? _)) by done.
  rewrite wrap_u64_small by lia. cbv beta iota zeta. rewrite (if_false (p =? 0)) by (apply Z.eqb_neq; lia). done.
Qed.

Lemma detach_run E m h : ptr m <> 0 ->
  detach E m h = (Ok tt, set_ptr 0 m, h ++ [Munmap (ptr m) (size m)]).
Proof.
  intros Hp. unfold detach, close. erewrite bind_ok; [|rewrite bind_get, if_false by (by apply Z.eqb_neq);
    rewrite bind_syscall; reflexivity]. reflexivity.
Qed.

(** What the second process should print. *)
Definition greeting : output := Printed (Some 5) (Some float_12) (take 19 hello).

(** How far the first process has got with the object. *)
Definition written (p : pc0) (d : MyData) : Prop :=
  length (message d) = 256%nat /\
  match p with
  | Open0 | SetA => True
  | SetB => a d = 5
  | ClearDone => a d = 5 /\ b d = float_12
  | CopyMessage i => a d = 5 /\ b d = float_12 /\ readDone d = false /\ 0 <= i < 20 /\
      take (Z.to_nat i) (message d) = take (Z.to_nat i) hello
  | Poll | Close0 | Over0 => a d = 5 /\ b d = float_12 /\ take 20 (message d) = hello
  end.

(** How far the second has got with its printing. *)
Definition printed (p : pc1) (o : output) : Prop :=
  match p with
  | Open1 | PrintA => o = Printed None None []
  | PrintB => o = Printed (Some 5) None []
  | PrintMessage i => 0 <= i <= 19 /\ o = Printed (Some 5) (Some float_12) (take (Z.to_nat i) hello)
  | SetDone | Close1 | Over1 => o = greeting
  end.

Definition is_done (p : pc1) : bool := match p with Close1 | Over1 => true | _ => false end.
Definition waiting (p : pc0) : Prop := p = Poll \/ p = Close0 \/ p = Over0.

Record together (s : system) : Prop := {
  tg_seg : forall d, segment s = Some d -> written (pc (first s)) d;
  tg_open0 : match pc (first s) with
             | Open0 => mem (first s) = new_memory /\ calls (first s) = []
             | p => is_Some (segment s) /\ myData (first s) <> 0 /\ (p <> Over0 -> ptr (mem (first s)) <> 0)
             end;
  tg_open1 : match pc (second s) with
             | Open1 => mem (second s) = new_memory /\ calls (second s) = [] /\
                 pc (first s) <> Close0 /\ pc (first s) <> Over0
             | p => waiting (pc (first s)) /\ myData (second s) <> 0 /\ (p <> Over1 -> ptr (mem (second s)) <> 0)
             end;
  tg_done : waiting (pc (first s)) -> forall d, segment s = Some d -> readDone d = is_done (pc (second s));
  tg_wait : pc (first s) = Close0 \/ pc (first s) = Over0 -> is_done (pc (second s)) = true;
  tg_out : printed (pc (second s)) (out s) }.

Lemma hello_char i : 0 <= i < 20 -> exists c, zget hello i = Some c /\ (c =? 0) = (i =? 19).
Proof.
  intros Hi.
  assert (H : forallb (fun i => match zget hello i with Some c => Bool.eqb (c =? 0) (i =? 19) | None => false end)
                (seqZ 0 20) = true) by (vm_compute; reflexivity).
  rewrite forallb_forall in H. specialize (H i). rewrite <-list_elem_of_In, elem_of_seqZ in H.
  specialize (H ltac:(lia)). destruct (zget hello i) as [c|]; [|done]. exists c. split; [done|].
  by apply eqb_prop in H.
Qed.

(** Equal up to [i] and at [i]: equal up to [i + 1]. *)
Lemma take_next (l l' : list Z) i c :
  0 <= i -> take (Z.to_nat i) l = take (Z.to_nat i) l' -> zget l i = Some c -> zget l' i = Some c ->
  take (Z.to_nat (i + 1)) l = take (Z.to_nat (i + 1)) l'.
Proof.
  intros Hi Ht H1 H2. rewrite zget_nonneg in H1, H2 by done.
  rewrite Z2Nat.inj_add by lia. change (Z.to_nat 1) with 1%nat. rewrite Nat.add_1_r.
  by rewrite (take_S_r l _ c H1), (take_S_r l' _ c H2), Ht.
Qed.

Lemma copy_turn i m :
  0 <= i < 20 -> length m = 256%nat -> take (Z.to_nat i) m = take (Z.to_nat i) hello ->
  exists m', myStrCpy hello i m = Ok (m', i =? 19) /\ length m' = 256%nat /\
    take (Z.to_nat (i + 1)) m' = take (Z.to_nat (i + 1)) hello.
Proof.
  intros Hi Hlen Ht. destruct (hello_char i Hi) as (c & Hc & H0). unfold myStrCpy. rewrite Hc.
  rewrite zset_is_Some by lia. eexists. rewrite H0. split_and!; [done|by rewrite length_insert|].
  assert (Hm : zset m i c = Some (<[Z.to_nat i := c]> m)) by (apply zset_is_Some; lia).
  apply (take_next _ _ _ c); [lia| |by rewrite (zget_zset _ _ _ _ _ Hm), decide_True|done].
  by rewrite take_insert_ge by lia.
Qed.

Section Proofs.
Context (E0 : @env shm) (E1 : bool -> @env shm) (HE0 : opens E0) (HE1 : opens (E1 true)).

Lemma deref_some {P A} (p : peer P) s (f : MyData -> res A) d :
  myData p <> 0 -> segment s = Some d -> deref p s f = f d.
Proof. intros Hp Hd. unfold deref. by rewrite if_false, Hd by (by apply Z.eqb_neq). Qed.

Lemma first_opens s :
  together s -> pc (first s) = Open0 -> exists s', peer0_step E0 s = Ok s' /\ together s'.
Proof.
  intros [Hw H0 H1 Hd Hwt Ho] Hpc. unfold peer0_step. rewrite Hpc in *. destruct H0 as [-> ->].
  destruct (attach_run E0 true HE0) as (p & m & h & -> & Hp & Hm).
  rewrite if_false by (by apply Z.eqb_neq). eexists. split; [done|].
  destruct (pc (second s)) eqn:Hpc1; try (destruct H1 as [[|[|]] _]; done).
  split; simpl; rewrite ?Hpc1; try done; try tauto.
  - intros d [= <-]. destruct (segment s) as [d|]; [|by split]. simpl. by apply (Hw d).
  - destruct H1 as (? & ? & _). by split_and!.
  - by intros [|[|]].
  - by intros [|].
Qed.

(** A write of the first process, which the second has not followed yet. *)
Lemma first_writes s f next :
  together s -> match pc (first s) with SetA | SetB | ClearDone | CopyMessage _ => True | _ => False end ->
  match next with Open0 | Close0 | Over0 => False | _ => True end ->
  (forall d, segment s = Some d -> written next (f d) /\ (next = Poll -> readDone (f d) = false)) ->
  exists s', write0 s f next = Ok s' /\ together s'.
Proof.
  intros [Hw H0 H1 Hd Hwt Ho] Hpc Hn Hf. unfold write0.
  assert (is_Some (segment s) /\ myData (first s) <> 0 /\ ptr (mem (first s)) <> 0) as ([d Hs] & Hp & Hm).
  { destruct (pc (first s)); try done; destruct H0 as (? & ? & Hm); split_and!; try done; by apply Hm. }
  rewrite (deref_some _ _ _ d) by done. eexists. split; [done|].
  destruct (pc (second s)) eqn:Hpc1; try (destruct H1 as [[Hx|[Hx|Hx]] _]; by rewrite Hx in Hpc).
  destruct (Hf d Hs) as [Hfw Hfd].
  split; simpl; rewrite ?Hpc1; try done.
  - by intros d' [= <-].
  - by destruct next.
  - destruct H1 as (? & ? & _). by destruct next.
  - intros Hwait d' [= <-]. apply Hfd. by destruct Hwait as [|[-> | ->]].
  - by intros [-> | ->].
Qed.

Lemma first_moves_on s :
  together s -> pc (first s) <> Over0 -> exists s', peer0_step E0 s = Ok s' /\ together s'.
Proof.
  intros Hs Hpc. destruct (pc (first s)) eqn:Hp; [by apply first_opens|..|done].
  all: pose proof Hs as [Hw H0 H1 Hd Hwt Ho]; rewrite Hp in *.
  all: unfold peer0_step; rewrite Hp.
  - apply first_writes; rewrite ?Hp; try done. intros d Hsd. split; [|done].
    destruct (Hw d Hsd) as [? _]. by split.
  - apply first_writes; rewrite ?Hp; try done. intros d Hsd. split; [|done].
    destruct (Hw d Hsd) as (? & ?). by split.
  - apply first_writes; rewrite ?Hp; try done. intros d Hsd. split; [|done].
    destruct (Hw d Hsd) as (? & ? & ?). split; [done|]. simpl. split_and!; try done; lia.
  - destruct H0 as ([d Hsd] & Hptr & _). rewrite (deref_some _ _ _ d) by done.
    destruct (Hw d Hsd) as (Hl & Ha & Hb & Hr & Hi & Ht).
    destruct (copy_turn i (message d) Hi Hl Ht) as (m' & -> & Hl' & Ht'). cbn [mbind res_bind].
    apply first_writes; rewrite ?Hp; try done; [by destruct (i =? 19)|].
    intros d' Hd'. assert (d' = d) as -> by congruence.
    destruct (Z.eqb_spec i 19) as [->|Hne]; (split; [|by intros]); simpl; (split; [done|]).
    + split_and!; [done..|]. exact Ht'.
    + split_and!; try done; lia.
  - destruct H0 as ([d Hsd] & Hptr & Hm). rewrite (deref_some _ _ _ d) by done. eexists. split; [done|].
    specialize (Hd (or_introl eq_refl) d Hsd).
    destruct (readDone d) eqn:Hr; split; simpl; try done.
    + split; [by rewrite Hsd|]. split; [done|]. intros _. by apply Hm.
    + destruct (pc (second s)); try done; destruct H1 as (? & ? & ?); split_and!; try done; unfold waiting; tauto.
    + intros _ d' Hd'. congruence.
    + intros _ d' Hd'. congruence.
  - destruct H0 as (Hsd & Hptr & Hm). rewrite (detach_run E0) by (by apply Hm). eexists. split; [done|].
    split; simpl; try done.
    + destruct (pc (second s)); try done; destruct H1 as (? & ? & ?); split_and!; try done; unfold waiting; tauto.
    + intros _. apply Hd. unfold waiting. tauto.
    + intros _. apply Hwt. tauto.
Qed.

Lemma second_moves_on s :
  together s -> pc (second s) <> Over1 -> (pc (second s) = Open1 -> pc (first s) = Poll) ->
  exists s', peer1_step E1 s = Ok s' /\ together s'.
Proof.
  intros Hs Hpc Hturn. pose proof Hs as [Hw H0 H1 Hd Hwt Ho]. unfold peer1_step.
  assert (Hwait : waiting (pc (first s))).
  { destruct (pc (second s)); try (by destruct H1); by left; apply Hturn. }
  assert (Hdone : pc (second s) <> Close1 -> pc (first s) = Poll).
  { intros Hc. destruct Hwait as [|Hx]; [done|]. specialize (Hwt Hx). by destruct (pc (second s)). }
  assert (is_Some (segment s) /\ myData (first s) <> 0 /\
    (pc (first s) <> Over0 -> ptr (mem (first s)) <> 0)) as ([d Hsd] & Hptr0 & Hm0).
  { destruct Hwait as [Hx|[Hx|Hx]]; by rewrite Hx in *. }
  assert (Hwr : written Poll d). { specialize (Hw d Hsd). by destruct Hwait as [Hx|[Hx|Hx]]; rewrite Hx in Hw. }
  destruct Hwr as (Hlen & Ha & Hb & Ht).
  assert (Hkeep : forall P' m' h' q o', printed P' o' -> is_done P' = is_done (pc (second s)) ->
    q <> 0 -> (P' <> Over1 -> ptr m' <> 0) -> P' <> Open1 ->
    together (System (segment s) (first s) (Peer P' m' h' q) o')).
  { intros P' m' h' q o' Hpr Hsame Hq Hm' Ho'. split; simpl; rewrite ?Hsame; try done. by destruct P'. }
  destruct (pc (second s)) eqn:Hp; [|..|done].
  - destruct H1 as (-> & -> & _). rewrite bool_decide_true by by rewrite Hsd.
    destruct (attach_run (E1 true) false HE1) as (p & m & h & -> & Hpn & Hmn).
    eexists. split; [done|]. by apply Hkeep.
  - destruct H1 as (_ & Hq & Hm). rewrite (deref_some _ _ _ d) by done. eexists. split; [done|].
    simpl. apply Hkeep; simpl; auto. by rewrite Ha, Ho.
  - destruct H1 as (_ & Hq & Hm). rewrite (deref_some _ _ _ d) by done. eexists. split; [done|].
    simpl. apply Hkeep; simpl; auto. simpl in Ho. rewrite Hb, Ho. by split.
  - destruct H1 as (_ & Hq & Hm). destruct Ho as [Hi Ho]. rewrite (deref_some _ _ _ d) by done.
    destruct (hello_char i ltac:(lia)) as (c & Hc & H0c).
    assert (Hmc : zget (message d) i = Some c).
    { rewrite zget_nonneg in * by lia. rewrite <-Ht, lookup_take_lt in Hc by lia. done. }
    simpl. rewrite Hmc, H0c. destruct (Z.eqb_spec i 19) as [->|Hne]; simpl; eexists; (split; [done|]);
      apply Hkeep; simpl; auto.
    split; [lia|]. rewrite Ho. simpl. f_equal. rewrite zget_nonneg in Hc by lia.
    rewrite Z2Nat.inj_add by lia. change (Z.to_nat 1) with 1%nat. rewrite Nat.add_1_r.
    symmetry. by apply take_S_r.
  - destruct H1 as (_ & Hq & Hm). rewrite (deref_some _ _ _ d) by done. eexists. split; [done|].
    split; simpl; try done; rewrite ?(Hdone ltac:(done)) in *.
    + by intros d' [= <-].
    + by split_and!.
    + split_and!; try done. intros _. by apply Hm.
    + by intros _ d' [= <-].
  - destruct H1 as (_ & Hq & Hm). rewrite (detach_run _) by (by apply Hm). eexists. split; [done|].
    by apply Hkeep.
Qed.
End Proofs.

(** ** Progress *)

(** What is left to do, at most, for each process. *)
Definition left0 (p : pc0) : nat :=
  match p with
  | Open0 => 27 | SetA => 26 | SetB => 25 | ClearDone => 24 | CopyMessage i => Z.to_nat (23 - i)
  | Poll => 2 | Close0 => 1 | Over0 => 0
  end.
Definition left1 (p : pc1) : nat :=
  match p with
  | Open1 => 26 | PrintA => 25 | PrintB => 24 | PrintMessage i => Z.to_nat (23 - i)
  | SetDone => 2 | Close1 => 1 | Over1 => 0
  end.

Lemma first_advances E0 s s' :
  together s -> peer0_step E0 s = Ok s' ->
  pc (second s') = pc (second s) /\
  ((pc (first s) = Poll -> is_done (pc (second s)) = true) ->
   (left0 (pc (first s')) < left0 (pc (first s)))%nat).
Proof.
  intros [Hw _ _ Hd _ _]. unfold peer0_step, write0, deref.
  destruct (pc (first s)) as [| | | |i| | |] eqn:Hp; try done.
  - destruct (attach _ _ _ _) as [[[p| | | |] m] h]; intros [= <-]. split; [done|]. simpl. lia.
  - destruct (_ =? 0), (segment s); intros [= <-]. split; [done|]. simpl. lia.
  - destruct (_ =? 0), (segment s); intros [= <-]. split; [done|]. simpl. lia.
  - destruct (_ =? 0), (segment s); intros [= <-]. split; [done|]. simpl. lia.
  - destruct (_ =? 0), (segment s) as [d|] eqn:Hs; try done. specialize (Hw d eq_refl).
    destruct Hw as (_ & _ & _ & _ & Hi & _).
    destruct (myStrCpy hello i (message d)) as [[m last]| | | |]; cbn [mbind res_bind]; intros [= <-].
    split; [done|]. intros _. destruct last; simpl; lia.
  - destruct (_ =? 0), (segment s) as [d|] eqn:Hs; intros [= <-]. split; [done|]. intros Hdone. simpl.
    rewrite (Hd (or_introl eq_refl) d eq_refl), Hdone by done. simpl. lia.
  - destruct (detach _ _ _) as [[[p| | | |] m] h]; intros [= <-]. split; [done|]. simpl. lia.
Qed.

Lemma second_advances E1 s s' :
  together s -> peer1_step E1 s = Ok s' ->
  pc (first s') = pc (first s) /\ (left1 (pc (second s')) < left1 (pc (second s)))%nat.
Proof.
  intros [_ _ _ _ _ Ho]. unfold peer1_step, deref.
  destruct (pc (second s)) as [| | |i| | |] eqn:Hp; try done.
  - destruct (attach _ _ _ _) as [[[p| | | |] m] h]; intros [= <-]. split; [done|]. simpl. lia.
  - destruct (_ =? 0), (segment s); intros [= <-]. split; [done|]. simpl. lia.
  - destruct (_ =? 0), (segment s); intros [= <-]. split; [done|]. simpl. lia.
  - destruct (_ =? 0), (segment s) as [d|]; try done. destruct Ho as [Hi _]. simpl.
    destruct (zget (message d) i) as [c|]; [|done]. destruct (c =? 0); intros [= <-]; (split; [done|]); simpl; lia.
  - destruct (_ =? 0), (segment s); intros [= <-]. split; [done|]. simpl. lia.
  - destruct (detach _ _ _) as [[[p| | | |] m] h]; intros [= <-]. split; [done|]. simpl. lia.
Qed.

Section Theorems.
Context (E0 : @env shm) (E1 : bool -> @env shm).

(** Both processes have ended. *)
Definition both_over (s : system) : Prop := pc (first s) = Over0 /\ pc (second s) = Over1.

Lemma can_finish s : opens E0 -> opens (E1 true) -> together s ->
  exists s', star (orderly E0 E1) s s' /\ both_over s'.
Proof.
  intros HE0 HE1. remember (left0 (pc (first s)) + left1 (pc (second s)))%nat as n eqn:Hn.
  revert s Hn. induction n as [n IH] using lt_wf_ind. intros s -> Hs.
  assert (Hsecond : pc (second s) <> Over1 -> (pc (second s) = Open1 -> pc (first s) = Poll) ->
    exists s', star (orderly E0 E1) s s' /\ both_over s').
  { intros Hp1 Hp0. destruct (second_moves_on E1 HE1 s Hs Hp1 Hp0) as (s1 & H1 & Hs1).
    destruct (second_advances _ _ _ Hs H1) as [Hsame Hlt]. rewrite <-Hsame in IH.
    destruct (IH _ ltac:(apply Nat.add_lt_mono_l; exact Hlt) s1 eq_refl Hs1) as (s' & Hr & Ho).
    exists s'. split; [|done]. econstructor; [by apply second_moves|exact Hr]. }
  assert (Hfirst : pc (first s) <> Over0 -> (pc (first s) = Poll -> is_done (pc (second s)) = true) ->
    exists s', star (orderly E0 E1) s s' /\ both_over s').
  { intros Hp0 Hd. destruct (first_moves_on E0 HE0 s Hs Hp0) as (s1 & H1 & Hs1).
    destruct (first_advances _ _ _ Hs H1) as [Hsame Hlt]. specialize (Hlt Hd). rewrite <-Hsame in IH.
    destruct (IH _ ltac:(apply Nat.add_lt_mono_r; exact Hlt) s1 eq_refl Hs1) as (s' & Hr & Ho).
    exists s'. split; [|done]. econstructor; [by apply first_moves|exact Hr]. }
  destruct (decide (is_done (pc (second s)) = true)) as [Hd|Hd].
  - destruct (decide (pc (first s) = Over0)) as [Hp0|Hp0]; [|by apply Hfirst].
    destruct (pc (second s)) eqn:Hp1; try done; [by apply Hsecond|]. exists s. by repeat constructor.
  - destruct (decide (pc (first s) = Poll)) as [Hp|Hp].
    + apply Hsecond; [by intros Hx; rewrite Hx in Hd|done].
    + apply Hfirst; [|done]. intros Hx. apply Hd. apply (tg_wait _ Hs). by right.
Qed.
End Theorems.

Lemma initial_together before :
  (forall d, before = Some d -> length (message d) = 256%nat) -> together (initial before).
Proof.
  intros Hb. split; simpl; try done.
  - intros d Hd. split; [by apply Hb|done].
  - by intros [|[|]].
  - by intros [|].
Qed.

Lemma orderly_together E0 E1 before s :
  opens E0 -> opens (E1 true) -> (forall d, before = Some d -> length (message d) = 256%nat) ->
  star (orderly E0 E1) (initial before) s -> together s.
Proof.
  intros HE0 HE1 Hb Hr. refine (star_invariant _ together _ _ _ Hr (initial_together _ Hb)).
  intros x y Hx [Hs|Hturn Hs].
  - destruct (first_moves_on E0 HE0 x Hx) as (y' & Hy & Hty); [|congruence].
    intros Hp. unfold peer0_step in Hs. by rewrite Hp in Hs.
  - destruct (second_moves_on E1 HE1 x Hx) as (y' & Hy & Hty); [|done|congruence].
    intros Hp. unfold peer1_step in Hs. by rewrite Hp in Hs.
Qed.

(** ** Theorems *)

(** C21. The shared-memory example, when the second process is started once the first says it is
    waiting: whatever the segment held before and however the accesses interleave, no step is
    undefined or throws; once the second has printed, it has printed exactly what the first wrote;
    and from every state reached both can still run to their ends, the first leaving its loop only
    after the second has set the flag. *)
Theorem peers_agree E0 E1 before s :
  opens E0 -> opens (E1 true) -> (forall d, before = Some d -> length (message d) = 256%nat) ->
  star (orderly E0 E1) (initial before) s ->
  (pc (first s) <> Over0 -> exists s', peer0_step E0 s = Ok s') /\
  (pc (second s) <> Over1 -> (pc (second s) = Open1 -> pc (first s) = Poll) ->
   exists s', peer1_step E1 s = Ok s') /\
  ((pc (second s) = SetDone \/ is_done (pc (second s)) = true) -> out s = greeting) /\
  (pc (first s) = Over0 -> is_done (pc (second s)) = true) /\
  exists s', star (orderly E0 E1) s s' /\ both_over s'.
Proof.
  intros HE0 HE1 Hb Hr. pose proof (orderly_together _ _ _ _ HE0 HE1 Hb Hr) as Hs. split_and!.
  - intros Hp. destruct (first_moves_on E0 HE0 s Hs Hp) as (s' & ? & _). by exists s'.
  - intros Hp Hturn. destruct (second_moves_on E1 HE1 s Hs Hp Hturn) as (s' & ? & _). by exists s'.
  - intros Hp. pose proof (tg_out _ Hs) as Ho. destruct Hp as [Hp|Hp]; [by rewrite Hp in Ho|].
    by destruct (pc (second s)).
  - intros Hp. apply (tg_wait _ Hs). by right.
  - by apply can_finish.
Qed.

(** The second process started while there is no segment: [open] fails, [getAs] answers null, and
    printing reads through it. *)
Theorem early_second_crashes E0 E1 :
  E1 false [] (ShmOpen "/MyMemory" false : shmcall) < 0 ->
  exists s, star (step E0 E1) (initial None) s /\ undefined (peer1_step E1 s).
Proof.
  intros HE. set (fd := E1 false [] (ShmOpen "/MyMemory" false : shmcall)) in *.
  exists (System None (first (initial None))
    (Peer PrintA (set_fd fd new_memory) [ShmOpen "/MyMemory" false : shmcall] 0) (out (initial None))).
  split; [|by eexists]. apply star_one. apply by_second. unfold peer1_step. cbn [pc second initial segment].
  rewrite bool_decide_false by (by intros []).
  assert (attach false (E1 false) new_memory [] =
    (Ok 0, set_fd fd new_memory, [ShmOpen "/MyMemory" false : shmcall])) as Ha.
  { unfold attach, open. erewrite bind_ok.
    2: { rewrite bind_get, if_false by done. rewrite bind_syscall, bind_modify.
         rewrite if_true by (apply Z.ltb_lt; exact HE). reflexivity. }
    reflexivity. }
  cbn [mem calls second initial]. by rewrite Ha.
Qed.

(** An object closed by its owner does not unlink the name when it is destroyed, although it was
    told to: the destructor looks at the pointer, which [close] has cleared. *)
Theorem closed_memory_keeps_name E c p m h :
  attach c E new_memory [] = (Ok p, m, h) -> ptr m <> 0 ->
  unlinkOnDestruction m = true /\ (forall n, (ShmUnlink n : shmcall) ∉ history (detach E m h)).
Proof.
  intros Ha Hp. rewrite detach_run by done. unfold attach, mbind, prog_bind, gets in Ha.
  destruct (open c E new_memory []) as [[[b| | | |] m1] h1] eqn:Ho; try done.
  injection Ha as _ <- <-. revert Ho. unfold open. rewrite bind_get, if_false by done.
  rewrite bind_syscall, bind_modify. destruct (_ <? 0); [intros [= _ <- _]; done|].
  rewrite bind_syscall. destruct (_ <? 0); [intros [= _ <- _]; done|].
  rewrite bind_syscall, bind_modify. set (q := E _ (Mmap _ _ : shmcall)).
  destruct (Z.eqb_spec q 0) as [Hq|Hq]; [intros [= _ <- _]; done|]. intros [= _ <- <-].
  split; [done|]. intros n. simpl. by rewrite !not_elem_of_cons; split_and!; [..|apply not_elem_of_nil].
Qed.

(** ** A kernel *)

(** A kernel that has the segment, and one that has not. *)
Definition kernel (there : bool) : @env shm := fun h c =>
  match c with
  | ShmOpen _ creat => if creat || there then 3 else -1
  | Mmap _ _ => 4096
  | _ => 0
  end.

Lemma kernel_opens : opens (kernel true).
Proof. split; intros; simpl; [|done|by vm_compute]. by rewrite orb_true_r. Qed.

(** A run in which the processes take the turns given, [true] for the first. *)
Fixpoint run (turns : list bool) (s : system) : res system :=
  match turns with
  | [] => Ok s
  | true :: turns' => s' ← peer0_step (kernel true) s; run turns' s'
  | false :: turns' => s' ← peer1_step kernel s; run turns' s'
  end.

Lemma run_star turns s s' : run turns s = Ok s' -> star (step (kernel true) kernel) s s'.
Proof.
  revert s. induction turns as [|[] turns IH]; intros s; simpl; [intros [= <-]; constructor|..].
  - destruct (peer0_step _ s) as [s1| | | |] eqn:H1; try done. intros H.
    econstructor; [by apply by_first|by apply IH].
  - destruct (peer1_step _ s) as [s1| | | |] eqn:H1; try done. intros H.
    econstructor; [by apply by_second|by apply IH].
Qed.

(** As soon as the segment exists, the second process runs to its end; then the first goes on. *)
Definition hasty : list bool := [true] ++ replicate 6 false ++ replicate 23 true.

(** The flag is lost: when the second process does not wait for the first to have written, the first
    clears the flag that the second has set, and polls for ever: there is a run after which the second
    has ended, having printed an empty object, and on every way on the first stays in its loop. *)
Theorem early_second_loses_flag :
  exists s, star (step (kernel true) kernel) (initial None) s /\ pc (second s) = Over1 /\
    out s = Printed (Some 0) (Some 0) [] /\
    forall s', star (step (kernel true) kernel) s s' -> pc (first s') = Poll.
Proof.
  destruct (run hasty (initial None)) as [s| | | |] eqn:Hr; try (vm_compute in Hr; done).
  exists s. assert (Hs : pc (first s) = Poll /\ pc (second s) = Over1 /\ out s = Printed (Some 0) (Some 0) [] /\
    myData (first s) <> 0 /\ readDone <$> segment s = Some false).
  { vm_compute in Hr. injection Hr as <-. by split_and!. }
  split; [by eapply run_star|]. destruct Hs as (Hp0 & Hp1 & Ho & Hm & Hd). split_and!; [done..|].
  intros s' Hs'. refine (proj1 (star_invariant _ (fun s => pc (first s) = Poll /\ pc (second s) = Over1 /\
    myData (first s) <> 0 /\ readDone <$> segment s = Some false) _ _ _ Hs' (conj Hp0 (conj Hp1 (conj Hm Hd))))).
  intros x y (H0 & H1 & Hx & Hdx) [H|H]; [|unfold peer1_step in H; by rewrite H1 in H].
  unfold peer0_step, deref in H. rewrite H0, if_false in H by (by apply Z.eqb_neq).
  destruct (segment x) as [d|] eqn:Hsx; [|done]. injection Hdx as Hdx. injection H as <-. simpl.
  rewrite Hdx. by split_and!.
Qed.

(** ** Witnesses *)

(** The same scheduler, which starts the second process only in its turn. *)
Fixpoint orderly_run (turns : list bool) (s : system) : res system :=
  match turns with
  | [] => Ok s
  | true :: turns' => s' ← peer0_step (kernel true) s; orderly_run turns' s'
  | false :: turns' =>
      if bool_decide (left1 (pc (second s)) = 26%nat /\ pc (first s) <> Poll) then Block
      else s' ← peer1_step kernel s; orderly_run turns' s'
  end.

Lemma orderly_run_star turns s s' :
  orderly_run turns s = Ok s' -> star (orderly (kernel true) kernel) s s'.
Proof.
  revert s. induction turns as [|[] turns IH]; intros s; simpl; [intros [= <-]; constructor|..].
  - destruct (peer0_step _ s) as [s1| | | |] eqn:H1; try done. intros H.
    econstructor; [by apply first_moves|by apply IH].
  - case_bool_decide as Hturn; [done|]. destruct (peer1_step _ s) as [s1| | | |] eqn:H1; try done. intros H.
    econstructor; [apply second_moves; [|done]|by apply IH]. intros Hp. rewrite Hp in Hturn.
    destruct (decide (pc (first s) = Poll)); [done|]. by destruct Hturn.
Qed.

Definition polite : list bool := replicate 26 true ++ replicate 24 false ++ [true].

Lemma peers_agree_witness : exists s,
  star (orderly (kernel true) kernel) (initial None) s /\ pc (first s) = Close0 /\ out s = greeting /\
  exists s', star (orderly (kernel true) kernel) s s' /\ both_over s'.
Proof.
  destruct (orderly_run polite (initial None)) as [s| | | |] eqn:Hr; try (vm_compute in Hr; discriminate Hr).
  pose proof (orderly_run_star _ _ _ Hr) as Hs. exists s. split; [exact Hs|].
  destruct (peers_agree (kernel true) kernel None s kernel_opens kernel_opens) as (_ & _ & Ho & _ & Hend);
    [intros d Hd; discriminate Hd|exact Hs|].
  vm_compute in Hr. injection Hr as <-. split; [reflexivity|].
  split; [apply Ho; right; reflexivity|exact Hend].
Defined.

Lemma early_second_crashes_witness :
  exists s, star (step (kernel true) kernel) (initial None) s /\ undefined (peer1_step kernel s).
Proof. apply (early_second_crashes (kernel true) kernel). reflexivity. Defined.

Lemma closed_memory_keeps_name_witness :
  let '(_, m, h) := attach true (kernel true) new_memory [] in
  unlinkOnDestruction m = true /\
  (forall n, (ShmUnlink n : shmcall) ∉ history (detach (kernel true) m h)).
Proof. by apply (closed_memory_keeps_name (kernel true) true 4096). Defined.
