(* ===== verification/InterprocessQueue.v ===== *)
(** * Construction of the interprocess queues (src/concurrency/InterprocessQueue.cpp)

    A queue is a [ByteRing] laid out in a shared memory object: a descriptor of two cache lines
    at the first aligned address, the ring right after it.  The file shows that what the
    constructor hands to [initRing] lies inside the mapping, and that the two ends of a queue
    start in the initial state of ByteRing.v, so the theorems there are about them. *)

From S2P Require Import Prelude Memory ByteRing RingSafety SharedMemory.

(** [CircularBufferDescriptor]: two atomics, each on a cache line of its own. *)
Definition CACHE_LINE_SIZE : Z := 64.
Definition SIZEOF_DESCRIPTOR : Z := 128.
Definition ALIGNOF_DESCRIPTOR : Z := CACHE_LINE_SIZE.

Definition enlargeCapacity (capa : Z) : Z :=
  u64 (u64 (capa + SIZEOF_DESCRIPTOR) + ALIGNOF_DESCRIPTOR).

Lemma enlarge_exact c : 0 <= c -> c + 128 + 64 < 2 ^ 64 -> enlargeCapacity c = c + 192.
Proof.
  intros. unfold enlargeCapacity, SIZEOF_DESCRIPTOR, ALIGNOF_DESCRIPTOR, CACHE_LINE_SIZE.
  rewrite (wrap_u64_small (c + 128)), wrap_u64_small by lia. lia.
Qed.

(** The addresses of the descriptor and of the ring, and its capacity. *)
Definition initShMem (capacity_ : Z) (cr : ConcurrencyRole) : sm (Z * Z * Z) :=
  let maxCapacity := SIZE_MAX in
  if capacity_ >? maxCapacity then throw "Capacity too big"
  else
    success ← open (match cr with MASTER => true | SLAVE => false end);
    if negb success then throw "Unable to open shared memory"
    else
      shmem ← get;
      let '(memPtr, newSize) :=
        align ALIGNOF_DESCRIPTOR SIZEOF_DESCRIPTOR (ptr shmem) (SharedMemory.size shmem) in
      if memPtr =? 0 then throw "Insufficient capacity"
      else
        let newBuffer := advance memPtr SIZEOF_DESCRIPTOR in
        let newCapacity := Z.min (u64 (newSize - SIZEOF_DESCRIPTOR)) capacity_ in
        mret (memPtr, newBuffer, newCapacity).

Section Queue.
Context `{WP : WaitPolicy}.

(** The object: the addresses [initRing] stored, and the ring's private fields. *)
Record queue := Queue { header : Z; ring : Z; fields : ring_obj }.

(** The body of both constructors, over the shared memory of the given name; [s] is what the
    memory holds.  When it throws, the members already built are destroyed. *)
Definition construct (prefix nm : string) (capacity_ : Z) (cr : ConcurrencyRole) (s : shared)
  : @env shm -> res (shared * queue) * shared_memory * list shmcall := fun E =>
  let shmem := SharedMemory.SharedMemory (prefix +:+ nm) (enlargeCapacity capacity_) in
  let body : sm (shared * queue) :=
    '(newHeader, newBuffer, newCapacity) ← initShMem capacity_ cr;
    '(s', o) ← lift (initRing s newCapacity cr);
    mret (s', Queue newHeader newBuffer o) in
  match body E shmem [] with
  | (Throw e, m, h) => let '(_, m', h') := destroy E m h in (Throw e, m', h')
  | result => result
  end.

Definition InterprocessQueue := construct "iq_shmem_".
Definition SLInterprocessQueue := construct "sliq_shmem_".

(** ** Specification *)

(** What POSIX says of the calls [open] makes: a length that is negative as [off_t] is refused,
    and a mapping either failed or lies in the address space. *)
Definition posix_memory (E : @env shm) : Prop :=
  (forall h f sz, 2 ^ 63 <= sz -> E h (Ftruncate f sz : shmcall) < 0) /\
  (forall h sz f, let p := E h (Mmap sz f : shmcall) in
     p = MAP_FAILED \/ 0 <= p /\ p + sz < 2 ^ 64).

(** What a successful [open] leaves. *)
Lemma open_ok E c m h r m' h' :
  open c E m h = (Ok true, m', h') -> r = true ->
  posix_memory E ->
  SharedMemory.size m' = SharedMemory.size m /\ SharedMemory.size m < 2 ^ 63 /\
  (ptr m' = MAP_FAILED \/ 0 <= ptr m' /\ ptr m' + SharedMemory.size m' < 2 ^ 64).
Proof.
  intros H _ [Hft Hmm]. unfold open in H. rewrite bind_get in H.
  destruct (negb (ptr m =? 0)); [done|].
  rewrite bind_syscall, bind_modify in H.
  match type of H with context [if ?b then _ else _] => destruct b eqn:E1; [done|] end.
  rewrite bind_syscall in H.
  match type of H with context [if ?b then _ else _] => destruct b eqn:E2 end; [done|].
  rewrite bind_syscall, bind_modify in H.
  match type of H with context [if ?b then _ else _] => destruct b eqn:E3 end; [done|].
  injection H as <- _. split; [done|]. split; [|apply Hmm].
  apply Z.ltb_ge in E2. destruct (Z.ltb_spec (SharedMemory.size m) (2 ^ 63)) as [|Hbig]; [done|].
  exfalso. eapply Z.lt_irrefl, Z.le_lt_trans; [exact E2|]. apply Hft. exact Hbig.
Qed.

(** A mapping that failed does not yield a descriptor: the first aligned address above
    [MAP_FAILED] is the null pointer. *)
Lemma align_map_failed space :
  (align ALIGNOF_DESCRIPTOR SIZEOF_DESCRIPTOR MAP_FAILED space).1 = 0.
Proof.
  unfold align, std_align, ALIGNOF_DESCRIPTOR, CACHE_LINE_SIZE, MAP_FAILED.
  change ((2 ^ 64 - 1 + (64 - 1)) / 64 * 64) with (2 ^ 64). by case_bool.
Qed.

(** The successful construction, step by step. *)
Lemma construct_ok E prefix nm cap cr s s' q m h :
  in_u 64 cap -> construct prefix nm cap cr s E = (Ok (s', q), m, h) -> posix_memory E ->
  exists p newSize,
    0 <= p /\ p + enlargeCapacity cap < 2 ^ 64 /\ enlargeCapacity cap < 2 ^ 63 /\
    align ALIGNOF_DESCRIPTOR SIZEOF_DESCRIPTOR p (enlargeCapacity cap) = (header q, newSize) /\
    header q <> 0 /\ ring q = advance (header q) SIZEOF_DESCRIPTOR /\
    initRing s (Z.min (u64 (newSize - SIZEOF_DESCRIPTOR)) cap) cr = Ok (s', fields q) /\
    ptr m = p /\ SharedMemory.size m = enlargeCapacity cap.
Proof.
  intros Hcap H Hk. unfold construct in H.
  set (m0 := SharedMemory.SharedMemory _ _) in H.
  assert (SharedMemory.size m0 = enlargeCapacity cap) as Hm0 by done.
  unfold initShMem in H. unfold in_u, SIZE_MAX in *.
  destruct (Z.gtb_spec cap (2 ^ 64 - 1)); [lia|].
  unfold mbind at 1, prog_bind at 1 in H. unfold mbind at 1, prog_bind at 1 in H.
  destruct (open _ E m0 []) as [[r1 m1] h1] eqn:E1.
  destruct r1 as [[]|e| |w|]; cbn [negb] in H; try done; try (by destruct (destroy E m1 h1) as [[? ?] ?]).
  2: { unfold throw in H. by destruct (destroy E m1 h1) as [[? ?] ?]. }
  destruct (open_ok E _ m0 [] true m1 h1 E1 eq_refl Hk) as (Hsz & H63 & Hp).
  rewrite bind_get in H. rewrite Hm0 in *. rewrite Hsz in *.
  destruct (align _ _ (ptr m1) (enlargeCapacity cap)) as [memPtr newSize] eqn:Ea.
  destruct (Z.eqb_spec memPtr 0) as [Hnull|Hnull].
  { unfold throw in H. by destruct (destroy E m1 h1) as [[? ?] ?]. }
  unfold mret at 1, prog_ret at 1 in H. rewrite bind_lift in H.
  destruct (initRing s _ cr) as [[s1 o]|e| |w|] eqn:Ei; try done;
    try (by destruct (destroy E m1 h1) as [[? ?] ?]).
  injection H as <- <- <- <-. destruct Hp as [Hp|[Hp0 Hp]].
  { pose proof (align_map_failed (enlargeCapacity cap)) as Hf. rewrite <- Hp, Ea in Hf. done. }
  exists (ptr m1), newSize. by split_and!.
Qed.

(** C27. The ring lies inside its mapping, whatever capacity is asked for: when the constructor
    returns, the descriptor is on a cache line inside the mapping, the ring starts right after
    it, and its last byte is inside the mapping too; the capacity is at least two and never
    more than asked, and exactly what was asked unless the enlarged size overflowed. *)
Theorem ring_inside_mapping E prefix nm cap cr s s' q m h :
  in_u 64 cap -> posix_memory E ->
  construct prefix nm cap cr s E = (Ok (s', q), m, h) ->
  let c := capacity (fields q) in
  header q mod CACHE_LINE_SIZE = 0 /\ ptr m <= header q /\
  ring q = header q + SIZEOF_DESCRIPTOR /\
  ring q + c <= ptr m + SharedMemory.size m /\ 2 <= c <= cap /\
  (cap + SIZEOF_DESCRIPTOR + ALIGNOF_DESCRIPTOR < 2 ^ 64 -> c = cap).
Proof.
  intros Hcap Hk H c.
  destruct (construct_ok _ _ _ _ _ _ _ _ _ _ Hcap H Hk)
    as (p & newSize & Hp0 & Hp & H63 & Ha & Hh & Hr & Hi & Hpm & Hsm).
  unfold ALIGNOF_DESCRIPTOR, CACHE_LINE_SIZE, SIZEOF_DESCRIPTOR, in_u in *.
  apply align_block in Ha as (Hmod & Hlo & Hend & Hfit); try lia.
  assert (2 <= Z.min (u64 (newSize - 128)) cap /\ c = Z.min (u64 (newSize - 128)) cap) as [Hc2 Hceq].
  { unfold initRing in Hi. destruct (Z.gtb_spec (Z.min (u64 (newSize - 128)) cap) SIZE_MAX); [done|].
    destruct (Z.ltb_spec (Z.min (u64 (newSize - 128)) cap) 2); [done|].
    split; [done|]. unfold c. by destruct cr; injection Hi as _ <-. }
  rewrite wrap_u64_small in Hceq, Hc2 by lia.
  unfold advance in Hr. rewrite wrap_u64_small in Hr by lia.
  rewrite Hpm, Hsm. split_and!; try lia. intros Hno.
  rewrite enlarge_exact in * by lia. lia.
Qed.

(** The two ends of a queue: when a master and then a slave construct a queue of the same
    name and capacity over the same memory, in processes of their own, the producer and the
    consumer they give are the initial state of the ring system, with a capacity for which its
    index arithmetic is exact. *)
Theorem queue_ends_initial E1 E2 prefix nm cap s s1 s2 q1 q2 m1 m2 h1 h2 :
  cap + SIZEOF_DESCRIPTOR + ALIGNOF_DESCRIPTOR < 2 ^ 64 -> 0 <= cap ->
  posix_memory E1 -> posix_memory E2 ->
  construct prefix nm cap MASTER s E1 = (Ok (s1, q1), m1, h1) ->
  construct prefix nm cap SLAVE s1 E2 = (Ok (s2, q2), m2, h2) ->
  cap_ok cap /\
  System s2 (Producer (fields q1) PIdle []) (Consumer (fields q2) CIdle 0 []) [] =
    initial cap (buffer s) (waiter s).
Proof.
  unfold SIZEOF_DESCRIPTOR, ALIGNOF_DESCRIPTOR, CACHE_LINE_SIZE. intros Hcap Hc0 Hk1 Hk2 H1 H2.
  assert (in_u 64 cap) as Hu by (unfold in_u; lia).
  assert (forall E cr s s' q m h, posix_memory E -> construct prefix nm cap cr s E = (Ok (s', q), m, h) ->
    cap_ok cap /\ initRing s cap cr = Ok (s', fields q)) as Hone.
  { intros E cr x x' q m h Hk H.
    destruct (construct_ok _ _ _ _ _ _ _ _ _ _ Hu H Hk)
      as (p & newSize & Hp0 & Hp & H63 & Ha & Hh & Hr & Hi & Hpm & Hsm).
    unfold ALIGNOF_DESCRIPTOR, CACHE_LINE_SIZE, SIZEOF_DESCRIPTOR in *.
    rewrite enlarge_exact in * by lia.
    apply align_block in Ha as (Hmod & Hlo & Hend & Hfit); try lia.
    rewrite wrap_u64_small, Z.min_r in Hi by lia. split; [|done].
    unfold initRing in Hi. destruct (Z.gtb_spec cap SIZE_MAX); [done|].
    destruct (Z.ltb_spec cap 2); [done|]. unfold cap_ok. lia. }
  destruct (Hone _ _ _ _ _ _ _ Hk1 H1) as [Hok Hi1], (Hone _ _ _ _ _ _ _ Hk2 H2) as [_ Hi2].
  split; [done|]. unfold cap_ok in Hok. unfold initRing, SIZE_MAX in Hi1, Hi2.
  destruct (Z.gtb_spec cap (2 ^ 64 - 1)); [lia|]. destruct (Z.ltb_spec cap 2); [lia|].
  injection Hi1 as <- <-. injection Hi2 as <- <-. done.
Qed.
End Queue.

(** ** A concrete pair of ends *)

(** A kernel that maps at a page whose first bytes are not on a cache line. *)
Definition kernel : @env shm := fun h c =>
  match (c : shm_call) with
  | ShmOpen _ _ => 3
  | Ftruncate _ sz => if sz <? 2 ^ 63 then 0 else -1
  | Mmap sz _ => if 4104 + sz <? 2 ^ 64 then 4104 else MAP_FAILED
  | _ => 0
  end.

Lemma kernel_posix : posix_memory kernel.
Proof.
  split.
  - intros h f sz Hsz. unfold kernel. destruct (Z.ltb_spec sz (2 ^ 63)); lia.
  - intros h sz f. unfold kernel. cbv zeta. destruct (Z.ltb_spec (4104 + sz) (2 ^ 64)); [right|left]; lia.
Qed.

#[local] Existing Instance SLIntPrQueueLockPolicy.

Definition memory (h t : Z) : shared :=
  Shared (WP := SLIntPrQueueLockPolicy) h t [1; 2; 3; 4] tt.
Definition fresh_memory : shared := memory 77 88.
Definition shm_after (creat : bool) : shared_memory := SharedMem "/iq_shmem_q" 196 4104 3 true.

Lemma ring_inside_mapping_witness :
  4160 mod CACHE_LINE_SIZE = 0 /\ 4104 <= 4160 /\ 4288 = 4160 + SIZEOF_DESCRIPTOR /\
  4288 + 4 <= 4104 + 196 /\ 2 <= 4 <= 4 /\
  (4 + SIZEOF_DESCRIPTOR + ALIGNOF_DESCRIPTOR < 2 ^ 64 -> 4 = 4).
Proof.
  apply (ring_inside_mapping kernel "iq_shmem_" "q" 4 MASTER fresh_memory
           (memory 0 0) (Queue 4160 4288 (RingObj 4 0 0)) (shm_after true)
           [ShmOpen "/iq_shmem_q" true; Ftruncate 3 196; Mmap 196 3]);
    [by vm_compute|exact kernel_posix|reflexivity].
Defined.

Lemma queue_ends_initial_witness :
  cap_ok 4 /\
  System (memory 0 0) (Producer (RingObj 4 0 0) PIdle [])
    (Consumer (RingObj 4 0 0) CIdle 0 []) [] = 
    initial (WP := SLIntPrQueueLockPolicy) 4 [1; 2; 3; 4] tt.
Proof.
  apply (queue_ends_initial kernel kernel "iq_shmem_" "q" 4 fresh_memory
           (memory 0 0) (memory 0 0)
           (Queue 4160 4288 (RingObj 4 0 0)) (Queue 4160 4288 (RingObj 4 0 0))
           (shm_after true) (shm_after false)
           [ShmOpen "/iq_shmem_q" true; Ftruncate 3 196; Mmap 196 3]
           [ShmOpen "/iq_shmem_q" false; Ftruncate 3 196; Mmap 196 3]);
    [by vm_compute|lia|exact kernel_posix|exact kernel_posix|reflexivity|reflexivity].
Defined.
