(* ===== verification/SignalSetup.v ===== *)
(** * Construction of the interprocess signals (src/concurrency/InterprocessSignal.cpp)

    The constructor, the move constructor and the destructor of the two POSIX builds of
    [InterprocessSignal], over the shared memory of SharedMemory.v; what is signalled and
    waited for is in InterprocessSignal.v. *)

From S2P Require Import Prelude Memory ByteRing InterprocessSignal SharedMemory InterprocessQueue.

(** What a build puts in the shared memory: the size and alignment of the object, and the object
    as its initialisation leaves it. *)
Record build (T : Type) := Build { sizeof_shared : Z; alignof_shared : Z; initialised : T }.
Arguments Build {T}.
Arguments sizeof_shared {T}.
Arguments alignof_shared {T}.
Arguments initialised {T}.

(** [std::atomic<uint32_t>], set to 0. *)
Definition futex_build : build Z := Build 4 4 0.

(** [PosixMutexCV] as glibc lays it out on 64 bits: a mutex, free, and a condition variable that
    nobody waits for. *)
Record posix_mutex_cv := PosixMutexCV { mutex_held : bool; cond_waiters : nat }.
Definition cv_build : build posix_mutex_cv := Build 88 8 (PosixMutexCV false 0).

Definition is_master (cr : ConcurrencyRole) : bool := match cr with MASTER => true | SLAVE => false end.

Section Signal.
Context {T : Type} (B : build T).

(** The constructor: the object over the mapping, its address, and what the shared memory holds
    afterwards; when it throws, the member [shmem] is destroyed. *)
Definition signal_construct (nm : string) (cr : ConcurrencyRole)
  : @env shm -> list shmcall -> res (Z * T) * shared_memory * list shmcall := fun E h =>
  let shmem := SharedMemory.SharedMemory ("is_shmem_" +:+ nm) (sizeof_shared B) in
  let body : sm (Z * T) :=
    success ← open (is_master cr);
    if negb success then throw "Cannot create shared memory"
    else
      _ ← modify (setUnlinkOnDestruction (is_master cr));
      this ← get;
      let '(memPtr, newSize) :=
        align (alignof_shared B) (sizeof_shared B) (ptr this) (SharedMemory.size this) in
      if memPtr =? 0 then throw "Unaligned shared memory error"
      else mret (memPtr, initialised B) in
  match body E shmem h with
  | (Throw e, m, h') => let '(_, m', h'') := destroy E m h' in (Throw e, m', h'')
  | result => result
  end.

(** The object: its shared memory and the pointer into it. *)
Record signal_obj := SignalObj { shmem : shared_memory; shared_ptr : Z }.

(** The move constructor: the new object and the source, whose pointer is cleared. *)
Definition signal_move (other : signal_obj) : signal_obj * signal_obj :=
  let '(m, src) := move (shmem other) in (SignalObj m (shared_ptr other), SignalObj src 0).

(** The destructor has no body: the member is destroyed. *)
Definition signal_destroy (s : signal_obj) : @env shm -> list shmcall -> list shmcall := fun E h =>
  let '(_, _, h') := destroy E (shmem s) h in h'.

Lemma signal_construct_ok nm cr (E : @env shm) h p content m h' :
  signal_construct nm cr E h = (Ok (p, content), m, h') -> posix_memory E ->
  content = initialised B /\ p <> 0 /\ SharedMemory.size m = sizeof_shared B /\
  unlinkOnDestruction m = is_master cr /\
  (ptr m = MAP_FAILED \/ 0 <= ptr m /\ ptr m + sizeof_shared B < 2 ^ 64) /\
  (align (alignof_shared B) (sizeof_shared B) (ptr m) (sizeof_shared B)).1 = p.
Proof.
  unfold signal_construct. set (m0 := SharedMemory.SharedMemory _ _). intros H Hk.
  unfold mbind at 1, prog_bind at 1 in H.
  destruct (open (is_master cr) E m0 h) as [[r1 m1] h1] eqn:E1.
  destruct r1 as [[]|e| |w|]; cbn [negb] in H; try done; try (by destruct (destroy E m1 h1) as [[? ?] ?]).
  2: { unfold throw in H. by destruct (destroy E m1 h1) as [[? ?] ?]. }
  destruct (open_ok E _ m0 h true m1 h1 E1 eq_refl Hk) as (Hsz & _ & Hp).
  rewrite bind_modify, bind_get in H. cbn [ptr SharedMemory.size setUnlinkOnDestruction] in H.
  rewrite Hsz in *. change (SharedMemory.size m0) with (sizeof_shared B) in *.
  destruct (align _ _ (ptr m1) _) as [memPtr newSize] eqn:Ea.
  destruct (Z.eqb_spec memPtr 0) as [Hnull|Hnull].
  { unfold throw in H.
    by destruct (destroy E (setUnlinkOnDestruction (is_master cr) m1) h1) as [[? ?] ?]. }
  injection H as <- <- <- <-. simpl. rewrite Ea. by split_and!.
Qed.

(** When the constructor returns, the object it made is aligned and lies inside the mapping,
    provided the size is at least the alignment, so that a mapping that failed is noticed. *)
Theorem signal_inside_mapping nm cr (E : @env shm) h p content m h' :
  0 < alignof_shared B -> 0 < sizeof_shared B ->
  (align (alignof_shared B) (sizeof_shared B) MAP_FAILED (sizeof_shared B)).1 = 0 ->
  posix_memory E -> signal_construct nm cr E h = (Ok (p, content), m, h') ->
  p mod alignof_shared B = 0 /\ ptr m <= p /\
  p + sizeof_shared B <= ptr m + SharedMemory.size m /\ unlinkOnDestruction m = is_master cr.
Proof.
  intros Ha Hs Hf Hk H.
  destruct (signal_construct_ok nm cr E h p content m h' H Hk) as (_ & Hp & Hsz & Hu & Hm & Hal).
  destruct Hm as [Hm|[Hm0 Hm1]]; [rewrite Hm, Hf in Hal; congruence|].
  destruct (align _ _ (ptr m) _) as [q left] eqn:Ea. simpl in Hal. subst q.
  destruct (align_block _ _ _ _ _ _ Ha (Z.lt_le_incl _ _ Hs) Hm0 Hm1 Ea Hp) as (H1 & H2 & H3 & H4).
  rewrite Hsz. split_and!; (done || lia).
Qed.

(** Moving a signal leaves its source inert: the new object has the mapping and the pointer,
    and destroying the source makes no system call, so that the mapping is undone once. *)
Theorem moved_signal_inert (s : signal_obj) (E : @env shm) h :
  let '(new, src) := signal_move s in
  new = s /\ shared_ptr src = 0 /\ signal_destroy src E h = h.
Proof. destruct s as [m p]. by split_and!. Qed.
End Signal.

(** The slave's constructor initialises the shared object again: a signal that the master has
    sent before the slave is there is lost, although signalling is meant to be sticky: in the
    futex build the word is 1 after [fpost] and 0 after the constructor, and the first thread that
    waits goes to sleep. *)
Theorem slave_constructor_loses_signal nm (E : @env shm) h p word m h' one :
  posix_memory E -> signal_construct futex_build nm SLAVE E h = (Ok (p, word), m, h') ->
  fpost 0 [] = (1, []) /\ fwait_step 1 fwait_enter = Some (0, FDone) /\ word = 0 /\
  fwait_step word fwait_enter = Some (0, FCall 0) /\ fwait_step word (FCall one) = Some (0, FAsleep one).
Proof.
  intros Hk H. destruct (signal_construct_ok futex_build nm SLAVE E h p word m h' H Hk) as (-> & _).
  by split_and!.
Qed.

(** ** Witnesses *)

Definition good_memory : @env shm := fun _ c =>
  match c with
  | ShmOpen _ _ => 3
  | Ftruncate _ sz => if sz <? 2 ^ 63 then 0 else -1
  | Mmap sz _ => if 4096 + sz <? 2 ^ 64 then 4096 else MAP_FAILED
  | _ => 0
  end.
Lemma good_posix_memory : posix_memory good_memory.
Proof.
  split.
  - intros h f sz Hsz. simpl. by rewrite (proj2 (Z.ltb_ge _ _) Hsz).
  - intros h sz f. simpl. destruct (Z.ltb_spec (4096 + sz) (2 ^ 64)); [right; lia|by left].
Qed.

Lemma signal_inside_mapping_witness :
  4096 mod 8 = 0 /\ 4096 <= 4096 /\ 4096 + 88 <= 4096 + 88 /\ true = true.
Proof.
  eapply (signal_inside_mapping cv_build "s" MASTER good_memory [] 4096 (PosixMutexCV false 0)
    (SharedMem "/is_shmem_s" 88 4096 3 true)); [done|done|done|apply good_posix_memory|].
  vm_compute. reflexivity.
Defined.

Lemma slave_constructor_loses_signal_witness :
  fpost 0 [] = (1, []) /\ fwait_step 1 fwait_enter = Some (0, FDone) /\ 0 = 0 /\
  fwait_step 0 fwait_enter = Some (0, FCall 0) /\ fwait_step 0 (FCall 0) = Some (0, FAsleep 0).
Proof.
  eapply (slave_constructor_loses_signal "s" good_memory [] 4096 0
    (SharedMem "/is_shmem_s" 4 4096 3 false) _ 0); [apply good_posix_memory|].
  vm_compute. reflexivity.
Defined.
