(* ===== verification/WindowsSignal.v ===== *)
(** * Interprocess signals and semaphores on Windows (src/concurrency/InterprocessSignal.cpp,
    src/concurrency/Semaphore.cpp)

    The Windows branches, over the calls on handles of events and semaphores.  A handle is a
    number, 0 the null one.  A signal is an event that resets itself, which remembers a signal that
    nobody waits for: as a wait policy of the ring it is sticky. *)

From S2P Require Import Prelude Ownership Numbers ByteRing InterprocessSignal RingWait.

Inductive sync_call :=
  | CreateEventA (name : string)
  | CreateSemaphoreA (name : string) (initial maximum : Z)
  | WaitForSingleObject (h timeoutMs : Z)
  | SetEvent (h : Z) | ReleaseSemaphore (h count : Z) | CloseHandle (h : Z).
Definition win_sync : Sys := {| call := sync_call; reply _ := Z |}.
#[export] Existing Instance win_sync.
Abbreviation synccall := (@call win_sync).

Definition INFINITE : Z := 2 ^ 32 - 1.
Definition WAIT_OBJECT_0 : Z := 0.
Definition WAIT_TIMEOUT : Z := 258.
Definition WAIT_FAILED : Z := 2 ^ 32 - 1.

(** ** InterprocessSignal *)

Record event_obj := EventObj { eventHandle : Z }.

(** The role is not used. *)
Definition event_construct (name : string) : prog event_obj unit :=
  h ← sys (CreateEventA ("is_" +:+ name) : synccall);
  _ ← modify (fun _ => EventObj h);
  if h =? 0 then throw "CreateEvent failed, check signal name" else mret tt.

(** The new object and the source, left inert. *)
Definition event_move (other : event_obj) : event_obj * event_obj := (other, EventObj 0).

Definition event_destroy : prog event_obj unit :=
  this ← get;
  if negb (eventHandle this =? 0) then _ ← sys (CloseHandle (eventHandle this) : synccall); mret tt
  else mret tt.

Definition event_wait : prog event_obj WaitResult :=
  this ← get;
  waitResult ← sys (WaitForSingleObject (eventHandle this) INFINITE : synccall);
  if waitResult =? WAIT_TIMEOUT then mret TIMEOUT_ELAPSED
  else if waitResult =? WAIT_FAILED then mret FAILED
  else mret OK.

Definition event_signal : prog event_obj unit :=
  this ← get; _ ← sys (SetEvent (eventHandle this) : synccall); mret tt.

(** ** InterprocessSemaphore *)

Record sem_obj := SemObj { handle : Z }.

Definition MAX_PATH : Z := 260.

(** The body of the constructor; [unlinkOnDestruction] plays no part on Windows. *)
Definition sem_construct (name : string) (maxConcurrency : Z) : prog sem_obj unit :=
  if maxConcurrency =? 0 then throw "maxConcurrency cannot be 0"
  else if bool_decide (name = "") then throw "name cannot be empty"
  else
    let windowsName := "Local\" +:+ name in
    if Z.of_nat (String.length windowsName) >? MAX_PATH - 1 then throw "name too long"
    else
      windowsMaxSemCount ← lift (safeNumericCast LONG size_t maxConcurrency);
      windowsIniSemCount ← lift (safeNumericCast LONG size_t maxConcurrency);
      h ← sys (CreateSemaphoreA windowsName windowsIniSemCount windowsMaxSemCount : synccall);
      _ ← modify (fun _ => SemObj h);
      if h =? 0 then throw "CreateSemaphoreA(...) failed" else mret tt.

Definition sem_destroy : prog sem_obj unit :=
  this ← get;
  if negb (handle this =? 0) then _ ← sys (CloseHandle (handle this) : synccall); mret tt
  else mret tt.

(** A call per unit of fuel: the loops go round until the wait says what it found. *)
Fixpoint acquire (fuel : nat) : prog sem_obj bool :=
  match fuel with
  | O => lift OutOfFuel
  | S fuel' =>
      this ← get;
      result ← sys (WaitForSingleObject (handle this) INFINITE : synccall);
      if result =? WAIT_FAILED then mret false
      else if result =? WAIT_OBJECT_0 then mret true
      else acquire fuel'
  end.

Inductive AcquireResult := SUCCESS | TIMEOUT | FAIL.

Fixpoint acquire_loop (fuel : nat) (timeoutMs : Z) : prog sem_obj AcquireResult :=
  match fuel with
  | O => lift OutOfFuel
  | S fuel' =>
      this ← get;
      result ← sys (WaitForSingleObject (handle this) timeoutMs : synccall);
      if result =? WAIT_FAILED then mret FAIL
      else if result =? WAIT_TIMEOUT then mret TIMEOUT
      else if result =? WAIT_OBJECT_0 then mret SUCCESS
      else acquire_loop fuel' timeoutMs
  end.
Definition acquireWithTimeout (fuel : nat) (timeout : Z) : prog sem_obj AcquireResult :=
  timeoutMs ← lift (safeNumericCast DWORD int64_t timeout); acquire_loop fuel timeoutMs.

Definition release : prog sem_obj bool :=
  this ← get;
  success ← sys (ReleaseSemaphore (handle this) 1 : synccall);
  mret (negb (success =? 0)).

Definition lock (fuel : nat) : prog sem_obj unit :=
  ok ← acquire fuel; if negb ok then throw "Unable to lock the semaphore" else mret tt.
Definition unlock : prog sem_obj unit :=
  ok ← release; if negb ok then throw "Unable to unlock the semaphore" else mret tt.

Fixpoint try_lock (fuel : nat) : prog sem_obj bool :=
  match fuel with
  | O => lift OutOfFuel
  | S fuel' =>
      this ← get;
      result ← sys (WaitForSingleObject (handle this) 0 : synccall);
      if result =? WAIT_TIMEOUT then mret false
      else if result =? WAIT_FAILED then throw "Unable to lock the semaphore"
      else if result =? WAIT_OBJECT_0 then mret true
      else try_lock fuel'
  end.

(** ** The event as a wait policy of the ring *)

(** [IntPrQueueLockPolicy] over two events that reset themselves: a wait ends when its event is
    set, and resets it; [SetEvent] sets it, whether somebody waits or not. *)
Record events := Events { present_set : bool; free_set : bool }.
Definition is_set (e : event) (w : events) : bool :=
  match e with DataPresent => present_set w | DataFree => free_set w end.
Definition set_event (b : bool) (e : event) (w : events) : events :=
  match e with DataPresent => Events b (free_set w) | DataFree => Events (present_set w) b end.

Definition event_policy : WaitPolicy := {|
  wstate := events;
  wait_begin _ w := w;
  wait_end e w := if is_set e w then Some (set_event false e w) else None;
  signal := set_event true |}.

#[export] Instance event_sticky : @StickyPolicy event_policy.
Proof.
  refine {| pending := is_set : event -> @wstate event_policy -> bool |}; simpl.
  - by intros [].
  - by intros [] [].
  - done.
  - intros e e' w w' Hne. destruct (is_set e' w); [intros [= <-]|done]. by destruct e, e'.
  - intros e w. by destruct (is_set e w).
Defined.

(** ** Handles *)

Definition sync_handle (h : Z) : list Z := if h =? 0 then [] else [h].
#[export] Instance sync_resources : @Resources win_sync Z := {|
  acquired c := match c as c return @reply win_sync c -> list Z with
                | CreateEventA _ | CreateSemaphoreA _ _ _ => sync_handle
                | _ => fun _ => []
                end;
  released c := match c with CloseHandle h => sync_handle h | _ => [] end |}.

Lemma sync_handle_some h : (h =? 0) = false -> sync_handle h = [h].
Proof. unfold sync_handle. by intros ->. Qed.
#[local] Hint Extern 1 (released _ = [_]) => apply sync_handle_some; assumption : owned.

Ltac step := owning_step; cbn [acquired sync_resources].

Inductive event_op := EWait | ESignal.
Definition run_event (o : event_op) : prog event_obj unit :=
  match o with EWait => _ ← event_wait; mret tt | ESignal => event_signal end.

(** An object whose constructor throws is not destroyed. *)
Definition event_life (name : string) (ops : list event_op) : prog event_obj unit :=
  _ ← event_construct name; lifetime run_event event_destroy ops.

Inductive sem_op := SLock (fuel : nat) | SUnlock | STryLock (fuel : nat)
  | SAcquireFor (fuel : nat) (timeout : Z).
Definition run_sem (o : sem_op) : prog sem_obj unit :=
  match o with
  | SLock fuel => lock fuel
  | SUnlock => unlock
  | STryLock fuel => _ ← try_lock fuel; mret tt
  | SAcquireFor fuel timeout => _ ← acquireWithTimeout fuel timeout; mret tt
  end.
Definition sem_life (name : string) (maxConcurrency : Z) (ops : list sem_op) : prog sem_obj unit :=
  _ ← sem_construct name maxConcurrency; lifetime run_sem sem_destroy ops.

Definition event_holds (s : event_obj) (held : list Z) : Prop := held = sync_handle (eventHandle s).
Definition sem_holds (s : sem_obj) (held : list Z) : Prop := held = sync_handle (handle s).

Lemma event_construct_holds name :
  triple (fun _ held => held = []) (event_construct name) (fun _ => event_holds)
    (fun _ held => held = []).
Proof.
  apply triple_follow. intros s held ->. unfold event_construct. do 3 step.
  - apply owns_throw. unfold sync_handle. by rewrite E.
  - apply owns_ret. unfold event_holds. simpl. apply app_nil_r.
Qed.

Lemma event_op_holds o : triple event_holds (run_event o) (fun _ => event_holds) event_holds.
Proof.
  destruct o; simpl.
  - apply (triple_bind _ _ _ (fun _ => event_holds)); [|intros; by apply triple_ret].
    apply triple_follow. intros s held ->. unfold event_wait. do 3 step; [by step|]. by do 2 step.
  - apply triple_follow. intros s held ->. unfold event_signal. by do 3 step.
Qed.

Lemma event_destroy_releases :
  triple event_holds event_destroy (fun _ _ held => held = []) (fun _ held => held = []).
Proof.
  apply triple_follow. intros s held ->. unfold event_destroy. step.
  destruct (eventHandle s =? 0) eqn:Hh; simpl negb; cbv iota.
  - apply owns_ret. unfold sync_handle. by rewrite Hh.
  - rewrite sync_handle_some by done. by do 2 step.
Qed.

Lemma sem_construct_holds name n :
  triple (fun _ held => held = []) (sem_construct name n) (fun _ => sem_holds)
    (fun _ held => held = []).
Proof.
  apply triple_follow. intros s held ->. unfold sem_construct.
  step; [by step|]. step; [by step|]. step; [by step|]. do 2 (step; [done|]). do 3 step.
  - apply owns_throw. unfold sync_handle. by rewrite E2.
  - apply owns_ret. unfold sem_holds. simpl. apply app_nil_r.
Qed.

Lemma acquire_holds fuel : triple sem_holds (acquire fuel) (fun _ => sem_holds) sem_holds.
Proof.
  induction fuel as [|fuel IH]; [by apply triple_lift|].
  apply triple_follow. intros s held ->. cbn [acquire]. do 3 step; [by step|]. step; [by step|].
  eapply triple_weaken; [apply IH|by intros ? ? [-> ->]|done|done].
Qed.

Lemma acquire_loop_holds fuel ms : triple sem_holds (acquire_loop fuel ms) (fun _ => sem_holds) sem_holds.
Proof.
  induction fuel as [|fuel IH]; [by apply triple_lift|].
  apply triple_follow. intros s held ->. cbn [acquire_loop]. do 3 step; [by step|].
  do 2 (step; [by step|]).
  eapply triple_weaken; [apply IH|by intros ? ? [-> ->]|done|done].
Qed.

Lemma try_lock_holds fuel : triple sem_holds (try_lock fuel) (fun _ => sem_holds) sem_holds.
Proof.
  induction fuel as [|fuel IH]; [by apply triple_lift|].
  apply triple_follow. intros s held ->. cbn [try_lock]. do 3 step; [by step|].
  do 2 (step; [by step|]).
  eapply triple_weaken; [apply IH|by intros ? ? [-> ->]|done|done].
Qed.

Lemma sem_op_holds o : triple sem_holds (run_sem o) (fun _ => sem_holds) sem_holds.
Proof.
  destruct o as [fuel| |fuel|fuel timeout]; simpl; apply (triple_bind _ _ _ (fun _ => sem_holds)).
  - apply acquire_holds.
  - intros []; [by apply triple_ret|by apply triple_throw].
  - apply triple_follow. intros s held ->. unfold release. by do 3 step.
  - intros []; [by apply triple_ret|by apply triple_throw].
  - apply try_lock_holds.
  - intros ?; by apply triple_ret.
  - unfold acquireWithTimeout. apply (triple_bind _ _ _ (fun _ => sem_holds)); [by apply triple_lift|].
    intros ms. apply acquire_loop_holds.
  - intros ?; by apply triple_ret.
Qed.

Lemma sem_destroy_releases :
  triple sem_holds sem_destroy (fun _ _ held => held = []) (fun _ held => held = []).
Proof.
  apply triple_follow. intros s held ->. unfold sem_destroy. step.
  destruct (handle s =? 0) eqn:Hh; simpl negb; cbv iota.
  - apply owns_ret. unfold sync_handle. by rewrite Hh.
  - rewrite sync_handle_some by done. by do 2 step.
Qed.

(** On Windows the handle of a signal is closed exactly once, by the destructor, and none when
    the event could not be made. *)
Theorem event_closed_once name ops E s r s' h :
  event_life name ops E s [] = (r, s', h) -> releases h ≡ₚ acquires E [] h.
Proof.
  apply (released_exactly _ (fun _ held => held = [])); [|done].
  apply (triple_bind _ _ _ (fun _ => event_holds)); [apply event_construct_holds|]. intros [].
  apply (triple_lifetime run_event event_destroy event_holds ops (fun _ held => held = []));
    [apply event_op_holds|apply event_destroy_releases].
Qed.

(** So is that of a semaphore, whatever the locks, unlocks and waits that fail. *)
Theorem semaphore_closed_once name n ops E s r s' h :
  sem_life name n ops E s [] = (r, s', h) -> releases h ≡ₚ acquires E [] h.
Proof.
  apply (released_exactly _ (fun _ held => held = [])); [|done].
  apply (triple_bind _ _ _ (fun _ => sem_holds)); [apply sem_construct_holds|]. intros [].
  apply (triple_lifetime run_sem sem_destroy sem_holds ops (fun _ held => held = []));
    [apply sem_op_holds|apply sem_destroy_releases].
Qed.

(** A wait that answers neither "taken" nor "failed" is repeated: [acquire] returns true after the
    first one that takes the semaphore, with a call per attempt. *)
Theorem acquire_repeats k other (E : @env win_sync) s h fuel :
  let c := WaitForSingleObject (handle s) INFINITE : synccall in
  other <> WAIT_OBJECT_0 -> other <> WAIT_FAILED ->
  (forall j, (j < k)%nat -> E (h ++ replicate j c) c = other) ->
  E (h ++ replicate k c) c = WAIT_OBJECT_0 -> (k < fuel)%nat ->
  acquire fuel E s h = (Ok true, s, h ++ replicate (S k) c).
Proof.
  intros c Ho Hf. apply Z.eqb_neq in Ho, Hf. revert h fuel.
  induction k as [|k IH]; intros h fuel Hother Hlast Hk; (destruct fuel as [|fuel]; [lia|]);
    cbn [acquire]; rewrite bind_get; erewrite bind_ok by reflexivity; fold c.
  - rewrite app_nil_r in Hlast. by rewrite Hlast.
  - specialize (Hother 0%nat ltac:(lia)) as H0. rewrite app_nil_r in H0. rewrite H0, Ho, Hf.
    rewrite (IH (h ++ [c])); [by rewrite <-app_assoc| | |lia].
    + intros j Hj. rewrite <-app_assoc. apply (Hother (S j)). lia.
    + by rewrite <-app_assoc.
Qed.

(** ** Witnesses *)

(** A system that makes what it is asked for, with a wait that is abandoned once. *)
Definition WAIT_ABANDONED : Z := 128.
Definition busy_system : @env win_sync := fun h c =>
  match c with
  | CreateEventA _ => 4
  | CreateSemaphoreA _ _ _ => 6
  | WaitForSingleObject _ _ => if (length h <? 1)%nat then WAIT_ABANDONED else WAIT_OBJECT_0
  | _ => 1
  end.

Lemma event_closed_once_witness :
  releases (history (event_life "s" [ESignal; EWait] busy_system (EventObj 0) [])) ≡ₚ [4].
Proof.
  eapply (event_closed_once "s" [ESignal; EWait] busy_system (EventObj 0) (Ok tt) (EventObj 4)).
  vm_compute. reflexivity.
Defined.

Lemma semaphore_closed_once_witness :
  releases (history (sem_life "s" 2 [SLock 3; SAcquireFor 3 (-1); SUnlock] busy_system (SemObj 0) [])) ≡ₚ [6].
Proof.
  eapply (semaphore_closed_once "s" 2 [SLock 3; SAcquireFor 3 (-1); SUnlock] busy_system (SemObj 0)
    (Ok tt) (SemObj 6)).
  vm_compute. reflexivity.
Defined.

Lemma acquire_repeats_witness :
  acquire 3 busy_system (SemObj 6) [] =
    (Ok true, SemObj 6, [] ++ replicate 2 (WaitForSingleObject 6 INFINITE : synccall)).
Proof.
  apply (acquire_repeats 1 WAIT_ABANDONED busy_system (SemObj 6) [] 3); try done; [|lia].
  intros [|j] Hj; [done|lia].
Defined.
