(* ===== verification/RingWeakWait.v ===== *)
(** * Waiting on the byte ring under release/acquire memory

    RingWeak.v lets the two threads of the ring read old values, and orders nothing through the
    wait policy.  That is enough for safety, but a thread that is woken up and reads the index
    from before would sleep for ever.  Here a signal sends the clock of its thread along, when it
    [publishes], and the wait that consumes the signal takes it over.

    Which signals publish is a parameter.  [SetEvent] does always: the functions of Windows that
    signal objects and wait for them are documented to be memory barriers.  [fpost] of Futex.h is a
    compare-exchange from 0 to 1: when it succeeds it is a release of the word; when the word is 1
    already it stores nothing, so in C++ nothing can synchronize with it.  When every signal
    publishes no wake-up is lost and the two sides do not deadlock; over the futex as C++ has it
    one is lost. *)

From S2P Require Import Prelude ByteRing RingSafety RingWeak InterprocessSignal RingWait WindowsSignal.

(** The clock that the last publishing signal of either event carries. *)
Record carried := Carried { from_producer : nat; from_consumer : nat }.

(** What the wait that consumes a signal takes over. *)
Definition learn (k : nat) (v : view) : view :=
  View (clock v) (Nat.max (seen v) k) (Nat.max (acquired v) k).

Section Ordered.
Context `{WP : WaitPolicy} (publishes : event -> wstate -> bool).

Definition ord_producer_step (k : nat) (m : memory) (wt : wstate) (v : view) (car : carried)
    (p : producer) : res (memory * wstate * view * carried * producer) :=
  '(m', wt', v', p') ← weak_producer_step ring_orders k m wt v p;
  Ok match p_pc p with
     | PWaitEnd _ _ => (m', wt', learn (from_consumer car) v', car, p')
     | PSignal _ =>
         (m', wt', v',
          if publishes DataPresent wt then Carried (clock v) (from_consumer car) else car, p')
     | _ => (m', wt', v', car, p')
     end.

Definition ord_consumer_step (k : nat) (m : memory) (wt : wstate) (v : view) (car : carried)
    (c : consumer) : res (memory * wstate * view * carried * consumer) :=
  '(m', wt', v', c') ← weak_consumer_step ring_orders k m wt v c;
  Ok match c_pc c with
     | CWaitEnd _ _ => (m', wt', learn (from_producer car) v', car, c')
     | CSignal _ =>
         (m', wt', v',
          if publishes DataFree wt then Carried (from_producer car) (clock v) else car, c')
     | _ => (m', wt', v', car, c')
     end.

Record ord_system := OSystem { weak : weak_system; car : carried }.

(** The steps inside an operation, and those that begin one. *)
Inductive inner_step : ord_system -> ord_system -> Prop :=
  | inner_producer s k m w v cr p :
      ord_producer_step k (mem (weak s)) (wt (weak s)) (p_view (weak s)) (car s) (w_pr (weak s))
        = Ok (m, w, v, cr, p) ->
      inner_step s (OSystem (WSystem m w v (c_view (weak s)) p (w_co (weak s)) (w_pushed (weak s))) cr)
  | inner_consumer s k m w v cr c :
      ord_consumer_step k (mem (weak s)) (wt (weak s)) (c_view (weak s)) (car s) (w_co (weak s))
        = Ok (m, w, v, cr, c) ->
      inner_step s (OSystem (WSystem m w (p_view (weak s)) v (w_pr (weak s)) c (w_pushed (weak s))) cr).

Inductive ord_step : ord_system -> ord_system -> Prop :=
  | ord_push s data :
      p_pc (w_pr (weak s)) = PIdle -> ord_step s (OSystem (begin_push data (weak s)) (car s))
  | ord_pop s n :
      c_pc (w_co (weak s)) = CIdle -> 0 <= n -> ord_step s (OSystem (begin_pop n (weak s)) (car s))
  | ord_inner s s' : inner_step s s' -> ord_step s s'.

Definition ord_initial (cap : Z) (buf : list Z) (w : wstate) : ord_system :=
  OSystem (weak_initial cap buf w) (Carried 0 0).
End Ordered.

(** A signal of the futex build publishes when its compare-exchange succeeds. *)
Definition futex_publishes (e : event) (w : @wstate futex_policy) : bool :=
  match e with DataPresent => negb w.1 | DataFree => negb w.2 end.

(** ** What a step does to the view, the policy and the position *)

Section Frames.
Context `{WP : WaitPolicy}.

(** The state of the policy after a step of the producer, or of the consumer. *)
Definition p_policy (pc : ppc) (w w' : wstate) : Prop :=
  match pc with
  | PWaitBegin _ _ => w' = wait_begin DataFree w
  | PWaitEnd _ _ => wait_end DataFree w = Some w'
  | PSignal _ => w' = signal DataPresent w
  | _ => w' = w
  end.
Definition c_policy (pc : cpc) (w w' : wstate) : Prop :=
  match pc with
  | CWaitBegin _ _ => w' = wait_begin DataPresent w
  | CWaitEnd _ _ => wait_end DataPresent w = Some w'
  | CSignal _ => w' = signal DataFree w
  | _ => w' = w
  end.

Lemma producer_policy sh p sh' p' :
  producer_step sh p = Ok (sh', p') -> p_policy (p_pc p) (waiter sh) (waiter sh').
Proof.
  destruct sh as [hd tl buf w], p as [o pc data]. unfold producer_step, p_goto. simpl.
  destruct pc; simpl; repeat case_match; intros; by simplify_eq.
Qed.

Lemma consumer_policy sh c sh' c' :
  consumer_step sh c = Ok (sh', c') -> c_policy (c_pc c) (waiter sh) (waiter sh').
Proof.
  destruct sh as [hd tl buf w], c as [o pc want out]. unfold consumer_step, c_goto. simpl.
  destruct pc; simpl; repeat case_match; intros; by simplify_eq.
Qed.

(** A step over weak memory is one of [producer_step] on what the thread sees. *)
Lemma weak_producer_frame k m wt v p m' wt' v' p' :
  weak_producer_step ring_orders k m wt v p = Ok (m', wt', v', p') ->
  exists sh sh', producer_step sh p = Ok (sh', p') /\ waiter sh = wt /\ wt' = waiter sh' /\
    tails m' = tails m /\
    match p_pc p with
    | PLoadTail _ _ =>
        heads m' = heads m /\
        exists msg, tails m !! k = Some msg /\ tail sh = m_val msg /\ clock v' = clock v /\
          seen v' = k /\ (seen v <= k)%nat
    | PStoreHead _ _ => (exists msg, heads m' = heads m ++ [msg]) /\ clock v' = S (clock v) /\ seen v' = seen v
    | _ => heads m' = heads m /\ v' = v
    end.
Proof.
  unfold weak_producer_step, atomic_load. destruct (p_pc p) eqn:Epc;
    try (destruct (producer_step _ _) as [[sh' p0]| | | |] eqn:Es; intros; simplify_eq/=;
         do 2 eexists; split_and!; try done; by eauto).
  - destruct (Nat.leb_spec (seen v) k); [|done].
    destruct (tails m !! k) as [msg|] eqn:Em; [|done]. simpl.
    destruct (producer_step _ _) as [[sh' p0]| | | |] eqn:Es; intros; simplify_eq/=.
    do 2 eexists. split_and!; try done. by exists msg.
  - destruct (_ && _); [done|].
    destruct (producer_step _ _) as [[sh' p0]| | | |] eqn:Es; intros; simplify_eq/=.
    do 2 eexists. by split_and!.
Qed.

Lemma weak_consumer_frame k m wt v c m' wt' v' c' :
  weak_consumer_step ring_orders k m wt v c = Ok (m', wt', v', c') ->
  exists sh sh', consumer_step sh c = Ok (sh', c') /\ waiter sh = wt /\ wt' = waiter sh' /\
    heads m' = heads m /\
    match c_pc c with
    | CLoadHead _ _ =>
        tails m' = tails m /\
        exists msg, heads m !! k = Some msg /\ head sh = m_val msg /\ clock v' = clock v /\
          seen v' = k /\ (seen v <= k)%nat
    | CStoreTail _ _ => (exists msg, tails m' = tails m ++ [msg]) /\ clock v' = S (clock v) /\ seen v' = seen v
    | _ => tails m' = tails m /\ v' = v
    end.
Proof.
  unfold weak_consumer_step, atomic_load. destruct (c_pc c) eqn:Epc;
    try (destruct (consumer_step _ _) as [[sh' c0]| | | |] eqn:Es; intros; simplify_eq/=;
         do 2 eexists; split_and!; try done; by eauto).
  - destruct (Nat.leb_spec (seen v) k); [|done].
    destruct (heads m !! k) as [msg|] eqn:Em; [|done]. simpl.
    destruct (consumer_step _ _) as [[sh' c0]| | | |] eqn:Es; intros; simplify_eq/=.
    do 2 eexists. split_and!; try done. by exists msg.
  - destruct (_ && _); [done|].
    destruct (consumer_step _ _) as [[sh' c0]| | | |] eqn:Es; intros; simplify_eq/=.
    do 2 eexists. by split_and!.
Qed.
End Frames.

(** ** The invariant *)

Section Wake.
Context `{WP : WaitPolicy, SP : !StickyPolicy} (publishes : event -> wstate -> bool).
Hypothesis always_publishes : forall e w, publishes e w = true.

(** The consumer knows all the producer's stores, or will from a signal it has not consumed, or
    from one that is about to be raised; and the same the other way round. *)
Definition c_knows (s : ord_system) : Prop :=
  let x := weak s in
  seen (c_view x) = clock (p_view x) \/
  (pending DataPresent (wt x) = true /\ from_producer (car s) = clock (p_view x)) \/
  exists n, p_pc (w_pr x) = PSignal n.
Definition p_knows (s : ord_system) : Prop :=
  let x := weak s in
  seen (p_view x) = clock (c_view x) \/
  (pending DataFree (wt x) = true /\ from_consumer (car s) = clock (c_view x)) \/
  exists n, c_pc (w_co x) = CSignal n.

(** A thread that waits has found too little in the newest value it has seen. *)
Definition c_waits (x : weak_system) : Prop :=
  match c_pc (w_co x) with
  | CWaitBegin n t | CWaitEnd n t =>
      exists msg, heads (mem x) !! seen (c_view x) = Some msg /\
        circularBufferSize (capacity (c_obj (w_co x))) (m_val msg) t < n
  | _ => True
  end.
Definition p_waits (x : weak_system) : Prop :=
  match p_pc (w_pr x) with
  | PWaitBegin n h | PWaitEnd n h =>
      exists msg, tails (mem x) !! seen (p_view x) = Some msg /\
        circularBufferFreeSpace (capacity (p_obj (w_pr x))) h (m_val msg) < n
  | _ => True
  end.

Record ord_inv (cap : Z) (s : ord_system) : Prop := OrdInv {
  oi_weak : weak_good cap (weak s);
  oi_producer : (from_producer (car s) <= clock (p_view (weak s)))%nat;
  oi_consumer : (from_consumer (car s) <= clock (c_view (weak s)))%nat;
  oi_c_knows : c_knows s;
  oi_p_knows : p_knows s;
  oi_c_waits : c_waits (weak s);
  oi_p_waits : p_waits (weak s) }.

(** Nobody has seen more than there is. *)
Lemma weak_good_bounds cap x :
  weak_good cap x -> (seen (p_view x) <= clock (c_view x))%nat /\ (seen (c_view x) <= clock (p_view x))%nat.
Proof.
  intros (hs & ts & H & T & T' & H' & [_ Hh Ht [_ (a & Ha & _)] [_ (b & Hb & _)] _ _]).
  apply lookup_lt_Some in Ha, Hb. rewrite (own_clock _ _ _ _ _ Ht) in Ha.
  rewrite (own_clock _ _ _ _ _ Hh) in Hb. lia.
Qed.

Lemma follows_learn cap xs X ms w X' v k :
  owns cap xs X ms w -> follows xs X' v -> (k <= clock w)%nat -> follows xs X' (learn k v).
Proof.
  intros [_ Hm Hl _] [Ha (x & Hx & Hle)] Hk. unfold learn. split; simpl; [by rewrite Ha|].
  destruct (lookup_lt_is_Some_2 xs (Nat.max (seen v) k)) as [y Hy].
  { apply lookup_lt_Some in Hx. lia. }
  exists y. split; [done|]. pose proof (Hm _ _ x y (Nat.le_max_l (seen v) k) Hx Hy). lia.
Qed.

(** Learning of stores that were made keeps everything RingWeak.v needs. *)
Lemma weak_good_learn_p cap m w pv cv p c pu k :
  weak_good cap (WSystem m w pv cv p c pu) -> (k <= clock cv)%nat ->
  weak_good cap (WSystem m w (learn k pv) cv p c pu).
Proof.
  intros (hs & ts & H & T & T' & H' & [Hr Hh Ht Hp Hc Hw Hd]) Hk.
  exists hs, ts, H, T, T', H'. split; try done.
  - by apply (owns_view _ _ _ _ pv).
  - simpl in *. by eapply follows_learn.
Qed.

Lemma weak_good_learn_c cap m w pv cv p c pu k :
  weak_good cap (WSystem m w pv cv p c pu) -> (k <= clock pv)%nat ->
  weak_good cap (WSystem m w pv (learn k cv) p c pu).
Proof.
  intros (hs & ts & H & T & T' & H' & [Hr Hh Ht Hp Hc Hw Hd]) Hk.
  exists hs, ts, H, T, T', H'. split; try done.
  - by apply (owns_view _ _ _ _ cv).
  - simpl in *. by eapply follows_learn.
Qed.

(** The state after a step of either side. *)
Definition after_p (s : ord_system) (m : memory) (w : wstate) (v : view) (cr : carried)
    (p : producer) : ord_system :=
  OSystem (WSystem m w v (c_view (weak s)) p (w_co (weak s)) (w_pushed (weak s))) cr.
Definition after_c (s : ord_system) (m : memory) (w : wstate) (v : view) (cr : carried)
    (c : consumer) : ord_system :=
  OSystem (WSystem m w (p_view (weak s)) v (w_pr (weak s)) c (w_pushed (weak s))) cr.

Lemma ord_producer_weak cap s k m w v cr p :
  ord_inv cap s ->
  ord_producer_step publishes k (mem (weak s)) (wt (weak s)) (p_view (weak s)) (car s) (w_pr (weak s))
    = Ok (m, w, v, cr, p) ->
  weak_good cap (weak (after_p s m w v cr p)).
Proof.
  intros [(hs & ts & H & T & T' & H' & Hi) _ Hfc _ _ _ _]. unfold ord_producer_step.
  pose proof (weak_producer_good _ _ _ _ _ _ _ _ k Hi) as Hg.
  destruct (weak_producer_step _ _ _ _ _ _) as [[[[m0 w0] v0] p0]| | | |]; try done. cbn [mbind res_bind].
  destruct (p_pc (w_pr (weak s))); intros; simplify_eq; try done. simpl.
  by apply weak_good_learn_p.
Qed.

Lemma ord_consumer_weak cap s k m w v cr c :
  ord_inv cap s ->
  ord_consumer_step publishes k (mem (weak s)) (wt (weak s)) (c_view (weak s)) (car s) (w_co (weak s))
    = Ok (m, w, v, cr, c) ->
  weak_good cap (weak (after_c s m w v cr c)).
Proof.
  intros [(hs & ts & H & T & T' & H' & Hi) Hfp _ _ _ _ _]. unfold ord_consumer_step.
  pose proof (weak_consumer_good _ _ _ _ _ _ _ _ k Hi) as Hg.
  destruct (weak_consumer_step _ _ _ _ _ _) as [[[[m0 w0] v0] c0]| | | |]; try done. cbn [mbind res_bind].
  destruct (c_pc (w_co (weak s))); intros; simplify_eq; try done. simpl.
  by apply weak_good_learn_c.
Qed.

Lemma ord_producer_frame k m wt v car p m' wt' v' car' p' :
  ord_producer_step publishes k m wt v car p = Ok (m', wt', v', car', p') ->
  exists sh sh', producer_step sh p = Ok (sh', p') /\ p_policy (p_pc p) wt wt' /\ tails m' = tails m /\
    match p_pc p with
    | PLoadTail _ _ =>
        heads m' = heads m /\ car' = car /\ clock v' = clock v /\ (seen v <= seen v')%nat /\
        exists msg, tails m !! seen v' = Some msg /\ tail sh = m_val msg
    | PStoreHead _ _ =>
        (exists msg, heads m' = heads m ++ [msg]) /\ car' = car /\ clock v' = S (clock v) /\ seen v' = seen v
    | PWaitEnd _ _ => heads m' = heads m /\ car' = car /\ v' = learn (from_consumer car) v
    | PSignal _ => heads m' = heads m /\ car' = Carried (clock v) (from_consumer car) /\ v' = v
    | _ => heads m' = heads m /\ car' = car /\ v' = v
    end.
Proof.
  unfold ord_producer_step.
  destruct (weak_producer_step _ _ _ _ _ _) as [[[[m0 w0] v0] p0]| | | |] eqn:Ew; try done.
  cbn [mbind res_bind]. destruct (weak_producer_frame _ _ _ _ _ _ _ _ _ Ew) as (sh & sh' & Hs & <- & -> & Ht & Hf).
  pose proof (producer_policy _ _ _ _ Hs) as Hp.
  destruct (p_pc p) eqn:Epc; intros; simplify_eq; exists sh, sh'; rewrite ?always_publishes;
    (split; [done|]; split; [done|]; split; [done|]); try (by destruct Hf as [? ->]).
  - destruct Hf as (? & msg & ? & ? & ? & <- & ?). split_and!; try done. by exists msg.
  - by destruct Hf as (? & ? & ?).
Qed.

Lemma ord_consumer_frame k m wt v car c m' wt' v' car' c' :
  ord_consumer_step publishes k m wt v car c = Ok (m', wt', v', car', c') ->
  exists sh sh', consumer_step sh c = Ok (sh', c') /\ c_policy (c_pc c) wt wt' /\ heads m' = heads m /\
    match c_pc c with
    | CLoadHead _ _ =>
        tails m' = tails m /\ car' = car /\ clock v' = clock v /\ (seen v <= seen v')%nat /\
        exists msg, heads m !! seen v' = Some msg /\ head sh = m_val msg
    | CStoreTail _ _ =>
        (exists msg, tails m' = tails m ++ [msg]) /\ car' = car /\ clock v' = S (clock v) /\ seen v' = seen v
    | CWaitEnd _ _ => tails m' = tails m /\ car' = car /\ v' = learn (from_producer car) v
    | CSignal _ => tails m' = tails m /\ car' = Carried (from_producer car) (clock v) /\ v' = v
    | _ => tails m' = tails m /\ car' = car /\ v' = v
    end.
Proof.
  unfold ord_consumer_step.
  destruct (weak_consumer_step _ _ _ _ _ _) as [[[[m0 w0] v0] c0]| | | |] eqn:Ew; try done.
  cbn [mbind res_bind]. destruct (weak_consumer_frame _ _ _ _ _ _ _ _ _ Ew) as (sh & sh' & Hs & <- & -> & Ht & Hf).
  pose proof (consumer_policy _ _ _ _ Hs) as Hp.
  destruct (c_pc c) eqn:Epc; intros; simplify_eq; exists sh, sh'; rewrite ?always_publishes;
    (split; [done|]; split; [done|]; split; [done|]); try (by destruct Hf as [? ->]).
  - destruct Hf as (? & msg & ? & ? & ? & <- & ?). split_and!; try done. by exists msg.
  - by destruct Hf as (? & ? & ?).
Qed.

(** Where a step leads, as far as waiting goes. *)
Lemma producer_goes sh p sh' p' :
  producer_step sh p = Ok (sh', p') -> p_obj p' = RingObj (capacity (p_obj p)) (cachedHead (p_obj p)) (cachedTail (p_obj p')) /\
  match p_pc p' with
  | PWaitBegin n h => p_pc p = PLoadTail n h /\ circularBufferFreeSpace (capacity (p_obj p)) h (tail sh) < n
  | PWaitEnd n h => p_pc p = PWaitBegin n h
  | _ => True
  end /\
  match p_pc p with PStoreHead n _ => p_pc p' = PSignal n | _ => True end.
Proof.
  destruct p as [[cap ch ct] pc data]. unfold producer_step, p_goto. simpl.
  destruct pc; simpl; repeat case_bool; repeat case_match; intros; simplify_eq/=; eauto.
Qed.

Lemma consumer_goes sh c sh' c' :
  consumer_step sh c = Ok (sh', c') -> c_obj c' = RingObj (capacity (c_obj c)) (cachedHead (c_obj c')) (cachedTail (c_obj c)) /\
  match c_pc c' with
  | CWaitBegin n t => c_pc c = CLoadHead n t /\ circularBufferSize (capacity (c_obj c)) (head sh) t < n
  | CWaitEnd n t => c_pc c = CWaitBegin n t
  | _ => True
  end /\
  match c_pc c with CStoreTail n _ => c_pc c' = CSignal n | _ => True end.
Proof.
  destruct c as [[cap ch ct] pc want out]. unfold consumer_step, c_goto. simpl.
  destruct pc; simpl; repeat case_bool; repeat case_match; intros; simplify_eq/=; eauto.
Qed.

Lemma c_knows_producer cap s k m w v cr p :
  ord_inv cap s ->
  ord_producer_step publishes k (mem (weak s)) (wt (weak s)) (p_view (weak s)) (car s) (w_pr (weak s))
    = Ok (m, w, v, cr, p) ->
  c_knows (after_p s m w v cr p).
Proof.
  intros [_ _ _ Hk _ _ _] Hs.
  destruct (ord_producer_frame _ _ _ _ _ _ _ _ _ _ _ Hs) as (sh & sh' & Hst & Hpol & _ & Hf).
  destruct (producer_goes _ _ _ _ Hst) as (_ & _ & Hgo). revert Hk. unfold c_knows, after_p. simpl.
  destruct (p_pc (w_pr (weak s))) as [| |c|c h|c h|c h|c|c h i|c h|c] eqn:Epc; simpl in Hpol; intros Hk.
  9: { right; right. eauto. }
  9: { destruct Hf as (_ & -> & ->). subst w. right; left. simpl. by rewrite pending_signal. }
  all: destruct Hk as [Hk|[[Hk Hc]|[? ?]]]; try done.
  all: destruct_and?; simplify_eq; try (by left); try (right; left; by split).
  all: try (by left; simpl; congruence).
  all: try (right; left; split; [|simpl; congruence]).
  all: try done.
  - by rewrite pending_begin.
  - by rewrite (pending_end_other DataPresent DataFree _ _ ltac:(done) Hpol).
Qed.

Lemma p_knows_producer cap s k m w v cr p :
  ord_inv cap s ->
  ord_producer_step publishes k (mem (weak s)) (wt (weak s)) (p_view (weak s)) (car s) (w_pr (weak s))
    = Ok (m, w, v, cr, p) ->
  p_knows (after_p s m w v cr p).
Proof.
  intros Hi Hs. pose proof (weak_good_bounds _ _ (ord_producer_weak _ _ _ _ _ _ _ _ Hi Hs)) as [Hb _].
  destruct Hi as [_ _ Hcar _ Hk _ _].
  destruct (ord_producer_frame _ _ _ _ _ _ _ _ _ _ _ Hs) as (sh & sh' & Hst & Hpol & _ & Hf).
  revert Hk. unfold p_knows, after_p in *. simpl in *.
  intros [Hk|[[Hk Hc]|Hk]]; [| |by right; right].
  - left. destruct (p_pc (w_pr (weak s))); simpl in Hpol; destruct_and?; subst; simpl in *; lia.
  - destruct (p_pc (w_pr (weak s))) as [| |c|c h|c h|c h|c|c h i|c h|c] eqn:Epc; simpl in Hpol;
      destruct_and?; simplify_eq; try (right; left; by split).
    + right; left. by rewrite pending_begin.
    + left. simpl in *. lia.
    + right; left. by rewrite (pending_signal_other DataFree).
Qed.

Lemma c_knows_consumer cap s k m w v cr c :
  ord_inv cap s ->
  ord_consumer_step publishes k (mem (weak s)) (wt (weak s)) (c_view (weak s)) (car s) (w_co (weak s))
    = Ok (m, w, v, cr, c) ->
  c_knows (after_c s m w v cr c).
Proof.
  intros Hi Hs. pose proof (weak_good_bounds _ _ (ord_consumer_weak _ _ _ _ _ _ _ _ Hi Hs)) as [_ Hb].
  destruct Hi as [_ Hcar _ Hk _ _ _].
  destruct (ord_consumer_frame _ _ _ _ _ _ _ _ _ _ _ Hs) as (sh & sh' & Hst & Hpol & _ & Hf).
  revert Hk. unfold c_knows, after_c in *. simpl in *.
  intros [Hk|[[Hk Hc]|Hk]]; [| |by right; right].
  - left. destruct (c_pc (w_co (weak s))); simpl in Hpol; destruct_and?; subst; simpl in *; lia.
  - destruct (c_pc (w_co (weak s))) as [| |n|n t|n t|n t|n|n t i|n t|n] eqn:Epc; simpl in Hpol;
      destruct_and?; simplify_eq; try (right; left; by split).
    + right; left. by rewrite pending_begin.
    + left. simpl in *. lia.
    + right; left. by rewrite (pending_signal_other DataPresent).
Qed.

Lemma p_knows_consumer cap s k m w v cr c :
  ord_inv cap s ->
  ord_consumer_step publishes k (mem (weak s)) (wt (weak s)) (c_view (weak s)) (car s) (w_co (weak s))
    = Ok (m, w, v, cr, c) ->
  p_knows (after_c s m w v cr c).
Proof.
  intros [_ _ _ _ Hk _ _] Hs.
  destruct (ord_consumer_frame _ _ _ _ _ _ _ _ _ _ _ Hs) as (sh & sh' & Hst & Hpol & _ & Hf).
  destruct (consumer_goes _ _ _ _ Hst) as (_ & _ & Hgo). revert Hk. unfold p_knows, after_c. simpl.
  destruct (c_pc (w_co (weak s))) as [| |n|n t|n t|n t|n|n t i|n t|n] eqn:Epc; simpl in Hpol; intros Hk.
  9: { right; right. eauto. }
  9: { destruct Hf as (_ & -> & ->). subst w. right; left. simpl. by rewrite pending_signal. }
  all: destruct Hk as [Hk|[[Hk Hc]|[? ?]]]; try done.
  all: destruct_and?; simplify_eq; try (by left); try (right; left; by split).
  all: try (by left; simpl; congruence).
  all: try (right; left; split; [|simpl; congruence]).
  all: try done.
  - by rewrite pending_begin.
  - by rewrite (pending_end_other DataFree DataPresent _ _ ltac:(done) Hpol).
Qed.

(** A thread that begins to wait has just loaded the newest value it has seen. *)
Lemma p_waits_producer s k m w v cr p :
  p_waits (weak s) ->
  ord_producer_step publishes k (mem (weak s)) (wt (weak s)) (p_view (weak s)) (car s) (w_pr (weak s))
    = Ok (m, w, v, cr, p) ->
  p_waits (weak (after_p s m w v cr p)).
Proof.
  intros Hw Hs.
  destruct (ord_producer_frame _ _ _ _ _ _ _ _ _ _ _ Hs) as (sh & sh' & Hst & _ & Htl & Hf).
  destruct (producer_goes _ _ _ _ Hst) as (Ho & Hgo & _). unfold p_waits in *. simpl.
  rewrite Ho, Htl. simpl. destruct (p_pc p) eqn:Epc; try done.
  - destruct Hgo as [E Hlt]. rewrite E in *. destruct Hf as (_ & _ & _ & _ & msg & Hm & Hv).
    exists msg. by rewrite <- Hv.
  - rewrite Hgo in *. destruct Hf as (_ & _ & ->). done.
Qed.

Lemma c_waits_consumer s k m w v cr c :
  c_waits (weak s) ->
  ord_consumer_step publishes k (mem (weak s)) (wt (weak s)) (c_view (weak s)) (car s) (w_co (weak s))
    = Ok (m, w, v, cr, c) ->
  c_waits (weak (after_c s m w v cr c)).
Proof.
  intros Hw Hs.
  destruct (ord_consumer_frame _ _ _ _ _ _ _ _ _ _ _ Hs) as (sh & sh' & Hst & _ & Htl & Hf).
  destruct (consumer_goes _ _ _ _ Hst) as (Ho & Hgo & _). unfold c_waits in *. simpl.
  rewrite Ho, Htl. simpl. destruct (c_pc c) eqn:Epc; try done.
  - destruct Hgo as [E Hlt]. rewrite E in *. destruct Hf as (_ & _ & _ & _ & msg & Hm & Hv).
    exists msg. by rewrite <- Hv.
  - rewrite Hgo in *. destruct Hf as (_ & _ & ->). done.
Qed.

(** What the other side stores does not change what a thread has seen. *)
Lemma lookup_app_left {A} (l l' : list A) i y :
  l' = l \/ (exists z, l' = l ++ [z]) -> l !! i = Some y -> l' !! i = Some y.
Proof. intros [->|[z ->]] Hy; [done|by apply lookup_app_l_Some]. Qed.

Lemma c_waits_producer s k m w v cr p :
  c_waits (weak s) ->
  ord_producer_step publishes k (mem (weak s)) (wt (weak s)) (p_view (weak s)) (car s) (w_pr (weak s))
    = Ok (m, w, v, cr, p) ->
  c_waits (weak (after_p s m w v cr p)).
Proof.
  intros Hw Hs.
  destruct (ord_producer_frame _ _ _ _ _ _ _ _ _ _ _ Hs) as (sh & sh' & _ & _ & _ & Hf).
  assert (heads m = heads (mem (weak s)) \/ exists z, heads m = heads (mem (weak s)) ++ [z]) as Hh
    by (destruct (p_pc (w_pr (weak s))); destruct_and?; eauto).
  unfold c_waits in *. simpl. destruct (c_pc (w_co (weak s))); try done;
    destruct Hw as (msg & Hm & Hlt); exists msg; (split; [|done]); by eapply lookup_app_left.
Qed.

Lemma p_waits_consumer s k m w v cr c :
  p_waits (weak s) ->
  ord_consumer_step publishes k (mem (weak s)) (wt (weak s)) (c_view (weak s)) (car s) (w_co (weak s))
    = Ok (m, w, v, cr, c) ->
  p_waits (weak (after_c s m w v cr c)).
Proof.
  intros Hw Hs.
  destruct (ord_consumer_frame _ _ _ _ _ _ _ _ _ _ _ Hs) as (sh & sh' & _ & _ & _ & Hf).
  assert (tails m = tails (mem (weak s)) \/ exists z, tails m = tails (mem (weak s)) ++ [z]) as Hh
    by (destruct (c_pc (w_co (weak s))); destruct_and?; eauto).
  unfold p_waits in *. simpl. destruct (p_pc (w_pr (weak s))); try done;
    destruct Hw as (msg & Hm & Hlt); exists msg; (split; [|done]); by eapply lookup_app_left.
Qed.

(** A signal carries no more than there is. *)
Lemma carried_producer cap s k m w v cr p :
  ord_inv cap s ->
  ord_producer_step publishes k (mem (weak s)) (wt (weak s)) (p_view (weak s)) (car s) (w_pr (weak s))
    = Ok (m, w, v, cr, p) ->
  (from_producer cr <= clock v)%nat /\ (from_consumer cr <= clock (c_view (weak s)))%nat.
Proof.
  intros [_ Hfp Hfc _ _ _ _] Hs.
  destruct (ord_producer_frame _ _ _ _ _ _ _ _ _ _ _ Hs) as (sh & sh' & _ & _ & _ & Hf).
  destruct (p_pc (w_pr (weak s))); destruct_and?; subst; simpl; lia.
Qed.

Lemma carried_consumer cap s k m w v cr c :
  ord_inv cap s ->
  ord_consumer_step publishes k (mem (weak s)) (wt (weak s)) (c_view (weak s)) (car s) (w_co (weak s))
    = Ok (m, w, v, cr, c) ->
  (from_producer cr <= clock (p_view (weak s)))%nat /\ (from_consumer cr <= clock v)%nat.
Proof.
  intros [_ Hfp Hfc _ _ _ _] Hs.
  destruct (ord_consumer_frame _ _ _ _ _ _ _ _ _ _ _ Hs) as (sh & sh' & _ & _ & _ & Hf).
  destruct (c_pc (w_co (weak s))); destruct_and?; subst; simpl; lia.
Qed.

Lemma inner_step_inv cap s s' : ord_inv cap s -> inner_step publishes s s' -> ord_inv cap s'.
Proof.
  intros Hi Hs. destruct Hs as [s k m w v cr p Hs|s k m w v cr c Hs]; pose proof Hi as [_ _ _ _ _ Hcw Hpw].
  - destruct (carried_producer _ _ _ _ _ _ _ _ Hi Hs).
    split; try done; [by eapply ord_producer_weak|by eapply c_knows_producer|by eapply p_knows_producer
      |by apply (c_waits_producer s k m w v cr p)|by apply (p_waits_producer s k m w v cr p)].
  - destruct (carried_consumer _ _ _ _ _ _ _ _ Hi Hs).
    split; try done; [by eapply ord_consumer_weak|by eapply c_knows_consumer|by eapply p_knows_consumer
      |by apply (c_waits_consumer s k m w v cr c)|by apply (p_waits_consumer s k m w v cr c)].
Qed.

Lemma ord_step_inv cap s s' : ord_inv cap s -> ord_step publishes s s' -> ord_inv cap s'.
Proof.
  intros Hi Hs. destruct Hs as [s data Hpc|s n Hpc Hn|s s' Hs]; [| |by eapply inner_step_inv].
  - destruct Hi as [Hw Hfp Hfc Hck Hpk Hcw Hpw].
    split; try done; [by eapply weak_step_good, (weak_push ring_orders)|..].
    unfold c_knows in *. simpl. destruct Hck as [?|[?|[? ?]]]; [by left|by right; left|congruence].
  - destruct Hi as [Hw Hfp Hfc Hck Hpk Hcw Hpw].
    split; try done; [by eapply weak_step_good, (weak_pop ring_orders)|..].
    unfold p_knows in *. simpl. destruct Hpk as [?|[?|[? ?]]]; [by left|by right; left|congruence].
Qed.

Lemma ord_reachable cap buf w s :
  cap_ok cap -> Z.of_nat (length buf) = cap ->
  star (ord_step publishes) (ord_initial cap buf w) s -> ord_inv cap s.
Proof.
  intros Hc Hl Hr. refine (star_invariant _ (ord_inv cap) _ _ (ord_step_inv cap) Hr _).
  split; simpl; try done; [by apply weak_initial_good|by left|by left].
Qed.

(** ** What a blocked thread tells about the ring *)

Lemma blocked_consumer_sees cap s n t hs ts H T T' H' :
  ord_inv cap s -> weak_inv cap (weak s) hs ts H T T' H' ->
  c_pc (w_co (weak s)) = CWaitEnd n t -> wait_end DataPresent (wt (weak s)) = None ->
  (forall c, p_pc (w_pr (weak s)) <> PSignal c) -> H - T < n.
Proof.
  intros [_ _ _ Hk _ Hw _] Hi Hpc Hb Hnp. apply blocked_not_pending in Hb.
  unfold c_knows in Hk. destruct Hk as [Hk|[[Hk _]|[c Hk]]]; [|congruence|by destruct (Hnp c)].
  unfold c_waits in Hw. rewrite Hpc in Hw. destruct Hw as (msg & Hm & Hlt).
  destruct Hi as [Hr Hh Ht _ _ _ _]. destruct Hh as [Hms _ _ HH].
  rewrite Hms in Hm. unfold published in Hm. rewrite Hk, list_lookup_imap, HH in Hm. simplify_eq/=.
  destruct (inv_c _ _ _ _ _ _ Hr) as (_ & _ & _ & Hco). simpl in Hco. rewrite Hpc in Hco.
  destruct Hco as [_ ->]. pose proof (inv_order _ _ _ _ _ _ Hr). pose proof (inv_cap_c _ _ _ _ _ _ Hr) as Ec.
  simpl in Ec. rewrite Ec, size_mod in Hlt by (lia || apply (inv_cap _ _ _ _ _ _ Hr)). lia.
Qed.

Lemma blocked_producer_sees cap s n h hs ts H T T' H' :
  ord_inv cap s -> weak_inv cap (weak s) hs ts H T T' H' ->
  p_pc (w_pr (weak s)) = PWaitEnd n h -> wait_end DataFree (wt (weak s)) = None ->
  (forall c, c_pc (w_co (weak s)) <> CSignal c) -> cap - 1 - (H - T) < n.
Proof.
  intros [_ _ _ _ Hk _ Hw] Hi Hpc Hb Hnp. apply blocked_not_pending in Hb.
  unfold p_knows in Hk. destruct Hk as [Hk|[[Hk _]|[c Hk]]]; [|congruence|by destruct (Hnp c)].
  unfold p_waits in Hw. rewrite Hpc in Hw. destruct Hw as (msg & Hm & Hlt).
  destruct Hi as [Hr Hh Ht _ _ _ _]. destruct Ht as [Hms _ _ HT].
  rewrite Hms in Hm. unfold published in Hm. rewrite Hk, list_lookup_imap, HT in Hm. simplify_eq/=.
  destruct (inv_p _ _ _ _ _ _ Hr) as (_ & _ & Hp). simpl in Hp. rewrite Hpc in Hp.
  destruct Hp as [_ ->]. pose proof (inv_order _ _ _ _ _ _ Hr). pose proof (inv_cap_p _ _ _ _ _ _ Hr) as Ec.
  simpl in Ec. rewrite Ec, free_mod in Hlt by (lia || apply (inv_cap _ _ _ _ _ _ Hr)). lia.
Qed.

Lemma consumer_blocked_wait k m wt v car c n t :
  c_pc c = CWaitEnd n t ->
  ord_consumer_step publishes k m wt v car c = Block <-> wait_end DataPresent wt = None.
Proof.
  intros E. unfold ord_consumer_step, weak_consumer_step, consumer_step. rewrite E. simpl.
  by destruct (wait_end DataPresent wt).
Qed.

Lemma producer_blocked_wait k m wt v car p n h :
  p_pc p = PWaitEnd n h ->
  ord_producer_step publishes k m wt v car p = Block <-> wait_end DataFree wt = None.
Proof.
  intros E. unfold ord_producer_step, weak_producer_step, producer_step. rewrite E. simpl.
  by destruct (wait_end DataFree wt).
Qed.

(** C3. No lost wake-up, under release/acquire memory and over signals that are remembered and
    order what was done before them: in every reachable state, a side that cannot go on inside its
    wait is right to wait, unless the other side is just about to signal: there are fewer than [n]
    bytes in the ring for the consumer, there is room for fewer than [n] for the producer.  This is
    about the newest value of both indices, which the waiting thread may not have read yet. *)
Theorem ordered_no_lost_wakeup cap buf w s k :
  cap_ok cap -> Z.of_nat (length buf) = cap ->
  star (ord_step publishes) (ord_initial cap buf w) s ->
  let x := weak s in
  (forall n t, c_pc (w_co x) = CWaitEnd n t ->
     ord_consumer_step publishes k (mem x) (wt x) (c_view x) (car s) (w_co x) = Block ->
     (forall c, p_pc (w_pr x) <> PSignal c) ->
     size (c_obj (w_co x)) (sh (newest x)) < n) /\
  (forall n h, p_pc (w_pr x) = PWaitEnd n h ->
     ord_producer_step publishes k (mem x) (wt x) (p_view x) (car s) (w_pr x) = Block ->
     (forall c, c_pc (w_co x) <> CSignal c) ->
     freeSpace (p_obj (w_pr x)) (sh (newest x)) < n).
Proof.
  intros Hc Hl Hr x. pose proof (ord_reachable _ _ _ _ Hc Hl Hr) as Hi.
  destruct (oi_weak _ _ Hi) as (hs & ts & H & T & T' & H' & Hw). pose proof (wk_ring _ _ _ _ _ _ _ _ Hw) as Hg.
  split; intros n i Hpc Hb Hno.
  - assert (size (c_obj (w_co x)) (sh (newest x)) = H - T) as ->
      by exact (inv_size _ _ _ _ _ _ _ Hg (inv_cap_c _ _ _ _ _ _ Hg)).
    apply (consumer_blocked_wait k _ _ _ _ _ _ _ Hpc) in Hb.
    exact (blocked_consumer_sees _ _ _ _ _ _ _ _ _ _ Hi Hw Hpc Hb Hno).
  - assert (freeSpace (p_obj (w_pr x)) (sh (newest x)) = cap - 1 - (H - T)) as ->
      by exact (inv_free _ _ _ _ _ _ _ Hg (inv_cap_p _ _ _ _ _ _ Hg)).
    apply (producer_blocked_wait k _ _ _ _ _ _ _ Hpc) in Hb.
    exact (blocked_producer_sees _ _ _ _ _ _ _ _ _ _ Hi Hw Hpc Hb Hno).
Qed.

(** C4. The two sides are never blocked on each other, under the same conditions, when the chunk
    being pushed and the chunk being popped together do not exceed the capacity. *)
Theorem ordered_no_deadlock cap buf w s k j c h n t :
  cap_ok cap -> Z.of_nat (length buf) = cap ->
  star (ord_step publishes) (ord_initial cap buf w) s ->
  let x := weak s in
  p_pc (w_pr x) = PWaitEnd c h -> c_pc (w_co x) = CWaitEnd n t -> c + n <= cap ->
  returns (ord_producer_step publishes k (mem x) (wt x) (p_view x) (car s) (w_pr x)) \/
  returns (ord_consumer_step publishes j (mem x) (wt x) (c_view x) (car s) (w_co x)).
Proof.
  intros Hc Hl Hr x Hp Hco Hle. pose proof (ord_reachable _ _ _ _ Hc Hl Hr) as Hi.
  destruct (oi_weak _ _ Hi) as (hs & ts & H & T & T' & H' & Hw). unfold returns.
  destruct (wait_end DataFree (wt x)) as [w'|] eqn:Ef.
  { left. unfold ord_producer_step, weak_producer_step, producer_step. rewrite Hp. simpl. rewrite Ef. by eexists. }
  destruct (wait_end DataPresent (wt x)) as [w'|] eqn:Ep.
  { right. unfold ord_consumer_step, weak_consumer_step, consumer_step. rewrite Hco. simpl. rewrite Ep. by eexists. }
  pose proof (blocked_consumer_sees _ _ _ _ _ _ _ _ _ _ Hi Hw Hco Ep ltac:(subst x; congruence)).
  pose proof (blocked_producer_sees _ _ _ _ _ _ _ _ _ _ Hi Hw Hp Ef ltac:(subst x; congruence)). lia.
Qed.
End Wake.

(** ** Schedules *)

Definition ord_act `{WP : WaitPolicy} (publishes : event -> wstate -> bool) (a : weak_action)
    (s : ord_system) : res ord_system :=
  let x := weak s in
  match a with
  | WPush data =>
      match p_pc (w_pr x) with PIdle => Ok (OSystem (begin_push data x) (car s)) | _ => Block end
  | WPop n =>
      match c_pc (w_co x) with
      | CIdle => if 0 <=? n then Ok (OSystem (begin_pop n x) (car s)) else Block
      | _ => Block
      end
  | WProducer k =>
      '(m, w, v, cr, p) ← ord_producer_step publishes k (mem x) (wt x) (p_view x) (car s) (w_pr x);
      Ok (OSystem (WSystem m w v (c_view x) p (w_co x) (w_pushed x)) cr)
  | WConsumer k =>
      '(m, w, v, cr, c) ← ord_consumer_step publishes k (mem x) (wt x) (c_view x) (car s) (w_co x);
      Ok (OSystem (WSystem m w (p_view x) v (w_pr x) c (w_pushed x)) cr)
  end.

Fixpoint ord_exec `{WP : WaitPolicy} (publishes : event -> wstate -> bool) (acts : list weak_action)
    (s : ord_system) : res ord_system :=
  match acts with
  | [] => Ok s
  | a :: acts' => s' ← ord_act publishes a s; ord_exec publishes acts' s'
  end.

Lemma ord_exec_star `{WP : WaitPolicy} publishes acts s s' :
  ord_exec publishes acts s = Ok s' -> star (ord_step publishes) s s'.
Proof.
  revert s. induction acts as [|a acts IH]; intros s; simpl; [intros [= ->]; constructor|].
  destruct (ord_act publishes a s) as [s1| | | |] eqn:E; simpl; try done. intros Hx.
  apply star_step with s1; [|by apply IH]. clear IH Hx. destruct a as [data|n|k|k]; simpl in E.
  - destruct (p_pc (w_pr (weak s))) eqn:Ep; simplify_eq. by constructor.
  - destruct (c_pc (w_co (weak s))) eqn:Ep; simplify_eq.
    destruct (Z.leb_spec 0 n); simplify_eq. by constructor.
  - destruct (ord_producer_step _ _ _ _ _ _ _) as [[[[[m w] v] cr] p]| | | |] eqn:Ep; simplify_eq/=.
    by eapply ord_inner, inner_producer.
  - destruct (ord_consumer_step _ _ _ _ _ _ _) as [[[[[m w] v] cr] c]| | | |] eqn:Ep; simplify_eq/=.
    by eapply ord_inner, inner_consumer.
Qed.

(** Nothing happens any more inside the operations. *)
Lemma ord_stuck `{WP : WaitPolicy} publishes s n t :
  p_pc (w_pr (weak s)) = PIdle -> c_pc (w_co (weak s)) = CWaitEnd n t ->
  wait_end DataPresent (wt (weak s)) = None -> forall s', ~ inner_step publishes s s'.
Proof.
  intros Hp Hc Hw s' Hs. destruct Hs as [s k m w v cr p Hst|s k m w v cr c Hst]; revert Hst.
  - unfold ord_producer_step, weak_producer_step, producer_step. by rewrite Hp.
  - unfold ord_consumer_step, weak_consumer_step, consumer_step. rewrite Hc. simpl. by rewrite Hw.
Qed.

(** Capacity 4.  The consumer wants two bytes, finds none and waits.  The producer pushes one byte
    and, in a second call, another.  The consumer wakes up and reads the [head] of the first. *)
Definition stale_acts : list weak_action :=
  [WPop 2] ++ replicate 4 (WConsumer 0) ++ [WPush [10]] ++ replicate 8 (WProducer 0) ++
  [WPush [11]] ++ replicate 8 (WProducer 0) ++ [WConsumer 0; WConsumer 1; WConsumer 1].

Section Stale.
#[local] Existing Instance futex_policy.

Definition stale_start : ord_system := ord_initial 4 [0; 0; 0; 0] (false, false).
Definition stale (publishes : event -> wstate -> bool) (n : nat) : ord_system :=
  match ord_exec publishes (take n stale_acts) stale_start with Ok s => s | _ => stale_start end.

(** As C++ has it, the futex build can lose a wake-up: the [fpost] of the second push finds the
    word set, stores nothing and so publishes nothing; the consumer it would have woken consumes
    the first signal, reads the older [head] and waits for good for bytes that are in the ring.
    Had that [fpost] published, the consumer could not have read the older [head]. *)
Theorem futex_lost_wakeup_weak :
  exists s, star (ord_step futex_publishes) stale_start s /\
    let x := weak s in
    p_pc (w_pr x) = PIdle /\ w_pushed x = [10; 11] /\ c_pc (w_co x) = CWaitEnd 2 0 /\
    size (c_obj (w_co x)) (sh (newest x)) = 2 /\ (forall s', ~ inner_step futex_publishes s s') /\
    ord_exec (fun _ _ => true) stale_acts stale_start = Block.
Proof.
  exists (stale futex_publishes 26). split; [by apply (ord_exec_star _ stale_acts); vm_compute|].
  intros x.
  assert (p_pc (w_pr x) = PIdle /\ c_pc (w_co x) = CWaitEnd 2 0 /\ wt x = (false, false)) as (Hp & Hc & Hw)
    by (vm_compute; split_and!; reflexivity).
  split; [done|]. split; [vm_compute; reflexivity|]. split; [done|]. split; [vm_compute; reflexivity|].
  split; [apply (ord_stuck _ _ 2 0 Hp Hc); fold x; by rewrite Hw|vm_compute; reflexivity].
Qed.
End Stale.

(** ** Witnesses, over the events of Windows *)

#[local] Existing Instance event_policy.

Definition ord_start : ord_system := ord_initial 4 [0; 0; 0; 0] (Events false false).
Definition sets_event (e : event) (w : @wstate event_policy) : bool := true.
Definition ord_state (acts : list weak_action) : ord_system :=
  match ord_exec sets_event acts ord_start with Ok s => s | _ => ord_start end.

(** The consumer has been woken by a first byte and has found that it is not enough. *)
Definition short_acts : list weak_action :=
  [WPop 2] ++ replicate 4 (WConsumer 0) ++ [WPush [10]] ++ replicate 8 (WProducer 0) ++
  replicate 3 (WConsumer 1).

Lemma ordered_no_lost_wakeup_witness :
  let x := weak (ord_state short_acts) in
  c_pc (w_co x) = CWaitEnd 2 0 /\ size (c_obj (w_co x)) (sh (newest x)) < 2.
Proof.
  split; [vm_compute; reflexivity|].
  apply (ordered_no_lost_wakeup (WP := event_policy) sets_event (fun _ _ => eq_refl) 4 [0; 0; 0; 0]
    (Events false false) (ord_state short_acts) 1) with (t := 0);
    [unfold cap_ok; lia|reflexivity| |vm_compute; reflexivity|vm_compute; reflexivity|].
  - apply (ord_exec_star sets_event short_acts). vm_compute. reflexivity.
  - intros c H. vm_compute in H. discriminate H.
Defined.

(** Both sides are inside their wait, with chunks of two; a signal is pending. *)
Definition both_wait_acts : list weak_action :=
  [WPop 2] ++ replicate 4 (WConsumer 0) ++ [WPush [5; 6]] ++ replicate 9 (WProducer 0) ++
  [WPush [7; 8]] ++ replicate 4 (WProducer 0).

Lemma ordered_no_deadlock_witness :
  let s := ord_state both_wait_acts in
  let x := weak s in
  returns (ord_producer_step sets_event 0 (mem x) (wt x) (p_view x) (car s) (w_pr x)) \/
  returns (ord_consumer_step sets_event 0 (mem x) (wt x) (c_view x) (car s) (w_co x)).
Proof.
  apply (ordered_no_deadlock (WP := event_policy) sets_event (fun _ _ => eq_refl) 4 [0; 0; 0; 0]
    (Events false false) (ord_state both_wait_acts) 0 0 2 2 2 0);
    [unfold cap_ok; lia|reflexivity| |vm_compute; reflexivity|vm_compute; reflexivity|lia].
  apply (ord_exec_star sets_event both_wait_acts). vm_compute. reflexivity.
Defined.
