(* ===== verification/RingExchange.v ===== *)
(** * One message through the byte ring: the exchange comes to an end

    RingWeakWait.v shows that no wake-up is lost when signals are remembered and order what was
    done before them.  Here one side pushes a message and the other pops as many bytes, through a
    ring of any size, in any interleaving and with loads that read any value they may.  If a signal
    is moreover consumed by the one wait it ends, every run is finite, with a bound on the number
    of steps that is linear in the length of the message, and a run that cannot go on has delivered
    the message: both calls have returned.

    The two operations go through the same phases; the argument for termination is made once, about
    [moves], and the two sides are shown to follow it. *)

From S2P Require Import Prelude ByteRing RingSafety RingWeak InterprocessSignal RingWait WindowsSignal RingWeakWait.

(** A signal is consumed by the wait that it ends, and is nothing to the other event. *)
Class OneShotPolicy `{SP : StickyPolicy} : Prop := {
  end_consumes e w w' : wait_end e w = Some w' -> pending e w = true /\ pending e w' = false;
  signal_other e e' w : e <> e' -> pending e (signal e' w) = pending e w }.

#[export] Instance futex_one_shot : OneShotPolicy (SP := futex_sticky).
Proof.
  split.
  - intros [] [[] []] w'; simpl; intros; by simplify_eq.
  - by intros [] [].
Qed.

#[export] Instance event_one_shot : OneShotPolicy (SP := event_sticky).
Proof.
  split.
  - intros e w w'. simpl. destruct (is_set e w) eqn:E; [|done]. intros [= <-]. by destruct e.
  - by intros [] [].
Qed.

(** ** The phases of an operation *)

(** [push] and [pop], with the chunk they are about. *)
Inductive phase :=
  | Idle | Loop
  | Test (c : Z) | Load (c : Z) | WaitBegin (c : Z) | WaitEnd (c : Z)
  | Ready (c : Z) | Copy (c w : Z) | Store (c : Z) | Signalling (c : Z).

Definition p_phase (pc : ppc) : phase :=
  match pc with
  | PIdle => Idle | PLoop => Loop
  | PWaitFreeSpace c => Test c | PLoadTail c _ => Load c
  | PWaitBegin c _ => WaitBegin c | PWaitEnd c _ => WaitEnd c
  | PLoadHead c => Ready c | PCopy c _ w => Copy c w
  | PStoreHead c _ => Store c | PSignal c => Signalling c
  end.

Definition c_phase (pc : cpc) : phase :=
  match pc with
  | CIdle => Idle | CLoop => Loop
  | CWaitElemPresent c => Test c | CLoadHead c _ => Load c
  | CWaitBegin c _ => WaitBegin c | CWaitEnd c _ => WaitEnd c
  | CLoadTail c => Ready c | CCopy c _ w => Copy c w
  | CStoreTail c _ => Store c | CSignal c => Signalling c
  end.

(** The moves of an operation that has [L] bytes to go. *)
Inductive moves (cap L : Z) : phase -> phase -> Z -> Prop :=
  | moves_done : L = 0 -> moves cap L Loop Idle L
  | moves_chunk : L <> 0 -> moves cap L Loop (Test (chunkSize cap L)) L
  | moves_test c : moves cap L (Test c) (Load c) L
  | moves_ready c : moves cap L (Test c) (Ready c) L
  | moves_wait c : moves cap L (Load c) (WaitBegin c) L
  | moves_loaded c : moves cap L (Load c) (Ready c) L
  | moves_begin c : moves cap L (WaitBegin c) (WaitEnd c) L
  | moves_end c : moves cap L (WaitEnd c) (Load c) L
  | moves_copy c : moves cap L (Ready c) (Copy c 0) L
  | moves_byte c w : w < c -> moves cap L (Copy c w) (Copy c (w + 1)) L
  | moves_store c w : c <= w -> moves cap L (Copy c w) (Store c) L
  | moves_signal c : moves cap L (Store c) (Signalling c) L
  | moves_next c : moves cap L (Signalling c) Loop (L - c).

Definition chunk_of (ph : phase) : option Z :=
  match ph with
  | Idle | Loop => None
  | Test c | Load c | WaitBegin c | WaitEnd c | Ready c | Copy c _ | Store c | Signalling c => Some c
  end.

(** Of the [n] bytes of the operation, [L] are left: those done are whole chunks of [cap - 1] bytes,
    but for the last. *)
Definition sized (cap n L : Z) (ph : phase) : Prop :=
  0 <= L <= n /\ (L = 0 \/ exists q, n - L = q * (cap - 1)) /\
  match chunk_of ph with Some c => 0 < L /\ c = Z.min L (cap - 1) | None => True end.

(** What is left to do, in steps; a signal that may still be consumed counts 3. *)
Definition op_cost (L : Z) : Z := 1 + 13 * L.
Definition weight (ph : phase) (L : Z) : Z :=
  match ph with
  | Idle => 0
  | Loop => op_cost L
  | Test c => op_cost (L - c) + 11 + c
  | Load c => op_cost (L - c) + 10 + c
  | WaitBegin c => op_cost (L - c) + 9 + c
  | WaitEnd c => op_cost (L - c) + 8 + c
  | Ready c => op_cost (L - c) + 7 + c
  | Copy c w => op_cost (L - c) + 6 + Z.max 0 (c - w)
  | Store c => op_cost (L - c) + 5
  | Signalling c => op_cost (L - c) + 4
  end.

(** By how much a step from a phase may change what the signals count. *)
Definition signal_change (ph : phase) : Z :=
  match ph with WaitEnd _ => -3 | Signalling _ => 3 | _ => 0 end.

Lemma chunk_min cap L : cap_ok cap -> chunkSize cap L = Z.min L (cap - 1).
Proof. unfold cap_ok, chunkSize. intros. rewrite !wrap_u64_small by lia. case_bool; lia. Qed.

Lemma moves_sized cap n L ph ph' L' :
  cap_ok cap -> sized cap n L ph -> moves cap L ph ph' L' -> sized cap n L' ph'.
Proof.
  intros Hc (H0 & Ha & Hch) Hm. unfold cap_ok in Hc.
  destruct Hm; unfold sized in *; simpl in *; try (by split_and!); try tauto.
  - rewrite chunk_min by done. split_and!; try done; lia.
  - destruct Hch as [Hl ->]. split; [lia|]. split; [|done].
    destruct (Z.min_spec L (cap - 1)) as [[? ->]|[? ->]]; [left; lia|right].
    destruct Ha as [?|[q Hq]]; [lia|]. exists (q + 1). lia.
Qed.

Lemma moves_weight cap n L ph ph' L' :
  cap_ok cap -> sized cap n L ph -> moves cap L ph ph' L' ->
  weight ph' L' + signal_change ph < weight ph L.
Proof.
  intros Hc (H0 & _ & Hch) Hm. unfold cap_ok in Hc.
  destruct Hm; simpl in *; unfold op_cost in *; try lia.
  rewrite chunk_min by done. lia.
Qed.

Lemma weight_nonneg cap n L ph : cap_ok cap -> sized cap n L ph -> 0 <= weight ph L.
Proof. unfold cap_ok. intros Hc (H0 & _ & Hch). destruct ph; simpl in *; unfold op_cost; lia. Qed.

(** ** The two operations go through the phases *)

Section Phases.
Context `{WP : WaitPolicy}.

Lemma producer_moves cap n sh p sh' p' :
  cap_ok cap -> capacity (p_obj p) = cap -> sized cap n (Z.of_nat (length (p_data p))) (p_phase (p_pc p)) ->
  producer_step sh p = Ok (sh', p') ->
  moves cap (Z.of_nat (length (p_data p))) (p_phase (p_pc p)) (p_phase (p_pc p'))
    (Z.of_nat (length (p_data p'))).
Proof.
  destruct p as [o pc data]. unfold cap_ok, sized, producer_step, p_goto. simpl.
  intros Hcap <- (_ & _ & Hch).
  destruct pc; simpl in *; repeat case_bool; repeat case_match; intros; simplify_eq/=;
    try (constructor; lia).
  rewrite length_drop. replace (Z.of_nat (length data - Z.to_nat chunk)) with (Z.of_nat (length data) - chunk) by lia.
  constructor.
Qed.

Lemma consumer_moves sh c sh' c' :
  consumer_step sh c = Ok (sh', c') ->
  moves (capacity (c_obj c)) (c_want c) (c_phase (c_pc c)) (c_phase (c_pc c')) (c_want c').
Proof.
  destruct c as [o pc want out]. unfold consumer_step, c_goto. simpl.
  destruct pc; simpl in *; repeat case_bool; repeat case_match; intros; simplify_eq/=;
    constructor; lia.
Qed.

Context `{SP : !StickyPolicy, OS : !OneShotPolicy}.

(** The signals that may still be consumed. *)
Definition signals (w : wstate) : Z :=
  3 * (Z.b2z (pending DataPresent w) + Z.b2z (pending DataFree w)).

Lemma signals_nonneg w : 0 <= signals w <= 6.
Proof. unfold signals. destruct (pending DataPresent w), (pending DataFree w); simpl; lia. Qed.

Lemma p_signals pc w w' : p_policy pc w w' -> signals w' <= signals w + signal_change (p_phase pc).
Proof.
  unfold signals. destruct pc; simpl; try (intros ->; lia).
  - intros ->. rewrite !pending_begin. lia.
  - intros Hw. rewrite (pending_end_other DataPresent DataFree _ _ ltac:(done) Hw).
    destruct (end_consumes _ _ _ Hw) as [-> ->]. simpl. lia.
  - intros ->. rewrite (signal_other DataFree DataPresent) by done.
    destruct (pending DataPresent w), (pending DataPresent (signal DataPresent w)); simpl; lia.
Qed.

Lemma c_signals pc w w' : c_policy pc w w' -> signals w' <= signals w + signal_change (c_phase pc).
Proof.
  unfold signals. destruct pc; simpl; try (intros ->; lia).
  - intros ->. rewrite !pending_begin. lia.
  - intros Hw. rewrite (pending_end_other DataFree DataPresent _ _ ltac:(done) Hw).
    destruct (end_consumes _ _ _ Hw) as [-> ->]. simpl. lia.
  - intros ->. rewrite (signal_other DataPresent DataFree) by done.
    destruct (pending DataFree w), (pending DataFree (signal DataFree w)); simpl; lia.
Qed.

(** ** The invariant of two operations of [n] bytes *)

Context (publishes : event -> wstate -> bool).
Hypothesis always_publishes : forall e w, publishes e w = true.

Definition to_push (s : ord_system) : Z := Z.of_nat (length (p_data (w_pr (weak s)))).
Definition to_pop (s : ord_system) : Z := c_want (w_co (weak s)).
Definition p_at (s : ord_system) : phase := p_phase (p_pc (w_pr (weak s))).
Definition c_at (s : ord_system) : phase := c_phase (c_pc (w_co (weak s))).

Record sides_inv (cap n : Z) (s : ord_system) : Prop := SidesInv {
  si_ring : ord_inv cap s;
  si_p : sized cap n (to_push s) (p_at s);
  si_c : sized cap n (to_pop s) (c_at s) }.

(** The steps that are left, at most. *)
Definition left_to_do (s : ord_system) : Z :=
  weight (p_at s) (to_push s) + weight (c_at s) (to_pop s) + signals (wt (weak s)).

Lemma left_nonneg cap n s : cap_ok cap -> sides_inv cap n s -> 0 <= left_to_do s.
Proof.
  intros Hc [_ Hp Hco]. pose proof (weight_nonneg _ _ _ _ Hc Hp). pose proof (weight_nonneg _ _ _ _ Hc Hco).
  pose proof (signals_nonneg (wt (weak s))). unfold left_to_do. lia.
Qed.

Lemma sides_caps cap n s :
  sides_inv cap n s ->
  cap_ok cap /\ capacity (p_obj (w_pr (weak s))) = cap /\ capacity (c_obj (w_co (weak s))) = cap.
Proof.
  intros [[(hs & ts & H & T & T' & H' & Hw) _ _ _ _ _ _] _ _].
  destruct Hw as [Hr _ _ _ _ _ _]. destruct Hr. by split_and!.
Qed.

(** A step inside an operation brings its end nearer, begins none, and leaves alone what the callers
    count on. *)
Lemma sides_step cap n s s' :
  sides_inv cap n s -> inner_step publishes s s' ->
  sides_inv cap n s' /\ left_to_do s' < left_to_do s /\
  w_pushed (weak s') = w_pushed (weak s) /\
  ring_due (w_co (weak s')) = ring_due (w_co (weak s)) /\
  (c_pc (w_co (weak s)) = CIdle -> c_pc (w_co (weak s')) = CIdle).
Proof.
  intros Hx Hs. destruct (sides_caps _ _ _ Hx) as (Hcap & Hcp & Hcc).
  destruct Hx as [Hi Hp Hc]. pose proof (inner_step_inv publishes always_publishes cap s s' Hi Hs) as Hi'.
  destruct (weak_good_out _ _ (oi_weak _ _ Hi)) as (Hcopy & _). unfold left_to_do.
  destruct Hs as [s k m w v cr p Hs|s k m w v cr c Hs].
  - destruct (ord_producer_frame publishes always_publishes _ _ _ _ _ _ _ _ _ _ _ Hs)
      as (sh & sh' & Hst & Hpol & _).
    pose proof (producer_moves _ _ _ _ _ _ Hcap Hcp Hp Hst) as Hm.
    pose proof (moves_weight _ _ _ _ _ _ Hcap Hp Hm). pose proof (p_signals _ _ _ Hpol).
    split; [|split; [unfold p_at, c_at, to_push, to_pop in *; simpl in *; lia|done]].
    split; try done. exact (moves_sized _ _ _ _ _ _ Hcap Hp Hm).
  - destruct (ord_consumer_frame publishes always_publishes _ _ _ _ _ _ _ _ _ _ _ Hs)
      as (sh & sh' & Hst & Hpol & _).
    pose proof (consumer_moves _ _ _ _ Hst) as Hm. rewrite Hcc in Hm.
    pose proof (moves_weight _ _ _ _ _ _ Hcap Hc Hm). pose proof (c_signals _ _ _ Hpol).
    destruct (ring_keeps_due _ _ _ _ Hcopy Hst) as [Hni Hd].
    split; [|split; [unfold p_at, c_at, to_push, to_pop in *; simpl in *; lia|done]].
    split; try done. exact (moves_sized _ _ _ _ _ _ Hcap Hc Hm).
Qed.

Lemma sides_run cap n s m s' :
  sides_inv cap n s -> nsteps (inner_step publishes) m s s' ->
  sides_inv cap n s' /\ Z.of_nat m + left_to_do s' <= left_to_do s /\
  w_pushed (weak s') = w_pushed (weak s) /\ ring_due (w_co (weak s')) = ring_due (w_co (weak s)).
Proof.
  intros Hx Hm. induction Hm as [s|m s s1 s' Hs Hm IH]; [split_and!; try done; lia|].
  destruct (sides_step _ _ _ _ Hx Hs) as (Hx1 & Hlt & <- & <- & _).
  destruct (IH Hx1) as (? & ? & ? & ?). split_and!; try done; lia.
Qed.

(** ** When nothing moves *)

(** A side that cannot go on is outside its operation or blocked in its wait. *)
Lemma producer_stuck cap s :
  ord_inv cap s -> (forall s', ~ inner_step publishes s s') ->
  p_pc (w_pr (weak s)) = PIdle \/
  exists c h, p_pc (w_pr (weak s)) = PWaitEnd c h /\ wait_end DataFree (wt (weak s)) = None.
Proof.
  intros Hi Hno. destruct (oi_weak _ _ Hi) as (hs & ts & H & T & T' & H' & Hw).
  pose proof (producer_step_good _ _ _ _ _ _ (wk_ring _ _ _ _ _ _ _ _ Hw)) as Hg. simpl in Hg.
  destruct (producer_step _ _) as [[sh' p']| | | |] eqn:Es; try done.
  - exfalso. destruct (producer_step_newest _ _ _ _ _ _ _ _ _ _ Hw Es) as (k & m & v & Hs & _).
    destruct (ord_producer_step publishes k (mem (weak s)) (wt (weak s)) (p_view (weak s)) (car s)
      (w_pr (weak s))) as [[[[[m1 w1] v1] cr1] p1]| | | |] eqn:Eo;
      [by eapply Hno, inner_producer|..]; unfold ord_producer_step in Eo; rewrite Hs in Eo; done.
  - revert Es. unfold producer_step.
    destruct (p_pc (w_pr (weak s))); simpl; repeat case_bool; repeat case_match; eauto; done.
Qed.

Lemma consumer_stuck cap s :
  ord_inv cap s -> (forall s', ~ inner_step publishes s s') ->
  c_pc (w_co (weak s)) = CIdle \/
  exists n t, c_pc (w_co (weak s)) = CWaitEnd n t /\ wait_end DataPresent (wt (weak s)) = None.
Proof.
  intros Hi Hno. destruct (oi_weak _ _ Hi) as (hs & ts & H & T & T' & H' & Hw).
  pose proof (consumer_step_good _ _ _ _ _ _ (wk_ring _ _ _ _ _ _ _ _ Hw)) as Hg. simpl in Hg.
  destruct (consumer_step _ _) as [[sh' c']| | | |] eqn:Es; try done.
  - exfalso. destruct (consumer_step_newest _ _ _ _ _ _ _ _ _ _ Hw Es) as (k & m & v & Hs & _).
    destruct (ord_consumer_step publishes k (mem (weak s)) (wt (weak s)) (c_view (weak s)) (car s)
      (w_co (weak s))) as [[[[[m1 w1] v1] cr1] c1]| | | |] eqn:Eo;
      [by eapply Hno, inner_consumer|..]; unfold ord_consumer_step in Eo; rewrite Hs in Eo; done.
  - revert Es. unfold consumer_step.
    destruct (c_pc (w_co (weak s))); simpl; repeat case_bool; repeat case_match; eauto; done.
Qed.

(** How far the two sides are, when both are outside their operation or inside their wait. *)
Lemma sides_counters cap s hs ts H T T' H' :
  weak_inv cap (weak s) hs ts H T T' H' ->
  (p_pc (w_pr (weak s)) = PIdle \/ exists c h, p_pc (w_pr (weak s)) = PWaitEnd c h) ->
  (c_pc (w_co (weak s)) = CIdle \/ exists c t, c_pc (w_co (weak s)) = CWaitEnd c t) ->
  T <= H /\ H = Z.of_nat (length (w_pushed (weak s))) - to_push s /\
  T = ring_due (w_co (weak s)) - to_pop s.
Proof.
  intros [Hr _ _ _ _ _ _] Hp Hc. pose proof (inv_order _ _ _ _ _ _ Hr) as Ho.
  destruct (inv_p _ _ _ _ _ _ Hr) as (_ & Hdata & _). destruct (inv_c _ _ _ _ _ _ Hr) as (_ & _ & Hout & _).
  unfold to_push, to_pop, ring_due in *. simpl in *. rewrite Hdata, Hout, length_take, length_drop.
  destruct Hp as [E|(? & ? & E)]; rewrite E; destruct Hc as [E'|(? & ? & E')]; rewrite E'; simpl in *; lia.
Qed.

(** The bytes in the ring, when both sides are there. *)
Definition there (s : ord_system) : Z :=
  Z.of_nat (length (w_pushed (weak s))) - to_push s - (ring_due (w_co (weak s)) - to_pop s).

(** When nothing moves, each side is outside its operation, with nothing left of it, or it waits
    with good reason. *)
Lemma sides_stuck cap n s :
  sides_inv cap n s -> (forall s', ~ inner_step publishes s s') ->
  0 <= there s /\
  (p_pc (w_pr (weak s)) = PIdle /\ to_push s = 0 \/
   0 < to_push s /\ cap - 1 - there s < Z.min (to_push s) (cap - 1)) /\
  (c_pc (w_co (weak s)) = CIdle /\ to_pop s = 0 \/
   0 < to_pop s /\ there s < Z.min (to_pop s) (cap - 1)).
Proof.
  intros Hx Hno. pose proof (si_ring _ _ _ Hx) as Hi.
  destruct (oi_weak _ _ Hi) as (hs & ts & H & T & T' & H' & Hw).
  destruct (weak_good_out _ _ (oi_weak _ _ Hi)) as (_ & Hwant & _).
  destruct (si_p _ _ _ Hx) as (_ & _ & Hp), (si_c _ _ _ Hx) as (_ & _ & Hc).
  pose proof (producer_stuck _ _ Hi Hno) as Sp. pose proof (consumer_stuck _ _ Hi Hno) as Sc.
  destruct (sides_counters _ _ _ _ _ _ _ _ Hw) as (Hle & HH & HT);
    [destruct Sp as [?|(? & ? & ? & _)]; eauto|destruct Sc as [?|(? & ? & ? & _)]; eauto|].
  unfold there. split; [lia|]. unfold p_at in Hp. unfold c_at in Hc. split.
  - destruct Sp as [Ep|(c & h & Ep & Hf)].
    + left. split; [done|].
      pose proof (inv_idle_p _ _ _ _ _ _ (wk_ring _ _ _ _ _ _ _ _ Hw) Ep) as HI. simpl in HI. lia.
    + right. rewrite Ep in Hp. destruct Hp as [? <-]. split; [done|].
      pose proof (blocked_producer_sees _ _ _ _ _ _ _ _ _ _ Hi Hw Ep Hf) as Hb.
      cut (cap - 1 - (H - T) < c); [lia|]. apply Hb. intros d E. destruct Sc as [?|(? & ? & ? & _)]; congruence.
  - destruct Sc as [Ec|(c & t & Ec & He)].
    + left. split; [done|]. by apply Hwant.
    + right. rewrite Ec in Hc. destruct Hc as [? <-]. split; [done|].
      pose proof (blocked_consumer_sees _ _ _ _ _ _ _ _ _ _ Hi Hw Ec He) as Hb.
      cut (H - T < c); [lia|]. apply Hb. intros d E. destruct Sp as [?|(? & ? & ? & _)]; congruence.
Qed.

(** Two operations of the same size: had each found the other short, the chunk boundaries, which are
    the same for both, would contradict it. *)
Lemma exchange_stuck cap n s :
  sides_inv cap n s -> ring_due (w_co (weak s)) = Z.of_nat (length (w_pushed (weak s))) ->
  (forall s', ~ inner_step publishes s s') ->
  p_pc (w_pr (weak s)) = PIdle /\ c_pc (w_co (weak s)) = CIdle.
Proof.
  intros Hx Hd Hno. destruct (sides_caps _ _ _ Hx) as (Hcap & _ & _). unfold cap_ok in Hcap.
  destruct (sides_stuck _ _ _ Hx Hno) as (H0 & Hp & Hc). unfold there in *. rewrite Hd in *.
  destruct (si_p _ _ _ Hx) as (_ & Ha & _), (si_c _ _ _ Hx) as (_ & Hb & _).
  destruct Hp as [[? ?]|[? ?]], Hc as [[? ?]|[? ?]]; try lia; [done|].
  destruct Ha as [?|[q Hq]], Hb as [?|[r Hr]]; try lia.
  assert (q = r) by nia. subst. lia.
Qed.

(** A message is exchanged: from any state the two sides can reach with both of them outside their
    operation and everything received, one begins to push a message and the other to pop as many
    bytes. *)
Definition exchange (data : list Z) (s : ord_system) : ord_system :=
  OSystem (begin_pop (Z.of_nat (length data)) (begin_push data (weak s))) (car s).

(** C5. The exchange comes to an end, over a wait policy whose signals are remembered until a wait
    takes them, are consumed by the one wait they end, and order what was done before them: the events
    of Windows, not the default condition variables of POSIX, which forget, nor the policy that
    spins, which has no signals, nor the futex, whose signal orders nothing when it finds the word set.
    From every reachable state between two messages, no run of the two sides has more than 26
    steps per byte and 8 more; and a state from which no step is left, whatever the loads read,
    is one in which both calls have returned and the receiver has everything that was sent. *)
Theorem exchange_terminates cap buf w s data m s' :
  cap_ok cap -> Z.of_nat (length buf) = cap ->
  star (ord_step publishes) (ord_initial cap buf w) s ->
  p_pc (w_pr (weak s)) = PIdle -> c_pc (w_co (weak s)) = CIdle -> c_out (w_co (weak s)) = w_pushed (weak s) ->
  nsteps (inner_step publishes) m (exchange data s) s' ->
  Z.of_nat m <= 26 * Z.of_nat (length data) + 8 /\
  ((forall s2, ~ inner_step publishes s' s2) ->
   p_pc (w_pr (weak s')) = PIdle /\ c_pc (w_co (weak s')) = CIdle /\
   c_out (w_co (weak s')) = w_pushed (weak s) ++ data).
Proof.
  intros Hcap Hl Hr Hp Hc Hout Hm.
  assert (sides_inv cap (Z.of_nat (length data)) (exchange data s)) as Hx.
  { split.
    - set (s1 := OSystem (begin_push data (weak s)) (car s)).
      refine (ord_step_inv publishes always_publishes cap s1 _ _ (ord_pop publishes s1 _ Hc (Nat2Z.is_nonneg _))).
      refine (ord_step_inv publishes always_publishes cap s _ _ (ord_push publishes s data Hp)).
      by apply (ord_reachable publishes always_publishes cap buf w).
    - unfold sized, to_push. simpl. split_and!; try done; try lia. right. exists 0. lia.
    - unfold sized, to_pop. simpl. split_and!; try done; try lia. right. exists 0. lia. }
  destruct (sides_run _ _ _ _ _ Hx Hm) as (Hx' & Hle & Hpu & Hdue).
  assert (ring_due (w_co (weak s')) = Z.of_nat (length (w_pushed (weak s')))) as Hd
    by (rewrite Hdue, Hpu; unfold ring_due; simpl; rewrite length_app, Hout; lia).
  split.
  - pose proof (left_nonneg _ _ _ Hcap Hx'). pose proof (signals_nonneg (wt (weak s))).
    unfold left_to_do, op_cost, to_push, to_pop in *. simpl in *. unfold op_cost in *. lia.
  - intros Hno. destruct (exchange_stuck _ _ _ Hx' Hd Hno) as [Ep Ec]. split; [done|]. split; [done|].
    destruct (weak_good_out _ _ (oi_weak _ _ (si_ring _ _ _ Hx'))) as (_ & Hwant & Ho).
    unfold ring_due in Hd. rewrite Ec, (Hwant Ec) in Hd.
    rewrite Ho, Hpu, take_ge; [done|]. rewrite <- Hpu. lia.
Qed.
End Phases.

(** ** A run, over the events of Windows *)

Lemma ord_exec_nsteps `{WP : WaitPolicy} publishes acts s s' :
  Forall (fun a => match a with WProducer _ | WConsumer _ => True | _ => False end) acts ->
  ord_exec publishes acts s = Ok s' -> nsteps (inner_step publishes) (length acts) s s'.
Proof.
  intros Ha. revert s. induction Ha as [|a acts Ha _ IH]; intros s; simpl; [intros [= ->]; constructor|].
  destruct (ord_act publishes a s) as [s1| | | |] eqn:E; simpl; try done. intros Hx.
  apply nsteps_l with s1; [|by apply IH]. clear IH Hx. destruct a as [data|n|k|k]; simpl in *; try done.
  - destruct (ord_producer_step _ _ _ _ _ _ _) as [[[[[m w] v] cr] p]| | | |] eqn:Ep; simplify_eq/=.
    by eapply inner_producer.
  - destruct (ord_consumer_step _ _ _ _ _ _ _) as [[[[[m w] v] cr] c]| | | |] eqn:Ep; simplify_eq/=.
    by eapply inner_consumer.
Qed.

Lemma idle_no_step `{WP : WaitPolicy} publishes s :
  p_pc (w_pr (weak s)) = PIdle -> c_pc (w_co (weak s)) = CIdle -> forall s', ~ inner_step publishes s s'.
Proof.
  intros Hp Hc s' Hs. destruct Hs as [s k m w v cr p Hst|s k m w v cr c Hst]; revert Hst.
  - unfold ord_producer_step, weak_producer_step, producer_step. by rewrite Hp.
  - unfold ord_consumer_step, weak_consumer_step, consumer_step. by rewrite Hc.
Qed.

#[local] Existing Instance event_policy.

(** Three bytes through a ring of capacity 3, which holds two: both sides wait once. *)
Definition ring3 : ord_system := ord_initial 3 [0; 0; 0] (Events false false).
Definition ring3_acts : list weak_action :=
  replicate 12 (WProducer 0) ++ replicate 16 (WConsumer 1) ++ replicate 8 (WProducer 1) ++
  replicate 8 (WConsumer 2).
Definition ring3_end : ord_system :=
  match ord_exec sets_event ring3_acts (exchange [1; 2; 3] ring3) with Ok s => s | _ => ring3 end.

Lemma exchange_terminates_witness :
  length ring3_acts = 44%nat /\ 44 <= 26 * 3 + 8 /\ c_out (w_co (weak ring3_end)) = [1; 2; 3].
Proof.
  split; [reflexivity|].
  destruct (exchange_terminates (WP := event_policy) sets_event (fun _ _ => eq_refl) 3 [0; 0; 0]
    (Events false false) ring3 [1; 2; 3] 44 ring3_end) as [Hm Hend];
    [unfold cap_ok; lia|reflexivity|constructor|reflexivity|reflexivity|reflexivity| |].
  - apply (ord_exec_nsteps sets_event ring3_acts); [by repeat constructor|]. vm_compute. reflexivity.
  - split; [exact Hm|]. apply Hend, idle_no_step; vm_compute; reflexivity.
Defined.
