(* ===== verification/IpcRun.v ===== *)
(** * The interprocess example comes to an end (examples/SPSCQueue/main.cpp, the second pair of threads)

    IpcExample.v shows that the pair counts no error, whatever the wait policy.  Over signals that
    are remembered, consumed once and order what was done before them (RingExchange.v), it also
    comes to an end: the bodies go through their loops in a number of steps that is bounded by
    the number of counters, and when nothing is left to do both loops are over.  An element
    is eight bytes, so it is enough that the ring holds two elements at once; the ring of the
    example has [QUEUE_SIZE] bytes. *)

From S2P Require Import Prelude ByteRing RingSafety RingWeak InterprocessSignal RingWait WindowsSignal RingWeakWait RingExchange QueueExample IpcExample.

Section Ends.
Context `{WP : WaitPolicy, SP : !StickyPolicy, OS : !OneShotPolicy}.
Context (publishes : event -> wstate -> bool).

(** The example, with the clocks that the signals carry. *)
Record ord_example := OrdExample { ex : ipc_example; carries : carried }.
Definition ring_of (x : ord_example) : ord_system := OSystem (ipc (ex x)) (carries x).

Inductive ord_ipc_step (N : Z) : ord_example -> ord_example -> Prop :=
  | ord_bodies e e' cr : ipc_loop N e e' -> ord_ipc_step N (OrdExample e cr) (OrdExample e' cr)
  | ord_ring x s :
      inner_step publishes (ring_of x) s ->
      ord_ipc_step N x (OrdExample (with_ipc (ex x) (weak s)) (car s)).

Definition ord_ipc_initial (cap : Z) (buf : list Z) (w : wstate) : ord_example :=
  OrdExample (ipc_initial cap buf w) (Carried 0 0).

Hypothesis always_publishes : forall e w, publishes e w = true.

Record ends_inv (N cap : Z) (x : ord_example) : Prop := EndsInv {
  en_ring : sides_inv cap 8 (ring_of x);
  en_ipc : ipc_inv N (ex x) }.

(** The steps left, at most: 106 to push an element, 107 to pop and compare it. *)
Definition ipc_left (N : Z) (x : ord_example) : Z :=
  106 * (N - ipc_produced (ex x)) + 107 * (N - ipc_consumed (ex x)) -
  (if ipc_popping (ex x) then 106 else 0) + left_to_do (ring_of x).

Lemma ends_bodies N cap e e' cr :
  N <= 2 ^ 60 -> ends_inv N cap (OrdExample e cr) -> ipc_loop N e e' ->
  ends_inv N cap (OrdExample e' cr) /\ ipc_left N (OrdExample e' cr) < ipc_left N (OrdExample e cr).
Proof.
  intros HN [[Hi Hp Hc] Hx] Hl.
  destruct (ipc_loop_inv N cap e e' HN (oi_weak _ _ Hi) Hx Hl) as [_ Hx'].
  enough (sides_inv cap 8 (ring_of (OrdExample e' cr)) /\
    ipc_left N (OrdExample e' cr) < ipc_left N (OrdExample e cr)) as [? ?] by done.
  clear Hx'. destruct Hl as [e Hpc Hlt|e Hpc Hpop Hlt|e Hpc Hpop];
    unfold ipc_left, left_to_do, ring_of, p_at, c_at, to_push, to_pop in *; simpl in *.
  - rewrite Hpc. simpl. unfold op_cost. split; [|lia]. split; try done.
    + exact (ord_step_inv publishes always_publishes cap _ _ Hi (ord_push publishes (OSystem (ipc e) cr) _ Hpc)).
    + unfold sized, to_push. simpl. split_and!; try done. right. by exists 0.
  - rewrite Hpc, Hpop. simpl. unfold op_cost. split; [|lia]. split; try done.
    + refine (ord_step_inv publishes always_publishes cap _ _ Hi (ord_pop publishes (OSystem (ipc e) cr) 8 Hpc _)). lia.
    + unfold sized, to_pop. simpl. split_and!; try done. right. by exists 0.
  - rewrite Hpop. split; [done|lia].
Qed.

Lemma ends_step N cap x y :
  N <= 2 ^ 60 -> ends_inv N cap x -> ord_ipc_step N x y -> ends_inv N cap y /\ ipc_left N y < ipc_left N x.
Proof.
  intros HN Hx Hs. destruct Hs as [e e' cr Hl|x s Hs]; [by apply ends_bodies|].
  destruct Hx as [Hr Hx].
  destruct (sides_step publishes always_publishes _ _ _ _ Hr Hs) as (Hr' & Hlt & Hpu & Hd & Hc).
  assert (ring_of (OrdExample (with_ipc (ex x) (weak s)) (car s)) = s) as E by by destruct s.
  split; [split; [by rewrite E|by apply ipc_ring_inv]|]. unfold ipc_left. rewrite E. simpl. lia.
Qed.

Lemma ends_run N cap m x y :
  N <= 2 ^ 60 -> ends_inv N cap x -> nsteps (ord_ipc_step N) m x y ->
  ends_inv N cap y /\ Z.of_nat m + ipc_left N y <= ipc_left N x.
Proof.
  intros HN Hx Hm. induction Hm as [x|m x x1 y Hs Hm IH]; [split; [done|lia]|].
  destruct (ends_step _ _ _ _ HN Hx Hs) as [Hx1 Hlt]. destruct (IH Hx1). split; [done|lia].
Qed.

(** Nothing moves: each body is at the end of its loop, or inside a call that waits. *)
Lemma ends_stuck N cap x :
  16 <= cap -> ends_inv N cap x -> (forall y, ~ ord_ipc_step N x y) ->
  ipc_produced (ex x) = N /\ ipc_consumed (ex x) = N /\ ipc_popping (ex x) = false.
Proof.
  intros Hcap [Hr Hx] Hno. destruct x as [e cr]. simpl in *. unfold ring_of in *. simpl in *.
  destruct (sides_stuck publishes _ _ _ Hr) as (H0 & Hp & Hc).
  { intros s Hs. by eapply Hno, (ord_ring N (OrdExample e cr)). }
  assert (p_pc (w_pr (ipc e)) = PIdle -> ~ ipc_produced e < N) as Np
    by (intros E Hlt; by eapply Hno, ord_bodies, ipc_push).
  assert (c_pc (w_co (ipc e)) = CIdle -> ipc_popping e = false /\ ~ ipc_consumed e < N) as Nc.
  { intros E. destruct (ipc_popping e) eqn:Hpop; [by exfalso; eapply Hno, ord_bodies, ipc_check|].
    split; [done|]. intros Hlt. by eapply Hno, ord_bodies, ipc_pop. }
  destruct Hx as [Hpu Hpr Hdue Hco Hpo _]. destruct Hr as [Hi (Ha & _) (Hb & _)].
  destruct (weak_good_out _ _ (oi_weak _ _ Hi)) as (_ & Hwant & _).
  unfold there, to_push, to_pop in *. simpl in *. rewrite Hdue, Hpu, length_counters in * by lia.
  destruct Hp as [[Ep Lp]|[Lp Hp]], Hc as [[Ec Lc]|[Lc Hc]]; simpl in *;
    try (specialize (Np Ep)); try (destruct (Nc Ec) as [Npop Nc']; rewrite Npop in *).
  - split_and!; try done; lia.
  - destruct (ipc_popping e) eqn:Hpop; [lia|]. specialize (Hwant Hpo). lia.
  - lia.
  - lia.
Qed.

Lemma ord_ipc_initial_inv N cap buf w :
  cap_ok cap -> Z.of_nat (length buf) = cap -> 0 <= N -> ends_inv N cap (ord_ipc_initial cap buf w).
Proof.
  intros Hcap Hbuf HN. split; [split|by apply ipc_initial_inv].
  - apply (ord_reachable publishes always_publishes cap buf w); try done. apply star_refl.
  - unfold sized, to_push. simpl. split_and!; try done. by left.
  - unfold sized, to_pop. simpl. split_and!; try done. by left.
Qed.

(** C19. The second pair of threads of the example comes to an end, under release/acquire memory, over
    a ring of at least 16 bytes and a wait policy whose signals are remembered until a wait takes them,
    are consumed by the one wait they end, and order what was done before them (the events of Windows;
    not the default condition variables of POSIX, the policy that spins or the futex): every run,
    whatever the interleaving and whatever the loads read, has at most 213 steps per counter and 6
    more; and when no step is left both loops are over, the
    consumer has received all the counters in order and has counted no error. *)
Theorem ipc_example_ends N cap buf w m x :
  cap_ok cap -> Z.of_nat (length buf) = cap -> 16 <= cap -> 0 <= N <= 2 ^ 60 ->
  nsteps (ord_ipc_step N) m (ord_ipc_initial cap buf w) x ->
  Z.of_nat m <= 213 * N + 6 /\
  ((forall y, ~ ord_ipc_step N x y) ->
   ipc_produced (ex x) = N /\ ipc_consumed (ex x) = N /\ ipc_popping (ex x) = false /\
   c_out (w_co (ipc (ex x))) = counters N /\ ipc_errorCount (ex x) = 0).
Proof.
  intros Hcap Hbuf Hc16 HN Hm.
  destruct (ends_run N cap m _ _ ltac:(lia) (ord_ipc_initial_inv N cap buf w Hcap Hbuf ltac:(lia)) Hm) as [Hx Hle].
  destruct Hx as [Hr Hx]. split.
  - pose proof (left_nonneg _ _ _ Hcap Hr). pose proof (signals_nonneg w).
    pose proof (ii_produced _ _ Hx). pose proof (ii_consumed _ _ Hx). pose proof (ii_popping _ _ Hx).
    unfold ipc_left in Hle. unfold left_to_do at 2 in Hle. simpl in Hle.
    destruct (ipc_popping (ex x)); lia.
  - intros Hno. destruct (ends_stuck N cap x Hc16 (EndsInv _ _ _ Hr Hx) Hno) as (Hp & Hc & Hpop).
    split_and!; try done; [|apply (ii_errors _ _ Hx)].
    apply (ipc_finished N cap (ex x) ltac:(lia) (oi_weak _ _ (si_ring _ _ _ Hr)) Hx Hc).
Qed.
End Ends.

(** ** An actual run *)

(** The two threads take turns, as far as they can; a load reads the newest value. *)
Definition ord_ipc_next `{WP : WaitPolicy} (publishes : event -> wstate -> bool) (N : Z) (turn : bool)
    (x : ord_example) : option ord_example :=
  let e := ex x in
  let s := ipc e in
  if turn then
    match p_pc (w_pr s) with
    | PIdle =>
        if ipc_produced e <? N then
          Some (OrdExample (IpcExample_ (ipc_begin_push s (ipc_produced e)) (ipc_produced e + 1)
                  (ipc_consumed e) (ipc_popping e) (ipc_errorCount e)) (carries x))
        else None
    | _ =>
        match ord_producer_step publishes (length (tails (mem s)) - 1) (mem s) (wt s) (p_view s) (carries x)
          (w_pr s) with
        | Ok (m, w, v, cr, p) =>
            Some (OrdExample (with_ipc e (WSystem m w v (c_view s) p (w_co s) (w_pushed s))) cr)
        | _ => None
        end
    end
  else
    match c_pc (w_co s), ipc_popping e with
    | CIdle, true =>
        Some (OrdExample (IpcExample_ s (ipc_produced e) (ipc_consumed e + 1) false
                (if elem (c_out (w_co s)) =? ipc_consumed e then ipc_errorCount e
                 else u64 (ipc_errorCount e + 1))) (carries x))
    | CIdle, false =>
        if ipc_consumed e <? N then
          Some (OrdExample (IpcExample_ (ipc_begin_pop s) (ipc_produced e) (ipc_consumed e) true
                  (ipc_errorCount e)) (carries x))
        else None
    | _, _ =>
        match ord_consumer_step publishes (length (heads (mem s)) - 1) (mem s) (wt s) (c_view s) (carries x)
          (w_co s) with
        | Ok (m, w, v, cr, c) =>
            Some (OrdExample (with_ipc e (WSystem m w (p_view s) v (w_pr s) c (w_pushed s))) cr)
        | _ => None
        end
    end.

(** The number of steps made, and where they lead. *)
Fixpoint ord_ipc_run `{WP : WaitPolicy} (publishes : event -> wstate -> bool) (N : Z) (fuel : nat)
    (turn : bool) (x : ord_example) : nat * ord_example :=
  match fuel with
  | O => (O, x)
  | S fuel' =>
      match union (ord_ipc_next publishes N turn x) (ord_ipc_next publishes N (negb turn) x) with
      | Some x' => let '(m, y) := ord_ipc_run publishes N fuel' (negb turn) x' in (S m, y)
      | None => (O, x)
      end
  end.

Lemma ord_ipc_next_step `{WP : WaitPolicy} publishes N turn x y :
  ord_ipc_next publishes N turn x = Some y -> ord_ipc_step publishes N x y.
Proof.
  destruct x as [e cr]. unfold ord_ipc_next. simpl. destruct turn.
  - destruct (p_pc (w_pr (ipc e))) eqn:Hpc; [case_bool; intros [= <-]; by apply ord_bodies, ipc_push|..];
      destruct (ord_producer_step _ _ _ _ _ _ _) as [[[[[m1 w1] v1] cr'] p]| | | |] eqn:Hs; intros [= <-];
      exact (ord_ring publishes N (OrdExample e cr) _ (inner_producer publishes (OSystem (ipc e) cr) _ _ _ _ _ _ Hs)).
  - destruct (c_pc (w_co (ipc e))) eqn:Hpc, (ipc_popping e) eqn:Hpop;
      [intros [= <-]; by apply ord_bodies, ipc_check
      |case_bool; intros [= <-]; by apply ord_bodies, ipc_pop|..];
      destruct (ord_consumer_step _ _ _ _ _ _ _) as [[[[[m1 w1] v1] cr'] c]| | | |] eqn:Hs; intros [= <-];
      exact (ord_ring publishes N (OrdExample e cr) _ (inner_consumer publishes (OSystem (ipc e) cr) _ _ _ _ _ _ Hs)).
Qed.

Lemma ord_ipc_run_nsteps `{WP : WaitPolicy} publishes N fuel turn x m y :
  ord_ipc_run publishes N fuel turn x = (m, y) -> nsteps (ord_ipc_step publishes N) m x y.
Proof.
  revert turn x m. induction fuel as [|fuel IH]; intros turn x m; simpl; [intros [= <- <-]; constructor|].
  destruct (union _ _) as [x'|] eqn:En; [|intros [= <- <-]; constructor].
  destruct (ord_ipc_run _ _ _ _ _) as [m' y'] eqn:Er. intros [= <- <-].
  apply nsteps_l with x'; [|by eapply IH].
  apply union_Some in En as [En|[_ En]]; by eapply ord_ipc_next_step.
Qed.

Lemma finished_no_step `{WP : WaitPolicy} publishes N x :
  p_pc (w_pr (ipc (ex x))) = PIdle -> c_pc (w_co (ipc (ex x))) = CIdle ->
  ipc_produced (ex x) = N -> ipc_consumed (ex x) = N -> ipc_popping (ex x) = false ->
  forall y, ~ ord_ipc_step publishes N x y.
Proof.
  intros Hp Hc HP HC Hpop y Hs. destruct Hs as [e e' cr Hl|x s Hs]; simpl in *.
  - destruct Hl; congruence || lia.
  - by apply (idle_no_step publishes (ring_of x) Hp Hc s).
Qed.

#[local] Existing Instance event_policy.

(** Four counters through a ring of 16 bytes, over the events of Windows. *)
Definition ipc_four : nat * ord_example :=
  ord_ipc_run sets_event 4 1000 true (ord_ipc_initial 16 (replicate 16 0) (Events false false)).

Lemma ipc_example_ends_witness :
  Z.of_nat ipc_four.1 <= 213 * 4 + 6 /\ c_out (w_co (ipc (ex ipc_four.2))) = counters 4.
Proof.
  destruct (ipc_example_ends (WP := event_policy) sets_event (fun _ _ => eq_refl) 4 16 (replicate 16 0)
    (Events false false) ipc_four.1 ipc_four.2) as [Hm Hend]; [unfold cap_ok; lia|reflexivity|lia|lia| |].
  - apply (ord_ipc_run_nsteps sets_event 4 1000 true). unfold ipc_four. by destruct (ord_ipc_run _ _ _ _ _).
  - split; [exact Hm|]. apply Hend, finished_no_step; vm_compute; reflexivity.
Defined.
