(* ===== verification/WindowsMemory.v ===== *)
(** * Shared memory on Windows (src/sm/SharedMemory.cpp)

    The Windows branch of [SharedMemory]: a view of a named file mapping.  The object holds two
    resources, the view, which [close] gives back, and the handle of the mapping, which only [unlink]
    does.  A pointer or a handle is a number, 0 the null one. *)

From S2P Require Import Prelude Ownership Numbers.

Inductive map_call :=
  | CreateFileMappingA (size : Z) (name : string) | OpenFileMappingA (name : string)
  | MapViewOfFile (h size : Z) | UnmapViewOfFile (p : Z) | CloseHandle (h : Z).
Definition win_map : Sys := {| call := map_call; reply _ := Z |}.
#[export] Existing Instance win_map.
Abbreviation mapcall := (@call win_map).

Record win_memory := WinMemory { name : string; size : Z; ptr : Z; fileHandle : Z;
  unlinkOnDestruction : bool }.
Definition set_ptr (p : Z) (m : win_memory) : win_memory :=
  WinMemory (name m) (size m) p (fileHandle m) (unlinkOnDestruction m).
Definition set_handle (h : Z) (m : win_memory) : win_memory :=
  WinMemory (name m) (size m) (ptr m) h (unlinkOnDestruction m).
Definition setUnlinkOnDestruction (uod : bool) (m : win_memory) : win_memory :=
  WinMemory (name m) (size m) (ptr m) (fileHandle m) uod.

Definition new_memory (nm : string) (sz : Z) : win_memory := WinMemory ("Local\" +:+ nm) sz 0 0 true.

(** The move constructor: the new object and the source. *)
Definition move (other : win_memory) : win_memory * win_memory :=
  (other, WinMemory (name other) (size other) 0 0 false).

Abbreviation wm := (prog win_memory).

Definition close : wm unit :=
  this ← get;
  if ptr this =? 0 then throw "SharedMemory not created or opened"
  else
    _ ← sys (UnmapViewOfFile (ptr this) : mapcall);
    modify (set_ptr 0).

Definition unlink : wm unit :=
  this ← get;
  _ ← (if negb (ptr this =? 0) then close else mret tt);
  _ ← sys (CloseHandle (fileHandle this) : mapcall);
  mret tt.

Definition destroy : wm unit :=
  this ← get;
  if negb (ptr this =? 0) then
    _ ← close;
    if unlinkOnDestruction this then unlink else mret tt
  else mret tt.

Definition open (createIfNotExisting : bool) : wm bool :=
  this ← get;
  if negb (ptr this =? 0) then throw "SharedMemory already open"
  else
    h ← (if createIfNotExisting then
           sizeAsDword ← lift (safeNumericCast DWORD size_t (size this));
           sys (CreateFileMappingA sizeAsDword (name this) : mapcall)
         else sys (OpenFileMappingA (name this) : mapcall));
    _ ← modify (set_handle h);
    if h =? 0 then mret false
    else
      p ← sys (MapViewOfFile h (size this) : mapcall);
      _ ← modify (set_ptr p);
      if p =? 0 then _ ← sys (CloseHandle h : mapcall); mret false
      else mret true.

(** ** The operations of an owner *)

Inductive op := OOpen (create : bool) | OClose | OUnlink | OSetUnlink (uod : bool).
Definition run_op (o : op) : wm unit :=
  match o with
  | OOpen create => _ ← open create; mret tt
  | OClose => close
  | OUnlink => unlink
  | OSetUnlink uod => modify (setUnlinkOnDestruction uod)
  end.
Definition life (ops : list op) : wm unit := lifetime run_op destroy ops.

(** ** The view

    What is followed here is the view alone; see below for the handle. *)

Definition view (p : Z) : list Z := if p =? 0 then [] else [p].
#[export] Instance view_resources : @Resources win_map Z := {|
  acquired c := match c as c return @reply win_map c -> list Z with
                | MapViewOfFile _ _ => view
                | _ => fun _ => []
                end;
  released c := match c with UnmapViewOfFile p => view p | _ => [] end |}.

Lemma view_some p : (p =? 0) = false -> view p = [p].
Proof. unfold view. by intros ->. Qed.
Lemma view_none p : (p =? 0) = true -> view p = [].
Proof. unfold view. by intros ->. Qed.
#[local] Hint Extern 1 (released _ = [_]) => apply view_some; assumption : owned.

Ltac step := owning_step; cbn [acquired view_resources].

Definition holds (m : win_memory) (held : list Z) : Prop := held = view (ptr m).

Lemma view_close_releases m :
  triple (owns m (view (ptr m))) close (fun _ m' held => m' = set_ptr 0 m /\ held = [])
    (fun m' held => (ptr m =? 0) = true /\ m' = m /\ held = []).
Proof.
  unfold close. do 2 step.
  - apply owns_throw. by rewrite view_none.
  - rewrite view_some by done. step. apply triple_modify. by intros ? ? [-> ->].
Qed.

(** Nothing is mapped. *)
Definition unmapped (m : win_memory) (held : list Z) : Prop := ptr m = 0 /\ held = [].
Lemma unmapped_holds m held : unmapped m held -> holds m held.
Proof. intros [Hp ->]. unfold holds. by rewrite Hp. Qed.

Lemma view_close : triple holds close (fun _ => unmapped) unmapped.
Proof.
  apply triple_follow. intros m held ->.
  eapply triple_weaken; [apply view_close_releases|done|by intros ? ? ? [-> ->]|].
  intros m' held (Hp & -> & ->). split; [by apply Z.eqb_eq|done].
Qed.

Lemma view_unlink : triple holds unlink (fun _ => unmapped) unmapped.
Proof.
  apply triple_follow. intros m held ->. unfold unlink. step.
  apply (triple_bind _ _ _ (fun _ => unmapped)).
  - destruct (ptr m =? 0) eqn:Hp; simpl negb; cbv iota.
    + apply owns_ret. split; [by apply Z.eqb_eq|by apply view_none].
    + eapply triple_weaken; [apply view_close|by intros ? ? [-> ->]|done|done].
  - intros []. apply triple_follow. intros m' held Hu. by do 2 step.
Qed.

Lemma view_destroy : triple holds destroy (fun _ _ held => held = []) (fun _ held => held = []).
Proof.
  apply triple_follow. intros m held ->. unfold destroy. step.
  destruct (ptr m =? 0) eqn:Hp; simpl negb; cbv iota.
  - apply owns_ret. by apply view_none.
  - apply (triple_bind _ _ _ (fun _ => unmapped)).
    + eapply triple_weaken; [apply view_close|by intros ? ? [-> ->]|done|by intros ? ? [_ ->]].
    + intros []. case_match; [|apply triple_ret; by intros ? ? [_ ->]].
      eapply triple_weaken; [apply view_unlink|apply unmapped_holds|by intros ? ? ? [_ ->]|by intros ? ? [_ ->]].
Qed.

Lemma view_open create : triple holds (open create) (fun _ => holds) holds.
Proof.
  apply triple_follow. intros m held ->. unfold open. step.
  destruct (ptr m =? 0) eqn:Hp; simpl negb; cbv iota; [|by step]. rewrite view_none by done.
  apply (triple_bind _ _ _ (fun _ => owns m [])).
  { destruct create; [step; [unfold holds; by rewrite view_none|]|]; sys_neutral; done. }
  intros h. do 2 step.
  - apply owns_ret. unfold holds. simpl. by rewrite view_none.
  - do 3 step; [|apply owns_ret; apply app_nil_r].
    do 2 step. unfold holds. simpl. rewrite app_nil_r. done.
Qed.

Lemma view_op o : triple holds (run_op o) (fun _ => holds) holds.
Proof.
  destruct o as [create| | |uod]; simpl.
  - apply (triple_bind _ _ _ (fun _ => holds)); [apply view_open|intros; by apply triple_ret].
  - eapply triple_weaken; [apply view_close|done|..]; intros; by apply unmapped_holds.
  - eapply triple_weaken; [apply view_unlink|done|..]; intros; by apply unmapped_holds.
  - by apply triple_modify.
Qed.

(** Whatever Windows answers and whatever is asked of the object, every view is unmapped exactly once. *)
Theorem view_unmapped_once nm sz ops E r m h :
  life ops E (new_memory nm sz) [] = (r, m, h) -> releases h ≡ₚ acquires E [] h.
Proof.
  apply (released_exactly _ holds); [|done].
  apply (triple_lifetime run_op destroy holds ops (fun _ held => held = []));
    [apply view_op|apply view_destroy].
Qed.

(** ** The handle of the mapping *)

(** The next test is [H], whatever the type its arguments are displayed with. *)
Ltac match_false H :=
  match goal with |- context [?x =? 0] => replace (x =? 0) with false by (symmetry; exact H) end.

Definition closes (h : list mapcall) : list Z :=
  omap (fun c : map_call => match c with CloseHandle p => Some p | _ => None end) h.

(** An object that does not unlink on destruction, as every object of a slave, never closes the
    handle it opened. *)
Theorem slave_keeps_handle (E : @env win_map) m0 r m h :
  let handle := E [] (OpenFileMappingA (name m0) : mapcall) in
  ptr m0 = 0 -> handle <> 0 ->
  E [OpenFileMappingA (name m0)] (MapViewOfFile handle (size m0) : mapcall) <> 0 ->
  life [OSetUnlink false; OOpen false] E m0 [] = (r, m, h) ->
  closes h = [] /\ fileHandle m = handle.
Proof.
  intros handle H0 Hh Hp. apply Z.eqb_neq in Hh, Hp. unfold life, lifetime, run_op.
  unfold open, destroy, close, modify, get, gets, sys, lift, mbind, prog_bind, mret, prog_ret.
  simpl. rewrite H0. simpl. match_false Hh. simpl. do 3 (match_false Hp; simpl).
  by intros [= <- <- <-].
Qed.

(** [unlink] twice closes the same handle twice: the member is not cleared. *)
Theorem unlink_twice_closes_twice (E : @env win_map) m h :
  ptr m = 0 ->
  exists cs, (_ ← unlink; unlink) E m h = (Ok tt, m, h ++ cs) /\
    closes cs = [fileHandle m; fileHandle m].
Proof.
  intros Hp. exists [CloseHandle (fileHandle m); CloseHandle (fileHandle m)]. split; [|done].
  unfold unlink, get, gets, sys, mbind, prog_bind, mret, prog_ret. rewrite Hp. simpl. rewrite Hp.
  simpl. by rewrite <-app_assoc.
Qed.

(** ** Witnesses *)

Definition map_system : @env win_map := fun _ c =>
  match c with CreateFileMappingA _ _ | OpenFileMappingA _ => 8 | MapViewOfFile _ _ => 4096 | _ => 1 end.

Lemma view_unmapped_once_witness :
  releases (history (life [OOpen true; OClose; OOpen false; OUnlink; OOpen true] map_system
    (new_memory "m" 64) [])) ≡ₚ [4096; 4096; 4096].
Proof.
  eapply (view_unmapped_once "m" 64 [OOpen true; OClose; OOpen false; OUnlink; OOpen true] map_system
    (Ok tt) (set_handle 8 (new_memory "m" 64))).
  vm_compute. reflexivity.
Defined.

Lemma slave_keeps_handle_witness :
  closes (history (life [OSetUnlink false; OOpen false] map_system (new_memory "m" 64) [])) = [] /\
  8 = 8.
Proof.
  eapply (slave_keeps_handle map_system (new_memory "m" 64) (Ok tt)
    (WinMemory "Local\m" 64 0 8 false)); [done|done|done|vm_compute; reflexivity].
Defined.

Lemma unlink_twice_closes_twice_witness : exists cs,
  (_ ← unlink; unlink) map_system (set_handle 8 (new_memory "m" 64)) [] =
    (Ok tt, set_handle 8 (new_memory "m" 64), [] ++ cs) /\ closes cs = [8; 8].
Proof. by apply (unlink_twice_closes_twice map_system (set_handle 8 (new_memory "m" 64)) []). Defined.
