(* ===== verification/Semaphore.v ===== *)
(** * Named semaphores (src/concurrency/Semaphore.cpp, headers/concurrency/Semaphore.h)

    The POSIX branch of [InterprocessSemaphore].  The kernel is the environment: every call
    answers with its result and the value of [errno] after it.  Loops that restart an
    interrupted call take one unit of fuel per call. *)

From S2P Require Import Prelude Numbers.

(** ** System calls *)

Inductive sem_call :=
  | SemOpenExcl (name : string) (value : Z)   (** [sem_open(name, O_CREAT | O_EXCL, ..)] *)
  | SemOpen (name : string)                   (** [sem_open(name, 0)] *)
  | SemClose (handle : Z)
  | SemUnlink (name : string)
  | SemWait (handle : Z)
  | SemTimedwait (handle sec nsec : Z)
  | SemTrywait (handle : Z)
  | SemPost (handle : Z)
  | ClockGettime.

(** [clock_gettime] answers with its result, seconds and nanoseconds. *)
Definition sem_reply (c : sem_call) : Type :=
  match c with ClockGettime => Z * Z * Z | _ => Z * Z end.

Definition sem_sys : Sys := {| call := sem_call; reply := sem_reply |}.
#[export] Existing Instance sem_sys.
Abbreviation semcall := (@call sem_sys).

Definition SEM_FAILED : Z := 0.
Definition EINTR : Z := 4.
Definition EAGAIN : Z := 11.
Definition EEXIST : Z := 17.
Definition EINVAL : Z := 22.
Definition ETIMEDOUT : Z := 110.

(** ** The object *)

Record semaphore := Semaphore {
  handle : Z;
  posixName : string;
  unlinkOnDestruction : bool }.

Definition set_handle (h : Z) (s : semaphore) : semaphore :=
  Semaphore h (posixName s) (unlinkOnDestruction s).
Definition setUnlinkOnDestruction (uod : bool) (s : semaphore) : semaphore :=
  Semaphore (handle s) (posixName s) uod.

(** 47 is the code of a slash. *)
Definition has_slash (name : string) : bool :=
  existsb (fun c => bool_decide (c = Ascii.ascii_of_nat 47)) (String.list_ascii_of_string name).

(** The object before the body of the constructor. *)
Definition unopened (name : string) : semaphore := Semaphore 0 ("/" +:+ name) true.

Definition InterprocessSemaphore (name : string) (maxConcurrency : Z) : prog semaphore unit :=
  if maxConcurrency =? 0 then throw "maxConcurrency cannot be 0"
  else if bool_decide (name = "") then throw "name cannot be empty"
  else
    semValue ← lift (safeNumericCast unsigned_int size_t maxConcurrency);
    '(h1, errno) ← sys (SemOpenExcl ("/" +:+ name) semValue : semcall);
    _ ← modify (set_handle h1);
    if h1 =? SEM_FAILED then
      if errno =? EEXIST then
        '(h2, _) ← sys (SemOpen ("/" +:+ name) : semcall);
        _ ← modify (set_handle h2);
        if h2 =? SEM_FAILED then throw "sem_open(...) failed" else mret tt
      else if errno =? EINVAL then
        if has_slash name
        then throw "sem_open(...) failed, invalid semaphore name (cannot contain '/')"
        else throw "sem_open(...) failed"
      else mret tt
    else mret tt.

Definition destroy : prog semaphore unit :=
  this ← get;
  if negb (handle this =? SEM_FAILED) then
    _ ← sys (SemClose (handle this) : semcall);
    if unlinkOnDestruction this then
      _ ← sys (SemUnlink (posixName this) : semcall); mret tt
    else mret tt
  else mret tt.

(** A loop that makes the same call until [f] makes something of the answer. *)
Fixpoint retry {B} (fuel : nat) (c : semcall) (f : reply c -> option (res B)) : prog semaphore B :=
  match fuel with
  | O => lift OutOfFuel
  | S fuel' =>
      r ← sys c;
      match f r with
      | Some b => lift b
      | None => retry fuel' c f
      end
  end.

(** [while ((result = sem_wait(handle)) == -1 && errno == EINTR) continue;] *)
Definition acquire (fuel : nat) : prog semaphore bool :=
  this ← get;
  retry fuel (SemWait (handle this) : semcall) (fun '(result, errno) =>
    if (result =? -1) && (errno =? EINTR) then None
    else if negb (result =? 0) then Some (Ok false) else Some (Ok true)).

Inductive AcquireResult := SUCCESS | TIMEOUT | FAIL.

(** The absolute deadline; [long long] arithmetic, truncating division. *)
Definition deadline (sec nsec timeoutMs : Z) : res (Z * Z) :=
  let product := timeoutMs * 1000000 in
  let totalNs := nsec + product in
  if bool_decide (in_ty int64_t product) && bool_decide (in_ty int64_t totalNs)
     && bool_decide (in_ty int64_t (sec + Z.quot totalNs 1000000000))
  then Ok (sec + Z.quot totalNs 1000000000, Z.rem totalNs 1000000000)
  else UB "signed overflow".

Definition acquireWithTimeout (fuel : nat) (timeout : Z) : prog semaphore AcquireResult :=
  '(r, sec, nsec) ← sys (ClockGettime : semcall);
  if r =? -1 then mret FAIL
  else
    '(sec', nsec') ← lift (deadline sec nsec timeout);
    this ← get;
    retry fuel (SemTimedwait (handle this) sec' nsec' : semcall) (fun '(result, errno) =>
      if result =? 0 then Some (Ok SUCCESS)
      else if errno =? EINTR then None
      else if errno =? ETIMEDOUT then Some (Ok TIMEOUT)
      else Some (Ok FAIL)).

Definition release : prog semaphore bool :=
  this ← get;
  '(r, _) ← sys (SemPost (handle this) : semcall);
  mret (r =? 0).

Definition lock (fuel : nat) : prog semaphore unit :=
  ok ← acquire fuel;
  if negb ok then throw "Unable to lock the semaphore" else mret tt.

Definition unlock : prog semaphore unit :=
  ok ← release;
  if negb ok then throw "Unable to unlock the semaphore" else mret tt.

Definition try_lock (fuel : nat) : prog semaphore bool :=
  this ← get;
  retry fuel (SemTrywait (handle this) : semcall) (fun '(result, errno) =>
    if result =? 0 then Some (Ok true)
    else if errno =? EINTR then None
    else if errno =? EAGAIN then Some (Ok false)
    else Some (Throw "Unable to unlock the semaphore")).

(** ** Specification *)

(** The first answer the loop does not ignore is that of its [k]-th repetition. *)
Definition settles {B} (E : env) (h : list semcall) (c : semcall) (f : reply c -> option (res B))
  (k : nat) (b : res B) : Prop :=
  f (E (h ++ replicate k c) c) = Some b /\
  forall j, (j < k)%nat -> f (E (h ++ replicate j c) c) = None.

Lemma retry_settles {B} E h c (f : reply c -> option (res B)) k b fuel s :
  settles E h c f k b -> (k < fuel)%nat ->
  retry fuel c f E s h = (b, s, h ++ replicate (S k) c).
Proof.
  revert h fuel. induction k as [|k IH]; intros h fuel [Hb Hj] Hf; destruct fuel as [|fuel]; try lia;
    cbn [retry]; rewrite bind_sys.
  - simpl replicate in Hb. rewrite app_nil_r in Hb. by rewrite Hb.
  - pose proof (Hj 0%nat ltac:(lia)) as H0. simpl replicate in H0. rewrite app_nil_r in H0.
    rewrite H0, (IH (h ++ [c]) fuel); [by rewrite <- app_assoc| |lia].
    split; [by rewrite <- app_assoc|]. intros j Hlt. rewrite <- app_assoc.
    apply (Hj (S j)). lia.
Qed.

(** [lock] and interruptions: however often the wait is interrupted by a signal, [lock]
    repeats it and nothing else, and its outcome is decided by the first answer that is not
    an interruption: it returns when that wait succeeded and throws when it failed. *)
Theorem lock_after_interruptions (E : @env sem_sys) s h k result errno fuel :
  let c := SemWait (handle s) : semcall in
  (forall j, (j < k)%nat -> E (h ++ replicate j c) c = (-1, EINTR)) ->
  E (h ++ replicate k c) c = (result, errno) -> (result, errno) <> (-1, EINTR) -> (k < fuel)%nat ->
  lock fuel E s h =
    ((if result =? 0 then Ok tt else Throw "Unable to lock the semaphore"), s,
     h ++ replicate (S k) c).
Proof.
  intros c Hj Hk Hne Hf. unfold lock.
  assert (acquire fuel E s h = (Ok (result =? 0), s, h ++ replicate (S k) c)) as Ha.
  { unfold acquire. rewrite bind_get. apply retry_settles; [split|done]; fold c.
    - rewrite Hk. destruct (Z.eqb_spec result 0) as [->|]; [done|].
      destruct (Z.eqb_spec result (-1)) as [->|]; [|done].
      destruct (Z.eqb_spec errno EINTR) as [->|]; [done|done].
    - intros j Hlt. by rewrite Hj. }
  rewrite (bind_ok _ _ _ _ _ _ _ _ Ha). by destruct (result =? 0).
Qed.

(** [try_lock] never blocks for another reason than interruptions: with the same
    restarts, it returns whether the semaphore was taken, and throws on any other error. *)
Theorem try_lock_after_interruptions (E : @env sem_sys) s h k result errno fuel :
  let c := SemTrywait (handle s) : semcall in
  (forall j, (j < k)%nat -> E (h ++ replicate j c) c = (-1, EINTR)) ->
  E (h ++ replicate k c) c = (result, errno) -> (result <> 0 -> errno <> EINTR) -> (k < fuel)%nat ->
  try_lock fuel E s h =
    ((if result =? 0 then Ok true
      else if errno =? EAGAIN then Ok false
      else Throw "Unable to unlock the semaphore"), s, h ++ replicate (S k) c).
Proof.
  intros c Hj Hk Hne Hf. unfold try_lock. rewrite bind_get.
  apply retry_settles; [split|done]; fold c.
  - rewrite Hk. destruct (Z.eqb_spec result 0) as [->|Hr]; [done|].
    rewrite (proj2 (Z.eqb_neq _ _) (Hne Hr)). by destruct (errno =? EAGAIN).
  - intros j Hlt. by rewrite Hj.
Qed.

(** The deadline of a timed acquire is the present plus the timeout, normalised: for a time
    of day and any timeout of up to about 290 years no arithmetic overflows, the nanoseconds
    are below one second, and the two parts add up exactly. *)
Theorem deadline_exact sec nsec ms :
  0 <= nsec < 1000000000 -> 0 <= ms <= 9000000000000 -> 0 <= sec <= 2 ^ 60 ->
  exists sec' nsec', deadline sec nsec ms = Ok (sec', nsec') /\
    0 <= nsec' < 1000000000 /\
    sec' * 1000000000 + nsec' = sec * 1000000000 + nsec + ms * 1000000.
Proof.
  intros Hn Hm Hs. unfold deadline.
  assert (0 <= Z.quot (nsec + ms * 1000000) 1000000000 <= 9000000001) as Hq.
  { rewrite Z.quot_div_nonneg by lia. Z.to_euclidean_division_equations. lia. }
  rewrite !bool_decide_true by (unfold in_ty, limits_min, limits_max; simpl; lia). simpl.
  eexists _, _. split; [reflexivity|].
  rewrite Z.quot_div_nonneg, Z.rem_mod_nonneg by lia.
  pose proof (Z.mod_pos_bound (nsec + ms * 1000000) 1000000000 ltac:(lia)).
  pose proof (Z.div_mod (nsec + ms * 1000000) 1000000000 ltac:(lia)). lia.
Qed.

(** The constructor misses most failures: when [sem_open] fails for any reason other than
    an existing semaphore or an invalid argument (permissions, no memory, too long a name,
    ...), it returns normally and leaves an object whose handle is [SEM_FAILED]. *)
Theorem constructor_misses_errors (E : @env sem_sys) name maxConcurrency errno :
  0 < maxConcurrency < 2 ^ 32 -> name <> "" ->
  E [] (SemOpenExcl ("/" +:+ name) maxConcurrency : semcall) = (SEM_FAILED, errno) ->
  errno <> EEXIST -> errno <> EINVAL ->
  exists s h, InterprocessSemaphore name maxConcurrency E (unopened name) [] = (Ok tt, s, h) /\
    handle s = SEM_FAILED.
Proof.
  intros Hm Hname HE Hx Hi. unfold InterprocessSemaphore.
  rewrite if_false by (apply Z.eqb_neq; lia). rewrite if_false by (by apply bool_decide_false).
  rewrite bind_lift.
  assert (safeNumericCast unsigned_int size_t maxConcurrency = Ok maxConcurrency) as ->.
  { apply safeNumericCast_size_uint. lia. }
  erewrite bind_ok by reflexivity. simpl app. rewrite HE, bind_modify.
  rewrite if_true by done. rewrite if_false by (by apply Z.eqb_neq).
  rewrite if_false by (by apply Z.eqb_neq). by eexists _, _.
Qed.

(** What the constructor leaves when it returns and [sem_open] fails only in the two ways it
    looks for: an open semaphore, created with the count asked for or opened as it is. *)
Theorem constructor_opens (E : @env sem_sys) name maxConcurrency h1 errno h2 errno2 :
  0 < maxConcurrency < 2 ^ 32 -> name <> "" ->
  E [] (SemOpenExcl ("/" +:+ name) maxConcurrency : semcall) = (h1, errno) ->
  (h1 = SEM_FAILED -> errno = EEXIST) ->
  E [SemOpenExcl ("/" +:+ name) maxConcurrency] (SemOpen ("/" +:+ name) : semcall) = (h2, errno2) ->
  h2 <> SEM_FAILED ->
  exists s h, InterprocessSemaphore name maxConcurrency E (unopened name) [] = (Ok tt, s, h) /\
    handle s = (if h1 =? SEM_FAILED then h2 else h1) /\ handle s <> SEM_FAILED.
Proof.
  intros Hm Hname HE Hx HE2 Hh2. unfold InterprocessSemaphore.
  rewrite if_false by (apply Z.eqb_neq; lia). rewrite if_false by (by apply bool_decide_false).
  rewrite bind_lift, safeNumericCast_size_uint by lia.
  erewrite bind_ok by reflexivity. simpl app. rewrite HE, bind_modify.
  destruct (Z.eqb_spec h1 SEM_FAILED) as [Hh1|Hh1].
  - rewrite (Hx Hh1), Z.eqb_refl. erewrite bind_ok by reflexivity. simpl app. rewrite HE2, bind_modify.
    rewrite if_false by (by apply Z.eqb_neq). by eexists _, _.
  - by eexists _, _.
Qed.

(** ** Concrete kernels *)

(** Two interruptions, then success; a clock; no permission to create. *)
Definition kernel : @env sem_sys := fun h c =>
  match c as c return sem_reply c with
  | SemWait _ | SemTrywait _ => if (length h <? 2)%nat then (-1, EINTR) else (0, 0)
  | SemOpenExcl _ _ => (SEM_FAILED, 13)
  | ClockGettime => (0, 1000, 999000000)
  | SemOpen _ => (5, 0)
  | SemClose _ | SemUnlink _ | SemTimedwait _ _ _ | SemPost _ => (0, 0)
  end.

Definition opened : semaphore := Semaphore 5 "/s" true.

Lemma lock_after_interruptions_witness :
  lock 5 kernel opened [] = (Ok tt, opened, [SemWait 5; SemWait 5; SemWait 5]).
Proof.
  apply (lock_after_interruptions kernel opened [] 2 0 0 5); [|reflexivity|done|lia].
  intros [|[|j]] Hj; [reflexivity|reflexivity|lia].
Defined.

Lemma try_lock_after_interruptions_witness :
  try_lock 5 kernel opened [] = (Ok true, opened, [SemTrywait 5; SemTrywait 5; SemTrywait 5]).
Proof.
  apply (try_lock_after_interruptions kernel opened [] 2 0 0 5); [|reflexivity|done|lia].
  intros [|[|j]] Hj; [reflexivity|reflexivity|lia].
Defined.

Lemma deadline_exact_witness :
  exists sec' nsec', deadline 1000 999000000 2500 = Ok (sec', nsec') /\
    0 <= nsec' < 1000000000 /\
    sec' * 1000000000 + nsec' = 1000 * 1000000000 + 999000000 + 2500 * 1000000.
Proof. apply (deadline_exact 1000 999000000 2500); lia. Defined.

Lemma constructor_misses_errors_witness :
  exists s h, InterprocessSemaphore "s" 3 kernel (unopened "s") [] = (Ok tt, s, h) /\
    handle s = SEM_FAILED.
Proof. by apply (constructor_misses_errors kernel "s" 3 13). Defined.

(** A kernel where the semaphore exists already. *)
Definition existing : @env sem_sys := fun h c =>
  match c as c return sem_reply c with
  | SemOpenExcl _ _ => (SEM_FAILED, EEXIST)
  | ClockGettime => (0, 0, 0)
  | SemOpen _ => (5, 0)
  | _ => (0, 0)
  end.

Lemma constructor_opens_witness :
  exists s h, InterprocessSemaphore "s" 3 existing (unopened "s") [] = (Ok tt, s, h) /\
    handle s = 5 /\ handle s <> SEM_FAILED.
Proof. by apply (constructor_opens existing "s" 3 SEM_FAILED EEXIST 5 0). Defined.
