(* ===== verification/SemaphoreExample.v ===== *)
(** * Two threads and a semaphore (examples/ThreadSyncWithSemaphore/main.cpp)

    The main thread makes a named semaphore and takes it, starts a thread that takes the same semaphore
    before its critical section, and gives it back.  The threads run the code of Semaphore.v over one
    kernel, whose named semaphores behave as POSIX documents them; a wait on a semaphore of value zero is
    a step that cannot be taken yet. *)

From S2P Require Import Prelude Semaphore.

(** ** POSIX semaphores *)

(** [named]: the semaphore that each name stands for; [values]: those that exist; [fresh]: the address of
    the next. *)
Record kernel := Kernel { named : gmap string Z; values : gmap Z Z; fresh : Z }.

Definition ENOENT : Z := 2.

(** The answer of a call, and the kernel it leaves; [None]: the call blocks. *)
Definition kernel_step (k : kernel) (c : sem_call) : option (sem_reply c * kernel) :=
  match c as c return option (sem_reply c * kernel) with
  | SemOpenExcl n v =>
      match named k !! n with
      | Some _ => Some ((SEM_FAILED, EEXIST), k)
      | None => Some ((fresh k, 0), Kernel (<[n := fresh k]> (named k)) (<[fresh k := v]> (values k)) (fresh k + 1))
      end
  | SemOpen n => Some (match named k !! n with Some p => (p, 0) | None => (SEM_FAILED, ENOENT) end, k)
  | SemClose _ => Some ((0, 0), k)
  | SemUnlink n =>
      Some (match named k !! n with Some _ => (0, 0) | None => (-1, ENOENT) end,
            Kernel (delete n (named k)) (values k) (fresh k))
  | SemWait p =>
      match values k !! p with
      | Some v => if 0 <? v then Some ((0, 0), Kernel (named k) (<[p := v - 1]> (values k)) (fresh k)) else None
      | None => Some ((-1, EINVAL), k)
      end
  | SemTrywait p =>
      match values k !! p with
      | Some v => if 0 <? v then Some ((0, 0), Kernel (named k) (<[p := v - 1]> (values k)) (fresh k))
                  else Some ((-1, EAGAIN), k)
      | None => Some ((-1, EINVAL), k)
      end
  | SemTimedwait p _ _ =>
      match values k !! p with
      | Some v => if 0 <? v then Some ((0, 0), Kernel (named k) (<[p := v - 1]> (values k)) (fresh k))
                  else Some ((-1, ETIMEDOUT), k)
      | None => Some ((-1, EINVAL), k)
      end
  | SemPost p =>
      match values k !! p with
      | Some v => Some ((0, 0), Kernel (named k) (<[p := v + 1]> (values k)) (fresh k))
      | None => Some ((-1, EINVAL), k)
      end
  | ClockGettime => Some ((0, 0, 0), k)
  end.

Fixpoint kernel_after (k : kernel) (h : list semcall) : option kernel :=
  match h with
  | [] => Some k
  | c :: h' => '(_, k') ← kernel_step k c; kernel_after k' h'
  end.

(** The kernel as the environment of a piece of code. *)
Definition answers (k : kernel) : @env sem_sys := fun h c =>
  let reply := match kernel_after k h with Some k' => fst <$> kernel_step k' c | None => None end in
  match c as c return option (sem_reply c) -> sem_reply c with
  | ClockGettime => default (-1, 0, 0)
  | _ => default (-1, EINVAL)
  end reply.

(** A piece of code run to its end, if no call of it blocks. *)
Definition attempt {A} (m : prog semaphore A) (s : semaphore) (k : kernel)
  : option (res A * semaphore * kernel) :=
  let '(r, s', h) := m (answers k) s [] in
  k' ← kernel_after k h; Some (r, s', k').

(** ** The two threads *)

Definition SEM_MAX_CONCURRENCY : Z := 1.
Definition SEM_NAME : string := "HelloSem".

Inductive main_pc := MConstruct | MAcquire | MStart | MRelease | MJoin | MDestroy | MOver.
Inductive child_pc := Unborn | CConstruct | CAcquire | CCritical | CRelease | CDestroy | COver.

(** The semaphore object of each thread, on its stack.  [failure]: a call has thrown, which ends the
    program. *)
Record system := System {
  the_kernel : kernel;
  m_pc : main_pc; m_sem : semaphore;
  c_pc : child_pc; c_sem : semaphore;
  failure : bool }.

(** A step of a thread that runs [m] and goes on at [next]; what [acquire] and [release] answer is not
    looked at. *)
Definition main_runs {A} (m : prog semaphore A) (next : main_pc) (s : system) : option system :=
  '(r, o, k) ← attempt m (m_sem s) (the_kernel s);
  Some (System k next o (c_pc s) (c_sem s) (match r with Ok _ => failure s | _ => true end)).
Definition child_runs {A} (m : prog semaphore A) (next : child_pc) (s : system) : option system :=
  '(r, o, k) ← attempt m (c_sem s) (the_kernel s);
  Some (System k (m_pc s) (m_sem s) next o (match r with Ok _ => failure s | _ => true end)).

Definition construct : prog semaphore unit := InterprocessSemaphore SEM_NAME SEM_MAX_CONCURRENCY.

(** One call of [acquire] never repeats here: the kernel does not interrupt. *)
Definition threadBody_step (s : system) : option system :=
  if failure s then None else
  match c_pc s with
  | Unborn | COver => None
  | CConstruct => child_runs construct CAcquire s
  | CAcquire => child_runs (acquire 1) CCritical s
  | CCritical => Some (System (the_kernel s) (m_pc s) (m_sem s) CRelease (c_sem s) (failure s))
  | CRelease => child_runs release CDestroy s
  | CDestroy => child_runs destroy COver s
  end.

(** [join] waits for the end of the thread. *)
Definition main_step (s : system) : option system :=
  if failure s then None else
  match m_pc s with
  | MConstruct => main_runs construct MAcquire s
  | MAcquire => main_runs (acquire 1) MStart s
  | MStart => Some (System (the_kernel s) MRelease (m_sem s) CConstruct (c_sem s) (failure s))
  | MRelease => main_runs release MJoin s
  | MJoin =>
      match c_pc s with
      | COver => Some (System (the_kernel s) MDestroy (m_sem s) (c_pc s) (c_sem s) (failure s))
      | _ => None
      end
  | MDestroy => main_runs destroy MOver s
  | MOver => None
  end.

Inductive step (s s' : system) : Prop :=
  | by_main : main_step s = Some s' -> step s s'
  | by_child : threadBody_step s = Some s' -> step s s'.

Definition initial (k : kernel) : system :=
  System k MConstruct (unopened SEM_NAME) Unborn (unopened SEM_NAME) false.

(** A kernel without semaphores. *)
Definition clean : kernel := Kernel ∅ ∅ 1.

(** ** The states reached *)

#[global] Instance main_pc_eq_dec : EqDecision main_pc.
Proof. solve_decision. Defined.
#[global] Instance child_pc_eq_dec : EqDecision child_pc.
Proof. solve_decision. Defined.
#[global] Instance semaphore_eq_dec : EqDecision semaphore.
Proof. solve_decision. Defined.
#[global] Instance kernel_eq_dec : EqDecision kernel.
Proof. solve_decision. Defined.
#[global] Instance system_eq_dec : EqDecision system.
Proof. solve_decision. Defined.

(** The states one step away, and those reached in at most so many steps. *)
Definition successors (s : system) : list system :=
  option_list (main_step s) ++ option_list (threadBody_step s).
Fixpoint explore (fuel : nat) (seen frontier : list system) : list system :=
  match fuel with
  | O => seen
  | S fuel' =>
      let next := filter (fun s => s ∉ seen) (remove_dups (frontier ≫= successors)) in
      explore fuel' (seen ++ next) next
  end.
Definition states : list system := explore 20 [initial clean] [initial clean].

Lemma successors_step s s' : step s s' -> s' ∈ successors s.
Proof.
  unfold successors. intros [H|H]; rewrite H; apply elem_of_app; [left|right]; simpl; by apply list_elem_of_singleton.
Qed.

Lemma reached_in_states s : star step (initial clean) s -> s ∈ states.
Proof.
  intros Hr. refine (star_invariant step (fun s => s ∈ states) _ _ _ Hr _).
  - assert (H : Forall (fun s => Forall (fun s' => s' ∈ states) (successors s)) states).
    { apply (bool_decide_unpack _). vm_compute. reflexivity. }
    intros x y Hx Hs. rewrite Forall_forall in H. specialize (H x Hx). rewrite Forall_forall in H.
    by apply H, successors_step.
  - apply (bool_decide_unpack _). vm_compute. reflexivity.
Qed.

(** ** Theorems *)

(** The value of the semaphore of the example, if its name is there. *)
Definition value_of (s : system) : option Z := values (the_kernel s) !! handle (m_sem s).

(** The semaphore orders the two threads of the example: however they interleave, nothing throws; while
    the child is between its [acquire] and its [release], the main thread has given the semaphore back
    and waits in [join], and the semaphore is taken; as long as the program has not ended some thread can
    go on; and at the end the name is gone. *)
Theorem child_waits_for_main s :
  star step (initial clean) s ->
  failure s = false /\
  (c_pc s = CCritical \/ c_pc s = CRelease -> m_pc s = MJoin /\ value_of s = Some 0) /\
  (m_pc s = MOver -> c_pc s = COver /\ named (the_kernel s) = ∅) /\
  (m_pc s <> MOver -> exists s', step s s').
Proof.
  intros Hr%reached_in_states.
  assert (H : Forall (fun s => failure s = false /\
    (c_pc s = CCritical \/ c_pc s = CRelease -> m_pc s = MJoin /\ value_of s = Some 0) /\
    (m_pc s = MOver -> c_pc s = COver /\ named (the_kernel s) = ∅) /\
    (m_pc s <> MOver -> successors s <> [])) states).
  { apply (bool_decide_unpack _). vm_compute. reflexivity. }
  rewrite Forall_forall in H. destruct (H s Hr) as (Hf & Hc & Ho & Hs). split_and!; [done..|].
  intros Hp. specialize (Hs Hp). unfold successors in Hs.
  destruct (main_step s) as [s'|] eqn:Hm; [exists s'; by apply by_main|].
  destruct (threadBody_step s) as [s'|] eqn:Hc'; [exists s'; by apply by_child|done].
Qed.

(** A kernel in which a run that was killed has left the semaphore taken. *)
Definition taken : kernel := Kernel (<["/HelloSem" := 1]> ∅) (<[1 := 0]> ∅) 2.

(** A semaphore that a run has left behind taken: the constructor opens it as it is, whatever count it
    asks for, and the program can do nothing but wait. *)
Theorem stale_semaphore_blocks :
  exists s, star step (initial taken) s /\ m_pc s = MAcquire /\
    forall s', ~ step s s'.
Proof.
  exists (System taken MAcquire (Semaphore 1 "/HelloSem" true) Unborn (unopened SEM_NAME) false).
  split_and!; [|done|].
  - apply star_one, by_main. vm_compute. reflexivity.
  - intros s' [H|H]; vm_compute in H; discriminate H.
Qed.

(** ** Any number of users *)

Section Users.
Context (sem : semaphore).

(** The users of the semaphore, each inside or not, and the kernel.  A user that is outside may try
    any of the three ways in. *)
Inductive use : kernel * list bool -> kernel * list bool -> Prop :=
  | use_acquire k ts i fuel o k' :
      ts !! i = Some false -> attempt (acquire fuel) sem k = Some (Ok true, o, k') ->
      use (k, ts) (k', <[i := true]> ts)
  | use_try_lock k ts i fuel o k' :
      ts !! i = Some false -> attempt (try_lock fuel) sem k = Some (Ok true, o, k') ->
      use (k, ts) (k', <[i := true]> ts)
  | use_timeout k ts i fuel ms o k' :
      ts !! i = Some false -> attempt (acquireWithTimeout fuel ms) sem k = Some (Ok SUCCESS, o, k') ->
      use (k, ts) (k', <[i := true]> ts)
  | use_refused k ts i fuel r o k' :
      ts !! i = Some false -> attempt (try_lock fuel) sem k = Some (Ok r, o, k') -> r = false ->
      use (k, ts) (k', ts)
  | use_expired k ts i fuel ms r o k' :
      ts !! i = Some false -> attempt (acquireWithTimeout fuel ms) sem k = Some (Ok r, o, k') ->
      r <> SUCCESS -> use (k, ts) (k', ts)
  | use_release k ts i r o k' :
      ts !! i = Some true -> attempt release sem k = Some (Ok r, o, k') ->
      use (k, ts) (k', <[i := false]> ts).

Definition inside (ts : list bool) : nat := length (filter (fun b => b = true) ts).
Definition with_value (k : kernel) (v : Z) : kernel :=
  Kernel (named k) (<[handle sem := v]> (values k)) (fresh k).

Lemma inside_insert (ts : list bool) (i : nat) (b b' : bool) :
  ts !! i = Some b ->
  Z.of_nat (inside (<[i := b']> ts)) =
    Z.of_nat (inside ts) + (if b' then 1 else 0) - (if b then 1 else 0).
Proof.
  intros Hi. unfold inside. rewrite insert_take_drop by by eapply lookup_lt_Some.
  rewrite <-(take_drop_middle ts i b Hi) at 3. rewrite !filter_app, !filter_cons, !length_app.
  destruct b, b'; simpl; lia.
Qed.

Lemma kernel_after_app k h1 h2 : kernel_after k (h1 ++ h2) = k' ← kernel_after k h1; kernel_after k' h2.
Proof.
  revert k. induction h1 as [|c h1 IH]; intros k; [done|]. cbn [app kernel_after].
  destruct (kernel_step k c) as [[r k1]|]; [apply IH|done].
Qed.

Lemma answers_step k0 h k c r k1 :
  kernel_after k0 h = Some k -> kernel_step k c = Some (r, k1) ->
  answers k0 h c = r /\ kernel_after k0 (h ++ [c]) = Some k1.
Proof.
  intros Hh Hc. split.
  - unfold answers. rewrite Hh, Hc. by destruct c.
  - rewrite kernel_after_app, Hh. cbn [mbind option_bind kernel_after]. by rewrite Hc.
Qed.

(** A loop over a call that the kernel answers at once with something the loop does not ignore. *)
Lemma retry_run {B} k0 h k (c : semcall) (f : reply c -> option (res B)) fuel r k1 b :
  kernel_after k0 h = Some k -> kernel_step k c = Some (r, k1) -> f r = Some b ->
  retry (S fuel) c f (answers k0) sem h = (b, sem, h ++ [c]) /\ kernel_after k0 (h ++ [c]) = Some k1.
Proof.
  intros Hh Hc Hf. destruct (answers_step _ _ _ _ _ _ Hh Hc) as [Ha Hk]. split; [|done].
  cbn [retry]. rewrite bind_sys, Ha, Hf. done.
Qed.

Lemma retry_history {B} (c : semcall) (f : reply c -> option (res B)) fuel (E : @env sem_sys) s h :
  exists n, history (retry (S fuel) c f E s h) = h ++ c :: replicate n c.
Proof.
  revert h. induction fuel as [|fuel IH]; intros h; cbn [retry]; rewrite bind_sys.
  - destruct (f (E h c)); by exists 0%nat.
  - destruct (f (E h c)); [by exists 0%nat|]. destruct (IH (h ++ [c])) as [n Hn].
    exists (S n). etrans; [exact Hn|]. by rewrite <-app_assoc.
Qed.

Ltac opened_value := cbn [kernel_step]; match goal with H : values _ !! _ = Some _ |- _ => rewrite H end.

Lemma retry_attempt {B} k0 h k (c : semcall) (f : reply c -> option (res B)) fuel r k1 b :
  kernel_after k0 h = Some k -> kernel_step k c = Some (r, k1) -> f r = Some b ->
  (let '(r, s', h') := retry (S fuel) c f (answers k0) sem h in
   k' ← kernel_after k0 h'; Some (r, s', k')) = Some (b, sem, k1).
Proof.
  intros Hh Hc Hf. destruct (retry_run k0 h k c f fuel r k1 b Hh Hc Hf) as [-> Hk]. by rewrite Hk.
Qed.

Lemma attempt_blocked {B} k (c : semcall) (f : reply c -> option (res B)) fuel :
  kernel_step k c = None -> attempt (retry (S fuel) c f) sem k = None.
Proof.
  intros Hc. unfold attempt. destruct (retry_history c f fuel (answers k) sem []) as [n Hn].
  unfold history in Hn. destruct (retry _ _ _ _ _ _) as [[r o] h']. simpl in Hn. subst h'.
  cbn [app kernel_after]. by rewrite Hc.
Qed.

(** What the three ways in do to a semaphore of value [v]. *)
Lemma attempt_acquire k v fuel :
  values k !! handle sem = Some v ->
  attempt (acquire (S fuel)) sem k =
    if 0 <? v then Some (Ok true, sem, with_value k (v - 1)) else None.
Proof.
  intros Hv. destruct (0 <? v) eqn:H0.
  - eapply (retry_attempt k [] k (SemWait (handle sem) : semcall)); [done|cbn [kernel_step]; by rewrite Hv, H0|done].
  - apply (attempt_blocked k (SemWait (handle sem) : semcall)). cbn [kernel_step]. by rewrite Hv, H0.
Qed.

Lemma attempt_try_lock k v fuel :
  values k !! handle sem = Some v ->
  attempt (try_lock (S fuel)) sem k =
    if 0 <? v then Some (Ok true, sem, with_value k (v - 1)) else Some (Ok false, sem, k).
Proof.
  intros Hv. destruct (0 <? v) eqn:H0;
    (eapply (retry_attempt k [] k (SemTrywait (handle sem) : semcall)); [done|cbn [kernel_step]; by rewrite Hv, H0|done]).
Qed.

Lemma attempt_timed k v fuel ms r o k' :
  values k !! handle sem = Some v -> attempt (acquireWithTimeout fuel ms) sem k = Some (Ok r, o, k') ->
  if 0 <? v then r = SUCCESS /\ k' = with_value k (v - 1) else r = TIMEOUT /\ k' = k.
Proof.
  intros Hv. unfold attempt, acquireWithTimeout. erewrite bind_ok by reflexivity.
  change (answers k [] (ClockGettime : semcall)) with (0, 0, 0). cbv beta iota zeta. rewrite if_false by done.
  rewrite bind_lift. destruct (deadline 0 0 ms) as [[sec nsec]| | | |]; [|done..]. rewrite bind_get.
  destruct fuel as [|fuel]; [done|].
  assert (Hc : kernel_step k (SemTimedwait (handle sem) sec nsec) =
    Some (if 0 <? v then ((0, 0), with_value k (v - 1)) else ((-1, ETIMEDOUT), k))).
  { cbn [kernel_step]. rewrite Hv. by destruct (0 <? v). }
  destruct (0 <? v);
    (erewrite (retry_attempt k [ClockGettime : semcall] k (SemTimedwait (handle sem) sec nsec : semcall));
       [|done|exact Hc|done]); by intros [= <- _ <-].
Qed.

Lemma attempt_release k v :
  values k !! handle sem = Some v -> attempt release sem k = Some (Ok true, sem, with_value k (v + 1)).
Proof.
  intros Hv. set (c := SemPost (handle sem) : semcall).
  assert (Hc : kernel_step k c = Some ((0, 0), with_value k (v + 1))) by (unfold c; cbn [kernel_step]; by rewrite Hv).
  destruct (answers_step k [] k c _ _ eq_refl Hc) as [Ha Hk].
  assert (Hr : release (answers k) sem [] = (Ok true, sem, [c])).
  { unfold release. rewrite bind_get. erewrite bind_ok by reflexivity. fold c. by rewrite Ha. }
  unfold attempt. rewrite Hr.
  assert (kernel_after k ([c] : list semcall) = Some (with_value k (v + 1))) as -> by exact Hk. done.
Qed.

(** The value and the users inside always add up to the count the semaphore was made with. *)
Definition balanced (n : Z) (x : kernel * list bool) : Prop :=
  exists v, values x.1 !! handle sem = Some v /\ 0 <= v /\ v + Z.of_nat (inside x.2) = n.

Lemma balanced_value n k ts v i b b' :
  ts !! i = Some b -> 0 <= v -> v + Z.of_nat (inside (<[i := b']> ts)) = n ->
  balanced n (with_value k v, <[i := b']> ts).
Proof. intros Hi Hv Hn. exists v. split; [apply lookup_insert_eq|done]. Qed.

Lemma use_balanced n x y : balanced n x -> use x y -> balanced n y.
Proof.
  intros (v & Hv & Hpos & Hn) Hu.
  destruct Hu as [k ts i fuel o k' Hi H|k ts i fuel o k' Hi H|k ts i fuel ms o k' Hi H
    |k ts i fuel r o k' Hi H Hr|k ts i fuel ms r o k' Hi H Hr|k ts i r o k' Hi H]; simpl in *.
  - destruct fuel as [|fuel]; [done|]. rewrite (attempt_acquire _ _ _ Hv) in H.
    destruct (Z.ltb_spec 0 v); [|done]. injection H as _ <-.
    eapply balanced_value; [done|lia|rewrite (inside_insert _ _ _ _ Hi); lia].
  - destruct fuel as [|fuel]; [done|]. rewrite (attempt_try_lock _ _ _ Hv) in H.
    destruct (Z.ltb_spec 0 v); [|done]. injection H as _ <-.
    eapply balanced_value; [done|lia|rewrite (inside_insert _ _ _ _ Hi); lia].
  - pose proof (attempt_timed _ _ _ _ _ _ _ Hv H) as Ht. destruct (Z.ltb_spec 0 v), Ht as [? ->]; [|done].
    eapply balanced_value; [done|lia|rewrite (inside_insert _ _ _ _ Hi); lia].
  - destruct fuel as [|fuel]; [done|]. rewrite (attempt_try_lock _ _ _ Hv) in H.
    destruct (Z.ltb_spec 0 v); injection H as <- _ <-; [done|]. by exists v.
  - pose proof (attempt_timed _ _ _ _ _ _ _ Hv H) as Ht. destruct (Z.ltb_spec 0 v), Ht as [? ->]; [done|].
    by exists v.
  - rewrite (attempt_release _ _ Hv) in H. injection H as _ _ <-.
    eapply balanced_value; [done|lia|rewrite (inside_insert _ _ _ _ Hi); lia].
Qed.
End Users.

(** C20. A semaphore made with the count [n] lets at most [n] of its users in at a time, whoever uses
    [acquire], [acquireWithTimeout] or [try_lock], in any order and number; and a user outside gets in at
    once as long as fewer than [n] are. *)
Theorem at_most_n_inside sem n k ts k' ts' :
  values k !! handle sem = Some n -> 0 <= n -> inside ts = 0%nat ->
  star (use sem) (k, ts) (k', ts') ->
  Z.of_nat (inside ts') <= n /\
  (Z.of_nat (inside ts') < n -> forall fuel, exists k2,
     attempt (acquire (S fuel)) sem k' = Some (Ok true, sem, k2)) /\
  (Z.of_nat (inside ts') = n -> forall fuel, attempt (acquire (S fuel)) sem k' = None).
Proof.
  intros Hk Hn H0 Hr.
  assert (Hb : balanced sem n (k', ts')).
  { refine (star_invariant _ (balanced sem n) _ _ _ Hr _); [apply use_balanced|].
    exists n. simpl. split; [done|]. rewrite H0. lia. }
  destruct Hb as (v & Hv & Hpos & Hsum). simpl in *. split; [lia|]. split; intros Hlt fuel;
    rewrite (attempt_acquire sem _ _ fuel Hv); destruct (Z.ltb_spec 0 v); try lia; [by eexists|done].
Qed.

(** ** Witnesses *)

(** The main thread through its [release], the child through its [acquire]. *)
Definition child_inside : system :=
  match list_find (fun s => c_pc s = CCritical) states with Some (_, s) => s | None => initial clean end.

Lemma child_inside_reached : star step (initial clean) child_inside.
Proof.
  do 6 (eapply star_step; [first [apply by_main; vm_compute; reflexivity | apply by_child; vm_compute; reflexivity]|]).
  vm_compute. apply star_refl.
Qed.

Lemma child_waits_for_main_witness :
  m_pc child_inside = MJoin /\ value_of child_inside = Some 0.
Proof.
  destruct (child_waits_for_main child_inside child_inside_reached) as (_ & Hc & _).
  apply Hc. left. vm_compute. reflexivity.
Defined.

(** A semaphore of two, three users, of whom two get in. *)
Definition two : kernel := Kernel (<["/s" := 1]> ∅) (<[1 := 2]> ∅) 2.
Definition two_taken : kernel := with_value (Semaphore 1 "/s" true) (with_value (Semaphore 1 "/s" true) two 1) 0.

Lemma at_most_n_inside_witness :
  attempt (acquire 3) (Semaphore 1 "/s" true) two_taken = None.
Proof.
  destruct (at_most_n_inside (Semaphore 1 "/s" true) 2 two [false; false; false] two_taken [true; false; true])
    as (_ & _ & Hfull); [reflexivity|lia|reflexivity| |by apply Hfull].
  eapply star_step; [eapply (use_acquire _ _ _ 0%nat 1%nat); [reflexivity|vm_compute; reflexivity]|].
  eapply star_step; [eapply (use_try_lock _ _ _ 2%nat 1%nat); [reflexivity|vm_compute; reflexivity]|].
  apply star_refl.
Defined.
