(* ===== verification/MultiLock.v ===== *)
(** * MultiLock (headers/concurrency/MultiLock.h)

    [MultiLock] counts how often its owner has locked it and passes on only the first lock and
    the last unlock to the lock it wraps.  The wrapped lock is the environment: each of its
    three functions answers with what it did, or throws. *)

From S2P Require Import Prelude.

Inductive lock_call := LLock | LUnlock | LTryLock.
#[global] Instance lock_call_eq_dec : EqDecision lock_call.
Proof. solve_decision. Defined.

(** [lock] and [unlock] answer true when they return and false when they throw; [try_lock]
    answers with its result, or throws ([None]). *)
Definition lock_reply (c : lock_call) : Type :=
  match c with LLock | LUnlock => bool | LTryLock => option bool end.

Definition lockable : Sys := {| call := lock_call; reply := lock_reply |}.
#[export] Existing Instance lockable.
Abbreviation lockcall := (@call lockable).

(** The object: [size_t counter]. *)
Definition counter := Z.

Definition MultiLock : counter := 0.

Definition lock : prog counter unit :=
  c ← get;
  if c =? SIZE_MAX then throw "counter overflow"
  else
    _ ← (if c =? 0 then ok ← sys (LLock : lockcall);
                        if (ok : bool) then mret tt else throw "lock failed"
         else mret tt);
    modify (fun c => u64 (c + 1)).

Definition unlock : prog counter unit :=
  c ← get;
  if c =? 0 then throw "counter underflow"
  else
    _ ← (if c =? 1 then ok ← sys (LUnlock : lockcall);
                        if (ok : bool) then mret tt else throw "unlock failed"
         else mret tt);
    modify (fun c => u64 (c - 1)).

Definition try_lock : prog counter bool :=
  c ← get;
  if c =? SIZE_MAX then throw "counter overflow"
  else if c =? 0 then
    r ← sys (LTryLock : lockcall);
    match (r : option bool) with
    | Some success => _ ← modify (fun c => if success then 1 else c); mret success
    | None => throw "try_lock failed"
    end
  else _ ← modify (fun c => u64 (c + 1)); mret true.

(** ** What the wrapped lock sees *)

Inductive ml_op := MLock | MUnlock | MTryLock.

Definition run_op (o : ml_op) : prog counter unit :=
  match o with
  | MLock => lock
  | MUnlock => unlock
  | MTryLock => _ ← try_lock; mret tt
  end.

(** The owner catches every exception and goes on. *)
Fixpoint run_ops (ops : list ml_op) : prog counter unit :=
  match ops with
  | [] => mret tt
  | o :: ops' => fun E c h => let '(_, c', h') := run_op o E c h in run_ops ops' E c' h'
  end.

(** Whether the wrapped lock is held after the calls [cs], made after [h], if it was [held]
    before; a call that throws leaves it as it was. *)
Definition after_call (E : env) (h : list lock_call) (c : lock_call) (held : bool) : bool :=
  match c with
  | LLock => if (E h (LLock : lockcall) : bool) then true else held
  | LUnlock => if (E h (LUnlock : lockcall) : bool) then false else held
  | LTryLock => match (E h (LTryLock : lockcall) : option bool) with Some true => true | _ => held end
  end.
Fixpoint holds (E : env) (h : list lock_call) (cs : list lock_call) (held : bool) : bool :=
  match cs with
  | [] => held
  | c :: cs' => holds E (h ++ [c]) cs' (after_call E h c held)
  end.

(** The wrapped lock is locked only when it is free, and unlocked only when it is held. *)
Fixpoint alternates (E : env) (h : list lock_call) (cs : list lock_call) (held : bool) : Prop :=
  match cs with
  | [] => True
  | c :: cs' =>
      held = (match c with LUnlock => true | _ => false end) /\
      alternates E (h ++ [c]) cs' (after_call E h c held)
  end.

Lemma ml_holds_app E h cs1 cs2 b :
  holds E h (cs1 ++ cs2) b = holds E (h ++ cs1) cs2 (holds E h cs1 b).
Proof.
  revert h b. induction cs1 as [|c cs1 IH]; intros h b; simpl; [by rewrite app_nil_r|].
  rewrite IH. f_equal. symmetry. apply (app_assoc h [c] cs1).
Qed.

Lemma alternates_app E h cs1 cs2 b :
  alternates E h (cs1 ++ cs2) b <->
  alternates E h cs1 b /\ alternates E (h ++ cs1) cs2 (holds E h cs1 b).
Proof.
  revert h b. induction cs1 as [|c cs1 IH]; intros h b; simpl; [rewrite app_nil_r; tauto|].
  rewrite IH. replace ((h ++ [c]) ++ cs1) with (h ++ c :: cs1) by apply (app_assoc h [c] cs1).
  tauto.
Qed.

Definition held (c : counter) : bool := 0 <? c.

(** One operation: it makes at most one call, and the count says whether the lock is held. *)
Lemma op_in_step E o c h r c' h' :
  0 <= c <= SIZE_MAX -> run_op o E c h = (r, c', h') ->
  exists cs, h' = h ++ cs /\ 0 <= c' <= SIZE_MAX /\ alternates E h cs (held c) /\
    holds E h cs (held c) = held c'.
Proof.
  unfold SIZE_MAX, held. intros Hc H.
  assert (forall x, x <> 0 -> 0 <= x -> (0 <? x) = true) as Hpos by (intros; apply Z.ltb_lt; lia).
  destruct o; simpl in H; unfold lock, unlock, try_lock in H.
  - rewrite bind_get in H. unfold SIZE_MAX in H. destruct (Z.eqb_spec c (2 ^ 64 - 1)).
    { injection H as <- <- <-. exists []. by rewrite app_nil_r. }
    destruct (Z.eqb_spec c 0) as [->|Hc0].
    + unfold mbind, prog_bind, sys in H. exists [LLock]. simpl.
      destruct (E h (LLock : lockcall) : bool) eqn:El; injection H as <- <- <-;
        rewrite ?El; simpl; split_and!; (done || lia).
    + injection H as <- <- <-. exists []. rewrite app_nil_r, wrap_u64_small by lia. simpl.
      rewrite !Hpos by lia. by split_and!; try lia.
  - rewrite bind_get in H. destruct (Z.eqb_spec c 0) as [->|Hc0].
    { injection H as <- <- <-. exists []. by rewrite app_nil_r. }
    destruct (Z.eqb_spec c 1) as [->|Hc1].
    + unfold mbind, prog_bind, sys in H. exists [LUnlock]. simpl.
      destruct (E h (LUnlock : lockcall) : bool) eqn:El; injection H as <- <- <-;
        rewrite ?El; simpl; split_and!; (done || lia).
    + injection H as <- <- <-. exists []. rewrite app_nil_r, wrap_u64_small by lia. simpl.
      rewrite !Hpos by lia. by split_and!; try lia.
  - unfold mbind at 1, prog_bind at 1 in H. rewrite bind_get in H. unfold SIZE_MAX in H.
    destruct (Z.eqb_spec c (2 ^ 64 - 1)).
    { injection H as <- <- <-. exists []. by rewrite app_nil_r. }
    destruct (Z.eqb_spec c 0) as [->|Hc0].
    + unfold mbind, prog_bind, sys in H. exists [LTryLock]. simpl.
      destruct (E h (LTryLock : lockcall) : option bool) as [[]|] eqn:El; injection H as <- <- <-;
        rewrite ?El; simpl; split_and!; (done || lia).
    + injection H as <- <- <-. exists []. rewrite app_nil_r, wrap_u64_small by lia. simpl.
      rewrite !Hpos by lia. by split_and!; try lia.
Qed.

Lemma ops_in_step E ops c h r c' h' :
  0 <= c <= SIZE_MAX -> run_ops ops E c h = (r, c', h') ->
  exists cs, h' = h ++ cs /\ 0 <= c' <= SIZE_MAX /\ alternates E h cs (held c) /\
    holds E h cs (held c) = held c'.
Proof.
  revert c h. induction ops as [|o ops IH]; intros c h Hc H; simpl in H.
  - injection H as <- <- <-. exists []. by rewrite app_nil_r.
  - destruct (run_op o E c h) as [[r1 c1] h1] eqn:E1.
    destruct (op_in_step _ _ _ _ _ _ _ Hc E1) as (cs1 & -> & Hc1 & Ha1 & Hh1).
    destruct (IH _ _ Hc1 H) as (cs2 & -> & Hc2 & Ha2 & Hh2).
    exists (cs1 ++ cs2). rewrite app_assoc, ml_holds_app, alternates_app, Hh1. repeat (split; [done|]); done.
Qed.

(** C28. [MultiLock] protects the lock it wraps: whatever its owner does with it (lock, unlock
    and try_lock in any order, unbalanced, and with every exception caught), and however the
    wrapped lock answers, that lock is never locked while it is held and never unlocked while
    it is free, and it is held exactly while the count is positive. *)
Theorem wrapped_lock_alternates E ops r c h :
  run_ops ops E MultiLock [] = (r, c, h) ->
  alternates E [] h false /\ holds E [] h false = (0 <? c).
Proof.
  intros H. assert (0 <= MultiLock <= SIZE_MAX) as H0 by done.
  destruct (ops_in_step _ _ _ _ _ _ _ H0 H)
    as (cs & -> & _ & Ha & Hh). by split.
Qed.

(** A lock that is always available. *)
Definition free_lock : @env lockable := fun h c =>
  match c as c return lock_reply c with LLock | LUnlock => true | LTryLock => Some true end.

Lemma wrapped_lock_alternates_witness :
  alternates free_lock [] [LLock; LUnlock; LTryLock] false /\
  holds free_lock [] [LLock; LUnlock; LTryLock] false = (0 <? 1).
Proof.
  apply (wrapped_lock_alternates free_lock [MUnlock; MLock; MLock; MUnlock; MUnlock; MTryLock] (Ok tt)).
  reflexivity.
Defined.
