(* ===== verification/TaskExecutor.v ===== *)
(** * TaskExecutor (src/concurrency/TaskExecutor.cpp, headers/concurrency/TaskExecutor.hpp)

    One worker thread and any number of clients share a task slot under a mutex, with two
    condition variables.  Every access to the shared fields is inside a critical section
    ([getLastTaskException] apart), so a critical section is one step; a wait on a condition
    variable ends the step with the thread asleep, and a notification, which the code always
    sends after unlocking, is a step of its own.

    A task is a callable: the model knows its number and how it ends.  The tasks accepted, by the
    step that puts them in the slot, and the tasks called, by the step that calls them, are recorded
    as they come. *)

From S2P Require Import Prelude.

Inductive CompletionState := NOT_DONE | DONE | DONE_WITH_ERRORS.
#[global] Instance CompletionState_eq_dec : EqDecision CompletionState.
Proof. solve_decision. Defined.

(** How a task ends: normally, with a [std::exception], with something else thrown. *)
Inductive ending := Returned | StdException | OtherException.

(** A [std::function]: empty, or a task. *)
Abbreviation task_t := (option nat).

Section Executor.
Context (ends : nat -> ending).

(** The fields under the mutex. *)
Record core := Core {
  task : task_t;
  taskAvailable : bool;
  stopFlag : bool;
  taskCompletionState : CompletionState;
  lastTaskException : option nat }.

(** The constructor, before it starts the worker. *)
Definition TaskExecutor : core := Core None false false NOT_DONE None.

(** ** The worker *)

Inductive kpc :=
  | KLoop                      (** about to lock at the top of the loop *)
  | KAsleep                    (** waiting on [cvTaskAvailable] *)
  | KRun (t : nat)             (** running the task, unlocked *)
  | KReport (t : nat)          (** the task has ended, about to lock *)
  | KNotify                    (** [cvTaskDone.notify_one()] *)
  | KExit.
#[global] Instance kpc_eq_dec : EqDecision kpc.
Proof. solve_decision. Defined.

(** What a step does to sleeping threads. *)
Inductive notification := NoNotification | OneTaskAvailable | AllTaskAvailable | OneTaskDone.

(** What the worker stores for a task that has ended. *)
Definition status (t : nat) : CompletionState :=
  match ends t with Returned => DONE | _ => DONE_WITH_ERRORS end.

(** The last component: the task that the step calls, [taskToRun()]. *)
Definition worker_step (c : core) (pc : kpc) : option (core * kpc * notification * option nat) :=
  match pc with
  | KLoop =>
      if taskAvailable c || stopFlag c then
        if stopFlag c then Some (c, KExit, NoNotification, None)
        else
          let c' := Core None false (stopFlag c) NOT_DONE None in
          match task c with
          | Some t => Some (c', KRun t, NoNotification, None)
          | None => Some (c', KLoop, NoNotification, None)
          end
      else Some (c, KAsleep, NoNotification, None)
  | KRun t => Some (c, KReport t, NoNotification, Some t)
  | KReport t =>
      Some (Core (task c) (taskAvailable c) (stopFlag c) (status t)
              (match ends t with StdException => Some t | _ => lastTaskException c end),
            KNotify, NoNotification, None)
  | KNotify => Some (c, KLoop, OneTaskDone, None)
  | KAsleep | KExit => None
  end.

(** ** The clients: one call each *)

Inductive cpc :=
  | CSubmit (t : task_t)         (** [submitVoidTask]: about to lock, or to test again *)
  | CSubmitAsleep (t : task_t)   (** waiting on [cvTaskAvailable] *)
  | CSubmitNotify                (** [cvTaskAvailable.notify_one()] *)
  | CSubmitted
  | CWait                        (** [waitForTaskCompletion] *)
  | CWaitAsleep                  (** waiting on [cvTaskDone] *)
  | CWaited (s : CompletionState)
  | CDestroy                     (** the destructor: about to lock *)
  | CDestroyNotify               (** [cvTaskAvailable.notify_all()] *)
  | CJoin                        (** [worker.join()] *)
  | CDestroyed.

(** [exited]: the worker has returned. *)
Definition client_step (c : core) (exited : bool) (pc : cpc) : option (core * cpc * notification) :=
  match pc with
  | CSubmit t =>
      if taskAvailable c then Some (c, CSubmitAsleep t, NoNotification)
      else Some (Core t true (stopFlag c) NOT_DONE (lastTaskException c), CSubmitNotify, NoNotification)
  | CSubmitNotify => Some (c, CSubmitted, OneTaskAvailable)
  | CWait =>
      if decide (taskCompletionState c = NOT_DONE) then Some (c, CWaitAsleep, NoNotification)
      else Some (c, CWaited (taskCompletionState c), NoNotification)
  | CDestroy =>
      Some (Core (task c) (taskAvailable c) true (taskCompletionState c) (lastTaskException c),
            CDestroyNotify, NoNotification)
  | CDestroyNotify => Some (c, CJoin, AllTaskAvailable)
  | CJoin => if exited then Some (c, CDestroyed, NoNotification) else None
  | CSubmitAsleep _ | CWaitAsleep | CSubmitted | CWaited _ | CDestroyed => None
  end.

(** [getLastTaskException] reads the field without the mutex. *)
Definition getLastTaskException (c : core) : option nat := lastTaskException c.

(** ** The whole system *)

Record system := System {
  shared : core;
  worker : kpc;
  clients : list cpc;
  accepted : list task_t;     (** the tasks whose submission has been through, in order *)
  ran : list nat }.           (** the tasks the worker has called, in order *)

(** A submission is through when the call goes on to notify the worker. *)
Definition accept (pc pc' : cpc) (acc : list task_t) : list task_t :=
  match pc, pc' with CSubmit t, CSubmitNotify => acc ++ [t] | _, _ => acc end.

Definition asleep_task (pc : cpc) : bool := match pc with CSubmitAsleep _ => true | _ => false end.
Definition asleep_done (pc : cpc) : bool := match pc with CWaitAsleep => true | _ => false end.

(** The test of the wait is evaluated again. *)
Definition wake_client (pc : cpc) : cpc :=
  match pc with CSubmitAsleep t => CSubmit t | CWaitAsleep => CWait | _ => pc end.
Definition wake_worker (k : kpc) : kpc := match k with KAsleep => KLoop | _ => k end.

(** [notify_one] wakes any one of the threads waiting on the variable, if there is one. *)
Inductive notifies : notification -> kpc * list cpc -> kpc * list cpc -> Prop :=
  | n_none k cs : notifies NoNotification (k, cs) (k, cs)
  | n_worker cs : notifies OneTaskAvailable (KAsleep, cs) (KLoop, cs)
  | n_client k cs i pc : cs !! i = Some pc -> asleep_task pc = true ->
      notifies OneTaskAvailable (k, cs) (k, <[i := wake_client pc]> cs)
  | n_nobody k cs : k <> KAsleep -> Forall (fun pc => asleep_task pc = false) cs ->
      notifies OneTaskAvailable (k, cs) (k, cs)
  | n_all k cs : notifies AllTaskAvailable (k, cs)
      (wake_worker k, (fun pc => if asleep_task pc then wake_client pc else pc) <$> cs)
  | n_done k cs i pc : cs !! i = Some pc -> asleep_done pc = true ->
      notifies OneTaskDone (k, cs) (k, <[i := wake_client pc]> cs)
  | n_done_nobody k cs : Forall (fun pc => asleep_done pc = false) cs ->
      notifies OneTaskDone (k, cs) (k, cs).

Definition is_exit (k : kpc) : bool := match k with KExit => true | _ => false end.

(** The calls a client can make. *)
Definition entry (pc : cpc) : Prop :=
  match pc with CSubmit _ | CWait | CDestroy => True | _ => False end.

Inductive step : system -> system -> Prop :=
  | step_call s pc : entry pc ->
      step s (System (shared s) (worker s) (clients s ++ [pc]) (accepted s) (ran s))
  | step_worker s c k n called k' cs' :
      worker_step (shared s) (worker s) = Some (c, k, n, called) ->
      notifies n (k, clients s) (k', cs') ->
      step s (System c k' cs' (accepted s) (ran s ++ option_list called))
  | step_client s i pc c pc' n k' cs' :
      clients s !! i = Some pc ->
      client_step (shared s) (is_exit (worker s)) pc = Some (c, pc', n) ->
      notifies n (worker s, <[i := pc']> (clients s)) (k', cs') ->
      step s (System c k' cs' (accept pc pc' (accepted s)) (ran s))
  | step_spurious_worker s : worker s = KAsleep ->
      step s (System (shared s) KLoop (clients s) (accepted s) (ran s))
  | step_spurious_client s i pc : clients s !! i = Some pc -> asleep_task pc || asleep_done pc ->
      step s (System (shared s) (worker s) (<[i := wake_client pc]> (clients s))
                (accepted s) (ran s)).

Definition initial : system := System TaskExecutor KLoop [] [] [].

(** ** Running a schedule *)

(** Whom a [notify_one] wakes. *)
Inductive target := Nobody | Worker | Client (i : nat).

Definition deliver (n : notification) (tgt : target) (k : kpc) (cs : list cpc) : option (kpc * list cpc) :=
  match n, tgt with
  | NoNotification, _ => Some (k, cs)
  | AllTaskAvailable, _ =>
      Some (wake_worker k, (fun pc => if asleep_task pc then wake_client pc else pc) <$> cs)
  | OneTaskAvailable, Worker => if decide (k = KAsleep) then Some (KLoop, cs) else None
  | OneTaskAvailable, Client i =>
      pc ← cs !! i; if asleep_task pc then Some (k, <[i := wake_client pc]> cs) else None
  | OneTaskAvailable, Nobody =>
      if decide (k <> KAsleep /\ Forall (fun pc => asleep_task pc = false) cs)
      then Some (k, cs) else None
  | OneTaskDone, Client i =>
      pc ← cs !! i; if asleep_done pc then Some (k, <[i := wake_client pc]> cs) else None
  | OneTaskDone, _ =>
      if decide (Forall (fun pc => asleep_done pc = false) cs) then Some (k, cs) else None
  end.

Inductive move := MCall (pc : cpc) | MWorker (tgt : target) | MClient (i : nat) (tgt : target).

Definition entryb (pc : cpc) : bool :=
  match pc with CSubmit _ | CWait | CDestroy => true | _ => false end.

Definition exec1 (m : move) (s : system) : option system :=
  match m with
  | MCall pc =>
      if entryb pc
      then Some (System (shared s) (worker s) (clients s ++ [pc]) (accepted s) (ran s))
      else None
  | MWorker tgt =>
      '(c, k, n, called) ← worker_step (shared s) (worker s);
      '(k', cs') ← deliver n tgt k (clients s);
      Some (System c k' cs' (accepted s) (ran s ++ option_list called))
  | MClient i tgt =>
      pc ← clients s !! i;
      '(c, pc', n) ← client_step (shared s) (is_exit (worker s)) pc;
      '(k', cs') ← deliver n tgt (worker s) (<[i := pc']> (clients s));
      Some (System c k' cs' (accept pc pc' (accepted s)) (ran s))
  end.

Fixpoint exec (ms : list move) (s : system) : option system :=
  match ms with [] => Some s | m :: ms => s' ← exec1 m s; exec ms s' end.

Lemma deliver_sound n tgt k cs k' cs' :
  deliver n tgt k cs = Some (k', cs') -> notifies n (k, cs) (k', cs').
Proof.
  destruct n, tgt; simpl; intros H; try (simplify_eq; by constructor);
    try (case_decide; destruct_and?; simplify_eq; by constructor);
    apply bind_Some in H as (pc & Hi & H); case_match; simplify_eq; by econstructor.
Qed.

Lemma exec1_sound m s s' : exec1 m s = Some s' -> step s s'.
Proof.
  destruct m as [pc|tgt|i tgt]; simpl; intros H.
  - destruct (entryb pc) eqn:He; simplify_eq. constructor. by destruct pc.
  - apply bind_Some in H as ([[[c k] n] called] & Hw & H).
    apply bind_Some in H as ([k' cs'] & Hd & H).
    simplify_eq. econstructor; [done|]. by eapply deliver_sound.
  - apply bind_Some in H as (pc & Hi & H). apply bind_Some in H as ([[c pc'] n] & Hc & H).
    apply bind_Some in H as ([k' cs'] & Hd & H). simplify_eq.
    econstructor; [done..|]. by eapply deliver_sound.
Qed.

Lemma exec_sound ms s s' : exec ms s = Some s' -> star step s s'.
Proof.
  revert s. induction ms as [|m ms IH]; simpl; intros s H; simplify_eq; [constructor|].
  apply bind_Some in H as (s1 & H1 & H). econstructor; [by eapply exec1_sound|by apply IH].
Qed.

(** Nothing moves any more, spurious wake-ups and new calls apart. *)
Definition stuck (s : system) : Prop :=
  worker_step (shared s) (worker s) = None /\
  Forall (fun pc => client_step (shared s) (is_exit (worker s)) pc = None) (clients s).

(** ** Any number of clients *)

Definition in_slot (s : system) : list task_t :=
  if taskAvailable (shared s) then [task (shared s)] else [].

(** The task the worker has taken and is about to call. *)
Definition in_hand (s : system) : list nat := match worker s with KRun t => [t] | _ => [] end.

(** The tasks that are not empty functions. *)
Definition callable (ts : list task_t) : list nat := omap id ts.

(** Every accepted task that is not empty has been called, is about to be or is in the slot. *)
Definition all_there (s : system) : Prop :=
  callable (accepted s) = ran s ++ in_hand s ++ callable (in_slot s).

Lemma callable_snoc ts t : callable (ts ++ [t]) = callable ts ++ option_list t.
Proof. unfold callable. rewrite omap_app. by destruct t. Qed.

(** What the worker has in hand does not depend on a notification. *)
Lemma notifies_in_hand n k cs k' cs' :
  notifies n (k, cs) (k', cs') -> (k' = k \/ k = KAsleep /\ k' = KLoop).
Proof. inversion 1; subst; auto. destruct k; auto. Qed.

Lemma step_all_there s s' : step s s' -> all_there s -> all_there s'.
Proof.
  unfold all_there, in_hand, in_slot.
  destruct 1 as [| s c k n called k' cs' Hw Hn | s i pc c pc' n k' cs' _ Hc Hn | s Hk |]; simpl;
    intros IH; try done.
  - assert (Hk : (match k' with KRun t => [t] | _ => [] end) = match k with KRun t => [t] | _ => [] end)
      by (by apply notifies_in_hand in Hn as [->|[-> ->]]).
    rewrite Hk, IH. destruct s as [[tk av sf st ex] w cl ac rn]; simpl in *.
    destruct w; simpl in Hw; repeat case_match; simplify_eq/=; by rewrite ?app_nil_r, <-?app_assoc.
  - assert (Hk : (match k' with KRun t => [t] | _ => [] end) =
      match worker s with KRun t => [t] | _ => [] end)
      by (by apply notifies_in_hand in Hn as [->|[-> ->]]).
    rewrite Hk. destruct s as [[tk av sf st ex] w cl ac rn]; simpl in *.
    destruct pc; simpl in Hc; repeat case_match; simplify_eq/=; try done;
      rewrite callable_snoc, IH; by rewrite <-!app_assoc, ?app_nil_r.
  - by rewrite IH, Hk.
Qed.

Lemma exited_runs_nothing s s' :
  star step s s' -> worker s = KExit -> worker s' = KExit /\ ran s' = ran s.
Proof.
  intros Hrun Hk. refine (star_invariant _ (fun s' => worker s' = KExit /\ ran s' = ran s) _ _ _ Hrun _);
    [|done]. clear s' Hrun. intros x y [Hx Hr] Hs.
  destruct Hs as [| x c k n called k' cs' Hw _ | x i pc c pc' n k' cs' _ _ Hn | |]; simpl in *; try done.
  - by rewrite Hx in Hw.
  - split; [|done]. apply notifies_in_hand in Hn as [->|[Hb _]]; congruence.
  - congruence.
Qed.

(** C24. Whatever the interleaving of any number of submitters, waiters and the destructor with
    the worker, the tasks the worker has called, followed by the one it has taken and is about to
    call and by the one in the slot, are the tasks accepted (those that are not empty functions),
    each once and in order.  Once the worker has left its loop it calls nothing any more: a task
    that the destructor finds in the slot is accepted and never run. *)
Theorem tasks_run_once_in_order s :
  star step initial s ->
  callable (accepted s) = ran s ++ in_hand s ++ callable (in_slot s) /\
  (worker s = KExit -> forall s', star step s s' -> ran s' = ran s).
Proof.
  intros Hrun. split.
  - apply (star_invariant _ _ _ _ (fun x y Hx Hs => step_all_there x y Hs Hx) Hrun). done.
  - intros Hk s' Hs'. by apply (exited_runs_nothing s s').
Qed.

(** ** One client that submits and waits in turn

    The discipline under which the class keeps its promise: a single thread calls it, and
    waits for each task before it submits the next. *)

Definition finished (pc : cpc) : bool :=
  match pc with CSubmitted | CWaited _ | CDestroyed => true | _ => false end.

(** What the thread may call after its last call [pc] returned. *)
Definition next_call (last pc : cpc) : bool :=
  match last, pc with
  | CWaited _, CSubmit (Some _) | CSubmitted, CWait => true
  | CWaited _, CDestroy | CSubmitted, CDestroy => true
  | _, _ => false
  end.
Definition allowed (cs : list cpc) (pc : cpc) : bool :=
  match list.last cs with
  | Some l => next_call l pc
  | None => match pc with CSubmit (Some _) => true | _ => false end
  end.

Definition called_by_one (s s' : system) : Prop :=
  length (clients s') = length (clients s) \/
  exists pc, clients s' = clients s ++ [pc] /\ allowed (clients s) pc.

Definition solo_step (s s' : system) : Prop := step s s' /\ called_by_one s s'.

(** The last call of the thread, by itself. *)
Definition view (s : system) (cur : cpc) : system :=
  System (shared s) (worker s) [cur] (accepted s) (ran s).

Lemma finished_asleep past :
  Forall (fun pc => finished pc = true) past ->
  Forall (fun pc => asleep_task pc = false) past /\ Forall (fun pc => asleep_done pc = false) past.
Proof. intros H; split; apply (Forall_impl _ _ _ H); by intros []. Qed.

(** The finished calls take no part in a notification. *)
Lemma notifies_view n k past cur k' cs' :
  Forall (fun pc => finished pc = true) past ->
  notifies n (k, past ++ [cur]) (k', cs') ->
  exists cur', cs' = past ++ [cur'] /\ notifies n (k, [cur]) (k', [cur']).
Proof.
  intros Hp Hn. destruct (finished_asleep past Hp) as [Ht Hd].
  assert (Hlast : forall i pc (f : cpc -> bool), (past ++ [cur]) !! i = Some pc -> f pc = true ->
    Forall (fun pc => f pc = false) past -> i = length past /\ pc = cur).
  { intros i pc f Hi Hf HF. rewrite lookup_snoc in Hi. case_decide; [naive_solver|].
    eapply Forall_lookup_1 in HF; [|done]. simpl in HF. congruence. }
  inversion Hn; subst.
  - eexists. split; [done|constructor].
  - eexists. split; [done|constructor].
  - destruct (Hlast i pc asleep_task) as [-> ->]; [done..|]. exists (wake_client cur).
    rewrite insert_app_r_alt, Nat.sub_diag by lia. split; [done|].
    apply (n_client _ [cur] 0 cur); done.
  - eexists. split; [done|]. constructor; [done|].
    match goal with H : Forall _ (_ ++ _) |- _ => by apply Forall_app in H as [_ ?] end.
  - eexists. rewrite fmap_app. split; [f_equal|apply (n_all _ [cur])].
    rewrite <-(list_fmap_id past) at 2. apply list_fmap_ext. intros i pc Hi.
    eapply Forall_lookup_1 in Ht; [|done]. simpl in Ht. by rewrite Ht.
  - destruct (Hlast i pc asleep_done) as [-> ->]; [done..|]. exists (wake_client cur).
    rewrite insert_app_r_alt, Nat.sub_diag by lia. split; [done|].
    apply (n_done _ [cur] 0 cur); done.
  - eexists. split; [done|]. constructor.
    match goal with H : Forall _ (_ ++ _) |- _ => by apply Forall_app in H as [_ ?] end.
Qed.

(** A step is a new call, or a step of the worker and of the last call alone. *)
Lemma step_view s s' past cur :
  Forall (fun pc => finished pc = true) past -> clients s = past ++ [cur] -> step s s' ->
  (exists pc, entry pc /\
     s' = System (shared s) (worker s) (clients s ++ [pc]) (accepted s) (ran s)) \/
  (exists cur', clients s' = past ++ [cur'] /\ step (view s cur) (view s' cur')).
Proof.
  intros Hp Hcs Hs.
  assert (Hlast : forall i pc, clients s !! i = Some pc -> finished pc = true \/
    i = length past /\ pc = cur).
  { intros i pc Hi. rewrite Hcs, lookup_snoc in Hi. case_decide; [naive_solver|].
    left. by eapply Forall_lookup_1 in Hp. }
  destruct Hs as [s pc He | s c k n called k' cs' Hw Hn | s i pc c pc' n k' cs' Hi Hc Hn | s Hk | s i pc Hi];
    simpl in *.
  - left. eauto.
  - right. rewrite Hcs in Hn. apply notifies_view in Hn as (cur' & -> & Hn); [|done].
    exists cur'. split; [done|]. by apply (step_worker (view s cur) c k n called k' [cur']).
  - right. apply Hlast in Hi as [Hf|[-> ->]].
    { by destruct pc. }
    rewrite Hcs, insert_app_r_alt, Nat.sub_diag in Hn by lia. simpl in Hn.
    apply notifies_view in Hn as (cur' & -> & Hn); [|done]. exists cur'. split; [done|].
    by apply (step_client (view s cur) 0 cur c pc' n k' [cur']).
  - right. exists cur. split; [done|]. by apply (step_spurious_worker (view s cur)).
  - right. apply Hlast in Hi as [Hf|[-> ->]].
    { by destruct pc. }
    exists (wake_client cur). rewrite Hcs, insert_app_r_alt, Nat.sub_diag by lia.
    split; [done|]. by apply (step_spurious_client (view s cur) 0 cur).
Qed.

(** The exception [getLastTaskException] gives after the task. *)
Definition exception_of (t : nat) : option nat :=
  match ends t with StdException => Some t | _ => None end.

(** The worker is between two tasks. *)
Definition ready (k : kpc) : Prop := k = KLoop \/ k = KAsleep \/ k = KNotify.

(** The task [t], the last one accepted: in the slot, running, or done. *)
Definition pending (c : core) (k : kpc) (t : nat) : Prop :=
  taskAvailable c = true /\ task c = Some t /\ taskCompletionState c = NOT_DONE.
Definition running (c : core) (k : kpc) (t : nat) : Prop :=
  taskAvailable c = false /\ taskCompletionState c = NOT_DONE /\ lastTaskException c = None /\
  (k = KRun t \/ k = KReport t).
Definition done_with (c : core) (k : kpc) (t : nat) : Prop :=
  taskAvailable c = false /\ taskCompletionState c = status t /\
  lastTaskException c = exception_of t /\ ready k.

Definition phase (s : system) (cur : cpc) : Prop :=
  let c := shared s in let k := worker s in
  match cur with
  | CSubmit None | CSubmitAsleep _ => False
  | CSubmit (Some _) => stopFlag c = false /\ taskAvailable c = false /\ ready k
  | CSubmitNotify => stopFlag c = false /\ exists t, list.last (accepted s) = Some (Some t) /\
      (pending c k t /\ ready k \/ running c k t \/ done_with c k t)
  | CSubmitted | CWait => stopFlag c = false /\ exists t, list.last (accepted s) = Some (Some t) /\
      (pending c k t /\ (k = KLoop \/ k = KNotify) \/ running c k t \/ done_with c k t)
  | CWaitAsleep => stopFlag c = false /\ exists t, list.last (accepted s) = Some (Some t) /\
      (pending c k t /\ (k = KLoop \/ k = KNotify) \/ running c k t \/
       done_with c k t /\ k = KNotify)
  | CWaited st => stopFlag c = false /\ exists t, list.last (accepted s) = Some (Some t) /\
      st = status t /\ done_with c k t
  | CDestroy => stopFlag c = false /\ k <> KExit
  | CDestroyNotify => stopFlag c = true
  | CJoin => stopFlag c = true /\ k <> KAsleep
  | CDestroyed => k = KExit
  end.

Lemma status_not_not_done t : status t <> NOT_DONE.
Proof. unfold status. by destruct (ends t). Qed.

(** A notification, when there is one client. *)
Lemma notifies_one n k cur k' cs' :
  notifies n (k, [cur]) (k', cs') ->
  match n with
  | NoNotification => k' = k /\ cs' = [cur]
  | OneTaskAvailable =>
      k = KAsleep /\ k' = KLoop /\ cs' = [cur] \/
      asleep_task cur = true /\ k' = k /\ cs' = [wake_client cur] \/
      k' = k /\ cs' = [cur] /\ k <> KAsleep
  | AllTaskAvailable =>
      k' = wake_worker k /\ cs' = [if asleep_task cur then wake_client cur else cur]
  | OneTaskDone => k' = k /\ cs' = [if asleep_done cur then wake_client cur else cur]
  end.
Proof.
  assert (Hone : forall i pc, [cur] !! i = Some pc -> i = 0%nat /\ pc = cur).
  { intros i pc Hi. by apply list_lookup_singleton_Some in Hi as [-> ->]. }
  inversion 1; subst; auto.
  - match goal with H : [_] !! _ = Some _ |- _ => apply Hone in H as [-> ->] end. auto.
  - match goal with H : [_] !! _ = Some _ |- _ => apply Hone in H as [-> ->] end. split; [done|].
    match goal with H : asleep_done _ = true |- _ => by rewrite H end.
  - split; [done|].
    match goal with H : Forall _ [_] |- _ => inversion H as [|? ? E]; by rewrite E end.
Qed.

Ltac phases :=
  unfold phase, pending, running, done_with, ready in *; simpl in *;
  repeat match goal with
  | H : _ /\ _ |- _ => destruct H
  | H : _ \/ _ |- _ => destruct H
  | H : exists _, _ |- _ => destruct H
  | H : False |- _ => destruct H
  | H : status ?t = NOT_DONE |- _ => destruct (status_not_not_done t H)
  | H : NOT_DONE = status ?t |- _ => destruct (status_not_not_done t (eq_sym H))
  end; simplify_eq; try done.

Ltac pick :=
  solve [ done | congruence
    | unfold exception_of; match goal with H : ends _ = _ |- _ => by rewrite H end
    | split; pick | eexists; pick | left; pick | right; pick ].

Lemma phase_worker s cur c k n called k' cs' :
  phase s cur -> worker_step (shared s) (worker s) = Some (c, k, n, called) ->
  notifies n (k, [cur]) (k', cs') ->
  exists cur', cs' = [cur'] /\
    phase (System c k' cs' (accepted s) (ran s ++ option_list called)) cur'.
Proof.
  destruct s as [[tk [] [] st ex] w cl ac sd]; intros Hph Hw Hn%notifies_one;
  destruct w; simpl in Hw; simplify_eq; repeat case_match; simplify_eq; destruct Hn as [-> ->];
    (eexists; split; [done|]); destruct cur as [[]| | | | | | | | | |]; phases;
    pick.
Qed.

Lemma phase_client s cur c pc n k' cs' :
  phase s cur -> client_step (shared s) (is_exit (worker s)) cur = Some (c, pc, n) ->
  notifies n (worker s, [pc]) (k', cs') ->
  exists cur', cs' = [cur'] /\
    phase (System c k' cs' (accept cur pc (accepted s)) (ran s)) cur'.
Proof.
  destruct s as [[tk [] [] st ex] w cl ac sd]; intros Hph Hw Hn%notifies_one.
  all: destruct cur as [[]| | | | | | | | | |]; simpl in Hw; repeat case_match; simplify_eq; simpl in Hn;
    phases; (eexists; split; [done|]); phases; rewrite ?last_snoc; first [pick | destruct w; pick].
Qed.

(** [phase] survives every step of the one-client system. *)
Lemma phase_step s cur cur' s' :
  phase s cur -> step (view s cur) s' -> clients s' = [cur'] -> phase s' cur'.
Proof.
  intros Hph Hs Hcs'. remember (view s cur) as v eqn:Hv.
  assert (Hone : forall i pc, [cur] !! i = Some pc -> i = 0%nat /\ pc = cur).
  { intros i pc Hi. by apply list_lookup_singleton_Some in Hi as [-> ->]. }
  destruct Hs; subst; simpl in *; simplify_eq.
  - eapply phase_worker in Hph as (? & ? & Hph); [|done|done]. by simplify_eq.
  - match goal with H : [cur] !! _ = Some _ |- _ => apply Hone in H as [-> ->] end.
    eapply phase_client in Hph as (? & ? & Hph); [|done|done]. by simplify_eq.
  - destruct s as [[] ? ? ? ?]; destruct cur' as [[]| | | | | | | | | |]; phases; pick.
  - match goal with H : [cur] !! _ = Some _ |- _ => apply Hone in H as [-> ->] end.
    simplify_eq/=. destruct s as [[] ? ? ? ?]; destruct cur as [[]| | | | | | | | | |]; phases; pick.
Qed.

(** What the finished waits reported, against the tasks accepted. *)
Definition waited (pc : cpc) : option CompletionState :=
  match pc with CWaited st => Some st | _ => None end.
Definition status_of (t : task_t) : CompletionState := from_option status NOT_DONE t.

Definition reported (past : list cpc) (cur : cpc) (acc : list task_t) : Prop :=
  exists rest, status_of <$> acc = omap waited past ++ option_list (waited cur) ++ rest /\
    match cur with
    | CSubmit _ | CWaited _ => rest = []
    | CDestroy | CDestroyNotify | CJoin | CDestroyed => True
    | _ => length rest = 1%nat
    end.

Lemma last_reported ac x l r :
  list.last ac = Some (Some x) -> status_of <$> ac = l ++ [r] -> r = status x.
Proof.
  intros Hl Hr. apply (f_equal list.last) in Hr. rewrite fmap_last, Hl, last_snoc in Hr.
  by simplify_eq/=.
Qed.

Lemma reported_client past s cur c pc n k' cs' cur' :
  phase s cur -> reported past cur (accepted s) ->
  client_step (shared s) (is_exit (worker s)) cur = Some (c, pc, n) ->
  notifies n (worker s, [pc]) (k', cs') -> cs' = [cur'] ->
  reported past cur' (accept cur pc (accepted s)).
Proof.
  destruct s as [[tk [] [] st ex] w cl ac sd]; intros Hph (rest & Hr & Hl) Hw Hn%notifies_one Hcs'.
  all: destruct cur as [[]| | | | | | | | | |]; simpl in Hw; repeat case_match; simplify_eq;
    simpl in Hn; phases; unfold reported; simpl; rewrite ?fmap_app, ?Hr; try (by eexists).
  all: try (eexists [_]; split; [by rewrite app_nil_r|done]).
  all: destruct rest as [|r [|]]; simplify_eq/=; exists []; split; [|done];
    f_equal; f_equal; by eapply last_reported.
Qed.

Definition solo_inv (s : system) : Prop :=
  (clients s = [] /\ accepted s = [] /\ shared s = TaskExecutor /\
   (worker s = KLoop \/ worker s = KAsleep)) \/
  exists past cur, clients s = past ++ [cur] /\ Forall (fun pc => finished pc = true) past /\
    phase s cur /\ reported past cur (accepted s).

(** A call the discipline allows. *)
Lemma solo_call s past cur pc :
  phase s cur -> reported past cur (accepted s) -> next_call cur pc ->
  let s' := System (shared s) (worker s) (clients s ++ [pc]) (accepted s) (ran s) in
  phase s' pc /\ reported (past ++ [cur]) pc (accepted s').
Proof.
  destruct s as [[tk av sf st ex] w cl ac sd]. intros Hph (rest & Hr & Hl) Hn.
  destruct cur as [[]| | | | | | | | | |]; try done; destruct pc as [[]| | | | | | | | | |]; try done;
    simpl in *; (split; [phases; pick|]);
    exists rest; simpl in *; split; try done; by rewrite omap_app, Hr, <-app_assoc.
Qed.

(** Before the first call. *)
Lemma solo_first s t :
  accepted s = [] -> shared s = TaskExecutor -> worker s = KLoop \/ worker s = KAsleep ->
  let s' := System (shared s) (worker s) [CSubmit (Some t)] (accepted s) (ran s) in
  phase s' (CSubmit (Some t)) /\ reported [] (CSubmit (Some t)) (accepted s').
Proof.
  intros Ha Hsh Hw. simpl. rewrite Ha, Hsh. simpl. split; [|by exists []].
  split; [done|]. split; [done|]. unfold ready. destruct Hw; auto.
Qed.

Lemma reported_step past s cur cur' s' :
  phase s cur -> reported past cur (accepted s) -> step (view s cur) s' -> clients s' = [cur'] ->
  reported past cur' (accepted s').
Proof.
  intros Hph Hr Hs Hcs'.
  assert (Hw : reported past (wake_client cur) (accepted s)).
  { destruct cur; try exact Hr. destruct Hph. }
  assert (Hone : forall i pc, [cur] !! i = Some pc -> i = 0%nat /\ pc = cur).
  { intros i pc Hi. by apply list_lookup_singleton_Some in Hi as [-> ->]. }
  remember (view s cur) as v eqn:Hv. destruct Hs as [|? ? ? ? ? ? ? ? Hn| | |]; subst; simpl in *; simplify_eq; try done.
  - apply notifies_one in Hn.
    destruct n; repeat match goal with
      | H : _ /\ _ |- _ => destruct H | H : _ \/ _ |- _ => destruct H end;
      simplify_eq; try done; by case_match.
  - match goal with H : [cur] !! _ = Some _ |- _ => apply Hone in H as [-> ->] end.
    by eapply reported_client.
  - match goal with H : [cur] !! _ = Some _ |- _ => apply Hone in H as [-> ->] end.
    by simplify_eq/=.
Qed.

Lemma solo_inv_step s s' : solo_step s s' -> solo_inv s -> solo_inv s'.
Proof.
  unfold solo_step, called_by_one. intros [Hs Hone] [(Hcs & Ha & Hsh & Hw)|(past & cur & Hcs & Hp & Hph & Hr)].
  - destruct Hs as [s pc He| | | |]; simpl in *.
    + destruct Hone as [Hl|(pc' & Hpc & Hn)]; [rewrite length_app in Hl; simpl in Hl; lia|].
      apply app_inj_2 in Hpc as [_ [= <-]]; [|done]. rewrite Hcs in Hn. destruct pc as [[t|]| | | | | | | | | |]; try done.
      right. exists [], (CSubmit (Some t)). rewrite Hcs. simpl. split; [done|]. split; [done|].
      by apply solo_first.
    + rewrite Hsh, Hcs in *. destruct Hw as [Hw|Hw]; rewrite Hw in *; [|done].
      simplify_eq/=. left. match goal with H : notifies _ _ _ |- _ => inversion H; subst end.
      auto.
    + by rewrite Hcs in *.
    + left. auto.
    + by rewrite Hcs in *.
  - destruct (step_view s s' past cur) as [(pc & He & ->)|(cur' & Hcs' & Hv)]; [done..| |].
    + destruct Hone as [Hl|(pc' & Hpc & Hn)]; simpl in *;
        [rewrite length_app in Hl; simpl in Hl; lia|].
      apply app_inj_2 in Hpc as [_ [= <-]]; [|done].
      unfold allowed in Hn. rewrite Hcs, last_snoc in Hn. right. exists (past ++ [cur]), pc.
      split; [by rewrite Hcs|]. split; [|by apply (solo_call s past cur)].
      apply Forall_app. split; [done|]. apply Forall_singleton.
      by destruct cur.
    + right. exists past, cur'. split; [done|]. split; [done|]. split.
      * exact (phase_step s cur cur' (view s' cur') Hph Hv eq_refl).
      * exact (reported_step past s cur cur' (view s' cur') Hph Hr Hv eq_refl).
Qed.

Lemma solo_reachable s : star solo_step initial s -> solo_inv s.
Proof.
  intros Hrun. apply (star_invariant _ _ _ _ (fun x y Hx Hs => solo_inv_step x y Hs Hx) Hrun).
  left. auto.
Qed.

(** When one thread uses the executor and waits for each task before the next, every wait
    reports how its own task ended (done, or done with errors), in order. *)
Theorem single_owner_waits s :
  star solo_step initial s ->
  omap waited (clients s) `prefix_of` (status_of <$> accepted s).
Proof.
  intros [(-> & -> & _)|(past & cur & -> & _ & _ & (rest & -> & _))]%solo_reachable; [done|].
  rewrite omap_app. exists rest. rewrite app_assoc. by destruct cur.
Qed.

(** In the same discipline, right after a wait the exception on record is the one of the
    task just waited for, if it ended with one. *)
Theorem single_owner_exception s st :
  star solo_step initial s -> list.last (clients s) = Some (CWaited st) ->
  exists t, list.last (accepted s) = Some (Some t) /\ st = status t /\
    getLastTaskException (shared s) = exception_of t.
Proof.
  intros [(-> & _)|(past & cur & -> & _ & Hph & _)]%solo_reachable; [done|].
  rewrite last_snoc. intros [= ->]. destruct Hph as (_ & t & Ht & -> & _ & _ & He & _). eauto.
Qed.

(** C25. When a single thread calls the executor, submits functions that are not empty, which return or
    throw, and waits for each before it submits the next, no call blocks for ever: when nothing
    can move any more, every call has returned, the destructor's included. *)
Theorem single_owner_never_stuck s :
  star solo_step initial s -> stuck s -> Forall (fun pc => finished pc = true) (clients s).
Proof.
  intros [(-> & _)|(past & cur & Hcs & Hp & Hph & _)]%solo_reachable [Hw Hc]; [constructor|].
  rewrite Hcs in *. apply Forall_app in Hc as [_ Hc]. apply Forall_app. split; [done|].
  inversion Hc as [|? ? Hstop]; subst. clear Hc. apply Forall_singleton.
  destruct s as [[tk [] [] st ex] w cl ac sd];
    destruct cur as [[]| | | | | | | | | |]; phases; try destruct w; phases; repeat case_match; phases.
Qed.

(** Schedules of the single-owner discipline. *)
Fixpoint exec_solo (ms : list move) (s : system) : option system :=
  match ms with
  | [] => Some s
  | m :: ms =>
      if match m with MCall pc => allowed (clients s) pc | _ => true end
      then s' ← exec1 m s; exec_solo ms s' else None
  end.

Lemma deliver_length n tgt k cs k' cs' :
  deliver n tgt k cs = Some (k', cs') -> length cs' = length cs.
Proof.
  destruct n, tgt; simpl; intros H; try case_decide; simplify_eq; rewrite ?length_fmap; try done;
    apply bind_Some in H as (pc & Hi & H); case_match; simplify_eq; apply length_insert.
Qed.

Lemma exec_solo_sound ms s s' : exec_solo ms s = Some s' -> star solo_step s s'.
Proof.
  revert s. induction ms as [|m ms IH]; simpl; intros s H; simplify_eq; [constructor|].
  case_match eqn:Ha; [|done]. apply bind_Some in H as (s1 & H1 & H).
  econstructor; [|by apply IH]. split; [by eapply exec1_sound|].
  destruct m as [pc|tgt|i tgt]; simpl in H1.
  - right. exists pc. case_match; simplify_eq. by rewrite Ha.
  - left. apply bind_Some in H1 as ([[[c k] n] called] & Hw & H1).
    apply bind_Some in H1 as ([k' cs'] & Hd%deliver_length & H1). by simplify_eq.
  - left. apply bind_Some in H1 as (pc & Hi & H1). apply bind_Some in H1 as ([[c pc'] n] & Hc & H1).
    apply bind_Some in H1 as ([k' cs'] & Hd%deliver_length & H1). simplify_eq/=.
    by rewrite Hd, length_insert.
Qed.

(** ** What goes wrong without the discipline *)

(** One [condition_variable] serves both the worker, which waits for a task, and the
    submitters, which wait for the slot, and the worker does not notify it when it empties the
    slot: a second [submitVoidTask] that found the slot full stays asleep for ever although the
    first task is done, the slot is free and the worker is waiting for a task. *)
Theorem submitter_sleeps_forever t1 t2 : exists s,
  star step initial s /\ stuck s /\ taskAvailable (shared s) = false /\ worker s = KAsleep /\
  clients s = [CSubmitted; CSubmitAsleep (Some t2)] /\ ran s = [t1].
Proof.
  eexists (System (Core None false false (status t1)
    (match ends t1 with StdException => Some t1 | _ => None end)) KAsleep _ [Some t1] [t1]).
  split; [|split; [|by auto]].
  - eapply (exec_sound [MCall (CSubmit (Some t1)); MClient 0 Nobody; MClient 0 Nobody;
      MCall (CSubmit (Some t2)); MClient 1 Nobody; MWorker Nobody; MWorker Nobody;
      MWorker Nobody; MWorker Nobody; MWorker Nobody]). vm_compute. reflexivity.
  - split; [done|]. by repeat constructor.
Qed.

(** The completion state belongs to the executor, not to a task: when a second task is
    submitted while the first one runs, a wait made after the second submission returns the
    completion of the first while the second is still in the slot. *)
Theorem wait_reports_previous_task t1 t2 : exists s,
  star step initial s /\ in_slot s = [Some t2] /\ ran s = [t1] /\
  clients s = [CSubmitted; CSubmitted; CWaited (status t1)].
Proof.
  pose (s (n : kpc) := System (Core (Some t2) true false (status t1)
    (match ends t1 with StdException => Some t1 | _ => None end)) n
    [CSubmitted; CSubmitted; CWaited (status t1)] [Some t1; Some t2] [t1]).
  exists (s KNotify). split; [|done]. unfold s.
  eapply (exec_sound [MCall (CSubmit (Some t1)); MClient 0 Nobody; MClient 0 Nobody;
      MWorker Nobody; MWorker Nobody; MCall (CSubmit (Some t2)); MClient 1 Nobody; MClient 1 Nobody;
      MWorker Nobody; MCall CWait; MClient 2 Nobody]).
  unfold status. destruct (ends t1) eqn:He; vm_compute; rewrite He; vm_compute; reflexivity.
Qed.

(** [submitTask] hands the worker a lambda that refers to its own parameter and to one of its
    locals; the worker may run it after [submitTask] has returned. *)
Lemma submitted_task_outlives_call t : exists s,
  star step initial s /\ clients s = [CSubmitted] /\ worker s = KRun t.
Proof.
  eexists (System (Core None false false NOT_DONE None) (KRun t) _ _ _). split; [|by auto].
  eapply (exec_sound [MCall (CSubmit (Some t)); MClient 0 Nobody; MClient 0 Nobody;
    MWorker Nobody]). vm_compute. reflexivity.
Qed.
End Executor.

(** ** Witnesses *)

(** Task 7 ends with a [std::exception], the others normally. *)
Definition example_ends (t : nat) : ending := if decide (t = 7%nat) then StdException else Returned.

Definition example_moves : list move :=
  [MCall (CSubmit (Some 5%nat)); MClient 0 Nobody; MWorker Nobody; MClient 0 Nobody; MCall CWait;
   MClient 1 Nobody; MWorker Nobody; MWorker Nobody; MWorker (Client 1); MClient 1 Nobody;
   MCall (CSubmit (Some 7%nat)); MWorker Nobody; MClient 2 Nobody; MClient 2 Worker;
   MWorker Nobody; MWorker Nobody; MWorker Nobody; MCall CWait; MClient 3 Nobody].
Definition example_end : system := default initial (exec_solo example_ends example_moves initial).

Lemma example_run : star (solo_step example_ends) initial example_end.
Proof. eapply (exec_solo_sound example_ends example_moves). vm_compute. reflexivity. Qed.

Lemma example_run_any : star (step example_ends) initial example_end.
Proof. eapply (exec_sound example_ends example_moves). vm_compute. reflexivity. Qed.

Lemma tasks_run_once_in_order_witness :
  callable (accepted example_end) =
    ran example_end ++ in_hand example_end ++ callable (in_slot example_end) /\
  (worker example_end = KExit -> forall s', star (step example_ends) example_end s' ->
   ran s' = ran example_end).
Proof. exact (tasks_run_once_in_order example_ends example_end example_run_any). Defined.

Lemma single_owner_waits_witness :
  omap waited (clients example_end) `prefix_of` (status_of example_ends <$> accepted example_end).
Proof. exact (single_owner_waits example_ends example_end example_run). Defined.

Lemma single_owner_exception_witness : exists t,
  list.last (accepted example_end) = Some (Some t) /\ DONE_WITH_ERRORS = status example_ends t /\
  getLastTaskException (shared example_end) = exception_of example_ends t.
Proof.
  exact (single_owner_exception example_ends example_end DONE_WITH_ERRORS example_run eq_refl).
Defined.

Definition stuck_moves : list move :=
  example_moves ++ [MWorker Nobody; MCall CDestroy; MClient 4 Nobody; MClient 4 Nobody;
    MWorker Nobody; MClient 4 Nobody].
Definition stuck_end : system := default initial (exec_solo example_ends stuck_moves initial).

Lemma single_owner_never_stuck_witness : Forall (fun pc => finished pc = true) (clients stuck_end).
Proof.
  apply (single_owner_never_stuck example_ends stuck_end).
  - apply (exec_solo_sound example_ends stuck_moves). vm_compute. reflexivity.
  - split; [vm_compute; reflexivity|]. vm_compute. by repeat constructor.
Defined.
