(* ===== verification/TaskSubmit.v ===== *)
(** * submitTask (headers/concurrency/TaskExecutor.hpp)

    The template wraps a function with a result and a promise into a task without: a lambda in the frame
    of the call, which the task it submits refers to.  The executor is that of TaskExecutor.v; the model
    adds the frame of each call, dead once the call has returned, and the future. *)

From S2P Require Import Prelude TaskExecutor.

(** A future: nothing yet, the value, or the error that its promise was destroyed. *)
Inductive future := Empty | Value | Broken.
#[global] Instance future_eq_dec : EqDecision future.
Proof. solve_decision. Defined.

(** The frame of a call of [submitTask], with the promise in it: the call is the client [caller]. *)
Record frame := Frame { caller : nat; alive : bool; result : future }.

Section Submit.
(** How the function of each call ends. *)
Context (ends : nat -> ending).

(** The executor, the frame of the call that submitted each task, and whether an access to a dead frame
    has made the program undefined. *)
Record program := Program { executor : system; frames : gmap nat frame; dangling : bool }.

(** The frame of task [t] when the worker runs it: [taskToSumbit()] of a dead frame is undefined; of a
    live one, the promise is set, unless the function throws. *)
Definition run_frame (t : nat) (f : frame) : frame :=
  match ends t with Returned => Frame (caller f) (alive f) Value | _ => f end.
(** [return future]: the locals are destroyed, the promise with them. *)
Definition return_frame (f : frame) : frame :=
  Frame (caller f) false (match result f with Empty => Broken | r => r end).

(** [submit_other]: any other step of the executor, calls of its other operations included. *)
Inductive submit_step : program -> program -> Prop :=
  | submit_call p t :
      frames p !! t = None ->
      let e := executor p in
      submit_step p (Program (System (shared e) (worker e) (clients e ++ [CSubmit (Some t)]) (accepted e) (ran e))
                       (<[t := Frame (length (clients e)) true Empty]> (frames p)) (dangling p))
  | submit_other p e' :
      step ends (executor p) e' -> (forall t, worker (executor p) = KRun t -> worker e' = KRun t) ->
      submit_step p (Program e' (frames p) (dangling p))
  | submit_run p e' t :
      worker (executor p) = KRun t -> step ends (executor p) e' -> worker e' = KReport t ->
      submit_step p (Program e'
        (match frames p !! t with
         | Some f => if alive f then <[t := run_frame t f]> (frames p) else frames p
         | None => frames p
         end)
        (dangling p || match frames p !! t with Some f => negb (alive f) | None => false end))
  | submit_return p t f :
      frames p !! t = Some f -> alive f = true -> clients (executor p) !! caller f = Some CSubmitted ->
      submit_step p (Program (executor p) (<[t := return_frame f]> (frames p)) (dangling p)).

Definition submit_initial : program := Program initial ∅ false.

(** What holds of every frame. *)
Definition frame_ok (t : nat) (f : frame) : Prop :=
  (alive f = false -> result f <> Empty) /\ (alive f = true -> result f <> Broken) /\
  (result f = Value -> ends t = Returned).

Lemma run_frame_ok t f : frame_ok t f -> alive f = true -> frame_ok t (run_frame t f).
Proof.
  intros (Hd & Ha & Hv) Hal. unfold run_frame, frame_ok. destruct (ends t) eqn:He; [|done..].
  simpl. rewrite Hal. by split_and!.
Qed.

Lemma submit_step_ok p p' :
  map_Forall frame_ok (frames p) -> submit_step p p' -> map_Forall frame_ok (frames p').
Proof.
  intros Hf Hs. destruct Hs as [p t Hn e|p e' Hs He|p e' t Hw Hs Hw'|p t f Ht Ha Hc]; simpl; try done.
  - apply map_Forall_insert_2; [|done]. by split_and!.
  - destruct (frames p !! t) as [f|] eqn:Ht; [|done]. destruct (alive f) eqn:Ha; [|done].
    apply map_Forall_insert_2; [|done]. by apply run_frame_ok; [apply (Hf t f)|].
  - apply map_Forall_insert_2; [|done]. destruct (Hf t f Ht) as (Hd & Hb & Hv).
    split_and!; simpl; [by intros _; destruct (result f)|done|by destruct (result f)].
Qed.

(** A future whose call has returned is settled: it never changes again. *)
Lemma settled p p' t f :
  submit_step p p' -> frames p !! t = Some f -> alive f = false -> frames p' !! t = Some f.
Proof.
  intros Hs Ht Ha. destruct Hs as [p t' Hn e|p e' Hs He|p e' t' Hw Hs Hw'|p t' f' Ht' Ha' Hc]; simpl; try done.
  - by rewrite lookup_insert_ne by congruence.
  - destruct (decide (t' = t)) as [->|Hne]; [by rewrite Ht, Ha|].
    destruct (frames p !! t') as [f'|]; [|done]. destruct (alive f'); [|done]. by rewrite lookup_insert_ne.
  - rewrite lookup_insert_ne; [done|]. intros ->. congruence.
Qed.

(** What a caller of [submitTask] can rely on: however the threads interleave, the future it has been
    given is settled once the call has returned: it holds the value, and then the function has returned
    it, or it is broken; and it never changes again, whatever is done with the executor. *)
Theorem returned_future_is_settled p p' t f :
  star submit_step submit_initial p -> frames p !! t = Some f -> alive f = false ->
  star submit_step p p' ->
  frames p' !! t = Some f /\ (result f = Broken \/ result f = Value /\ ends t = Returned).
Proof.
  intros Hr Ht Ha Hr'. split.
  - refine (star_invariant _ (fun p => frames p !! t = Some f) _ _ _ Hr' Ht). intros x y Hx Hs. by eapply settled.
  - assert (Hok : map_Forall frame_ok (frames p)).
    { refine (star_invariant _ (fun p => map_Forall frame_ok (frames p)) _ _ _ Hr _); [apply submit_step_ok|].
      apply map_Forall_empty. }
    destruct (Hok t f Ht) as (Hd & _ & Hv). specialize (Hd Ha). destruct (result f); [done|right; auto|by left].
Qed.

(** One step of the executor that ends no task. *)
Lemma other_step (m : move) p e' :
  exec1 ends m (executor p) = Some e' -> (forall t, worker (executor p) = KRun t -> worker e' = KRun t) ->
  submit_step p (Program e' (frames p) (dangling p)).
Proof. intros Hm Hk. apply submit_other; [by eapply exec1_sound|done]. Qed.

Ltac other m := eapply star_step; [eapply (other_step m); [reflexivity|by intros]|simpl].
Ltac ends_task := eapply star_step;
  [eapply (submit_run _ _ 0);
     [reflexivity|apply (exec1_sound ends (MWorker Nobody)); reflexivity|reflexivity]|simpl].

(** The run that is the usual one: the call returns before the worker has taken the task.  Its frame is
    gone with the promise, so the future is broken, and the worker then runs a task that refers to the
    dead frame. *)
Theorem submitTask_dangles :
  exists p, star submit_step submit_initial p /\ dangling p = true /\
    frames p !! 0%nat = Some (Frame 0 false Broken).
Proof.
  eexists. split.
  - eapply star_step; [by apply (submit_call submit_initial 0)|]. simpl.
    other (MClient 0 Nobody). other (MClient 0 Nobody).
    eapply star_step; [apply (submit_return _ 0 (Frame 0 true Empty)); by simpl|]. simpl.
    other (MWorker Nobody).
    ends_task. apply star_refl.
  - by vm_compute.
Qed.

(** The other run: the worker takes the task and ends it between the notification and the return. *)
Theorem submitTask_in_time :
  ends 0%nat = Returned ->
  exists p, star submit_step submit_initial p /\ dangling p = false /\
    frames p !! 0%nat = Some (Frame 0 false Value).
Proof.
  intros H0. eexists. split.
  - eapply star_step; [by apply (submit_call submit_initial 0)|]. simpl.
    other (MClient 0 Nobody). other (MClient 0 Nobody). other (MWorker Nobody).
    ends_task. eapply star_step; [|apply star_refl].
    apply (submit_return _ 0 (Frame 0 true Value)); [|done|done]. simpl. unfold run_frame. by rewrite H0.
  - by vm_compute.
Qed.
End Submit.

(** ** Witnesses *)

Lemma submitTask_in_time_witness :
  exists p, star (submit_step (fun _ => Returned)) submit_initial p /\ dangling p = false /\
    frames p !! 0%nat = Some (Frame 0 false Value).
Proof. by apply (submitTask_in_time (fun _ => Returned)). Defined.

Lemma returned_future_is_settled_witness :
  exists p, star (submit_step (fun _ => Returned)) submit_initial p /\
    forall p', star (submit_step (fun _ => Returned)) p p' -> frames p' !! 0%nat = Some (Frame 0 false Broken).
Proof.
  destruct (submitTask_dangles (fun _ => Returned)) as (p & Hr & _ & Hf). exists p. split; [exact Hr|].
  intros p' Hr'. destruct (returned_future_is_settled (fun _ => Returned) p p' 0 (Frame 0 false Broken)) as [H _];
    [exact Hr|exact Hf|reflexivity|exact Hr'|exact H].
Defined.
