(* ===== verification/Address.v ===== *)
(** * Network addresses (src/network/NetworkDefinitions.cpp, headers/network/NetworkDefinitions.h)

    An [IPv4] is a 32-bit integer whose bytes in memory are the address in network order, so on
    the little-endian platforms the first byte of the address is the lowest one and a netmask
    of 24 bits is [0x00FFFFFF].  The conversions from and to text are those of the C library
    ([inet_pton], [inet_ntop]), which are parameters; a [MacAddress] is printed by the code. *)

From S2P Require Import Prelude.

(** ** IPv4 *)

Definition IPv4NetMask := Z.
Definition NETMASK_32BIT : IPv4NetMask := 4294967295.
Definition NETMASK_24BIT : IPv4NetMask := 16777215.
Definition NETMASK_16BIT : IPv4NetMask := 65535.
Definition NETMASK_8BIT : IPv4NetMask := 255.

Record IPv4 := MkIPv4 { value : Z }.

(** [~netmask] on 32 bits. *)
Definition bitnot (m : Z) : Z := u32 (Z.lnot m).

Definition matchSubnet (this subnet : IPv4) (netmask : Z) : bool :=
  Z.land (value this) netmask =? Z.land (value subnet) netmask.
Definition getSubnet (this : IPv4) (netmask : Z) : IPv4 := MkIPv4 (Z.land (value this) netmask).
Definition broadcastAddress (this : IPv4) (netmask : Z) : IPv4 :=
  MkIPv4 (Z.lor (value this) (bitnot netmask)).
Definition isBroadcastAddress (this : IPv4) (netmask : Z) : bool :=
  Z.land (value this) (bitnot netmask) =? bitnot netmask.
Definition ipv4_eqb (this other : IPv4) : bool := value this =? value other.

(** [toInAddr]: the four bytes handed to the kernel. *)
Definition toInAddr (this : IPv4) : list Z := le_bytes 4 (value this).

Section Text.
(** [inet_pton(AF_INET, ..)] and [inet_ntop(AF_INET, ..)], and their IPv6 versions. *)
Context (inet_pton4 : string -> option (list Z)) (inet_ntop4 : list Z -> string).
Context (inet_pton6 : string -> option (list Z)) (inet_ntop6 : list Z -> string).

(** The constructor from text ignores the result of [inet_pton], which stores nothing when the
    text is not an address: the member, not initialised, keeps its [garbage]. *)
Definition IPv4_of_string (garbage : Z) (strValue : string) : IPv4 :=
  match inet_pton4 strValue with
  | Some bytes => MkIPv4 (le_val bytes)
  | None => MkIPv4 garbage
  end.
Definition IPv4_toString (this : IPv4) : string := inet_ntop4 (le_bytes 4 (value this)).

(** ** IPv6: sixteen bytes *)

Definition IPv6 := list Z.
Definition IPv6_of_string (garbage : IPv6) (strValue : string) : IPv6 :=
  match inet_pton6 strValue with Some bytes => bytes | None => garbage end.
Definition IPv6_toString (this : IPv6) : string := inet_ntop6 this.
End Text.

Definition toIn6Addr (this : IPv6) : list Z := this.
Definition ipv6_eqb (this other : IPv6) : bool := bool_decide (this = other).

(** The default constructor zeroes the array; the loop zeroes positions 4 to 15 again, and the
    address is copied over the first four. *)
Fixpoint zero_from (n : nat) (i : nat) (l : list Z) : list Z :=
  match n with O => l | S n' => zero_from n' (S i) (<[i := 0]> l) end.
Definition fromIPv4 (ipv4 : IPv4) : IPv6 :=
  let ipv6 := zero_from 12 4 (replicate 16 0) in
  le_bytes 4 (value ipv4) ++ drop 4 ipv6.

(** ** MacAddress *)

Definition hex_digit (d : Z) : Ascii.ascii :=
  Ascii.ascii_of_N (Z.to_N (if d <? 10 then 48 + d else 87 + d)).
(** [std::hex << std::setfill('0') << std::setw(2)] of a byte. *)
Definition hex2 (b : Z) : string :=
  String (hex_digit (b / 16)) (String (hex_digit (b mod 16)) EmptyString).

Fixpoint mac_bytes (n : nat) (tempValue : Z) : string :=
  match n with
  | O => hex2 (Z.land tempValue 255)
  | S n' => hex2 (Z.land tempValue 255) +:+ ":" +:+ mac_bytes n' (Z.shiftr tempValue 8)
  end.
Definition mac_toString (v : Z) : string := mac_bytes 5 v.

(** ** Subnets *)

Lemma bitnot_testbit m i : 0 <= i < 32 -> Z.testbit (bitnot m) i = negb (Z.testbit m i).
Proof.
  intros. unfold bitnot, wrap. rewrite Z.mod_pow2_bits_low, Z.lnot_spec by lia. done.
Qed.
Lemma bitnot_testbit_high m i : 32 <= i -> Z.testbit (bitnot m) i = false.
Proof. intros. unfold bitnot, wrap. apply Z.mod_pow2_bits_high. lia. Qed.

Lemma in_u_testbit w z i : 0 <= w -> in_u w z -> w <= i -> Z.testbit z i = false.
Proof.
  intros Hw Hz Hi. rewrite <-(wrap_small w z Hz). unfold wrap.
  apply Z.mod_pow2_bits_high. lia.
Qed.

Lemma land_bitnot m : Z.land (bitnot m) m = 0.
Proof.
  apply Z.bits_inj'. intros i Hi. rewrite Z.land_spec, Z.bits_0.
  destruct (Z.lt_ge_cases i 32).
  - rewrite bitnot_testbit by lia. by destruct (Z.testbit m i).
  - by rewrite bitnot_testbit_high.
Qed.

Lemma land_lor_mask a m : Z.land (Z.lor a (bitnot m)) m = Z.land a m.
Proof. by rewrite Z.land_lor_distr_l, land_bitnot, Z.lor_0_r. Qed.

(** An address splits into its masked part and the rest. *)
Lemma lor_mask a m : in_u 32 a -> Z.lor a (bitnot m) = Z.lor (Z.land a m) (bitnot m).
Proof.
  intros Ha. apply Z.bits_inj'. intros i Hi. rewrite !Z.lor_spec, Z.land_spec.
  destruct (Z.lt_ge_cases i 32).
  - rewrite bitnot_testbit by lia. by destruct (Z.testbit a i), (Z.testbit m i).
  - by rewrite bitnot_testbit_high, (in_u_testbit 32 a) by (done || lia).
Qed.

Lemma split_mask a m : in_u 32 a -> a = Z.lor (Z.land a m) (Z.land a (bitnot m)).
Proof.
  intros Ha. apply Z.bits_inj'. intros i Hi. rewrite Z.lor_spec, !Z.land_spec.
  destruct (Z.lt_ge_cases i 32).
  - rewrite bitnot_testbit by lia. by destruct (Z.testbit a i), (Z.testbit m i).
  - by rewrite (in_u_testbit 32 a) by (done || lia).
Qed.

Lemma ipv4_eq (a b : IPv4) : a = b <-> value a = value b.
Proof. destruct a, b; simpl. split; congruence. Qed.

(** C29. Subnets are classes: for any netmask, an address is in the subnet of another exactly when
    both have the same subnet address and the same broadcast address; the broadcast address
    of a subnet is in it, is recognised as a broadcast address, and is the only one there. *)
Theorem subnet_has_one_broadcast (a b : IPv4) m :
  in_u 32 (value a) -> in_u 32 (value b) -> in_u 32 m ->
  (matchSubnet a b m = true <-> getSubnet a m = getSubnet b m) /\
  (matchSubnet a b m = true <-> broadcastAddress a m = broadcastAddress b m) /\
  matchSubnet (broadcastAddress a m) a m = true /\
  (matchSubnet b a m = true /\ isBroadcastAddress b m = true <-> b = broadcastAddress a m).
Proof.
  intros Ha Hb Hm. unfold matchSubnet, isBroadcastAddress, getSubnet.
  rewrite !Z.eqb_eq, !ipv4_eq. simpl. split; [done|]. split; [|split].
  - rewrite (lor_mask (value a)), (lor_mask (value b)) by done. split; [congruence|].
    intros H. apply (f_equal (fun z => Z.land z m)) in H.
    by rewrite !land_lor_mask, <-!Z.land_assoc, !Z.land_diag in H.
  - apply land_lor_mask.
  - split.
    + intros [Hs Hbr]. rewrite (split_mask (value b) m Hb), Hs, Hbr. symmetry. by apply lor_mask.
    + intros ->. rewrite land_lor_mask. split; [done|].
      apply Z.bits_inj'. intros i _. rewrite Z.land_spec, Z.lor_spec.
      by destruct (Z.testbit (value a) i), (Z.testbit (bitnot m) i).
Qed.

Lemma take_le_bytes k n z : (k <= n)%nat -> take k (le_bytes n z) = le_bytes k z.
Proof.
  revert n z. induction k as [|k IH]; intros [|n] z H; try (done || lia).
  simpl. rewrite IH; [done|lia].
Qed.

Lemma le_bytes_inj k a b :
  le_bytes k a = le_bytes k b <-> a mod 256 ^ Z.of_nat k = b mod 256 ^ Z.of_nat k.
Proof.
  split; intros H.
  - by rewrite <-!le_val_le_bytes, H.
  - revert a b H. induction k as [|k IH]; intros a b H; [done|].
    rewrite Nat2Z.inj_succ, Z.pow_succ_r in H by lia. simpl.
    assert (Hk : 0 < 256 ^ Z.of_nat k) by (apply Z.pow_pos_nonneg; lia).
    rewrite !Z.rem_mul_r in H by lia.
    pose proof (Z.mod_pos_bound a 256 ltac:(lia)). pose proof (Z.mod_pos_bound b 256 ltac:(lia)).
    pose proof (Z.mod_pos_bound (a / 256) _ Hk). pose proof (Z.mod_pos_bound (b / 256) _ Hk).
    f_equal; [lia|]. apply IH. lia.
Qed.

(** The netmasks the header defines, with their length in bytes. *)
Definition netmasks : list (nat * IPv4NetMask) :=
  [(4%nat, NETMASK_32BIT); (3%nat, NETMASK_24BIT); (2%nat, NETMASK_16BIT); (1%nat, NETMASK_8BIT)].

(** The netmask constants fit the representation: with the mask of [k] bytes, two addresses
    are in the same subnet exactly when the first [k] bytes of their dotted forms agree. *)
Theorem netmask_compares_prefix k m (a b : IPv4) :
  (k, m) ∈ netmasks ->
  matchSubnet a b m = true <-> take k (toInAddr a) = take k (toInAddr b).
Proof.
  intros Hin. assert (Hk : (k <= 4)%nat /\ m = Z.ones (8 * Z.of_nat k)).
  { unfold netmasks in Hin. rewrite !elem_of_cons in Hin. by repeat destruct Hin as [[= -> ->]|Hin];
      [split; [lia|done]..|apply not_elem_of_nil in Hin]. }
  destruct Hk as [Hk ->]. unfold matchSubnet, toInAddr.
  rewrite Z.eqb_eq, !Z.land_ones, !take_le_bytes, le_bytes_inj by lia.
  by rewrite Z.pow_mul_r by lia.
Qed.

(** ** MacAddress *)

Definition hex_value (c : Ascii.ascii) : Z :=
  let n := Z.of_N (Ascii.N_of_ascii c) in if n <? 58 then n - 48 else n - 87.

Lemma hex_digit_value d : 0 <= d < 16 -> hex_value (hex_digit d) = d.
Proof.
  intros Hd. assert (Hall : Forall (fun d => hex_value (hex_digit d) = d) (seqZ 0 16)).
  { vm_compute. by repeat constructor. }
  rewrite Forall_forall in Hall. apply Hall. apply elem_of_seqZ. lia.
Qed.

Lemma hex2_app_inj a b s t :
  is_byte a -> is_byte b -> hex2 a +:+ s = hex2 b +:+ t -> a = b /\ s = t.
Proof.
  unfold in_u, hex2. change (2 ^ 8) with 256. simpl. intros Ha Hb [= H1 H2 Hs].
  apply (f_equal hex_value) in H1. apply (f_equal hex_value) in H2.
  rewrite !hex_digit_value in H1 by (Z.to_euclidean_division_equations; lia).
  rewrite !hex_digit_value in H2 by (Z.to_euclidean_division_equations; lia).
  split; [Z.to_euclidean_division_equations; lia|done].
Qed.

Lemma land_255 v : Z.land v 255 = v mod 256.
Proof. change 255 with (Z.ones 8). by rewrite Z.land_ones. Qed.
Lemma shiftr_8 v : Z.shiftr v 8 = v / 256.
Proof. by rewrite Z.shiftr_div_pow2. Qed.

Lemma mod_byte v : is_byte (v mod 256).
Proof. unfold in_u. change (2 ^ 8) with 256. apply Z.mod_pos_bound. lia. Qed.

Lemma mac_bytes_inj n v w :
  mac_bytes n v = mac_bytes n w <-> le_bytes (S n) v = le_bytes (S n) w.
Proof.
  revert v w. induction n as [|n IH]; intros v w; cbn [mac_bytes le_bytes]; rewrite !land_255.
  - split; intros H; [|congruence].
    destruct (hex2_app_inj (v mod 256) (w mod 256) "" "") as [-> _]; try apply mod_byte; [|done].
    by rewrite H.
  - rewrite !shiftr_8. split; intros H.
    + apply hex2_app_inj in H as [-> H]; try apply mod_byte. injection H as H.
      apply IH in H. cbn [le_bytes] in H. by rewrite H.
    + injection H as H1 H2. rewrite H1. do 2 f_equal. apply IH. cbn [le_bytes]. congruence.
Qed.

(** The text of a MAC address determines its six bytes: two addresses print the same exactly
    when they agree on their low 48 bits, and the text is always seventeen characters long. *)
Theorem mac_text_faithful v w :
  (mac_toString v = mac_toString w <-> v mod 2 ^ 48 = w mod 2 ^ 48) /\
  String.length (mac_toString v) = 17%nat.
Proof.
  split; [|done]. unfold mac_toString. rewrite mac_bytes_inj, le_bytes_inj. done.
Qed.

(** An address goes to text and back when the library's two conversions do. *)
Lemma ipv4_text_roundtrip pton ntop garbage (a : IPv4) :
  (forall bytes, length bytes = 4%nat -> Forall is_byte bytes -> pton (ntop bytes) = Some bytes) ->
  in_u 32 (value a) -> IPv4_of_string pton garbage (IPv4_toString ntop a) = a.
Proof.
  intros Hlib Ha. unfold IPv4_of_string, IPv4_toString.
  rewrite Hlib by (apply length_le_bytes || apply le_bytes_is_byte).
  apply ipv4_eq. exact (le_val_le_bytes_small 4 (value a) Ha).
Qed.

(** Text that is not an address goes unnoticed: the constructor returns normally, with
    whatever the uninitialised member held. *)
Theorem invalid_text_unnoticed pton garbage text :
  pton text = None -> value (IPv4_of_string pton garbage text) = garbage.
Proof. intros H. unfold IPv4_of_string. by rewrite H. Qed.

(** [fromIPv4] puts the four bytes of the address first and zeroes after them. *)
Lemma fromIPv4_layout a : fromIPv4 a = toInAddr a ++ replicate 12 0.
Proof. reflexivity. Qed.

(** ** Witnesses *)

Lemma subnet_has_one_broadcast_witness :
  let a := MkIPv4 (le_val [192; 168; 1; 7]) in let b := MkIPv4 (le_val [192; 168; 1; 255]) in
  isBroadcastAddress b NETMASK_24BIT = true /\ matchSubnet b a NETMASK_24BIT = true /\
  b = broadcastAddress a NETMASK_24BIT.
Proof.
  intros a b. split; [done|]. split; [done|].
  by apply (subnet_has_one_broadcast a b NETMASK_24BIT).
Defined.

Lemma netmask_compares_prefix_witness :
  matchSubnet (MkIPv4 (le_val [10; 1; 2; 3])) (MkIPv4 (le_val [10; 1; 9; 9])) NETMASK_16BIT = true.
Proof. apply (netmask_compares_prefix 2); [right; right; left|reflexivity]. Defined.

Lemma invalid_text_unnoticed_witness :
  value (IPv4_of_string (fun _ => None) 305419896 "not an address") = 305419896.
Proof. by apply (invalid_text_unnoticed (fun _ => None)). Defined.

Example mac_text : mac_toString (le_val [0; 27; 68; 17; 58; 183]) = "00:1b:44:11:3a:b7".
Proof. reflexivity. Qed.
