(* ===== verification/TcpSocket.v ===== *)
(** * TCP sockets (src/network/TcpSocket.cpp, src/network/TcpListeningSocket.cpp, headers/network/)

    The POSIX branches.  The kernel is the environment: every call of the socket interface
    answers with its return value and what it stored.  File descriptors are integers; 0 is one of them,
    and the class takes it for none. *)

From S2P Require Import Prelude Numbers Ownership Address.

(** ** System calls *)

Inductive family := AF_INET | AF_INET6.
#[global] Instance family_eq_dec : EqDecision family.
Proof. solve_decision. Defined.

Inductive SocketStatus := CONNECTED | CLOSED | SS_ERROR.
#[global] Instance SocketStatus_eq_dec : EqDecision SocketStatus.
Proof. solve_decision. Defined.

Inductive net_call :=
  | Socket (f : family)
  | Connect (fd : Z) (f : family) (port : Z) (addr : list Z)
  | SendTo (fd : Z) (data : list Z)
  | Recv (fd size : Z) (waitall : bool)
  | CloseFd (fd : Z)
  | Getsockopt (fd level optname size : Z)
  | Setsockopt (fd level optname : Z) (value : list Z)
  | Getpeername (fd : Z)
  | Bind (fd : Z) (f : family) (port : Z)
  | Listen (fd backlog : Z)
  | Accept (fd : Z).

(** [recv] stores bytes, [getsockopt] an integer and [getpeername] an address, if they store
    anything. *)
Definition net_reply (c : net_call) : Type :=
  match c with
  | Recv _ _ _ => Z * list Z
  | Getsockopt _ _ _ _ => Z * option Z
  | Getpeername _ => Z * option Z
  | _ => Z
  end.

Definition net : Sys := {| call := net_call; reply := net_reply |}.
#[export] Existing Instance net.
Abbreviation netcall := (@call net).

Definition SOL_SOCKET : Z := 1.
Definition SO_ERROR : Z := 4.

(** [htons]: the two bytes swapped. *)
Definition htons (port : Z) : Z := port mod 256 * 256 + port / 256.

(** The conversion of the kernel's [ssize_t] to [int]. *)
Definition to_int (z : Z) : Z := c_cast int_t z.

(** ** TcpSocket *)

Record socket := Sock {
  sockfd : Z;
  socketStatus : SocketStatus;
  sin_family : family;
  flagReceptionBlocking : bool }.

Definition set_fd (fd : Z) (s : socket) : socket :=
  Sock fd (socketStatus s) (sin_family s) (flagReceptionBlocking s).
Definition set_status (st : SocketStatus) (s : socket) : socket :=
  Sock (sockfd s) st (sin_family s) (flagReceptionBlocking s).
Definition setReceptionBlocking (rb : bool) (s : socket) : socket :=
  Sock (sockfd s) (socketStatus s) (sin_family s) rb.

Abbreviation tcp := (prog socket).

(** The constructor, on the object its member initialisers make. *)
Definition unconnected : socket := Sock 0 CLOSED AF_INET false.
Definition TcpSocket (f : family) : tcp unit :=
  fd ← sys (Socket f : netcall);
  _ ← modify (fun _ => Sock fd CLOSED f false);
  if fd <? 0 then throw "Invalid sockfd" else mret tt.

(** The move constructor: the new object and the source. *)
Definition move (other : socket) : socket * socket := (other, set_fd 0 other).

Definition getSockOptions (level optname size : Z) : tcp (bool * option Z) :=
  this ← get;
  '(success, out) ← sys (Getsockopt (sockfd this) level optname size : netcall);
  mret (success =? 0, out).

Definition setSockOptions (level optname : Z) (value : list Z) : tcp bool :=
  this ← get;
  success ← sys (Setsockopt (sockfd this) level optname value : netcall);
  mret (success =? 0).

(** [errorCode] is not initialised: when [getsockopt] stores nothing it is read as it is. *)
Definition isConnected : tcp bool :=
  this ← get;
  if bool_decide (socketStatus this <> CONNECTED) then mret false
  else
    '(_, out) ← getSockOptions SOL_SOCKET SO_ERROR 4;
    match out with
    | Some errorCode => mret (0 <=? errorCode)
    | None => lift (UB "errorCode is not initialised")
    end.

(** The end of all three [connectTo]. *)
Definition connect_and_check (addr : list Z) (port : Z) : tcp bool :=
  this ← get;
  connectionStatus ← sys (Connect (sockfd this) (sin_family this) (htons port) addr : netcall);
  _ ← modify (set_status (if connectionStatus =? 0 then CONNECTED else SS_ERROR));
  isConnected.

Definition connectTo_ipv4 (ip : IPv4) (port : Z) : tcp bool :=
  c ← isConnected;
  if (c : bool) then throw "Already connected socket"
  else
    this ← get;
    if bool_decide (sin_family this <> AF_INET)
    then throw "Trying to connect to a IPv4 using a IPv6 socket"
    else connect_and_check (toInAddr ip) port.

Definition connectTo_ipv6 (ip : IPv6) (port : Z) : tcp bool :=
  c ← isConnected;
  if (c : bool) then throw "Already connected socket"
  else
    this ← get;
    if bool_decide (sin_family this <> AF_INET6)
    then throw "Trying to connect to a IPv6 using a IPv4 socket"
    else connect_and_check (toIn6Addr ip) port.

(** The address as text, converted for the family of the socket. *)
Definition connectTo (pton4 pton6 : string -> option (list Z)) (garbage4 : Z) (garbage6 : IPv6)
  (ip : string) (port : Z) : tcp bool :=
  c ← isConnected;
  if (c : bool) then throw "Already connected socket"
  else
    this ← get;
    connect_and_check
      (match sin_family this with
       | AF_INET => toInAddr (IPv4_of_string pton4 garbage4 ip)
       | AF_INET6 => toIn6Addr (IPv6_of_string pton6 garbage6 ip)
       end) port.

Definition send (buffer : list Z) : tcp Z :=
  if Z.of_nat (length buffer) >? INT_MAX then throw "Size too big"
  else
    c ← isConnected;
    if negb c then throw "It is impossible to send something using a non connected socket"
    else
      this ← get;
      r ← sys (SendTo (sockfd this) buffer : netcall);
      let actuallySent := to_int r in
      if actuallySent <? 0 then
        _ ← modify (set_status SS_ERROR);
        throw "Error sending socket data"
      else mret (u32 actuallySent).

Definition receive (size : Z) : tcp (Z * list Z) :=
  if size >? INT_MAX then throw "Receiving too much"
  else
    c ← isConnected;
    if negb c then throw "It is impossible to send something using a non connected socket"
    else
      this ← get;
      '(r, bytes) ← sys (Recv (sockfd this) size (flagReceptionBlocking this) : netcall);
      let actuallyReceived := to_int r in
      if actuallyReceived <? 0 then
        _ ← modify (set_status SS_ERROR);
        throw "Error receiving socket data"
      else mret (u32 actuallyReceived, bytes).

Definition close : tcp unit :=
  this ← get;
  _ ← (if 0 <? sockfd this then
         _ ← sys (CloseFd (sockfd this) : netcall);
         modify (set_fd 0)
       else mret tt);
  modify (set_status CLOSED).

Definition destroy : tcp unit := close.

Definition fromSockfd (fd : Z) (st : SocketStatus) (f : family) : res socket :=
  if fd <? 0 then Throw "Invalid sockfd" else Ok (Sock fd st f false).

Definition getPeerIPv4 : tcp IPv4 :=
  this ← get;
  if decide (sin_family this = AF_INET) then
    '(r, out) ← sys (Getpeername (sockfd this) : netcall);
    if r <? 0 then throw "Error in getpeername(...)"
    else match out with
         | Some addr => mret (MkIPv4 addr)
         | None => lift (UB "addr is not initialised")
         end
  else throw "Socket is IPv6".

(** ** TcpListeningSocket *)

Record listener := Listener { l_sockfd : Z; listening : bool; l_family : family }.

Definition DEFAULT_BACKLOG : Z := 100.
Definition TcpListeningSocket (f : family) : listener := Listener 0 false f.
Definition l_set_fd (fd : Z) (l : listener) : listener := Listener fd (listening l) (l_family l).
Definition l_set_listening (b : bool) (l : listener) : listener :=
  Listener (l_sockfd l) b (l_family l).

Definition listenTo (port backlog : Z) : prog listener bool :=
  this ← get;
  if listening this then throw "Socket already in listening state"
  else
    fd ← sys (Socket (l_family this) : netcall);
    _ ← modify (l_set_fd fd);
    if fd <? 0 then throw "socket(...) failed"
    else
      errorCode ← sys (Bind fd (l_family this) (htons port) : netcall);
      if errorCode <? 0 then
        _ ← sys (CloseFd fd : netcall); throw "bind(...) failed"
      else
        errorCode ← sys (Listen fd backlog : netcall);
        if errorCode <? 0 then
          _ ← sys (CloseFd fd : netcall); throw "listen(...) failed"
        else
          _ ← modify (l_set_listening true);
          mret true.

Definition acceptRequest : prog listener socket :=
  this ← get;
  newsockfd ← sys (Accept (l_sockfd this) : netcall);
  if newsockfd <? 0 then throw "accept(...) failed"
  else lift (fromSockfd newsockfd CONNECTED (l_family this)).

Definition l_close : prog listener unit :=
  this ← get;
  _ ← (if 0 <? l_sockfd this then
         _ ← sys (CloseFd (l_sockfd this) : netcall);
         modify (l_set_fd 0)
       else mret tt);
  modify (l_set_listening false).

Definition l_destroy : prog listener unit := l_close.

(** ** Running the operations of an owner *)

Inductive op :=
  | OConnect4 (ip : IPv4) (port : Z)
  | OConnect6 (ip : IPv6) (port : Z)
  | OSend (data : list Z)
  | OReceive (size : Z)
  | OClose
  | OIsConnected
  | OPeer
  | OBlocking (rb : bool)
  | OGetOpt (level optname size : Z)
  | OSetOpt (level optname : Z) (value : list Z).

Definition run_op (o : op) : tcp unit :=
  match o with
  | OConnect4 ip port => _ ← connectTo_ipv4 ip port; mret tt
  | OConnect6 ip port => _ ← connectTo_ipv6 ip port; mret tt
  | OSend data => _ ← send data; mret tt
  | OReceive size => _ ← receive size; mret tt
  | OClose => close
  | OIsConnected => _ ← isConnected; mret tt
  | OPeer => _ ← getPeerIPv4; mret tt
  | OBlocking rb => modify (setReceptionBlocking rb)
  | OGetOpt level optname size => _ ← getSockOptions level optname size; mret tt
  | OSetOpt level optname value => _ ← setSockOptions level optname value; mret tt
  end.

(** From the constructor to the destructor. *)
Definition life (f : family) (ops : list op) : tcp unit :=
  _ ← TcpSocket f; lifetime run_op destroy ops.

(** ** Who closes what *)

(** Every answer that is not negative is a descriptor. *)
Definition descriptor (fd : Z) : list Z := if 0 <=? fd then [fd] else [].
#[export] Instance net_resources : @Resources net Z := {|
  acquired c := match c as c return net_reply c -> list Z with
                | Socket _ | Accept _ => descriptor
                | _ => fun _ => []
                end;
  released c := match c with CloseFd fd => [fd] | _ => [] end |}.

(** For the class, 0 stands for no descriptor: it is never given back.  [lost] are those. *)
Definition owned (s : socket) : list Z := if 0 <? sockfd s then [sockfd s] else [].

Definition holds (lost : list Z) (s : socket) (held : list Z) : Prop := held = owned s ++ lost.
Abbreviation keeps lost p := (triple (holds lost) p (fun _ => holds lost) (holds lost)).

Ltac holding := intros; destruct_and?; unfold holds, owned in *; simpl in *; subst; try done.

Create HintDb keeps discriminated.
#[local] Hint Constants Opaque : keeps.

(** Code made of reads, writes of the other fields, neutral calls and exceptions. *)
Ltac keeping :=
  repeat (intros; cbv beta;
    first
      [ solve [eapply triple_weaken; [solve [eauto 1 with keeps] | holding | holding | holding]]
      | lazymatch goal with
        | |- triple _ (mret _) _ _ => apply triple_ret; solve [holding]
        | |- triple _ (throw _) _ _ => apply triple_throw; solve [holding]
        | |- triple _ (lift _) _ _ => apply triple_lift; solve [holding]
        | |- triple _ (modify _) _ _ => apply triple_modify; solve [holding]
        | |- triple _ (sys _) _ _ => sys_neutral; solve [holding]
        | |- triple _ (get ≫= _) _ _ => apply triple_get
        | |- triple _ (_ ≫= _) _ (holds ?l) => apply (triple_bind _ _ _ (fun _ => holds l))
        | |- triple _ _ _ _ => case_match
        end ]).

Section Lost.
Context (lost : list Z).

Lemma tcp_keeps_isConnected : keeps lost isConnected.
Proof. unfold isConnected, getSockOptions. keeping. Qed.
#[local] Hint Resolve tcp_keeps_isConnected : keeps.

Lemma tcp_keeps_connect addr port : keeps lost (connect_and_check addr port).
Proof. unfold connect_and_check. keeping. Qed.
#[local] Hint Resolve tcp_keeps_connect : keeps.

(** [close] releases what the socket holds. *)
Lemma tcp_close_releases :
  triple (holds lost) close (fun _ s held => held = lost /\ holds lost s held) (fun _ _ => False).
Proof.
  apply triple_get. intros s0. destruct (0 <? sockfd s0) eqn:Hfd.
  - apply (triple_bind _ _ _ (fun _ s held => held = lost /\ sockfd s = 0)).
    + apply (triple_bind _ _ _ (fun _ s held => held = lost)).
      * sys_release (sockfd s0); [done|done|]. intros _ s held [-> ->]. exists lost.
        split; [|done]. unfold owned. by rewrite Hfd.
      * intros _. by apply triple_modify.
    + intros _. apply triple_modify. intros s held [-> Hs]. split; [done|].
      unfold holds, owned. simpl. by rewrite Hs.
  - apply (triple_bind _ _ _ (fun _ s held => held = lost /\ sockfd s = sockfd s0)).
    + apply triple_ret. intros s held [-> ->]. unfold owned. by rewrite Hfd.
    + intros _. apply triple_modify. intros s held [-> Hs]. split; [done|].
      unfold holds, owned. simpl. by rewrite Hs, Hfd.
Qed.

Lemma tcp_keeps_close : keeps lost close.
Proof.
  eapply triple_weaken; [apply tcp_close_releases|done| |done]. by intros _ s held [_ ?].
Qed.
#[local] Hint Resolve tcp_keeps_close : keeps.

Lemma tcp_keeps_op o : keeps lost (run_op o).
Proof.
  destruct o; simpl; unfold connectTo_ipv4, connectTo_ipv6, send, receive, getPeerIPv4,
    getSockOptions, setSockOptions; keeping.
Qed.

Lemma socket_lifetime s ops :
  triple (fun s' held => s' = s /\ holds lost s' held) (lifetime run_op destroy ops)
    (fun _ _ held => held = lost) (fun _ held => held = lost).
Proof.
  eapply triple_weaken.
  { apply (triple_lifetime run_op destroy (holds lost) ops (fun _ held => held = lost)); [apply tcp_keeps_op|].
    eapply triple_weaken; [apply tcp_close_releases|done| |done]. by intros _ s' held [? _]. }
  - by intros s' held [_ ?].
  - done.
  - done.
Qed.
End Lost.

(** Whatever has been lost. *)
Definition holds_some (s : socket) (held : list Z) : Prop := exists n, holds (replicate n 0) s held.

Lemma keeps_some {A} (p : tcp A) : (forall lost, keeps lost p) -> triple holds_some p (fun _ => holds_some) holds_some.
Proof.
  intros Hp E s h held r s' h' [n Hn] H.
  destruct (Hp (replicate n 0) _ _ _ _ _ _ _ Hn H) as (cs & held' & -> & Hb & Hx).
  exists cs, held'. split_and!; try done. by destruct r; exists n.
Qed.

Lemma close_some :
  triple holds_some close (fun _ _ held => exists n, held = replicate n 0) (fun _ _ => False).
Proof.
  intros E s h held r s' h' [n Hn] H.
  destruct (tcp_close_releases (replicate n 0) _ _ _ _ _ _ _ Hn H) as (cs & held' & -> & Hb & Hx).
  exists cs, held'. split_and!; try done. destruct r; try done. destruct Hx as [-> _]. by exists n.
Qed.

Lemma constructor_holds f :
  triple (fun _ held => held = []) (TcpSocket f) (fun _ => holds_some) (fun _ held => held = []).
Proof.
  apply (triple_bind _ _ _ (fun fd _ held => held = descriptor fd)).
  - sys_acquire; [done|]. intros fd s held ->. simpl. by rewrite app_nil_r.
  - intros fd. apply (triple_bind _ _ _ (fun _ s held => held = descriptor fd /\ sockfd s = fd)).
    + apply triple_modify. by intros s held ->.
    + intros _. unfold descriptor. destruct (fd <? 0) eqn:Hfd; bools.
      * apply triple_throw. intros s held [-> _]. by rewrite if_false by (apply Z.leb_gt; lia).
      * apply triple_ret. intros s held [-> Hs]. rewrite if_true by (apply Z.leb_le; lia).
        unfold holds_some, holds, owned. rewrite Hs. destruct (Z.ltb_spec 0 fd); [by exists 0%nat|].
        exists 1%nat. simpl. f_equal. lia.
Qed.

(** What the constructor does with the kernel's answer. *)
Lemma constructor_run f (E : @env net) (fd : Z) :
  E [] (Socket f : netcall) = fd ->
  TcpSocket f E unconnected [] =
    (if fd <? 0 then Throw "Invalid sockfd" else Ok tt, Sock fd CLOSED f false, [Socket f : netcall]) /\
  forall cs, acquires E [] ([Socket f : netcall] ++ cs) = descriptor fd ++ acquires E [Socket f : netcall] cs.
Proof.
  intros <-. split; [|done]. unfold TcpSocket, mbind, prog_bind, sys, modify.
  by destruct (_ <? 0).
Qed.

(** C30. Who closes what, whatever the kernel answers: over the life of a socket, from the
    constructor through any sequence of operations (connects, sends, receives, closes and queries, in
    any order, exceptions included) to the destructor, every descriptor opened is closed exactly
    once and nothing else is; except for descriptor 0, which the class takes for none and never
    closes when [socket] answers it (as it does in a process without standard input). *)
Theorem descriptor_closed_once f ops (E : @env net) r s h :
  life f ops E unconnected [] = (r, s, h) ->
  acquires E [] h ≡ₚ releases h ++ (if E [] (Socket f : netcall) =? 0 then [0] else []).
Proof.
  destruct (constructor_run f E _ eq_refl) as [Hc Ha]. change (reply _) with Z in *.
  set (fd := E [] (Socket f : netcall)) in *. change (reply _) with Z in fd. clearbody fd. unfold life.
  destruct (Z.ltb_spec fd 0).
  - rewrite (bind_throw _ _ _ _ _ _ _ _ Hc). intros [= <- <- <-]. etrans; [by rewrite <-(app_nil_r [_]), Ha|].
    unfold descriptor.
    by rewrite (if_false (fd =? 0)), (if_false (0 <=? fd)) by (apply Z.eqb_neq || apply Z.leb_gt; lia).
  - rewrite (bind_ok _ _ _ _ _ _ _ _ Hc). set (s0 := Sock fd CLOSED f false). intros Hl.
    set (lost := if fd =? 0 then [0] else []).
    destruct (socket_lifetime lost s0 ops E s0 [Socket f : netcall] (owned s0 ++ lost) r s h)
      as (cs & held & -> & Hb & Hx); [done|done|].
    assert (held = lost) as -> by (by destruct r). rewrite Ha. change (releases (_ ++ cs)) with (releases cs).
    rewrite <-Hb, (Permutation_app_comm (descriptor fd)). apply Permutation_app_head.
    unfold owned, descriptor, lost. simpl.
    destruct (Z.ltb_spec 0 fd), (Z.leb_spec 0 fd), (Z.eqb_spec fd 0); simpl; try lia; try done. by subst.
Qed.

(** Moving hands the descriptor over: whatever is done with the source afterwards, its
    destructor included, its descriptor is closed exactly once, by the new object. *)
Theorem move_transfers_descriptor E s h ops r s' h' r2 s2 h2 :
  let '(new, source) := move s in
  lifetime run_op destroy ops E source h = (r, s', h') -> destroy E new h' = (r2, s2, h2) ->
  exists cs, h2 = h ++ cs /\ releases cs ≡ₚ acquires E h cs ++ owned s.
Proof.
  simpl. intros H1 H2.
  destruct (socket_lifetime [] (set_fd 0 s) ops E (set_fd 0 s) h [] r s' h') as
    (cs1 & held1 & -> & Hb1 & Hx1); [done|done|].
  destruct (tcp_close_releases [] E s (h ++ cs1) (owned s ++ []) r2 s2 h2) as
    (cs2 & held2 & -> & Hb2 & Hx2); [done|done|].
  assert (held1 = []) as -> by (by destruct r). assert (held2 = []) as -> by (by destruct r2, Hx2).
  exists (cs1 ++ cs2). rewrite app_assoc, releases_app, acquires_app. split; [done|].
  rewrite !app_nil_r in *. by rewrite <-Hb1, <-Hb2, <-app_assoc.
Qed.

(** ** The state machine of a connection *)

(** The query [isConnected] makes. *)
Definition so_error (s : socket) : netcall := Getsockopt (sockfd s) SOL_SOCKET SO_ERROR 4.

Lemma bind_getSockOptions {A} level optname size (f : bool * option Z -> tcp A)
    (E : @env net) s h r out :
  let c := Getsockopt (sockfd s) level optname size : netcall in
  E h c = (r, out) ->
  (getSockOptions level optname size ≫= f) E s h = f (r =? 0, out) E s (h ++ [c]).
Proof.
  intros c Hc. apply bind_ok. unfold getSockOptions. rewrite bind_get.
  unfold mbind, prog_bind, sys. fold c. by rewrite Hc.
Qed.

Lemma isConnected_no (E : @env net) s h :
  socketStatus s <> CONNECTED -> isConnected E s h = (Ok false, s, h).
Proof.
  intros Hs. unfold isConnected. by rewrite bind_get, if_true by (by apply bool_decide_true).
Qed.

Lemma isConnected_yes (E : @env net) s h r errorCode :
  socketStatus s = CONNECTED -> E h (so_error s) = (r, Some errorCode) ->
  isConnected E s h = (Ok (0 <=? errorCode), s, h ++ [so_error s]).
Proof.
  intros Hs HE. unfold isConnected. rewrite bind_get, if_false by (apply bool_decide_false; by intros []).
  by rewrite (bind_getSockOptions _ _ _ _ _ _ _ r (Some errorCode)).
Qed.

(** [isConnected] does not look at a pending error: [SO_ERROR] is zero or a positive error
    number, and the code tests that it is not negative, so a socket whose connection has
    failed in the meantime still counts as connected. *)
Theorem pending_error_ignored (E : @env net) s h errorCode :
  socketStatus s = CONNECTED -> 0 < errorCode ->
  E h (Getsockopt (sockfd s) SOL_SOCKET SO_ERROR 4 : netcall) = (0, Some errorCode) ->
  outcome (isConnected E s h) = Ok true.
Proof.
  intros Hs He HE. rewrite (isConnected_yes E s h 0 errorCode Hs HE). unfold outcome. simpl.
  by rewrite (proj2 (Z.leb_le _ _)) by lia.
Qed.

Lemma isConnected_unset (E : @env net) s h r :
  socketStatus s = CONNECTED -> E h (so_error s) = (r, None) ->
  isConnected E s h = (UB "errorCode is not initialised", s, h ++ [so_error s]).
Proof.
  intros Hs HE. unfold isConnected. rewrite bind_get, if_false by (apply bool_decide_false; by intros []).
  by rewrite (bind_getSockOptions _ _ _ _ _ _ _ r None).
Qed.

(** C31. Every branch of [send].  Too much data and a socket that is not in the connected state are
    refused without touching the network.  Otherwise the pending error is asked for: when the kernel
    stores none, an uninitialised variable is read; a negative one, which the kernel does not have,
    refuses the data.  Then the data go to the kernel, once: a count it answers is returned as
    it is, and an error throws and leaves the socket in the error state. *)
Theorem send_branches (E : @env net) s h data :
  let asked := h ++ [so_error s] in
  let sent := asked ++ [SendTo (sockfd s) data] in
  let refused := Throw "It is impossible to send something using a non connected socket" in
  (INT_MAX < Z.of_nat (length data) -> send data E s h = (Throw "Size too big", s, h)) /\
  (Z.of_nat (length data) <= INT_MAX ->
   (socketStatus s <> CONNECTED -> send data E s h = (refused, s, h)) /\
   (socketStatus s = CONNECTED -> forall r out, E h (so_error s) = (r, out) ->
    match out with
    | None => send data E s h = (UB "errorCode is not initialised", s, asked)
    | Some errorCode =>
        (errorCode < 0 -> send data E s h = (refused, s, asked)) /\
        (0 <= errorCode -> forall n, E asked (SendTo (sockfd s) data : netcall) = n ->
         -1 <= n <= Z.of_nat (length data) ->
         send data E s h = if n <? 0 then (Throw "Error sending socket data", set_status SS_ERROR s, sent)
                           else (Ok n, s, sent))
    end)).
Proof.
  intros asked sent refused. split; [intros Hlen; unfold send; by rewrite if_true by (apply Z.gtb_lt; lia)|].
  intros Hlen. unfold send.
  rewrite (if_false (Z.of_nat (length data) >? INT_MAX)) by (rewrite Z.gtb_ltb; apply Z.ltb_ge; lia).
  split; [intros Hs; by rewrite (bind_ok _ _ _ _ _ _ _ _ (isConnected_no E s h Hs))|].
  intros Hs r [errorCode|] HE.
  - pose proof (isConnected_yes E s h r errorCode Hs HE) as Hc. split.
    + intros He. rewrite (bind_ok _ _ _ _ _ _ _ _ Hc).
      by rewrite if_true by (apply negb_true_iff, Z.leb_gt; lia).
    + intros He n HS Hn. rewrite (bind_ok _ _ _ _ _ _ _ _ Hc).
      rewrite if_false by (apply negb_false_iff, Z.leb_le; lia). rewrite bind_get.
      erewrite bind_ok by reflexivity. fold asked. rewrite HS.
      assert (to_int n = n) as ->.
      { unfold to_int. apply c_cast_id; unfold ity_ok, in_ty, limits_min, limits_max, INT_MAX in *; simpl; lia. }
      destruct (Z.ltb_spec n 0); [done|]. unfold INT_MAX in *. by rewrite wrap_u32_small by lia.
  - pose proof (isConnected_unset E s h r Hs HE) as Hc. unfold mbind, prog_bind. by rewrite Hc.
Qed.

(** A socket that was closed does not open again but connects descriptor 0, which is the
    standard input of the process: [close] stores 0 in [sockfd] and [connectTo] uses it. *)
Theorem reconnect_uses_descriptor_0 (E : @env net) s h ip port :
  0 < sockfd s -> sin_family s = AF_INET ->
  let '(_, s1, h1) := close E s h in
  exists rest, history (connectTo_ipv4 ip port E s1 h1) =
    h1 ++ [Connect 0 AF_INET (htons port) (toInAddr ip)] ++ rest.
Proof.
  intros Hfd Hf. unfold close. rewrite bind_get, (if_true (0 <? sockfd s)) by (by apply Z.ltb_lt).
  erewrite bind_ok by reflexivity. unfold modify at 1.
  set (s1 := set_status CLOSED (set_fd 0 s)). set (h1 := h ++ _).
  assert (Hn : isConnected E s1 h1 = (Ok false, s1, h1)) by (by apply isConnected_no).
  unfold connectTo_ipv4. rewrite (bind_ok _ _ _ _ _ _ _ _ Hn). cbv iota. rewrite bind_get.
  rewrite if_false by (apply bool_decide_false; intros Hx; apply Hx; exact Hf).
  unfold connect_and_check. rewrite bind_get. erewrite bind_ok by reflexivity. rewrite bind_modify.
  change (sin_family s1) with (sin_family s). change (sockfd s1) with 0. rewrite Hf.
  match goal with |- context [isConnected E ?s2 ?h2] =>
    destruct (isConnected E s2 h2) as [[r3 s3] h3] eqn:E3 end.
  destruct (tcp_keeps_isConnected [] _ _ _ (owned _ ++ []) _ _ _ eq_refl E3) as (rest & ? & -> & _).
  exists rest. simpl. by rewrite <-app_assoc.
Qed.

(** A socket that was moved from still calls itself connected, with descriptor 0: the kernel
    refuses the query, stores nothing, and [isConnected] reads an uninitialised variable. *)
Theorem moved_from_undefined (E : @env net) s h r :
  socketStatus s = CONNECTED ->
  E h (Getsockopt 0 SOL_SOCKET SO_ERROR 4 : netcall) = (r, None) ->
  let '(_, source) := move s in undefined (outcome (isConnected E source h)).
Proof.
  intros Hs HE. simpl. unfold isConnected. rewrite bind_get.
  rewrite if_false by (apply bool_decide_false; by intros []).
  rewrite (bind_getSockOptions SOL_SOCKET SO_ERROR 4 _ E (set_fd 0 s) h r None HE). by eexists.
Qed.

(** ** The listening socket *)

(** [listenTo] and the destructor, when the kernel agrees: the socket is made, bound to the
    port and set to listen, in that order, and the destructor closes it, once. *)
Theorem listening_closed_once (E : @env net) f port backlog fd b l :
  let c1 := Socket f : netcall in
  let c2 := Bind fd f (htons port) : netcall in
  let c3 := Listen fd backlog : netcall in
  E [] c1 = fd -> 0 < fd -> E [c1] c2 = b -> 0 <= b -> E [c1; c2] c3 = l -> 0 <= l ->
  exists lst, listenTo port backlog E (TcpListeningSocket f) [] = (Ok true, lst, [c1; c2; c3]) /\
    listening lst = true /\ l_sockfd lst = fd /\
    l_destroy E lst [c1; c2; c3] = (Ok tt, TcpListeningSocket f, [c1; c2; c3; CloseFd fd]).
Proof.
  intros c1 c2 c3 H1 Hfd H2 Hb H3 Hl. exists (Listener fd true f).
  split; [|split; [done|split; [done|]]].
  - unfold listenTo. rewrite bind_get. cbn [listening TcpListeningSocket l_family].
    erewrite bind_ok by reflexivity. cbn [app]. fold c1. rewrite H1, bind_modify.
    rewrite (if_false (fd <? 0)) by (apply Z.ltb_ge; lia).
    erewrite bind_ok by reflexivity. cbn [app]. fold c2. rewrite H2.
    rewrite (if_false (b <? 0)) by (by apply Z.ltb_ge).
    erewrite bind_ok by reflexivity. cbn [app]. fold c3. rewrite H3.
    by rewrite (if_false (l <? 0)) by (by apply Z.ltb_ge).
  - unfold l_destroy, l_close. rewrite bind_get. cbn [l_sockfd].
    by rewrite (if_true (0 <? fd)) by (by apply Z.ltb_lt).
Qed.

(** A listening socket that cannot be bound is closed twice: [listenTo] closes the descriptor
    before it throws but keeps its number, and the destructor closes that number again, which
    by then may belong to something else of the process. *)
Theorem failed_bind_closed_twice (E : @env net) f port backlog fd b :
  let c1 := Socket f : netcall in
  let c2 := Bind fd f (htons port) : netcall in
  E [] c1 = fd -> 0 < fd -> E [c1] c2 = b -> b < 0 ->
  exists lst, listenTo port backlog E (TcpListeningSocket f) [] =
      (Throw "bind(...) failed", lst, [c1; c2; CloseFd fd]) /\
    releases (history (l_destroy E lst [c1; c2; CloseFd fd])) = [fd; fd].
Proof.
  intros c1 c2 H1 Hfd H2 Hb. exists (Listener fd false f). split.
  - unfold listenTo. rewrite bind_get. cbn [listening TcpListeningSocket l_family].
    erewrite bind_ok by reflexivity. cbn [app]. fold c1. rewrite H1, bind_modify.
    rewrite (if_false (fd <? 0)) by (apply Z.ltb_ge; lia).
    erewrite bind_ok by reflexivity. cbn [app]. fold c2. rewrite H2.
    by rewrite (if_true (b <? 0)) by (by apply Z.ltb_lt).
  - unfold l_destroy, l_close. rewrite bind_get. cbn [l_sockfd].
    by rewrite (if_true (0 <? fd)) by (by apply Z.ltb_lt).
Qed.

(** An accepted connection is a connected [TcpSocket] on the new descriptor, of the family of
    the listening socket; a refused [accept] throws and makes no socket. *)
Theorem accept_makes_connected (E : @env net) l h fd :
  E h (Accept (l_sockfd l) : netcall) = fd ->
  acceptRequest E l h =
    ((if fd <? 0 then Throw "accept(...) failed" else Ok (Sock fd CONNECTED (l_family l) false)),
     l, h ++ [Accept (l_sockfd l)]).
Proof.
  intros H. unfold acceptRequest. rewrite bind_get. erewrite bind_ok by reflexivity. rewrite H.
  unfold fromSockfd. by destruct (fd <? 0).
Qed.

(** ** Witnesses *)

(** A kernel that gives descriptor 7, connects, sends everything and has a pending error (104,
    connection reset) on descriptor 9. *)
Definition kernel : @env net := fun h c =>
  match c as c return net_reply c with
  | Socket _ => 7
  | SendTo _ d => Z.of_nat (length d)
  | Recv _ _ _ => (2, [1; 2])
  | Getsockopt fd _ _ _ => if fd =? 0 then (-1, None) else (0, Some (if fd =? 9 then 104 else 0))
  | Getpeername _ => (0, Some 16777343)
  | Bind _ _ port => if port =? 0 then -1 else 0
  | Accept _ => 8
  | _ => 0
  end.
Definition live (fd : Z) : socket := Sock fd CONNECTED AF_INET false.

Definition example_ops : list op :=
  [OConnect4 (MkIPv4 16777343) 80; OSend [1; 2]; OReceive 2; OClose; OSend [3]; OIsConnected].
Lemma descriptor_closed_once_witness :
  let h := history (life AF_INET example_ops kernel unconnected []) in
  releases h = [7] /\ acquires kernel [] h ≡ₚ releases h ++ [].
Proof.
  split; [vm_compute; reflexivity|].
  apply (descriptor_closed_once AF_INET example_ops kernel (Ok tt) (Sock 0 CLOSED AF_INET false)).
  vm_compute. reflexivity.
Defined.

Lemma move_transfers_descriptor_witness : exists cs,
  history (destroy kernel (live 7)
             (history (lifetime run_op destroy [OClose] kernel (set_fd 0 (live 7)) []))) = [] ++ cs /\
  releases cs ≡ₚ acquires kernel [] cs ++ [7].
Proof.
  apply (move_transfers_descriptor kernel (live 7) [] [OClose] (Ok tt) (Sock 0 CLOSED AF_INET false)
           [] (Ok tt) (Sock 0 CLOSED AF_INET false)); vm_compute; reflexivity.
Defined.

Lemma pending_error_ignored_witness : outcome (isConnected kernel (live 9) []) = Ok true.
Proof. by apply (pending_error_ignored kernel (live 9) [] 104). Defined.

Lemma reconnect_uses_descriptor_0_witness :
  let '(_, s1, h1) := close kernel (live 7) [] in
  exists rest, history (connectTo_ipv4 (MkIPv4 16777343) 80 kernel s1 h1) =
    h1 ++ [Connect 0 AF_INET (htons 80) (toInAddr (MkIPv4 16777343))] ++ rest.
Proof. by apply (reconnect_uses_descriptor_0 kernel (live 7) [] (MkIPv4 16777343) 80). Defined.

Lemma moved_from_undefined_witness :
  undefined (outcome (isConnected kernel (set_fd 0 (live 7)) [])).
Proof. by apply (moved_from_undefined kernel (live 7) [] (-1)). Defined.

Lemma listening_closed_once_witness : exists lst,
  listenTo 80 100 kernel (TcpListeningSocket AF_INET) [] =
    (Ok true, lst, [Socket AF_INET; Bind 7 AF_INET (htons 80); Listen 7 100]) /\
    listening lst = true /\ l_sockfd lst = 7 /\
    l_destroy kernel lst [Socket AF_INET; Bind 7 AF_INET (htons 80); Listen 7 100] =
    (Ok tt, TcpListeningSocket AF_INET,
     [Socket AF_INET; Bind 7 AF_INET (htons 80); Listen 7 100; CloseFd 7]).
Proof. by apply (listening_closed_once kernel AF_INET 80 100 7 0 0). Defined.

Lemma failed_bind_closed_twice_witness : exists lst,
  listenTo 0 100 kernel (TcpListeningSocket AF_INET) [] =
      (Throw "bind(...) failed", lst, [Socket AF_INET; Bind 7 AF_INET (htons 0); CloseFd 7]) /\
    releases (history (l_destroy kernel lst [Socket AF_INET; Bind 7 AF_INET (htons 0); CloseFd 7])) =
      [7; 7].
Proof. by apply (failed_bind_closed_twice kernel AF_INET 0 100 7 (-1)). Defined.

Lemma accept_makes_connected_witness :
  acceptRequest kernel (Listener 7 true AF_INET) [] = (Ok (live 8), Listener 7 true AF_INET, [Accept 7]).
Proof. by apply (accept_makes_connected kernel (Listener 7 true AF_INET) [] 8). Defined.

(** A count, an error of the kernel, and the socket that was moved from. *)
Lemma send_branches_witness :
  send [1; 2] kernel (live 7) [] = (Ok 2, live 7, [so_error (live 7)] ++ [SendTo 7 [1; 2]]) /\
  send [1; 2] kernel (live 0) [] = (UB "errorCode is not initialised", live 0, [so_error (live 0)]) /\
  send [1; 2] kernel unconnected [] =
    (Throw "It is impossible to send something using a non connected socket", unconnected, []).
Proof.
  split; [|split].
  - apply (proj2 (proj2 (proj2 (send_branches kernel (live 7) [] [1; 2])
      ltac:(unfold INT_MAX; simpl; lia)) eq_refl 0 (Some 0) eq_refl) ltac:(done) 2); done.
  - exact (proj2 (proj2 (send_branches kernel (live 0) [] [1; 2])
      ltac:(unfold INT_MAX; simpl; lia)) eq_refl (-1) None eq_refl).
  - by apply (proj1 (proj2 (send_branches kernel unconnected [] [1; 2]) ltac:(unfold INT_MAX; simpl; lia))).
Defined.
