(* ===== verification/WindowsSocket.v ===== *)
(** * TCP sockets on Windows (src/network/TcpSocket.cpp, src/network/TcpListeningSocket.cpp,
    src/network/NetworkUtility.cpp)

    The Windows branches: Winsock has to be started, a listening socket asks for its address, and a
    [SocketDescriptor] is the unsigned [SOCKET].  What the two platforms share is the code of
    TcpSocket.v, run here over the socket calls of Winsock ([on_winsock]); a comparison with zero that
    the shared code makes is that of unsigned numbers, since no descriptor is negative here. *)

From S2P Require Import Prelude Ownership Numbers Address TcpSocket.

(** ** System calls *)

Inductive winsock_call :=
  | Winsock (c : net_call)                     (** the calls of the socket interface *)
  | WSAStartup | WSACleanup
  | Getaddrinfo (f : family) (port : Z)        (** for a passive stream socket *)
  | Freeaddrinfo (result : Z).
(** [getaddrinfo] answers with its result and the list it made. *)
Definition winsock_reply (c : winsock_call) : Type :=
  match c with Winsock c => net_reply c | Getaddrinfo _ _ => Z * Z | _ => Z end.
Definition winsock : Sys := {| call := winsock_call; reply := winsock_reply |}.
#[export] Existing Instance winsock.
Abbreviation wcall := (@call winsock).

(** [SOCKET] is as wide as a pointer; all ones is [INVALID_SOCKET]. *)
Definition INVALID_SOCKET : Z := 2 ^ 64 - 1.
Definition SOCKET_ERROR : Z := -1.

(** The object and the static variable of the process. *)
Record process (S : Type) := Process { wsaStarted : bool; the_object : S }.
Arguments Process {S}.
Arguments wsaStarted {S}.
Arguments the_object {S}.
Abbreviation win S := (@prog winsock (process S)).
Definition set_object {S} (f : S -> S) (p : process S) : process S :=
  Process (wsaStarted p) (f (the_object p)).

(** Code of the socket interface, run over Winsock. *)
Definition on_winsock {S A} (m : @prog net S A) : win S A := fun E p h =>
  let '(r, o, cs) := m (fun h' c => E (h ++ (Winsock <$> h')) (Winsock c : wcall)) (the_object p) [] in
  (r, Process (wsaStarted p) o, h ++ (Winsock <$> cs)).

(** ** The code *)

Definition startWsaIfNeeded {S} : win S unit :=
  started ← gets wsaStarted;
  if negb started then
    errorCode ← sys (WSAStartup : wcall);
    if negb (errorCode =? 0) then throw "WSAStartup(...) failed" else mret tt
  else mret tt.

Definition win_TcpSocket (f : family) : win socket unit :=
  _ ← startWsaIfNeeded; on_winsock (TcpSocket.TcpSocket f).

(** The size is a [uint32_t], the call takes an [int]. *)
Definition win_getSockOptions (level optname size : Z) : win socket (bool * option Z) :=
  if INT_MAX <? size then throw "outValueSize too large. Winsock2 take an integer, max value is INT_MAX"
  else on_winsock (getSockOptions level optname size).
Definition win_setSockOptions (level optname : Z) (value : list Z) : win socket bool :=
  if INT_MAX <? Z.of_nat (length value)
  then throw "inValueSize too large. Winsock2 take an integer, max value is INT_MAX"
  else on_winsock (setSockOptions level optname value).

Definition win_listenTo (port backlog : Z) : win listener bool :=
  this ← gets the_object;
  if listening this then throw "Socket already in listening state"
  else
    _ ← startWsaIfNeeded;
    '(errorCode, result) ← sys (Getaddrinfo (l_family this) port : wcall);
    if negb (errorCode =? 0) then throw "getaddrinfo(...) failed"
    else
      fd ← sys (Winsock (Socket (l_family this)) : wcall);
      _ ← modify (set_object (l_set_fd fd));
      if fd =? INVALID_SOCKET then
        _ ← sys (Freeaddrinfo result : wcall); _ ← sys (WSACleanup : wcall);
        throw "socket(...) failed"
      else
        errorCode ← sys (Winsock (Bind fd (l_family this) (htons port)) : wcall);
        if errorCode =? SOCKET_ERROR then
          _ ← sys (Freeaddrinfo result : wcall); _ ← sys (Winsock (CloseFd fd) : wcall);
          _ ← sys (WSACleanup : wcall);
          throw "bind(...) failed"
        else
          _ ← sys (Freeaddrinfo result : wcall);
          errorCode ← sys (Winsock (Listen fd backlog) : wcall);
          if errorCode =? SOCKET_ERROR then
            _ ← sys (Winsock (CloseFd fd) : wcall); _ ← sys (WSACleanup : wcall);
            throw "listen(...) failed"
          else
            _ ← modify (set_object (l_set_listening true));
            mret true.

Definition win_acceptRequest : win listener socket :=
  this ← gets the_object;
  newsockfd ← sys (Winsock (Accept (l_sockfd this)) : wcall);
  if newsockfd =? INVALID_SOCKET then throw "accept(...) failed"
  else lift (fromSockfd newsockfd CONNECTED (l_family this)).

(** The operations of an owner: those of TcpSocket.v, with the options of Windows. *)
Definition win_run_op (o : op) : win socket unit :=
  match o with
  | OGetOpt level optname size => _ ← win_getSockOptions level optname size; mret tt
  | OSetOpt level optname value => _ ← win_setSockOptions level optname value; mret tt
  | o => on_winsock (run_op o)
  end.
Definition win_life (f : family) (ops : list op) : win socket unit :=
  _ ← win_TcpSocket f; lifetime win_run_op (on_winsock destroy) ops.

Definition fresh_socket : process socket := Process false unconnected.
Definition fresh_listener (f : family) : process listener := Process false (TcpListeningSocket f).

(** ** Who gives back what *)

(** A use of Winsock, a descriptor, a list of addresses. *)
Inductive winsock_handle := Use | Descriptor (fd : Z) | Addresses (result : Z).

(** Neither zero, for which the code does no call, nor [INVALID_SOCKET] is a descriptor. *)
Definition valid (fds : list Z) : list winsock_handle :=
  Descriptor <$> filter (fun fd => 0 < fd /\ fd <> INVALID_SOCKET) fds.

Definition win_acquired (c : winsock_call) : winsock_reply c -> list winsock_handle :=
  match c with
  | Winsock c => fun r => valid (@acquired net Z _ c r)
  | WSAStartup => fun r => if r =? 0 then [Use] else []
  | Getaddrinfo _ _ => fun r => if fst r =? 0 then [Addresses (snd r)] else []
  | _ => fun _ => []
  end.
#[export] Instance winsock_resources : @Resources winsock winsock_handle := {|
  acquired := win_acquired;
  released c := match c with
                | Winsock c => valid (@released net Z _ c)
                | WSACleanup => [Use]
                | Freeaddrinfo result => [Addresses result]
                | _ => []
                end |}.

Lemma valid_app l1 l2 : valid (l1 ++ l2) = valid l1 ++ valid l2.
Proof. unfold valid. by rewrite filter_app, fmap_app. Qed.

#[global] Instance valid_perm : Proper (Permutation ==> Permutation) valid.
Proof. intros l1 l2 H. unfold valid. by rewrite H. Qed.

(** The calls of the socket interface, as calls of Winsock. *)
Definition as_net (E : @env winsock) (h : list wcall) : @env net := fun h' c =>
  E (h ++ (Winsock <$> h')) (Winsock c : wcall).

Lemma winsock_acquires E h cs h' :
  acquires E (h ++ (Winsock <$> h')) (Winsock <$> cs : list wcall) = valid (acquires (as_net E h) h' cs).
Proof.
  revert h'. induction cs as [|c cs IH]; intros h'; [done|].
  rewrite fmap_cons. cbn [acquires]. rewrite valid_app. f_equal.
  rewrite <-app_assoc. change [Winsock c : wcall] with (Winsock <$> [c] : list wcall).
  rewrite <-fmap_app. apply IH.
Qed.

Lemma winsock_releases (cs : list netcall) :
  releases (Winsock <$> cs : list wcall) = valid (releases cs).
Proof.
  induction cs as [|c cs IH]; [done|]. rewrite fmap_cons.
  change (releases (Winsock c :: (Winsock <$> cs) : list wcall)) with
    (valid (@released net Z _ c) ++ releases (Winsock <$> cs : list wcall)).
  rewrite IH. change (releases (c :: cs)) with (released c ++ releases cs). by rewrite valid_app.
Qed.

(** What is known of the object and its descriptors, beside the handles [rest], in a process that has
    not noted that Winsock is started. *)
Definition beside {S} (rest : list winsock_handle) (P : S -> list Z -> Prop)
    (p : process S) (held : list winsock_handle) : Prop :=
  wsaStarted p = false /\ exists fds, P (the_object p) fds /\ held = valid fds ++ rest.

(** Whatever code of the socket interface does with its descriptors it does over Winsock. *)
Lemma on_winsock_triple {S A} rest (m : @prog net S A) (P : S -> list Z -> Prop) (Q : A -> S -> list Z -> Prop) X :
  triple P m Q X ->
  triple (beside rest P) (on_winsock m) (fun a => beside rest (Q a)) (beside rest X).
Proof.
  intros Hm E p h held r p' h' (Hw & fds & HP & ->). unfold on_winsock.
  destruct (m (as_net E h) (the_object p) []) as [[r1 o] cs] eqn:Hr. unfold as_net in Hr. rewrite Hr.
  intros [= <- <- <-].
  destruct (Hm (as_net E h) (the_object p) [] fds r1 o cs HP Hr) as (cs1 & fds' & -> & Hb & Hpost).
  exists (Winsock <$> cs1), (valid fds' ++ rest). split; [done|]. split.
  - pose proof (winsock_acquires E h cs1 []) as Ha. rewrite app_nil_r in Ha. rewrite Ha, winsock_releases.
    rewrite !app_assoc, <-!valid_app. simpl in Hb. by rewrite Hb.
  - destruct r1; (split; [done|by exists fds']).
Qed.

Lemma beside_weaken {S} rest (P Q : S -> list Z -> Prop) p held :
  (forall s fds, P s fds -> Q s fds) -> beside rest P p held -> beside rest Q p held.
Proof. intros HPQ (Hw & fds & HP & ->). split; [done|]. exists fds. auto. Qed.

(** An option asked for or set holds on to what the object holds. *)
Lemma win_keeps_guarded {A} rest (b : bool) e (m : @prog net socket A) :
  (forall lost, keeps lost m) ->
  triple (beside rest holds_some) (_ ← (if b then throw e else on_winsock m); mret tt)
    (fun _ => beside rest holds_some) (beside rest holds_some).
Proof.
  intros Hm. apply (triple_bind _ _ _ (fun _ => beside rest holds_some)); [|intros a; by apply triple_ret].
  destruct b; [by apply triple_throw|]. by apply (on_winsock_triple rest m holds_some (fun _ => holds_some) holds_some), keeps_some.
Qed.

Lemma winsock_keeps_op rest o :
  triple (beside rest holds_some) (win_run_op o) (fun _ => beside rest holds_some) (beside rest holds_some).
Proof.
  destruct o; simpl;
    try (apply (win_keeps_guarded rest); intros lost; unfold getSockOptions, setSockOptions; keeping);
    match goal with |- triple _ (on_winsock ?m) _ _ =>
      apply (on_winsock_triple rest m holds_some (fun _ => holds_some) holds_some), keeps_some; intros lost end.
  all: first [ apply (tcp_keeps_op lost (OConnect4 ip port)) | apply (tcp_keeps_op lost (OConnect6 ip port))
             | apply (tcp_keeps_op lost (OSend data)) | apply (tcp_keeps_op lost (OReceive size))
             | apply (tcp_keeps_op lost OClose) | apply (tcp_keeps_op lost OIsConnected) | apply (tcp_keeps_op lost OPeer)
             | apply (tcp_keeps_op lost (OBlocking rb)) ].
Qed.

(** The life of a socket, once Winsock is started. *)
Lemma started_life f ops :
  triple (beside [Use] (fun s fds => fds = []))
    (_ ← on_winsock (TcpSocket.TcpSocket f); lifetime win_run_op (on_winsock destroy) ops)
    (fun _ => beside [Use] (fun _ fds => fds = [])) (beside [Use] (fun _ fds => fds = [])).
Proof.
  apply (triple_bind _ _ _ (fun _ => beside [Use] holds_some)).
  - eapply triple_weaken; [apply on_winsock_triple, (constructor_holds f)|done|done|done].
  - intros _. apply (triple_lifetime win_run_op (on_winsock destroy) (beside [Use] holds_some)); [apply winsock_keeps_op|].
    eapply triple_weaken; [apply on_winsock_triple, close_some|done| |].
    + intros a p held (Hw & fds & [n ->] & ->). split; [done|]. exists []. split; [done|].
      f_equal. unfold valid. induction n as [|n IH]; [done|]. simpl replicate.
      rewrite filter_cons_False by lia. exact IH.
    + intros p held (_ & fds & [] & _).
Qed.

(** ** Theorems *)

(** Sockets on Windows: whatever Winsock answers and whatever the owner does, every descriptor opened is
    closed exactly once; but every socket starts Winsock once more, since the process never notes that
    it has been started, and no socket ends it. *)
Theorem winsock_started_by_every_socket f ops (E : @env winsock) h r p h' :
  win_life f ops E fresh_socket h = (r, p, h') -> E h (WSAStartup : wcall) = 0 ->
  wsaStarted p = false /\
  exists cs, h' = h ++ cs /\ acquires E h cs ≡ₚ Use :: releases cs.
Proof.
  intros H H0. unfold win_life, win_TcpSocket in H.
  assert (Hs : startWsaIfNeeded E fresh_socket h = (Ok tt, fresh_socket, h ++ [WSAStartup : wcall])).
  { unfold startWsaIfNeeded. rewrite bind_gets. cbn [negb wsaStarted fresh_socket].
    unfold mbind, prog_bind, sys. by rewrite H0. }
  assert (Hl : (_ ← on_winsock (TcpSocket.TcpSocket f); lifetime win_run_op (on_winsock destroy) ops)
    E fresh_socket (h ++ [WSAStartup : wcall]) = (r, p, h')).
  { unfold mbind, prog_bind in H |- *. by rewrite Hs in H. }
  destruct (started_life f ops E fresh_socket (h ++ [WSAStartup : wcall]) [Use] r p h') as
    (cs & held & -> & Hb & Hpost); [by split; [|exists []]|done|].
  assert (wsaStarted p = false /\ held = [Use]) as [Hw ->].
  { by destruct r; destruct Hpost as (? & fds & -> & ->). }
  split; [done|]. exists ([WSAStartup : wcall] ++ cs). rewrite app_assoc. split; [done|].
  rewrite acquires_app, releases_app. simpl. rewrite H0. simpl.
  rewrite !(Permutation_app_comm _ [Use]) in Hb. simpl in Hb. by apply Permutation_cons_inv in Hb; rewrite Hb.
Qed.

(** A descriptor opened, as handles. *)
Definition opened (fd : Z) : list winsock_handle := valid (descriptor fd).

Lemma close_valid fd : valid (@released net Z _ (CloseFd fd : netcall)) = opened fd.
Proof.
  unfold opened, descriptor, valid. simpl. destruct (Z.leb_spec 0 fd); [done|].
  rewrite filter_cons_False; [done|]. intros [? _]. lia.
Qed.

(** The same in a run: a descriptor given back. *)
Lemma owns_closesocket {S A} fd (f : Z -> win S A) s held held' Q X :
  held ≡ₚ opened fd ++ held' -> (forall r, triple (owns s held') (f r) Q X) ->
  triple (owns s held) (sys (Winsock (CloseFd fd) : wcall) ≫= f) Q X.
Proof.
  intros Hp Hf. apply (triple_bind _ _ _ (fun r => owns s held')); [|done].
  intros E s0 h held0 r s' h' [-> ->] [= <- <- <-]. exists [Winsock (CloseFd fd) : wcall], held'.
  split; [done|]. split; [|done]. unfold releases. simpl.
  rewrite app_nil_r. change (valid [fd]) with (valid (@released net Z _ (CloseFd fd : netcall))).
  by rewrite close_valid.
Qed.

Ltac wstep := owning_step; cbn [acquired winsock_resources win_acquired].

Lemma win_listen_triple f port backlog :
  triple (owns (fresh_listener f) []) (win_listenTo port backlog)
    (fun _ p held => held ≡ₚ Use :: opened (l_sockfd (the_object p)) /\ listening (the_object p) = true)
    (fun p held => (held = [] \/ held = [Use]) /\ listening (the_object p) = false).
Proof.
  unfold win_listenTo, startWsaIfNeeded. wstep. cbn [fresh_listener the_object TcpListeningSocket listening].
  eapply (owns_call _ _ _ _ (fun _ => owns (fresh_listener f) [Use])).
  { wstep. cbn [wsaStarted fresh_listener negb]. wstep. destruct (r =? 0); simpl negb; cbv iota; wstep.
    - done.
    - by split; [left|]. }
  intros _ ? ? [-> ->]. wstep. destruct r as [e result]. cbn [fst snd]. destruct (e =? 0); simpl negb; cbv iota.
  2: { wstep. by split; [right|]. }
  do 2 wstep. match goal with |- context [valid (acquired ?c r)] => change (valid (@acquired net Z _ c r)) with (opened r) end.
  destruct (Z.eqb_spec r INVALID_SOCKET) as [->|Hr].
  { change (opened INVALID_SOCKET) with (@nil winsock_handle). cbn [app]. do 3 wstep. by split; [left|]. }
  wstep. destruct (r0 =? SOCKET_ERROR).
  - eapply owns_release with (x := Addresses result) (held' := opened r ++ [Use]);
      [done|done|symmetry; apply Permutation_middle|intros _].
    apply (owns_closesocket r) with (held' := [Use]); [done|intros _]. do 2 wstep. by split; [left|].
  - eapply owns_release with (x := Addresses result) (held' := opened r ++ [Use]);
      [done|done|symmetry; apply Permutation_middle|intros _].
    wstep. destruct (r1 =? SOCKET_ERROR).
    + apply (owns_closesocket r) with (held' := [Use]); [done|intros _]. do 2 wstep. by split; [left|].
    + do 2 wstep. split; [|done]. simpl. by rewrite Permutation_app_comm.
Qed.

(** Listening on Windows: whatever Winsock and the resolver answer, [listenTo] on a new listener that
    returns normally is listening and holds one use of Winsock and its descriptor; when it throws, it
    holds neither a descriptor nor a list of addresses, and at most the use of Winsock. *)
Theorem win_listen_holds f port backlog (E : @env winsock) r p h :
  win_listenTo port backlog E (fresh_listener f) [] = (r, p, h) ->
  exists held, acquires E [] h ≡ₚ releases h ++ held /\
    match r with
    | Ok _ => held ≡ₚ Use :: opened (l_sockfd (the_object p)) /\ listening (the_object p) = true
    | _ => (held = [] \/ held = [Use]) /\ listening (the_object p) = false
    end.
Proof.
  intros H. destruct (win_listen_triple f port backlog E (fresh_listener f) [] [] r p h) as
    (cs & held & -> & Hb & Hpost); [done|done|]. exists held. rewrite app_nil_r in Hb. simpl.
  split; [done|]. by destruct r.
Qed.

(** [getaddrinfo] fails: the use of Winsock that [listenTo] has made is never ended. *)
Theorem failed_resolver_leaks_winsock f port backlog (E : @env winsock) e result :
  E [] (WSAStartup : wcall) = 0 ->
  E [WSAStartup : wcall] (Getaddrinfo f port : wcall) = (e, result) -> e <> 0 ->
  exists m, win_listenTo port backlog E (fresh_listener f) [] =
    (Throw m, fresh_listener f, [WSAStartup : wcall; Getaddrinfo f port : wcall]).
Proof.
  intros H0 H1 He. eexists. unfold win_listenTo, startWsaIfNeeded, mbind, prog_bind, gets, sys.
  cbn [fresh_listener the_object wsaStarted TcpListeningSocket listening l_family negb]. rewrite H0, (if_false (negb (0 =? 0))) by done. unfold mret, prog_ret. cbn [app].
  rewrite H1. apply Z.eqb_neq in He. rewrite He. reflexivity.
Qed.

(** A socket that cannot be made is not noticed on Windows: the descriptor is unsigned, so it is never
    below zero, and the constructor returns normally with [INVALID_SOCKET]. *)
Theorem invalid_socket_unnoticed f (E : @env winsock) :
  E [] (WSAStartup : wcall) = 0 -> E [WSAStartup : wcall] (Winsock (Socket f) : wcall) = INVALID_SOCKET ->
  exists p h, win_TcpSocket f E fresh_socket [] = (Ok tt, p, h) /\
    sockfd (the_object p) = INVALID_SOCKET.
Proof.
  intros H0 H1. unfold win_TcpSocket, startWsaIfNeeded, on_winsock, TcpSocket.TcpSocket, mbind, prog_bind, gets,
    sys, modify. cbn [fresh_socket wsaStarted negb]. rewrite H0, (if_false (negb (0 =? 0))) by done.
  unfold mret, prog_ret. cbn [app fmap list_fmap the_object].
  rewrite (if_false (_ <? 0)) by (apply Z.ltb_ge; refine (eq_ind_r (fun x => 0 <= x) _ H1); done).
  do 2 eexists. split; [reflexivity|exact H1].
Qed.

(** ** Witnesses *)

(** Winsock that answers everything with success, one whose resolver fails and one without sockets. *)
Definition working : @env winsock := fun h c =>
  match c as c return winsock_reply c with
  | Winsock c =>
      match c as c return net_reply c with
      | Socket _ | Accept _ => 40
      | Recv _ _ _ => (1, [7])
      | Getsockopt _ _ _ _ => (0, Some 0)
      | Getpeername _ => (0, Some 1)
      | _ => 0
      end
  | Getaddrinfo _ _ => (0, 5)
  | WSAStartup | WSACleanup | Freeaddrinfo _ => 0
  end.
Definition no_resolver : @env winsock := fun h c =>
  match c as c return winsock_reply c with Getaddrinfo _ _ => (11001, 0) | c => working h c end.
Definition no_sockets : @env winsock := fun h c =>
  match c as c return winsock_reply c with Winsock (Socket _) => INVALID_SOCKET | c => working h c end.

Lemma winsock_started_by_every_socket_witness :
  exists cs, history (win_life AF_INET [OIsConnected] working fresh_socket []) = cs /\
    acquires working [] cs ≡ₚ Use :: releases cs.
Proof.
  destruct (winsock_started_by_every_socket AF_INET [OIsConnected] working [] (Ok tt)
    (Process false unconnected) [WSAStartup; Winsock (Socket AF_INET); Winsock (CloseFd 40)])
    as [_ (cs & Hcs & Hb)]; [reflexivity|reflexivity|].
  exists cs. split; [exact Hcs|exact Hb].
Defined.

Lemma win_listen_holds_witness :
  exists held, acquires working [] (history (win_listenTo 80 5 working (fresh_listener AF_INET) [])) ≡ₚ
    releases (history (win_listenTo 80 5 working (fresh_listener AF_INET) [])) ++ held /\
    held ≡ₚ [Use; Descriptor 40].
Proof.
  destruct (win_listen_holds AF_INET 80 5 working (Ok true) (Process false (Listener 40 true AF_INET))
    (history (win_listenTo 80 5 working (fresh_listener AF_INET) []))) as (held & Hb & Hh & _); [reflexivity|].
  exists held. split; [exact Hb|exact Hh].
Defined.

Lemma failed_resolver_leaks_winsock_witness :
  exists m, win_listenTo 80 5 no_resolver (fresh_listener AF_INET) [] =
    (Throw m, fresh_listener AF_INET, [WSAStartup : wcall; Getaddrinfo AF_INET 80 : wcall]).
Proof. by apply (failed_resolver_leaks_winsock AF_INET 80 5 no_resolver 11001 0). Defined.

Lemma invalid_socket_unnoticed_witness :
  exists p h, win_TcpSocket AF_INET no_sockets fresh_socket [] = (Ok tt, p, h) /\
    sockfd (the_object p) = INVALID_SOCKET.
Proof. by apply (invalid_socket_unnoticed AF_INET no_sockets). Defined.
