(* ===== verification/SocketExchange.v ===== *)
(** * TCP sockets as channels (headers/network/TcpSocket.h as an [IDataExchanger])

    A connected [TcpSocket] over a connection that takes at least a byte of every [send] and hands out
    the bytes in order is a channel; over a kernel that moves whole messages it is an exact one, which is
    what remote calls rely on. *)

From S2P Require Import Prelude Numbers Transfer Channel Address TcpSocket.

#[export] Instance tcp_device : Device net socket := {|
  device_send := send;
  device_receive := receive;
  device_isSenderConnected := isConnected;
  device_isReceiverConnected := isConnected;
  device_isConnected := isConnected |}.

(** The bytes the kernel takes on descriptor [fd], and those it hands out. *)
Definition sent_on (fd : Z) (E : @env net) : list netcall -> netcall -> list Z := fun h c =>
  (match c as c return net_reply c -> list Z with
   | SendTo g d => fun n => if g =? fd then take (Z.to_nat n) d else []
   | _ => fun _ => []
   end) (E h c).
Definition received_on (fd : Z) (E : @env net) : list netcall -> netcall -> list Z := fun h c =>
  (match c as c return net_reply c -> list Z with
   | Recv g _ _ => fun r => if g =? fd then snd r else []
   | _ => fun _ => []
   end) (E h c).
Definition still_on (fd : Z) (E : @env net) (stream : list Z) (h : list netcall) : list Z :=
  drop (length (along (received_on fd E) [] h)) stream.

(** An established connection on [fd], on which [stream] arrives: no error is pending, a [send]
    takes a part of what it is given, a [recv] hands out the next bytes, both at least one. *)
Record connection (E : @env net) (fd : Z) (stream : list Z) : Prop := {
  connection_alive h : exists r, E h (Getsockopt fd SOL_SOCKET SO_ERROR 4 : netcall) = (r, Some 0);
  connection_send h d : 0 <= E h (SendTo fd d : netcall) <= Z.of_nat (length d) /\
    (d <> [] -> 1 <= E h (SendTo fd d : netcall));
  connection_recv h n waitall : 0 <= n <= Z.of_nat (length (still_on fd E stream h)) ->
    exists m, E h (Recv fd n waitall : netcall) = (m, take (Z.to_nat m) (still_on fd E stream h)) /\
      0 <= m <= n /\ (0 < n -> 1 <= m) }.

(** A kernel that moves whole messages and tells the end of the stream with a count of 0.  With
    [waitall] set that is what recv(2) documents for [MSG_WAITALL] and send(2) for a blocking socket, as
    long as neither a signal nor an error cuts the call; without it, it is more than TCP promises. *)
Record whole_messages (E : @env net) (fd : Z) (waitall : bool) (stream : list Z) : Prop := {
  whole_send h d : E h (SendTo fd d : netcall) = Z.of_nat (length d);
  whole_recv h n : 0 <= n <= Z.of_nat (length (still_on fd E stream h)) ->
    E h (Recv fd n waitall : netcall) = (n, take (Z.to_nat n) (still_on fd E stream h));
  whole_end h n : still_on fd E stream h = [] -> E h (Recv fd n waitall : netcall) = (0, []) }.

Section Connection.
Context (E : @env net) (fd : Z) (stream : list Z).

Definition tcp_ok (w : world net socket) : Prop := socketStatus w.1 = CONNECTED /\ sockfd w.1 = fd.
Definition tcp_out (w : world net socket) : list Z := along (sent_on fd E) [] w.2.
Definition tcp_incoming (w : world net socket) : list Z := still_on fd E stream w.2.

Lemma to_int_small n : 0 <= n <= INT_MAX -> to_int n = n.
Proof.
  intros. unfold to_int.
  apply c_cast_id; unfold ity_ok, in_ty, limits_min, limits_max, INT_MAX in *; simpl; lia.
Qed.

Lemma alive_isConnected s h :
  connection E fd stream -> socketStatus s = CONNECTED -> sockfd s = fd ->
  isConnected E s h = (Ok true, s, h ++ [so_error s]).
Proof.
  intros K Hs Hf. destruct (connection_alive _ _ _ K h) as [r Hr].
  by rewrite (isConnected_yes E s h r 0 Hs) by (unfold so_error; by rewrite Hf).
Qed.

Lemma tcp_send_count s h d n :
  connection E fd stream -> socketStatus s = CONNECTED -> sockfd s = fd ->
  Z.of_nat (length d) <= INT_MAX -> E (h ++ [so_error s]) (SendTo fd d : netcall) = n -> 0 <= n <= INT_MAX ->
  send d E s h = (Ok n, s, (h ++ [so_error s]) ++ [SendTo fd d]).
Proof.
  intros K Hs Hf Hd HE Hn. unfold send. rewrite if_false by (rewrite Z.gtb_ltb; apply Z.ltb_ge; lia).
  rewrite (bind_ok _ _ _ _ _ _ _ _ (alive_isConnected s h K Hs Hf)). cbn [negb]. rewrite bind_get, Hf.
  erewrite bind_ok by reflexivity. rewrite HE, to_int_small by done.
  rewrite (if_false (n <? 0)) by (apply Z.ltb_ge; lia). unfold INT_MAX in *.
  by rewrite wrap_u32_small by lia.
Qed.

Lemma tcp_receive_count s h k n bytes :
  connection E fd stream -> socketStatus s = CONNECTED -> sockfd s = fd -> k <= INT_MAX ->
  E (h ++ [so_error s]) (Recv fd k (flagReceptionBlocking s) : netcall) = (n, bytes) -> 0 <= n <= INT_MAX ->
  receive k E s h = (Ok (n, bytes), s, (h ++ [so_error s]) ++ [Recv fd k (flagReceptionBlocking s)]).
Proof.
  intros K Hs Hf Hk HE Hn. unfold receive. rewrite if_false by (rewrite Z.gtb_ltb; apply Z.ltb_ge; lia).
  rewrite (bind_ok _ _ _ _ _ _ _ _ (alive_isConnected s h K Hs Hf)). cbn [negb]. rewrite bind_get, Hf.
  erewrite bind_ok by reflexivity. rewrite HE, to_int_small by done.
  rewrite (if_false (n <? 0)) by (apply Z.ltb_ge; lia). unfold INT_MAX in *.
  by rewrite wrap_u32_small by lia.
Qed.

(** What the calls of an operation do to the two streams. *)
Lemma out_after_send s h d n :
  E (h ++ [so_error s]) (SendTo fd d : netcall) = n ->
  along (sent_on fd E) [] ((h ++ [so_error s]) ++ [SendTo fd d]) =
  along (sent_on fd E) [] h ++ take (Z.to_nat n) d.
Proof.
  intros HE. rewrite !along_snoc. unfold sent_on at 2 3. rewrite HE, Z.eqb_refl. simpl.
  by rewrite app_nil_r.
Qed.

Lemma still_after_query s h : still_on fd E stream (h ++ [so_error s]) = still_on fd E stream h.
Proof. unfold still_on. rewrite along_snoc. unfold received_on at 2. simpl. by rewrite app_nil_r. Qed.

Lemma still_after_receive h k b n :
  E h (Recv fd k b : netcall) = (n, take (Z.to_nat n) (still_on fd E stream h)) ->
  n <= Z.of_nat (length (still_on fd E stream h)) ->
  still_on fd E stream (h ++ [Recv fd k b]) = drop (Z.to_nat n) (still_on fd E stream h).
Proof.
  intros HE Hn. unfold still_on at 1. rewrite along_snoc, length_app, <-drop_drop.
  fold (still_on fd E stream h). f_equal. unfold received_on. rewrite HE, Z.eqb_refl. cbn [snd].
  rewrite length_take. lia.
Qed.

(** A connected socket is a channel. *)
Lemma tcp_is_channel :
  connection E fd stream ->
  channel (device_answers E) tcp_ok tcp_out tcp_incoming (fun _ => INT_MAX) INT_MAX.
Proof.
  intros K. split.
  - intros [s h] d [Hs Hf] Hd. simpl in Hs, Hf.
    destruct (connection_send _ _ _ K (h ++ [so_error s]) d) as [Hn Hn1].
    eexists _, (s, (h ++ [so_error s]) ++ [SendTo fd d]).
    unfold device_answers, device_call. cbn [device_send tcp_device fst snd].
    rewrite (tcp_send_count s h d _ K Hs Hf Hd eq_refl) by lia. split_and!; try done; try lia.
    by apply out_after_send.
  - intros [s h] n [Hs Hf] Hn Hle. simpl in Hs, Hf. unfold tcp_incoming in *. cbn [snd] in *.
    destruct (connection_recv _ _ _ K (h ++ [so_error s]) n (flagReceptionBlocking s))
      as (m & HE & Hm & Hm1); rewrite still_after_query in *; [lia|].
    eexists m, (s, (h ++ [so_error s]) ++ [Recv fd n (flagReceptionBlocking s)]).
    unfold device_answers, device_call. cbn [device_receive tcp_device fst snd].
    rewrite (tcp_receive_count s h n _ _ K Hs Hf ltac:(lia) HE) by lia. split_and!; try done; try lia.
    rewrite still_after_receive with (n := m); rewrite still_after_query; done || lia.
Qed.

(** Over a kernel that moves whole messages it is an exact one. *)
Definition tcp_ok_flag (waitall : bool) (w : world net socket) : Prop :=
  tcp_ok w /\ flagReceptionBlocking w.1 = waitall.

Lemma tcp_is_exact waitall :
  connection E fd stream -> whole_messages E fd waitall stream ->
  exact_channel (device_answers E) (tcp_ok_flag waitall) tcp_out tcp_incoming INT_MAX.
Proof.
  intros K M. split.
  - intros [s h] d [[Hs Hf] Hb] Hd. simpl in Hs, Hf.
    exists (s, (h ++ [so_error s]) ++ [SendTo fd d]).
    pose proof (whole_send _ _ _ _ M (h ++ [so_error s]) d) as HE.
    unfold device_answers, device_call. cbn [device_send tcp_device fst snd].
    rewrite (tcp_send_count s h d _ K Hs Hf Hd HE) by lia. split_and!; try done.
    + unfold tcp_out. cbn [snd]. rewrite (out_after_send _ _ _ _ HE). by rewrite Nat2Z.id, take_ge by lia.
    + unfold tcp_incoming, still_on. cbn [snd]. rewrite !along_snoc. unfold received_on at 2 3. simpl.
      by rewrite !app_nil_r.
  - intros [s h] n [[Hs Hf] Hb] Hn Hle. simpl in Hs, Hf, Hb. unfold tcp_incoming in *. cbn [snd] in *.
    pose proof (whole_recv _ _ _ _ M (h ++ [so_error s]) n) as HE. rewrite still_after_query, <-Hb in HE.
    specialize (HE ltac:(lia)). exists (s, (h ++ [so_error s]) ++ [Recv fd n (flagReceptionBlocking s)]).
    unfold device_answers, device_call. cbn [device_receive tcp_device fst snd].
    rewrite (tcp_receive_count s h n _ _ K Hs Hf ltac:(lia) HE) by lia. split_and!; try done.
    + unfold tcp_out. cbn [snd]. rewrite !along_snoc. unfold sent_on at 2 3. simpl.
      by rewrite !app_nil_r.
    + rewrite still_after_receive with (n := n); rewrite still_after_query; done || lia.
  - intros [s h] [[Hs Hf] Hb]. simpl in Hs, Hf. exists (s, h ++ [so_error s]).
    unfold device_answers, device_call. cbn [device_isConnected tcp_device fst snd].
    rewrite (alive_isConnected s h K Hs Hf). split_and!; try done.
    + unfold tcp_out. cbn [snd]. rewrite along_snoc. unfold sent_on at 2. simpl. by rewrite app_nil_r.
    + apply still_after_query.
  - intros [s h] n [[Hs Hf] Hb] Hi Hn. simpl in Hs, Hf, Hb. unfold tcp_incoming in Hi. cbn [snd] in Hi.
    assert (HE : E (h ++ [so_error s]) (Recv fd n (flagReceptionBlocking s) : netcall) = (0, [])).
    { rewrite Hb. apply (whole_end _ _ _ _ M). by rewrite still_after_query. }
    exists (s, (h ++ [so_error s]) ++ [Recv fd n (flagReceptionBlocking s)]).
    unfold device_answers, device_call. cbn [device_receive tcp_device fst snd].
    rewrite (tcp_receive_count s h n _ _ K Hs Hf ltac:(lia) HE) by (unfold INT_MAX in *; lia).
    split_and!; try done. unfold tcp_out. cbn [snd]. rewrite !along_snoc. unfold sent_on at 2 3. simpl.
    by rewrite !app_nil_r.
Qed.
End Connection.

(** A text over TCP: [sendText] on a connected [TcpSocket], whatever part of each [send] the
    kernel takes, returns with the socket still connected, and [receiveText] on the socket at the
    other end, whatever pieces arrive, returns the same text and has read exactly what was sent. *)
Theorem text_over_tcp {S} E1 fd1 s1 text fuel garbage max (s : S) :
  connection E1 fd1 [] -> socketStatus s1 = CONNECTED -> sockfd s1 = fd1 ->
  8 + Z.of_nat (length text) <= INT_MAX -> Z.of_nat (length text) <= max ->
  length garbage = 8%nat -> (8 + length text < fuel)%nat ->
  exists cs s1' h1, sendText fuel text (device_env E1 (s1, [])) s [] =
      (Ok (Z.of_nat (length text)), s, cs) /\
    served (device_answers E1) (s1, []) cs = Some (s1', h1) /\ socketStatus s1' = CONNECTED /\
    forall E2 fd2 s2, connection E2 fd2 (along (sent_on fd1 E1) [] h1) -> socketStatus s2 = CONNECTED ->
      sockfd s2 = fd2 ->
      exists cs2 s2' h2, receiveText fuel garbage max (device_env E2 (s2, [])) s [] = (Ok text, s, cs2) /\
        served (device_answers E2) (s2, []) cs2 = Some (s2', h2) /\ socketStatus s2' = CONNECTED /\
        still_on fd2 E2 (along (sent_on fd1 E1) [] h1) h2 = [].
Proof.
  intros K1 Hs1 Hf1 Hlen Hmax Hg Hfuel.
  destruct (channel_sendText (device_answers E1) _ _ _ _ _ (s1, []) text fuel s
    (tcp_is_channel E1 fd1 [] K1)) as (cs & [s1' h1] & R1 & S1 & [O1 _] & Out);
    try done; [unfold INT_MAX in *; lia|].
  exists cs, s1', h1. split_and!; try done. intros E2 fd2 s2 K2 Hs2 Hf2.
  unfold tcp_out in Out. cbn [snd along app] in Out. rewrite Out in *.
  destruct (channel_receiveText (device_answers E2) _ _ _ _ _ (s2, []) text [] fuel garbage max s
    (tcp_is_channel E2 fd2 _ K2)) as (cs2 & [s2' h2] & R2 & S2 & [O2 _] & Rest);
    try done; try (unfold MAX_SIZE, INT_MAX in *; lia).
  { unfold tcp_incoming, still_on. cbn [snd along length]. by rewrite drop_0, app_nil_r. }
  by exists cs2, s2', h2.
Qed.

(** ** A concrete kernel *)

(** How many bytes were asked for on [fd]. *)
Definition requested (fd : Z) (h : list netcall) : nat :=
  sum_list ((fun c : netcall => match c with
    | Recv g n _ => if g =? fd then Z.to_nat n else 0%nat | _ => 0%nat end) <$> h).

(** A kernel that makes sockets on descriptor [sock] and accepts connections on [fd], takes
    everything sent, and delivers [stream]. *)
Definition line (sock fd : Z) (stream : list Z) : @env net := fun h c =>
  match c as c return net_reply c with
  | SendTo _ d => Z.of_nat (length d)
  | Recv g n _ =>
      let bytes := if g =? fd then take (Z.to_nat n) (drop (requested fd h) stream) else [] in
      (Z.of_nat (length bytes), bytes)
  | Getsockopt _ _ _ _ => (0, Some 0)
  | Getpeername _ => (0, Some 16777343)
  | Socket _ => sock
  | Accept _ => fd
  | _ => 0
  end.

Lemma line_position sock fd stream h :
  length (along (received_on fd (line sock fd stream)) [] h) = Nat.min (requested fd h) (length stream).
Proof.
  induction h as [|c h IH] using rev_ind; [done|]. rewrite along_snoc, length_app, IH.
  unfold requested. rewrite fmap_app, sum_list_with_app. fold (requested fd h).
  destruct c as [| | |g n b| | | | | | |]; try (simpl; lia). unfold received_on. simpl.
  destruct (Z.eqb_spec g fd); simpl; [|lia]. rewrite length_take, length_drop. lia.
Qed.

Lemma line_still sock fd stream h :
  still_on fd (line sock fd stream) stream h = drop (requested fd h) stream.
Proof.
  unfold still_on. rewrite line_position.
  destruct (Nat.le_ge_cases (requested fd h) (length stream)).
  - by rewrite Nat.min_l.
  - rewrite Nat.min_r by done. by rewrite !drop_ge.
Qed.

Lemma line_connection sock fd stream : connection (line sock fd stream) fd stream.
Proof.
  split.
  - intros h. by exists 0.
  - intros h d. simpl. split; [lia|]. intros Hd. destruct d; [done|simpl; lia].
  - intros h n b Hn. rewrite line_still in *. exists n. simpl. rewrite Z.eqb_refl, length_take.
    split; [f_equal; lia|lia].
Qed.

Lemma line_whole sock fd b stream : whole_messages (line sock fd stream) fd b stream.
Proof.
  split.
  - done.
  - intros h n Hn. rewrite line_still in *. simpl. rewrite Z.eqb_refl, length_take. f_equal. lia.
  - intros h n Hs. rewrite line_still in Hs. simpl. by rewrite Z.eqb_refl, Hs, take_nil.
Qed.

Lemma text_over_tcp_witness : exists cs s1' h1,
  sendText 12 [72; 105] (device_env (line 7 7 []) (live 7, [])) tt [] = (Ok 2, tt, cs) /\
  served (device_answers (line 7 7 [])) (live 7, []) cs = Some (s1', h1) /\
  socketStatus s1' = CONNECTED /\
  forall E2 fd2 s2, connection E2 fd2 (along (sent_on 7 (line 7 7 [])) [] h1) ->
    socketStatus s2 = CONNECTED -> sockfd s2 = fd2 ->
    exists cs2 s2' h2, receiveText 12 (replicate 8 170) 100 (device_env E2 (s2, [])) tt [] =
        (Ok [72; 105], tt, cs2) /\
      served (device_answers E2) (s2, []) cs2 = Some (s2', h2) /\ socketStatus s2' = CONNECTED /\
      still_on fd2 E2 (along (sent_on 7 (line 7 7 [])) [] h1) h2 = [].
Proof.
  apply (text_over_tcp (line 7 7 []) 7 (live 7) [72; 105] 12 (replicate 8 170) 100 tt);
    [apply line_connection|reflexivity|reflexivity|unfold INT_MAX; simpl; lia..].
Defined.
