(* ===== verification/RpcSession.v ===== *)
(** * Remote calls over a connection (headers/rpc/RpcClient.h, src/rpc/RpcServer.cpp over
    headers/network/TcpSocket.h; examples/RpcClientOverTcp/main.cpp,
    examples/RpcServerOverTcp/main.cpp)

    A client that makes a sequence of calls, and the server that answers them with [run], each over
    an exact channel: the client gets the values of the functions, and what each side has sent is
    what the other has received.  The two example programs are such a pair. *)

From S2P Require Import Prelude Numbers MemoryStream BinarySerializer Transfer Channel Rpc.
From S2P Require Import Address TcpSocket SocketExchange.

#[local] Existing Instance exchanger.

(** ** Calls *)

(** A call as both sides see it: the function number, the type of its value, the arguments and
    the value. *)
Record remote_call := RemoteCall {
  rc_fid : Z; rc_ret : ctype; rc_args : list arg; rc_result : Z }.

Definition request_bytes (u : remote_call) : list Z :=
  rer_bytes (request (rc_fid u) (rc_args u)) ++ args_bytes (rc_args u).
Definition reply_bytes (u : remote_call) : list Z :=
  match rc_ret u with
  | TVoid => [0]
  | TFund t => object_bytes t (rc_result u)
  | TOther => []
  end.

Definition result_ok (T : ctype) (z : Z) : Prop :=
  match T with
  | TVoid => z = 0
  | TFund t => fundamental t /\ in_ty t z
  | TOther => False
  end.

Record remote_call_ok (u : remote_call) : Prop := {
  rco_fid : in_u 32 (rc_fid u);
  rco_args : Forall arg_ok (rc_args u);
  rco_count : (length (rc_args u) < MAX_PARAM_COUNT)%nat;
  rco_result : result_ok (rc_ret u) (rc_result u) }.

(** The server has a function under the number of the call, registered for the types of the
    arguments, that yields the value. *)
Definition implements (srv : server) (u : remote_call) : Prop :=
  exists f, funStore srv !! rc_fid u =
      Some (wrap_function (rc_ret u) (fst <$> rc_args u) (seq 0 (length (rc_args u))) f) /\
    f (snd <$> rc_args u) = Ok (rc_result u).

(** The call operators of a sequence of callables, one after the other. *)
Fixpoint call_all {S} (us : list remote_call) : prog S (list Z) :=
  match us with
  | [] => mret []
  | u :: us' =>
      z ← get_call (rc_ret u) (rc_fid u) (as_call <$> rc_args u);
      zs ← call_all us';
      mret (z :: zs)
  end.

Lemma length_reply u : remote_call_ok u -> (1 <= length (reply_bytes u) <= 8)%nat.
Proof.
  intros [_ _ _ Hr]. unfold reply_bytes. destruct (rc_ret u) as [|t|]; [simpl; lia| |done].
  destruct Hr as [Hf _]. rewrite length_object_bytes. by apply sizeof_small.
Qed.

Lemma length_request u : remote_call_ok u -> (57 <= length (request_bytes u) <= 105)%nat.
Proof.
  intros [Hf Ha Hn _]. unfold request_bytes. rewrite length_app.
  rewrite length_rer_bytes by (apply ro_count, request_ok; (done || lia)).
  pose proof (args_bytes_small _ Ha). unfold SIZEOF_RER, MAX_PARAM_COUNT in *. lia.
Qed.

(** What the client does with one call. *)
Lemma client_one {S} (E : @env exchanger) (s : S) u h :
  remote_call_ok u ->
  E (h ++ [CSend (request_bytes u)]) (CReceive (Z.of_nat (length (reply_bytes u))) : iocall) =
    (Z.of_nat (length (reply_bytes u)), reply_bytes u) ->
  get_call (rc_ret u) (rc_fid u) (as_call <$> rc_args u) E s h =
    (Ok (rc_result u), s,
     (h ++ [CSend (request_bytes u)]) ++ [CReceive (Z.of_nat (length (reply_bytes u)))]).
Proof.
  intros [Hf Ha Hn Hr] HE. unfold reply_bytes in *. destruct u as [fid [|t|] args z]; simpl in *; [| |done].
  - subst z. unfold get_call. rewrite bind_lift, bind_lift, build_packs_spec by (done || lia).
    erewrite bind_ok; [reflexivity|]. unfold sendExeRequest.
    rewrite bind_lift, rer_serialize_bytes by (apply request_ok; (done || lia)).
    rewrite bind_send. apply (receive_vector_all E s _ [0]); [done|exact HE].
  - destruct Hr as [Hft Hz]. rewrite length_object_bytes in *. rewrite <-app_assoc.
    rewrite (client_call E s t fid args h (object_bytes t z)); try done; try lia.
    + by rewrite object_roundtrip.
    + by rewrite length_object_bytes.
Qed.

(** What the server does with one call, when it has the function. *)
Lemma server_one limit P E srv h u more :
  remote_call_ok u -> implements srv u -> Z.of_nat SIZEOF_RER <= limit ->
  receives_exactly limit P E -> P h (request_bytes u ++ more) ->
  oneShot Stored E srv h = (Ok true, srv, (h ++ server_calls (rc_args u)) ++ [CSend (reply_bytes u)]) /\
  P (h ++ server_calls (rc_args u)) more.
Proof.
  intros [Hf Ha Hn Hr] (f & Hstore & Hz) Hlim HE HP. unfold request_bytes in HP. rewrite <-app_assoc in HP.
  destruct (oneShot_dispatch limit P E srv h (rc_fid u) (rc_args u) _ more Hf Ha Hn Hstore Hlim HE HP)
    as [-> HP']. split; [|done].
  rewrite wrap_function_in_order, Hz by done. cbn [mbind res_bind]. unfold reply_bytes.
  by destruct (rc_ret u).
Qed.

(** ** Sessions over exact channels *)

Section Session.
Context {W : Type} (answers : W -> forall c : io_call, option (io_reply c * W)).
Context (ok : W -> Prop) (out incoming : W -> list Z) (limit : Z).
Hypothesis C : exact_channel answers ok out incoming limit.
Hypothesis Hlimit : 105 <= limit.
Abbreviation both := (at_both answers ok out incoming).

Lemma channel_receives_exactly w0 o :
  receives_exactly limit (fun h i => both w0 h o i) (served_env answers w0).
Proof. intros h n i HP Hn Hle. by apply (exact_receives_next answers ok out incoming limit). Qed.

Lemma client_session {S} w0 us (s : S) h o more :
  Forall remote_call_ok us -> both w0 h o (concat (reply_bytes <$> us) ++ more) ->
  exists cs, call_all us (served_env answers w0) s h = (Ok (rc_result <$> us), s, h ++ cs) /\
    both w0 (h ++ cs) (o ++ concat (request_bytes <$> us)) more.
Proof.
  intros Hall. revert h o. induction Hall as [|u us Hu Hall IH]; intros h o HP.
  { exists []. simpl. by rewrite !app_nil_r. }
  rewrite !fmap_cons in *. cbn [concat] in *. rewrite <-app_assoc in HP.
  pose proof (length_reply u Hu) as Hl. pose proof (length_request u Hu) as Hq.
  apply (exact_sends answers ok out incoming limit w0 h (request_bytes u)) in HP; [|done|lia].
  destruct (exact_receives_next answers ok out incoming limit w0 _ (Z.of_nat (length (reply_bytes u)))
    _ _ C HP) as [HE HP1]; [lia|len|].
  rewrite Nat2Z.id in HE, HP1. rewrite take_app_length in HE. rewrite drop_app_length in HP1.
  destruct (IH _ _ HP1) as (cs & Hrun & HP2).
  exists ([CSend (request_bytes u)] ++ [CReceive (Z.of_nat (length (reply_bytes u)))] ++ cs).
  cbn [call_all]. rewrite (bind_ok _ _ _ _ _ _ _ _ (client_one _ s u h Hu HE)).
  rewrite (bind_ok _ _ _ _ _ _ _ _ Hrun). rewrite <-!app_assoc in *. done.
Qed.

(** The round after the last request. *)
Lemma server_at_end w0 h o srv :
  both w0 h o [] ->
  oneShot Stored (served_env answers w0) srv h = (Ok false, srv, h ++ [CReceive (Z.of_nat SIZEOF_RER)]) /\
  exists w, served answers w0 (h ++ [CReceive (Z.of_nat SIZEOF_RER)]) = Some w /\ ok w /\ out w = o.
Proof.
  intros HP. destruct (exact_at_end answers ok out incoming limit w0 h (Z.of_nat SIZEOF_RER) o C HP)
    as [HE Hw]; [unfold SIZEOF_RER; lia|].
  split; [|done]. unfold oneShot.
  rewrite (@bind_ok exchanger _ _ _ _ _ _ _ _ [] srv (h ++ [CReceive (Z.of_nat SIZEOF_RER)]));
    [reflexivity|].
  unfold receive_vector. rewrite if_false by done. unfold io_receive.
  erewrite bind_ok by reflexivity. rewrite HE. reflexivity.
Qed.

Lemma server_session w0 us srv fuel h o :
  Forall remote_call_ok us -> Forall (implements srv) us -> (length us < fuel)%nat ->
  both w0 h o (concat (request_bytes <$> us)) ->
  exists cs w, run Stored fuel (served_env answers w0) srv h = (Ok tt, srv, h ++ cs) /\
    served answers w0 (h ++ cs) = Some w /\ ok w /\ out w = o ++ concat (reply_bytes <$> us).
Proof.
  intros Hall Himp. revert fuel h o. induction Hall as [|u us Hu Hall IH]; intros [|fuel] h o Hf HP; try lia.
  - simpl in HP. destruct (exact_says_connected _ _ _ _ _ _ _ _ _ C HP) as [HE HP1].
    destruct (server_at_end w0 _ o srv HP1) as [Hone (w & Hw)].
    exists ([CConnected] ++ [CReceive (Z.of_nat SIZEOF_RER)]), w. cbn [run]. unfold isConnected.
    erewrite bind_ok by reflexivity. rewrite HE, (bind_ok _ _ _ _ _ _ _ _ Hone).
    rewrite <-app_assoc in *. simpl. by rewrite app_nil_r.
  - inversion Himp as [|? ? Hi Himp']; subst. rewrite !fmap_cons in *. cbn [concat] in *.
    destruct (exact_says_connected _ _ _ _ _ _ _ _ _ C HP) as [HE HP1].
    destruct (server_one limit _ _ srv _ u _ Hu Hi ltac:(unfold SIZEOF_RER; lia)
      (channel_receives_exactly w0 o) HP1) as [Hone HP2].
    pose proof (length_reply u Hu).
    apply (exact_sends _ _ _ _ limit w0 _ (reply_bytes u)) in HP2; [|done|lia].
    destruct (IH Himp' fuel _ _ ltac:(simpl in Hf; lia) HP2) as (cs & w & Hrun & Hw & Hok & Ho).
    exists ([CConnected] ++ server_calls (rc_args u) ++ [CSend (reply_bytes u)] ++ cs), w.
    cbn [run]. unfold isConnected. erewrite bind_ok by reflexivity. rewrite HE.
    rewrite (bind_ok _ _ _ _ _ _ _ _ Hone). cbv iota.
    split; [etrans; [exact Hrun|]; by rewrite <-!app_assoc|].
    rewrite <-!app_assoc in Hw. rewrite <-app_assoc in Ho. done.
Qed.
End Session.

(** ** Over TCP *)

(** C8. Remote calls over TCP, with reception blocking set on both sockets ([setReceptionBlocking], that
    is, [MSG_WAITALL]): a client makes any sequence of calls, of at most five arguments each, on a
    connected [TcpSocket] and a server with the functions runs on the other.  When what arrives at each
    is what the other sent, over kernels that keep what [recv] with [MSG_WAITALL] and a blocking
    [send] promise as long as there is no error and no signal, every call returns the value of its
    function, the server ends normally when the client has gone, and what each side has sent is
    exactly the requests, or the replies.  The server's compiler evaluates arguments left to right and
    stores to the const members of a request. *)
Theorem rpc_session_over_tcp {S} Ec fc sc Es fs ss srv us fuel (s : S) :
  connection Ec fc (concat (reply_bytes <$> us)) ->
  whole_messages Ec fc true (concat (reply_bytes <$> us)) ->
  connection Es fs (concat (request_bytes <$> us)) ->
  whole_messages Es fs true (concat (request_bytes <$> us)) ->
  tcp_ok_flag fc true (setReceptionBlocking true sc, []) ->
  tcp_ok_flag fs true (setReceptionBlocking true ss, []) ->
  Forall remote_call_ok us -> Forall (implements srv) us -> (length us < fuel)%nat ->
  (exists cs w, call_all us (device_env Ec (setReceptionBlocking true sc, [])) s [] =
      (Ok (rc_result <$> us), s, cs) /\
    served (device_answers Ec) (setReceptionBlocking true sc, []) cs = Some w /\ tcp_ok_flag fc true w /\
    tcp_out Ec fc w = concat (request_bytes <$> us)) /\
  (exists cs w, run Stored fuel (device_env Es (setReceptionBlocking true ss, [])) srv [] = (Ok tt, srv, cs) /\
    served (device_answers Es) (setReceptionBlocking true ss, []) cs = Some w /\ tcp_ok_flag fs true w /\
    tcp_out Es fs w = concat (reply_bytes <$> us)).
Proof.
  intros Kc Mc Ks Ms Oc Os Hall Himp Hf.
  set (sc' := setReceptionBlocking true sc) in *. set (ss' := setReceptionBlocking true ss) in *. split.
  - destruct (client_session (device_answers Ec) _ _ _ INT_MAX
      (tcp_is_exact Ec fc _ true Kc Mc) ltac:(done) (sc', []) us s [] [] [] Hall)
      as (cs & Hrun & w & Hw & Hok & Hout & _).
    { exists (sc', []). unfold tcp_incoming, still_on. simpl. by rewrite drop_0, app_nil_r. }
    by exists cs, w.
  - destruct (server_session (device_answers Es) _ _ _ INT_MAX
      (tcp_is_exact Es fs _ true Ks Ms) ltac:(done) (ss', []) us srv fuel [] [] Hall Himp Hf)
      as (cs & w & Hrun & Hw & Hok & Hout).
    { exists (ss', []). unfold tcp_incoming, still_on. simpl. by rewrite drop_0. }
    by exists cs, w.
Qed.

(** A request that arrives in two pieces, as TCP may deliver it when reception blocking is not
    set (it is not, by default): the server takes the first piece for the end of the connection
    and leaves without an answer and without an error. *)
Theorem short_read_ends_session w (E : @env exchanger) srv fuel h bytes :
  E h (CConnected : iocall) = true -> (length bytes < SIZEOF_RER)%nat ->
  E (h ++ [CConnected : iocall]) (CReceive (Z.of_nat SIZEOF_RER) : iocall) =
    (Z.of_nat (length bytes), bytes) ->
  run w (S fuel) E srv h = (Ok tt, srv, h ++ [CConnected; CReceive (Z.of_nat SIZEOF_RER)]).
Proof.
  intros Hc Hl HE. cbn [run]. unfold isConnected. erewrite bind_ok by reflexivity. rewrite Hc.
  set (h1 := h ++ [CConnected : iocall]) in *.
  assert (Hv : exists v, receive_vector (Z.of_nat SIZEOF_RER) E srv h1 =
      (Ok v, srv, h1 ++ [CReceive (Z.of_nat SIZEOF_RER) : iocall]) /\ length v = length bytes).
  { unfold receive_vector. rewrite if_false by done. unfold io_receive.
    erewrite bind_ok by reflexivity. rewrite HE, bind_lift. unfold overlay.
    rewrite if_false by (rewrite Z.gtb_ltb; apply Z.ltb_ge; lia).
    unfold lift, resize. rewrite if_false by (unfold SIZEOF_RER, MAX_SIZE in *; rewrite Z.gtb_ltb; apply Z.ltb_ge; lia).
    eexists. split; [reflexivity|]. rewrite Nat2Z.id. rewrite length_app, length_take, length_replicate.
    rewrite !length_app, length_take, length_drop, length_replicate. unfold SIZEOF_RER in *. lia. }
  destruct Hv as (v & Hv & Hlen). unfold h1 in *. rewrite <-app_assoc in Hv.
  rewrite (bind_ok (B := unit) _ _ E srv (h ++ [CConnected : iocall]) false srv
    (h ++ [CConnected; CReceive (Z.of_nat SIZEOF_RER)])); [done|].
  unfold oneShot. rewrite (bind_ok _ _ _ _ _ _ _ _ Hv).
  by rewrite (proj2 (Nat.eqb_neq _ _)) by lia.
Qed.

(** ** The example programs *)

Definition RPC_ID_SAY_HELLO : Z := 0.
Definition RPC_ID_SUM : Z := 1.

(** The functions of the server: [sayHello] returns nothing; [sum] adds two [uint32_t]. *)
Definition sayHello (args : list Z) : res Z := Ok 0.
Definition sum (args : list Z) : res Z :=
  match args with [a; b] => Ok (u32 (a + b)) | _ => UB "wrong number of arguments" end.

Definition example_server : server :=
  registerFunction
    (registerFunction RpcServer TVoid [] [] sayHello RPC_ID_SAY_HELLO)
    (TFund uint64_t) [uint32_t; uint32_t] [0; 1]%nat sum RPC_ID_SUM.

(** The program of the client, with the numbers it adds as parameters; it returns the sum it
    computes (and drops).  The text of the address is converted by the library. *)
Definition RpcClientOverTcp_main (pton : string -> option (list Z)) (garbage a b : Z)
  : @prog net socket (option Z) :=
  _ ← TcpSocket AF_INET;
  connectedToServer ← connectTo_ipv4 (IPv4_of_string pton garbage "127.0.0.1") 9898;
  if negb connectedToServer then _ ← destroy; mret None
  else
    z ← on_device (_ ← get_call TVoid RPC_ID_SAY_HELLO [];
                   get_call (TFund uint64_t) RPC_ID_SUM [(TFund uint32_t, a); (TFund uint32_t, b)]) tt;
    _ ← close;
    _ ← destroy;
    mret (Some z).

(** The program of the server: its outcome and the calls to the kernel, the destructors of the two
    sockets included. *)
Definition RpcServerOverTcp_main (w : const_writes) (fuel : nat) (E : @env net) : res unit * list netcall :=
  match (_ ← listenTo 9898 DEFAULT_BACKLOG; acceptRequest) E (TcpListeningSocket AF_INET) [] with
  | (Ok s, l, h) =>
      match on_device (run w fuel) example_server E s h with
      | (Ok _, s', h') =>
          let '(_, _, h2) := destroy E s' h' in
          let '(_, _, h3) := l_destroy E l h2 in
          (Ok tt, h3)
      | (Throw m, _, h') => (Throw m, h')
      | (Block, _, h') => (Block, h')
      | (UB w, _, h') => (UB w, h')
      | (OutOfFuel, _, h') => (OutOfFuel, h')
      end
  | (Throw m, _, h) => (Throw m, h)
  | (Block, _, h) => (Block, h)
  | (UB w, _, h) => (UB w, h)
  | (OutOfFuel, _, h) => (OutOfFuel, h)
  end.

(** The calls the client makes. *)
Definition example_calls (a b : Z) : list remote_call :=
  [RemoteCall RPC_ID_SAY_HELLO TVoid [] 0;
   RemoteCall RPC_ID_SUM (TFund uint64_t) [(uint32_t, a); (uint32_t, b)] (u32 (a + b))].

Lemma two_calls {S} (E : @env exchanger) (s s' : S) h h' u1 u2 z1 z2 :
  call_all [u1; u2] E s h = (Ok [z1; z2], s', h') ->
  (_ ← get_call (rc_ret u1) (rc_fid u1) (as_call <$> rc_args u1);
   get_call (rc_ret u2) (rc_fid u2) (as_call <$> rc_args u2)) E s h = (Ok z2, s', h').
Proof.
  cbn [call_all]. set (m1 := get_call (rc_ret u1) _ _). set (m2 := get_call (rc_ret u2) _ _).
  unfold mbind, prog_bind. destruct (m1 E s h) as [[[x| | | |] s1] h1]; try done.
  destruct (m2 E s1 h1) as [[[y| | | |] s2] h2]; try done. by intros [= -> -> -> ->].
Qed.

Lemma example_calls_ok a b :
  in_u 32 a -> in_u 32 b -> Forall remote_call_ok (example_calls a b).
Proof.
  intros Ha Hb. repeat apply Forall_cons_2; [..|done]; split; simpl; try done;
    try (unfold MAX_PARAM_COUNT; lia).
  - repeat apply Forall_cons_2; [..|done]; (split; [unfold fundamental; simpl; lia|]);
      unfold in_ty, limits_min, limits_max, in_u in *; simpl; lia.
  - split; [unfold fundamental; simpl; lia|]. pose proof (wrap_in_u 32 (a + b) ltac:(lia)).
    unfold in_ty, limits_min, limits_max, in_u in *. simpl. lia.
Qed.

Lemma example_server_implements a b : Forall (implements example_server) (example_calls a b).
Proof.
  repeat apply Forall_cons_2; [..|done].
  - exists sayHello. split; [|done]. unfold example_server, registerFunction, registerRpcFunction.
    simpl. by rewrite lookup_insert_ne, lookup_insert_eq by done.
  - exists sum. split; [|done]. unfold example_server, registerFunction, registerRpcFunction.
    simpl. by rewrite lookup_insert_eq.
Qed.

(** What closing a socket sends. *)
Lemma closing_sends_nothing fd E h g :
  along (sent_on fd E) [] (h ++ [CloseFd g]) = along (sent_on fd E) [] h.
Proof. rewrite along_snoc. by rewrite app_nil_r. Qed.

Lemma client_example pton garbage a b :
  in_u 32 a -> in_u 32 b ->
  let us := example_calls a b in
  let E := line 7 7 (concat (reply_bytes <$> us)) in
  exists s h, RpcClientOverTcp_main pton garbage a b E unconnected [] = (Ok (Some (u32 (a + b))), s, h) /\
    along (sent_on 7 E) [] h = concat (request_bytes <$> us).
Proof.
  intros Ha Hb us E. set (ip := IPv4_of_string pton garbage "127.0.0.1").
  set (h0 := [Socket AF_INET; Connect 7 AF_INET (htons 9898) (toInAddr ip); so_error (live 7)] : list netcall).
  destruct (client_session (device_answers E) _ _ _ INT_MAX
    (tcp_is_exact E 7 _ false (line_connection 7 7 _) (line_whole 7 7 false _)) ltac:(done)
    (live 7, h0) us tt [] [] [] (example_calls_ok a b Ha Hb)) as (cs & Hrun & [s h] & Hw & [[Hs Hf] _] & Hout & _).
  { exists (live 7, h0). unfold tcp_incoming. rewrite app_nil_r. by split_and!. }
  apply (two_calls _ _ _ [] cs) in Hrun. simpl in Hs, Hf.
  pose proof (on_device_ok _ tt E (live 7) h0 _ _ _ _ _ Hrun Hw) as Hdev.
  exists (set_status CLOSED (set_fd 0 s)), (h ++ [CloseFd 7]). rewrite closing_sends_nothing. split; [|exact Hout].
  unfold RpcClientOverTcp_main. fold ip.
  rewrite (bind_ok _ _ E unconnected [] tt (Sock 7 CLOSED AF_INET false) [Socket AF_INET]) by done.
  rewrite (bind_ok _ _ E (Sock 7 CLOSED AF_INET false) [Socket AF_INET] true (live 7) h0) by done.
  cbn [negb]. rewrite (bind_ok _ _ _ _ _ _ _ _ Hdev).
  rewrite (bind_ok _ _ E s h tt (set_status CLOSED (set_fd 0 s)) (h ++ [CloseFd 7])); [done|].
  unfold close. rewrite bind_get, Hf. reflexivity.
Qed.

Lemma server_example a b :
  in_u 32 a -> in_u 32 b ->
  let us := example_calls a b in
  let E := line 7 8 (concat (request_bytes <$> us)) in
  exists h, RpcServerOverTcp_main Stored 4 E = (Ok tt, h) /\
    along (sent_on 8 E) [] h = concat (reply_bytes <$> us).
Proof.
  intros Ha Hb us E.
  set (h0 := [Socket AF_INET; Bind 7 AF_INET (htons 9898); Listen 7 100; Accept 7] : list netcall).
  destruct (server_session (device_answers E) _ _ _ INT_MAX
    (tcp_is_exact E 8 _ false (line_connection 7 8 _) (line_whole 7 8 false _)) ltac:(done)
    (live 8, h0) us example_server 4 [] [] (example_calls_ok a b Ha Hb) (example_server_implements a b))
    as (cs & [s h] & Hrun & Hw & [[Hs Hf] _] & Hout); [simpl; lia| |].
  { exists (live 8, h0). by split_and!. }
  simpl in Hs, Hf. pose proof (on_device_ok _ example_server E (live 8) h0 _ _ _ _ _ Hrun Hw) as Hdev.
  exists ((h ++ [CloseFd 8]) ++ [CloseFd 7]). rewrite !closing_sends_nothing. split; [|exact Hout].
  unfold RpcServerOverTcp_main.
  assert (Hset : (_ ← listenTo 9898 DEFAULT_BACKLOG; acceptRequest) E (TcpListeningSocket AF_INET) [] =
    (Ok (live 8), Listener 7 true AF_INET, h0)) by reflexivity.
  rewrite Hset, Hdev. unfold destroy, close. rewrite bind_get, Hf. reflexivity.
Qed.

(** The example programs, run against each other: whatever the two numbers, when each receives what
    the other sent, the client gets their sum modulo [2^32] (the function adds before it widens) and
    both end normally; what each has sent is the two requests, or the two replies. *)
Theorem rpc_examples_agree pton garbage a b :
  in_u 32 a -> in_u 32 b ->
  let us := example_calls a b in
  let requests := concat (request_bytes <$> us) in
  let replies := concat (reply_bytes <$> us) in
  (exists s h, RpcClientOverTcp_main pton garbage a b (line 7 7 replies) unconnected [] =
      (Ok (Some (u32 (a + b))), s, h) /\ along (sent_on 7 (line 7 7 replies)) [] h = requests) /\
  (exists h, RpcServerOverTcp_main Stored 4 (line 7 8 requests) = (Ok tt, h) /\
    along (sent_on 8 (line 7 8 requests)) [] h = replies).
Proof. intros Ha Hb. split; [by apply client_example|by apply server_example]. Qed.

(** ** Witnesses *)

Lemma rpc_session_over_tcp_witness :
  let us := example_calls 4 50 in
  let Ec := line 7 7 (concat (reply_bytes <$> us)) in
  let Es := line 7 8 (concat (request_bytes <$> us)) in
  let sc := setReceptionBlocking true (live 7) in
  let ss := setReceptionBlocking true (live 8) in
  (exists cs w, call_all us (device_env Ec (sc, [])) tt [] = (Ok [0; 54], tt, cs) /\
    served (device_answers Ec) (sc, []) cs = Some w /\ tcp_ok_flag 7 true w /\
    tcp_out Ec 7 w = concat (request_bytes <$> us)) /\
  (exists cs w, run Stored 4 (device_env Es (ss, [])) example_server [] = (Ok tt, example_server, cs) /\
    served (device_answers Es) (ss, []) cs = Some w /\ tcp_ok_flag 8 true w /\
    tcp_out Es 8 w = concat (reply_bytes <$> us)).
Proof.
  apply (rpc_session_over_tcp (line 7 7 (concat (reply_bytes <$> example_calls 4 50))) 7 (live 7)
    (line 7 8 (concat (request_bytes <$> example_calls 4 50))) 8 (live 8) example_server
    (example_calls 4 50) 4 tt);
    [apply line_connection|apply line_whole|apply line_connection|apply line_whole|done|done
    |apply example_calls_ok; unfold in_u; lia|apply example_server_implements|simpl; lia].
Defined.

Definition first_piece : @env exchanger := fun h c =>
  match c as c return io_reply c with
  | CReceive _ => (2, [239; 190])
  | CSend d => Z.of_nat (length d)
  | _ => true
  end.
Lemma short_read_ends_session_witness :
  run Stored 4 first_piece example_server [] = (Ok tt, example_server, [CConnected; CReceive 57]).
Proof.
  apply (short_read_ends_session Stored first_piece example_server 3 [] [239; 190]);
    [reflexivity|unfold SIZEOF_RER; simpl; lia|reflexivity].
Defined.

Lemma rpc_examples_agree_witness :
  let us := example_calls 4 50 in
  let requests := concat (request_bytes <$> us) in
  let replies := concat (reply_bytes <$> us) in
  (exists s h, RpcClientOverTcp_main (fun _ => None) 0 4 50 (line 7 7 replies) unconnected [] =
      (Ok (Some 54), s, h) /\ along (sent_on 7 (line 7 7 replies)) [] h = requests) /\
  (exists h, RpcServerOverTcp_main Stored 4 (line 7 8 requests) = (Ok tt, h) /\
    along (sent_on 8 (line 7 8 requests)) [] h = replies).
Proof. apply (rpc_examples_agree (fun _ => None) 0 4 50); unfold in_u; lia. Defined.
