(* ===== verification/NamedPipe.v ===== *)
(** * Named pipes (src/os/NamedPipe.cpp, headers/os/NamedPipe.h)

    The POSIX branch of [NamedPipe]: a FIFO in the file system, opened for reading and writing.
    The kernel is the environment. *)

From S2P Require Import Prelude Numbers Ownership.

Inductive pipe_call :=
  | Mkfifo (path : string)
  | OpenRdwr (path : string)
  | Write (fd : Z) (data : list Z)
  | Read (fd size : Z)
  | ClosePipe (fd : Z)
  | Unlink (path : string).

(** [read] stores bytes in the caller's buffer. *)
Definition pipe_reply (c : pipe_call) : Type :=
  match c with Read _ _ => Z * list Z | _ => Z end.
Definition pipes : Sys := {| call := pipe_call; reply := pipe_reply |}.
#[export] Existing Instance pipes.
Abbreviation pipecall := (@call pipes).

Definition getFullName (name : string) : string := "/tmp/GicamePipe-" +:+ name.

Inductive State := DISCONNECTED | CREATED | CONNECTED.
#[global] Instance State_eq_dec : EqDecision State.
Proof. solve_decision. Defined.

Record pipe := Pipe { fd : Z; fullName : string; state : State }.

Definition NamedPipe (name : string) : pipe := Pipe (-1) (getFullName name) DISCONNECTED.

Definition set_fd (f : Z) (p : pipe) : pipe := Pipe f (fullName p) (state p).
Definition set_state (st : State) (p : pipe) : pipe := Pipe (fd p) (fullName p) st.

Abbreviation np := (prog pipe).

Definition close : np unit :=
  this ← get;
  _ ← (if 0 <=? fd this then _ ← sys (ClosePipe (fd this) : pipecall); mret tt else mret tt);
  _ ← modify (set_fd (-1));
  modify (set_state DISCONNECTED).

Definition destroy : np unit := close.

Definition create (bufferSize : Z) : np bool :=
  this ← get;
  retCode ← sys (Mkfifo (fullName this) : pipecall);
  if negb (retCode =? 0) then _ ← close; mret false
  else _ ← modify (set_state CREATED); mret true.

Definition open : np bool :=
  this ← get;
  if decide (state this = CONNECTED) then mret true
  else
    f ← sys (OpenRdwr (fullName this) : pipecall);
    _ ← modify (set_fd f);
    if f <? 0 then _ ← close; mret false
    else _ ← modify (set_state CONNECTED); mret true.

(** [write] and [read] answer with an [ssize_t]; [~size_t(0)] is the error value. *)
Definition send (buffer : list Z) : np Z :=
  this ← get;
  if bool_decide (state this <> CONNECTED) then throw "Pipe not connected"
  else
    writtenByteCount ← sys (Write (fd this) buffer : pipecall);
    if writtenByteCount <? 0 then _ ← close; mret SIZE_MAX
    else lift (safeNumericCast size_t int64_t writtenByteCount).

Definition receive (size : Z) : np (Z * list Z) :=
  this ← get;
  if bool_decide (state this <> CONNECTED) then throw "Pipe not connected"
  else
    '(readByteCount, bytes) ← sys (Read (fd this) size : pipecall);
    if readByteCount <? 0 then _ ← close; mret (SIZE_MAX, [])
    else
      n ← lift (safeNumericCast size_t int64_t readByteCount);
      mret (n, bytes).

Definition isSenderConnected (p : pipe) : bool := bool_decide (state p = CONNECTED).
Definition isReceiverConnected (p : pipe) : bool := bool_decide (state p = CONNECTED).

Definition unlink : np unit :=
  this ← get;
  if bool_decide (state this = CONNECTED) then throw "NamedPipe cannot be unlinked if connected"
  else
    _ ← (if bool_decide (state this <> DISCONNECTED) then close else mret tt);
    _ ← sys (Unlink (fullName this) : pipecall);
    mret tt.

(** ** Running the operations of an owner *)

Inductive op := OOpen | OSend (data : list Z) | OReceive (size : Z) | OClose | OUnlink.

Definition run_op (o : op) : np unit :=
  match o with
  | OOpen => _ ← open; mret tt
  | OSend data => _ ← send data; mret tt
  | OReceive size => _ ← receive size; mret tt
  | OClose => close
  | OUnlink => unlink
  end.

(** A pipe from its constructor to its destructor: the end that makes the FIFO calls [create]
    first, the other does not. *)
Definition life (creates : option Z) (ops : list op) : np unit :=
  _ ← (match creates with Some n => _ ← create n; mret tt | None => mret tt end);
  lifetime run_op destroy ops.

(** ** Who holds the descriptor *)

Definition descriptor (f : Z) : list Z := if 0 <=? f then [f] else [].
#[export] Instance pipe_resources : @Resources pipes Z := {|
  acquired c := match c as c return pipe_reply c -> list Z with
                | OpenRdwr _ => descriptor
                | _ => fun _ => []
                end;
  released c := match c with ClosePipe f => [f] | _ => [] end |}.

(** The invariant: the pipe is connected exactly when it holds a descriptor. *)
Definition consistent (p : pipe) : Prop := (0 <= fd p <-> state p = CONNECTED).
Definition holds (p : pipe) (held : list Z) : Prop := held = descriptor (fd p) /\ consistent p.
Abbreviation keeps p := (triple holds p (fun _ => holds) holds).

Lemma descriptor_none f : f < 0 -> descriptor f = [].
Proof. intros. unfold descriptor. by rewrite if_false by (apply Z.leb_gt; lia). Qed.
Lemma descriptor_some f : 0 <= f -> descriptor f = [f].
Proof. intros. unfold descriptor. by rewrite if_true by (apply Z.leb_le; lia). Qed.

(** [close] releases the descriptor, connected or not. *)
Lemma pipe_close_releases :
  triple (fun p held => held = descriptor (fd p)) close
    (fun _ p held => held = [] /\ fd p = -1 /\ state p = DISCONNECTED) (fun _ _ => False).
Proof.
  apply triple_get. intros p. apply (triple_bind _ _ _ (fun _ p' held => held = [])).
  - destruct (0 <=? fd p) eqn:Hfd.
    + apply (triple_bind _ _ _ (fun _ p' held => held = [])); [|intros _; by apply triple_ret].
      sys_release (fd p); [done|done|]. intros _ s held [-> ->]. exists []. unfold descriptor.
      by rewrite Hfd.
    + apply triple_ret. intros s held [-> ->]. unfold descriptor. by rewrite Hfd.
  - intros _. apply (triple_bind _ _ _ (fun _ p' held => held = [] /\ fd p' = -1)).
    + by apply triple_modify.
    + intros _. apply triple_modify. by intros s held [-> ?].
Qed.

Lemma pipe_keeps_close : triple (fun p held => held = descriptor (fd p)) close (fun _ => holds) (fun _ _ => False).
Proof.
  eapply triple_weaken; [apply pipe_close_releases|done| |done]. intros _ p held (-> & Hf & Hs).
  split; [by rewrite Hf|]. unfold consistent. by rewrite Hf, Hs.
Qed.

Create HintDb keeps discriminated.
#[local] Hint Constants Opaque : keeps.
#[local] Hint Resolve pipe_keeps_close : keeps.

Ltac holding :=
  intros; destruct_and?; repeat match goal with H : holds _ _ |- _ => destruct H end; subst;
  try (split; [done|]); try done.

Ltac keeping :=
  repeat (intros; cbv beta;
    first
      [ solve [eapply triple_weaken; [solve [eauto 1 with keeps] | holding | holding | holding]]
      | lazymatch goal with
        | |- triple _ (mret _) _ _ => apply triple_ret; solve [holding]
        | |- triple _ (throw _) _ _ => apply triple_throw; solve [holding]
        | |- triple _ (lift _) _ _ => apply triple_lift; solve [holding]
        | |- triple _ (sys _) _ _ => sys_neutral; solve [holding]
        | |- triple _ (get ≫= _) _ _ => apply triple_get
        | |- triple _ (_ ≫= _) _ _ => apply (triple_bind _ _ _ (fun _ => holds))
        | |- triple _ _ _ _ => case_match
        end ]).

Lemma pipe_keeps_send data : keeps (send data).
Proof. unfold send. keeping. Qed.
Lemma pipe_keeps_receive size : keeps (receive size).
Proof. unfold receive. keeping. Qed.
Lemma pipe_keeps_unlink : keeps unlink.
Proof. unfold unlink. keeping. Qed.

Lemma pipe_keeps_open : keeps open.
Proof.
  apply triple_get. intros p. destruct (decide (state p = CONNECTED)) as [|Hn].
  { apply triple_ret. by intros s held [-> ?]. }
  apply (triple_bind _ _ _ (fun f s held => held = descriptor f /\ s = p)).
  { sys_acquire; [done|]. intros f s held [-> [-> Hc]]. split; [|done]. simpl.
    rewrite (descriptor_none (fd p)), app_nil_r; [done|]. unfold consistent in Hc.
    destruct (Z.lt_ge_cases (fd p) 0); [done|]. by destruct Hn; apply Hc. }
  intros f. apply (triple_bind _ _ _ (fun _ s held => held = descriptor (fd s) /\ fd s = f)).
  { apply triple_modify. by intros s held [-> _]. }
  intros _. destruct (f <? 0) eqn:Hf; bools.
  - eapply (triple_bind _ _ _ (fun _ => holds)); [|intros _; by apply triple_ret].
    eapply triple_weaken; [apply pipe_keeps_close|by intros s held [? _]|done|done].
  - apply (triple_bind _ _ _ (fun _ => holds)); [|intros _; by apply triple_ret].
    apply triple_modify. intros s held [-> Hs]. split; [done|]. unfold consistent. simpl.
    split; [done|]. intros _. lia.
Qed.

Lemma pipe_keeps_create n p : consistent p -> state p <> CONNECTED ->
  triple (fun s held => s = p /\ holds s held) (create n) (fun _ => holds) (fun _ _ => False).
Proof.
  intros Hc Hn. apply triple_get. intros p0.
  apply (triple_bind _ _ _ (fun _ s held => s = p /\ holds s held)).
  { sys_neutral; [done|done|]. by intros r s held [-> [-> ?]]. }
  intros r. destruct (r =? 0); simpl negb; cbv iota.
  - apply (triple_bind _ _ _ (fun _ => holds)); [|intros _; by apply triple_ret].
    apply triple_modify. intros s held [-> [-> _]]. split; [done|]. unfold consistent in *. simpl.
    split; [|done]. intros Hf. by destruct Hn; apply Hc.
  - apply (triple_bind _ _ _ (fun _ => holds)); [|intros _; by apply triple_ret].
    eapply triple_weaken; [apply pipe_keeps_close| |done|done]. by intros s held [-> [-> _]].
Qed.

Lemma pipe_keeps_op o : keeps (run_op o).
Proof.
  destruct o; simpl; try apply pipe_keeps_unlink; try (apply (triple_bind _ _ _ (fun _ => holds));
    [|intros; by apply triple_ret]).
  - apply pipe_keeps_open.
  - apply pipe_keeps_send.
  - apply pipe_keeps_receive.
  - eapply triple_weaken; [apply pipe_keeps_close|by intros s held [? _]|done|done].
Qed.

(** The pipe's descriptor is closed exactly once, whatever the kernel answers: from the
    constructor, through [create] on the side that makes the FIFO and then any sequence of
    opens, sends, receives, closes and unlinks, exceptions included, to the destructor. *)
Theorem pipe_closed_once name creates ops E r p h :
  life creates ops E (NamedPipe name) [] = (r, p, h) -> releases h ≡ₚ acquires E [] h.
Proof.
  apply (released_exactly _ (fun p held => p = NamedPipe name /\ held = [])); [|done].
  apply (triple_bind _ _ _ (fun _ => holds)).
  - destruct creates as [n|].
    + apply (triple_bind _ _ _ (fun _ => holds)); [|intros; by apply triple_ret].
      eapply triple_weaken; [apply (pipe_keeps_create n (NamedPipe name))| |done|done]; [|done|].
      * unfold consistent. simpl. split; [lia|done].
      * intros s held [-> ->]. split; [done|]. split; [done|]. unfold consistent. simpl.
        split; [lia|done].
    + apply triple_ret. intros s held [-> ->]. split; [done|]. unfold consistent. simpl.
      split; [lia|done].
  - intros _. apply (triple_lifetime run_op destroy holds); [apply pipe_keeps_op|].
    eapply triple_weaken; [apply pipe_close_releases| | |done].
    + by intros s held [-> _].
    + by intros _ s held [-> _].
Qed.

(** [create] on a connected pipe loses its descriptor: when the FIFO can be made (because its
    name was removed meanwhile) the state goes back to CREATED, the next [open] overwrites the
    descriptor, and the old one is never closed. *)
Theorem create_when_connected_leaks (E : @env pipes) p h f :
  state p = CONNECTED -> 0 <= fd p ->
  let c1 := Mkfifo (fullName p) : pipecall in
  let c2 := OpenRdwr (fullName p) : pipecall in
  E h c1 = 0 -> E (h ++ [c1]) c2 = f -> 0 <= f ->
  exists p', (_ ← create 0; open) E p h = (Ok true, p', h ++ [c1; c2]) /\
    releases (history (destroy E p' [])) = [f].
Proof.
  intros Hs Hfd c1 c2 H1 H2 Hf. exists (Pipe f (fullName p) CONNECTED). split.
  - assert (Hc : create 0 E p h = (Ok true, set_state CREATED p, h ++ [c1])).
    { unfold create. rewrite bind_get. erewrite bind_ok by reflexivity. by fold c1; rewrite H1. }
    rewrite (bind_ok _ _ _ _ _ _ _ _ Hc). unfold open. rewrite bind_get.
    destruct (decide (state (set_state CREATED p) = CONNECTED)); [done|].
    erewrite bind_ok by reflexivity. change (fullName (set_state CREATED p)) with (fullName p).
    fold c2. rewrite H2, bind_modify, (if_false (f <? 0)) by (by apply Z.ltb_ge).
    rewrite <-app_assoc. reflexivity.
  - unfold destroy, close. rewrite bind_get. cbn [fd].
    by rewrite (if_true (0 <=? f)) by (by apply Z.leb_le).
Qed.

Lemma pipe_close_run (E : @env pipes) p h :
  0 <= fd p ->
  close E p h = (Ok tt, Pipe (-1) (fullName p) DISCONNECTED, h ++ [ClosePipe (fd p)]).
Proof.
  intros Hfd. unfold close. rewrite bind_get. by rewrite (if_true (0 <=? fd p)) by (by apply Z.leb_le).
Qed.

(** Every branch of [send]: on a pipe that is not connected it throws and asks the kernel
    nothing; a count is returned as it is; an error closes the pipe and is reported as the
    largest [size_t], not as an exception. *)
Theorem pipe_send_branches (E : @env pipes) p h data :
  (state p <> CONNECTED -> exists m, send data E p h = (Throw m, p, h)) /\
  (state p = CONNECTED -> 0 <= fd p -> forall n,
   E h (Write (fd p) data : pipecall) = n -> -1 <= n <= Z.of_nat (length data) ->
   Z.of_nat (length data) < 2 ^ 63 ->
   if n <? 0
   then send data E p h = (Ok SIZE_MAX, Pipe (-1) (fullName p) DISCONNECTED,
                           h ++ [Write (fd p) data; ClosePipe (fd p)])
   else send data E p h = (Ok n, p, h ++ [Write (fd p) data])).
Proof.
  split.
  - intros Hs. unfold send. rewrite bind_get, if_true by (by apply bool_decide_true). by eexists.
  - intros Hs Hfd n HE Hn Hlen. unfold send. rewrite bind_get.
    rewrite (if_false (bool_decide (state p <> CONNECTED))) by (apply bool_decide_false; by intros []).
    erewrite bind_ok by reflexivity. rewrite HE. destruct (Z.ltb_spec n 0) as [Hneg|Hpos].
    + rewrite (bind_ok _ _ _ _ _ _ _ _ (pipe_close_run E p _ Hfd)), <-app_assoc. done.
    + unfold lift. rewrite safeNumericCast_i64_size by lia. done.
Qed.

(** ** Witnesses *)

(** A kernel where the FIFO can be made and opened, takes two bytes and then fails. *)
Definition kernel : @env pipes := fun h c =>
  match c as c return pipe_reply c with
  | OpenRdwr _ => Z.of_nat (length h)
  | Write _ d => if (length h <? 4)%nat then Z.of_nat (length d) else -1
  | Read _ _ => (2, [1; 2])
  | _ => 0
  end.
Definition connected : pipe := Pipe 5 "/tmp/GicamePipe-x" CONNECTED.

Definition example_ops : list op := [OOpen; OSend [1; 2]; OSend [3]; OSend [4]; OOpen; OClose; OUnlink].
Lemma pipe_closed_once_witness :
  releases (history (life (Some 64) example_ops kernel (NamedPipe "x") [])) ≡ₚ [1; 6].
Proof.
  apply (pipe_closed_once "x" (Some 64) example_ops kernel (Ok tt)
           (Pipe (-1) "/tmp/GicamePipe-x" DISCONNECTED)).
  vm_compute. reflexivity.
Defined.

Lemma create_when_connected_leaks_witness : exists p',
  (_ ← create 0; open) kernel connected [] =
    (Ok true, p', [Mkfifo "/tmp/GicamePipe-x"; OpenRdwr "/tmp/GicamePipe-x"]) /\
  releases (history (destroy kernel p' [])) = [1].
Proof. by apply (create_when_connected_leaks kernel connected [] 1). Defined.

Lemma pipe_send_branches_witness :
  send [1; 2] kernel connected [] = (Ok 2, connected, [Write 5 [1; 2]]) /\
  exists m, send [1; 2] kernel (NamedPipe "x") [] = (Throw m, NamedPipe "x", []).
Proof.
  split.
  - by apply (proj2 (pipe_send_branches kernel connected [] [1; 2]) eq_refl ltac:(done) 2 eq_refl).
  - by apply (proj1 (pipe_send_branches kernel (NamedPipe "x") [] [1; 2])).
Defined.
