(* ===== verification/PipeExchange.v ===== *)
(** * Texts and messages over named pipes (headers/os/NamedPipe.h as an [IDataExchanger],
    examples/NamedPipeClient/main.cpp, examples/NamedPipeServer/main.cpp)

    A connected [NamedPipe] over a FIFO that takes at least a byte of every write and hands out the
    bytes in order is a channel, so a text goes through unharmed however the kernel cuts it.  The two
    example programs exchange numbers the same way; with one FIFO for both directions their answer
    depends on who reads first. *)

From S2P Require Import Prelude Numbers Transfer Channel NamedPipe.

(** ** The pipe as a device *)

#[export] Instance pipe_device : Device pipes pipe := {|
  device_send := send;
  device_receive := receive;
  device_isSenderConnected := gets isSenderConnected;
  device_isReceiverConnected := gets isReceiverConnected;
  device_isConnected := default_isConnected (gets isReceiverConnected) (gets isSenderConnected) |}.

(** The bytes the kernel takes from a write to descriptor [f], and those it hands to a read. *)
Definition written (f : Z) (E : @env pipes) : list pipecall -> pipecall -> list Z := fun h c =>
  (match c as c return pipe_reply c -> list Z with
   | Write g d => fun n => if g =? f then take (Z.to_nat n) d else []
   | _ => fun _ => []
   end) (E h c).
Definition fetched (f : Z) (E : @env pipes) : list pipecall -> pipecall -> list Z := fun h c =>
  (match c as c return pipe_reply c -> list Z with
   | Read g _ => fun r => if g =? f then snd r else []
   | _ => fun _ => []
   end) (E h c).

(** The kernel's end of a FIFO open on [f], on which [stream] arrives: a write takes a part of
    what it is given, a read hands out the next bytes, both at least one. *)
Record fifo (E : @env pipes) (f : Z) (stream : list Z) : Prop := {
  fifo_write h d : 0 <= E h (Write f d : pipecall) <= Z.of_nat (length d) /\
    (d <> [] -> 1 <= E h (Write f d : pipecall));
  fifo_read h n : let incoming := drop (length (along (fetched f E) [] h)) stream in
    0 <= n <= Z.of_nat (length incoming) ->
    exists m, E h (Read f n : pipecall) = (m, take (Z.to_nat m) incoming) /\
      0 <= m <= n /\ (0 < n -> 1 <= m) }.

Definition SSIZE_MAX : Z := 2 ^ 63 - 1.

Section Fifo.
Context (E : @env pipes) (f : Z) (stream : list Z).

(** The pipe is connected to [f]. *)
Definition pipe_ok (w : world pipes pipe) : Prop := state w.1 = CONNECTED /\ fd w.1 = f.
Definition pipe_out (w : world pipes pipe) : list Z := along (written f E) [] w.2.
Definition pipe_incoming (w : world pipes pipe) : list Z :=
  drop (length (along (fetched f E) [] w.2)) stream.

Lemma pipe_send_count p h d n :
  state p = CONNECTED -> fd p = f -> E h (Write f d : pipecall) = n ->
  0 <= n <= SSIZE_MAX -> send d E p h = (Ok n, p, h ++ [Write f d]).
Proof.
  unfold SSIZE_MAX. intros Hs Hf HE Hn. unfold send. rewrite bind_get.
  rewrite (if_false (bool_decide (state p <> CONNECTED))) by (apply bool_decide_false; by intros []).
  rewrite Hf. erewrite bind_ok by reflexivity. rewrite HE, (if_false (n <? 0)) by (apply Z.ltb_ge; lia).
  unfold lift. by rewrite safeNumericCast_i64_size by lia.
Qed.

Lemma pipe_receive_count p h k n bytes :
  state p = CONNECTED -> fd p = f -> E h (Read f k : pipecall) = (n, bytes) ->
  0 <= n <= SSIZE_MAX -> receive k E p h = (Ok (n, bytes), p, h ++ [Read f k]).
Proof.
  unfold SSIZE_MAX. intros Hs Hf HE Hn. unfold receive. rewrite bind_get.
  rewrite (if_false (bool_decide (state p <> CONNECTED))) by (apply bool_decide_false; by intros []).
  rewrite Hf. erewrite bind_ok by reflexivity. rewrite HE, (if_false (n <? 0)) by (apply Z.ltb_ge; lia).
  rewrite bind_lift, safeNumericCast_i64_size by lia. done.
Qed.

(** A connected pipe is a channel. *)
Lemma pipe_is_channel :
  fifo E f stream ->
  channel (device_answers E) pipe_ok pipe_out pipe_incoming (fun _ => SSIZE_MAX) SSIZE_MAX.
Proof.
  intros K. split.
  - intros [p h] d [Hs Hf] Hd. simpl in Hs, Hf, Hd.
    destruct (fifo_write _ _ _ K h d) as [Hn Hn1].
    eexists _, (p, h ++ [Write f d]). unfold device_answers, device_call. cbn [device_send pipe_device fst snd].
    rewrite (pipe_send_count p h d _ Hs Hf eq_refl) by lia. split_and!; try done; try lia.
    unfold pipe_out. cbn [snd]. rewrite along_snoc. f_equal. unfold written. by rewrite Z.eqb_refl.
  - intros [p h] n [Hs Hf] Hn Hle. simpl in Hs, Hf. unfold pipe_incoming in *. cbn [snd] in *.
    destruct (fifo_read _ _ _ K h n) as (m & HE & Hm & Hm1); [lia|].
    eexists m, (p, h ++ [Read f n]). unfold device_answers, device_call. cbn [device_receive pipe_device fst snd].
    rewrite (pipe_receive_count p h n _ _ Hs Hf HE) by lia. split_and!; try done; try lia.
    rewrite along_snoc, length_app, <-drop_drop. f_equal. unfold fetched. rewrite HE, Z.eqb_refl.
    cbn [snd]. rewrite length_take. lia.
Qed.
End Fifo.

(** C10. A text over a pipe: [sendText] on a connected [NamedPipe], whatever pieces the kernel takes of
    each write, returns with the pipe still connected, and [receiveText] on the pipe at the
    other end of the FIFO, whatever pieces it hands out, returns the same text and has read
    exactly what was written. *)
Theorem text_over_pipe {S} E1 f1 p1 text fuel garbage max (s : S) :
  fifo E1 f1 [] -> state p1 = CONNECTED -> fd p1 = f1 ->
  8 + Z.of_nat (length text) <= SSIZE_MAX -> Z.of_nat (length text) <= max ->
  length garbage = 8%nat -> (8 + length text < fuel)%nat ->
  exists cs p1' h1, sendText fuel text (device_env E1 (p1, [])) s [] =
      (Ok (Z.of_nat (length text)), s, cs) /\
    served (device_answers E1) (p1, []) cs = Some (p1', h1) /\ state p1' = CONNECTED /\
    forall E2 f2 p2, fifo E2 f2 (along (written f1 E1) [] h1) -> state p2 = CONNECTED -> fd p2 = f2 ->
      exists cs2 p2' h2, receiveText fuel garbage max (device_env E2 (p2, [])) s [] = (Ok text, s, cs2) /\
        served (device_answers E2) (p2, []) cs2 = Some (p2', h2) /\ state p2' = CONNECTED /\
        drop (length (along (fetched f2 E2) [] h2)) (along (written f1 E1) [] h1) = [].
Proof.
  intros K1 Hs1 Hf1 Hlen Hmax Hg Hfuel.
  destruct (channel_sendText (device_answers E1) _ _ _ _ _ (p1, []) text fuel s
    (pipe_is_channel E1 f1 [] K1)) as (cs & [p1' h1] & R1 & S1 & [O1 _] & Out);
    try done; [unfold SSIZE_MAX in *; lia|].
  exists cs, p1', h1. split_and!; try done. intros E2 f2 p2 K2 Hs2 Hf2.
  unfold pipe_out in Out. cbn [snd along app] in Out. rewrite Out in *.
  destruct (channel_receiveText (device_answers E2) _ _ _ _ _ (p2, []) text [] fuel garbage max s
    (pipe_is_channel E2 f2 _ K2)) as (cs2 & [p2' h2] & R2 & S2 & [O2 _] & Rest);
    try done; try (unfold MAX_SIZE, SSIZE_MAX in *; lia).
  { unfold pipe_incoming. cbn [snd along length]. by rewrite drop_0, app_nil_r. }
  by exists cs2, p2', h2.
Qed.

(** ** The example programs *)

(** [uint32_t x = old; pipe.receive(&x, sizeof(x));] *)
Definition receive_u32 (old : Z) : np Z :=
  '(_, bytes) ← receive 4;
  buffer ← lift (overlay (le_bytes 4 old) 0 4 bytes);
  mret (le_val buffer).

(** The program of the client, with the numbers it sends as parameters; it prints the answer. *)
Definition NamedPipeClient_main (a b : Z) : np Z :=
  _ ← open;
  _ ← send (le_bytes 4 a);
  _ ← send (le_bytes 4 b);
  c ← receive_u32 0;
  _ ← close;
  mret c.

Definition NamedPipeServer_main : np Z :=
  _ ← create (4 * 1024);
  _ ← open;
  a ← receive_u32 0;
  b ← receive_u32 0;
  let c := u32 (a + b) in
  _ ← send (le_bytes 4 c);
  _ ← close;
  _ ← unlink;
  mret c.

Definition example_pipe : pipe := NamedPipe "ExamplePipeName".

(** The bytes offered to the kernel in a history, and how many were asked for. *)
Definition offered (h : list pipecall) : list Z :=
  concat ((fun c : pipecall => match c with Write _ d => d | _ => [] end) <$> h).
Definition asked (h : list pipecall) : nat :=
  sum_list ((fun c : pipecall => match c with Read _ n => Z.to_nat n | _ => 0%nat end) <$> h).

(** A kernel that takes everything and answers reads from what the peer has made of the bytes
    written so far. *)
Definition turn (peer : list Z -> list Z) : @env pipes := fun h c =>
  match c as c return pipe_reply c with
  | OpenRdwr _ => 5
  | Write _ d => Z.of_nat (length d)
  | Read _ n => (n, take (Z.to_nat n) (drop (asked h) (peer (offered h))))
  | _ => 0
  end.

(** The server, given what the client has written. *)
Definition server_turn (sent : list Z) : list Z :=
  offered (history (NamedPipeServer_main (turn (fun _ => sent)) example_pipe [])).

Lemma receive_u32_value (E : @env pipes) f name h old x :
  0 <= x < 2 ^ 32 -> E h (Read f 4 : pipecall) = (4, le_bytes 4 x) ->
  receive_u32 old E (Pipe f name CONNECTED) h = (Ok x, Pipe f name CONNECTED, h ++ [Read f 4]).
Proof.
  intros Hx HE. unfold receive_u32.
  rewrite (bind_ok _ _ _ _ _ _ _ _ (pipe_receive_count E f (Pipe f name CONNECTED) h 4 4 _
    eq_refl eq_refl HE ltac:(unfold SSIZE_MAX; lia))).
  rewrite bind_lift. unfold overlay. rewrite length_le_bytes.
  rewrite (if_false (_ >? _)) by done. rewrite drop_ge by (rewrite length_le_bytes; simpl; lia).
  rewrite take_0, app_nil_l, app_nil_r. unfold mret, prog_ret.
  by rewrite le_val_le_bytes_small by (change (256 ^ Z.of_nat 4) with (2 ^ 32); lia).
Qed.

Definition open_pipe : pipe := Pipe 5 "/tmp/GicamePipe-ExamplePipeName" CONNECTED.

Lemma turn_send peer h d :
  Z.of_nat (length d) <= SSIZE_MAX ->
  send d (turn peer) open_pipe h = (Ok (Z.of_nat (length d)), open_pipe, h ++ [Write 5 d]).
Proof. intros Hd. apply (pipe_send_count _ 5); (done || lia). Qed.

Lemma turn_receive peer h x :
  0 <= x < 2 ^ 32 -> take 4 (drop (asked h) (peer (offered h))) = le_bytes 4 x ->
  receive_u32 0 (turn peer) open_pipe h = (Ok x, open_pipe, h ++ [Read 5 4]).
Proof.
  intros Hx Hr. apply receive_u32_value; [done|]. cbn [turn]. change (Z.to_nat 4) with 4%nat.
  by rewrite Hr.
Qed.

(** The client's run: two writes, a read of whatever the peer has made of them. *)
Lemma client_run peer a b c :
  0 <= c < 2 ^ 32 -> take 4 (peer (le_bytes 4 a ++ le_bytes 4 b)) = le_bytes 4 c ->
  outcome (NamedPipeClient_main a b (turn peer) example_pipe []) = Ok c.
Proof.
  intros Hc Hp. unfold NamedPipeClient_main.
  erewrite bind_ok by (apply (eq_refl : open (turn peer) example_pipe [] =
    (Ok true, open_pipe, [OpenRdwr "/tmp/GicamePipe-ExamplePipeName"]))).
  rewrite (bind_ok _ _ _ _ _ _ _ _ (turn_send peer _ (le_bytes 4 a) ltac:(done))).
  rewrite (bind_ok _ _ _ _ _ _ _ _ (turn_send peer _ (le_bytes 4 b) ltac:(done))).
  erewrite bind_ok by (apply turn_receive; [exact Hc|exact Hp]).
  reflexivity.
Qed.

(** The server's run on the two numbers of a client. *)
Lemma server_run a b :
  0 <= a < 2 ^ 32 -> 0 <= b < 2 ^ 32 ->
  let '(r, p, h) := NamedPipeServer_main (turn (fun _ => le_bytes 4 a ++ le_bytes 4 b)) example_pipe [] in
  r = Ok (u32 (a + b)) /\ state p = DISCONNECTED /\ offered h = le_bytes 4 (u32 (a + b)).
Proof.
  intros Ha Hb. set (E := turn _). unfold NamedPipeServer_main.
  erewrite bind_ok by (apply (eq_refl : create (4 * 1024) E example_pipe [] =
    (Ok true, set_state CREATED example_pipe, [Mkfifo "/tmp/GicamePipe-ExamplePipeName"]))).
  erewrite bind_ok by (apply (eq_refl : open E (set_state CREATED example_pipe)
      [Mkfifo "/tmp/GicamePipe-ExamplePipeName"] =
    (Ok true, open_pipe, [Mkfifo "/tmp/GicamePipe-ExamplePipeName";
                          OpenRdwr "/tmp/GicamePipe-ExamplePipeName"]))).
  erewrite bind_ok by (apply turn_receive; [exact Ha|reflexivity]).
  erewrite bind_ok by (apply turn_receive; [exact Hb|reflexivity]).
  erewrite bind_ok by (apply turn_send; done).
  split_and!; reflexivity.
Qed.

(** The examples, when the server reads first: whatever the two numbers, both programs
    print their sum modulo [2^32]; the server leaves the pipe disconnected. *)
Theorem pipe_examples_agree a b :
  0 <= a < 2 ^ 32 -> 0 <= b < 2 ^ 32 ->
  outcome (NamedPipeClient_main a b (turn server_turn) example_pipe []) = Ok (u32 (a + b)) /\
  outcome (NamedPipeServer_main (turn (fun _ => le_bytes 4 a ++ le_bytes 4 b)) example_pipe []) =
    Ok (u32 (a + b)).
Proof.
  intros Ha Hb. pose proof (server_run a b Ha Hb) as Hs.
  destruct (NamedPipeServer_main _ example_pipe []) as [[r p] h] eqn:Hrun.
  destruct Hs as (-> & _ & Ho). split; [|done].
  apply client_run; [apply (wrap_in_u 32); lia|]. unfold server_turn. rewrite Hrun. simpl history.
  by rewrite Ho.
Qed.

(** The pipe is one FIFO, opened by both sides for reading and writing: a client that gets to its
    read before the server does reads its own first number back and prints it for the sum. *)
Theorem client_reads_its_own_message a b :
  0 <= a < 2 ^ 32 ->
  outcome (NamedPipeClient_main a b (turn (fun sent => sent)) example_pipe []) = Ok a.
Proof. intros Ha. by apply client_run. Qed.

(** ** Witnesses *)

(** A kernel that moves one byte at a time. *)
Definition reads (f : Z) (h : list pipecall) : nat :=
  sum_list ((fun c : pipecall => match c with
    | Read g n => if (g =? f) && (1 <=? n) then 1%nat else 0%nat | _ => 0%nat end) <$> h).
Definition drip (f : Z) (stream : list Z) : @env pipes := fun h c =>
  match c as c return pipe_reply c with
  | Write _ d => Z.min 1 (Z.of_nat (length d))
  | Read g n => let bytes := if (g =? f) && (1 <=? n) then take 1 (drop (reads f h) stream) else [] in
                (Z.of_nat (length bytes), bytes)
  | _ => 0
  end.

Lemma drip_position f stream h :
  length (along (fetched f (drip f stream)) [] h) = Nat.min (reads f h) (length stream).
Proof.
  induction h as [|c h IH] using rev_ind; [done|]. rewrite along_snoc, length_app, IH.
  unfold reads. rewrite fmap_app, sum_list_with_app. fold (reads f h).
  destruct c as [| | |g n| |]; try (simpl; lia). unfold fetched. simpl.
  destruct (Z.eqb_spec g f), (Z.leb_spec 1 n); simpl; try lia.
  rewrite length_take, length_drop. lia.
Qed.

Lemma drip_fifo f stream : fifo (drip f stream) f stream.
Proof.
  split.
  - intros h d. simpl. split; [lia|]. intros Hd. destruct d; [done|simpl; lia].
  - intros h n. rewrite drip_position. cbv zeta. rewrite length_drop. intros Hn.
    exists (Z.min 1 n). simpl. rewrite Z.eqb_refl. destruct (Z.leb_spec 1 n); simpl andb; cbv iota.
    + rewrite Z.min_l by lia. rewrite length_take, length_drop. rewrite (Nat.min_l (reads f h)) by lia.
      rewrite Nat.min_l by lia. split; [done|lia].
    + rewrite Z.min_r by lia. by replace n with 0 by lia.
Qed.

Lemma text_over_pipe_witness : exists cs p1' h1,
  sendText 12 [72; 105] (device_env (drip 5 []) (open_pipe, [])) tt [] = (Ok 2, tt, cs) /\
  served (device_answers (drip 5 [])) (open_pipe, []) cs = Some (p1', h1) /\ state p1' = CONNECTED /\
  forall E2 f2 p2, fifo E2 f2 (along (written 5 (drip 5 [])) [] h1) -> state p2 = CONNECTED ->
    fd p2 = f2 ->
    exists cs2 p2' h2, receiveText 12 (replicate 8 170) 100 (device_env E2 (p2, [])) tt [] =
        (Ok [72; 105], tt, cs2) /\
      served (device_answers E2) (p2, []) cs2 = Some (p2', h2) /\ state p2' = CONNECTED /\
      drop (length (along (fetched f2 E2) [] h2)) (along (written 5 (drip 5 [])) [] h1) = [].
Proof.
  apply (text_over_pipe (drip 5 []) 5 open_pipe [72; 105] 12 (replicate 8 170) 100 tt);
    [apply drip_fifo|reflexivity|reflexivity|unfold SSIZE_MAX; simpl; lia..].
Defined.

Lemma pipe_examples_agree_witness :
  outcome (NamedPipeClient_main 5 10 (turn server_turn) example_pipe []) = Ok 15 /\
  outcome (NamedPipeServer_main (turn (fun _ => le_bytes 4 5 ++ le_bytes 4 10)) example_pipe []) = Ok 15.
Proof. apply (pipe_examples_agree 5 10); lia. Defined.

Lemma client_reads_its_own_message_witness :
  outcome (NamedPipeClient_main 5 10 (turn (fun sent => sent)) example_pipe []) = Ok 5.
Proof. apply (client_reads_its_own_message 5 10). lia. Defined.
