(* ===== verification/WindowsPipe.v ===== *)
(** * Named pipes on Windows (src/os/NamedPipe.cpp)

    The Windows branch of [NamedPipe], over the calls on a pipe handle; -1 is
    [INVALID_HANDLE_VALUE].  The states and the class are those of NamedPipe.v. *)

From S2P Require Import Prelude Ownership Numbers NamedPipe.

Inductive wpipe_call :=
  | CreateNamedPipeA (path : string) (bufferSize : Z)
  | CreateFileA (path : string)
  | SetNamedPipeHandleState (h : Z) | ConnectNamedPipe (h : Z)
  | WriteFile (h : Z) (data : list Z) | ReadFile (h n : Z)
  | CloseHandle (h : Z) | DeleteFileA (path : string).
(** [WriteFile] answers with its result and the count, [ReadFile] with the bytes too. *)
Definition wpipe_reply (c : wpipe_call) : Type :=
  match c with WriteFile _ _ => Z * Z | ReadFile _ _ => Z * Z * list Z | _ => Z end.
Definition win_pipes : Sys := {| call := wpipe_call; reply := wpipe_reply |}.
#[export] Existing Instance win_pipes.
Abbreviation wpipecall := (@call win_pipes).

Definition INVALID_HANDLE_VALUE : Z := -1.

Record win_pipe := WinPipe { handle : Z; fullName : string; state : State }.
Definition set_handle (h : Z) (p : win_pipe) : win_pipe := WinPipe h (fullName p) (state p).
Definition set_state (st : State) (p : win_pipe) : win_pipe := WinPipe (handle p) (fullName p) st.

Definition new_pipe (name : string) : win_pipe :=
  WinPipe INVALID_HANDLE_VALUE ("\\.\pipe\GicamePipe-" +:+ name) DISCONNECTED.

Abbreviation wp := (prog win_pipe).

Definition close : wp unit :=
  this ← get;
  if handle this =? INVALID_HANDLE_VALUE then mret tt
  else
    _ ← sys (CloseHandle (handle this) : wpipecall);
    _ ← modify (set_handle INVALID_HANDLE_VALUE);
    modify (set_state DISCONNECTED).

Definition create (bufferSize : Z) : wp bool :=
  this ← get;
  dwBufferSize ← lift (safeNumericCast DWORD size_t bufferSize);
  h ← sys (CreateNamedPipeA (fullName this) dwBufferSize : wpipecall);
  _ ← modify (set_handle h);
  if h =? INVALID_HANDLE_VALUE then mret false
  else
    success ← sys (SetNamedPipeHandleState h : wpipecall);
    if success =? 0 then _ ← close; mret false
    else _ ← modify (set_state CREATED); mret true.

Definition open : wp bool :=
  this ← get;
  match state this with
  | CONNECTED => mret true
  | DISCONNECTED =>
      h ← sys (CreateFileA (fullName this) : wpipecall);
      _ ← modify (set_handle h);
      if h =? INVALID_HANDLE_VALUE then mret false
      else
        success ← sys (SetNamedPipeHandleState h : wpipecall);
        if success =? 0 then _ ← close; mret false
        else _ ← modify (set_state CONNECTED); mret true
  | CREATED =>
      success ← sys (ConnectNamedPipe (handle this) : wpipecall);
      if success =? 0 then _ ← close; mret false
      else _ ← modify (set_state CONNECTED); mret true
  end.

(** A write that fails closes the pipe and returns what was written. *)
Definition send (buffer : list Z) : wp Z :=
  this ← get;
  if bool_decide (state this <> CONNECTED) then throw "Pipe not connected"
  else
    dwSize ← lift (safeNumericCast DWORD size_t (Z.of_nat (length buffer)));
    '(success, written) ← sys (WriteFile (handle this) buffer : wpipecall);
    _ ← (if success =? 0 then close else mret tt);
    lift (safeNumericCast size_t DWORD written).

Definition receive (size : Z) : wp (Z * list Z) :=
  this ← get;
  if bool_decide (state this <> CONNECTED) then throw "Pipe not connected"
  else
    dwSize ← lift (safeNumericCast DWORD size_t size);
    '(success, count, bytes) ← sys (ReadFile (handle this) dwSize : wpipecall);
    _ ← (if success =? 0 then close else mret tt);
    n ← lift (safeNumericCast size_t DWORD count);
    mret (n, bytes).

Definition unlink : wp unit :=
  this ← get;
  if bool_decide (state this = CONNECTED) then throw "NamedPipe cannot be unlinked if connected"
  else
    _ ← (if bool_decide (state this <> DISCONNECTED) then close else mret tt);
    _ ← sys (DeleteFileA (fullName this) : wpipecall);
    mret tt.

Definition run_op (o : op) : wp unit :=
  match o with
  | OOpen => _ ← open; mret tt
  | OSend data => _ ← send data; mret tt
  | OReceive size => _ ← receive size; mret tt
  | OClose => close
  | OUnlink => unlink
  end.

(** A pipe from its constructor to its destructor, which closes it: the end that makes the pipe
    calls [create] first, the other does not. *)
Definition life (creates : option Z) (ops : list op) : wp unit :=
  _ ← (match creates with Some n => _ ← create n; mret tt | None => mret tt end);
  lifetime run_op close ops.

(** ** The handle *)

Definition valid (h : Z) : list Z := if h =? INVALID_HANDLE_VALUE then [] else [h].
#[export] Instance win_pipe_resources : @Resources win_pipes Z := {|
  acquired c := match c as c return wpipe_reply c -> list Z with
                | CreateNamedPipeA _ _ | CreateFileA _ => valid
                | _ => fun _ => []
                end;
  released c := match c with CloseHandle h => valid h | _ => [] end |}.

Lemma valid_some h : (h =? INVALID_HANDLE_VALUE) = false -> valid h = [h].
Proof. unfold valid. by intros ->. Qed.
#[local] Hint Extern 1 (released _ = [_]) => apply valid_some; assumption : owned.

Ltac step := owning_step; cbn [acquired win_pipe_resources].

(** The invariant: a pipe has a valid handle exactly when it is not disconnected. *)
Definition holds (p : win_pipe) (held : list Z) : Prop :=
  held = valid (handle p) /\ (handle p = INVALID_HANDLE_VALUE <-> state p = DISCONNECTED).
Definition shut (p : win_pipe) (held : list Z) : Prop :=
  held = [] /\ handle p = INVALID_HANDLE_VALUE /\ state p = DISCONNECTED.
Abbreviation keeps p := (triple holds p (fun _ => holds) holds).

Lemma shut_holds p held : shut p held -> holds p held.
Proof. intros (-> & Hh & Hs). split; [by rewrite Hh|by rewrite Hh, Hs]. Qed.

(** [close] gives the handle back; of a pipe with a handle it does not matter what state it is in. *)
Lemma win_close_from p :
  handle p <> INVALID_HANDLE_VALUE ->
  triple (owns p (valid (handle p))) close (fun _ => shut) (fun _ _ => False).
Proof.
  intros Hh. apply Z.eqb_neq in Hh. unfold close. step. rewrite if_false by done.
  rewrite valid_some by done. do 2 step. apply triple_modify. by intros ? ? [-> ->].
Qed.

Lemma win_keeps_close : triple holds close (fun _ => shut) (fun _ _ => False).
Proof.
  apply triple_follow. intros p held [-> Hc]. destruct (Z.eq_dec (handle p) INVALID_HANDLE_VALUE) as [Hh|Hh].
  - unfold close. step. rewrite if_true by by apply Z.eqb_eq.
    apply owns_ret. split; [by rewrite Hh|]. split; [done|by apply Hc].
  - by apply win_close_from.
Qed.

Lemma win_close_false p (b : bool) X :
  handle p <> INVALID_HANDLE_VALUE ->
  triple (owns p (valid (handle p))) (_ ← close; mret b) (fun _ => holds) X.
Proof.
  intros Hh. apply (triple_bind _ _ _ (fun _ => shut)).
  - eapply triple_weaken; [by apply win_close_from|done|done|done].
  - intros []. apply triple_ret. apply shut_holds.
Qed.

Lemma win_keeps_open : keeps open.
Proof.
  apply triple_follow. intros p held [-> Hc]. unfold open. step. destruct (state p) eqn:Hs.
  - assert (valid (handle p) = []) as -> by (by rewrite (proj2 Hc)).
    do 3 step; rewrite app_nil_r.
    + apply owns_ret. apply Z.eqb_eq in E. split; [done|]. simpl. by rewrite E, Hs.
    + do 2 step; [apply (win_close_false (set_handle r p)); by apply Z.eqb_neq|].
      step. apply owns_ret. split; [done|]. simpl. apply Z.eqb_neq in E. by split.
  - do 2 step; [apply win_close_false; intros Hh; by apply Hc in Hh|].
    step. apply owns_ret. split; [done|]. simpl. rewrite Hc. done.
  - apply owns_ret. split; [done|]. by rewrite Hc, Hs.
Qed.

Lemma win_keeps_send data : keeps (send data).
Proof.
  apply triple_follow. intros p held [-> Hc]. unfold send. do 2 step; [by step|].
  apply bool_decide_eq_false, dec_stable in E.
  assert (handle p <> INVALID_HANDLE_VALUE) as Hh by (rewrite Hc, E; done).
  step; [by split|]. do 2 step.
  apply (triple_bind _ _ _ (fun _ => holds)); [|intros _; by apply triple_lift].
  case_match; [|by apply owns_ret].
  eapply triple_weaken; [by apply win_close_from|done|intros; by apply shut_holds|done].
Qed.

Lemma win_keeps_receive n : keeps (receive n).
Proof.
  apply triple_follow. intros p held [-> Hc]. unfold receive. do 2 step; [by step|].
  apply bool_decide_eq_false, dec_stable in E.
  assert (handle p <> INVALID_HANDLE_VALUE) as Hh by (rewrite Hc, E; done).
  step; [by split|]. do 3 step. apply (triple_bind _ _ _ (fun _ => holds)).
  - case_match; [|by apply owns_ret].
    eapply triple_weaken; [by apply win_close_from|done|intros; by apply shut_holds|done].
  - intros _. apply (triple_bind _ _ _ (fun _ => holds)); [by apply triple_lift|].
    intros ?. by apply triple_ret.
Qed.

Lemma win_keeps_unlink : keeps unlink.
Proof.
  apply triple_follow. intros p held Hp. unfold unlink. do 2 step; [by step|].
  apply (triple_bind _ _ _ (fun _ => holds)).
  - case_match; [|by apply owns_ret].
    eapply triple_weaken; [apply win_keeps_close|by intros ? ? [-> ->]|intros; by apply shut_holds|done].
  - intros _. apply triple_follow. intros p' held' Hp'. by do 2 step.
Qed.

Lemma win_keeps_op o : keeps (run_op o).
Proof.
  destruct o; simpl; try apply win_keeps_unlink;
    try (apply (triple_bind _ _ _ (fun _ => holds)); [|intros; by apply triple_ret]).
  - apply win_keeps_open.
  - apply win_keeps_send.
  - apply win_keeps_receive.
  - eapply triple_weaken; [apply win_keeps_close|done|intros; by apply shut_holds|done].
Qed.

Lemma win_keeps_create n : triple shut (create n) (fun _ => holds) shut.
Proof.
  apply triple_follow. intros p held (-> & Hh & Hs). unfold create. do 2 step; [done|].
  do 3 step; rewrite app_nil_r.
  - apply owns_ret. apply Z.eqb_eq in E. split; [done|]. simpl. by rewrite E, Hs.
  - do 2 step; [apply (win_close_false (set_handle r p)); by apply Z.eqb_neq|].
    step. apply owns_ret. split; [done|]. simpl. apply Z.eqb_neq in E. by split.
Qed.

(** On Windows too the handle of a pipe is closed exactly once, whatever the system answers. *)
Theorem win_pipe_closed_once name creates ops E r p h :
  life creates ops E (new_pipe name) [] = (r, p, h) -> releases h ≡ₚ acquires E [] h.
Proof.
  apply (released_exactly _ shut); [|done]. apply (triple_bind _ _ _ (fun _ => holds)).
  - destruct creates as [n|]; [|apply triple_ret; apply shut_holds].
    apply (triple_bind _ _ _ (fun _ => holds)); [|intros; by apply triple_ret].
    eapply triple_weaken; [apply win_keeps_create|done|done|by intros ? ? [-> _]].
  - intros _. apply (triple_lifetime run_op close holds ops (fun _ held => held = []));
      [apply win_keeps_op|].
    eapply triple_weaken; [apply win_keeps_close|done|by intros ? ? ? [-> _]|done].
Qed.

(** ** Witness *)

Definition pipe_system : @env win_pipes := fun _ c =>
  match c as c return wpipe_reply c with
  | CreateNamedPipeA _ _ | CreateFileA _ => 9
  | WriteFile _ data => (0, 0)
  | ReadFile _ _ => (1, 0, [])
  | _ => 1
  end.
Lemma win_pipe_closed_once_witness :
  releases (history (life (Some 16) [OOpen; OSend [1]; OOpen; OUnlink] pipe_system (new_pipe "p") [])) ≡ₚ [9; 9].
Proof.
  eapply (win_pipe_closed_once "p" (Some 16) [OOpen; OSend [1]; OOpen; OUnlink] pipe_system (Ok tt) (new_pipe "p")).
  vm_compute. reflexivity.
Defined.
