(* ===== verification/DynLibrary.v ===== *)
(** * Dynamic libraries (src/os/DynLibraryHandler.cpp, headers/os/DynLibraryHandler.h)

    Over [dlopen], [dlsym] and [dlclose]; on Windows they are [LoadLibraryW], [GetProcAddress] and
    [FreeLibrary], which the code uses in the same places and which answer alike, null for a failure.
    A handle is a number, 0 the null one. *)

From S2P Require Import Prelude Ownership.

Inductive dl_call := Dlopen (path : string) | Dlsym (h : Z) (symbol : string) | Dlclose (h : Z).
Definition dl : Sys := {| call := dl_call; reply _ := Z |}.
#[export] Existing Instance dl.
Abbreviation dlcall := (@call dl).

Record DynLibraryHandler := Dyn { nativeHandle : Z }.

Definition unload : prog DynLibraryHandler unit :=
  this ← get;
  _ ← (if negb (nativeHandle this =? 0) then _ ← sys (Dlclose (nativeHandle this) : dlcall); mret tt
       else mret tt);
  modify (fun _ => Dyn 0).
Definition destroy : prog DynLibraryHandler unit := unload.

(** The static function; the object it returns is built in place. *)
Definition load (modulePath : string) : prog DynLibraryHandler unit :=
  libHandle ← sys (Dlopen modulePath : dlcall);
  if libHandle =? 0 then throw "Unable to load library"
  else modify (fun _ => Dyn libHandle).

Definition getSymbolAddress (symbolName : string) : prog DynLibraryHandler Z :=
  this ← get;
  if nativeHandle this =? 0 then throw "Library not loaded"
  else address ← sys (Dlsym (nativeHandle this) symbolName : dlcall); mret address.

(** ** The handle *)

Definition lib (h : Z) : list Z := if h =? 0 then [] else [h].
#[export] Instance dl_resources : @Resources dl Z := {|
  acquired c := match c as c return @reply dl c -> list Z with Dlopen _ => lib | _ => fun _ => [] end;
  released c := match c with Dlclose h => lib h | _ => [] end |}.

(** A library loaded, asked for symbols by an owner who catches every exception, and destroyed. *)
Definition ask (symbol : string) : prog DynLibraryHandler unit :=
  _ ← getSymbolAddress symbol; mret tt.
Definition life (path : string) (symbols : list string) : prog DynLibraryHandler unit :=
  _ ← load path; lifetime ask destroy symbols.

Definition holds (s : DynLibraryHandler) (held : list Z) : Prop := held = lib (nativeHandle s).

Ltac step := owning_step; cbn [acquired dl_resources].

Lemma load_holds path :
  triple (fun s held => nativeHandle s = 0 /\ held = []) (load path) (fun _ => holds)
    (fun _ held => held = []).
Proof.
  apply triple_follow. intros s held [_ ->]. unfold load. do 2 step.
  - apply owns_throw. unfold lib. by rewrite E.
  - apply triple_modify. intros ? ? [-> ->]. unfold holds. simpl. apply app_nil_r.
Qed.

Lemma ask_holds symbol : triple holds (ask symbol) (fun _ => holds) holds.
Proof.
  apply (triple_bind _ _ _ (fun _ => holds)); [|intros a; by apply triple_ret].
  apply triple_follow. intros s held ->. unfold getSymbolAddress. do 2 step; [by step|].
  by do 2 step.
Qed.

Lemma unload_releases :
  triple holds unload (fun _ _ held => held = []) (fun _ held => held = []).
Proof.
  apply triple_follow. intros s held ->. unfold unload. step.
  apply (triple_bind _ _ _ (fun _ => owns s [])).
  - unfold lib. destruct (nativeHandle s =? 0) eqn:Hh; simpl negb; cbv iota; [by step|].
    apply (@owns_release dl _ _ DynLibraryHandler _ (Dlclose (nativeHandle s)) (nativeHandle s) _ _ _ []);
      [done|simpl; unfold lib; by rewrite Hh|done|]. intros _. by step.
  - intros []. apply triple_modify. by intros ? ? [_ ->].
Qed.

(** A library that [load] opened is closed exactly once, by the destructor, whatever symbols are
    asked for; a library that could not be opened is not closed. *)
Theorem library_closed_once path symbols E r s h :
  life path symbols E (Dyn 0) [] = (r, s, h) -> releases h ≡ₚ acquires E [] h.
Proof.
  apply (released_exactly _ (fun s held => nativeHandle s = 0 /\ held = [])); [|done].
  apply (triple_bind _ _ _ (fun _ => holds)); [apply load_holds|]. intros [].
  apply (triple_lifetime ask destroy holds symbols (fun _ held => held = []));
    [apply ask_holds|apply unload_releases].
Qed.

(** Every symbol is looked up in the library that was loaded. *)
Theorem symbols_of_the_library path symbol (E : @env dl) h :
  let lib := E h (Dlopen path : dlcall) in
  lib <> 0 ->
  outcome ((_ ← load path; getSymbolAddress symbol) E (Dyn 0) h) =
    Ok (E (h ++ [Dlopen path]) (Dlsym lib symbol : dlcall)).
Proof.
  intros lib0 Hl. apply Z.eqb_neq in Hl. unfold load. erewrite bind_ok.
  2: { erewrite bind_ok by reflexivity. fold lib0. by rewrite Hl. }
  unfold getSymbolAddress. rewrite bind_get. simpl. by rewrite Hl.
Qed.

Definition one_library : @env dl := fun _ c => match c with Dlopen _ => 5 | _ => 1 end.
Lemma library_closed_once_witness :
  releases (history (life "lib.so" ["f"; "g"] one_library (Dyn 0) [])) ≡ₚ [5].
Proof.
  eapply (library_closed_once "lib.so" ["f"; "g"] one_library). vm_compute. reflexivity.
Defined.
Lemma symbols_of_the_library_witness :
  outcome ((_ ← load "lib.so"; getSymbolAddress "f") one_library (Dyn 0) []) = Ok 1.
Proof. by apply (symbols_of_the_library "lib.so" "f" one_library []). Defined.
