(* ===== verification/ErrorHandling.v ===== *)
(** * The last error of the system (src/os/ErrorHandling.cpp, headers/os/ErrorHandling.h)

    On POSIX the code is [errno] and its text that of [strerror]; on Windows the system allocates the
    text, which has to be given back. *)

From S2P Require Import Prelude Ownership.

(** ** System calls *)

(** [FormatMessageA] answers with the length of the text, 0 for a failure, and the buffer. *)
Inductive error_call := Errno | Strerror (code : Z) | WSAGetLastError | FormatMessageA (code : Z)
  | ReadText (buffer : Z) | LocalFree (buffer : Z).
Definition error_reply (c : error_call) : Type :=
  match c with
  | Errno | WSAGetLastError => Z
  | Strerror _ | ReadText _ => string
  | FormatMessageA _ => Z * Z
  | LocalFree _ => unit
  end.
Definition errors : Sys := {| call := error_call; reply := error_reply |}.
#[export] Existing Instance errors.
Abbreviation errcall := (@call errors).

(** ** The code *)

(** [getLastCode], for each system. *)
Definition getLastCode {S} (windows : bool) : prog S Z :=
  if windows then sys (WSAGetLastError : errcall) else sys (Errno : errcall).

(** The buffer is a null pointer until the call stores its own. *)
Definition getLastErrorAsString {S} (windows : bool) : prog S string :=
  if windows then
    code ← sys (WSAGetLastError : errcall);
    '(ec, s) ← sys (FormatMessageA code : errcall);
    if ec <=? 0 then
      _ ← sys (LocalFree s : errcall);
      mret "Unknown error"
    else
      errStr ← sys (ReadText s : errcall);
      _ ← sys (LocalFree s : errcall);
      mret errStr
  else
    code ← sys (Errno : errcall); errStr ← sys (Strerror code : errcall); mret errStr.

(** ** The buffer *)

(** A null pointer is no buffer. *)
Definition buffer (s : Z) : list Z := if s =? 0 then [] else [s].
#[export] Instance error_resources : @Resources errors Z := {|
  acquired c := match c as c return error_reply c -> list Z with
                | FormatMessageA _ => fun r => buffer (snd r)
                | _ => fun _ => []
                end;
  released c := match c with LocalFree s => buffer s | _ => [] end |}.

Lemma owns_LocalFree {S A} b (f : unit -> prog S A) (s : S) Q X :
  (forall r, triple (owns s []) (f r) Q X) ->
  triple (owns s (buffer b ++ [])) (sys (LocalFree b : errcall) ≫= f) Q X.
Proof.
  intros Hf. rewrite app_nil_r. apply (triple_bind _ _ _ (fun _ => owns s [])); [|done].
  intros E s0 h held0 r s' h' [-> ->] [= <- <- <-]. exists [LocalFree b : errcall], [].
  split; [done|]. split; [|done]. unfold releases. simpl. by rewrite !app_nil_r.
Qed.

(** The text of the last error: whatever the system answers, the buffer it has allocated is given back
    exactly once, and the function answers normally. *)
Theorem error_text_freed_once {S} windows (E : @env errors) (s : S) r s' h :
  getLastErrorAsString windows E s [] = (r, s', h) -> releases h ≡ₚ acquires E [] h /\ returns r.
Proof.
  intros H.
  assert (Ht : triple (owns s []) (getLastErrorAsString windows) (fun _ => owns s []) (fun (_ : S) (_ : list Z) => False)).
  { unfold getLastErrorAsString. destruct windows.
    - do 2 (owning_step; cbn [acquired error_resources app]). destruct r1 as [ec b]. cbn [snd].
      destruct (ec <=? 0).
      + apply owns_LocalFree. intros _. by apply owns_ret.
      + owning_step. apply owns_LocalFree. intros _. by apply owns_ret.
    - do 2 owning_step. by apply owns_ret. }
  destruct (Ht E s [] [] r s' h (conj eq_refl eq_refl) H) as (cs & held & -> & Hb & Hpost).
  destruct r as [a| | | |]; try done. destruct Hpost as [_ ->]. rewrite !app_nil_r in Hb.
  split; [done|by exists a].
Qed.

(** A system without a text for the code, and one with. *)
Definition silent : @env errors := fun h c =>
  match c as c return error_reply c with
  | Errno => 2 | WSAGetLastError => 10061 | Strerror _ => "No such file or directory"
  | FormatMessageA _ => (7, 99) | ReadText _ => "Refused" | LocalFree _ => tt
  end.

Lemma error_text_freed_once_witness :
  releases [WSAGetLastError; FormatMessageA 10061; ReadText 99; LocalFree 99 : errcall] ≡ₚ
    acquires silent [] [WSAGetLastError; FormatMessageA 10061; ReadText 99; LocalFree 99 : errcall] /\
  returns (Ok "Refused").
Proof. by apply (error_text_freed_once true silent tt (Ok "Refused") tt). Defined.
