(* ===== verification/Serial.v ===== *)
(** * Serial ports (src/device/Serial.cpp, headers/device/Serial.h)

    The Windows branch, the only one implemented (elsewhere every operation throws "not yet
    implemented"), over the Windows calls as an environment.  A handle is a number, 0 the null
    one and -1 [INVALID_HANDLE_VALUE]. *)

From stdpp Require Import pretty.
From S2P Require Import Prelude Ownership Numbers Memory.

Definition INVALID_HANDLE_VALUE : Z := -1.
Definition ERROR_INSUFFICIENT_BUFFER : Z := 122.

(** The fields of [DCB] that [open] sets, and the others as the driver gave them. *)
Record DCB := Dcb { BaudRate : Z; ByteSize : Z; Parity : Z; StopBits : Z;
  fDtrControl : bool; fRtsControl : bool; fOutxCtsFlow : bool; fOutxDsrFlow : bool;
  others : list Z }.

Inductive serial_call :=
  | CreateFileA (portName : string)
  | GetCommState (h : Z) | SetCommState (h : Z) (dcb : DCB)
  | WriteFile (h : Z) (data : list Z) | ReadFile (h : Z) (n : Z)
  | PurgeComm (h : Z) (flags : Z) | FlushFileBuffers (h : Z) | CloseHandle (h : Z)
  | QueryDosDeviceA (name : string) | GetLastError.
Definition serial_reply (c : serial_call) : Type :=
  match c with
  | GetCommState _ => Z * DCB
  | WriteFile _ _ => Z * Z
  | ReadFile _ _ => Z * list Z
  | QueryDosDeviceA _ => Z * string
  | _ => Z
  end.
Definition win_serial : Sys := {| call := serial_call; reply := serial_reply |}.
#[export] Existing Instance win_serial.
Abbreviation wincall := (@call win_serial).

(** ** The object *)

Record serial := Serial { handle : Z; comIndex : Z; boud : Z; byteSize : Z; parity : Z;
  stopBitsMode : Z; blockingRecpt : bool }.
Definition set_handle (h : Z) (s : serial) : serial :=
  Serial h (comIndex s) (boud s) (byteSize s) (parity s) (stopBitsMode s) (blockingRecpt s).
Definition set_blocking (b : bool) (s : serial) : serial :=
  Serial (handle s) (comIndex s) (boud s) (byteSize s) (parity s) (stopBitsMode s) b.
Abbreviation sp := (prog serial).

Definition new_serial (comIndex boud byteSize parity stopBitsMode : Z) : serial :=
  Serial 0 comIndex boud byteSize parity stopBitsMode false.

Definition is_open (h : Z) : bool := negb (h =? 0) && negb (h =? INVALID_HANDLE_VALUE).

Definition close : sp unit :=
  this ← get;
  _ ← (if is_open (handle this) then _ ← sys (CloseHandle (handle this) : wincall); mret tt
       else mret tt);
  modify (set_handle 0).

(** The label [cleanup]. *)
Definition cleanup : sp bool := _ ← close; mret false.

Definition open : sp bool :=
  this ← get;
  if negb (handle this =? 0)
  then throw "Trying to open an already open serial connection"
  else
    h ← sys (CreateFileA ("\\.\COM" +:+ pretty (comIndex this)) : wincall);
    _ ← modify (set_handle h);
    if h =? INVALID_HANDLE_VALUE then cleanup
    else
      '(ok, dcb) ← sys (GetCommState h : wincall);
      if ok =? 0 then cleanup
      else
        baud ← lift (safeNumericCast DWORD unsigned_int (boud this));
        size ← lift (safeNumericCast BYTE unsigned_int (byteSize this));
        par ← lift (safeNumericCast BYTE unsigned_int (parity this));
        stop ← lift (safeNumericCast BYTE unsigned_int (stopBitsMode this));
        ok ← sys (SetCommState h (Dcb baud size par stop true true false false (others dcb)) : wincall);
        if ok =? 0 then cleanup else mret true.

Definition isReceiverConnected (s : serial) : bool := negb (handle s =? 0).
Definition isSenderConnected (s : serial) : bool := negb (handle s =? 0).

Definition send (buffer : list Z) : sp Z :=
  this ← get;
  _ ← lift (safeNumericCast DWORD size_t (Z.of_nat (length buffer)));
  '(_, n) ← sys (WriteFile (handle this) buffer : wincall);
  lift (safeNumericCast size_t DWORD n).

(** [receive]: [got] bytes are in [buffer] and [stillToRead] are wanted; a turn of the loop per
    unit of fuel. *)
Fixpoint receive_loop (fuel : nat) (buffer : list Z) (got stillToRead : Z) : sp (Z * list Z) :=
  if stillToRead =? 0 then mret (got, buffer)
  else
    match fuel with
    | O => lift OutOfFuel
    | S fuel' =>
        this ← get;
        n ← lift (safeNumericCast DWORD size_t stillToRead);
        '(ok, bytes) ← sys (ReadFile (handle this) n : wincall);
        buffer' ← lift (store buffer got bytes);
        let r := Z.of_nat (length bytes) in
        if (ok =? 0) || (r =? 0) then
          if blockingRecpt this then receive_loop fuel' buffer' got stillToRead
          else mret (got, buffer')
        else receive_loop fuel' buffer' (got + r) (u64 (stillToRead - r))
    end.
Definition receive (fuel : nat) (buffer : list Z) (size : Z) : sp (Z * list Z) :=
  receive_loop fuel buffer 0 size.

Definition PURGE_TXABORT := 1.
Definition PURGE_RXABORT := 2.
Definition PURGE_TXCLEAR := 4.
Definition PURGE_RXCLEAR := 8.
Definition clear (rx tx : bool) : sp unit :=
  this ← get;
  if (handle this =? 0) || (handle this =? INVALID_HANDLE_VALUE) then mret tt
  else
    let flags := 0 in
    let flags := if rx then Z.lor flags (Z.lor PURGE_RXCLEAR PURGE_RXABORT) else flags in
    let flags := if tx then Z.lor flags (Z.lor PURGE_TXCLEAR PURGE_TXABORT) else flags in
    _ ← sys (PurgeComm (handle this) flags : wincall);
    mret tt.

Definition flush : sp unit :=
  this ← get; _ ← sys (FlushFileBuffers (handle this) : wincall); mret tt.

Definition setReceptionBlocking (rb : bool) : sp unit := modify (set_blocking rb).

(** [enumerateSerialPorts] from index [i], [n] indices left. *)
Fixpoint enumerate_from (i : Z) (n : nat) : sp (list (string * Z)) :=
  match n with
  | O => mret []
  | S n' =>
      '(outSize, text) ← sys (QueryDosDeviceA ("COM" +:+ pretty i) : wincall);
      err ← sys (GetLastError : wincall);
      if err =? ERROR_INSUFFICIENT_BUFFER then throw "insufficient buffer"
      else
        rest ← enumerate_from (i + 1) n';
        mret (if outSize >? 0 then (text, i) :: rest else rest)
  end.
Definition enumerateSerialPorts : sp (list (string * Z)) := enumerate_from 0 255.

(** ** The handle *)

Definition port (h : Z) : list Z := if is_open h then [h] else [].
#[export] Instance serial_resources : @Resources win_serial Z := {|
  acquired c := match c as c return serial_reply c -> list Z with
                | CreateFileA _ => port
                | _ => fun _ => []
                end;
  released c := match c with CloseHandle h => port h | _ => [] end |}.

Inductive op := OOpen | OClose | OSend (data : list Z) | OReceive (fuel : nat) (buffer : list Z) (n : Z)
  | OClear (rx tx : bool) | OFlush | OBlocking (b : bool) | OEnumerate.
Definition run_op (o : op) : sp unit :=
  match o with
  | OOpen => _ ← open; mret tt
  | OClose => close
  | OSend data => _ ← send data; mret tt
  | OReceive fuel buffer n => _ ← receive fuel buffer n; mret tt
  | OClear rx tx => clear rx tx
  | OFlush => flush
  | OBlocking b => setReceptionBlocking b
  | OEnumerate => _ ← enumerateSerialPorts; mret tt
  end.

(** The class has no destructor: at the end of an object's life nothing happens. *)
Definition life (ops : list op) : sp unit := lifetime run_op (mret tt) ops.

Definition holds (s : serial) (held : list Z) : Prop := held = port (handle s).
Abbreviation keeps p := (triple holds p (fun _ => holds) holds).

Ltac step := owning_step; cbn [acquired serial_resources].

Lemma serial_close_holds :
  triple holds close (fun _ => holds) holds.
Proof.
  apply triple_follow. intros s held ->. unfold close. step. unfold port.
  apply (triple_bind _ _ _ (fun _ => owns s [])).
  - destruct (is_open (handle s)) eqn:Ho; [|by step].
    apply (@owns_release win_serial _ _ serial _ (CloseHandle (handle s)) (handle s) _ _ _ []);
      [done|simpl; unfold port; by rewrite Ho|done|]. intros _. by step.
  - intros []. apply triple_modify. by intros ? ? [-> ->].
Qed.

Lemma serial_cleanup_holds s held Q :
  held = port (handle s) -> (forall b s' held', holds s' held' -> Q b s' held') ->
  triple (owns s held) cleanup Q holds.
Proof.
  intros -> HQ. apply (triple_bind _ _ _ (fun _ => holds)).
  - eapply triple_weaken; [apply serial_close_holds|by intros ? ? [-> ->]|done|done].
  - intros []. apply triple_ret. auto.
Qed.

Lemma serial_open_holds : keeps open.
Proof.
  apply triple_follow. intros s held ->. unfold open. step. step; [by step|]. bools.
  assert (port (handle s) = []) as -> by (unfold port, is_open; by rewrite E).
  do 2 step. rewrite app_nil_r. step; [by apply serial_cleanup_holds|].
  do 3 step; [by apply serial_cleanup_holds|].
  do 4 (step; [done|]). do 2 step; [by apply serial_cleanup_holds|]. by step.
Qed.

Lemma serial_receive_holds fuel buffer got n : keeps (receive_loop fuel buffer got n).
Proof.
  revert buffer got n. induction fuel as [|fuel IH]; intros buffer got n;
    apply triple_follow; intros s held ->; cbn [receive_loop].
  - step; [by step|]. by apply triple_lift; [intros ? ? [-> ->]|].
  - step; [by step|]. step. step; [done|]. do 2 step. step; [done|].
    step; [step; [|by step]|]; (eapply triple_weaken; [apply IH|by intros ? ? [-> ->]|done|done]).
Qed.

Lemma serial_enumerate_holds n i : keeps (enumerate_from i n).
Proof.
  revert i. induction n as [|n IH]; intros i; apply triple_follow; intros s held ->;
    cbn [enumerate_from]; [by step|].
  do 4 step; [by step|].
  apply (triple_bind _ _ _ (fun _ => holds)); [|intros rest; by apply triple_ret].
  eapply triple_weaken; [apply IH|by intros ? ? [-> ->]|done|done].
Qed.

Lemma serial_op_holds o : keeps (run_op o).
Proof.
  destruct o; simpl;
    try (apply (triple_bind _ _ _ (fun _ => holds)); [|intros a; by apply triple_ret]).
  - apply serial_open_holds.
  - apply serial_close_holds.
  - apply triple_follow. intros s held ->. unfold send. step. step; [done|]. do 2 step.
    by apply triple_lift; [intros ? ? [-> ->]|intros ? ? ? _ [-> ->]].
  - apply serial_receive_holds.
  - apply triple_follow. intros s held ->. unfold clear. do 2 step; [by step|]. by do 2 step.
  - apply triple_follow. intros s held ->. unfold flush. by do 3 step.
  - by apply triple_modify.
  - apply serial_enumerate_holds.
Qed.

(** Handles of a serial port: whatever Windows answers and whatever is asked of the object,
    exceptions included, every handle it opened has been closed exactly once, except the one it
    holds now; so no sequence of operations loses a handle, and an object destroyed while its
    port is open leaks it, as the class has no destructor. *)
Theorem serial_handle_accounted ops E s r s' h :
  handle s = 0 -> life ops E s [] = (r, s', h) ->
  acquires E [] h ≡ₚ releases h ++ port (handle s').
Proof.
  intros Hs H.
  assert (triple holds (life ops) (fun _ => holds) holds) as Ht.
  { apply (triple_lifetime run_op (mret tt) holds); [apply serial_op_holds|by apply triple_ret]. }
  destruct (Ht E s [] [] _ _ _ ltac:(unfold holds; by rewrite Hs) H) as (cs & held & -> & Hb & Hr).
  simpl in *. rewrite app_nil_r in Hb. rewrite Hb. destruct r; by rewrite Hr.
Qed.

(** ** Receiving *)

(** The bytes that the successful reads among the calls [cs] stored. *)
Definition read_of (E : @env win_serial) (h : list wincall) (c : wincall) : list Z :=
  (match c as c return serial_reply c -> list Z with
   | ReadFile _ _ => fun r => if r.1 =? 0 then [] else r.2
   | _ => fun _ => []
   end) (E h c).
Fixpoint reads (E : @env win_serial) (h cs : list wincall) : list Z :=
  match cs with
  | [] => []
  | c :: cs' => read_of E h c ++ reads E (h ++ [c]) cs'
  end.

(** [ReadFile] stores at most the bytes it is asked for. *)
Definition bounded_reads (E : @env win_serial) : Prop :=
  forall h hd n, 0 <= n -> Z.of_nat (length (E h (ReadFile hd n : wincall)).2) <= n.

Lemma take_store buf off bytes buf' :
  (off + length bytes <= length buf)%nat -> store buf (Z.of_nat off) bytes = Ok buf' ->
  length buf' = length buf /\ take (off + length bytes) buf' = take off buf ++ bytes.
Proof.
  intros Hl. rewrite store_fits by lia. rewrite Nat2Z.id. intros [= <-]. split.
  - rewrite !length_app, length_take, length_drop. lia.
  - rewrite app_assoc. apply take_app_length'. rewrite length_app, length_take. lia.
Qed.

Lemma take_store_any buf off bytes buf' :
  (off <= length buf)%nat -> store buf (Z.of_nat off) bytes = Ok buf' -> take off buf' = take off buf.
Proof.
  intros Hl. unfold store. case_bool; [done|]. rewrite Nat2Z.id. intros [= <-].
  apply take_app_length'. rewrite length_take. lia.
Qed.

Lemma read_answer (E : @env win_serial) h hd n : exists ok bytes,
  E h (ReadFile hd n : wincall) = (ok, bytes) /\
  read_of E h (ReadFile hd n) = if ok =? 0 then [] else bytes.
Proof.
  unfold read_of. destruct (E h (ReadFile hd n : wincall)) as [ok bytes]. by exists ok, bytes.
Qed.

Lemma receive_loop_spec fuel buf got n (E : @env win_serial) s h :
  bounded_reads E -> blockingRecpt s = false -> (got + n <= length buf)%nat ->
  Z.of_nat n < 2 ^ 32 -> (n < fuel)%nat ->
  exists m buf' cs, receive_loop fuel buf (Z.of_nat got) (Z.of_nat n) E s h =
      (Ok (Z.of_nat (got + m), buf'), s, h ++ cs) /\ (m <= n)%nat /\
    length buf' = length buf /\ take (got + m) buf' = take got buf ++ reads E h cs /\
    length (reads E h cs) = m.
Proof.
  intros HE Hb. revert buf got n h. induction fuel as [|fuel IH]; intros buf got n h Hl Hn Hf; [lia|].
  cbn [receive_loop]. destruct (Z.eqb_spec (Z.of_nat n) 0) as [H0|H0].
  { exists 0%nat, buf, []. rewrite Nat.add_0_r, !app_nil_r. split_and!; (done || lia). }
  rewrite bind_get, bind_lift, safeNumericCast_size_uint by lia.
  erewrite bind_ok by reflexivity.
  destruct (read_answer E h (handle s) (Z.of_nat n)) as (ok & bytes & Hans & Hread).
  pose proof (HE h (handle s) (Z.of_nat n) ltac:(lia)) as Hlen. rewrite Hans in *. simpl in Hlen.
  set (c := ReadFile (handle s) (Z.of_nat n)) in *.
  rewrite bind_lift. destruct (store buf (Z.of_nat got) bytes) as [buf1| | | |] eqn:Hst.
  2-5: by rewrite store_fits in Hst by lia.
  destruct (take_store buf got bytes buf1 ltac:(lia) Hst) as [Hl1 Ht1].
  destruct ((ok =? 0) || (Z.of_nat (length bytes) =? 0)) eqn:Hstop.
  - rewrite Hb. assert (Hr : read_of E h c = []).
    { rewrite Hread. destruct (ok =? 0); [done|]. simpl in Hstop. bools. by destruct bytes. }
    exists 0%nat, buf1, [c]. rewrite Nat.add_0_r. cbn [reads]. rewrite Hr. simpl.
    rewrite app_nil_r. split_and!; try done; [lia|]. eapply take_store_any; [|exact Hst]. lia.
  - bools. assert (Hr : read_of E h c = bytes).
    { rewrite Hread. by destruct (Z.eqb_spec ok 0). }
    rewrite wrap_u64_small by lia.
    destruct (IH buf1 (got + length bytes)%nat (n - length bytes)%nat (h ++ [c]))
      as (m & buf' & cs & Hrun & Hm & Hl' & Ht' & Hlr); [lia..|].
    exists (length bytes + m)%nat, buf', (c :: cs).
    replace (Z.of_nat got + Z.of_nat (length bytes)) with (Z.of_nat (got + length bytes)) by lia.
    replace (Z.of_nat n - Z.of_nat (length bytes)) with (Z.of_nat (n - length bytes)) by lia.
    split.
    { etrans; [exact Hrun|]. by rewrite Nat.add_assoc, <-app_assoc. }
    cbn [reads]. rewrite Hr, Nat.add_assoc, Ht', Ht1, length_app, <-app_assoc.
    split_and!; [lia|congruence|done|f_equal; exact Hlr].
Qed.

(** A receive that does not block: over any port whose reads stay within what they are asked
    for, it returns after at most one read per byte wanted and one more, with the number of
    bytes the successful reads stored, which are at the beginning of the buffer in the order
    they came; the buffer is never exceeded. *)
Theorem serial_receive_collects buf n (E : @env win_serial) s h :
  bounded_reads E -> blockingRecpt s = false -> (n <= length buf)%nat -> Z.of_nat n < 2 ^ 32 ->
  exists m buf' cs, receive (S n) buf (Z.of_nat n) E s h = (Ok (Z.of_nat m, buf'), s, h ++ cs) /\
    (m <= n)%nat /\ length buf' = length buf /\ take m buf' = reads E h cs.
Proof.
  intros HE Hb Hl Hn.
  destruct (receive_loop_spec (S n) buf 0 n E s h HE Hb) as (m & buf' & cs & Hr & Hm & Hl' & Ht & _);
    [lia..|]. by exists m, buf', cs.
Qed.

(** A receive that blocks on a port that fails never returns, however long it is given. *)
Theorem blocking_receive_spins fuel buf n (E : @env win_serial) s h :
  (forall h hd n, E h (ReadFile hd n : wincall) = (0, [])) -> blockingRecpt s = true ->
  0 < n < 2 ^ 32 -> outcome (receive fuel buf n E s h) = OutOfFuel.
Proof.
  intros HE Hb Hn. unfold receive. assert (Hg : (0 : Z) <= 0 <= Z.of_nat (length buf)) by lia.
  revert h. induction fuel as [|fuel IH]; intros h; cbn [receive_loop].
  - by rewrite (if_false (n =? 0)) by (apply Z.eqb_neq; lia).
  - rewrite (if_false (n =? 0)) by (apply Z.eqb_neq; lia).
    rewrite bind_get, bind_lift, safeNumericCast_size_uint by lia.
    erewrite bind_ok by reflexivity. rewrite HE, bind_lift, store_0 by (simpl; lia).
    rewrite drop_0. simpl. rewrite Hb. apply IH.
Qed.

(** [enumerateSerialPorts] asks [GetLastError] even when the query succeeded, and a successful
    call does not clear the code: an old [ERROR_INSUFFICIENT_BUFFER] makes the enumeration throw
    although every query succeeds. *)
Theorem stale_error_stops_enumeration (E : @env win_serial) s h :
  (forall h name, 0 < (E h (QueryDosDeviceA name : wincall)).1) ->
  E (h ++ [QueryDosDeviceA "COM0"]) (GetLastError : wincall) = ERROR_INSUFFICIENT_BUFFER ->
  throws (outcome (enumerateSerialPorts E s h)).
Proof.
  intros _ He. unfold enumerateSerialPorts. cbn [enumerate_from].
  erewrite bind_ok by reflexivity. destruct (E h _) as [outSize text].
  erewrite bind_ok by reflexivity. rewrite (if_true (_ =? _)); [by eexists|].
  apply Z.eqb_eq. exact He.
Qed.

(** ** Witnesses *)

Definition is_read (c : serial_call) : bool := match c with ReadFile _ _ => true | _ => false end.
(** A port that gives two bytes per read and five in all. *)
Definition slow_port : @env win_serial := fun h c =>
  match c as c return serial_reply c with
  | CreateFileA _ => 7
  | GetCommState _ => (1, Dcb 0 0 0 0 false false false false [])
  | WriteFile _ data => (1, Z.of_nat (length data))
  | ReadFile _ n =>
      let given := 2 * Z.of_nat (length (List.filter is_read h)) in
      (1, replicate (Z.to_nat (Z.min n (Z.min 2 (5 - given)))) 9)
  | QueryDosDeviceA _ => (1, "port")
  | GetLastError => 122
  | _ => 1
  end.

Lemma slow_port_bounded h hd n :
  0 <= n -> Z.of_nat (length (slow_port h (ReadFile hd n : wincall)).2) <= n.
Proof. intros Hn. simpl. rewrite length_replicate. lia. Qed.

(** A port that gives nothing. *)
Definition dead_port : @env win_serial := fun h c =>
  match c as c return serial_reply c with
  | ReadFile _ _ => (0, [])
  | c => slow_port h c
  end.

Definition com1 : serial := new_serial 1 9600 8 0 0.

Lemma serial_handle_accounted_witness :
  acquires slow_port [] (history (life [OOpen; OSend [1]; OClose; OOpen] slow_port com1 [])) ≡ₚ
  releases (history (life [OOpen; OSend [1]; OClose; OOpen] slow_port com1 [])) ++ [7].
Proof.
  eapply (serial_handle_accounted [OOpen; OSend [1]; OClose; OOpen] slow_port com1 _
    (set_handle 7 com1)); [done|].
  vm_compute. reflexivity.
Defined.

Lemma serial_receive_collects_witness : exists m buf' cs,
  receive 5 [0; 0; 0; 0; 0; 0] 4 slow_port (set_handle 7 com1) [] =
    (Ok (Z.of_nat m, buf'), set_handle 7 com1, [] ++ cs) /\
  (m <= 4)%nat /\ length buf' = 6%nat /\ take m buf' = reads slow_port [] cs.
Proof.
  by apply (serial_receive_collects [0; 0; 0; 0; 0; 0] 4 slow_port (set_handle 7 com1) []
    slow_port_bounded eq_refl ltac:(simpl; lia)).
Defined.

Lemma blocking_receive_spins_witness :
  outcome (receive 100 [0; 0] 2 dead_port (set_blocking true (set_handle 7 com1)) []) = OutOfFuel.
Proof.
  by apply (blocking_receive_spins 100 [0; 0] 2 dead_port (set_blocking true (set_handle 7 com1)) []).
Defined.

Lemma stale_error_stops_enumeration_witness :
  throws (outcome (enumerateSerialPorts slow_port com1 [])).
Proof. by apply (stale_error_stops_enumeration slow_port com1 []). Defined.
