(* ===== verification/SymmetricKey.v ===== *)
(** * Symmetric keys (src/crypto/key/SymmetricKey.cpp, headers/crypto/key/SymmetricKey.h,
    headers/crypto/common/IAlgorithmDescriptor.h)

    A key is a buffer behind a [std::shared_ptr] whose deleter erases the buffer before it frees
    it.  The model follows one buffer: the copies of the key that are alive, and what the buffer
    held when it was freed. *)

From S2P Require Import Prelude Memory.

(** [IAlgorithmDescriptor]: what the key needs to know of its algorithm. *)
Class IAlgorithmDescriptor (T : Type) := { keySize : T -> Z }.

Section Key.
Context {T : Type} `{IAlgorithmDescriptor T}.

(** A buffer with the number of copies of the key that refer to it, while there are any, and the
    contents of the buffers freed. *)
Record key_store := KeyStore { buffer : option (list Z * nat); freed : list (list Z) }.

Definition createSymmetricKey (keyBuffer : list Z) (algorithm : T) : res key_store :=
  let n := keySize algorithm in
  if Z.of_nat (length keyBuffer) <? n then Throw "keyBuffer too short"
  else Ok (KeyStore (Some (take (Z.to_nat n) keyBuffer, 1%nat)) []).

(** The caller's own buffer, which may be longer than the key. *)
Definition createSymmetricKeyTakeOwnership (keyBuffer : list Z) (algorithm : T) : res key_store :=
  let n := keySize algorithm in
  if Z.of_nat (length keyBuffer) <? n then Throw "keyBuffer too short"
  else Ok (KeyStore (Some (keyBuffer, 1%nat)) []).

(** The bytes a copy of the key gives access to: [get] and [getKeySize]. *)
Definition key_bytes (algorithm : T) (s : key_store) : option (list Z) :=
  '(mem, _) ← buffer s; Some (take (Z.to_nat (keySize algorithm)) mem).

(** Copying the key, and destroying a copy: the last one runs the deleter. *)
Definition copy_key (s : key_store) : res key_store :=
  match buffer s with
  | Some (mem, n) => Ok (KeyStore (Some (mem, S n)) (freed s))
  | None => UB "no copy left"
  end.
Definition drop_key (algorithm : T) (s : key_store) : res key_store :=
  match buffer s with
  | Some (mem, S (S n)) => Ok (KeyStore (Some (mem, S n)) (freed s))
  | Some (mem, _) =>
      erased ← eraseMemory (Z.to_nat (keySize algorithm)) mem;
      Ok (KeyStore None (freed s ++ [erased]))
  | None => UB "no copy left"
  end.

(** ** What happens to the bytes *)

Inductive key_op := KCopy | KDrop.
Fixpoint run_keys (algorithm : T) (ops : list key_op) (s : key_store) : res key_store :=
  match ops with
  | [] => Ok s
  | KCopy :: ops' => s' ← copy_key s; run_keys algorithm ops' s'
  | KDrop :: ops' => s' ← drop_key algorithm s; run_keys algorithm ops' s'
  end.

(** The number of copies alive after [ops], from [n]; there is none when one that does not
    exist is copied or dropped. *)
Fixpoint copies (ops : list key_op) (n : nat) : option nat :=
  match ops, n with
  | [], _ => Some n
  | _, O => None
  | KCopy :: ops', _ => copies ops' (S n)
  | KDrop :: ops', S n' => copies ops' n'
  end.

Lemma run_keys_spec algorithm ops mem n m :
  (Z.to_nat (keySize algorithm) <= length mem)%nat -> copies ops (S n) = Some m ->
  run_keys algorithm ops (KeyStore (Some (mem, S n)) []) = Ok
    match m with
    | O => KeyStore None [replicate (Z.to_nat (keySize algorithm)) 0 ++
                          drop (Z.to_nat (keySize algorithm)) mem]
    | S _ => KeyStore (Some (mem, m)) []
    end.
Proof.
  intros Hlen. revert n. induction ops as [|[] ops IH]; intros n Hm; simpl in Hm; simplify_eq/=.
  - done.
  - by apply IH.
  - unfold drop_key. simpl. destruct n as [|n]; [|by apply IH].
    rewrite eraseMemory_spec, (proj2 (Nat.ltb_ge _ _) Hlen). simpl.
    destruct ops as [|o ops]; simpl in Hm; [by simplify_eq|by destruct o].
Qed.

(** A key lives exactly as long as its copies: however copies are made and destroyed, as long
    as one is alive the bytes are those the key was made from and nothing has been freed; when
    the last one goes, the buffer is freed once, with the key overwritten by zeros. *)
Theorem key_erased_when_last_copy_dies algorithm keyBuffer s0 ops m :
  createSymmetricKey keyBuffer algorithm = Ok s0 -> 0 <= keySize algorithm ->
  copies ops 1 = Some m ->
  exists s, run_keys algorithm ops s0 = Ok s /\
    match m with
    | O => key_bytes algorithm s = None /\
           freed s = [replicate (Z.to_nat (keySize algorithm)) 0]
    | S _ => key_bytes algorithm s = Some (take (Z.to_nat (keySize algorithm)) keyBuffer) /\
             freed s = []
    end.
Proof.
  unfold createSymmetricKey. intros Hc Hk Hm. case_match eqn:Hlen; simplify_eq. bools.
  assert (Hl : length (take (Z.to_nat (keySize algorithm)) keyBuffer) =
               Z.to_nat (keySize algorithm)) by (rewrite length_take; lia).
  rewrite (run_keys_spec algorithm ops _ 0 m) by (done || lia). destruct m as [|m].
  - eexists. split; [done|]. split; [done|]. simpl. rewrite <-Hl at 2.
    by rewrite drop_all, app_nil_r.
  - eexists. split; [done|]. split; [|done].
    unfold key_bytes. simpl. by rewrite take_take, Nat.min_id.
Qed.

(** A buffer that is too short is refused, and so is never read past its end. *)
Lemma short_key_refused keyBuffer algorithm :
  Z.of_nat (length keyBuffer) < keySize algorithm ->
  throws (createSymmetricKey keyBuffer algorithm) /\
  throws (createSymmetricKeyTakeOwnership keyBuffer algorithm).
Proof.
  intros Hl. unfold createSymmetricKey, createSymmetricKeyTakeOwnership.
  rewrite (proj2 (Z.ltb_lt _ _)) by done. split; by eexists.
Qed.

(** Taking ownership of a buffer longer than the key erases the key but not what follows it. *)
Lemma owned_buffer_tail_kept keyBuffer algorithm s0 :
  createSymmetricKeyTakeOwnership keyBuffer algorithm = Ok s0 -> 0 <= keySize algorithm ->
  run_keys algorithm [KDrop] s0 =
    Ok (KeyStore None [replicate (Z.to_nat (keySize algorithm)) 0 ++
                       drop (Z.to_nat (keySize algorithm)) keyBuffer]).
Proof.
  unfold createSymmetricKeyTakeOwnership. intros Hc Hk. case_match eqn:Hlen; simplify_eq. bools.
  apply (run_keys_spec algorithm [KDrop] keyBuffer 0 0); [lia|done].
Qed.
End Key.

(** ** Witness *)

Definition sixteen : IAlgorithmDescriptor unit := {| keySize _ := 16 |}.

Lemma key_erased_when_last_copy_dies_witness : exists s,
  @run_keys unit sixteen tt [KCopy; KDrop; KCopy; KDrop; KDrop]
    (KeyStore (Some (replicate 16 7, 1%nat)) []) = Ok s /\
  @key_bytes unit sixteen tt s = None /\ freed s = [replicate 16 0].
Proof.
  by apply (@key_erased_when_last_copy_dies unit sixteen tt (replicate 20 7) _
           [KCopy; KDrop; KCopy; KDrop; KDrop] 0).
Defined.
