(* ===== verification/Cipher.v ===== *)
(** * Encryption and decryption (src/crypto/encryption/, headers/crypto/encryption/)

    [Encryptor] and [Decryptor] wrap a cipher context of OpenSSL, which is the environment of
    this model: every EVP call answers with its result and, for the calls that produce data,
    with the bytes it stored, knowing how much room there is for them.  The two classes differ in the calls they make and in the sizes of
    the vectors they allocate; [direction] says which of the two is meant. *)

From S2P Require Import Prelude Ownership Memory SymmetricKey.

(** ** EncryptionAlgorithm *)

Inductive EncryptionAlgorithm := AES_128_CBC | AES_256_CBC | AES_128_ECB | AES_256_ECB.
#[global] Instance EncryptionAlgorithm_eq_dec : EqDecision EncryptionAlgorithm.
Proof. solve_decision. Defined.

Definition key_sizes (a : EncryptionAlgorithm) : Z :=
  match a with AES_128_CBC => 16 | AES_256_CBC => 32 | AES_128_ECB => 16 | AES_256_ECB => 32 end.
#[export] Instance encryption_descriptor : IAlgorithmDescriptor EncryptionAlgorithm :=
  {| keySize := key_sizes |}.

Definition blockSize (a : EncryptionAlgorithm) : Z :=
  match a with AES_128_CBC => 16 | AES_256_CBC => 32 | AES_128_ECB => 16 | AES_256_ECB => 32 end.

Definition chipertextSize (a : EncryptionAlgorithm) (plaintextSize : Z) : res Z :=
  let bs := blockSize a in
  let rem := plaintextSize mod bs in
  let cts := if negb (rem =? 0) then u64 (plaintextSize + (bs - rem)) else plaintextSize in
  if plaintextSize >? cts then Throw "Overflow: plaintextSize too large" else Ok cts.

(** ** The calls into OpenSSL

    [room] is what is left of the buffer from the pointer the call is given. *)

Inductive direction := Encrypt | Decrypt.
#[global] Instance direction_eq_dec : EqDecision direction.
Proof. solve_decision. Defined.

Inductive evp_call :=
  | CtxNew
  | CtxFree (ctx : Z)
  | Init (d : direction) (ctx : Z) (a : EncryptionAlgorithm) (key iv : list Z)
  | Update (d : direction) (ctx : Z) (data : list Z) (room : Z)
  | Final (d : direction) (ctx : Z) (room : Z).

Definition evp_reply (c : evp_call) : Type :=
  match c with Update _ _ _ _ | Final _ _ _ => Z * list Z | _ => Z end.
Definition evp : Sys := {| call := evp_call; reply := evp_reply |}.
#[export] Existing Instance evp.
Abbreviation evpcall := (@call evp).

(** ** The object *)

Record cipher := Cipher {
  key : list Z;
  ctx : Z;                   (** 0 is the null pointer *)
  outputLen : Z;             (** [ciphertextLen], [plaintextLen] *)
  algorithm : EncryptionAlgorithm }.

Definition set_ctx (c : Z) (s : cipher) : cipher := Cipher (key s) c (outputLen s) (algorithm s).
Definition add_len (n : Z) (s : cipher) : cipher :=
  Cipher (key s) (ctx s) (u64 (outputLen s + n)) (algorithm s).

Abbreviation cp := (prog cipher).

(** The object its member initialisers make, and the body of the constructor. *)
Definition unset (k : list Z) (a : EncryptionAlgorithm) : cipher := Cipher k 0 0 a.
Definition construct (d : direction) (iv : list Z) : cp unit :=
  this ← get;
  if negb (keySize (algorithm this) =? Z.of_nat (length (key this)))
  then throw "key length is not correct"
  else
    c ← sys (CtxNew : evpcall);
    _ ← modify (set_ctx c);
    if c =? 0 then throw "EVP_CIPHER_CTX_new() failed"
    else
      ok ← sys (Init d c (algorithm this) (key this) iv : evpcall);
      if ok =? 0 then
        _ ← sys (CtxFree c : evpcall);
        _ ← modify (set_ctx 0);
        throw "Init failed"
      else mret tt.

Definition destroy : cp unit :=
  this ← get;
  if negb (ctx this =? 0) then _ ← sys (CtxFree (ctx this) : evpcall); mret tt else mret tt.

(** The loop of [update]: shots of at most [shot] bytes; [outPtr] is the offset of the output
    pointer, [shotLen] what has been produced.  Every turn consumes input, so the length of the
    input is fuel enough. *)
Fixpoint update_loop (d : direction) (shot : nat) (fuel : nat) (source : list Z) (outPtr : Z)
  (out : list Z) (shotLen : Z) : cp (Z * list Z) :=
  match source, fuel with
  | [], _ => mret (shotLen, out)
  | _, O => lift OutOfFuel
  | _, S fuel' =>
      this ← get;
      let inLen := take shot source in
      '(ok, bytes) ← sys (Update d (ctx this) inLen (Z.of_nat (length out) - outPtr) : evpcall);
      if ok =? 0 then throw "Update failed"
      else
        out' ← lift (store out outPtr bytes);
        update_loop d shot fuel' (drop shot source) (outPtr + Z.of_nat (length inLen)) out'
          (u64 (shotLen + Z.of_nat (length bytes)))
  end.

(** [update] to a buffer: [out] and the offset in it. *)
Definition update (d : direction) (source out : list Z) (off : Z) : cp (Z * list Z) :=
  this ← get;
  if ctx this =? 0 then throw "ctx is NULL. finalized() already called?"
  else
    '(shotLen, out') ← update_loop d (Z.to_nat INT_MAX) (length source) source off out 0;
    _ ← modify (add_len shotLen);
    mret (shotLen, out').

Definition finalize (d : direction) (out : list Z) (off : Z) : cp (Z * list Z) :=
  this ← get;
  if ctx this =? 0 then throw "ctx is NULL. finalized() already called?"
  else
    '(ok, bytes) ← sys (Final d (ctx this) (Z.of_nat (length out) - off) : evpcall);
    if ok =? 0 then throw "Final failed"
    else
      out' ← lift (store out off bytes);
      let lastLen := Z.of_nat (length bytes) in
      _ ← modify (add_len lastLen);
      _ ← sys (CtxFree (ctx this) : evpcall);
      _ ← modify (set_ctx 0);
      mret (lastLen, out').

(** ** The versions that return a vector *)

(** The room the two classes make for the output of [update]. *)
Definition update_room (d : direction) (sourceSize : Z) : Z :=
  match d with Encrypt => sourceSize | Decrypt => u64 (sourceSize + 16) end.

Definition update_vector (d : direction) (source : list Z) : cp (list Z) :=
  '(shotLen, out) ← update d source
     (replicate (Z.to_nat (update_room d (Z.of_nat (length source)))) 0) 0;
  mret (match d with
        | Encrypt => resized out shotLen
        | Decrypt => if shotLen <? Z.of_nat (length out) then resized out shotLen else out
        end).

Definition finalize_vector (d : direction) : cp (list Z) :=
  this ← get;
  '(lastLen, out) ← finalize d (replicate (Z.to_nat (blockSize (algorithm this))) 0) 0;
  mret (if Z.of_nat (length out) >? lastLen then resized out lastLen else out).

(** ** The static functions: a local object, destroyed on every way out *)

Definition scoped {A} (k : list Z) (a : EncryptionAlgorithm) (d : direction) (iv : list Z)
  (body : cp A) : @env evp -> list evpcall -> res A * list evpcall := fun E h =>
  let '(r, _, h') := local_object (unset k a) (construct d iv) body destroy E tt h in (r, h').

(** [Encryptor::encrypt] and [Decryptor::decrypt] to a buffer. *)
Definition static_to_buffer (d : direction) (k : list Z) (a : EncryptionAlgorithm)
  (iv source dest : list Z) :=
  scoped k a d iv
    ('(shotLen, dest') ← update d source dest 0;
     '(paddingLen, dest'') ← finalize d dest' shotLen;
     mret (shotLen + paddingLen, dest'')).

Definition encrypt_vector (k : list Z) (a : EncryptionAlgorithm) (iv source : list Z) :=
  scoped k a Encrypt iv
    (result ← update_vector Encrypt source;
     resultFinal ← finalize_vector Encrypt;
     mret (result ++ resultFinal)).

Definition decrypt_vector (k : list Z) (a : EncryptionAlgorithm) (iv source : list Z) :
  @env evp -> list evpcall -> res (list Z) * list evpcall := fun E h =>
  match static_to_buffer Decrypt k a iv source (replicate (length source) 0) E h with
  | (Ok (len, dest), h') => (Ok (resized dest len), h')
  | (Throw e, h') => (Throw e, h')
  | (Block, h') => (Block, h')
  | (UB w, h') => (UB w, h')
  | (OutOfFuel, h') => (OutOfFuel, h')
  end.

(** ** The two classes

    The operations above, each under the name of the class it belongs to. *)

Definition getCiphertextLen : cp Z := gets outputLen.
Definition getPlaintextLen : cp Z := gets outputLen.
Definition encrypt_to_buffer := static_to_buffer Encrypt.
Definition Decryptor_construct := construct Decrypt.
Definition Decryptor_destroy := destroy.
Definition Decryptor_update := update Decrypt.
Definition Decryptor_update_vector := update_vector Decrypt.
Definition Decryptor_finalize := finalize Decrypt.
Definition Decryptor_finalize_vector := finalize_vector Decrypt.
Definition decrypt_to_buffer := static_to_buffer Decrypt.

(** ** The contract of the library

    What OpenSSL documents of a block cipher with padding, for blocks of sixteen bytes.  [ct] is
    the whole ciphertext of a message under an algorithm, a key and an initialisation vector. *)

Definition blocks (n : nat) : nat := (n / 16 * 16)%nat.
Definition slice (i j : nat) (l : list Z) : list Z := drop i (take j l).

(** What a context has been initialised with and given since. *)
Definition session_step (c : Z) (s : option (EncryptionAlgorithm * list Z * list Z * list Z))
  (call : evp_call) : option (EncryptionAlgorithm * list Z * list Z * list Z) :=
  match call with
  | Init _ c' a k iv => if c' =? c then Some (a, k, iv, []) else s
  | Update _ c' data _ =>
      if c' =? c then '(a, k, iv, inp) ← s; Some (a, k, iv, inp ++ data) else s
  | _ => s
  end.
Definition session (h : list evp_call) (c : Z) := fold_left (session_step c) h None.

Lemma session_snoc h x c : session (h ++ [x]) c = session_step c (session h c) x.
Proof. unfold session. by rewrite fold_left_app. Qed.

Section Contract.
Context (ct : EncryptionAlgorithm -> list Z -> list Z -> list Z -> list Z).

(** A message is padded by one to sixteen bytes, and a ciphertext block depends on the message
    up to the end of that block. *)
Record cipher_laws : Prop := {
  ct_length a k iv m : length (ct a k iv m) = (blocks (length m) + 16)%nat;
  ct_prefix a k iv m m' :
    take (blocks (length m)) (ct a k iv (m ++ m')) = take (blocks (length m)) (ct a k iv m) }.

(** Encryption: [update] gives the blocks that became complete, [final] the last one. *)
Record encrypts (E : @env evp) : Prop := {
  enc_new h : E h (CtxNew : evpcall) <> 0;
  enc_init h c a k iv : E h (Init Encrypt c a k iv : evpcall) <> 0;
  enc_update h c a k iv inp data room : session h c = Some (a, k, iv, inp) ->
    E h (Update Encrypt c data room : evpcall) =
      (1, slice (blocks (length inp)) (blocks (length (inp ++ data))) (ct a k iv (inp ++ data)));
  enc_final h c a k iv inp room : session h c = Some (a, k, iv, inp) ->
    E h (Final Encrypt c room : evpcall) = (1, drop (blocks (length inp)) (ct a k iv inp)) }.

(** Decryption holds the last block back until the end, where it takes the padding off.  The
    library documents what it does when it has [slack] bytes more room than the data it is given
    ([documented_slack], one block), and as much for the end. *)
Definition hold (n : nat) : nat := blocks (n - 1).
Definition documented_slack : Z := 16.
Record decrypts (slack : Z) (E : @env evp) : Prop := {
  dec_new h : E h (CtxNew : evpcall) <> 0;
  dec_init h c a k iv : E h (Init Decrypt c a k iv : evpcall) <> 0;
  dec_update h c a k iv inp data room m :
    session h c = Some (a, k, iv, inp) -> inp ++ data `prefix_of` ct a k iv m ->
    Z.of_nat (length data) + slack <= room ->
    E h (Update Decrypt c data room : evpcall) =
      (1, slice (hold (length inp)) (hold (length (inp ++ data))) m);
  dec_final h c a k iv room m : session h c = Some (a, k, iv, ct a k iv m) -> slack <= room ->
    E h (Final Decrypt c room : evpcall) = (1, drop (hold (length (ct a k iv m))) m) }.

(** ** Running the pieces *)

Lemma construct_run d iv k a (E : @env evp) h :
  (forall h, E h (CtxNew : evpcall) <> 0) ->
  (forall h c, E h (Init d c a k iv : evpcall) <> 0) ->
  keySize a = Z.of_nat (length k) ->
  let c := E h (CtxNew : evpcall) in
  construct d iv E (unset k a) h =
    (Ok tt, Cipher k c 0 a, h ++ [CtxNew; Init d c a k iv]).
Proof.
  intros Hnew Hinit Hk c. unfold construct. rewrite bind_get. cbn [algorithm key unset].
  rewrite (if_false (negb (keySize a =? Z.of_nat (length k)))) by (by rewrite Hk, Z.eqb_refl).
  erewrite bind_ok by reflexivity. fold c. rewrite bind_modify.
  rewrite (if_false (c =? 0)) by (apply Z.eqb_neq, Hnew).
  erewrite bind_ok by reflexivity. rewrite if_false by (apply Z.eqb_neq, Hinit).
  by rewrite <-app_assoc.
Qed.

Lemma update_loop_step d shot fuel source outPtr out shotLen s (E : @env evp) h ok bytes out' :
  source <> [] ->
  let chunk := take shot source in
  let room := Z.of_nat (length out) - outPtr in
  E h (Update d (ctx s) chunk room : evpcall) = (ok, bytes) -> ok <> 0 ->
  store out outPtr bytes = Ok out' ->
  update_loop d shot (S fuel) source outPtr out shotLen E s h =
  update_loop d shot fuel (drop shot source) (outPtr + Z.of_nat (length chunk)) out'
    (u64 (shotLen + Z.of_nat (length bytes))) E s (h ++ [Update d (ctx s) chunk room]).
Proof.
  intros Hne chunk room HE Hok Hst. destruct source as [|x source]; [done|].
  cbn [update_loop]. rewrite bind_get. erewrite bind_ok by reflexivity.
  change (take shot (x :: source)) with chunk. fold room. rewrite HE.
  rewrite (if_false (ok =? 0)) by (by apply Z.eqb_neq).
  erewrite bind_ok; [|unfold lift; by rewrite Hst]. reflexivity.
Qed.

Lemma update_loop_done d shot fuel outPtr out shotLen s (E : @env evp) h :
  update_loop d shot fuel [] outPtr out shotLen E s h = (Ok (shotLen, out), s, h).
Proof. by destruct fuel. Qed.

Lemma blocks_le n : (blocks n <= n)%nat.
Proof. unfold blocks. pose proof (Nat.Div0.mul_div_le n 16). lia. Qed.
Lemma blocks_lt n : (n < blocks n + 16)%nat.
Proof. unfold blocks. pose proof (Nat.mul_succ_div_gt n 16). lia. Qed.
Lemma blocks_0 : blocks 0 = 0%nat.
Proof. done. Qed.

Lemma hold_ct a k iv m : cipher_laws -> hold (length (ct a k iv m)) = blocks (length m).
Proof.
  intros L. rewrite (ct_length L). unfold hold, blocks.
  replace (length m / 16 * 16 + 16 - 1)%nat with (15 + length m / 16 * 16)%nat by lia.
  by rewrite Nat.div_add by done.
Qed.

(** The call [update] makes for a message that fits one shot. *)
Definition one_update (d : direction) (c : Z) (source : list Z) (room : Z) : list evpcall :=
  match source with [] => [] | _ => [Update d c source room] end.

Lemma update_run d source out off s (E : @env evp) h bytes out' :
  ctx s <> 0 -> Z.of_nat (length source) <= INT_MAX -> Z.of_nat (length bytes) < 2 ^ 64 ->
  (source = [] -> bytes = [] /\ out' = out) ->
  let room := Z.of_nat (length out) - off in
  (source <> [] -> E h (Update d (ctx s) source room : evpcall) = (1, bytes) /\
                   store out off bytes = Ok out') ->
  update d source out off E s h =
    (Ok (Z.of_nat (length bytes), out'), add_len (Z.of_nat (length bytes)) s,
     h ++ one_update d (ctx s) source room).
Proof.
  intros Hctx Hlen Hb Hnil room Hcons. unfold update. rewrite bind_get.
  rewrite (if_false (ctx s =? 0)) by (by apply Z.eqb_neq).
  destruct source as [|x source].
  - destruct Hnil as [-> ->]; [done|].
    rewrite (bind_ok _ _ _ _ _ _ _ _ (update_loop_done d _ _ off out 0 s E h)).
    by rewrite app_nil_r.
  - destruct Hcons as [HE Hst]; [done|].
    assert (Hloop : update_loop d (Z.to_nat INT_MAX) (length (x :: source)) (x :: source) off out 0 E s h
      = (Ok (Z.of_nat (length bytes), out'), s, h ++ [Update d (ctx s) (x :: source) room])).
    { simpl length. assert (Htake : take (Z.to_nat INT_MAX) (x :: source) = x :: source)
        by (apply take_ge; lia).
      rewrite (update_loop_step _ _ _ _ _ _ _ _ _ _ 1 bytes out'); rewrite ?Htake; try done.
      rewrite drop_ge by lia. rewrite update_loop_done.
      rewrite wrap_u64_small by lia. done. }
    rewrite (bind_ok _ _ _ _ _ _ _ _ Hloop). done.
Qed.


Lemma update_overflow d source out off s (E : @env evp) h bytes w :
  ctx s <> 0 -> source <> [] -> Z.of_nat (length source) <= INT_MAX ->
  let room := Z.of_nat (length out) - off in
  E h (Update d (ctx s) source room : evpcall) = (1, bytes) -> store out off bytes = UB w ->
  update d source out off E s h = (UB w, s, h ++ [Update d (ctx s) source room]).
Proof.
  intros Hctx Hne Hlen room HE Hst. unfold update. rewrite bind_get.
  rewrite (if_false (ctx s =? 0)) by (by apply Z.eqb_neq). apply bind_ub.
  destruct source as [|x source]; [done|]. cbn [update_loop length]. rewrite bind_get.
  assert (Htake : take (Z.to_nat INT_MAX) (x :: source) = x :: source) by (apply take_ge; lia).
  rewrite Htake. fold room. erewrite bind_ok by reflexivity. rewrite HE, (if_false (1 =? 0)) by done.
  apply bind_ub. unfold lift. by rewrite Hst.
Qed.

Lemma finalize_run d out off s (E : @env evp) h bytes out' :
  let room := Z.of_nat (length out) - off in
  ctx s <> 0 -> E h (Final d (ctx s) room : evpcall) = (1, bytes) -> store out off bytes = Ok out' ->
  finalize d out off E s h =
    (Ok (Z.of_nat (length bytes), out'), set_ctx 0 (add_len (Z.of_nat (length bytes)) s),
     h ++ [Final d (ctx s) room; CtxFree (ctx s)]).
Proof.
  intros room Hctx HE Hst. unfold finalize. rewrite bind_get.
  rewrite (if_false (ctx s =? 0)) by (by apply Z.eqb_neq).
  erewrite bind_ok by reflexivity. fold room. rewrite HE. rewrite (if_false (1 =? 0)) by done.
  erewrite bind_ok; [|unfold lift; by rewrite Hst]. rewrite bind_modify.
  erewrite bind_ok by reflexivity. rewrite bind_modify. by rewrite <-app_assoc.
Qed.

Lemma finalize_overflow d out off s (E : @env evp) h bytes w :
  let room := Z.of_nat (length out) - off in
  ctx s <> 0 -> E h (Final d (ctx s) room : evpcall) = (1, bytes) -> store out off bytes = UB w ->
  finalize d out off E s h = (UB w, s, h ++ [Final d (ctx s) room]).
Proof.
  intros room Hctx HE Hst. unfold finalize. rewrite bind_get.
  rewrite (if_false (ctx s =? 0)) by (by apply Z.eqb_neq).
  erewrite bind_ok by reflexivity. fold room. rewrite HE. rewrite (if_false (1 =? 0)) by done.
  apply bind_ub. unfold lift. by rewrite Hst.
Qed.

Lemma destroy_done s (E : @env evp) h : ctx s = 0 -> destroy E s h = (Ok tt, s, h).
Proof. intros Hc. unfold destroy. rewrite bind_get. by rewrite Hc. Qed.

(** A local object whose body ends with the context released. *)
Lemma scoped_run {A} k a d iv (body : cp A) (E : @env evp) h x s' h' :
  (forall h, E h (CtxNew : evpcall) <> 0) ->
  (forall h c, E h (Init d c a k iv : evpcall) <> 0) ->
  keySize a = Z.of_nat (length k) ->
  let c := E h (CtxNew : evpcall) in
  body E (Cipher k c 0 a) (h ++ [CtxNew; Init d c a k iv]) = (Ok x, s', h') -> ctx s' = 0 ->
  scoped k a d iv body E h = (Ok x, h').
Proof.
  intros Hn Hi Hk c Hb Hs. unfold scoped, local_object.
  rewrite (construct_run d iv k a E h) by done. fold c.
  rewrite Hb. by rewrite destroy_done.
Qed.

(** ** Encryption *)

Lemma session_init h d c a k iv : session (h ++ [CtxNew; Init d c a k iv]) c = Some (a, k, iv, []).
Proof. unfold session. rewrite fold_left_app. simpl. by rewrite Z.eqb_refl. Qed.

Lemma session_update h d c a k iv inp source room :
  session h c = Some (a, k, iv, inp) ->
  session (h ++ one_update d c source room) c = Some (a, k, iv, inp ++ source).
Proof.
  intros Hs. destruct source as [|x source]; simpl.
  - by rewrite !app_nil_r.
  - rewrite session_snoc, Hs. simpl. by rewrite Z.eqb_refl.
Qed.

Lemma length_slice_ct a k iv m i j :
  cipher_laws -> (i <= j)%nat -> (j <= blocks (length m) + 16)%nat ->
  length (slice i j (ct a k iv m)) = (j - i)%nat.
Proof. intros L Hij Hj. unfold slice. rewrite length_drop, length_take, (ct_length L). lia. Qed.

Lemma ct_split a k iv m :
  slice 0 (blocks (length m)) (ct a k iv m) ++ drop (blocks (length m)) (ct a k iv m) = ct a k iv m.
Proof. unfold slice. rewrite drop_0. apply take_drop. Qed.

Lemma update_vector_encrypt source s (E : @env evp) h a k iv :
  cipher_laws -> encrypts E -> ctx s <> 0 -> Z.of_nat (length source) <= INT_MAX ->
  session h (ctx s) = Some (a, k, iv, []) ->
  update_vector Encrypt source E s h =
    (Ok (take (blocks (length source)) (ct a k iv source)),
     add_len (Z.of_nat (blocks (length source))) s, h ++ one_update Encrypt (ctx s) source (Z.of_nat (length source))).
Proof.
  intros L HE Hctx Hlen Hs. pose proof (blocks_le (length source)) as Hb.
  set (bytes := slice 0 (blocks (length source)) (ct a k iv source)).
  assert (Hbl : length bytes = blocks (length source)).
  { unfold bytes. rewrite length_slice_ct by (done || lia). lia. }
  assert (Hu : update Encrypt source (replicate (length source) 0) 0 E s h =
    (Ok (Z.of_nat (length bytes), bytes ++ drop (length bytes) (replicate (length source) 0)),
     add_len (Z.of_nat (length bytes)) s,
     h ++ one_update Encrypt (ctx s) source (Z.of_nat (length source)))).
  { replace (Z.of_nat (length source)) with (Z.of_nat (length (replicate (length source) 0)) - 0)
      by (rewrite length_replicate; lia).
    apply update_run; [done|done|unfold INT_MAX in *; lia| |].
    - intros ->. done.
    - intros _. split; [apply (enc_update _ HE _ _ _ _ _ _ _ _ Hs)|].
      apply store_0. rewrite length_replicate. lia. }
  unfold update_vector, update_room. rewrite Nat2Z.id, (bind_ok _ _ _ _ _ _ _ _ Hu).
  unfold mret, prog_ret. rewrite resized_prefix, Hbl. unfold bytes, slice. by rewrite drop_0.
Qed.

Lemma finalize_vector_encrypt s (E : @env evp) h a k iv inp :
  cipher_laws -> encrypts E -> ctx s <> 0 -> session h (ctx s) = Some (a, k, iv, inp) ->
  exists n, finalize_vector Encrypt E s h =
    (Ok (drop (blocks (length inp)) (ct a k iv inp)), set_ctx 0 (add_len n s),
     h ++ [Final Encrypt (ctx s) (blockSize (algorithm s)); CtxFree (ctx s)]).
Proof.
  intros L HE Hctx Hs. set (bytes := drop (blocks (length inp)) (ct a k iv inp)).
  assert (Hbl : length bytes = 16%nat).
  { unfold bytes. rewrite length_drop, (ct_length L). lia. }
  assert (Hroom : (16 <= Z.to_nat (blockSize (algorithm s)))%nat)
    by (destruct (algorithm s); cbn [blockSize]; lia).
  exists (Z.of_nat (length bytes)). unfold finalize_vector. rewrite bind_get.
  erewrite bind_ok.
  2: { apply finalize_run; [done|apply (enc_final _ HE _ _ _ _ _ _ _ Hs)|].
       apply store_0. fold bytes. rewrite length_replicate. lia. }
  rewrite length_replicate, Z2Nat.id, Z.sub_0_r by lia. fold bytes. cbv beta iota. unfold mret, prog_ret. by rewrite trimmed.
Qed.

Lemma encrypt_run (E : @env evp) a k iv source h :
  cipher_laws -> encrypts E -> keySize a = Z.of_nat (length k) ->
  Z.of_nat (length source) <= INT_MAX ->
  let c := E h (CtxNew : evpcall) in
  encrypt_vector k a iv source E h =
    (Ok (ct a k iv source),
     h ++ [CtxNew; Init Encrypt c a k iv] ++ one_update Encrypt c source (Z.of_nat (length source)) ++
     [Final Encrypt c (blockSize a); CtxFree c]).
Proof.
  intros L HE Hk Hlen c. set (s0 := Cipher k c 0 a). set (h1 := h ++ [CtxNew; Init Encrypt c a k iv]).
  assert (Hc : ctx s0 <> 0) by apply (enc_new _ HE).
  assert (Hs : session h1 (ctx s0) = Some (a, k, iv, [])) by apply session_init.
  pose proof (update_vector_encrypt source s0 E h1 a k iv L HE Hc Hlen Hs) as Hu.
  assert (Hs2 : session (h1 ++ one_update Encrypt c source (Z.of_nat (length source)))
                  (ctx (add_len (Z.of_nat (blocks (length source))) s0)) = Some (a, k, iv, source)).
  { exact (session_update _ Encrypt _ _ _ _ [] source _ Hs). }
  destruct (finalize_vector_encrypt (add_len (Z.of_nat (blocks (length source))) s0)
    E _ a k iv source L HE Hc Hs2) as [n Hf].
  unfold encrypt_vector. erewrite scoped_run.
  - rewrite !(app_assoc h). reflexivity.
  - apply (enc_new _ HE).
  - intros. apply (enc_init _ HE).
  - done.
  - fold c s0 h1. rewrite (bind_ok _ _ _ _ _ _ _ _ Hu). rewrite (bind_ok _ _ _ _ _ _ _ _ Hf).
    rewrite take_drop, <-app_assoc. reflexivity.
  - done.
Qed.

(** [Encryptor::encrypt] to a vector computes the ciphertext: for a key of the right length and
    up to [INT_MAX] bytes, over any library that honours the contract, it returns exactly the
    padded ciphertext of the message and releases its context. *)
Theorem encrypt_returns_ciphertext (E : @env evp) a k iv source h :
  cipher_laws -> encrypts E -> keySize a = Z.of_nat (length k) ->
  Z.of_nat (length source) <= INT_MAX ->
  let c := E h (CtxNew : evpcall) in
  encrypt_vector k a iv source E h =
    (Ok (ct a k iv source),
     h ++ [CtxNew; Init Encrypt c a k iv] ++ one_update Encrypt c source (Z.of_nat (length source)) ++
     [Final Encrypt c (blockSize a); CtxFree c]).
Proof. apply encrypt_run. Qed.

Lemma static_update_encrypt source dest s (E : @env evp) h a k iv :
  cipher_laws -> encrypts E -> ctx s <> 0 -> Z.of_nat (length source) <= INT_MAX ->
  (blocks (length source) <= length dest)%nat -> session h (ctx s) = Some (a, k, iv, []) ->
  update Encrypt source dest 0 E s h =
    (Ok (Z.of_nat (blocks (length source)),
         take (blocks (length source)) (ct a k iv source) ++ drop (blocks (length source)) dest),
     add_len (Z.of_nat (blocks (length source))) s,
     h ++ one_update Encrypt (ctx s) source (Z.of_nat (length dest))).
Proof.
  intros L HE Hctx Hlen Hroom Hs. pose proof (blocks_le (length source)) as Hb.
  set (bytes := take (blocks (length source)) (ct a k iv source)).
  assert (Hbl : length bytes = blocks (length source)).
  { unfold bytes. rewrite length_take, (ct_length L). lia. }
  rewrite <-Hbl, <-(Z.sub_0_r (Z.of_nat (length dest))).
  apply update_run; [done|done|unfold INT_MAX in *; lia| |].
  - intros ->. done.
  - intros _. split; [|apply store_0; lia].
    rewrite (enc_update _ HE _ _ _ _ _ _ _ _ Hs). unfold slice. by rewrite drop_0.
Qed.

Lemma last_block_length a k iv source :
  cipher_laws -> length (drop (blocks (length source)) (ct a k iv source)) = 16%nat.
Proof. intros L. rewrite length_drop, (ct_length L). lia. Qed.

(** [Encryptor::encrypt] to a buffer with room for the blocks of [update]: [finalize] writes
    into what is left of it. *)
Lemma static_encrypt_outcome (E : @env evp) a k iv source dest h :
  cipher_laws -> encrypts E -> keySize a = Z.of_nat (length k) ->
  Z.of_nat (length source) <= INT_MAX -> (blocks (length source) <= length dest)%nat ->
  (static_to_buffer Encrypt k a iv source dest E h).1 =
  if (length dest <? blocks (length source) + 16)%nat then UB "write past the buffer"
  else Ok (Z.of_nat (blocks (length source)) + 16,
           ct a k iv source ++ drop (blocks (length source) + 16) dest).
Proof.
  intros L HE Hk Hlen Hroom. unfold static_to_buffer, scoped, local_object.
  set (c := E h (CtxNew : evpcall)).
  rewrite (construct_run Encrypt iv k a E h (enc_new _ HE) (fun h c => enc_init _ HE h c a k iv) Hk).
  fold c. set (s0 := Cipher k c 0 a). set (h1 := h ++ _).
  assert (Hc : ctx s0 <> 0) by apply (enc_new _ HE).
  assert (Hs : session h1 (ctx s0) = Some (a, k, iv, [])) by apply session_init.
  rewrite (bind_ok _ _ _ _ _ _ _ _
    (static_update_encrypt source dest s0 E h1 a k iv L HE Hc Hlen Hroom Hs)).
  pose proof (session_update _ Encrypt _ _ _ _ [] source (Z.of_nat (length dest)) Hs) as Hs2.
  simpl app in Hs2. set (s1 := add_len _ s0). 
  set (h2 := h1 ++ one_update Encrypt c source (Z.of_nat (length dest))) in *.
  change (h1 ++ one_update Encrypt (ctx s0) source (Z.of_nat (length dest))) with h2.
  pose proof (fun room => enc_final _ HE h2 c a k iv source room Hs2) as HF.
  pose proof (last_block_length a k iv source L) as Hlast.
  set (last := drop (blocks (length source)) (ct a k iv source)) in *.
  set (buf := take (blocks (length source)) (ct a k iv source) ++ drop (blocks (length source)) dest).
  assert (Hfull : length buf = length dest).
  { unfold buf. rewrite length_app, length_take, length_drop, (ct_length L). lia. }
  destruct (length dest <? blocks (length source) + 16)%nat eqn:Hsmall.
  - apply Nat.ltb_lt in Hsmall.
    assert (Hst := store_too_long buf (Z.of_nat (blocks (length source))) last
      ltac:(rewrite Hfull, Hlast; lia)).
    rewrite (bind_ub _ _ _ _ _ _ _ _ (finalize_overflow Encrypt _ _ s1 E h2 last _ Hc (HF _) Hst)).
    by destruct (destroy E s1 _) as [[??]?].
  - apply Nat.ltb_ge in Hsmall.
    assert (Hst := store_fits buf (Z.of_nat (blocks (length source))) last
      ltac:(rewrite Hfull, Hlast; lia)).
    rewrite (bind_ok _ _ _ _ _ _ _ _ (finalize_run Encrypt _ _ s1 E h2 last _ Hc (HF _) Hst)).
    rewrite Hlast, Nat2Z.id. unfold mret, prog_ret. rewrite destroy_done by done. simpl.
    assert (Htl : length (take (blocks (length source)) (ct a k iv source)) = blocks (length source))
      by (rewrite length_take, (ct_length L); lia).
    unfold buf. rewrite take_app_length' by done. rewrite drop_app, Htl, drop_ge by (rewrite Htl; lia).
    rewrite drop_drop. simpl app. unfold last. rewrite app_assoc, take_drop. do 4 f_equal. lia.
Qed.

(** With less room than that, [update] already writes past it. *)
Lemma static_encrypt_short (E : @env evp) a k iv source dest h :
  cipher_laws -> encrypts E -> keySize a = Z.of_nat (length k) ->
  Z.of_nat (length source) <= INT_MAX -> (length dest < blocks (length source))%nat ->
  undefined (static_to_buffer Encrypt k a iv source dest E h).1.
Proof.
  intros L HE Hk Hlen Hroom. unfold static_to_buffer, scoped, local_object.
  set (c := E h (CtxNew : evpcall)).
  rewrite (construct_run Encrypt iv k a E h (enc_new _ HE) (fun h c => enc_init _ HE h c a k iv) Hk).
  fold c. set (s0 := Cipher k c 0 a). set (h1 := h ++ _).
  assert (Hc : ctx s0 <> 0) by apply (enc_new _ HE).
  assert (Hs : session h1 (ctx s0) = Some (a, k, iv, [])) by apply session_init.
  assert (Hne : source <> []) 
    by (intros ->; change (blocks (length [])) with 0%nat in Hroom; lia).
  pose proof (enc_update _ HE _ _ _ _ _ _ source (Z.of_nat (length dest) - 0) Hs) as HU.
  simpl app in HU. set (bytes := slice _ _ _) in HU.
  assert (Hb : length bytes = blocks (length source)).
  { unfold bytes. rewrite length_slice_ct; [change (blocks (length [])) with 0%nat; lia|done| |lia].
    change (blocks (length [])) with 0%nat. lia. }
  assert (Hst := store_too_long dest 0 bytes ltac:(rewrite Hb; lia)).
  rewrite (bind_ub _ _ _ _ _ _ _ _ (update_overflow Encrypt source dest 0 s0 E h1 bytes _ Hc Hne
    Hlen HU Hst)).
  destruct (destroy E s0 _) as [[??]?]. by eexists.
Qed.

(** C33. [Encryptor::encrypt] to a buffer, for a message of up to [INT_MAX] bytes, needs one block
    more than the plaintext's whole blocks: with that much room it returns the length of the
    ciphertext and leaves the ciphertext at the beginning of the buffer; with any less it writes
    past the end. *)
Theorem encrypt_fits_iff (E : @env evp) a k iv source dest h :
  cipher_laws -> encrypts E -> keySize a = Z.of_nat (length k) ->
  Z.of_nat (length source) <= INT_MAX ->
  ((blocks (length source) + 16 <= length dest)%nat ->
   (static_to_buffer Encrypt k a iv source dest E h).1 =
   Ok (Z.of_nat (length (ct a k iv source)),
       ct a k iv source ++ drop (length (ct a k iv source)) dest)) /\
  ((length dest < blocks (length source) + 16)%nat ->
   undefined (static_to_buffer Encrypt k a iv source dest E h).1).
Proof.
  intros L HE Hk Hlen. rewrite (ct_length L).
  destruct (decide (length dest < blocks (length source))%nat) as [Hs|Hroom%Nat.nlt_ge].
  { split; [lia|]. intros _. by apply static_encrypt_short. }
  rewrite (static_encrypt_outcome E a k iv source dest h L HE Hk Hlen Hroom).
  split; intros Hr.
  - rewrite (proj2 (Nat.ltb_ge _ _) Hr). by rewrite Nat2Z.inj_add.
  - rewrite (proj2 (Nat.ltb_lt _ _) Hr). by eexists.
Qed.

(** [chipertextSize] is too small for a message of whole blocks: it returns the length of the
    message, without the block of padding, and a buffer of that size is overrun. *)
Theorem announced_size_too_small (E : @env evp) a k iv source dest h :
  cipher_laws -> encrypts E -> keySize a = Z.of_nat (length k) -> blockSize a = 16 ->
  Z.of_nat (length source) <= INT_MAX -> Z.of_nat (length source) mod 16 = 0 ->
  chipertextSize a (Z.of_nat (length source)) = Ok (Z.of_nat (length dest)) ->
  undefined (static_to_buffer Encrypt k a iv source dest E h).1.
Proof.
  intros L HE Hk Hb Hlen Hmod Hsize. unfold chipertextSize in Hsize. rewrite Hb, Hmod in Hsize.
  change (negb (0 =? 0)) with false in Hsize. cbv iota zeta in Hsize.
  case_match; [done|]. injection Hsize as Hsize.
  assert (Hbl : blocks (length source) = length source).
  { unfold blocks. assert (length source mod 16 = 0)%nat.
    { apply Nat2Z.inj. rewrite Nat2Z.inj_mod. exact Hmod. }
    pose proof (Nat.div_mod_eq (length source) 16). lia. }
  rewrite (static_encrypt_outcome E a k iv source dest h L HE Hk Hlen) by lia.
  rewrite (proj2 (Nat.ltb_lt _ _)) by lia. by eexists.
Qed.

(** The vector version of [update] makes room for as many bytes as it is given, but an update
    can complete a block begun before: when the blocks completed are longer than the data, the
    library writes past the vector. *)
Theorem vector_update_overflows (E : @env evp) s h a k iv inp source :
  cipher_laws -> encrypts E -> ctx s <> 0 -> session h (ctx s) = Some (a, k, iv, inp) ->
  Z.of_nat (length source) <= INT_MAX ->
  (length source < blocks (length (inp ++ source)) - blocks (length inp))%nat ->
  undefined (outcome (update_vector Encrypt source E s h)).
Proof.
  intros L HE Hctx Hs Hlen Hover.
  destruct source as [|x source0] eqn:Hsrc; [rewrite app_nil_r in Hover; lia|].
  rewrite <-Hsrc in *. assert (Hne : source <> []) by (by rewrite Hsrc).
  pose proof (enc_update _ HE _ _ _ _ _ _ source (Z.of_nat (length source)) Hs) as HU.
  set (i := blocks (length inp)) in *. set (j := blocks (length (inp ++ source))) in *.
  set (bytes := slice i j (ct a k iv (inp ++ source))) in HU.
  assert (Hbl : length bytes = (j - i)%nat) by (apply length_slice_ct; [done|lia|fold j; lia]).
  assert (Hst := store_too_long (replicate (length source) 0) 0 bytes
    ltac:(rewrite length_replicate; lia)).
  unfold update_vector, update_room. rewrite Nat2Z.id.
  rewrite (bind_ub _ _ _ _ _ _ _ _ (update_overflow Encrypt source _ 0 s E h bytes _ Hctx Hne Hlen
    ltac:(rewrite length_replicate, Z.sub_0_r; exact HU) Hst)).
  by eexists.
Qed.

Lemma store_before buf off bytes buf' i :
  store buf off bytes = Ok buf' -> 0 <= off -> (i < Z.to_nat off)%nat -> buf' !! i = buf !! i.
Proof.
  unfold store. case_bool; [done|]. intros [= <-] Hoff Hi.
  rewrite lookup_app_l by (rewrite length_take; lia). by apply lookup_take_lt.
Qed.
Lemma store_after buf off bytes buf' i :
  store buf off bytes = Ok buf' -> 0 <= off -> (Z.to_nat off + length bytes <= i)%nat ->
  buf' !! i = buf !! i.
Proof.
  unfold store. case_bool; [done|]. intros [= <-] Hoff Hi.
  rewrite lookup_app_r by (rewrite length_take; lia).
  rewrite lookup_app_r by (rewrite length_take; lia).
  rewrite lookup_drop, length_take. f_equal. lia.
Qed.
Lemma store_length buf off bytes buf' :
  store buf off bytes = Ok buf' -> 0 <= off -> length buf' = length buf.
Proof.
  unfold store. case_bool; [done|]. intros [= <-] Hoff.
  rewrite !length_app, length_take, length_drop. lia.
Qed.

(** One turn of the loop, over a library that honours the contract. *)
Lemma one_shot (E : @env evp) shot fuel source outPtr out shotLen s h a k iv inp :
  cipher_laws -> encrypts E -> session h (ctx s) = Some (a, k, iv, inp) -> source <> [] ->
  let chunk := take shot source in
  let made := (blocks (length (inp ++ chunk)) - blocks (length inp))%nat in
  0 <= outPtr -> outPtr + Z.of_nat made <= Z.of_nat (length out) ->
  exists bytes out' h', store out outPtr bytes = Ok out' /\ length bytes = made /\
    session h' (ctx s) = Some (a, k, iv, inp ++ chunk) /\
    update_loop Encrypt shot (S fuel) source outPtr out shotLen E s h =
    update_loop Encrypt shot fuel (drop shot source) (outPtr + Z.of_nat (length chunk)) out'
      (u64 (shotLen + Z.of_nat made)) E s h'.
Proof.
  intros L HE Hs Hne chunk made Hoff Hroom.
  pose proof (enc_update _ HE _ _ _ _ _ _ chunk (Z.of_nat (length out) - outPtr) Hs) as HU.
  set (bytes := slice _ _ _) in HU.
  assert (Hmono : (blocks (length inp) <= blocks (length (inp ++ chunk)))%nat).
  { rewrite length_app. unfold blocks.
    pose proof (Nat.Div0.div_le_mono (length inp) (length inp + length chunk) 16). lia. }
  assert (Hb : length bytes = made) by (apply length_slice_ct; [done|done|lia]).
  assert (Hst := store_fits out outPtr bytes ltac:(rewrite Hb; lia)).
  eexists bytes, _, (h ++ [Update Encrypt (ctx s) chunk _]). split; [exact Hst|]. split; [done|].
  split; [rewrite session_snoc, Hs; simpl; by rewrite Z.eqb_refl|].
  rewrite (update_loop_step _ _ _ _ _ _ _ _ _ _ 1 bytes _ Hne HU ltac:(done) Hst). by rewrite Hb.
Qed.

(** A message longer than one shot leaves holes in the ciphertext: after each shot the output
    pointer moves by the input consumed, not by the output produced, so when the shot is not
    whole blocks (and [INT_MAX] is not) the bytes between are never written. *)
Theorem long_message_leaves_hole (E : @env evp) shot s1 s2 dest s h a k iv :
  cipher_laws -> encrypts E -> ctx s <> 0 -> session h (ctx s) = Some (a, k, iv, []) ->
  length s1 = shot -> (0 < shot)%nat -> s2 <> [] -> (length s2 <= shot)%nat ->
  (shot + length s2 + 16 <= length dest)%nat ->
  exists n out' s' h',
    update_loop Encrypt shot (length (s1 ++ s2)) (s1 ++ s2) 0 dest 0 E s h = (Ok (n, out'), s', h') /\
    forall i, (blocks shot <= i < shot)%nat -> out' !! i = dest !! i.
Proof.
  intros L HE Hctx Hs Hs1 Hshot Hne Hs2 Hdest.
  assert (Hn : length (s1 ++ s2) = (shot + length s2)%nat) by (by rewrite length_app, Hs1).
  assert (Hl2 : (0 < length s2)%nat) by (by destruct s2; simpl; [|lia]).
  pose proof (blocks_le shot). pose proof (blocks_lt shot). pose proof (blocks_le (shot + length s2)).
  assert (Htake : take shot (s1 ++ s2) = s1) by (by rewrite take_app_length').
  rewrite Hn. destruct shot as [|shot0]; [lia|]. destruct (length s2) as [|l2] eqn:El2; [lia|].
  rewrite Nat.add_succ_r. cbn [Nat.add].
  destruct (one_shot E (S shot0) (S (shot0 + l2)) (s1 ++ s2) 0 dest 0 s h a k iv [] L HE Hs) as
    (b1 & out1 & h1 & Hst1 & Hb1 & Hh1 & ->); rewrite ?Htake; simpl app;
    [by destruct s1|lia|rewrite Hs1; change (blocks (length [])) with 0%nat; lia|].
  rewrite Htake in *. simpl app in *. rewrite Hs1 in *. change (blocks (length [])) with 0%nat in *.
  rewrite drop_app_length' by done.
  destruct (one_shot E (S shot0) (shot0 + l2) s2 (0 + Z.of_nat (S shot0)) out1
    (u64 (0 + Z.of_nat (blocks (S shot0) - 0))) s h1 a k iv s1 L HE Hh1 Hne) as
    (b2 & out2 & h2 & Hst2 & Hb2 & Hh2 & Heq);
    rewrite ?(take_ge s2) in * by lia; [lia|rewrite (store_length _ _ _ _ Hst1), Hn, Hs1 by lia; lia|].
  exists (u64 (u64 (0 + Z.of_nat (blocks (S shot0) - 0)) +
               Z.of_nat (blocks (length (s1 ++ s2)) - blocks (length s1)))), out2, s, h2.
  split.
  - rewrite Heq, (drop_ge s2) by lia. apply update_loop_done.
  - intros i Hi. rewrite (store_before _ _ _ _ i Hst2) by lia.
    apply (store_after _ _ _ _ i Hst1); lia.
Qed.

(** ** Decryption *)

(** An object given the whole ciphertext at once, then finished, both into one buffer. *)
Lemma decrypt_pieces_run slack (E : @env evp) a k iv m dest h :
  cipher_laws -> decrypts slack E -> keySize a = Z.of_nat (length k) -> 0 <= slack <= 16 ->
  Z.of_nat (length m) + 16 <= INT_MAX ->
  Z.of_nat (length (ct a k iv m)) + slack <= Z.of_nat (length dest) ->
  let c := E h (CtxNew : evpcall) in let s0 := Cipher k c 0 a in
  let h1 := h ++ [CtxNew; Init Decrypt c a k iv] in
  let b1 := take (blocks (length m)) m in let s1 := add_len (Z.of_nat (length b1)) s0 in
  let b2 := drop (blocks (length m)) m in
  exists h2, update Decrypt (ct a k iv m) dest 0 E s0 h1 =
      (Ok (Z.of_nat (length b1), b1 ++ drop (length b1) dest), s1, h2) /\
    forall out off out', slack <= Z.of_nat (length out) - off -> store out off b2 = Ok out' ->
      finalize Decrypt out off E s1 h2 =
        (Ok (Z.of_nat (length b2), out'), set_ctx 0 (add_len (Z.of_nat (length b2)) s1),
         h2 ++ [Final Decrypt c (Z.of_nat (length out) - off); CtxFree c]).
Proof.
  intros L HE Hk Hslack Hlen Hdest c s0 h1 b1 s1 b2. set (source := ct a k iv m) in *.
  assert (Hc : ctx s0 <> 0) by apply (dec_new _ _ HE).
  assert (Hs : session h1 (ctx s0) = Some (a, k, iv, [])) by apply session_init.
  pose proof (ct_length L a k iv m) as Hct. fold source in Hct.
  pose proof (blocks_le (length m)). pose proof (blocks_lt (length m)).
  assert (Hb1 : length b1 = blocks (length m)) by (unfold b1; rewrite length_take; lia).
  assert (Hst1 := store_0 dest b1 ltac:(lia)).
  pose proof (session_update _ Decrypt _ _ _ _ [] source (Z.of_nat (length dest) - 0) Hs) as Hs2.
  simpl app in Hs2. eexists. split.
  - apply update_run; [done|unfold INT_MAX in *; lia|unfold INT_MAX in *; lia| |].
    + intros Hnil. rewrite Hnil in Hct. simpl in Hct. lia.
    + intros _. split; [|done].
      rewrite (dec_update _ _ HE _ _ _ _ _ [] source _ m Hs) by (done || lia).
      simpl app. unfold source. rewrite (hold_ct a k iv m L). unfold slice. by rewrite drop_0.
  - intros out off out' Hroom Hst2.
    pose proof (dec_final _ _ HE _ _ _ _ _ _ m Hs2 Hroom) as HF. rewrite hold_ct in HF by done.
    exact (finalize_run Decrypt out off s1 E _ b2 out' Hc HF Hst2).
Qed.

Lemma static_decrypt_run slack (E : @env evp) a k iv m dest h :
  cipher_laws -> decrypts slack E -> keySize a = Z.of_nat (length k) -> 0 <= slack <= 16 ->
  Z.of_nat (length m) + 16 <= INT_MAX ->
  Z.of_nat (length (ct a k iv m)) + slack <= Z.of_nat (length dest) ->
  exists h', static_to_buffer Decrypt k a iv (ct a k iv m) dest E h =
    (Ok (Z.of_nat (length m), m ++ drop (length m) dest), h').
Proof.
  intros L HE Hk Hslack Hlen Hdest.
  destruct (decrypt_pieces_run slack E a k iv m dest h L HE Hk Hslack Hlen Hdest) as (h2 & Hu & Hf).
  rewrite (ct_length L) in Hdest. pose proof (blocks_le (length m)). pose proof (blocks_lt (length m)).
  set (b1 := take (blocks (length m)) m) in *. set (b2 := drop (blocks (length m)) m) in *.
  assert (Hb1 : length b1 = blocks (length m)) by (unfold b1; rewrite length_take; lia).
  assert (Hb2 : length b2 = (length m - blocks (length m))%nat) by apply length_drop.
  set (buf := b1 ++ drop (length b1) dest) in *.
  assert (Hbuf : length buf = length dest) by (unfold buf; rewrite length_app, length_drop; lia).
  assert (Hst2 := store_fits buf (Z.of_nat (length b1)) b2 ltac:(lia)).
  eexists. unfold static_to_buffer. eapply scoped_run.
  - apply (dec_new _ _ HE).
  - intros. apply (dec_init _ _ HE).
  - done.
  - rewrite (bind_ok _ _ _ _ _ _ _ _ Hu).
    rewrite (bind_ok _ _ _ _ _ _ _ _ (Hf buf (Z.of_nat (length b1)) _ ltac:(lia) Hst2)).
    unfold mret, prog_ret, buf. rewrite Nat2Z.id, take_app_length, drop_app, drop_ge by lia.
    rewrite drop_drop, app_assoc. unfold b1 at 2. unfold b2 at 2. rewrite take_drop. simpl app.
    replace (Z.of_nat (length b1) + Z.of_nat (length b2)) with (Z.of_nat (length m)) by lia.
    replace (length b1 + (length b1 + length b2 - length b1))%nat with (length m) by lia.
    reflexivity.
  - done.
Qed.

Lemma vectors_decrypt_run slack (E : @env evp) a k iv m h :
  cipher_laws -> decrypts slack E -> keySize a = Z.of_nat (length k) -> 0 <= slack <= 16 ->
  Z.of_nat (length m) + 16 <= INT_MAX ->
  exists h', scoped k a Decrypt iv
    (p ← update_vector Decrypt (ct a k iv m); q ← finalize_vector Decrypt; mret (p ++ q)) E h =
    (Ok m, h').
Proof.
  intros L HE Hk Hslack Hlen. pose proof (ct_length L a k iv m) as Hct.
  pose proof (blocks_le (length m)). pose proof (blocks_lt (length m)).
  set (n := (length (ct a k iv m) + 16)%nat).
  assert (Hn : Z.to_nat (update_room Decrypt (Z.of_nat (length (ct a k iv m)))) = n).
  { unfold update_room. rewrite wrap_u64_small by (unfold INT_MAX in *; lia). lia. }
  destruct (decrypt_pieces_run slack E a k iv m (replicate n 0) h L HE Hk Hslack Hlen) as
    (h2 & Hu & Hf); [rewrite length_replicate; lia|].
  set (b1 := take (blocks (length m)) m) in *. set (b2 := drop (blocks (length m)) m) in *.
  assert (Hb1 : length b1 = blocks (length m)) by (unfold b1; rewrite length_take; lia).
  assert (Hb2 : length b2 = (length m - blocks (length m))%nat) by apply length_drop.
  assert (Hbs : (16 <= Z.to_nat (blockSize a))%nat) by (destruct a; cbn [blockSize]; lia).
  eexists. eapply scoped_run.
  - apply (dec_new _ _ HE).
  - intros. apply (dec_init _ _ HE).
  - done.
  - unfold update_vector. rewrite Hn. erewrite bind_ok.
    2: { rewrite (bind_ok _ _ _ _ _ _ _ _ Hu). rewrite length_app, length_drop, length_replicate.
      rewrite if_true by (apply Z.ltb_lt; lia). rewrite resized_prefix. reflexivity. }
    erewrite bind_ok.
    2: { unfold finalize_vector. rewrite bind_get. erewrite bind_ok.
      2: { apply Hf; [rewrite length_replicate; cbn [algorithm add_len]; lia|].
           apply store_0. rewrite length_replicate. cbn [algorithm add_len]. lia. }
      cbv beta iota. rewrite trimmed. reflexivity. }
    unfold b1, b2. by rewrite take_drop.
  - done.
Qed.

Lemma decrypt_run (E : @env evp) a k iv m h :
  cipher_laws -> decrypts 0 E -> keySize a = Z.of_nat (length k) ->
  Z.of_nat (length m) + 16 <= INT_MAX ->
  exists h', decrypt_vector k a iv (ct a k iv m) E h = (Ok m, h').
Proof.
  intros L HE Hk Hlen.
  destruct (static_decrypt_run 0 E a k iv m (replicate (length (ct a k iv m)) 0) h) as
    (h' & Hd); [done..|rewrite length_replicate; lia|].
  exists h'. unfold decrypt_vector. rewrite Hd. by rewrite resized_prefix.
Qed.

(** C32. Decryption undoes encryption: for every message of at most [INT_MAX - 16] bytes, every
    algorithm and every key of its length, what [Encryptor::encrypt] returns is turned back into
    the message by [Decryptor::decrypt] to a buffer with a block more than the ciphertext (the room
    the library documents that it needs), at the beginning of which the message is left, and by a
    [Decryptor] given it whole and finished, whose two vectors make up the message. *)
Theorem decrypt_encrypt (E1 E2 : @env evp) a k iv m dest h1 h2 :
  cipher_laws -> encrypts E1 -> decrypts documented_slack E2 -> keySize a = Z.of_nat (length k) ->
  Z.of_nat (length m) + 16 <= INT_MAX ->
  exists c h1', encrypt_vector k a iv m E1 h1 = (Ok c, h1') /\
    (Z.of_nat (length c) + documented_slack <= Z.of_nat (length dest) ->
     exists h2', static_to_buffer Decrypt k a iv c dest E2 h2 =
       (Ok (Z.of_nat (length m), m ++ drop (length m) dest), h2')) /\
    exists h2', scoped k a Decrypt iv
      (p ← update_vector Decrypt c; q ← finalize_vector Decrypt; mret (p ++ q)) E2 h2 = (Ok m, h2').
Proof.
  intros L HE1 HE2 Hk Hlen. eexists (ct a k iv m), _. split; [apply encrypt_run; (done || lia)|].
  split.
  - intros Hdest. by apply (static_decrypt_run documented_slack).
  - by apply (vectors_decrypt_run documented_slack).
Qed.

(** [Decryptor::decrypt] to a vector gives the library the size of the ciphertext and no block
    more: it returns the message over a library that needs no room but for what it stores, which
    is more than the documentation promises. *)
Theorem decrypt_vector_in_place (E1 E2 : @env evp) a k iv m h1 h2 :
  cipher_laws -> encrypts E1 -> decrypts 0 E2 -> keySize a = Z.of_nat (length k) ->
  Z.of_nat (length m) + 16 <= INT_MAX ->
  exists c h1' h2', encrypt_vector k a iv m E1 h1 = (Ok c, h1') /\
    decrypt_vector k a iv c E2 h2 = (Ok m, h2').
Proof.
  intros L HE1 HE2 Hk Hlen. destruct (decrypt_run E2 a k iv m h2 L HE2 Hk Hlen) as (h' & Hd).
  eexists (ct a k iv m), _, h'. split; [|done]. apply encrypt_run; (done || lia).
Qed.
End Contract.

(** ** The context *)

#[export] Instance evp_resources : @Resources evp Z := {|
  acquired c := match c as c return evp_reply c -> list Z with
                | CtxNew => fun r => if r =? 0 then [] else [r]
                | _ => fun _ => []
                end;
  released c := match c with CtxFree c => [c] | _ => [] end |}.

Inductive op := OUpdate (source out : list Z) | OUpdateVector (source : list Z)
  | OFinalize (out : list Z) | OFinalizeVector.

Definition run_op (d : direction) (o : op) : cp unit :=
  match o with
  | OUpdate source out => _ ← update d source out 0; mret tt
  | OUpdateVector source => _ ← update_vector d source; mret tt
  | OFinalize out => _ ← finalize d out 0; mret tt
  | OFinalizeVector => _ ← finalize_vector d; mret tt
  end.

(** An object from its constructor to its destructor. *)
Definition life (d : direction) (iv : list Z) (ops : list op) : cp unit :=
  _ ← construct d iv; lifetime (run_op d) destroy ops.

Definition context (c : Z) : list Z := if c =? 0 then [] else [c].
Definition holds (s : cipher) (held : list Z) : Prop := held = context (ctx s).
Abbreviation keeps p := (triple holds p (fun _ => holds) holds).

Ltac holding := intros; destruct_and?; unfold holds in *; subst; try done.
Ltac keeping :=
  repeat (intros; cbv beta;
    lazymatch goal with
    | |- triple _ (mret _) _ _ => apply triple_ret; solve [holding]
    | |- triple _ (throw _) _ _ => apply triple_throw; solve [holding]
    | |- triple _ (lift _) _ _ => apply triple_lift; solve [holding]
    | |- triple _ (modify _) _ _ => apply triple_modify; solve [holding]
    | |- triple _ (sys _) _ _ => sys_neutral; solve [holding]
    | |- triple _ (get ≫= _) _ _ => apply triple_get
    | |- triple _ (_ ≫= _) _ _ => apply (triple_bind _ _ _ (fun _ => holds))
    | |- triple _ (if ?b then _ else _) _ _ => destruct b
    | |- triple _ (match ?x with _ => _ end) _ _ => destruct x
    end).

Lemma keeps_loop d shot fuel source outPtr out shotLen :
  keeps (update_loop d shot fuel source outPtr out shotLen).
Proof.
  revert source outPtr out shotLen.
  induction fuel as [|fuel IH]; intros [|x source] outPtr out shotLen; cbn [update_loop].
  1-3: by keeping.
  apply triple_get. intros s0. apply (triple_bind _ _ _ (fun _ => holds)); [keeping|].
  intros [ok bytes]. destruct (ok =? 0); [keeping|].
  apply (triple_bind _ _ _ (fun _ => holds)); [keeping|]. intros out'. apply IH.
Qed.

Lemma keeps_update d source out off : keeps (update d source out off).
Proof.
  apply triple_get. intros s0. destruct (ctx s0 =? 0); [keeping|].
  apply (triple_bind _ _ _ (fun _ => holds)); [|keeping].
  eapply triple_weaken; [apply keeps_loop|holding|done|done].
Qed.

Lemma context_some c : (c =? 0) = false -> context c = [c].
Proof. unfold context. by intros ->. Qed.

Lemma keeps_finalize d out off : keeps (finalize d out off).
Proof.
  apply triple_get. intros s0. destruct (ctx s0 =? 0) eqn:Hc; [keeping|].
  set (M s held := ctx s = ctx s0 /\ holds s held).
  apply (triple_bind _ _ _ (fun _ => M)).
  { sys_neutral; [done|done|]. unfold M. holding. }
  intros [ok bytes]. destruct (ok =? 0); [apply triple_throw; unfold M; holding|].
  apply (triple_bind _ _ _ (fun _ => M)); [apply triple_lift; unfold M; holding|]. intros out'.
  apply (triple_bind _ _ _ (fun _ => M)); [apply triple_modify; unfold M; holding|]. intros _.
  apply (triple_bind _ _ _ (fun _ s held => held = [])).
  - sys_release (ctx s0); [done|done|]. intros _ s held [Hs Hh]. exists [].
    split; [|done]. unfold holds in Hh. by rewrite Hh, Hs, context_some.
  - intros _. apply (triple_bind _ _ _ (fun _ => holds)); [|keeping].
    apply triple_modify. by intros s held ->.
Qed.

Lemma keeps_cipher_op d o : keeps (run_op d o).
Proof.
  destruct o; simpl; apply (triple_bind _ _ _ (fun _ => holds)); try (by keeping).
  - apply keeps_update.
  - unfold update_vector. apply (triple_bind _ _ _ (fun _ => holds)); [apply keeps_update|keeping].
  - apply keeps_finalize.
  - apply triple_get. intros s0. apply (triple_bind _ _ _ (fun _ => holds)); [|by keeping].
    eapply triple_weaken; [apply keeps_finalize|holding|done|done].
Qed.

Lemma destroy_releases :
  triple holds destroy (fun _ _ held => held = []) (fun _ held => held = []).
Proof.
  apply triple_get. intros s0. destruct (ctx s0 =? 0) eqn:Hc; simpl negb; cbv iota.
  - apply triple_ret. intros s held [-> ->]. unfold context. by rewrite Hc.
  - apply (triple_bind _ _ _ (fun _ _ held => held = [])); [|intros _; by apply triple_ret].
    sys_release (ctx s0); [done|done|]. intros _ s held [-> ->]. exists [].
    split; [|done]. by rewrite context_some.
Qed.

Lemma construct_holds d iv k a :
  triple (fun s held => s = unset k a /\ held = []) (construct d iv) (fun _ => holds)
    (fun _ held => held = []).
Proof.
  apply triple_get. intros s0.
  destruct (negb _); [apply triple_throw; by intros s held (-> & -> & ->)|].
  apply (triple_bind _ _ _ (fun c _ held => held = context c)).
  { sys_acquire; [done|]. intros c s held (-> & -> & ->). unfold context. simpl.
    by destruct (c =? 0). }
  intros c. apply (triple_bind _ _ _ (fun _ s held => held = context c /\ ctx s = c)).
  { apply triple_modify. by intros s held ->. }
  intros _. destruct (c =? 0) eqn:Hc.
  { apply triple_throw. intros s held [-> _]. unfold context. by rewrite Hc. }
  apply (triple_bind _ _ _ (fun _ s held => held = context c /\ ctx s = c)).
  { sys_neutral; [done|done|]. by intros _ s held ?. }
  intros ok. destruct (ok =? 0); [|apply triple_ret; by intros s held [-> <-]].
  apply (triple_bind _ _ _ (fun _ _ held => held = [])).
  { sys_release c; [done|done|]. intros _ s held [-> _]. exists []. split; [|done].
    by rewrite context_some. }
  intros _. apply (triple_bind _ _ _ (fun _ _ held => held = [])); [by apply triple_modify|].
  intros _. by apply triple_throw.
Qed.

(** A cipher context is released exactly once, whatever the library answers: from the
    constructor, failed or not, through any sequence of updates and finalizations, exceptions
    included, to the destructor, the contexts freed are those created. *)
Theorem context_freed_once d iv k a ops E r s h :
  life d iv ops E (unset k a) [] = (r, s, h) -> releases h ≡ₚ acquires E [] h.
Proof.
  apply (released_exactly _ (fun s held => s = unset k a /\ held = [])); [|done].
  apply (triple_bind _ _ _ (fun _ => holds)); [apply construct_holds|]. intros _.
  apply (triple_lifetime (run_op d) destroy holds); [apply keeps_cipher_op|apply destroy_releases].
Qed.

Lemma destroy_live s (E : @env evp) h :
  ctx s <> 0 -> destroy E s h = (Ok tt, s, h ++ [CtxFree (ctx s)]).
Proof.
  intros Hc. unfold destroy. rewrite bind_get.
  by rewrite (if_true (negb (ctx s =? 0))) by (by apply negb_true_iff, Z.eqb_neq).
Qed.

(** The classes can be copied, and the implicit copy shares the context: destroying an object
    and its copy frees the same context twice. *)
Theorem copied_context_freed_twice (E : @env evp) s h :
  ctx s <> 0 ->
  let copy := s in
  releases (history (destroy E copy (history (destroy E s h)))) = releases h ++ [ctx s; ctx s].
Proof.
  intros Hc copy. unfold copy, history. rewrite !destroy_live by done. simpl snd.
  rewrite <-app_assoc. exact (releases_app h [CtxFree (ctx s); CtxFree (ctx s)]).
Qed.

(** ** A library that honours the contract

    The cipher that only pads: enough to show that the hypotheses can be met. *)

Definition padding (m : list Z) : list Z :=
  let n := (16 - length m mod 16)%nat in replicate n (Z.of_nat n).
Definition padded (a : EncryptionAlgorithm) (k iv m : list Z) : list Z := m ++ padding m.

Lemma blocks_mod n : (blocks n + n mod 16 = n)%nat.
Proof. unfold blocks. pose proof (Nat.div_mod_eq n 16). lia. Qed.

Lemma padded_laws : cipher_laws padded.
Proof.
  split; intros a k iv m; [|intros m']; unfold padded, padding.
  - rewrite length_app, length_replicate. pose proof (blocks_mod (length m)).
    pose proof (Nat.mod_upper_bound (length m) 16). lia.
  - pose proof (blocks_le (length m)). rewrite <-app_assoc, !take_app_le by lia. done.
Qed.

Definition given (h : list evp_call) (c : Z) : list Z :=
  match session h c with Some (_, _, _, inp) => inp | None => [] end.

Definition padding_library : @env evp := fun h c =>
  match c as c return evp_reply c with
  | CtxNew => 1
  | CtxFree _ | Init _ _ _ _ _ => 1
  | Update Encrypt c data _ =>
      let inp := given h c in
      (1, slice (blocks (length inp)) (blocks (length (inp ++ data))) (inp ++ data))
  | Final Encrypt c _ =>
      let inp := given h c in (1, drop (blocks (length inp)) (inp ++ padding inp))
  | Update Decrypt c data _ =>
      let inp := given h c in
      (1, slice (hold (length inp)) (hold (length (inp ++ data))) (inp ++ data))
  | Final Decrypt c _ =>
      let inp := given h c in
      (1, drop (hold (length inp)) (take (length inp - Z.to_nat (default 0 (list.last inp))) inp))
  end.

Lemma slice_take i j l n : (j <= n)%nat -> slice i j (take n l) = slice i j l.
Proof. intros. unfold slice. rewrite take_take. do 2 f_equal. lia. Qed.

Lemma padding_encrypts : encrypts padded padding_library.
Proof.
  split; try done.
  - intros h c a k iv inp data room Hs. simpl. unfold given. rewrite Hs. f_equal. unfold padded.
    rewrite <-(slice_take _ _ ((inp ++ data) ++ _) (length (inp ++ data))).
    + by rewrite take_app_length.
    + apply blocks_le.
  - intros h c a k iv inp room Hs. simpl. unfold given. by rewrite Hs.
Qed.

Lemma padding_decrypts slack : decrypts padded slack padding_library.
Proof.
  split; try done.
  - intros h c a k iv inp data room m Hs Hp _. simpl. unfold given. rewrite Hs. f_equal.
    pose proof (prefix_length _ _ Hp) as Hl. rewrite (ct_length padded padded_laws) in Hl.
    assert (Hh : (hold (length (inp ++ data)) <= length m)%nat).
    { unfold hold, blocks in *. pose proof (blocks_le (length m)). unfold blocks in *.
      pose proof (Nat.Div0.div_le_mono (length (inp ++ data) - 1) (15 + length m / 16 * 16) 16).
      rewrite Nat.div_add in * by done. simpl (15 / 16)%nat in *. lia. }
    destruct Hp as [rest Hrest]. unfold slice. f_equal.
    rewrite <-(take_app_le m (padding m)) by done. fold (padded a k iv m). rewrite Hrest.
    rewrite (take_app_le (inp ++ data) rest); [done|]. unfold hold. pose proof (blocks_le (length (inp ++ data) - 1)). lia.
  - intros h c a k iv room m Hs _. simpl. unfold given. rewrite Hs. do 2 f_equal. unfold padded, padding.
    pose proof (Nat.mod_upper_bound (length m) 16).
    destruct (16 - length m mod 16)%nat as [|n] eqn:En; [lia|].
    replace (S n) with (n + 1)%nat at 3 by lia. rewrite replicate_add. simpl replicate at 3.
    rewrite app_assoc, last_snoc. simpl default. rewrite Nat2Z.id.
    rewrite length_app, length_replicate. rewrite take_app_length'; [done|]. simpl. lia.
Qed.

Definition sample_key : list Z := replicate 16 1.
Definition sample_message : list Z := replicate 20 5.

Lemma encrypt_returns_ciphertext_witness :
  (encrypt_vector sample_key AES_128_CBC [] sample_message padding_library []).1 =
  Ok (padded AES_128_CBC sample_key [] sample_message).
Proof.
  by rewrite (encrypt_returns_ciphertext padded padding_library AES_128_CBC sample_key []
    sample_message [] padded_laws padding_encrypts).
Defined.

Lemma decrypt_encrypt_witness : exists c h1',
  encrypt_vector sample_key AES_128_CBC [] sample_message padding_library [] = (Ok c, h1') /\
  (Z.of_nat (length c) + documented_slack <= Z.of_nat (length (replicate 48 9)) ->
   exists h2', static_to_buffer Decrypt sample_key AES_128_CBC [] c (replicate 48 9) padding_library [] =
     (Ok (20, sample_message ++ replicate 28 9), h2')) /\
  exists h2', scoped sample_key AES_128_CBC Decrypt []
    (p ← update_vector Decrypt c; q ← finalize_vector Decrypt; mret (p ++ q)) padding_library [] =
    (Ok sample_message, h2').
Proof.
  by apply (decrypt_encrypt padded padding_library padding_library AES_128_CBC sample_key []
    sample_message (replicate 48 9) [] [] padded_laws padding_encrypts (padding_decrypts _)).
Defined.

Lemma decrypt_vector_in_place_witness : exists c h1' h2',
  encrypt_vector sample_key AES_128_CBC [] sample_message padding_library [] = (Ok c, h1') /\
  decrypt_vector sample_key AES_128_CBC [] c padding_library [] = (Ok sample_message, h2').
Proof.
  by apply (decrypt_vector_in_place padded padding_library padding_library AES_128_CBC sample_key []
    sample_message [] [] padded_laws padding_encrypts (padding_decrypts 0)).
Defined.

Lemma encrypt_fits_iff_witness :
  (static_to_buffer Encrypt sample_key AES_128_CBC [] sample_message (replicate 40 9)
     padding_library []).1 =
  Ok (32, padded AES_128_CBC sample_key [] sample_message ++ replicate 8 9) /\
  undefined (static_to_buffer Encrypt sample_key AES_128_CBC [] sample_message (replicate 30 9)
     padding_library []).1 /\
  undefined (static_to_buffer Encrypt sample_key AES_128_CBC [] sample_message (replicate 10 9)
     padding_library []).1.
Proof.
  split; [|split].
  - apply (proj1 (encrypt_fits_iff padded padding_library AES_128_CBC sample_key []
      sample_message (replicate 40 9) [] padded_laws padding_encrypts eq_refl ltac:(done))).
    vm_compute. lia.
  - apply (proj2 (encrypt_fits_iff padded padding_library AES_128_CBC sample_key []
      sample_message (replicate 30 9) [] padded_laws padding_encrypts eq_refl ltac:(done))).
    vm_compute. lia.
  - apply (proj2 (encrypt_fits_iff padded padding_library AES_128_CBC sample_key []
      sample_message (replicate 10 9) [] padded_laws padding_encrypts eq_refl ltac:(done))).
    vm_compute. lia.
Defined.

Lemma announced_size_too_small_witness :
  undefined (static_to_buffer Encrypt sample_key AES_128_CBC [] (replicate 32 5) (replicate 32 0)
    padding_library []).1.
Proof.
  by apply (announced_size_too_small padded padding_library AES_128_CBC sample_key []
    (replicate 32 5) (replicate 32 0) [] padded_laws padding_encrypts).
Defined.

(** Fifteen bytes given before, then one more. *)
Definition pending_history : list evpcall :=
  [CtxNew; Init Encrypt 1 AES_128_CBC sample_key []; Update Encrypt 1 (replicate 15 5) 15].
Definition live_cipher : cipher := Cipher sample_key 1 0 AES_128_CBC.

Lemma vector_update_overflows_witness :
  undefined (outcome (update_vector Encrypt [6] padding_library live_cipher pending_history)).
Proof.
  apply (vector_update_overflows padded padding_library live_cipher pending_history AES_128_CBC
    sample_key [] (replicate 15 5) [6] padded_laws padding_encrypts); try done.
  vm_compute. lia.
Defined.

Lemma long_message_leaves_hole_witness : exists n out' s' h',
  update_loop Encrypt 20 40 (replicate 40 5) 0 (replicate 60 9) 0 padding_library live_cipher
    [CtxNew; Init Encrypt 1 AES_128_CBC sample_key []] = (Ok (n, out'), s', h') /\
  forall i, (16 <= i < 20)%nat -> out' !! i = replicate 60 9 !! i.
Proof.
  apply (long_message_leaves_hole padded padding_library 20 (replicate 20 5) (replicate 20 5)
    (replicate 60 9) live_cipher [CtxNew; Init Encrypt 1 AES_128_CBC sample_key []] AES_128_CBC
    sample_key [] padded_laws padding_encrypts); try done; simpl; lia.
Defined.

Lemma context_freed_once_witness :
  releases (history (life Encrypt [] [OUpdateVector sample_message; OFinalizeVector; OFinalizeVector]
    padding_library (unset sample_key AES_128_CBC) [])) ≡ₚ [1].
Proof.
  eapply (context_freed_once Encrypt [] sample_key AES_128_CBC
    [OUpdateVector sample_message; OFinalizeVector; OFinalizeVector] padding_library).
  lazy. reflexivity.
Defined.

Lemma copied_context_freed_twice_witness :
  releases (history (destroy padding_library live_cipher
    (history (destroy padding_library live_cipher [])))) = [1; 1].
Proof. by apply (copied_context_freed_twice padding_library live_cipher []). Defined.
