(* ===== verification/OpenSsl.v ===== *)
(** * The calls into OpenSSL and the file functions, and the handles they create and free

    The classes for digests, signatures, keys, certificates and key agreement wrap objects of
    OpenSSL.  What the library does is not part of the repository: it is the environment of the
    model, which answers every call below as it likes.  A pointer is a number, 0 the null one; a
    call that stores bytes answers with the bytes it stored.  The files of the C and C++ libraries
    are here too, since the same functions use them. *)

From S2P Require Import Prelude Ownership.

(** The digests of [EVP_MD]. *)
Inductive evp_md :=
  EVP_md5 | EVP_sha1 | EVP_sha224 | EVP_sha256 | EVP_sha384 | EVP_sha512 | EVP_ripemd160.
#[global] Instance evp_md_eq_dec : EqDecision evp_md.
Proof. solve_decision. Defined.

(** What the PEM functions read and write. *)
Inductive pem := PUBKEY | PrivateKey | PEM_X509.
#[global] Instance pem_eq_dec : EqDecision pem.
Proof. solve_decision. Defined.

(** The two names of a certificate. *)
Inductive name_of := subject | issuer.
#[global] Instance name_of_eq_dec : EqDecision name_of.
Proof. solve_decision. Defined.

Inductive ssl_call :=
  (* digests *)
  | EVP_MD_CTX_create | EVP_MD_CTX_destroy (ctx : Z)
  | EVP_DigestInit_ex (ctx : Z) (md : evp_md) | EVP_DigestUpdate (ctx : Z) (data : list Z)
  | EVP_DigestFinal_ex (ctx : Z)
  | HMAC_CTX_new | HMAC_CTX_free (ctx : Z)
  | HMAC_Init_ex (ctx : Z) (key : list Z) (md : evp_md) | HMAC_Update (ctx : Z) (data : list Z)
  | HMAC_Final (ctx : Z)
  (* signatures *)
  | EVP_SignInit (ctx : Z) (md : evp_md) | EVP_SignUpdate (ctx : Z) (data : list Z)
  | EVP_SignFinal (ctx pkey : Z)
  | EVP_VerifyInit (ctx : Z) (md : evp_md) | EVP_VerifyUpdate (ctx : Z) (data : list Z)
  | EVP_VerifyFinal (ctx : Z) (sign : list Z) (pkey : Z)
  (* keys, memory buffers and files *)
  | EVP_PKEY_new | EVP_PKEY_free (pkey : Z) | EVP_PKEY_size (pkey : Z)
  | BIO_new_mem | BIO_new_mem_buf (data : list Z) | BIO_free (bio : Z) | BIO_get_mem_ptr (bio : Z)
  | PEM_write_bio (what : pem) (bio object : Z) | PEM_read_bio (what : pem) (bio : Z)
  | fopen (path mode : string) | fclose (file : Z)
  | PEM_write (what : pem) (file object : Z) | PEM_read_X509_CRL (file : Z)
  (* certificates *)
  | X509_new | X509_free (cert : Z) | i2d_X509 (cert : Z) | d2i_X509 (der : list Z)
  | X509_get_pubkey (cert : Z) | X509_sign (cert pkey : Z) (md : evp_md)
  | X509_get_name (n : name_of) (cert : Z) | X509_set_name (n : name_of) (cert name : Z)
  | X509_NAME_new | X509_NAME_add_entry_by_txt (name : Z) (field value : string)
  | X509_NAME_oneline (name : Z) | OPENSSL_free (mem : Z)
  | X509_STORE_new | X509_STORE_set_flags (store : Z) | X509_STORE_free (store : Z)
  | X509_STORE_add_cert (store cert : Z) | X509_STORE_add_crl (store crl : Z)
  | X509_CRL_free (crl : Z)
  | X509_STORE_CTX_new | X509_STORE_CTX_init (ctx store cert : Z) | X509_STORE_CTX_free (ctx : Z)
  | X509_verify_cert (ctx : Z)
  (* key agreement *)
  | DH_new | DH_free (dh : Z) | DH_set0_pqg (dh p g : Z) | DH_check (dh : Z)
  | DH_generate_key (dh : Z) | DH_size (dh : Z) | DH_get0_key (dh : Z)
  | DH_compute_key (peer dh : Z)
  | BN_new | BN_free (bn : Z) | BN_bin2bn (data : list Z) (into : Z) | BN_num_bytes (bn : Z)
  | BN_bn2bin (bn : Z)
  | RAND_bytes (n : Z)
  (* one std::fstream, a local variable of the functions of Io.h *)
  | fs_open (path : string) (out : bool) | fs_tellg | fs_seekg (pos : Z) | fs_read (n : Z)
  | fs_write (data : list Z) | fs_close.

(** The functions that fill a buffer answer with their result and the bytes; [i2d_X509] and
    [X509_NAME_oneline] with the block they allocated and its contents, [None] standing for the
    negative result of [i2d_X509], and [DH_check] with its result and the problems it found. *)
Definition ssl_reply (c : ssl_call) : Type :=
  match c with
  | EVP_DigestFinal_ex _ | HMAC_Final _ | EVP_SignFinal _ _ | DH_compute_key _ _ | RAND_bytes _ =>
      Z * list Z
  | BIO_get_mem_ptr _ | BN_bn2bin _ | fs_read _ => list Z
  | i2d_X509 _ => Z * option (list Z)
  | DH_check _ => Z * Z
  | X509_NAME_oneline _ => Z * list Z
  | _ => Z
  end.

Definition openssl : Sys := {| call := ssl_call; reply := ssl_reply |}.
#[export] Existing Instance openssl.
Abbreviation sslcall := (@call openssl).
Abbreviation ssl_prog S := (@prog openssl S).

(** ** Handles *)

Inductive kind := MdCtx | HmacCtx | Pkey | Bio | File | Cert | Name | Memory | Store | Crl
  | StoreCtx | Dh | Bn.
#[global] Instance kind_eq_dec : EqDecision kind.
Proof. solve_decision. Defined.

(** What a pointer holds: nothing when it is null. *)
Definition handle (k : kind) (p : Z) : list (kind * Z) := if p =? 0 then [] else [(k, p)].

(** The objects that a call creates for its caller, or lends it a new reference to. *)
Definition ssl_acquired (c : ssl_call) : ssl_reply c -> list (kind * Z) :=
  match c as c return ssl_reply c -> list (kind * Z) with
  | EVP_MD_CTX_create => handle MdCtx
  | HMAC_CTX_new => handle HmacCtx
  | EVP_PKEY_new | PEM_read_bio PUBKEY _ | PEM_read_bio PrivateKey _ | X509_get_pubkey _ =>
      handle Pkey
  | BIO_new_mem | BIO_new_mem_buf _ => handle Bio
  | fopen _ _ => handle File
  | PEM_read_bio PEM_X509 _ | X509_new | d2i_X509 _ => handle Cert
  | PEM_read_X509_CRL _ => handle Crl
  | i2d_X509 _ => fun r => match r.2 with Some _ => handle Memory r.1 | None => [] end
  | X509_NAME_oneline _ => fun r => handle Memory r.1
  | X509_NAME_new => handle Name
  | X509_STORE_new => handle Store
  | X509_STORE_CTX_new => handle StoreCtx
  | DH_new => handle Dh
  | BN_new => handle Bn
  | BN_bin2bn _ into => fun r => if into =? 0 then handle Bn r else []
  | _ => fun _ => []
  end.

(** Freeing the null pointer does nothing, except for [fclose], which is never given it. *)
Definition ssl_released (c : ssl_call) : list (kind * Z) :=
  match c with
  | EVP_MD_CTX_destroy p => handle MdCtx p
  | HMAC_CTX_free p => handle HmacCtx p
  | EVP_PKEY_free p => handle Pkey p
  | BIO_free p => handle Bio p
  | fclose p => handle File p
  | X509_free p => handle Cert p
  | OPENSSL_free p => handle Memory p
  | X509_STORE_free p => handle Store p
  | X509_CRL_free p => handle Crl p
  | X509_STORE_CTX_free p => handle StoreCtx p
  | DH_free p => handle Dh p
  | BN_free p => handle Bn p
  | _ => []
  end.

#[export] Instance ssl_resources : @Resources openssl (kind * Z) :=
  {| acquired := ssl_acquired; released := ssl_released |}.

Lemma handle_some k p : (p =? 0) = false -> handle k p = [(k, p)].
Proof. unfold handle. by intros ->. Qed.
Lemma handle_none k p : (p =? 0) = true -> handle k p = [].
Proof. unfold handle. by intros ->. Qed.
#[export] Hint Extern 1 (released _ = [_]) => apply handle_some; assumption : owned.

(** Running a program that uses the library, knowing which pointers are null. *)
Ltac ssl_step :=
  owning_step; cbn [acquired ssl_resources ssl_acquired];
  repeat match goal with
  | H : (?p =? 0) = false |- context [handle ?k ?p] => rewrite (handle_some k p H)
  | H : (?p =? 0) = true |- context [handle ?k ?p] => rewrite (handle_none k p H)
  end; cbn [app].

(** ** What a context has been given

    The digest and key a context was last initialised with, and the bytes it was given since. *)
Definition session_step (c : Z) (s : option (evp_md * list Z * list Z)) (call : ssl_call) :=
  match call with
  | EVP_DigestInit_ex c' md | EVP_SignInit c' md | EVP_VerifyInit c' md =>
      if c' =? c then Some (md, [], []) else s
  | HMAC_Init_ex c' key md => if c' =? c then Some (md, key, []) else s
  | EVP_DigestUpdate c' data | HMAC_Update c' data | EVP_SignUpdate c' data
  | EVP_VerifyUpdate c' data =>
      if c' =? c then '(md, key, inp) ← s; Some (md, key, inp ++ data) else s
  | _ => s
  end.
Definition session (h : list ssl_call) (c : Z) := fold_left (session_step c) h None.

Lemma ssl_session_snoc h x c : session (h ++ [x]) c = session_step c (session h c) x.
Proof. unfold session. by rewrite fold_left_app. Qed.

(** An answer for the calls an example does not care about: success, pointer 1, no bytes. *)
Definition default_reply (c : ssl_call) : ssl_reply c :=
  match c as c return ssl_reply c with
  | EVP_DigestFinal_ex _ | HMAC_Final _ | EVP_SignFinal _ _ | DH_compute_key _ _ | RAND_bytes _ =>
      (1, [])
  | BIO_get_mem_ptr _ | BN_bn2bin _ | fs_read _ => []
  | i2d_X509 _ => (1, Some [])
  | DH_check _ => (1, 0)
  | X509_NAME_oneline _ => (1, [])
  | _ => 1
  end.
