(* ===== verification/Io.v ===== *)
(** * Whole files (headers/io/Io.h)

    Reading and writing a file at once, over the calls of a [std::fstream]. *)

From S2P Require Import Prelude Ownership Memory OpenSsl.

Section Io.
Context {S : Type}.

(** What the caller wants done when the file cannot be opened: it may throw or return. *)
Definition IoErrorEventHandler := string -> ssl_prog S unit.
Definition standardIoErrorEventHandler : IoErrorEventHandler := fun filePath =>
  throw ("Gicame::IO IO error on file" +:+ filePath).

(** A vector of [n] zeros; the largest one a vector of bytes may have is [2^63 - 1]. *)
Definition new_vector (n : Z) : res (list Z) :=
  if n >? 2 ^ 63 - 1 then Throw "std::length_error" else Ok (replicate (Z.to_nat n) 0).

Definition fileSize (filePath : string) : ssl_prog S Z :=
  _ ← sys (fs_open filePath false : sslcall);
  pos ← sys (fs_tellg : sslcall);
  _ ← sys (fs_close : sslcall);
  mret (u64 pos).

Definition readFileContent (filePath : string) (ioErrorEventHandler : IoErrorEventHandler) :
  ssl_prog S (list Z) :=
  is_open ← sys (fs_open filePath false : sslcall);
  if is_open =? 0 then _ ← ioErrorEventHandler filePath; mret []
  else
    pos ← sys (fs_tellg : sslcall);
    let size := u64 pos in
    _ ← sys (fs_seekg 0 : sslcall);
    content ← lift (new_vector size);
    bytes ← sys (fs_read size : sslcall);
    content' ← lift (store content 0 bytes);
    _ ← sys (fs_close : sslcall);
    mret content'.

Definition writeFileContent (filePath : string) (content : list Z)
  (ioErrorEventHandler : IoErrorEventHandler) : ssl_prog S unit :=
  is_open ← sys (fs_open filePath true : sslcall);
  _ ← (if is_open =? 0 then ioErrorEventHandler filePath else mret tt);
  _ ← sys (fs_write content : sslcall);
  _ ← sys (fs_close : sslcall);
  mret tt.
End Io.

(** ** The contract of the files

    [files h]: what the calls [h] have put in the files of a disk, and the file open for
    writing. *)
Definition disk := (gmap string (list Z) * option string)%type.
Definition disk_step (d : disk) (c : ssl_call) : disk :=
  match c with
  | fs_open path true => (<[path := []]> d.1, Some path)
  | fs_open path false => (d.1, None)
  | fs_write data =>
      match d.2 with
      | Some path => (<[path := default [] (d.1 !! path) ++ data]> d.1, Some path)
      | None => d
      end
  | fs_close => (d.1, None)
  | _ => d
  end.
Definition files (start : gmap string (list Z)) (h : list ssl_call) : disk :=
  fold_left disk_step h (start, None).

(** The file a reading stream is on: the one opened last. *)
Definition reading_step (r : option string) (c : ssl_call) : option string :=
  match c with fs_open path false => Some path | fs_close => None | _ => r end.
Definition reading (h : list ssl_call) : option string := fold_left reading_step h None.

(** A disk on which every path can be written: a file opened at its end tells its size, and is
    read from the position set. *)
Record stores (start : gmap string (list Z)) (E : @env openssl) : Prop := {
  fs_open_out h path : E h (fs_open path true : sslcall) <> 0;
  fs_open_in h path : is_Some ((files start h).1 !! path) -> E h (fs_open path false : sslcall) <> 0;
  fs_tell h path data : reading h = Some path -> (files start h).1 !! path = Some data ->
    E h (fs_tellg : sslcall) = Z.of_nat (length data);
  fs_read_all h path data n : reading (h ++ [fs_seekg 0]) = Some path ->
    (files start (h ++ [fs_seekg 0])).1 !! path = Some data -> Z.of_nat (length data) <= n ->
    E (h ++ [fs_seekg 0]) (fs_read n : sslcall) = data }.

Section Contract.
Context (start : gmap string (list Z)).

Lemma files_snoc h c : files start (h ++ [c]) = disk_step (files start h) c.
Proof. unfold files. by rewrite fold_left_app. Qed.
Lemma reading_snoc h c : reading (h ++ [c]) = reading_step (reading h) c.
Proof. unfold reading. by rewrite fold_left_app. Qed.

Lemma write_run {S} path content handler (E : @env openssl) (s : S) h :
  stores start E ->
  exists h', writeFileContent path content handler E s h = (Ok tt, s, h') /\
    (files start h').1 = <[path := content]> (files start h).1.
Proof.
  intros HE. unfold writeFileContent. erewrite bind_ok by reflexivity.
  rewrite (if_false (_ =? 0)) by (apply Z.eqb_neq, (fs_open_out _ _ HE)).
  erewrite bind_ok by reflexivity. erewrite bind_ok by reflexivity. erewrite bind_ok by reflexivity.
  eexists. split; [reflexivity|]. rewrite !files_snoc. simpl.
  by rewrite lookup_insert_eq, insert_insert_eq.
Qed.

Lemma read_run {S} path content handler (E : @env openssl) (s : S) h :
  stores start E -> (files start h).1 !! path = Some content ->
  Z.of_nat (length content) < 2 ^ 63 ->
  exists h', readFileContent path handler E s h = (Ok content, s, h') /\
    (files start h').1 = (files start h).1.
Proof.
  intros HE Hf Hlen. unfold readFileContent. erewrite bind_ok by reflexivity.
  rewrite (if_false (_ =? 0)) by (apply Z.eqb_neq, (fs_open_in _ _ HE); by rewrite Hf).
  erewrite bind_ok by reflexivity.
  rewrite (fs_tell _ _ HE _ path content); cycle 1.
  { by rewrite reading_snoc. }
  { by rewrite files_snoc. }
  rewrite wrap_u64_small by lia. erewrite bind_ok by reflexivity. rewrite bind_lift. unfold new_vector.
  rewrite (if_false (_ >? _)) by (rewrite Z.gtb_ltb; apply Z.ltb_ge; lia). rewrite Nat2Z.id.
  erewrite bind_ok by reflexivity.
  rewrite (fs_read_all _ _ HE _ path content); cycle 1.
  { by rewrite !reading_snoc. }
  { by rewrite !files_snoc. }
  { done. }
  rewrite bind_lift, store_0 by (by rewrite length_replicate).
  rewrite drop_ge by (by rewrite length_replicate). rewrite app_nil_r.
  erewrite bind_ok by reflexivity. eexists. split; [reflexivity|]. by rewrite !files_snoc.
Qed.

(** A file written and then read back holds what was written, over any disk that keeps the
    bytes it is given, and whatever else the files held; no handler is called. *)
Theorem read_written_file {S} path content handler1 handler2 (E : @env openssl) (s : S) h :
  stores start E -> Z.of_nat (length content) < 2 ^ 63 ->
  outcome ((_ ← writeFileContent path content handler1; readFileContent path handler2) E s h) =
  Ok content.
Proof.
  intros HE Hlen. destruct (write_run path content handler1 E s h HE) as (h1 & Hw & Hf).
  destruct (read_run path content handler2 E s h1) as (h2 & Hr & _); [done| |done|].
  { by rewrite Hf, lookup_insert_eq. }
  erewrite bind_ok by exact Hw. by rewrite Hr.
Qed.
End Contract.

(** When the file cannot be opened and the handler returns, [readFileContent] returns an empty
    vector without touching the stream, but [writeFileContent] goes on: it writes to the stream
    that is not open, and returns as if the file had been written. *)
Theorem write_continues_after_handler {S} path content handler (E : @env openssl) (s s' : S) h h' :
  E h (fs_open path true : sslcall) = 0 -> E h (fs_open path false : sslcall) = 0 ->
  (forall out, handler path E s (h ++ [fs_open path out]) = (Ok tt, s', h' out)) ->
  readFileContent path handler E s h = (Ok [], s', h' false) /\
  writeFileContent path content handler E s h = (Ok tt, s', h' true ++ [fs_write content; fs_close]).
Proof.
  intros Ho Hi Hh. unfold readFileContent, writeFileContent. split.
  - erewrite bind_ok by reflexivity. rewrite (if_true (_ =? 0)) by (by apply Z.eqb_eq).
    by erewrite bind_ok by apply Hh.
  - erewrite bind_ok by reflexivity. rewrite (if_true (_ =? 0)) by (by apply Z.eqb_eq).
    erewrite bind_ok by apply Hh. erewrite bind_ok by reflexivity. erewrite bind_ok by reflexivity.
    unfold mret, prog_ret. by rewrite <-app_assoc.
Qed.

(** ** A disk *)

Definition disk_library (start : gmap string (list Z)) : @env openssl := fun h c =>
  let data := path ← reading h; (files start h).1 !! path in
  match c as c return ssl_reply c with
  | fs_tellg => match data with Some bytes => Z.of_nat (length bytes) | None => -1 end
  | fs_read n => take (Z.to_nat n) (default [] data)
  | c => default_reply c
  end.

Lemma disk_stores start : stores start (disk_library start).
Proof.
  split; try done.
  - intros h path data Hr Hf. simpl. rewrite Hr. simpl. by rewrite Hf.
  - intros h path data n Hr Hf Hn. unfold disk_library. rewrite Hr. simpl in *. rewrite Hf.
    apply take_ge. lia.
Qed.

Lemma read_written_file_witness :
  outcome ((_ ← writeFileContent "key.pem" [1; 2; 3] standardIoErrorEventHandler;
            readFileContent "key.pem" standardIoErrorEventHandler) (disk_library ∅) tt []) =
  Ok [1; 2; 3].
Proof.
  by apply (read_written_file ∅ "key.pem" [1; 2; 3] standardIoErrorEventHandler
    standardIoErrorEventHandler (disk_library ∅) tt [] (disk_stores ∅)).
Defined.

Definition ignore_error : @IoErrorEventHandler unit := fun _ => mret tt.
Definition no_disk : @env openssl := fun h c =>
  match c as c return ssl_reply c with fs_open _ _ => 0 | c => default_reply c end.

Lemma write_continues_after_handler_witness :
  readFileContent "a" ignore_error no_disk tt [] = (Ok [], tt, [fs_open "a" false]) /\
  writeFileContent "a" [7] ignore_error no_disk tt [] =
    (Ok tt, tt, [fs_open "a" true] ++ [fs_write [7]; fs_close]).
Proof.
  by apply (write_continues_after_handler "a" [7] ignore_error no_disk tt tt []
    (fun out => [fs_open "a" out])).
Defined.
