(* ===== verification/Random.v ===== *)
(** * Random bytes (src/crypto/random/Random.cpp, headers/crypto/random/Random.h) *)

From S2P Require Import Prelude Numbers Memory OpenSsl.

(** The loop of [getRandomBytes]: [RAND_bytes] until it succeeds, a call per unit of fuel; a call
    that fails may have stored bytes too. *)
Fixpoint random_loop {S} (fuel : nat) (buffer : list Z) (intSize : Z) : ssl_prog S (list Z) :=
  match fuel with
  | O => lift OutOfFuel
  | Datatypes.S fuel' =>
      '(success, bytes) ← sys (RAND_bytes intSize : sslcall);
      buffer' ← lift (store buffer 0 bytes);
      if success =? 1 then mret buffer' else random_loop fuel' buffer' intSize
  end.
Definition getRandomBytes {S} (fuel : nat) (buffer : list Z) (size : Z) : ssl_prog S (list Z) :=
  intSize ← lift (safeNumericCast int_t size_t size);
  random_loop fuel buffer intSize.

(** [getRandom<T>] for a type of [sizeof] bytes whose uninitialised object holds [garbage]: the
    object representation of the result. *)
Definition getRandom {S} (fuel : nat) (garbage : list Z) : ssl_prog S (list Z) :=
  getRandomBytes fuel garbage (Z.of_nat (length garbage)).

Lemma random_loop_retries {S} n buffer size good (E : @env openssl) (s : S) h fuel :
  (forall k, (k < n)%nat -> E (h ++ replicate k (RAND_bytes size : sslcall)) (RAND_bytes size : sslcall) = (0, [])) ->
  E (h ++ replicate n (RAND_bytes size : sslcall)) (RAND_bytes size : sslcall) = (1, good) ->
  length good = length buffer -> (n < fuel)%nat ->
  random_loop fuel buffer size E s h =
    (Ok good, s, h ++ replicate (Datatypes.S n) (RAND_bytes size : sslcall)).
Proof.
  revert h fuel. induction n as [|n IH]; intros h fuel Hbad Hgood Hlen Hf;
    (destruct fuel as [|fuel]; [lia|]); cbn [random_loop]; erewrite bind_ok by reflexivity.
  - rewrite app_nil_r in Hgood. rewrite Hgood, bind_lift, store_0 by lia.
    by rewrite drop_ge, app_nil_r by lia.
  - specialize (Hbad 0%nat ltac:(lia)) as H0. rewrite app_nil_r in H0.
    rewrite H0, bind_lift, store_0 by (simpl; lia). rewrite drop_0. cbn [app].
    rewrite (if_false (0 =? 1)) by done.
    rewrite (IH (h ++ [RAND_bytes size : sslcall]) fuel); [by rewrite <-app_assoc| | |done|lia].
    + intros k Hk. rewrite <-app_assoc. apply (Hbad (Datatypes.S k)). lia.
    + by rewrite <-app_assoc.
Qed.

(** However often the generator fails first, [getRandomBytes] returns the bytes of its first
    success, filling the buffer, with one call per attempt. *)
Theorem random_first_success {S} n buffer good (E : @env openssl) (s : S) h fuel :
  let size := Z.of_nat (length buffer) in
  size <= INT_MAX ->
  (forall k, (k < n)%nat -> E (h ++ replicate k (RAND_bytes size : sslcall)) (RAND_bytes size : sslcall) = (0, [])) ->
  E (h ++ replicate n (RAND_bytes size : sslcall)) (RAND_bytes size : sslcall) = (1, good) ->
  length good = length buffer -> (n < fuel)%nat ->
  getRandomBytes fuel buffer size E s h =
    (Ok good, s, h ++ replicate (Datatypes.S n) (RAND_bytes size : sslcall)).
Proof.
  intros size Hs Hbad Hgood Hlen Hf. unfold getRandomBytes.
  rewrite bind_lift, safeNumericCast_size_int by (unfold size; lia).
  by apply random_loop_retries.
Qed.

(** More bytes than an [int] counts are refused before the generator is asked. *)
Theorem random_too_many {S} fuel buffer size (E : @env openssl) (s : S) h :
  INT_MAX < size < 2 ^ 64 ->
  throws (outcome (getRandomBytes fuel buffer size E s h)) /\
  history (getRandomBytes fuel buffer size E s h) = h.
Proof.
  intros Hs. assert (INT_MAX = 2 ^ 31 - 1) by done. unfold getRandomBytes. rewrite bind_lift.
  assert (throws (safeNumericCast int_t size_t size)) as [m ->]; [|split; [by eexists|done]].
  unfold safeNumericCast. destruct (decide (int_t = size_t)) as [Heq|_]; [discriminate Heq|].
  assert (c_cast uint64_t size = size) as Hc by (apply c_cast_id; unfold ity_ok, in_ty; cbn; lia).
  assert (maxOf int_t uint64_t = INT_MAX) as Hm by reflexivity.
  cbn -[c_cast Z.gtb maxOf]. rewrite Hc, Hm. eexists. apply if_true, Z.gtb_lt. lia.
Qed.

(** A generator that fails twice. *)
Definition third_time : @env openssl := fun h c =>
  match c as c return ssl_reply c with
  | RAND_bytes n => if (length h <? 2)%nat then (0, []) else (1, replicate (Z.to_nat n) 4)
  | c => default_reply c
  end.
Lemma random_first_success_witness :
  getRandomBytes 5 [0; 0] 2 third_time tt [] =
    (Ok [4; 4], tt, [] ++ replicate 3 (RAND_bytes 2 : sslcall)).
Proof.
  apply (random_first_success 2 [0; 0] [4; 4] third_time tt [] 5); try done; [|lia].
  intros k Hk. simpl. rewrite length_replicate. by rewrite (proj2 (Nat.ltb_lt _ _) Hk).
Defined.
Lemma random_too_many_witness :
  throws (outcome (getRandomBytes 5 [] (2 ^ 31) third_time tt [])) /\
  history (getRandomBytes 5 [] (2 ^ 31) third_time tt []) = [].
Proof. by apply (random_too_many 5 [] (2 ^ 31) third_time tt []). Defined.
