(* ===== verification/Hash.v ===== *)
(** * Digests and message authentication codes (src/crypto/hash/, headers/crypto/hash/)

    [HashCalculator] computes a digest in one call; [HmacCalculator] is fed piece by piece and
    finalized once. *)

From S2P Require Import Prelude Ownership Memory Numbers SymmetricKey OpenSsl.

(** ** HashAlgorithm *)

Inductive HashAlgorithm := MD5 | SHA1 | SHA224 | SHA256 | SHA384 | SHA512 | RIPEMD160.
#[global] Instance HashAlgorithm_eq_dec : EqDecision HashAlgorithm.
Proof. solve_decision. Defined.

Definition hashSize (a : HashAlgorithm) : Z :=
  match a with
  | MD5 => 16 | SHA1 => 20 | SHA224 => 28 | SHA256 => 32 | SHA384 => 48 | SHA512 => 64
  | RIPEMD160 => 20
  end.
#[export] Instance hash_descriptor : IAlgorithmDescriptor HashAlgorithm :=
  {| keySize := hashSize |}.

Definition toEvpMd (a : HashAlgorithm) : evp_md :=
  match a with
  | MD5 => EVP_md5 | SHA1 => EVP_sha1 | SHA224 => EVP_sha224 | SHA256 => EVP_sha256
  | SHA384 => EVP_sha384 | SHA512 => EVP_sha512 | RIPEMD160 => EVP_ripemd160
  end.

(** ** HashCalculator: static functions, with no object of their own *)

Section HashCalculator.
Context {S : Type}.

(** [hash] to a buffer. *)
Definition hash_to (a : HashAlgorithm) (source out : list Z) : ssl_prog S (Z * list Z) :=
  mdctx ← sys (EVP_MD_CTX_create : sslcall);
  if mdctx =? 0 then throw "failed EVP_MD_CTX_create()"
  else
    ok ← sys (EVP_DigestInit_ex mdctx (toEvpMd a) : sslcall);
    if ok =? 0 then
      _ ← sys (EVP_MD_CTX_destroy mdctx : sslcall); throw "failed EVP_DigestInit_ex()"
    else
      ok ← sys (EVP_DigestUpdate mdctx source : sslcall);
      if ok =? 0 then
        _ ← sys (EVP_MD_CTX_destroy mdctx : sslcall); throw "failed EVP_DigestUpdate()"
      else
        '(ok, bytes) ← sys (EVP_DigestFinal_ex mdctx : sslcall);
        if ok =? 0 then
          _ ← sys (EVP_MD_CTX_destroy mdctx : sslcall); throw "failed EVP_DigestFinal_ex()"
        else
          out' ← lift (store out 0 bytes);
          _ ← sys (EVP_MD_CTX_destroy mdctx : sslcall);
          mret (Z.of_nat (length bytes), out').

Definition hash (a : HashAlgorithm) (source : list Z) : ssl_prog S (list Z) :=
  '(_, digest) ← hash_to a source (replicate (Z.to_nat (hashSize a)) 0);
  mret digest.
End HashCalculator.

(** ** HmacCalculator *)

Record hmac_calc := HmacCalc { key : list Z; hashAlgorithm : HashAlgorithm; ctx : Z }.
Definition set_ctx (c : Z) (s : hmac_calc) : hmac_calc := HmacCalc (key s) (hashAlgorithm s) c.

(** The member initialisers; [ctx] is not initialised before the body of the constructor sets
    it, and nothing reads it before. *)
Definition unset (k : list Z) (a : HashAlgorithm) : hmac_calc := HmacCalc k a 0.
Definition construct : ssl_prog hmac_calc unit :=
  this ← get;
  if negb (keySize (hashAlgorithm this) =? Z.of_nat (length (key this)))
  then throw "Key length is not correct for this hashAlgorithm"
  else
    c ← sys (HMAC_CTX_new : sslcall);
    _ ← modify (set_ctx c);
    if c =? 0 then throw "Failed HMAC_CTX_new()"
    else
      _ ← lift (safeNumericCast int_t size_t (Z.of_nat (length (key this))));
      ok ← sys (HMAC_Init_ex c (key this) (toEvpMd (hashAlgorithm this)) : sslcall);
      if ok =? 0 then
        _ ← sys (HMAC_CTX_free c : sslcall);
        _ ← modify (set_ctx 0);
        throw "Failed HMAC_Init_ex()"
      else mret tt.

Definition destroy : ssl_prog hmac_calc unit :=
  this ← get;
  if negb (ctx this =? 0) then _ ← sys (HMAC_CTX_free (ctx this) : sslcall); mret tt
  else mret tt.

Definition update (source : list Z) : ssl_prog hmac_calc unit :=
  this ← get;
  if ctx this =? 0 then throw "ctx is NULL"
  else if Z.of_nat (length source) >? INT_MAX then throw "Source size too big"
  else
    ok ← sys (HMAC_Update (ctx this) source : sslcall);
    if ok =? 0 then throw "Failed HMAC_Update()" else mret tt.

(** [finalize] to a buffer. *)
Definition finalize_to (dest : list Z) : ssl_prog hmac_calc (Z * list Z) :=
  this ← get;
  if ctx this =? 0 then throw "ctx is NULL"
  else
    '(ok, bytes) ← sys (HMAC_Final (ctx this) : sslcall);
    if ok =? 0 then throw "Failed HMAC_Final()"
    else
      dest' ← lift (store dest 0 bytes);
      let n := Z.of_nat (length bytes) in
      if negb (n =? hashSize (hashAlgorithm this)) then throw "Unexpected hashSize"
      else
        _ ← sys (HMAC_CTX_free (ctx this) : sslcall);
        _ ← modify (set_ctx 0);
        mret (n, dest').

Definition finalize : ssl_prog hmac_calc (list Z) :=
  this ← get;
  '(_, res) ← finalize_to (replicate (Z.to_nat (hashSize (hashAlgorithm this))) 0);
  mret res.

Section Static.
Context {T : Type}.
Definition hmac (k : list Z) (a : HashAlgorithm) (source : list Z) : ssl_prog T (list Z) :=
  local_object (unset k a) construct (_ ← update source; finalize) destroy.
Definition hmac_to (k : list Z) (a : HashAlgorithm) (source out : list Z) :
  ssl_prog T (Z * list Z) :=
  local_object (unset k a) construct (_ ← update source; finalize_to out) destroy.
End Static.

(** ** The contract of the library *)

(** The sizes OpenSSL documents for the digests. *)
Definition md_size (md : evp_md) : nat :=
  match md with
  | EVP_md5 => 16 | EVP_sha1 => 20 | EVP_sha224 => 28 | EVP_sha256 => 32 | EVP_sha384 => 48
  | EVP_sha512 => 64 | EVP_ripemd160 => 20
  end%nat.

Lemma hashSize_md a : hashSize a = Z.of_nat (md_size (toEvpMd a)).
Proof. by destruct a. Qed.

Section Contract.
Context (digest : evp_md -> list Z -> list Z) (mac : evp_md -> list Z -> list Z -> list Z).

(** A digest has the documented size and depends on the bytes given since the context was
    initialised, however they were cut into updates. *)
Record digests (E : @env openssl) : Prop := {
  digest_length md m : length (digest md m) = md_size md;
  dg_new h : E h (EVP_MD_CTX_create : sslcall) <> 0;
  dg_init h c md : E h (EVP_DigestInit_ex c md : sslcall) <> 0;
  dg_update h c data : E h (EVP_DigestUpdate c data : sslcall) <> 0;
  dg_final h c md key inp : session h c = Some (md, key, inp) ->
    E h (EVP_DigestFinal_ex c : sslcall) = (1, digest md inp) }.

Record macs (E : @env openssl) : Prop := {
  mac_length md k m : length (mac md k m) = md_size md;
  mac_new h : E h (HMAC_CTX_new : sslcall) <> 0;
  mac_init h c k md : E h (HMAC_Init_ex c k md : sslcall) <> 0;
  mac_update h c data : E h (HMAC_Update c data : sslcall) <> 0;
  mac_final h c md k inp : session h c = Some (md, k, inp) ->
    E h (HMAC_Final c : sslcall) = (1, mac md k inp) }.

(** ** HashCalculator *)

Lemma hash_to_run {T} a source out (E : @env openssl) (s : T) h :
  digests E ->
  let c := E h (EVP_MD_CTX_create : sslcall) in
  let d := digest (toEvpMd a) source in
  hash_to a source out E s h =
  if (length out <? length d)%nat then
    (UB "write past the buffer", s,
     h ++ [EVP_MD_CTX_create; EVP_DigestInit_ex c (toEvpMd a); EVP_DigestUpdate c source;
           EVP_DigestFinal_ex c])
  else
    (Ok (hashSize a, d ++ drop (length d) out), s,
     h ++ [EVP_MD_CTX_create; EVP_DigestInit_ex c (toEvpMd a); EVP_DigestUpdate c source;
           EVP_DigestFinal_ex c; EVP_MD_CTX_destroy c]).
Proof.
  intros HE c d. unfold hash_to. erewrite bind_ok by reflexivity. fold c.
  rewrite (if_false (c =? 0)) by (apply Z.eqb_neq, (dg_new _ HE)).
  erewrite bind_ok by reflexivity.
  rewrite (if_false (_ =? 0)) by (apply Z.eqb_neq, (dg_init _ HE)).
  erewrite bind_ok by reflexivity.
  rewrite (if_false (_ =? 0)) by (apply Z.eqb_neq, (dg_update _ HE)).
  erewrite bind_ok by reflexivity. rewrite (dg_final _ HE _ _ (toEvpMd a) [] source).
  2: { rewrite !ssl_session_snoc. simpl. by rewrite Z.eqb_refl. }
  cbv beta iota. fold d. rewrite (if_false (1 =? 0)) by done.
  destruct (Nat.ltb_spec (length out) (length d)).
  - erewrite bind_ub; [|by unfold lift; rewrite store_too_long by lia]. by rewrite <-!app_assoc.
  - erewrite bind_ok; [|by unfold lift; rewrite store_0 by lia].
    erewrite bind_ok by reflexivity. unfold mret, prog_ret. rewrite <-!app_assoc, hashSize_md.
    by rewrite <-(digest_length _ HE _ source).
Qed.

(** [HashCalculator::hash] returns the digest of its input: over any library that honours the
    contract, in one context created, initialised with the digest of the algorithm, fed once,
    finalized and destroyed. *)
Theorem hash_returns_digest {T} a source (E : @env openssl) (s : T) h :
  digests E ->
  let c := E h (EVP_MD_CTX_create : sslcall) in
  hash a source E s h =
    (Ok (digest (toEvpMd a) source), s,
     h ++ [EVP_MD_CTX_create; EVP_DigestInit_ex c (toEvpMd a); EVP_DigestUpdate c source;
           EVP_DigestFinal_ex c; EVP_MD_CTX_destroy c]).
Proof.
  intros HE c. unfold hash. erewrite bind_ok; cycle 1.
  - rewrite hash_to_run by done. rewrite length_replicate, (digest_length _ HE), hashSize_md, Nat2Z.id.
    rewrite (proj2 (Nat.ltb_ge _ _)) by lia. by rewrite drop_ge by (by rewrite length_replicate).
  - by rewrite app_nil_r.
Qed.

(** ** HmacCalculator *)

Lemma hmac_construct_run k a (E : @env openssl) h :
  macs E -> keySize a = Z.of_nat (length k) ->
  let c := E h (HMAC_CTX_new : sslcall) in
  construct E (unset k a) h =
    (Ok tt, HmacCalc k a c, h ++ [HMAC_CTX_new; HMAC_Init_ex c k (toEvpMd a)]) /\ c <> 0.
Proof.
  intros HE Hk c. assert (Hc : c <> 0) by apply (mac_new _ HE). split; [|done].
  unfold construct. rewrite bind_get. cbn [key hashAlgorithm unset].
  rewrite (if_false (negb _)) by (by rewrite Hk, Z.eqb_refl).
  erewrite bind_ok by reflexivity. fold c. rewrite bind_modify.
  rewrite (if_false (c =? 0)) by (by apply Z.eqb_neq).
  erewrite bind_ok.
  2: { unfold lift. rewrite safeNumericCast_size_int; [reflexivity|].
       rewrite <-Hk. unfold INT_MAX. by destruct a. }
  erewrite bind_ok by reflexivity.
  rewrite (if_false (_ =? 0)) by (apply Z.eqb_neq, (mac_init _ HE)).
  unfold mret, prog_ret. by rewrite <-app_assoc.
Qed.

Lemma hmac_update_run source s (E : @env openssl) h :
  macs E -> ctx s <> 0 -> Z.of_nat (length source) <= INT_MAX ->
  update source E s h = (Ok tt, s, h ++ [HMAC_Update (ctx s) source]).
Proof.
  intros HE Hc Hlen. unfold update. rewrite bind_get, (if_false (ctx s =? 0)) by (by apply Z.eqb_neq).
  rewrite (if_false (_ >? _)) by (rewrite Z.gtb_ltb; by apply Z.ltb_ge).
  erewrite bind_ok by reflexivity.
  by rewrite (if_false (_ =? 0)) by (apply Z.eqb_neq, (mac_update _ HE)).
Qed.

Lemma hmac_finalize_run s (E : @env openssl) h inp :
  macs E -> ctx s <> 0 ->
  session h (ctx s) = Some (toEvpMd (hashAlgorithm s), key s, inp) ->
  finalize E s h =
    (Ok (mac (toEvpMd (hashAlgorithm s)) (key s) inp), set_ctx 0 s,
     h ++ [HMAC_Final (ctx s); HMAC_CTX_free (ctx s)]).
Proof.
  intros HE Hc Hs. set (m := mac _ _ inp).
  assert (Hm : length m = Z.to_nat (hashSize (hashAlgorithm s))).
  { unfold m. by rewrite (mac_length _ HE), hashSize_md, Nat2Z.id. }
  unfold finalize. rewrite bind_get. erewrite bind_ok with (a := (_, m)); [reflexivity|].
  unfold finalize_to. rewrite bind_get, (if_false (ctx s =? 0)) by (by apply Z.eqb_neq).
  erewrite bind_ok by reflexivity. rewrite (mac_final _ HE _ _ _ _ _ Hs). fold m. cbv beta iota.
  rewrite (if_false (1 =? 0)) by done.
  erewrite bind_ok; [|by unfold lift; rewrite store_0 by (rewrite length_replicate; lia)].
  rewrite (if_false (negb _)).
  2: { rewrite Hm, Z2Nat.id, Z.eqb_refl; [done|]. by destruct (hashAlgorithm s). }
  erewrite bind_ok by reflexivity. rewrite bind_modify. unfold mret, prog_ret.
  rewrite drop_ge by (rewrite length_replicate; lia). by rewrite app_nil_r, <-app_assoc.
Qed.

(** Feeding the pieces one after the other. *)
Definition update_all (pieces : list (list Z)) : ssl_prog hmac_calc unit :=
  foldr (fun piece rest => _ ← update piece; rest) (mret tt) pieces.

Lemma update_all_run pieces s (E : @env openssl) h md k inp :
  macs E -> ctx s <> 0 -> Forall (fun p => Z.of_nat (length p) <= INT_MAX) pieces ->
  session h (ctx s) = Some (md, k, inp) ->
  let h' := h ++ (HMAC_Update (ctx s) <$> pieces) in
  update_all pieces E s h = (Ok tt, s, h') /\ session h' (ctx s) = Some (md, k, inp ++ concat pieces).
Proof.
  intros HE Hc Hlen. revert h inp. induction Hlen as [|p pieces Hp _ IH]; intros h inp Hs h'.
  - unfold h'. rewrite app_nil_r. simpl concat. by rewrite app_nil_r.
  - cbn [update_all foldr]. fold (update_all pieces). erewrite bind_ok by (by apply hmac_update_run).
    destruct (IH (h ++ [HMAC_Update (ctx s) p]) (inp ++ p)) as [Hrun Hses].
    { by rewrite ssl_session_snoc, Hs; simpl; rewrite Z.eqb_refl. }
    rewrite <-!app_assoc in Hrun. rewrite <-!app_assoc in Hses.
    split; [exact Hrun|exact Hses].
Qed.

Lemma hmac_destroy_done s (E : @env openssl) h : ctx s = 0 -> destroy E s h = (Ok tt, s, h).
Proof. intros Hc. unfold destroy. by rewrite bind_get, Hc. Qed.

(** A calculator from its constructor to its destructor, fed with [pieces]. *)
Definition hmac_pieces {T} (k : list Z) (a : HashAlgorithm) (pieces : list (list Z)) :
  ssl_prog T (list Z) :=
  local_object (unset k a) construct (_ ← update_all pieces; finalize) destroy.

Lemma hmac_pieces_run {T} k a pieces (E : @env openssl) (t : T) h :
  macs E -> keySize a = Z.of_nat (length k) ->
  Forall (fun p => Z.of_nat (length p) <= INT_MAX) pieces ->
  exists h', hmac_pieces k a pieces E t h = (Ok (mac (toEvpMd a) k (concat pieces)), t, h').
Proof.
  intros HE Hk Hp. unfold hmac_pieces, local_object.
  destruct (hmac_construct_run k a E h HE Hk) as [-> Hc].
  set (c := E h _) in *. set (s := HmacCalc k a c).
  destruct (update_all_run pieces s E (h ++ [HMAC_CTX_new; HMAC_Init_ex c k (toEvpMd a)])
    (toEvpMd a) k []) as [Hu Hs]; [done..| |].
  { unfold session. rewrite fold_left_app. simpl. by rewrite Z.eqb_refl. }
  erewrite bind_ok by exact Hu. rewrite (hmac_finalize_run s E _ _ HE Hc Hs).
  rewrite hmac_destroy_done by done. by eexists.
Qed.

(** C34. A message given to [HmacCalculator] in pieces, cut anywhere, has the same code as the
    static [hmac] computes in one piece, and it is the code of the whole message under the key:
    over any two libraries that honour the contract. *)
Theorem hmac_pieces_equal_one_shot {T} k a pieces (E1 E2 : @env openssl) (t : T) h1 h2 :
  macs E1 -> macs E2 -> keySize a = Z.of_nat (length k) ->
  Z.of_nat (length (concat pieces)) <= INT_MAX ->
  outcome (hmac_pieces k a pieces E1 t h1) = Ok (mac (toEvpMd a) k (concat pieces)) /\
  outcome (hmac k a (concat pieces) E2 t h2) = outcome (hmac_pieces k a pieces E1 t h1).
Proof.
  intros HE1 HE2 Hk Hlen.
  destruct (hmac_pieces_run k a pieces E1 t h1 HE1 Hk) as [h1' H1].
  { apply Forall_forall. intros p (i & Hi)%list_elem_of_lookup. revert Hlen.
    rewrite <-(take_drop_middle pieces i p Hi), concat_app. cbn [concat]. len. }
  destruct (hmac_pieces_run k a [concat pieces] E2 t h2 HE2 Hk) as [h2' H2]; [by repeat constructor|].
  cbn [concat] in H2. rewrite app_nil_r in H2. rewrite H1.
  split; [done|]. unfold outcome. simpl.
  replace (hmac k a (concat pieces) E2 t h2) with (hmac_pieces k a [concat pieces] E2 t h2);
    [by rewrite H2|].
  unfold hmac_pieces, hmac, local_object. destruct (construct E2 (unset k a) h2) as [[[] ?] ?]; try done.
  cbn [update_all foldr]. unfold mbind, prog_bind.
  by destruct (update _ _ _ _) as [[[] ?] ?].
Qed.
End Contract.

(** ** After the end *)

(** A calculator is used once: once it is finalized, feeding or finalizing it again throws,
    and the library is not called with the context that is gone. *)
Theorem finalized_hmac_refuses dest s (E : @env openssl) h n dest' s' h' :
  finalize_to dest E s h = (Ok (n, dest'), s', h') ->
  n = hashSize (hashAlgorithm s) /\ ctx s' = 0 /\
  forall source out h1, throws (outcome (update source E s' h1)) /\
    history (update source E s' h1) = h1 /\
    throws (outcome (finalize_to out E s' h1)) /\ history (finalize_to out E s' h1) = h1.
Proof.
  unfold finalize_to at 1. rewrite bind_get. destruct (ctx s =? 0); [done|].
  erewrite bind_ok by reflexivity. destruct (E h _) as [ok bytes]. destruct (ok =? 0); [done|].
  rewrite bind_lift. destruct (store dest 0 bytes); try done.
  destruct (negb _) eqn:En; [done|]. bools. erewrite bind_ok by reflexivity. rewrite bind_modify.
  intros [= <- <- <- <-]. split_and!; [done..|]. intros source out h1.
  unfold update, finalize_to. rewrite !bind_get. simpl (ctx _ =? 0). cbv iota.
  split_and!; try done; by eexists.
Qed.

(** ** The contexts *)

Inductive op := OUpdate (source : list Z) | OFinalizeTo (dest : list Z) | OFinalize.
Definition run_op (o : op) : ssl_prog hmac_calc unit :=
  match o with
  | OUpdate source => update source
  | OFinalizeTo dest => _ ← finalize_to dest; mret tt
  | OFinalize => _ ← finalize; mret tt
  end.
Definition life (ops : list op) : ssl_prog hmac_calc unit :=
  _ ← construct; lifetime run_op destroy ops.

Definition holds (s : hmac_calc) (held : list (kind * Z)) : Prop := held = handle HmacCtx (ctx s).

Lemma hmac_construct_holds k a :
  triple (fun s held => s = unset k a /\ held = []) construct (fun _ => holds)
    (fun _ held => held = []).
Proof.
  apply triple_follow. intros s held [-> ->]. unfold construct. do 2 ssl_step; [by ssl_step|].
  cbn [key hashAlgorithm unset] in *. rewrite safeNumericCast_size_int.
  2: { apply negb_false_iff, Z.eqb_eq in E. rewrite <-E. unfold INT_MAX. by destruct a. }
  do 3 ssl_step; [by ssl_step|]. do 3 ssl_step; [by do 3 ssl_step|].
  ssl_step. unfold holds. simpl. by rewrite handle_some.
Qed.

Lemma keeps_finalize_to dest : triple holds (finalize_to dest) (fun _ => holds) holds.
Proof.
  apply triple_follow. intros s held ->. unfold finalize_to.
  do 2 ssl_step; [by ssl_step; unfold holds; rewrite handle_none|].
  do 3 ssl_step; [ssl_step; by unfold holds; rewrite handle_some|].
  ssl_step; [by unfold holds; rewrite handle_some|].
  ssl_step; [ssl_step; by unfold holds; rewrite handle_some|]. by do 3 ssl_step.
Qed.

Lemma hmac_keeps_op o : triple holds (run_op o) (fun _ => holds) holds.
Proof.
  destruct o as [source|dest|]; simpl.
  - apply triple_follow. intros s held ->. unfold update.
    do 2 ssl_step; [by ssl_step; unfold holds; rewrite handle_none|].
    ssl_step; [ssl_step; by unfold holds; rewrite handle_some|].
    do 2 ssl_step; ssl_step; by unfold holds; rewrite handle_some.
  - apply (triple_bind _ _ _ (fun _ => holds)); [apply keeps_finalize_to|].
    intros a. by apply triple_ret.
  - apply (triple_bind _ _ _ (fun _ => holds)); [|intros a; by apply triple_ret].
    apply triple_get. intros s0. apply (triple_bind _ _ _ (fun _ => holds)).
    + eapply triple_weaken; [apply keeps_finalize_to|by intros ? ? [_ ?]|done|done].
    + intros [? ?]. by apply triple_ret.
Qed.

Lemma hmac_destroy_releases :
  triple holds destroy (fun _ _ held => held = []) (fun _ held => held = []).
Proof.
  apply triple_follow. intros s held ->. unfold destroy. do 2 ssl_step; bools.
  - rewrite handle_some by (by apply Z.eqb_neq). assert ((ctx s =? 0) = false) by (by apply Z.eqb_neq).
    by do 2 ssl_step.
  - ssl_step. by rewrite handle_none by (by apply Z.eqb_eq).
Qed.

(** A context for authentication codes is freed exactly once, whatever the library answers and
    whatever is asked of the calculator: the constructor that fails frees it, and so do the
    successful [finalize] or, without one, the destructor. *)
Theorem hmac_context_freed_once k a ops E r s h :
  life ops E (unset k a) [] = (r, s, h) -> releases h ≡ₚ acquires E [] h.
Proof.
  apply (released_exactly _ (fun s held => s = unset k a /\ held = [])); [|done].
  apply (triple_bind _ _ _ (fun _ => holds)); [apply hmac_construct_holds|]. intros _.
  apply (triple_lifetime run_op destroy holds); [apply hmac_keeps_op|apply hmac_destroy_releases].
Qed.

(** [HashCalculator::hash] destroys the context it created on every path, exceptions included,
    unless the digest does not fit the caller's buffer, which is undefined. *)
Theorem hash_context_freed_once {T} a source out (E : @env openssl) (s : T) h r s' h' :
  hash_to a source out E s h = (r, s', h') -> ~ undefined r ->
  exists cs, h' = h ++ cs /\ releases cs = acquires E h cs.
Proof.
  unfold hash_to. erewrite bind_ok by reflexivity. set (c := E h _).
  assert (Hrel : forall cs, (c =? 0) = false ->
    releases cs = [] -> acquires E (h ++ [EVP_MD_CTX_create : sslcall]) cs = [] ->
    releases (EVP_MD_CTX_create :: cs ++ [EVP_MD_CTX_destroy c]) =
    acquires E h (EVP_MD_CTX_create :: cs ++ [EVP_MD_CTX_destroy c])).
  { intros cs Hc Hr Ha. set (cs0 := EVP_MD_CTX_create :: cs : list sslcall).
    set (last := [EVP_MD_CTX_destroy c] : list sslcall).
    change (releases (cs0 ++ last) = acquires E h (cs0 ++ last)).
    rewrite acquires_app, releases_app. assert (releases cs0 = []) as -> by (unfold releases, cs0; rewrite bind_cons; exact Hr).
    assert (acquires E h cs0 = handle MdCtx c) as ->; [|done].
    unfold cs0. cbn [acquires]. rewrite Ha. apply app_nil_r. }
  destruct (c =? 0) eqn:Hc.
  { intros [= <- <- <-] _. eexists. split; [reflexivity|]. simpl. fold c. by rewrite handle_none. }
  erewrite bind_ok by reflexivity. destruct (E _ (EVP_DigestInit_ex _ _) =? 0).
  { erewrite bind_ok by reflexivity. intros [= <- <- <-] _. rewrite <-!app_assoc.
    eexists. split; [reflexivity|]. by apply (Hrel [_]). }
  erewrite bind_ok by reflexivity. destruct (E _ (EVP_DigestUpdate _ _) =? 0).
  { erewrite bind_ok by reflexivity. intros [= <- <- <-] _. rewrite <-!app_assoc.
    eexists. split; [reflexivity|]. by apply (Hrel [_; _]). }
  erewrite bind_ok by reflexivity. destruct (E _ (EVP_DigestFinal_ex _)) as [ok bytes].
  destruct (ok =? 0).
  { erewrite bind_ok by reflexivity. intros [= <- <- <-] _. rewrite <-!app_assoc.
    eexists. split; [reflexivity|]. by apply (Hrel [_; _; _]). }
  rewrite bind_lift. unfold store. destruct (_ <? _).
  { intros [= <- <- <-] Hu. destruct Hu. by eexists. }
  erewrite bind_ok by reflexivity. intros [= <- <- <-] _. rewrite <-!app_assoc.
  eexists. split; [reflexivity|]. by apply (Hrel [_; _; _]).
Qed.

(** ** A library that honours the contracts: the digest that adds the bytes up *)

Definition checksum (md : evp_md) (m : list Z) : list Z :=
  replicate (md_size md) (foldr Z.add 0 m mod 256).
Definition keyed_checksum (md : evp_md) (k m : list Z) : list Z := checksum md (k ++ m).

Definition checksum_library : @env openssl := fun h c =>
  match c as c return ssl_reply c with
  | EVP_DigestFinal_ex c =>
      match session h c with Some (md, _, inp) => (1, checksum md inp) | None => (0, []) end
  | HMAC_Final c =>
      match session h c with Some (md, k, inp) => (1, keyed_checksum md k inp) | None => (0, []) end
  | c => default_reply c
  end.

Lemma checksum_digests : digests checksum checksum_library.
Proof.
  split; try done; [intros md m; apply length_replicate|]. intros h c md key inp Hs. simpl.
  by rewrite Hs.
Qed.
Lemma checksum_macs : macs keyed_checksum checksum_library.
Proof.
  split; try done; [intros md k m; apply length_replicate|]. intros h c md k inp Hs. simpl.
  by rewrite Hs.
Qed.

Lemma hash_returns_digest_witness :
  outcome (hash SHA256 [1; 2; 3] checksum_library tt []) = Ok (replicate 32 6).
Proof.
  by rewrite (hash_returns_digest checksum SHA256 [1; 2; 3] checksum_library tt []
    checksum_digests).
Defined.

Lemma hmac_pieces_equal_one_shot_witness :
  outcome (hmac_pieces (replicate 16 1) MD5 [[1; 2]; []; [3]] checksum_library tt []) =
    Ok (replicate 16 22) /\
  outcome (hmac (replicate 16 1) MD5 [1; 2; 3] checksum_library tt []) =
    outcome (hmac_pieces (replicate 16 1) MD5 [[1; 2]; []; [3]] checksum_library tt []).
Proof.
  apply (hmac_pieces_equal_one_shot keyed_checksum (replicate 16 1) MD5 [[1; 2]; []; [3]]
    checksum_library checksum_library tt [] [] checksum_macs checksum_macs eq_refl).
  by vm_compute.
Defined.

Definition used_hmac : hmac_calc := HmacCalc (replicate 16 1) MD5 1.
Lemma finalized_hmac_refuses_witness :
  16 = hashSize MD5 /\ 0 = 0 /\
  forall source out h1, throws (outcome (update source checksum_library (set_ctx 0 used_hmac) h1)) /\
    history (update source checksum_library (set_ctx 0 used_hmac) h1) = h1 /\
    throws (outcome (finalize_to out checksum_library (set_ctx 0 used_hmac) h1)) /\
    history (finalize_to out checksum_library (set_ctx 0 used_hmac) h1) = h1.
Proof.
  apply (finalized_hmac_refuses (replicate 16 0) used_hmac checksum_library
    [HMAC_CTX_new; HMAC_Init_ex 1 (replicate 16 1) EVP_md5] 16 (replicate 16 16) (set_ctx 0 used_hmac)
    [HMAC_CTX_new; HMAC_Init_ex 1 (replicate 16 1) EVP_md5; HMAC_Final 1; HMAC_CTX_free 1]).
  vm_compute. reflexivity.
Defined.

Lemma hmac_context_freed_once_witness :
  releases (history (life [OUpdate [1]; OFinalize; OFinalize] checksum_library
    (unset (replicate 16 1) MD5) [])) ≡ₚ [(HmacCtx, 1)].
Proof.
  eapply (hmac_context_freed_once (replicate 16 1) MD5 [OUpdate [1]; OFinalize; OFinalize]
    checksum_library). vm_compute. reflexivity.
Defined.

Lemma hash_context_freed_once_witness : exists cs,
  history (hash_to MD5 [1] (replicate 16 0) checksum_library tt []) = [] ++ cs /\
  releases cs = acquires checksum_library [] cs.
Proof.
  eapply (hash_context_freed_once MD5 [1] (replicate 16 0) checksum_library tt []).
  - vm_compute. reflexivity.
  - intros [w Hw]. vm_compute in Hw. discriminate.
Defined.
