(* ===== verification/EvpKey.v ===== *)
(** * Asymmetric keys (src/crypto/key/EvpKey.cpp, headers/crypto/opensslInterface/)

    An [EvpKey] is a shared pointer to a key of OpenSSL: its copies share one reference, given
    back when the last of them goes.  The static functions that make one are programs that end
    with exactly one reference more than they began with; those that read or write a key begin
    and end with the same handles. *)

From S2P Require Import Prelude Ownership Numbers OpenSsl Io.

Section EvpKey.
Context {S : Type}.

(** [OpenSslInterface::bioToByteVector]. *)
Definition bioToByteVector (bio : Z) : ssl_prog S (list Z) :=
  bytes ← sys (BIO_get_mem_ptr bio : sslcall); mret bytes.

(** [publicKeyToPem] and [privateKeyToPem], alike but for the function that writes. *)
Definition key_to_pem (what : pem) (sp : Z) : ssl_prog S (list Z) :=
  bio ← sys (BIO_new_mem : sslcall);
  if bio =? 0 then throw "unable to allocate bio"
  else
    ok ← sys (PEM_write_bio what bio sp : sslcall);
    if ok =? 0 then
      _ ← sys (BIO_free bio : sslcall); throw "unable to write key"
    else
      ret ← bioToByteVector bio;
      _ ← sys (BIO_free bio : sslcall);
      mret ret.
Definition publicKeyToPem := key_to_pem PUBKEY.
Definition privateKeyToPem := key_to_pem PrivateKey.

Definition key_save (what : pem) (sp : Z) (path : string) : ssl_prog S unit :=
  keyFile ← sys (fopen path "w" : sslcall);
  if keyFile =? 0 then throw "unable to open key file"
  else
    ok ← sys (PEM_write what keyFile sp : sslcall);
    if ok =? 0 then
      _ ← sys (fclose keyFile : sslcall); throw "unable to write key file"
    else
      _ ← sys (fclose keyFile : sslcall);
      mret tt.
Definition publicKeySaveToPemFile := key_save PUBKEY.
Definition privateKeySaveToPemFile := key_save PrivateKey.

(** The [int] of the library converted to [size_t]: a negative one becomes a huge size. *)
Definition maxOutputBufferSize (sp : Z) : ssl_prog S Z :=
  n ← sys (EVP_PKEY_size sp : sslcall); mret (u64 n).

Definition fromOpenSslEvpKey (evpKeyLegacy : Z) : ssl_prog S Z :=
  if evpKeyLegacy =? 0 then throw "evpKeyLegacy is NULL" else mret evpKeyLegacy.
Definition newEmptyEvpKey : ssl_prog S Z :=
  p ← sys (EVP_PKEY_new : sslcall); fromOpenSslEvpKey p.

(** [fromPublicKeyPem] and [fromPrivateKeyPem] from a pointer and a size, a vector, a string, whose
    final NUL is passed too, and a file. *)
Definition key_from_pem (what : pem) (data : list Z) : ssl_prog S Z :=
  let size := Z.of_nat (length data) in
  if (size >? INT_MAX) || (size =? 0) then throw "invalid size"
  else
    bio ← sys (BIO_new_mem_buf data : sslcall);
    if bio =? 0 then throw "unable to allocate bio"
    else
      evp ← sys (PEM_read_bio what bio : sslcall);
      _ ← sys (BIO_free bio : sslcall);
      if evp =? 0 then throw "unable to generate EVP_PKEY from bio"
      else fromOpenSslEvpKey evp.
Definition fromPublicKeyPem := key_from_pem PUBKEY.
Definition fromPublicKeyPem_string (data : list Z) := fromPublicKeyPem (data ++ [0]).
Definition fromPublicKeyPemFile (path : string) : ssl_prog S Z :=
  content ← readFileContent path standardIoErrorEventHandler; fromPublicKeyPem content.
Definition fromPrivateKeyPem := key_from_pem PrivateKey.
Definition fromPrivateKeyPem_string (data : list Z) := fromPrivateKeyPem (data ++ [0]).
Definition fromPrivateKeyPemFile (path : string) : ssl_prog S Z :=
  content ← readFileContent path standardIoErrorEventHandler; fromPrivateKeyPem content.

(** ** Handles *)

(** A program that borrows: it ends holding what it began with. *)
Definition borrows {A} (p : ssl_prog S A) : Prop :=
  forall s held, triple (owns s held) p (fun _ => owns s held) (owns s held).

(** A program that makes an object: a normal end holds one more, the result, which is not null;
    any other end holds nothing more. *)
Definition makes (k : kind) (p : ssl_prog S Z) : Prop :=
  forall s held, triple (owns s held) p
    (fun x s' held' => x <> 0 /\ owns s ((k, x) :: held) s' held') (owns s held).

Ltac finish := split; (done || reflexivity).

Lemma key_to_pem_borrows what sp : borrows (key_to_pem what sp).
Proof.
  intros s held. unfold key_to_pem, bioToByteVector. do 2 ssl_step; [by ssl_step|].
  do 2 ssl_step; [by do 2 ssl_step|].
  apply (triple_bind _ _ _ (fun _ => owns s ((Bio, r) :: held))).
  - by do 2 ssl_step.
  - intros bytes. by do 2 ssl_step.
Qed.

Lemma key_save_borrows what sp path : borrows (key_save what sp path).
Proof.
  intros s held. unfold key_save. do 2 ssl_step; [by ssl_step|].
  do 2 ssl_step; [by do 2 ssl_step|]. by do 2 ssl_step.
Qed.

Lemma maxOutputBufferSize_borrows sp : borrows (maxOutputBufferSize sp).
Proof. intros s held. unfold maxOutputBufferSize. by do 2 ssl_step. Qed.

Lemma readFileContent_borrows path : borrows (readFileContent path standardIoErrorEventHandler).
Proof.
  intros s held. unfold readFileContent. do 2 ssl_step.
  - apply (triple_bind _ _ _ (fun _ => owns s held)); [by apply owns_throw|]. intros []. by ssl_step.
  - do 2 ssl_step. ssl_step; [finish|]. ssl_step. ssl_step; [finish|]. by do 2 ssl_step.
Qed.

Lemma fromOpenSslEvpKey_takes p s held :
  triple (owns s (handle Pkey p ++ held)) (fromOpenSslEvpKey p)
    (fun x s' held' => x <> 0 /\ owns s ((Pkey, x) :: held) s' held') (owns s held).
Proof.
  unfold fromOpenSslEvpKey. ssl_step; ssl_step; bools; by repeat split.
Qed.

Lemma newEmptyEvpKey_makes : makes Pkey newEmptyEvpKey.
Proof. intros s held. unfold newEmptyEvpKey. ssl_step. apply fromOpenSslEvpKey_takes. Qed.

Lemma key_from_pem_makes what data : what <> PEM_X509 -> makes Pkey (key_from_pem what data).
Proof.
  intros Hw s held. unfold key_from_pem. ssl_step; [by ssl_step|].
  do 2 ssl_step; [by ssl_step|].
  assert (Hacq : forall r, acquired (PEM_read_bio what r) = handle Pkey)
    by (by destruct what).
  apply (@owns_sys openssl _ _ S _ (PEM_read_bio what r)); [done|]. intros evp. rewrite Hacq.
  apply (@owns_release openssl _ _ S _ (BIO_free r) (Bio, r) _ _ _ (handle Pkey evp ++ held)); [done|by apply handle_some| |].
  { by rewrite Permutation_middle. }
  intros _. destruct (evp =? 0) eqn:He; [|apply fromOpenSslEvpKey_takes].
  by ssl_step.
Qed.

Lemma makes_after {A} k (p : ssl_prog S A) f :
  borrows p -> (forall a, makes k (f a)) -> makes k (p ≫= f).
Proof. intros Hp Hf s held. eapply triple_bind; [apply Hp|]. intros a. apply Hf. Qed.

(** The two notions as equations between what a run acquires and what it releases. *)
Lemma makes_balance k (p : ssl_prog S Z) (Hp : makes k p) (E : @env openssl) s h r s' h' :
  p E s h = (r, s', h') ->
  exists cs, h' = h ++ cs /\
  match r with
  | Ok x => x <> 0 /\ acquires E h cs ≡ₚ (k, x) :: releases cs
  | _ => acquires E h cs ≡ₚ releases cs
  end.
Proof.
  intros Hm. destruct (Hp s [] E s h [] r s' h') as (cs & held & -> & Hb & Hr); [done..|].
  exists cs. split; [done|]. rewrite app_nil_r in Hb. destruct r.
  { destruct Hr as (Hx & -> & ->). split; [done|]. rewrite Hb. by rewrite Permutation_app_comm. }
  all: destruct Hr as [-> ->]; by rewrite app_nil_r in Hb.
Qed.

Lemma borrows_balance {A} (p : ssl_prog S A) (Hp : borrows p) (E : @env openssl) s h r s' h' :
  p E s h = (r, s', h') -> exists cs, h' = h ++ cs /\ acquires E h cs ≡ₚ releases cs.
Proof.
  intros Hm. destruct (Hp s [] E s h [] r s' h') as (cs & held & -> & Hb & Hr); [done..|].
  exists cs. split; [done|]. rewrite app_nil_r in Hb.
  destruct r; destruct Hr as [-> ->]; by rewrite app_nil_r in Hb.
Qed.

Lemma borrows_ret {A B} (p : ssl_prog S A) (b : B) : borrows p -> borrows (_ ← p; mret b).
Proof.
  intros Hp s held. eapply triple_bind; [apply Hp|]. intros a. by apply triple_ret.
Qed.

(** The operations that make keys, and those that use one. *)
Inductive maker := NewEmpty | FromPem (private : bool) (data : list Z)
  | FromPemString (private : bool) (data : list Z) | FromPemFile (private : bool) (path : string).
Definition make (m : maker) : ssl_prog S Z :=
  match m with
  | NewEmpty => newEmptyEvpKey
  | FromPem false data => fromPublicKeyPem data
  | FromPem true data => fromPrivateKeyPem data
  | FromPemString false data => fromPublicKeyPem_string data
  | FromPemString true data => fromPrivateKeyPem_string data
  | FromPemFile false path => fromPublicKeyPemFile path
  | FromPemFile true path => fromPrivateKeyPemFile path
  end.

Lemma make_makes m : makes Pkey (make m).
Proof.
  destruct m as [|[] data|[] data|[] path]; simpl.
  1: apply newEmptyEvpKey_makes.
  1-4: by apply key_from_pem_makes.
  1-2: apply makes_after; [apply readFileContent_borrows|]; intros; by apply key_from_pem_makes.
Qed.

(** C35. Whatever OpenSSL and the files answer, every static function that makes a key either
    returns a key that is not null, having kept exactly one reference to it and given back
    everything else it took (the BIO it read from), or throws having kept nothing. *)
Theorem key_made_once (m : maker) (E : @env openssl) (s : S) h r s' h' :
  make m E s h = (r, s', h') ->
  exists cs, h' = h ++ cs /\
  match r with
  | Ok p => p <> 0 /\ acquires E h cs ≡ₚ (Pkey, p) :: releases cs
  | _ => acquires E h cs ≡ₚ releases cs
  end.
Proof. apply (makes_balance Pkey (make m) (make_makes m)). Qed.
End EvpKey.

(** ** What the keys contain

    [value] is the key a pointer refers to, [encode] its PEM text: writing gives the text of the
    key, and reading a text, alone or followed by the final NUL of a string, gives a key of the
    same value. *)
Section Texts.
Context {V : Type} (value : Z -> V) (encode : pem -> V -> list Z).

Record pem_texts (E : @env openssl) : Prop := {
  encode_length what v : 0 < Z.of_nat (length (encode what v)) < INT_MAX;
  bio_new h : E h (BIO_new_mem : sslcall) <> 0;
  bio_new_buf h data : E h (BIO_new_mem_buf data : sslcall) <> 0;
  pem_write h what bio sp : E h (PEM_write_bio what bio sp : sslcall) <> 0;
  bio_text h what bio sp : what <> PEM_X509 ->
    E (h ++ [PEM_write_bio what bio sp]) (BIO_get_mem_ptr bio : sslcall) = encode what (value sp);
  pem_read h what bio v nul : what <> PEM_X509 -> nul = [] \/ nul = [0] ->
    let buffer := BIO_new_mem_buf (encode what v ++ nul) in
    bio = E h (buffer : sslcall) ->
    let p := E (h ++ [buffer]) (PEM_read_bio what bio : sslcall) in p <> 0 /\ value p = v }.

Lemma key_to_pem_run {S} what sp (E : @env openssl) (s : S) h :
  pem_texts E -> what <> PEM_X509 ->
  exists h', key_to_pem what sp E s h = (Ok (encode what (value sp)), s, h').
Proof.
  intros HE Hw. unfold key_to_pem, bioToByteVector. erewrite bind_ok by reflexivity.
  rewrite (if_false (_ =? 0)) by (apply Z.eqb_neq, (bio_new _ HE)).
  erewrite bind_ok by reflexivity.
  rewrite (if_false (_ =? 0)) by (apply Z.eqb_neq, (pem_write _ HE)).
  erewrite bind_ok; [|erewrite bind_ok by reflexivity; by rewrite (bio_text _ HE)].
  erewrite bind_ok by reflexivity. by eexists.
Qed.

Lemma key_from_pem_run {S} what v nul (E : @env openssl) (s : S) h :
  pem_texts E -> what <> PEM_X509 -> nul = [] \/ nul = [0] ->
  exists p h', key_from_pem what (encode what v ++ nul) E s h = (Ok p, s, h') /\
    p <> 0 /\ value p = v.
Proof.
  intros HE Hw Hn. unfold key_from_pem.
  pose proof (encode_length _ HE what v). assert (length nul <= 1)%nat by (destruct Hn; by subst; simpl; lia).
  rewrite (if_false (_ || _)).
  2: { apply orb_false_iff. rewrite Z.gtb_ltb, Z.ltb_ge, Z.eqb_neq, length_app. lia. }
  erewrite bind_ok by reflexivity.
  rewrite (if_false (_ =? 0)) by (apply Z.eqb_neq, (bio_new_buf _ HE)).
  erewrite bind_ok by reflexivity. set (bio := E h _).
  destruct (pem_read _ HE h what bio v nul Hw Hn eq_refl) as [Hp Hv].
  erewrite bind_ok by reflexivity.
  rewrite (if_false (_ =? 0)) by (by apply Z.eqb_neq).
  unfold fromOpenSslEvpKey. rewrite (if_false (_ =? 0)) by (by apply Z.eqb_neq).
  by do 2 eexists.
Qed.

(** A key written as a PEM text, stored in a file and read back from that file is the same
    key, public or private: the composition of [publicKeyToPem] or [privateKeyToPem],
    [writeFileContent] and [fromPublicKeyPemFile] or [fromPrivateKeyPemFile], over any library and
    any disk that honour their contracts.  Passing the text as a string, with its NUL, gives the
    same key too. *)
Theorem key_through_file {S} start (private : bool) sp path (E : @env openssl) (s : S) h :
  pem_texts E -> stores start E ->
  let to_pem := if private then privateKeyToPem sp else publicKeyToPem sp in
  let from_file := if private then fromPrivateKeyPemFile path else fromPublicKeyPemFile path in
  let from_string := if private then fromPrivateKeyPem_string else fromPublicKeyPem_string in
  (exists p s' h', (text ← to_pem; _ ← writeFileContent path text standardIoErrorEventHandler;
     from_file) E s h = (Ok p, s', h') /\ p <> 0 /\ value p = value sp) /\
  (exists p s' h', (text ← to_pem; from_string text) E s h = (Ok p, s', h') /\
     p <> 0 /\ value p = value sp).
Proof.
  intros HE Hd to_pem from_file from_string.
  set (what := if private then PrivateKey else PUBKEY).
  assert (Hw : what <> PEM_X509) by (by destruct private).
  assert (to_pem = key_to_pem what sp) as -> by (by destruct private).
  assert (from_file = (content ← readFileContent path standardIoErrorEventHandler;
    key_from_pem what content)) as -> by (by destruct private).
  assert (from_string = fun data => key_from_pem what (data ++ [0])) as -> by (by destruct private).
  destruct (key_to_pem_run what sp E s h HE Hw) as (h1 & H1).
  pose proof (encode_length _ HE what (value sp)). split.
  - destruct (write_run start path (encode what (value sp)) standardIoErrorEventHandler E s h1 Hd)
      as (h2 & H2 & Hf).
    destruct (read_run start path (encode what (value sp)) standardIoErrorEventHandler E s h2)
      as (h3 & H3 & _); [done|by rewrite Hf, lookup_insert_eq|unfold INT_MAX in *; lia|].
    destruct (key_from_pem_run what (value sp) [] E s h3) as (p & h4 & H4 & Hp); [by auto..|].
    rewrite app_nil_r in H4. exists p, s, h4. split; [|done].
    erewrite bind_ok by exact H1. erewrite bind_ok by exact H2. by erewrite bind_ok by exact H3.
  - destruct (key_from_pem_run what (value sp) [0] E s h1) as (p & h2 & H2 & Hp); [by auto..|].
    exists p, s, h2. split; [|done]. by erewrite bind_ok by exact H1.
Qed.
End Texts.

(** ** A library of two keys: at pointer 1 the key [false], at pointer 2 the key [true] *)

Definition bit_value (p : Z) : bool := p =? 2.
Definition bit_text (what : pem) (v : bool) : list Z := [if v then 1 else 0].
Definition bit_library : @env openssl := fun h c =>
  match c as c return ssl_reply c with
  | BIO_get_mem_ptr _ =>
      match last h with Some (PEM_write_bio what _ sp) => bit_text what (bit_value sp) | _ => [] end
  | PEM_read_bio _ _ =>
      match last h with Some (BIO_new_mem_buf (b :: _)) => 1 + b | _ => 0 end
  | c => disk_library ∅ h c
  end.

Lemma bit_texts : pem_texts bit_value bit_text bit_library.
Proof.
  split; try done.
  - intros h what bio sp _. simpl. by rewrite last_snoc.
  - intros h what bio v nul _ _ buffer _. simpl. rewrite last_snoc. by destruct v.
Qed.

Lemma bit_stores : stores ∅ bit_library.
Proof. destruct (disk_stores ∅) as [? ? ? Hr]. by split; [..|exact Hr]. Qed.

Lemma key_through_file_witness :
  (exists p s' h', (text ← privateKeyToPem 2;
     _ ← writeFileContent "key" text standardIoErrorEventHandler;
     fromPrivateKeyPemFile "key") bit_library tt [] = (Ok p, s', h') /\ p <> 0 /\ bit_value p = true) /\
  (exists p s' h', (text ← privateKeyToPem 2; fromPrivateKeyPem_string text) bit_library tt [] =
     (Ok p, s', h') /\ p <> 0 /\ bit_value p = true).
Proof.
  exact (key_through_file bit_value bit_text ∅ true 2 "key" bit_library tt [] bit_texts bit_stores).
Defined.

Lemma key_made_once_witness : exists cs,
  history (make (FromPem true [1]) bit_library tt []) = [] ++ cs /\
  2 <> 0 /\ acquires bit_library [] cs ≡ₚ (Pkey, 2) :: releases cs.
Proof.
  by eapply (key_made_once (FromPem true [1]) bit_library tt [] (Ok 2) tt).
Defined.
