(* ===== verification/Signature.v ===== *)
(** * Digital signatures (src/crypto/ds/, headers/crypto/ds/)

    [Signer] and [Verifier] hash what they are given with SHA-256 and sign, or check, the hash. *)

From S2P Require Import Prelude Ownership Memory Numbers OpenSsl Io EvpKey.

(** The object of both classes: the context, 0 when there is none. *)
Record ds := Ds { ctx : Z }.
Definition digestAlg : evp_md := EVP_sha256.

(** ** Signer *)

Definition Signer : ssl_prog ds unit :=
  c ← sys (EVP_MD_CTX_create : sslcall);
  _ ← modify (fun _ => Ds c);
  if c =? 0 then throw "EVP_MD_CTX_create failed"
  else
    ok ← sys (EVP_SignInit c digestAlg : sslcall);
    if ok =? 0 then
      _ ← sys (EVP_MD_CTX_destroy c : sslcall);
      _ ← modify (fun _ => Ds 0);
      throw "EVP_SignInit failed"
    else mret tt.

Definition destroy : ssl_prog ds unit :=
  this ← get;
  if negb (ctx this =? 0) then _ ← sys (EVP_MD_CTX_destroy (ctx this) : sslcall); mret tt
  else mret tt.

Definition sign_update (source : list Z) : ssl_prog ds unit :=
  this ← get;
  ok ← sys (EVP_SignUpdate (ctx this) source : sslcall);
  if ok =? 0 then throw "EVP_SignUpdate failed" else mret tt.

(** [finalize] to a vector as large as any signature of the key, cut to the one made. *)
Definition sign_finalize (privKey : Z) : ssl_prog ds (list Z) :=
  this ← get;
  n ← maxOutputBufferSize privKey;
  size ← lift (safeNumericCast unsigned_int size_t n);
  '(ok, bytes) ← sys (EVP_SignFinal (ctx this) privKey : sslcall);
  if ok =? 0 then throw "EVP_SignFinal failed"
  else
    dest ← lift (store (replicate (Z.to_nat size) 0) 0 bytes);
    mret (resized dest (Z.of_nat (length bytes))).

(** [finalize] to the caller's buffer. *)
Definition sign_finalize_to (privKey : Z) (outSign : list Z) : ssl_prog ds (Z * list Z) :=
  this ← get;
  '(ok, bytes) ← sys (EVP_SignFinal (ctx this) privKey : sslcall);
  if ok =? 0 then throw "EVP_SignFinal failed"
  else
    outSign' ← lift (store outSign 0 bytes);
    size ← lift (safeNumericCast size_t unsigned_int (Z.of_nat (length bytes)));
    mret (size, outSign').

(** ** Verifier *)

Definition Verifier : ssl_prog ds unit :=
  c ← sys (EVP_MD_CTX_create : sslcall);
  _ ← modify (fun _ => Ds c);
  if c =? 0 then throw "EVP_MD_CTX_create failed"
  else
    ok ← sys (EVP_VerifyInit c digestAlg : sslcall);
    if ok =? 0 then
      _ ← sys (EVP_MD_CTX_destroy c : sslcall);
      _ ← modify (fun _ => Ds 0);
      throw "EVP_VerifyInit failed"
    else mret tt.

Definition Verifier_destroy := destroy.

Definition verify_update (source : list Z) : ssl_prog ds unit :=
  this ← get;
  ok ← sys (EVP_VerifyUpdate (ctx this) source : sslcall);
  if ok =? 0 then throw "EVP_VerifyUpdate failed" else mret tt.

Definition verify_finalize (pubKey : Z) (sign : list Z) : ssl_prog ds bool :=
  this ← get;
  _ ← lift (safeNumericCast unsigned_int size_t (Z.of_nat (length sign)));
  r ← sys (EVP_VerifyFinal (ctx this) sign pubKey : sslcall);
  mret (r =? 1).

(** ** The static functions *)

Section Static.
Context {T : Type}.
Definition sign (privKey : Z) (source : list Z) : ssl_prog T (list Z) :=
  local_object (Ds 0) Signer (_ ← sign_update source; sign_finalize privKey) destroy.
Definition sign_to (privKey : Z) (source dest : list Z) : ssl_prog T (Z * list Z) :=
  local_object (Ds 0) Signer (_ ← sign_update source; sign_finalize_to privKey dest) destroy.
Definition verify (pubKey : Z) (source signature : list Z) : ssl_prog T bool :=
  local_object (Ds 0) Verifier (_ ← verify_update source; verify_finalize pubKey signature)
    Verifier_destroy.
End Static.

(** ** The contract of the library

    [sig] is the signature of a message under a private key, [valid] says whether a public key
    accepts a signature of a message. *)
Section Contract.
Context (sig : Z -> list Z -> list Z) (valid : Z -> list Z -> list Z -> bool).

Record signs (E : @env openssl) : Prop := {
  sg_new h : E h (EVP_MD_CTX_create : sslcall) <> 0;
  sg_init h c md : E h (EVP_SignInit c md : sslcall) <> 0;
  sg_update h c data : E h (EVP_SignUpdate c data : sslcall) <> 0;
  sg_size h k : 0 <= E h (EVP_PKEY_size k : sslcall) <= INT_MAX;
  sg_fits h k m : Z.of_nat (length (sig k m)) <= E h (EVP_PKEY_size k : sslcall);
  sg_final h c k key m : session h c = Some (digestAlg, key, m) ->
    E h (EVP_SignFinal c k : sslcall) = (1, sig k m) }.

(** The verifier of the library answers 1 to a valid signature and something else to any other. *)
Record verifies (E : @env openssl) : Prop := {
  vf_new h : E h (EVP_MD_CTX_create : sslcall) <> 0;
  vf_init h c md : E h (EVP_VerifyInit c md : sslcall) <> 0;
  vf_update h c data : E h (EVP_VerifyUpdate c data : sslcall) <> 0;
  vf_final h c k key m s : session h c = Some (digestAlg, key, m) ->
    E h (EVP_VerifyFinal c s k : sslcall) = 1 <-> valid k m s = true }.

Lemma Signer_run (E : @env openssl) s h :
  signs E ->
  let c := E h (EVP_MD_CTX_create : sslcall) in
  Signer E s h = (Ok tt, Ds c, h ++ [EVP_MD_CTX_create; EVP_SignInit c digestAlg]) /\ c <> 0.
Proof.
  intros HE c. assert (Hc : c <> 0) by apply (sg_new _ HE). split; [|done]. unfold Signer.
  erewrite bind_ok by reflexivity. fold c. rewrite bind_modify.
  rewrite (if_false (c =? 0)) by (by apply Z.eqb_neq). erewrite bind_ok by reflexivity.
  rewrite (if_false (_ =? 0)) by (apply Z.eqb_neq, (sg_init _ HE)).
  unfold mret, prog_ret. by rewrite <-app_assoc.
Qed.

Lemma Verifier_run (E : @env openssl) s h :
  verifies E ->
  let c := E h (EVP_MD_CTX_create : sslcall) in
  Verifier E s h = (Ok tt, Ds c, h ++ [EVP_MD_CTX_create; EVP_VerifyInit c digestAlg]) /\ c <> 0.
Proof.
  intros HE c. assert (Hc : c <> 0) by apply (vf_new _ HE). split; [|done]. unfold Verifier.
  erewrite bind_ok by reflexivity. fold c. rewrite bind_modify.
  rewrite (if_false (c =? 0)) by (by apply Z.eqb_neq). erewrite bind_ok by reflexivity.
  rewrite (if_false (_ =? 0)) by (apply Z.eqb_neq, (vf_init _ HE)).
  unfold mret, prog_ret. by rewrite <-app_assoc.
Qed.

Lemma sign_finalize_run k c m (E : @env openssl) h :
  signs E -> session h c = Some (digestAlg, [], m) ->
  sign_finalize k E (Ds c) h = (Ok (sig k m), Ds c, h ++ [EVP_PKEY_size k; EVP_SignFinal c k]).
Proof.
  intros HE Hs. pose proof (sg_size _ HE h k). pose proof (sg_fits _ HE h k m).
  assert (INT_MAX = 2 ^ 31 - 1) by done. set (n := E h (EVP_PKEY_size k : sslcall)) in *.
  unfold sign_finalize, maxOutputBufferSize. rewrite bind_get.
  erewrite bind_ok; [|by erewrite bind_ok by reflexivity]. fold n.
  rewrite wrap_u64_small by lia. rewrite bind_lift, safeNumericCast_size_uint by lia.
  erewrite bind_ok by reflexivity. rewrite (sg_final _ HE _ _ _ [] m).
  2: { rewrite ssl_session_snoc. exact Hs. }
  cbv beta iota. rewrite (if_false (1 =? 0)) by done.
  rewrite bind_lift, store_0 by (rewrite length_replicate; lia).
  unfold mret, prog_ret. by rewrite resized_prefix, <-app_assoc.
Qed.

Lemma session_signing (h : list sslcall) c m :
  session (h ++ [EVP_MD_CTX_create; EVP_SignInit c digestAlg] ++ [EVP_SignUpdate c m]) c =
    Some (digestAlg, [], m) /\
  session (h ++ [EVP_MD_CTX_create; EVP_VerifyInit c digestAlg] ++ [EVP_VerifyUpdate c m]) c =
    Some (digestAlg, [], m).
Proof. split; unfold session; rewrite fold_left_app; simpl; by rewrite !Z.eqb_refl. Qed.

Lemma sign_run {T} k m (E : @env openssl) (t : T) h :
  signs E -> exists h', sign k m E t h = (Ok (sig k m), t, h').
Proof.
  intros HE. unfold sign, local_object. destruct (Signer_run E (Ds 0) h HE) as [-> Hc].
  set (c := E h _) in *. set (h1 := h ++ _).
  assert (sign_update m E (Ds c) h1 = (Ok tt, Ds c, h1 ++ [EVP_SignUpdate c m])) as Hu.
  { unfold sign_update. rewrite bind_get. erewrite bind_ok by reflexivity.
    by rewrite (if_false (_ =? 0)) by (apply Z.eqb_neq, (sg_update _ HE)). }
  erewrite bind_ok by exact Hu.
  rewrite (sign_finalize_run k c m E _ HE).
  2: { unfold h1. rewrite <-app_assoc. apply session_signing. }
  destruct (destroy _ _ _) as [[? ?] ?]. by eexists.
Qed.

Lemma verify_run {T} k m s (E : @env openssl) (t : T) h :
  verifies E -> Z.of_nat (length s) < 2 ^ 32 ->
  exists h', verify k m s E t h = (Ok (valid k m s), t, h').
Proof.
  intros HE Hlen. unfold verify, local_object. destruct (Verifier_run E (Ds 0) h HE) as [-> Hc].
  set (c := E h _) in *. set (h1 := h ++ _).
  assert (verify_update m E (Ds c) h1 = (Ok tt, Ds c, h1 ++ [EVP_VerifyUpdate c m])) as Hu.
  { unfold verify_update. rewrite bind_get. erewrite bind_ok by reflexivity.
    by rewrite (if_false (_ =? 0)) by (apply Z.eqb_neq, (vf_update _ HE)). }
  erewrite bind_ok by exact Hu. unfold verify_finalize. rewrite bind_get.
  erewrite bind_ok; [|by unfold lift; rewrite safeNumericCast_size_uint by lia].
  erewrite bind_ok by reflexivity. unfold mret at 1, prog_ret at 1.
  destruct (Verifier_destroy _ _ _) as [[? ?] ?]. eexists. do 3 f_equal. cbn [ctx].
  apply eq_bool_prop_intro. rewrite !Is_true_true, Z.eqb_eq.
  apply (vf_final _ HE _ _ _ []). unfold h1. rewrite <-app_assoc. apply session_signing.
Qed.

(** C36. What [sign] returns for a message, [verify] accepts for that message exactly when the
    library holds the signature valid, so for the public key of the pair: the two classes hash
    the same bytes with the same digest, and neither the vector sized by the key nor its cut
    changes the signature. *)
Theorem verify_sign {T} priv pub m (E1 E2 : @env openssl) (t : T) h1 h2 :
  signs E1 -> verifies E2 ->
  outcome (sign priv m E1 t h1) = Ok (sig priv m) /\
  outcome (verify pub m (sig priv m) E2 t h2) = Ok (valid pub m (sig priv m)).
Proof.
  intros HE1 HE2. destruct (sign_run priv m E1 t h1 HE1) as (h1' & ->). split; [done|].
  pose proof (sg_fits _ HE1 h1 priv m). pose proof (sg_size _ HE1 h1 priv).
  assert (INT_MAX = 2 ^ 31 - 1) by done.
  by destruct (verify_run pub m (sig priv m) E2 t h2 HE2 ltac:(lia)) as (h2' & ->).
Qed.
End Contract.

(** ** Contexts *)

Inductive op := SignUpdate (source : list Z) | SignFinalize (key : Z)
  | SignFinalizeTo (key : Z) (out : list Z) | VerifyUpdate (source : list Z)
  | VerifyFinalize (key : Z) (signature : list Z).
Definition run_op (o : op) : ssl_prog ds unit :=
  match o with
  | SignUpdate source => sign_update source
  | SignFinalize key => _ ← sign_finalize key; mret tt
  | SignFinalizeTo key out => _ ← sign_finalize_to key out; mret tt
  | VerifyUpdate source => verify_update source
  | VerifyFinalize key signature => _ ← verify_finalize key signature; mret tt
  end.
Definition life (signer : bool) (ops : list op) : ssl_prog ds unit :=
  _ ← (if signer then Signer else Verifier); lifetime run_op destroy ops.

Lemma sign_update_borrows m : borrows (sign_update m).
Proof. intros s held. unfold sign_update. do 3 ssl_step; by ssl_step. Qed.
Lemma sign_finalize_borrows k : borrows (sign_finalize k).
Proof.
  intros s held. unfold sign_finalize. ssl_step.
  eapply owns_call; [apply maxOutputBufferSize_borrows|]. intros n s1 held1 [-> ->].
  ssl_step; [done|]. do 3 ssl_step; [by ssl_step|]. ssl_step; [done|]. by ssl_step.
Qed.
Lemma verify_update_borrows m : borrows (verify_update m).
Proof. intros s held. unfold verify_update. do 3 ssl_step; by ssl_step. Qed.
Lemma verify_finalize_borrows k s : borrows (verify_finalize k s).
Proof. intros s0 held. unfold verify_finalize. do 2 ssl_step; [done|]. by do 2 ssl_step. Qed.

Lemma op_borrows o : borrows (run_op o).
Proof.
  destruct o; simpl; try apply borrows_ret.
  - apply sign_update_borrows.
  - apply sign_finalize_borrows.
  - intros s held. unfold sign_finalize_to. do 4 ssl_step; [by ssl_step|]. ssl_step; [done|].
    ssl_step; [done|]. by ssl_step.
  - apply verify_update_borrows.
  - apply verify_finalize_borrows.
Qed.

Definition holds (s : ds) (held : list (kind * Z)) : Prop := held = handle MdCtx (ctx s).

Lemma ds_construct_holds (signer : bool) :
  triple (fun s held => held = []) (if signer then Signer else Verifier) (fun _ => holds)
    (fun _ held => held = []).
Proof.
  apply triple_follow. intros s held ->. destruct signer; [unfold Signer|unfold Verifier];
  (do 3 ssl_step; [by ssl_step|]; do 2 ssl_step; [by do 3 ssl_step|]; ssl_step;
   unfold holds; simpl; by rewrite handle_some).
Qed.

Lemma ds_destroy_releases :
  triple holds destroy (fun _ _ held => held = []) (fun _ held => held = []).
Proof.
  apply triple_follow. intros s held ->. unfold destroy. ssl_step.
  destruct (ctx s =? 0) eqn:Hc; simpl negb; cbv iota.
  - by ssl_step.
  - rewrite handle_some by done. by do 2 ssl_step.
Qed.

(** The static functions keep nothing of what they make. *)
Lemma local_ds_borrows {T A} (signer : bool) (body : ssl_prog ds A) :
  borrows body ->
  borrows (local_object (Ds 0) (if signer then Signer else Verifier) body destroy : ssl_prog T A).
Proof.
  intros Hb s held. apply (triple_local (Ds 0) _ destroy body holds).
  - eapply triple_weaken; [apply ds_construct_holds|by intros ? ? [_ ?]|done|done].
  - apply triple_follow. intros s1 held1 ->.
    eapply triple_weaken; [apply (Hb s1)|done|by intros ? ? ? [-> ->]|by intros ? ? [-> ->]].
  - apply ds_destroy_releases.
Qed.

(** The context of a [Signer] or a [Verifier] is destroyed exactly once, whatever the library
    answers, whichever sequence of updates and finalizations is asked for and whatever they
    throw: by the constructor when it fails, otherwise by the destructor. *)
Theorem ds_context_freed_once signer ops E r s0 s h :
  life signer ops E s0 [] = (r, s, h) -> releases h ≡ₚ acquires E [] h.
Proof.
  apply (released_exactly _ (fun s held => held = [])); [|done].
  apply (triple_bind _ _ _ (fun _ => holds)); [apply ds_construct_holds|]. intros _.
  apply (triple_lifetime run_op destroy holds); [|apply ds_destroy_releases].
  intros o. apply triple_follow. intros s1 held ->.
  eapply triple_weaken; [apply (op_borrows o s1)|done|by intros ? ? ? [-> ->]|by intros ? ? [-> ->]].
Qed.

(** ** A library whose signature of a message is the sum of its bytes *)

Definition sum_sig (k : Z) (m : list Z) : list Z := [foldr Z.add k m mod 256].
Definition sum_valid (k : Z) (m s : list Z) : bool := bool_decide (s = sum_sig k m).
Definition sum_library : @env openssl := fun h c =>
  match c as c return ssl_reply c with
  | EVP_SignFinal c k =>
      match session h c with Some (_, _, m) => (1, sum_sig k m) | None => (0, []) end
  | EVP_VerifyFinal c s k =>
      match session h c with
      | Some (_, _, m) => if sum_valid k m s then 1 else 0
      | None => -1
      end
  | c => default_reply c
  end.

Lemma sum_signs : signs sum_sig sum_library.
Proof.
  split; try done. intros h c k key m Hs. simpl. by rewrite Hs.
Qed.
Lemma sum_verifies : verifies sum_valid sum_library.
Proof. split; try done. intros h c k key m s Hs. simpl. rewrite Hs. by destruct (sum_valid _ _ _). Qed.

Lemma verify_sign_witness :
  outcome (sign 7 [1; 2] sum_library tt []) = Ok [10] /\
  outcome (verify 7 [1; 2] [10] sum_library tt []) = Ok true.
Proof.
  exact (verify_sign sum_sig sum_valid 7 7 [1; 2] sum_library sum_library tt [] [] sum_signs
    sum_verifies).
Defined.

Lemma ds_context_freed_once_witness :
  releases (history (life true [SignUpdate [1]; SignFinalize 7; SignFinalize 7] sum_library
    (Ds 0) [])) ≡ₚ [(MdCtx, 1)].
Proof.
  eapply (ds_context_freed_once true [SignUpdate [1]; SignFinalize 7; SignFinalize 7] sum_library _
    (Ds 0)).
  vm_compute. reflexivity.
Defined.
