(* ===== verification/Certificate.v ===== *)
(** * Certificates (src/crypto/certificate/X509Certificate.cpp)

    A certificate is a shared pointer to an object of OpenSSL.  The functions below take that
    pointer; those that make a certificate return it. *)

From S2P Require Import Prelude Ownership OpenSsl Io EvpKey.

Section X509Certificate.
Context {S : Type}.

Definition toDer (ptr : Z) : ssl_prog S (list Z) :=
  '(buf, der) ← sys (i2d_X509 ptr : sslcall);
  match der with
  | None => throw "i2d_X509 failed"
  | Some bytes =>
      _ ← sys (OPENSSL_free buf : sslcall);
      mret bytes
  end.

Definition toPem (ptr : Z) : ssl_prog S (list Z) :=
  bio ← sys (BIO_new_mem : sslcall);
  if bio =? 0 then throw "unable to allocate bio"
  else
    ok ← sys (PEM_write_bio PEM_X509 bio ptr : sslcall);
    if ok =? 0 then
      _ ← sys (BIO_free bio : sslcall); throw "unable to write certificate to bio"
    else
      ret ← bioToByteVector bio;
      _ ← sys (BIO_free bio : sslcall);
      mret ret.

Definition getPublicKey (ptr : Z) : ssl_prog S Z :=
  pubKey ← sys (X509_get_pubkey ptr : sslcall);
  if pubKey =? 0 then throw "X509_get_pubkey failed. Malformed certificate?"
  else fromOpenSslEvpKey pubKey.

Definition sign (ptr privKey : Z) : ssl_prog S unit :=
  ok ← sys (X509_sign ptr privKey EVP_sha1 : sslcall);
  if ok =? 0 then throw "X509_sign failed" else mret tt.

(** [getSubjectName] and [getIssuerName]; the functions for the two names differ in nothing
    else. *)
Definition get_name (n : name_of) (ptr : Z) : ssl_prog S (list Z) :=
  x509Name ← sys (X509_get_name n ptr : sslcall);
  if x509Name =? 0 then throw "X509_get_name failed. Malformed certificate?"
  else
    '(str, text) ← sys (X509_NAME_oneline x509Name : sslcall);
    if str =? 0 then throw "X509_NAME_oneline failed"
    else
      _ ← sys (OPENSSL_free str : sslcall);
      mret text.
Definition getSubjectName := get_name subject.
Definition getIssuerName := get_name issuer.

(** [setSubjectName] and [setIssuerName]: a new name with one entry. *)
Definition set_name (n : name_of) (ptr : Z) (field value : string) : ssl_prog S unit :=
  x509Name ← sys (X509_NAME_new : sslcall);
  if x509Name =? 0 then throw "X509_NAME_new failed"
  else
    ok ← sys (X509_NAME_add_entry_by_txt x509Name field value : sslcall);
    if ok =? 0 then throw "X509_NAME_add_entry_by_txt failed"
    else
      ok ← sys (X509_set_name n ptr x509Name : sslcall);
      if ok =? 0 then throw "X509_set_name failed" else mret tt.
Definition setSubjectName := set_name subject.
Definition setIssuerName := set_name issuer.

(** [addSubjectName] and [addIssuerName]: an entry more in the name of the certificate. *)
Definition add_name (n : name_of) (ptr : Z) (field value : string) : ssl_prog S unit :=
  x509Name ← sys (X509_get_name n ptr : sslcall);
  if x509Name =? 0 then throw "X509_get_name failed"
  else
    ok ← sys (X509_NAME_add_entry_by_txt x509Name field value : sslcall);
    if ok =? 0 then throw "X509_NAME_add_entry_by_txt failed"
    else
      ok ← sys (X509_set_name n ptr x509Name : sslcall);
      if ok =? 0 then throw "X509_set_name failed" else mret tt.
Definition addSubjectName := add_name subject.
Definition addIssuerName := add_name issuer.

Definition newEmptyX509Certificate : ssl_prog S Z :=
  cert ← sys (X509_new : sslcall);
  if cert =? 0 then throw "X509_new failed" else mret cert.

Definition LONG_MAX : Z := 2 ^ 63 - 1.
Definition fromDer (der : list Z) : ssl_prog S Z :=
  if Z.of_nat (length der) >? LONG_MAX then throw "derSize too big"
  else
    cert ← sys (d2i_X509 der : sslcall);
    if cert =? 0 then throw "d2i_X509 failed" else mret cert.

Definition fromPem (pem : list Z) : ssl_prog S Z :=
  let size := Z.of_nat (length pem) in
  if (size >? INT_MAX) || (size =? 0) then throw "invaldi size"
  else
    bio ← sys (BIO_new_mem_buf pem : sslcall);
    if bio =? 0 then throw "unable to allocate bio"
    else
      cert ← sys (PEM_read_bio PEM_X509 bio : sslcall);
      _ ← sys (BIO_free bio : sslcall);
      if cert =? 0 then throw "unable to generate X509 from bio" else mret cert.
Definition fromPem_string (pem : list Z) := fromPem (pem ++ [0]).
Definition fromDerFile (filePath : string) : ssl_prog S Z :=
  content ← readFileContent filePath standardIoErrorEventHandler; fromDer content.
Definition fromPemFile (filePath : string) : ssl_prog S Z :=
  content ← readFileContent filePath standardIoErrorEventHandler; fromPem content.

(** ** Handles *)

Lemma newEmpty_makes : makes Cert newEmptyX509Certificate.
Proof.
  intros s held. unfold newEmptyX509Certificate. do 2 ssl_step; ssl_step; bools; by repeat split.
Qed.

Lemma fromDer_makes der : makes Cert (fromDer der).
Proof.
  intros s held. unfold fromDer. ssl_step; [by ssl_step|].
  do 2 ssl_step; ssl_step; bools; by repeat split.
Qed.

Lemma fromPem_makes pem : makes Cert (fromPem pem).
Proof.
  intros s held. unfold fromPem. ssl_step; [by ssl_step|]. do 2 ssl_step; [by ssl_step|].
  ssl_step.
  apply (@owns_release openssl _ _ S _ (BIO_free r) (Bio, r) _ _ _ (handle Cert r0 ++ held));
    [done|by apply handle_some|by rewrite Permutation_middle|].
  intros _. ssl_step; ssl_step; bools; by repeat split.
Qed.

(** The operations that make a certificate or a key of it, and those that use one. *)
Inductive cert_maker := NewEmptyCert | FromDer (der : list Z) | CertFromPem (pem : list Z)
  | CertFromPemString (pem : list Z) | FromDerFile (path : string) | CertFromPemFile (path : string).
Definition make_cert (m : cert_maker) : ssl_prog S Z :=
  match m with
  | NewEmptyCert => newEmptyX509Certificate
  | FromDer der => fromDer der
  | CertFromPem pem => fromPem pem
  | CertFromPemString pem => fromPem_string pem
  | FromDerFile path => fromDerFile path
  | CertFromPemFile path => fromPemFile path
  end.

Lemma make_cert_makes m : makes Cert (make_cert m).
Proof.
  destruct m; simpl.
  - apply newEmpty_makes.
  - apply fromDer_makes.
  - apply fromPem_makes.
  - apply fromPem_makes.
  - apply makes_after; [apply readFileContent_borrows|apply fromDer_makes].
  - apply makes_after; [apply readFileContent_borrows|apply fromPem_makes].
Qed.

Inductive cert_use := ToDer (ptr : Z) | ToPem (ptr : Z) | Sign (ptr key : Z)
  | GetName (n : name_of) (ptr : Z) | AddName (n : name_of) (ptr : Z) (field value : string).
Definition use_cert (u : cert_use) : ssl_prog S unit :=
  match u with
  | ToDer ptr => _ ← toDer ptr; mret tt
  | ToPem ptr => _ ← toPem ptr; mret tt
  | Sign ptr key => sign ptr key
  | GetName n ptr => _ ← get_name n ptr; mret tt
  | AddName n ptr field value => add_name n ptr field value
  end.

Lemma toPem_borrows ptr : borrows (toPem ptr).
Proof.
  intros s held. unfold toPem, bioToByteVector. do 2 ssl_step; [by ssl_step|].
  do 2 ssl_step; [by do 2 ssl_step|].
  apply (triple_bind _ _ _ (fun _ => owns s ((Bio, r) :: held))).
  - by do 2 ssl_step.
  - intros bytes. by do 2 ssl_step.
Qed.

Lemma toDer_borrows ptr : borrows (toDer ptr).
Proof.
  intros s held. unfold toDer. do 2 ssl_step. destruct o as [bytes|]; [|by ssl_step].
  destruct (z =? 0) eqn:Hz; simpl; unfold handle; rewrite Hz; simpl.
  - apply (@owns_sys openssl _ _ S _ (OPENSSL_free z)); [by apply handle_none|]. intros ?. by ssl_step.
  - by do 2 ssl_step.
Qed.

Lemma get_name_borrows n ptr : borrows (get_name n ptr).
Proof.
  intros s held. unfold get_name. do 2 ssl_step; [by ssl_step|]. do 2 ssl_step. cbn [fst].
  destruct (z =? 0) eqn:Hz; unfold handle; rewrite Hz; simpl; [by ssl_step|]. by do 2 ssl_step.
Qed.

Lemma use_cert_borrows u : borrows (use_cert u).
Proof.
  destruct u as [ptr|ptr|ptr key|n ptr|n ptr field value]; simpl; try apply borrows_ret.
  - apply toDer_borrows.
  - apply toPem_borrows.
  - intros s held. unfold sign. do 2 ssl_step; by ssl_step.
  - apply get_name_borrows.
  - intros s held. unfold add_name. do 2 ssl_step; [by ssl_step|].
    do 2 ssl_step; [by ssl_step|]. do 2 ssl_step; by ssl_step.
Qed.

Lemma getPublicKey_makes ptr : makes Pkey (getPublicKey ptr).
Proof.
  intros s held. unfold getPublicKey, fromOpenSslEvpKey. do 2 ssl_step; [by ssl_step|].
  ssl_step. bools. by repeat split.
Qed.

(** Whatever OpenSSL and the files answer, a function that makes a certificate returns one that
    is not null, having kept exactly one reference to it, or throws having kept nothing; and
    writing, signing, naming or reading a certificate keeps nothing, exceptions included. *)
Theorem certificate_made_once (m : cert_maker) (u : cert_use) (E : @env openssl) (s : S) h :
  (forall r s' h', make_cert m E s h = (r, s', h') ->
   exists cs, h' = h ++ cs /\
     match r with
     | Ok p => p <> 0 /\ acquires E h cs ≡ₚ (Cert, p) :: releases cs
     | _ => acquires E h cs ≡ₚ releases cs
     end) /\
  (forall r s' h', use_cert u E s h = (r, s', h') ->
   exists cs, h' = h ++ cs /\ acquires E h cs ≡ₚ releases cs).
Proof.
  split; intros r s' h' H.
  - by apply (makes_balance Cert (make_cert m) (make_cert_makes m)) in H.
  - by apply (borrows_balance (use_cert u) (use_cert_borrows u)) in H.
Qed.

(** [setSubjectName] and [setIssuerName] never free the name they create: the library copies
    it, so every call leaks one, whether it succeeds or throws. *)
Theorem set_name_leaks n ptr field value (E : @env openssl) (s : S) h r s' h' :
  set_name n ptr field value E s h = (r, s', h') ->
  exists cs, h' = h ++ cs /\ releases cs = [] /\
    acquires E h cs = handle Name (E h (X509_NAME_new : sslcall)).
Proof.
  unfold set_name. erewrite bind_ok by reflexivity. destruct (_ =? 0).
  { intros [= <- <- <-]. eexists [_]. split; [done|]. split; [done|]. apply app_nil_r. }
  erewrite bind_ok by reflexivity. destruct (_ =? 0).
  { intros [= <- <- <-]. rewrite <-app_assoc. eexists [_; _]. split; [done|]. split; [done|].
    apply app_nil_r. }
  erewrite bind_ok by reflexivity. destruct (_ =? 0); intros [= <- <- <-]; rewrite <-!app_assoc;
    (eexists [_; _; _]; split; [done|]; split; [done|]; apply app_nil_r).
Qed.
End X509Certificate.

Lemma certificate_made_once_witness :
  (forall r s' h', make_cert (CertFromPem [1]) bit_library tt [] = (r, s', h') ->
   exists cs, h' = [] ++ cs /\
     match r with
     | Ok p => p <> 0 /\ acquires bit_library [] cs ≡ₚ (Cert, p) :: releases cs
     | _ => acquires bit_library [] cs ≡ₚ releases cs
     end) /\
  (forall r s' h', use_cert (ToDer 1) bit_library tt [] = (r, s', h') ->
   exists cs, h' = [] ++ cs /\ acquires bit_library [] cs ≡ₚ releases cs).
Proof. exact (certificate_made_once (CertFromPem [1]) (ToDer 1) bit_library tt []). Defined.

Lemma set_name_leaks_witness : exists cs,
  history (set_name subject 1 "CN" "me" bit_library tt []) = [] ++ cs /\ releases cs = [] /\
  acquires bit_library [] cs = [(Name, 1)].
Proof. by eapply (set_name_leaks subject 1 "CN" "me" bit_library tt []). Defined.
