(* ===== verification/Store.v ===== *)
(** * The certificate store (src/crypto/certificate/X509Store.cpp)

    The store keeps shared pointers to the certificates it was given.  The model follows the
    certificates of a program together with one store: [certs] maps a control block to the
    certificate it counts references to, to whether the user still has the [X509Certificate] and
    to whether the store holds a copy of its pointer; a block whose last reference goes frees the
    certificate. *)

From S2P Require Import Prelude Ownership OpenSsl Io EvpKey Certificate.

Record shared := Shared { pointer : Z; by_user : bool; by_store : bool }.
Record world := World { nativeStore : Z; certs : gmap nat shared }.
Definition set_store (p : Z) (w : world) : world := World p (certs w).
Definition put (id : nat) (c : shared) (w : world) : world :=
  World (nativeStore w) (<[id := c]> (certs w)).
Definition forget (id : nat) (w : world) : world := World (nativeStore w) (delete id (certs w)).

(** The reference of the user, or of the store, goes away. *)
Definition drop_ref (from_store : bool) (id : nat) : ssl_prog world unit :=
  this ← get;
  match certs this !! id with
  | None => mret tt
  | Some c =>
      let c' := if from_store then Shared (pointer c) (by_user c) false
                else Shared (pointer c) false (by_store c) in
      if by_user c' || by_store c' then modify (put id c')
      else _ ← modify (forget id); _ ← sys (X509_free (pointer c) : sslcall); mret tt
  end.
Fixpoint drop_refs (from_store : bool) (ids : list nat) : ssl_prog world unit :=
  match ids with
  | [] => mret tt
  | id :: ids' => _ ← drop_ref from_store id; drop_refs from_store ids'
  end.

(** The constructor; [X509_V_FLAG_CRL_CHECK] is part of the call. *)
Definition X509Store : ssl_prog world unit :=
  p ← sys (X509_STORE_new : sslcall);
  _ ← modify (set_store p);
  if p =? 0 then throw "X509_STORE_new failed"
  else _ ← sys (X509_STORE_set_flags p : sslcall); mret tt.

(** The destructor: the body, then the member [certSet]. *)
Definition store_destroy : ssl_prog world unit :=
  this ← get;
  _ ← (if negb (nativeStore this =? 0)
       then _ ← sys (X509_STORE_free (nativeStore this) : sslcall); mret tt
       else mret tt);
  drop_refs true (map_to_list (certs this)).*1.

(** [certSet.insert]: the set compares addresses, so a pointer that is there already stays. *)
Definition in_certSet (p : Z) (w : world) : bool :=
  existsb (fun c => by_store c && (pointer c =? p)) (map_to_list (certs w)).*2.
Definition certSet_insert (id : nat) (w : world) : world :=
  match certs w !! id with
  | Some c =>
      if in_certSet (pointer c) w then w
      else put id (Shared (pointer c) (by_user c) true) w
  | None => w
  end.

(** The certificate is an object that the user has. *)
Definition the_certificate (id : nat) (w : world) : res Z :=
  match certs w !! id with
  | Some c => if by_user c then Ok (pointer c) else UB "no such object"
  | None => UB "no such object"
  end.

Definition addCertificate (id : nat) : ssl_prog world unit :=
  this ← get;
  p ← lift (the_certificate id this);
  _ ← modify (certSet_insert id);
  ok ← sys (X509_STORE_add_cert (nativeStore this) p : sslcall);
  if ok =? 0 then throw "X509_STORE_add_cert failed" else mret tt.

Definition addCrlFromPemFile (filePath : string) : ssl_prog world unit :=
  this ← get;
  fp ← sys (fopen filePath "r" : sslcall);
  if fp =? 0 then throw "Invalid filePath"
  else
    crl ← sys (PEM_read_X509_CRL fp : sslcall);
    _ ← sys (fclose fp : sslcall);
    if crl =? 0 then throw "PEM_read_X509_CRL failed"
    else
      ok ← sys (X509_STORE_add_crl (nativeStore this) crl : sslcall);
      if ok =? 0 then
        _ ← sys (X509_CRL_free crl : sslcall); throw "X509_STORE_add_crl failed"
      else mret tt.

Definition verify (id : nat) : ssl_prog world bool :=
  this ← get;
  p ← lift (the_certificate id this);
  ctx ← sys (X509_STORE_CTX_new : sslcall);
  if ctx =? 0 then throw "X509_STORE_CTX_new failed"
  else
    ok ← sys (X509_STORE_CTX_init ctx (nativeStore this) p : sslcall);
    if ok =? 0 then
      _ ← sys (X509_STORE_CTX_free ctx : sslcall); throw "X509_STORE_CTX_init failed"
    else
      ret ← sys (X509_verify_cert ctx : sslcall);
      _ ← sys (X509_STORE_CTX_free ctx : sslcall);
      mret (ret =? 1).

(** ** A program with certificates and a store *)

(** A new certificate goes into a new control block. *)
Definition new_certificate (m : cert_maker) : ssl_prog world unit :=
  p ← make_cert m;
  modify (fun w => put (fresh (dom (certs w))) (Shared p true false) w).

Inductive op := NewCert (m : cert_maker) | DropCert (id : nat) | AddCert (id : nat)
  | AddCrl (filePath : string) | Verify (id : nat).
Definition run_op (o : op) : ssl_prog world unit :=
  match o with
  | NewCert m => new_certificate m
  | DropCert id => drop_ref false id
  | AddCert id => addCertificate id
  | AddCrl filePath => addCrlFromPemFile filePath
  | Verify id => _ ← verify id; mret tt
  end.

(** The end of the program: the store goes before the certificates or after them. *)
Definition finish (store_first : bool) : ssl_prog world unit :=
  this ← get;
  let ids := (map_to_list (certs this)).*1 in
  if store_first then _ ← store_destroy; drop_refs false ids
  else _ ← drop_refs false ids; store_destroy.
Definition life (ops : list op) (store_first : bool) : ssl_prog world unit :=
  _ ← X509Store; lifetime run_op (finish store_first) ops.

(** ** Handles *)

(** The references counted by the control blocks, and what is known of every block. *)
Definition ptrs (w : world) : list (kind * Z) :=
  (fun c => (Cert, pointer c)) <$> (map_to_list (certs w)).*2.
Definition wf (w : world) : Prop :=
  map_Forall (fun _ c => pointer c <> 0 /\ by_user c || by_store c = true) (certs w).

(** What is held: [st], the certificates, and the revocation lists that were added. *)
Definition holding (st : list (kind * Z)) (w : world) (held : list (kind * Z)) : Prop :=
  wf w /\ exists crls : list Z, held ≡ₚ st ++ ptrs w ++ (pair Crl <$> crls).
Definition holds (w : world) (held : list (kind * Z)) : Prop :=
  holding (handle Store (nativeStore w)) w held.

Lemma ptrs_insert id c w :
  certs w !! id = None -> ptrs (put id c w) ≡ₚ (Cert, pointer c) :: ptrs w.
Proof. intros Hid. unfold ptrs, put. simpl. by rewrite (map_to_list_insert _ id c Hid). Qed.

Lemma ptrs_forget id c w :
  certs w !! id = Some c -> ptrs w ≡ₚ (Cert, pointer c) :: ptrs (forget id w).
Proof. intros Hid. unfold ptrs, forget. simpl. by rewrite <-(map_to_list_delete _ id c Hid). Qed.

Lemma ptrs_put id c c' w :
  certs w !! id = Some c -> pointer c' = pointer c -> ptrs (put id c' w) ≡ₚ ptrs w.
Proof.
  intros Hid Hp. rewrite (ptrs_forget id c w Hid), <-Hp.
  rewrite (ptrs_forget id c' (put id c' w)) by (simpl; by rewrite lookup_insert_eq).
  unfold forget, put. simpl. by rewrite delete_insert_eq.
Qed.

(** The flag of the store or of the user; what dropping references does to the blocks. *)
Definition flag (from_store : bool) (c : shared) : bool :=
  if from_store then by_store c else by_user c.
Definition cleared (from_store : bool) (ids : list nat) (w w' : world) : Prop :=
  nativeStore w' = nativeStore w /\
  forall id c', certs w' !! id = Some c' ->
    exists c, certs w !! id = Some c /\ (forall b, flag b c' = true -> flag b c = true) /\
      (id ∈ ids -> flag from_store c' = false).

Lemma cleared_trans b id ids w1 w2 w3 :
  cleared b [id] w1 w2 -> cleared b ids w2 w3 -> cleared b (id :: ids) w1 w3.
Proof.
  intros [Hn1 H1] [Hn2 H2]. split; [congruence|]. intros i c3 Hc3.
  destruct (H2 i c3 Hc3) as (c2 & Hc2 & Hf2 & Hi2). destruct (H1 i c2 Hc2) as (c1 & Hc1 & Hf1 & Hi1).
  exists c1. split; [done|]. split; [auto|]. intros [->|Hi]%elem_of_cons; [|auto].
  destruct (flag b c3) eqn:Hb; [|done]. apply Hf2 in Hb. rewrite Hi1 in Hb; [done|set_solver].
Qed.

Lemma drop_ref_triple st b id w0 X :
  triple (fun w held => w = w0 /\ holding st w held) (drop_ref b id)
    (fun _ w held => cleared b [id] w0 w /\ holding st w held) X.
Proof.
  apply triple_follow. intros w held [-> [Hwf [crls Hheld]]]. unfold drop_ref. ssl_step.
  destruct (certs w0 !! id) as [c|] eqn:Hid.
  2: { ssl_step. split; [|split; [done|by exists crls]]. split; [done|]. intros i c Hc. exists c.
       split; [done|]. split; [done|]. intros ->%list_elem_of_singleton. congruence. }
  destruct (Hwf id c Hid) as [Hp Hf].
  set (c' := if b then _ else _). assert (Hpc : pointer c' = pointer c) by (by destruct b).
  assert (Hfl : flag b c' = false) by (by destruct b).
  assert (Hfr : forall b', flag b' c' = true -> flag b' c = true).
  { intros b'. by destruct b, b'. }
  destruct (by_user c' || by_store c') eqn:Hu.
  - apply triple_modify. intros w held' [-> ->]. split.
    + split; [done|]. intros i x. unfold put. simpl. intros [[<- <-]|[Hi Hx]]%lookup_insert_Some.
      * by exists c.
      * exists x. split; [done|]. split; [done|]. intros ->%list_elem_of_singleton. congruence.
    + split.
      * unfold wf, put. simpl. apply map_Forall_insert_2; [|done]. by rewrite Hpc.
      * exists crls. by rewrite (ptrs_put id c).
  - ssl_step.
    apply (@owns_release openssl _ _ world _ (X509_free (pointer c)) (Cert, pointer c) _ _ _
      (st ++ ptrs (forget id w0) ++ (pair Crl <$> crls)));
      [done|by apply handle_some, Z.eqb_neq| |].
    { rewrite Hheld, (ptrs_forget id c w0 Hid). simpl. symmetry. apply Permutation_middle. }
    intros _. ssl_step. split.
    + split; [done|]. intros i x. unfold forget. simpl. intros [Hi Hx]%lookup_delete_Some.
      exists x. split; [done|]. split; [done|]. intros ->%list_elem_of_singleton. congruence.
    + split; [by apply map_Forall_delete|by exists crls].
Qed.

Lemma drop_refs_triple st b ids w0 X :
  triple (fun w held => w = w0 /\ holding st w held) (drop_refs b ids)
    (fun _ w held => cleared b ids w0 w /\ holding st w held) X.
Proof.
  revert w0. induction ids as [|id ids IH]; intros w0; cbn [drop_refs].
  - apply triple_ret. intros w held [-> Hh]. split; [|done]. split; [done|]. intros i c Hc.
    exists c. split; [done|]. split; [done|]. intros Hi. by apply not_elem_of_nil in Hi.
  - eapply triple_bind; [apply drop_ref_triple|]. intros []. apply triple_follow.
    intros w held [Hc Hh]. eapply triple_weaken; [apply (IH w)|by intros ? ? [-> ->]| |done].
    intros [] w' held' [Hc' Hh']. split; [|done]. by eapply cleared_trans.
Qed.

Lemma holding_weaken st w held w' held' :
  held' ≡ₚ held -> wf w' -> ptrs w' ≡ₚ ptrs w -> holding st w held -> holding st w' held'.
Proof. intros Hh Hw Hp [_ [crls H]]. split; [done|]. exists crls. by rewrite Hh, H, Hp. Qed.

Lemma holds_intro held (w : world) crls :
  wf w -> held ≡ₚ handle Store (nativeStore w) ++ ptrs w ++ (pair Crl <$> crls) -> holds w held.
Proof. intros Hw Hh. split; [done|by exists crls]. Qed.

Lemma certSet_insert_holds id w held : holds w held -> holds (certSet_insert id w) held.
Proof.
  intros Hh. unfold certSet_insert. destruct (certs w !! id) as [c|] eqn:Hid; [|done].
  destruct (in_certSet _ _); [done|]. destruct Hh as [Hwf [crls Hh]].
  apply (holds_intro _ _ crls).
  - apply map_Forall_insert_2; [|done]. simpl. destruct (Hwf id c Hid) as [Hp _]. split; [done|].
    apply orb_true_r.
  - by rewrite (ptrs_put id c).
Qed.

Lemma new_certificate_holds m : triple holds (new_certificate m) (fun _ => holds) holds.
Proof.
  apply triple_follow. intros w held Hh. unfold new_certificate.
  eapply owns_call.
  { eapply triple_weaken; [apply (make_cert_makes m w held)|done|done|by intros ? ? [-> ->]]. }
  intros p w' held' [Hp [-> ->]]. apply triple_modify. intros ? ? [-> ->].
  destruct Hh as [Hwf [crls Hh]]. apply (holds_intro _ _ crls).
  - by apply map_Forall_insert_2.
  - rewrite ptrs_insert by (apply not_elem_of_dom, is_fresh). rewrite Hh. simpl.
    apply Permutation_middle.
Qed.

Lemma addCertificate_holds id : triple holds (addCertificate id) (fun _ => holds) holds.
Proof.
  apply triple_follow. intros w held Hh. unfold addCertificate.
  ssl_step. ssl_step; [done|]. do 2 ssl_step.
  apply (certSet_insert_holds id) in Hh. ssl_step; by ssl_step.
Qed.

Lemma addCrl_holds path : triple holds (addCrlFromPemFile path) (fun _ => holds) holds.
Proof.
  apply triple_follow. intros w held Hh. unfold addCrlFromPemFile.
  do 3 ssl_step; [by ssl_step|]. ssl_step.
  apply (@owns_release openssl _ _ world _ (fclose r) (File, r) _ _ _ (handle Crl r0 ++ held));
    [done|by apply handle_some|by rewrite Permutation_middle|].
  intros _. ssl_step; [by ssl_step|].
  do 2 ssl_step; [by do 2 ssl_step|]. ssl_step. destruct Hh as [Hwf [crls Hh]].
  apply (holds_intro _ _ (r0 :: crls)); [done|]. rewrite Hh, fmap_cons.
  rewrite !app_assoc. apply Permutation_middle.
Qed.

Lemma verify_holds id : triple holds (_ ← verify id; mret tt) (fun _ => holds) holds.
Proof.
  apply (triple_bind _ _ _ (fun _ => holds)); [|intros; by apply triple_ret].
  apply triple_follow. intros w held Hh. unfold verify.
  ssl_step. ssl_step; [done|]. do 2 ssl_step; [by ssl_step|].
  do 2 ssl_step; [by do 2 ssl_step|]. by do 3 ssl_step.
Qed.

Lemma op_holds o : triple holds (run_op o) (fun _ => holds) holds.
Proof.
  destruct o; simpl.
  - apply new_certificate_holds.
  - apply triple_follow. intros w held Hh.
    eapply triple_weaken; [apply (drop_ref_triple (handle Store (nativeStore w)) false id w)
      |by intros ? ? [-> ->]| |done].
    intros [] w' held' [[Hn _] Hh']. unfold holds. by rewrite Hn.
  - apply addCertificate_holds.
  - apply addCrl_holds.
  - apply verify_holds.
Qed.

Lemma X509Store_holds :
  triple (fun w held => certs w = ∅ /\ held = []) X509Store (fun _ => holds)
    (fun _ held => held = []).
Proof.
  apply triple_follow. intros w held [Hc ->]. unfold X509Store. do 3 ssl_step; [by ssl_step|].
  do 2 ssl_step. apply (holds_intro _ _ []).
  - unfold wf, set_store. simpl. rewrite Hc. apply map_Forall_empty.
  - unfold ptrs, set_store. simpl. rewrite Hc, map_to_list_empty. by rewrite handle_some.
Qed.

(** Every block is among [ids]. *)
Definition covers (ids : list nat) (w : world) : Prop :=
  forall id, is_Some (certs w !! id) -> id ∈ ids.

Lemma covers_all w : covers (map_to_list (certs w)).*1 w.
Proof.
  intros id [c Hc]. apply list_elem_of_fmap. exists (id, c). by rewrite elem_of_map_to_list.
Qed.

Lemma covers_cleared b ids ids' w w' : cleared b ids' w w' -> covers ids w -> covers ids w'.
Proof. intros [_ H] Hc id [c Hid]. destruct (H id c Hid) as (c0 & Hc0 & _). apply Hc. by rewrite Hc0. Qed.

(** Once the references of both sides are dropped there is no block left. *)
Lemma cleared_gone b ids1 ids2 w1 w2 w3 :
  covers ids1 w1 -> covers ids2 w2 ->
  cleared b ids1 w1 w2 -> cleared (negb b) ids2 w2 w3 -> wf w3 -> certs w3 = ∅.
Proof.
  intros Hids1 Hids2 [_ H1] [_ H2] Hwf. apply map_eq. intros i. rewrite lookup_empty.
  destruct (certs w3 !! i) as [c3|] eqn:H3; [|done].
  destruct (H2 i c3 H3) as (c2 & Hc2 & Hf2 & Hi2). destruct (H1 i c2 Hc2) as (c1 & Hc1 & _ & Hi1).
  destruct (Hwf i c3 H3) as [_ Hf]. exfalso.
  assert (flag (negb b) c3 = false) as Hn by (apply Hi2, Hids2; by rewrite Hc2).
  assert (flag b c2 = false) as Hb by (apply Hi1, Hids1; by rewrite Hc1).
  assert (flag b c3 = false) as Hb3.
  { destruct (flag b c3) eqn:Hx; [|done]. apply Hf2 in Hx. congruence. }
  destruct b; simpl in *; rewrite Hn, Hb3 in Hf; done.
Qed.

Lemma store_destroy_triple w0 X :
  triple (fun w held => w = w0 /\ holds w held) store_destroy
    (fun _ w held => cleared true (map_to_list (certs w0)).*1 w0 w /\ holding [] w held) X.
Proof.
  apply triple_follow. intros w held [-> [Hwf [crls Hh]]]. unfold store_destroy. ssl_step.
  apply (triple_bind _ _ _ (fun _ w held => w = w0 /\ holding [] w held)).
  - destruct (nativeStore w0 =? 0) eqn:Hs; simpl negb; cbv iota.
    + ssl_step. rewrite handle_none in Hh by done. split; [done|]. by split; [|exists crls].
    + apply (@owns_release openssl _ _ world _ (X509_STORE_free (nativeStore w0))
        (Store, nativeStore w0) _ _ _ (ptrs w0 ++ (pair Crl <$> crls)));
        [done|by apply handle_some|by rewrite Hh, handle_some|].
      intros _. ssl_step. split; [done|]. by split; [|exists crls].
  - intros []. apply drop_refs_triple.
Qed.

Lemma finish_triple store_first :
  triple holds (finish store_first)
    (fun _ _ held => exists crls : list Z, held ≡ₚ pair Crl <$> crls)
    (fun _ held => exists crls : list Z, held ≡ₚ pair Crl <$> crls).
Proof.
  apply triple_follow. intros w held Hh. unfold finish. ssl_step.
  destruct store_first.
  - apply (triple_bind _ _ _ (fun _ w2 held =>
      cleared true (map_to_list (certs w)).*1 w w2 /\ holding [] w2 held)).
    { eapply triple_weaken; [apply (store_destroy_triple w)|by intros ? ? [-> ->]|done|intros ? ? H; exact H]. }
    intros []. apply triple_follow. intros w2 held2 [Hc2 Hh2].
    eapply triple_weaken; [apply (drop_refs_triple [] false _ w2)|by intros ? ? [-> ->]| |intros ? ? H; exact H].
    intros [] w3 held3 [Hc3 [Hwf [crls Hh3]]]. exists crls. rewrite Hh3.
    unfold ptrs. rewrite (cleared_gone true _ _ w w2 w3 (covers_all w)
      (covers_cleared _ _ _ _ _ Hc2 (covers_all w)) Hc2 Hc3 Hwf). by rewrite map_to_list_empty.
  - apply (triple_bind _ _ _ (fun _ w2 held =>
      cleared false (map_to_list (certs w)).*1 w w2 /\ holds w2 held)).
    { eapply triple_weaken; [apply (drop_refs_triple (handle Store (nativeStore w)) false _ w)
        |by intros ? ? [-> ->]| |intros ? ? H; exact H].
      intros [] w2 held2 [Hc2 Hh2]. split; [done|]. unfold holds. by rewrite (proj1 Hc2). }
    intros []. apply triple_follow. intros w2 held2 [Hc2 Hh2].
    eapply triple_weaken; [apply (store_destroy_triple w2)|by intros ? ? [-> ->]| |intros ? ? H; exact H].
    intros [] w3 held3 [Hc3 [Hwf [crls Hh3]]]. exists crls. rewrite Hh3.
    unfold ptrs. rewrite (cleared_gone false _ _ w w2 w3 (covers_all w) (covers_all w2) Hc2 Hc3 Hwf).
    by rewrite map_to_list_empty.
Qed.

(** C37. Over the life of a store and of any certificates, whatever OpenSSL and the files answer,
    whatever throws and whichever goes first at the end, every certificate, context, file and
    buffer taken is given back exactly once, a certificate added to the store included; the
    exception is the revocation lists, of which [addCrlFromPemFile] never frees one that the
    store accepted. *)
Theorem store_frees_all_but_crls ops store_first E r s h :
  life ops store_first E (World 0 ∅) [] = (r, s, h) ->
  exists crls : list Z, acquires E [] h ≡ₚ releases h ++ (pair Crl <$> crls).
Proof.
  intros H.
  assert (triple (fun w held => certs w = ∅ /\ held = []) (life ops store_first)
    (fun _ _ held => exists crls : list Z, held ≡ₚ pair Crl <$> crls)
    (fun _ held => exists crls : list Z, held ≡ₚ pair Crl <$> crls)) as Ht.
  { apply (triple_bind _ _ _ (fun _ => holds)).
    - eapply triple_weaken; [apply X509Store_holds|done|done|]. intros ? ? ->. by exists [].
    - intros []. apply (triple_lifetime run_op (finish store_first) holds);
        [apply op_holds|apply finish_triple]. }
  destruct (Ht E (World 0 ∅) [] [] _ _ _ (conj eq_refl eq_refl) H) as (cs & held & -> & Hb & Hpost).
  assert (exists crls : list Z, held ≡ₚ pair Crl <$> crls) as [crls Hc] by (by destruct r).
  exists crls. simpl in *. rewrite app_nil_r in Hb. by rewrite Hb, Hc.
Qed.

(** A certificate given to the store outlives the user's object: dropping the object does not
    free it, and the destructor of the store frees it after the store itself. *)
Theorem certificate_outlives_user id p w (E : @env openssl) h :
  certs w = {[ id := Shared p true false ]} -> nativeStore w <> 0 ->
  E (h : list sslcall) (X509_STORE_add_cert (nativeStore w) p : sslcall) <> 0 ->
  history ((_ ← addCertificate id; _ ← drop_ref false id; store_destroy) E w h) =
    h ++ [X509_STORE_add_cert (nativeStore w) p; X509_STORE_free (nativeStore w); X509_free p].
Proof.
  destruct w as [ns cs]. simpl. intros -> Hns Hok.
  assert (addCertificate id E (World ns {[id := Shared p true false]}) h =
    (Ok tt, World ns {[id := Shared p true true]}, h ++ [X509_STORE_add_cert ns p])) as Ha.
  { unfold addCertificate. rewrite bind_get. unfold the_certificate. simpl.
    rewrite lookup_singleton_eq. simpl. rewrite bind_lift, bind_modify.
    erewrite bind_ok by reflexivity.
    rewrite (if_false (_ =? 0)) by (by apply Z.eqb_neq).
    unfold certSet_insert, in_certSet, put. simpl. rewrite lookup_singleton_eq, map_to_list_singleton.
    simpl. by rewrite insert_singleton_eq. }
  assert (forall h, drop_ref false id E (World ns {[id := Shared p true true]}) h =
    (Ok tt, World ns {[id := Shared p false true]}, h)) as Hd.
  { intros h0. unfold drop_ref. rewrite bind_get. simpl. rewrite lookup_singleton_eq. simpl.
    unfold modify, put. simpl. by rewrite insert_singleton_eq. }
  erewrite bind_ok by exact Ha. erewrite bind_ok by apply Hd.
  unfold store_destroy. rewrite bind_get. simpl. rewrite (if_true (negb _)).
  2: { by apply negb_true_iff, Z.eqb_neq. }
  erewrite bind_ok; [|by erewrite bind_ok by reflexivity]. rewrite map_to_list_singleton. simpl.
  unfold drop_ref. erewrite bind_ok.
  2: { rewrite bind_get. simpl. rewrite lookup_singleton_eq. simpl. rewrite bind_modify.
       by erewrite bind_ok by reflexivity. }
  unfold history, mret, prog_ret. simpl. by rewrite <-!app_assoc.
Qed.

Lemma store_frees_all_but_crls_witness : exists crls : list Z,
  acquires bit_library []
    (history (life [NewCert (CertFromPem [1]); AddCert 0; AddCrl "crl"; DropCert 0; Verify 0] true
      bit_library (World 0 ∅) [])) ≡ₚ
  releases (history (life [NewCert (CertFromPem [1]); AddCert 0; AddCrl "crl"; DropCert 0; Verify 0]
    true bit_library (World 0 ∅) [])) ++ (pair Crl <$> crls).
Proof.
  eapply (store_frees_all_but_crls [NewCert (CertFromPem [1]); AddCert 0; AddCrl "crl"; DropCert 0;
    Verify 0] true bit_library). vm_compute. reflexivity.
Defined.

Lemma certificate_outlives_user_witness :
  history ((_ ← addCertificate 0; _ ← drop_ref false 0; store_destroy) bit_library
    (World 5 {[ 0%nat := Shared 7 true false ]}) []) =
    [X509_STORE_add_cert 5 7; X509_STORE_free 5; X509_free 7].
Proof. by apply (certificate_outlives_user 0 7 (World 5 _) bit_library []). Defined.
