(* ===== verification/DiffieHellman.v ===== *)
(** * Key agreement (src/crypto/dh/DiffieHellman.cpp)

    The object holds a session of OpenSSL, 0 when there is none.  The contract of the library, for
    the agreement, follows the state of each session and number: parameters set, key generated,
    components read. *)

From S2P Require Import Prelude Ownership Memory Numbers OpenSsl Io Hash.

Record DiffieHellman := Dhs { dh : Z }.
Definition no_session : DiffieHellman := Dhs 0.

Definition destroy : ssl_prog DiffieHellman unit :=
  this ← get;
  if negb (dh this =? 0) then _ ← sys (DH_free (dh this) : sslcall); mret tt else mret tt.

(** The failing branch frees the session but keeps its address in [dh].  [DH_set0_pqg] is asked
    only when both numbers could be made. *)
Definition createSession (generator primeModulus : list Z) : ssl_prog DiffieHellman unit :=
  this ← get;
  _ ← (if negb (dh this =? 0) then _ ← sys (DH_free (dh this) : sslcall); mret tt else mret tt);
  d ← sys (DH_new : sslcall);
  _ ← modify (fun _ => Dhs d);
  if d =? 0 then throw "DH_new(...) failed"
  else
    _ ← lift (safeNumericCast int_t size_t (Z.of_nat (length primeModulus)));
    pBn ← sys (BN_bin2bn primeModulus 0 : sslcall);
    _ ← lift (safeNumericCast int_t size_t (Z.of_nat (length generator)));
    gBn ← sys (BN_bin2bn generator 0 : sslcall);
    ok ← (if (pBn =? 0) || (gBn =? 0) then mret 0 else sys (DH_set0_pqg d pBn gBn : sslcall));
    if ok =? 0 then
      _ ← sys (DH_free d : sslcall);
      _ ← sys (BN_free pBn : sslcall);
      _ ← sys (BN_free gBn : sslcall);
      throw "Invalid DiffieHellman parameters"
    else
      '(ret, ec) ← sys (DH_check d : sslcall);
      if negb (ret =? 1) then throw "Invalid DiffieHellman parameters"
      else
        _ ← sys (DH_generate_key d : sslcall);
        mret tt.

Definition getSize : ssl_prog DiffieHellman Z :=
  this ← get;
  if dh this =? 0 then mret 0
  else n ← sys (DH_size (dh this) : sslcall); mret (u64 n).

(** The library reads the session it is given without looking whether there is one. *)
Definition session_of (this : DiffieHellman) : res Z :=
  if dh this =? 0 then UB "null session" else Ok (dh this).

(** [resize] of a vector of bytes to an [int]: a negative one becomes a size no vector has. *)
Definition resize_to (v : list Z) (n : Z) : res (list Z) :=
  if u64 n >? 2 ^ 63 - 1 then Throw "std::length_error" else Ok (resized v (u64 n)).

Definition getPublicComponent : ssl_prog DiffieHellman (list Z) :=
  this ← get;
  d ← lift (session_of this);
  pubKeyBn ← sys (DH_get0_key d : sslcall);
  byteSize ← sys (BN_num_bytes pubKeyBn : sslcall);
  pubKey ← lift (new_vector (u64 byteSize));
  bytes ← sys (BN_bn2bin pubKeyBn : sslcall);
  pubKey' ← lift (store pubKey 0 bytes);
  mret (resized pubKey' (Z.of_nat (length bytes))).

Definition computeSharedSecret (otherPeerPublicComponent : list Z) :
  ssl_prog DiffieHellman (list Z) :=
  this ← get;
  _ ← lift (safeNumericCast int_t size_t (Z.of_nat (length otherPeerPublicComponent)));
  bn ← sys (BN_new : sslcall);
  peer ← sys (BN_bin2bn otherPeerPublicComponent bn : sslcall);
  d ← lift (session_of this);
  size ← sys (DH_size d : sslcall);
  sharedSecret ← lift (new_vector (u64 size));
  '(n, bytes) ← sys (DH_compute_key peer d : sslcall);
  sharedSecret' ← lift (store sharedSecret 0 bytes);
  lift (resize_to sharedSecret' n).

Definition computeSharedSecret_hash (otherPeerPublicComponent : list Z) (a : HashAlgorithm) :
  ssl_prog DiffieHellman (list Z) :=
  sharedSecret ← computeSharedSecret otherPeerPublicComponent;
  hash a sharedSecret.

(** ** Defects of the session *)

(** When the library refuses the numbers of a session, [createSession] frees the session and
    throws, but keeps its address: the destructor frees it a second time. *)
Theorem refused_session_freed_twice generator prime (E : @env openssl) h :
  let d := E h (DH_new : sslcall) in
  let h1 := h ++ [DH_new] in
  let p := E h1 (BN_bin2bn prime 0 : sslcall) in
  let h2 := h1 ++ [BN_bin2bn prime 0] in
  let g := E h2 (BN_bin2bn generator 0 : sslcall) in
  let h3 := h2 ++ [BN_bin2bn generator 0] in
  d <> 0 -> p <> 0 -> g <> 0 ->
  Z.of_nat (length prime) <= INT_MAX -> Z.of_nat (length generator) <= INT_MAX ->
  E h3 (DH_set0_pqg d p g : sslcall) = 0 ->
  let run := createSession generator prime E no_session h in
  throws (outcome run) /\
  releases (history (destroy E (object run) (history run))) =
    releases h ++ [(Dh, d); (Bn, p); (Bn, g); (Dh, d)].
Proof.
  intros d h1 p h2 g h3 Hd Hp Hg Hlp Hlg Hset run.
  assert (run = (Throw "Invalid DiffieHellman parameters", Dhs d,
    h ++ [DH_new; BN_bin2bn prime 0; BN_bin2bn generator 0; DH_set0_pqg d p g; DH_free d;
          BN_free p; BN_free g])) as ->.
  { unfold run, createSession. rewrite bind_get. simpl (dh _). simpl negb. cbv iota.
    erewrite bind_ok by reflexivity. erewrite bind_ok by reflexivity. fold d. rewrite bind_modify.
    rewrite (if_false (d =? 0)) by (by apply Z.eqb_neq).
    rewrite bind_lift, safeNumericCast_size_int by lia. erewrite bind_ok by reflexivity.
    rewrite bind_lift, safeNumericCast_size_int by lia. erewrite bind_ok by reflexivity.
    rewrite (if_false (_ || _)) by (apply orb_false_iff; by rewrite !Z.eqb_neq).
    erewrite bind_ok by reflexivity.
    rewrite (if_true (_ =? 0)) by (apply Z.eqb_eq; exact Hset).
    do 3 erewrite bind_ok by reflexivity. unfold throw, p, g, h2, h1.
    by rewrite <-!app_assoc. }
  split; [by eexists|]. unfold object, history. simpl fst. simpl snd.
  unfold destroy. rewrite bind_get. cbn [dh].
  rewrite (if_true (negb _)) by (by apply negb_true_iff, Z.eqb_neq).
  erewrite bind_ok by reflexivity. unfold mret, prog_ret. simpl snd. rewrite <-app_assoc.
  etrans; [apply (releases_app (R := ssl_resources) h)|]. f_equal.
  unfold releases. simpl. by rewrite !handle_some by (by apply Z.eqb_neq).
Qed.

(** ** Numbers as bytes *)

Definition be_val (bytes : list Z) : Z := le_val (rev bytes).
Definition nbytes (v : Z) : nat := if v =? 0 then 0%nat else Z.to_nat (Z.log2 v / 8 + 1).
Definition bn_bytes (v : Z) : list Z := rev (le_bytes (nbytes v) v).

Lemma length_bn_bytes v : length (bn_bytes v) = nbytes v.
Proof. unfold bn_bytes. by rewrite length_rev, length_le_bytes. Qed.

Lemma nbytes_spec v : 0 <= v -> v < 256 ^ Z.of_nat (nbytes v).
Proof.
  intros Hv. unfold nbytes. destruct (Z.eqb_spec v 0) as [->|Hn]; [done|].
  rewrite Z2Nat.id by (pose proof (Z.log2_nonneg v); Z.to_euclidean_division_equations; lia).
  change 256 with (2 ^ 8). rewrite <-Z.pow_mul_r.
  2-3: pose proof (Z.log2_nonneg v); Z.to_euclidean_division_equations; lia.
  apply Z.lt_le_trans with (2 ^ Z.succ (Z.log2 v)); [apply Z.log2_spec; lia|].
  apply Z.pow_le_mono_r; [lia|]. Z.to_euclidean_division_equations; lia.
Qed.

Lemma be_val_bn_bytes v : 0 <= v -> be_val (bn_bytes v) = v.
Proof.
  intros Hv. unfold be_val, bn_bytes. rewrite rev_involutive. apply le_val_le_bytes_small.
  split; [done|by apply nbytes_spec].
Qed.

Lemma nbytes_le v n : 0 <= v < 256 ^ Z.of_nat n -> (nbytes v <= n)%nat.
Proof.
  intros Hv. unfold nbytes. destruct (Z.eqb_spec v 0) as [->|Hn]; [lia|].
  assert (Hl : Z.log2 v < 8 * Z.of_nat n).
  { apply Z.log2_lt_pow2; [lia|]. change 256 with (2 ^ 8) in Hv. rewrite <-Z.pow_mul_r in Hv; lia. }
  pose proof (Z.log2_nonneg v). assert (Z.log2 v / 8 < Z.of_nat n) by (apply Z.div_lt_upper_bound; lia).
  lia.
Qed.

Lemma nbytes_mono v w : 0 <= v <= w -> (nbytes v <= nbytes w)%nat.
Proof. intros. apply nbytes_le. pose proof (nbytes_spec w). lia. Qed.

Lemma be_val_bound bytes : Forall is_byte bytes -> 0 <= be_val bytes < 256 ^ Z.of_nat (length bytes).
Proof. intros Hb. unfold be_val. rewrite <-length_rev. apply le_val_bound. by apply Forall_rev. Qed.

(** ** The contract of the library

    [replay] follows the values of the numbers and the sessions that a history of calls, with the
    answers it got, has made; [x] is the private exponent the library draws.  A session has a
    public component only after [DH_generate_key]; the numbers that were given to it, and the
    component that was read out of it, go when it is freed. *)
Record dh_session := Session
  { modulus : Z; generator : Z; has_key : bool; session_numbers : list Z }.
Record bn_state := BnState { numbers : gmap Z Z; sessions : gmap Z dh_session }.
Definition bn_step (x : Z) (c : ssl_call) : ssl_reply c -> bn_state -> bn_state :=
  match c as c return ssl_reply c -> bn_state -> bn_state with
  | BN_new => fun r st => BnState (<[r := 0]> (numbers st)) (sessions st)
  | BN_bin2bn data _ => fun r st =>
      if r =? 0 then st else BnState (<[r := be_val data]> (numbers st)) (sessions st)
  | BN_free bn => fun _ st => BnState (delete bn (numbers st)) (sessions st)
  | DH_new => fun r st => BnState (numbers st) (delete r (sessions st))
  | DH_set0_pqg d p g => fun r st =>
      match numbers st !! p, numbers st !! g with
      | Some vp, Some vg =>
          if r =? 0 then st
          else BnState (numbers st) (<[d := Session vp vg false [p; g]]> (sessions st))
      | _, _ => st
      end
  | DH_generate_key d => fun r st =>
      match sessions st !! d with
      | Some s =>
          if r =? 0 then st
          else BnState (numbers st)
            (<[d := Session (modulus s) (generator s) true (session_numbers s)]> (sessions st))
      | None => st
      end
  | DH_get0_key d => fun r st =>
      match sessions st !! d with
      | Some (Session p g true ns) =>
          BnState (<[r := g ^ x mod p]> (numbers st))
            (<[d := Session p g true (r :: ns)]> (sessions st))
      | _ => st
      end
  | DH_free d => fun _ st =>
      match sessions st !! d with
      | Some s => BnState (foldr delete (numbers st) (session_numbers s)) (delete d (sessions st))
      | None => st
      end
  | _ => fun _ st => st
  end.
Fixpoint replay_from (x : Z) (E : @env openssl) (past cs : list ssl_call) (st : bn_state) :=
  match cs with
  | [] => st
  | c :: cs' => replay_from x E (past ++ [c]) cs' (bn_step x c (E past c) st)
  end.
Definition replay (x : Z) (E : @env openssl) (h : list ssl_call) : bn_state :=
  replay_from x E [] h (BnState ∅ ∅).

(** The sizes of modulus the library computes with, and the values of [p] it accepts from the other
    party and as a secret: neither 0, 1 nor [p - 1]. *)
Definition modulus_taken (p : Z) : Prop := 2 ^ 511 <= p < 2 ^ 10000.
Definition value_taken (p v : Z) : Prop := 1 < v < p - 1.

Lemma replay_from_snoc x E past h c st :
  replay_from x E past (h ++ [c]) st =
  bn_step x c (E (past ++ h) c) (replay_from x E past h st).
Proof.
  revert past st. induction h as [|c0 h IH]; intros past st; simpl.
  - by rewrite app_nil_r.
  - rewrite IH. by rewrite <-(app_assoc past [c0] h).
Qed.

Lemma replay_snoc x E h c : replay x E (h ++ [c]) = bn_step x c (E h c) (replay x E h).
Proof. apply replay_from_snoc. Qed.

Record party (x : Z) (E : @env openssl) : Prop := {
  dh_new h : E h (DH_new : sslcall) <> 0;
  dh_set h d p g : E h (DH_set0_pqg d p g : sslcall) <> 0;
  dh_check h d : (E h (DH_check d : sslcall)).1 = 1;
  dh_generate h d s : sessions (replay x E h) !! d = Some s -> modulus_taken (modulus s) ->
    E h (DH_generate_key d : sslcall) <> 0;
  bn_fresh h data : let r := E h (BN_bin2bn data 0 : sslcall) in
    r <> 0 /\ numbers (replay x E h) !! r = None;
  bn_into h data bn : bn <> 0 -> E h (BN_bin2bn data bn : sslcall) = bn;
  dh_bn_new h : E h (BN_new : sslcall) <> 0;
  bn_num h bn v : numbers (replay x E h) !! bn = Some v ->
    E h (BN_num_bytes bn : sslcall) = Z.of_nat (nbytes v);
  bn_out h bn v : numbers (replay x E h) !! bn = Some v ->
    E h (BN_bn2bin bn : sslcall) = bn_bytes v;
  dh_size h d s : sessions (replay x E h) !! d = Some s ->
    E h (DH_size d : sslcall) = Z.of_nat (nbytes (modulus s));
  dh_key h d p g ns bn y : sessions (replay x E h) !! d = Some (Session p g true ns) ->
    numbers (replay x E h) !! bn = Some y ->
    modulus_taken p -> value_taken p y -> value_taken p (y ^ x mod p) ->
    E h (DH_compute_key bn d : sslcall) =
      (Z.of_nat (nbytes (y ^ x mod p)), bn_bytes (y ^ x mod p)) }.

(** A session with modulus [p], generator [g] and a key in the history [h]. *)
Definition in_session (x : Z) (E : @env openssl) (h : list ssl_call) (d p g : Z) : Prop :=
  d <> 0 /\ exists ns, sessions (replay x E h) !! d = Some (Session p g true ns).

Lemma session_run x G P (E : @env openssl) h :
  party x E -> modulus_taken (be_val P) ->
  Z.of_nat (length P) <= INT_MAX -> Z.of_nat (length G) <= INT_MAX ->
  exists d h', createSession G P E no_session h = (Ok tt, Dhs d, h') /\
    in_session x E h' d (be_val P) (be_val G).
Proof.
  intros HE Hmod HP HG. set (d := E h (DH_new : sslcall)).
  assert (Hd : d <> 0) by apply (dh_new _ _ HE).
  set (h1 := h ++ [DH_new]). destruct (bn_fresh _ _ HE h1 P) as [Hp _]. set (p := E h1 _) in Hp.
  set (h2 := h1 ++ [BN_bin2bn P 0]). destruct (bn_fresh _ _ HE h2 G) as [Hg Hfr].
  set (g := E h2 _) in Hg, Hfr. set (h3 := h2 ++ [BN_bin2bn G 0]).
  set (h4 := (h3 ++ [DH_set0_pqg d p g]) ++ [DH_check d]).
  pose proof (dh_set _ _ HE h3 d p g) as Hset.
  assert (Hs4 : sessions (replay x E h4) !! d = Some (Session (be_val P) (be_val G) false [p; g])).
  { assert (Hgp : g <> p).
    { intros Heq. revert Hfr. rewrite Heq. unfold h2. rewrite replay_snoc. cbn [bn_step].
      fold p. rewrite (if_false (p =? 0)) by (by apply Z.eqb_neq). simpl.
      by rewrite lookup_insert_eq. }
    unfold h4. do 2 rewrite replay_snoc. cbn [bn_step]. unfold h3. rewrite replay_snoc. fold h3. cbn [bn_step]. fold g.
    rewrite (if_false (g =? 0)) by (by apply Z.eqb_neq). unfold h2. rewrite replay_snoc. fold h2.
    cbn [bn_step]. fold p. rewrite (if_false (p =? 0)) by (by apply Z.eqb_neq).
    cbn [numbers sessions]. rewrite lookup_insert_ne by exact Hgp. rewrite !lookup_insert_eq.
    rewrite (if_false (_ =? 0)) by (by apply Z.eqb_neq). apply lookup_insert_eq. }
  exists d, (h4 ++ [DH_generate_key d]). split; [|split; [done|]].
  - unfold createSession. rewrite bind_get. simpl (dh _). simpl negb. cbv iota.
    erewrite bind_ok by reflexivity. erewrite bind_ok by reflexivity. fold d. rewrite bind_modify.
    rewrite (if_false (d =? 0)) by (by apply Z.eqb_neq).
    rewrite bind_lift, safeNumericCast_size_int by lia. erewrite bind_ok by reflexivity.
    rewrite bind_lift, safeNumericCast_size_int by lia. erewrite bind_ok by reflexivity.
    rewrite (if_false (_ || _)) by (apply orb_false_iff; by rewrite !Z.eqb_neq).
    erewrite bind_ok by reflexivity.
    rewrite (if_false (_ =? 0)) by (apply Z.eqb_neq; exact Hset).
    erewrite bind_ok by reflexivity.
    match goal with |- context [E ?h' (DH_check d)] => pose proof (dh_check _ _ HE h' d) as Hck;
      destruct (E h' (DH_check d)) as [ret ec] end.
    simpl in Hck. rewrite Hck. rewrite (if_false (negb _)) by done.
    erewrite bind_ok by reflexivity. reflexivity.
  - exists [p; g]. rewrite replay_snoc. cbn [bn_step].
    change (reply _) with Z in Hs4. rewrite Hs4.
    pose proof (dh_generate _ _ HE h4 d _ Hs4 Hmod) as Hgen. change (ssl_reply _) with Z in Hgen.
    rewrite (if_false (_ =? 0)) by (by apply Z.eqb_neq). apply lookup_insert_eq.
Qed.

Lemma public_run x (E : @env openssl) h d p g :
  party x E -> in_session x E h d p g -> 0 < p -> Z.of_nat (nbytes p) <= INT_MAX ->
  exists h', getPublicComponent E (Dhs d) h = (Ok (bn_bytes (g ^ x mod p)), Dhs d, h') /\
    in_session x E h' d p g.
Proof.
  intros HE [Hd [ns Hs]] Hp Hlen. set (v := g ^ x mod p).
  assert (Hv : 0 <= v < p) by (by apply Z.mod_pos_bound).
  pose proof (nbytes_mono v p ltac:(lia)). assert (INT_MAX = 2 ^ 31 - 1) by done.
  set (bn := E h (DH_get0_key d : sslcall)).
  assert (Hst : replay x E (h ++ [DH_get0_key d]) =
    BnState (<[bn := v]> (numbers (replay x E h)))
      (<[d := Session p g true (bn :: ns)]> (sessions (replay x E h)))).
  { rewrite replay_snoc. cbn [bn_step]. by rewrite Hs. }
  assert (Hn : numbers (replay x E (h ++ [DH_get0_key d])) !! bn = Some v)
    by (rewrite Hst; apply lookup_insert_eq).
  eexists. split.
  - unfold getPublicComponent. rewrite bind_get, bind_lift. unfold session_of. cbn [dh].
    rewrite (if_false (d =? 0)) by (by apply Z.eqb_neq).
    erewrite bind_ok by reflexivity. fold bn. erewrite bind_ok by reflexivity.
    rewrite (bn_num _ _ HE _ bn v) by exact Hn. rewrite wrap_u64_small by lia.
    rewrite bind_lift. unfold new_vector.
    rewrite (if_false (_ >? _)) by (rewrite Z.gtb_ltb; apply Z.ltb_ge; lia). rewrite Nat2Z.id.
    erewrite bind_ok by reflexivity. rewrite (bn_out _ _ HE _ bn v).
    2: { rewrite replay_snoc. exact Hn. }
    rewrite bind_lift, store_0 by (by rewrite length_replicate, length_bn_bytes).
    rewrite resized_prefix. reflexivity.
  - split; [done|]. exists (bn :: ns). do 2 rewrite replay_snoc. cbn [bn_step].
    etrans; [exact (f_equal (fun st => sessions st !! d) Hst)|].
    apply lookup_insert_eq.
Qed.

Lemma secret_run x (E : @env openssl) h d p g peer :
  party x E -> in_session x E h d p g -> modulus_taken p -> Z.of_nat (nbytes p) <= INT_MAX ->
  value_taken p (be_val peer) -> value_taken p (be_val peer ^ x mod p) ->
  Z.of_nat (length peer) <= INT_MAX ->
  exists h', computeSharedSecret peer E (Dhs d) h =
    (Ok (bn_bytes (be_val peer ^ x mod p)), Dhs d, h').
Proof.
  intros HE [Hd [ns Hs]] Hmod Hlen Hty Htv Hpeer. set (v := be_val peer ^ x mod p) in *.
  assert (Hv : 0 <= v < p) by (unfold value_taken in Htv; lia).
  pose proof (nbytes_mono v p ltac:(lia)). assert (INT_MAX = 2 ^ 31 - 1) by done.
  unfold computeSharedSecret. rewrite bind_get, bind_lift, safeNumericCast_size_int by lia.
  erewrite bind_ok by reflexivity. pose proof (dh_bn_new _ _ HE h) as Hbn.
  set (bn := E h (BN_new : sslcall)) in *. set (h1 := h ++ [BN_new]).
  assert (Hinto : E h1 (BN_bin2bn peer bn : sslcall) = bn) by (by apply (bn_into _ _ HE)).
  set (h2 := h1 ++ [BN_bin2bn peer bn]).
  assert (Hst : replay x E h2 = BnState (<[bn := be_val peer]> (numbers (replay x E h1)))
      (sessions (replay x E h))).
  { unfold h2. rewrite replay_snoc. cbn [bn_step]. rewrite Hinto, if_false by (by apply Z.eqb_neq).
    unfold h1. by rewrite replay_snoc. }
  assert (Hn : numbers (replay x E h2) !! bn = Some (be_val peer))
    by (rewrite Hst; apply lookup_insert_eq).
  assert (Hs2 : sessions (replay x E h2) !! d = Some (Session p g true ns)) by (by rewrite Hst).
  eexists. erewrite bind_ok by reflexivity. rewrite (bn_into _ _ HE _ _ _ Hbn), bind_lift. unfold session_of.
  cbn [dh]. rewrite (if_false (d =? 0)) by (by apply Z.eqb_neq).
  erewrite bind_ok by reflexivity. rewrite (dh_size _ _ HE _ d _) by exact Hs2. cbn [modulus].
  rewrite wrap_u64_small by lia.
  rewrite bind_lift. unfold new_vector.
  rewrite (if_false (_ >? _)) by (rewrite Z.gtb_ltb; apply Z.ltb_ge; lia). rewrite Nat2Z.id.
  erewrite bind_ok by reflexivity. rewrite (dh_key _ _ HE _ d p g ns bn (be_val peer)); try done.
  2-3: rewrite replay_snoc; (exact Hs2 || exact Hn).
  cbv beta iota. fold v.
  rewrite bind_lift, store_0 by (rewrite length_replicate, length_bn_bytes; lia).
  unfold lift, resize_to. rewrite wrap_u64_small by lia.
  rewrite (if_false (_ >? _)) by (rewrite Z.gtb_ltb; apply Z.ltb_ge; lia).
  by rewrite <-(length_bn_bytes v), resized_prefix.
Qed.

(** C39. Key agreement: two parties that create a session with the same generator and modulus, of a
    size the library computes with, each over a library that honours the contract with a private
    exponent of its own, and that give each other what [getPublicComponent] returns, compute the
    same shared secret, the bytes of [g ^ (x1 * x2) mod p], when the two public components and the
    secret are values the library accepts (not 0, 1 or [p - 1]). *)
Theorem key_agreement x1 x2 G P (E1 E2 : @env openssl) h1 h2 :
  party x1 E1 -> party x2 E2 -> 0 <= x1 -> 0 <= x2 ->
  let p := be_val P in let g := be_val G in
  Forall is_byte P -> modulus_taken p ->
  Z.of_nat (length P) <= INT_MAX -> Z.of_nat (length G) <= INT_MAX ->
  value_taken p (g ^ x1 mod p) -> value_taken p (g ^ x2 mod p) ->
  value_taken p (g ^ (x1 * x2) mod p) ->
  exists pub1 o1 h1' pub2 o2 h2',
    (_ ← createSession G P; getPublicComponent) E1 no_session h1 = (Ok pub1, o1, h1') /\
    (_ ← createSession G P; getPublicComponent) E2 no_session h2 = (Ok pub2, o2, h2') /\
    let secret := bn_bytes (g ^ (x1 * x2) mod p) in
    outcome (computeSharedSecret pub2 E1 o1 h1') = Ok secret /\
    outcome (computeSharedSecret pub1 E2 o2 h2') = Ok secret.
Proof.
  intros H1 H2 Hx1 Hx2 p g HPb Hmod HP HG Hv1 Hv2 Hvs. pose proof (be_val_bound P HPb) as Hb.
  fold p in Hb. assert (HP0 : 0 < p) by (unfold value_taken in Hv1; lia).
  assert (Hl : Z.of_nat (nbytes p) <= INT_MAX) by (pose proof (nbytes_le p (length P) Hb); lia).
  assert (Hside : forall x (E : @env openssl) h, party x E ->
    exists o h', (_ ← createSession G P; getPublicComponent) E no_session h =
      (Ok (bn_bytes (g ^ x mod p)), o, h') /\
      forall y, 0 <= x -> 0 <= y ->
        value_taken p (g ^ y mod p) -> value_taken p (g ^ (y * x) mod p) ->
        outcome (computeSharedSecret (bn_bytes (g ^ y mod p)) E o h') =
        Ok (bn_bytes (g ^ (y * x) mod p))).
  { intros x E h HE. destruct (session_run x G P E h HE Hmod HP HG) as (d & h0 & Hrun & Hs).
    destruct (public_run x E h0 d p g HE Hs HP0 Hl) as (h' & Hpub & Hin).
    exists (Dhs d), h'. split; [by erewrite bind_ok by exact Hrun|]. intros y Hx Hy Hty Hts.
    pose proof (Z.mod_pos_bound (g ^ y) p HP0).
    assert (Hval : be_val (bn_bytes (g ^ y mod p)) = g ^ y mod p)
      by (apply be_val_bn_bytes; lia).
    assert (Hpow : be_val (bn_bytes (g ^ y mod p)) ^ x mod p = g ^ (y * x) mod p)
      by (by rewrite Hval, Z.mod_pow_l, <-Z.pow_mul_r).
    destruct (secret_run x E h' d p g (bn_bytes (g ^ y mod p)) HE Hin Hmod Hl) as (h'' & Hrun').
    - by rewrite Hval.
    - by rewrite Hpow.
    - rewrite length_bn_bytes. pose proof (nbytes_mono (g ^ y mod p) p). lia.
    - unfold outcome. by rewrite Hrun', Hpow. }
  destruct (Hside x1 E1 h1 H1) as (o1 & h1' & Hr1 & Hs1).
  destruct (Hside x2 E2 h2 H2) as (o2 & h2' & Hr2 & Hs2).
  do 6 eexists. split; [exact Hr1|]. split; [exact Hr2|]. cbv zeta.
  assert (Hcomm : x2 * x1 = x1 * x2) by apply Z.mul_comm.
  by rewrite Hs1, Hs2, Hcomm by (rewrite ?Hcomm; done).
Qed.

(** [createSession] looks at whether [DH_check] could check the parameters, not at what it
    found: parameters in which the library reports problems (a modulus that is not prime, an
    unsuitable generator) are accepted. *)
Theorem unsuitable_parameters_accepted x G P (E : @env openssl) h :
  party x E -> (forall h d, (E h (DH_check d : sslcall)).2 <> 0) -> modulus_taken (be_val P) ->
  Z.of_nat (length P) <= INT_MAX -> Z.of_nat (length G) <= INT_MAX ->
  outcome (createSession G P E no_session h) = Ok tt.
Proof.
  intros HE _ Hmod HP HG. by destruct (session_run x G P E h HE Hmod HP HG) as (d & h' & -> & _).
Qed.

(** [computeSharedSecret] never frees the number it makes of the other party's component. *)
Theorem peer_number_leaks peer (E : @env openssl) s h r s' h' :
  E (h : list sslcall) (BN_new : sslcall) <> 0 -> Z.of_nat (length peer) <= INT_MAX ->
  computeSharedSecret peer E s h = (r, s', h') ->
  exists cs, h' = h ++ cs /\ releases cs = [] /\
    acquires E h cs = [(Bn, E h (BN_new : sslcall))].
Proof.
  intros Hbn Hlen. apply Z.eqb_neq in Hbn.
  unfold computeSharedSecret. rewrite bind_get, bind_lift, safeNumericCast_size_int by lia.
  erewrite bind_ok by reflexivity. erewrite bind_ok by reflexivity.
  set (bn := E h (BN_new : sslcall)) in *.
  assert (Hacq : forall cs, acquires E (h ++ [BN_new : sslcall; BN_bin2bn peer bn]) cs = [] ->
    acquires E h ([BN_new : sslcall; BN_bin2bn peer bn] ++ cs) = [(Bn, bn)]).
  { intros cs Hcs. etrans; [apply (acquires_app (R := ssl_resources) E h [_; _] cs)|].
    etrans; [apply (f_equal (app _)), Hcs|]. simpl. rewrite Hbn. by rewrite handle_some. }
  rewrite bind_lift. destruct (session_of s) as [d| | | |].
  2-5: intros [= <- <- <-]; rewrite <-app_assoc; eexists; split; [reflexivity|]; split; [done|];
    by apply (Hacq []).
  erewrite bind_ok by reflexivity. rewrite bind_lift. destruct (new_vector _) as [v| | | |].
  2-5: intros [= <- <- <-]; rewrite <-!app_assoc; eexists; split; [reflexivity|]; split; [done|];
    by apply (Hacq [_]).
  erewrite bind_ok by reflexivity. destruct (E _ (DH_compute_key _ _)) as [n bytes].
  rewrite bind_lift. destruct (store _ _ _) as [v'| | | |];
    intros [= <- <- <-]; rewrite <-!app_assoc; eexists; (split; [reflexivity|]); (split; [done|]);
    by apply (Hacq [_; _]).
Qed.

(** ** A library that computes with small numbers *)

(** Its answer after a history that led to the state [st]. *)
Definition small_reply (st : bn_state) (x : Z) (c : ssl_call) : ssl_reply c :=
  let modulus_of d := default 1 (modulus <$> sessions st !! d) in
  let number bn := default 0 (numbers st !! bn) in
  match c as c return ssl_reply c with
  | BN_bin2bn _ into => if into =? 0 then fresh ({[ 0 ]} ∪ dom (numbers st)) else into
  | BN_num_bytes bn => Z.of_nat (nbytes (number bn))
  | BN_bn2bin bn => bn_bytes (number bn)
  | DH_size d => Z.of_nat (nbytes (modulus_of d))
  | DH_compute_key bn d =>
      let v := number bn ^ x mod modulus_of d in (Z.of_nat (nbytes v), bn_bytes v)
  | c => default_reply c
  end.
Definition small_state (x : Z) (h : list ssl_call) : bn_state :=
  fold_left (fun st c => bn_step x c (small_reply st x c) st) h (BnState ∅ ∅).
Definition small_library (x : Z) : @env openssl := fun h c => small_reply (small_state x h) x c.

Lemma small_replay x h : replay x (small_library x) h = small_state x h.
Proof.
  induction h as [|c h IH] using rev_ind; [done|].
  rewrite replay_snoc, IH. unfold small_state. by rewrite fold_left_app.
Qed.

Lemma small_party x : party x (small_library x).
Proof.
  split; try done.
  - intros h data r. rewrite small_replay.
    assert (Hr : r ∉ ({[ 0 ]} ∪ dom (numbers (small_state x h)) : gset Z)) by apply is_fresh.
    split; [set_solver|]. apply not_elem_of_dom. set_solver.
  - intros h data bn Hbn. unfold small_library, small_reply. by rewrite (proj2 (Z.eqb_neq _ _) Hbn).
  - intros h bn v. rewrite small_replay. intros Hv. simpl. by rewrite Hv.
  - intros h bn v. rewrite small_replay. intros Hv. simpl. by rewrite Hv.
  - intros h d s. rewrite small_replay. intros Hv. simpl. by rewrite Hv.
  - intros h d p g ns bn y. rewrite small_replay. intros Hs Hv _ _ _. simpl. by rewrite Hs, Hv.
Qed.

(** The modulus of the examples, a number of 512 bits. *)
Definition modulus_512 : list Z := replicate 63 255 ++ [199].

Lemma modulus_512_taken : modulus_taken (be_val modulus_512).
Proof. split; vm_compute; (reflexivity || discriminate). Qed.

Lemma key_agreement_witness : let p := be_val modulus_512 in
  exists pub1 o1 h1' pub2 o2 h2',
  (_ ← createSession [5] modulus_512; getPublicComponent) (small_library 30) no_session [] =
    (Ok pub1, o1, h1') /\
  (_ ← createSession [5] modulus_512; getPublicComponent) (small_library 40) no_session [] =
    (Ok pub2, o2, h2') /\
  let secret := bn_bytes (be_val [5] ^ (30 * 40) mod p) in
  outcome (computeSharedSecret pub2 (small_library 30) o1 h1') = Ok secret /\
  outcome (computeSharedSecret pub1 (small_library 40) o2 h2') = Ok secret.
Proof.
  apply (key_agreement 30 40 [5] modulus_512 (small_library 30) (small_library 40) [] []
    (small_party 30) (small_party 40)); try (vm_compute; discriminate).
  - apply Forall_app. split; [apply Forall_replicate|apply Forall_singleton]; split; done.
  - apply modulus_512_taken.
  - split; vm_compute; reflexivity.
  - split; vm_compute; reflexivity.
  - split; vm_compute; reflexivity.
Defined.

(** The small library finding every modulus unsuitable. *)
Definition strict_library (x : Z) : @env openssl := fun h c =>
  match c as c return ssl_reply c with DH_check _ => (1, 1) | c => small_library x h c end.

Lemma strict_replay x h : replay x (strict_library x) h = replay x (small_library x) h.
Proof.
  induction h as [|c h IH] using rev_ind; [done|]. rewrite !replay_snoc, IH. by destruct c.
Qed.

Lemma strict_party x : party x (strict_library x).
Proof.
  pose proof (small_party x) as H. split; try done.
  - intros h data. rewrite strict_replay. apply (bn_fresh _ _ H).
  - apply (bn_into _ _ H).
  - intros h bn v. rewrite strict_replay. apply (bn_num _ _ H).
  - intros h bn v. rewrite strict_replay. apply (bn_out _ _ H).
  - intros h d s. rewrite strict_replay. apply (dh_size _ _ H).
  - intros h d p g ns bn y. rewrite strict_replay. apply (dh_key _ _ H).
Qed.

Lemma unsuitable_parameters_accepted_witness :
  outcome (createSession [5] modulus_512 (strict_library 6) no_session []) = Ok tt.
Proof.
  apply (unsuitable_parameters_accepted 6 [5] modulus_512 (strict_library 6) [] (strict_party 6)).
  - intros h d. discriminate.
  - apply modulus_512_taken.
  - vm_compute. discriminate.
  - vm_compute. discriminate.
Defined.

Definition refusing_library : @env openssl := fun h c =>
  match c as c return ssl_reply c with DH_set0_pqg _ _ _ => 0 | c => default_reply c end.
Lemma refused_session_freed_twice_witness :
  let run := createSession [5] [24] refusing_library no_session [] in
  throws (outcome run) /\
  releases (history (destroy refusing_library (object run) (history run))) =
    [(Dh, 1); (Bn, 1); (Bn, 1); (Dh, 1)].
Proof.
  apply (refused_session_freed_twice [5] [24] refusing_library []); vm_compute;
    (reflexivity || discriminate).
Defined.

Lemma peer_number_leaks_witness : exists cs,
  history (computeSharedSecret [3] (small_library 6) (Dhs 1) []) = [] ++ cs /\
  releases cs = [] /\ acquires (small_library 6) [] cs = [(Bn, 1)].
Proof.
  eapply (peer_number_leaks [3] (small_library 6) (Dhs 1) []);
    vm_compute; (reflexivity || discriminate).
Defined.
