(* ===== verification/FileExamples.v ===== *)
(** * Two programs on files (examples/EncryptDecryptFile/main.cpp, examples/DigitalSign/main.cpp)

    Clients of the crypto extension: one encrypts a file and decrypts it again, the other signs a
    file and verifies the signature with a certificate.  Their theorems compose those of the classes
    they use: what one hands to the next is what the other's contract asks for. *)

From stdpp Require Import pretty.
From S2P Require Import Prelude Ownership Memory SymmetricKey Cipher OpenSsl Io EvpKey Signature Certificate.

(** ** EncryptDecryptFile *)

Definition example_iv : list Z := replicate 16 0.
Definition keyBuffer : list Z := [1; 2; 3; 4; 5; 6; 7; 8; 9; 10; 11; 12; 13; 14; 15; 16].

(** A call into the cipher classes, whose library is [Ec] and has been asked for the calls of the
    state. *)
Definition cipher_call {A} (m : list evpcall -> res A * list evpcall) : ssl_prog (list evpcall) A :=
  fun _ s h => let '(r, s') := m s in (r, s', h).

(** The program on the file named: whether the encrypted bytes equal the decrypted ones, and
    whether the contents do, which it prints. *)
Definition EncryptDecryptFile_main (Ec : @env evp) (filePath : string)
  : ssl_prog (list evpcall) (bool * bool) :=
  let ea := AES_128_CBC in
  key ← lift (createSymmetricKey keyBuffer ea);
  k ← lift (match key_bytes ea key with Some k => Ok k | None => UB "no key" end);
  fileContent ← readFileContent filePath standardIoErrorEventHandler;
  encrypted ← cipher_call (encrypt_vector k ea example_iv fileContent Ec);
  decrypted ← cipher_call (decrypt_vector k ea example_iv encrypted Ec);
  _ ← writeFileContent (filePath +:+ ".enc") encrypted standardIoErrorEventHandler;
  _ ← lift (drop_key ea key);
  mret (bool_decide (encrypted = decrypted), bool_decide (fileContent = decrypted)).

(** A file encrypted: over a library that honours the contract of the cipher, needs no room but for
    what it stores when it decrypts (which is more than is documented, see
    [Cipher.decrypt_vector_in_place]) and a disk that keeps what it is given, the program finds the contents equal to what it decrypted (and the encrypted
    bytes different), and leaves the ciphertext of the file in a new one, the others as they were. *)
Theorem file_encrypted_and_back ct start Ec (E : @env openssl) path content s h :
  cipher_laws ct -> encrypts ct Ec -> decrypts ct 0 Ec -> stores start E ->
  (files start h).1 !! path = Some content -> Z.of_nat (length content) + 16 <= INT_MAX ->
  exists s' h', EncryptDecryptFile_main Ec path E s h = (Ok (false, true), s', h') /\
    (files start h').1 =
      <[path +:+ ".enc" := ct AES_128_CBC keyBuffer example_iv content]> (files start h).1.
Proof.
  intros L He Hd HE Hf Hlen. set (c := ct AES_128_CBC keyBuffer example_iv content).
  destruct (read_run start path content standardIoErrorEventHandler E s h HE Hf) as (h1 & R1 & F1);
    [unfold INT_MAX in *; lia|].
  pose proof (encrypt_run ct Ec AES_128_CBC keyBuffer example_iv content s L He eq_refl ltac:(lia)) as R2.
  cbv zeta in R2. fold c in R2. set (s1 := s ++ _) in R2.
  destruct (decrypt_run ct Ec AES_128_CBC keyBuffer example_iv content s1 L Hd eq_refl Hlen) as (s2 & R3).
  fold c in R3.
  destruct (write_run start (path +:+ ".enc") c standardIoErrorEventHandler E s2 h1 HE) as (h2 & R4 & F4).
  exists s2, h2. rewrite <-F1. split; [|exact F4]. unfold EncryptDecryptFile_main.
  assert (C2 : cipher_call (encrypt_vector keyBuffer AES_128_CBC example_iv content Ec) E s h1 =
    (Ok c, s1, h1)) by (unfold cipher_call; by rewrite R2).
  assert (C3 : cipher_call (decrypt_vector keyBuffer AES_128_CBC example_iv c Ec) E s1 h1 =
    (Ok content, s2, h1)) by (unfold cipher_call; by rewrite R3).
  do 2 (erewrite (@bind_ok openssl) by reflexivity).
  rewrite (@bind_ok openssl _ _ _ _ _ _ _ _ _ _ _ R1).
  etrans; [eapply (@bind_ok openssl); exact C2|]. etrans; [eapply (@bind_ok openssl); exact C3|].
  rewrite (@bind_ok openssl _ _ _ _ _ _ _ _ _ _ _ R4).
  erewrite (@bind_ok openssl) by reflexivity.
  rewrite (bool_decide_false (c = content)), bool_decide_true; [done|done|].
  intros Heq%(f_equal length). unfold c in Heq. rewrite (ct_length ct L) in Heq.
  pose proof (blocks_lt (length content)). lia.
Qed.

(** ** DigitalSign *)

(** What is printed for a signature. *)
Definition printDigitalSign (ds : list Z) : string :=
  "DigitalSign: " +:+ String.concat "" ((fun b => pretty b +:+ " ") <$> ds) +:+ String (Ascii.ascii_of_nat 10) "".

(** The program on the file named: the signature it prints and whether the certificate's key
    verifies it.  The key, the certificate and its key are freed as they go out of scope. *)
Definition DigitalSign_main (filePath : string) : ssl_prog unit (string * bool) :=
  fileContent ← readFileContent filePath standardIoErrorEventHandler;
  privKey ← fromPrivateKeyPemFile "../../../examples-assets/KeyPairExample/privKey.pem";
  digitalSign ← Signature.sign privKey fileContent;
  certificate ← fromPemFile "../../../examples-assets/KeyPairExample/cert.pem";
  pubKey ← getPublicKey certificate;
  verified ← verify pubKey fileContent digitalSign;
  _ ← sys (EVP_PKEY_free pubKey : sslcall);
  _ ← sys (X509_free certificate : sslcall);
  _ ← sys (EVP_PKEY_free privKey : sslcall);
  mret (printDigitalSign digitalSign, verified).

Lemma sign_keeps_nothing {T} k m : borrows (Signature.sign (T := T) k m).
Proof.
  apply (local_ds_borrows true). intros s held.
  eapply owns_call; [apply sign_update_borrows|]. intros _ s1 held1 [-> ->]. apply sign_finalize_borrows.
Qed.
Lemma verify_keeps_nothing {T} k m ds : borrows (verify (T := T) k m ds).
Proof.
  apply (local_ds_borrows false). intros s held.
  eapply owns_call; [apply verify_update_borrows|]. intros _ s1 held1 [-> ->].
  apply verify_finalize_borrows.
Qed.

(** An exception ends the program, whatever it holds. *)
Abbreviation ends := (fun (_ : unit) (_ : list (kind * Z)) => True).

Lemma call_borrowing {A B} (p : ssl_prog unit A) (f : A -> ssl_prog unit B) s held Q :
  borrows p -> (forall a, triple (owns s held) (f a) Q ends) -> triple (owns s held) (p ≫= f) Q ends.
Proof.
  intros Hp Hf. eapply owns_call; [eapply triple_weaken; [apply (Hp s held)|done|by intros ? ? ?|done]|].
  by intros a ? ? [-> ->].
Qed.
Lemma call_making {B} k (p : ssl_prog unit Z) (f : Z -> ssl_prog unit B) s held Q :
  makes k p -> (forall x, (x =? 0) = false -> triple (owns s ((k, x) :: held)) (f x) Q ends) ->
  triple (owns s held) (p ≫= f) Q ends.
Proof.
  intros Hp Hf. eapply owns_call; [eapply triple_weaken; [apply (Hp s held)|done|by intros ? ? ?|done]|].
  intros x ? ? (Hx & -> & ->). apply Hf. by apply Z.eqb_neq.
Qed.

Lemma DigitalSign_triple path :
  triple (owns tt []) (DigitalSign_main path) (fun _ => owns tt []) ends.
Proof.
  unfold DigitalSign_main.
  apply call_borrowing; [apply readFileContent_borrows|]. intros content.
  apply (call_making Pkey); [apply (make_makes (FromPemFile true _))|]. intros k Hk.
  apply call_borrowing; [apply sign_keeps_nothing|]. intros ds.
  apply (call_making Cert); [apply (make_cert_makes (CertFromPemFile _))|]. intros c Hc.
  apply (call_making Pkey); [apply getPublicKey_makes|]. intros p Hp.
  apply call_borrowing; [apply verify_keeps_nothing|]. intros v. do 4 ssl_step. by split.
Qed.

(** Everything the signing program makes, two keys, a certificate and the objects behind them, is
    freed exactly once when it ends normally, whatever the library and the files answer. *)
Theorem DigitalSign_frees_all path (E : @env openssl) r s h :
  DigitalSign_main path E tt [] = (Ok r, s, h) -> releases h ≡ₚ acquires E [] h.
Proof.
  intros H. destruct (DigitalSign_triple path E tt [] [] _ _ _ (conj eq_refl eq_refl) H)
    as (cs & held & -> & Hb & _ & ->). by rewrite !app_nil_r in Hb.
Qed.

(** ** Code that writes no file *)

Section Quiet.
Context (start : gmap string (list Z)).

Definition quiet {S A} (p : ssl_prog S A) : Prop :=
  forall (E : @env openssl) s h r s' h', p E s h = (r, s', h') -> (files start h').1 = (files start h).1.

Lemma quiet_ret {S A} (a : A) : quiet (mret a : ssl_prog S A).
Proof. by intros E s h r s' h' [= _ _ <-]. Qed.
Lemma quiet_throw {S A} m : quiet (throw m : ssl_prog S A).
Proof. by intros E s h r s' h' [= _ _ <-]. Qed.
Lemma quiet_lift {S A} (x : res A) : quiet (lift x : ssl_prog S A).
Proof. by intros E s h r s' h' [= _ _ <-]. Qed.
Lemma quiet_get {S} : quiet (get : ssl_prog S S).
Proof. by intros E s h r s' h' [= _ _ <-]. Qed.
Lemma quiet_modify {S} (g : S -> S) : quiet (modify g : ssl_prog S unit).
Proof. by intros E s h r s' h' [= _ _ <-]. Qed.
Lemma quiet_sys {S} (c : sslcall) : (forall d, (disk_step d c).1 = d.1) -> quiet (sys c : ssl_prog S _).
Proof. intros Hc E s h r s' h' [= _ _ <-]. by rewrite files_snoc, Hc. Qed.

Lemma quiet_bind {S A B} (p : ssl_prog S A) (f : A -> ssl_prog S B) :
  quiet p -> (forall a, quiet (f a)) -> quiet (p ≫= f).
Proof.
  intros Hp Hf E s h r s' h' H. unfold mbind, prog_bind in H.
  destruct (p E s h) as [[x s1] h1] eqn:E1. apply Hp in E1. rewrite <-E1.
  destruct x; [by apply Hf in H|by injection H as _ _ <-..].
Qed.

Lemma quiet_local {S T A} (s0 : S) construct (body : ssl_prog S A) destroy :
  quiet construct -> quiet body -> quiet destroy ->
  quiet (local_object s0 construct body destroy : ssl_prog T A).
Proof.
  intros Hc Hb Hd E t h r t' h' H. unfold local_object in H.
  destruct (construct E s0 h) as [[x s1] h1] eqn:E1. apply Hc in E1. rewrite <-E1.
  destruct x; [|by injection H as _ _ <-..].
  destruct (body E s1 h1) as [[x s2] h2] eqn:E2. apply Hb in E2. rewrite <-E2.
  destruct (destroy E s2 h2) as [[y s3] h3] eqn:E3. apply Hd in E3. rewrite <-E3.
  by injection H as _ _ <-.
Qed.

Ltac quieting :=
  repeat (intros; cbv beta;
    first
      [ apply quiet_ret | apply quiet_throw | apply quiet_lift | apply quiet_get | apply quiet_modify
      | lazymatch goal with |- quiet (sys ?c) => apply (quiet_sys c); by intros [? ?] end
      | apply quiet_bind | case_match ]).

Lemma quiet_sign {T} k m : quiet (Signature.sign k m : ssl_prog T (list Z)).
Proof.
  apply quiet_local.
  - unfold Signer. quieting.
  - unfold sign_update, sign_finalize, maxOutputBufferSize. quieting.
  - unfold destroy. quieting.
Qed.

Lemma quiet_key_from_pem {T} what data : quiet (key_from_pem what data : ssl_prog T Z).
Proof. unfold key_from_pem, fromOpenSslEvpKey. quieting. Qed.
End Quiet.

(** ** A signature made and verified *)

Definition key_path : string := "../../../examples-assets/KeyPairExample/privKey.pem".
Definition cert_path : string := "../../../examples-assets/KeyPairExample/cert.pem".

(** What the library makes of the PEM text of a certificate: [certified text] is the key it
    certifies, [None] for a text that is no certificate, which the library refuses.  The key is
    that of the certificate read, and nothing else. *)
Record certifies {V} (value : Z -> V) (certified : list Z -> option V) (certified_key : Z -> V)
    (E : @env openssl) : Prop := {
  cert_read h text : let bio := E h (BIO_new_mem_buf text : sslcall) in
    let c := E (h ++ [BIO_new_mem_buf text]) (PEM_read_bio PEM_X509 bio : sslcall) in
    match certified text with Some v => c <> 0 /\ certified_key c = v | None => c = 0 end;
  cert_key h c : c <> 0 ->
    let p := E h (X509_get_pubkey c : sslcall) in p <> 0 /\ value p = certified_key c }.

Lemma certificate_run {V} (value : Z -> V) certified certified_key encode v text (E : @env openssl) h :
  pem_texts value encode E -> certifies value certified certified_key E ->
  certified text = Some v -> 0 < Z.of_nat (length text) <= INT_MAX ->
  exists c h', fromPem text E tt h = (Ok c, tt, h') /\ c <> 0 /\ certified_key c = v.
Proof.
  intros HE HC Hv Hlen. unfold fromPem. rewrite (if_false (_ || _)).
  2: { apply orb_false_iff. rewrite Z.gtb_ltb, Z.ltb_ge, Z.eqb_neq. lia. }
  erewrite bind_ok by reflexivity.
  rewrite (if_false (_ =? 0)) by (apply Z.eqb_neq, (bio_new_buf _ _ _ HE)).
  pose proof (cert_read _ _ _ _ HC h text) as Hc. rewrite Hv in Hc. destruct Hc as [Hc Hk].
  erewrite bind_ok by reflexivity. erewrite bind_ok by reflexivity.
  rewrite (if_false (_ =? 0)) by (by apply Z.eqb_neq). by do 2 eexists.
Qed.

Lemma public_key_run {V} (value : Z -> V) certified certified_key c (E : @env openssl) h :
  certifies value certified certified_key E -> c <> 0 ->
  exists p h', getPublicKey c E tt h = (Ok p, tt, h') /\ value p = certified_key c.
Proof.
  intros HC Hc. unfold getPublicKey, fromOpenSslEvpKey. erewrite bind_ok by reflexivity.
  destruct (cert_key _ _ _ _ HC h c Hc) as [Hp Hv]. rewrite !(if_false (_ =? 0)) by (by apply Z.eqb_neq).
  by do 2 eexists.
Qed.

(** C38. The signing program: when privKey.pem holds the text of a private key and cert.pem that of
    a certificate of the same pair, over a library that signs, verifies and reads keys and
    certificates as documented (a text that is no certificate is refused), the program ends
    normally, prints the signature of the file's contents and finds it verified. *)
Theorem DigitalSign_verifies {V} (value : Z -> V) encode certified certified_key sig valid v start
    (E : @env openssl) path content cert_text :
  signs sig E -> verifies valid E -> stores start E -> pem_texts value encode E ->
  certifies value certified certified_key E -> certified cert_text = Some v ->
  (forall k p m, value k = v -> value p = v -> valid p m (sig k m) = true) ->
  start !! path = Some content -> start !! key_path = Some (encode PrivateKey v) ->
  start !! cert_path = Some cert_text -> Z.of_nat (length content) < 2 ^ 63 ->
  0 < Z.of_nat (length cert_text) <= INT_MAX ->
  exists k h, value k = v /\
    DigitalSign_main path E tt [] = (Ok (printDigitalSign (sig k content), true), tt, h).
Proof.
  intros HS HV HD HP HC Hcert Hpair F1 F2 F3 L1 L3. unfold DigitalSign_main.
  destruct (read_run start path content standardIoErrorEventHandler E tt [] HD F1 L1) as (h1 & R1 & Q1).
  erewrite bind_ok by exact R1. pose proof (encode_length _ _ _ HP PrivateKey v).
  destruct (read_run start key_path (encode PrivateKey v) standardIoErrorEventHandler E tt h1 HD)
    as (h2 & R2 & Q2); [by rewrite Q1|unfold INT_MAX in *; lia|].
  destruct (key_from_pem_run value encode PrivateKey v [] E tt h2 HP) as (k & h3 & R3 & _ & Hk); [by auto..|].
  rewrite app_nil_r in R3. assert (Q3 := quiet_key_from_pem start _ _ E tt h2 _ _ _ R3).
  erewrite bind_ok; [|unfold fromPrivateKeyPemFile; fold key_path; erewrite bind_ok by exact R2; exact R3].
  destruct (sign_run sig k content E tt h3 HS) as (h4 & R4).
  assert (Q4 := quiet_sign start _ _ E tt h3 _ _ _ R4). erewrite bind_ok by exact R4.
  destruct (read_run start cert_path cert_text standardIoErrorEventHandler E tt h4 HD)
    as (h5 & R5 & _); [by rewrite Q4, Q3, Q2, Q1|unfold INT_MAX in *; lia|].
  destruct (certificate_run value _ _ encode v cert_text E h5 HP HC Hcert L3) as (c & h6 & R6 & Hc & Hck).
  erewrite bind_ok; [|unfold fromPemFile; fold cert_path; erewrite bind_ok by exact R5; exact R6].
  destruct (public_key_run value _ _ c E h6 HC Hc) as (p & h7 & R7 & Hp). rewrite Hck in Hp. erewrite bind_ok by exact R7.
  destruct (verify_run valid p content (sig k content) E tt h7 HV) as (h8 & R8).
  { pose proof (sg_size _ _ HS [] k). pose proof (sg_fits _ _ HS [] k content). unfold INT_MAX in *. lia. }
  erewrite bind_ok by exact R8. rewrite (Hpair k p content Hk Hp). exists k. eexists. split; [done|].
  do 3 erewrite bind_ok by reflexivity. reflexivity.
Qed.

(** ** Witnesses *)

(** A disk, a library of two keys and sums for signatures, and certificates of the key at 2. *)
Definition example_disk : gmap string (list Z) :=
  <["a.txt" := [5; 6; 7]]> (<[key_path := [1]]> (<[cert_path := [9; 9]]> ∅)).
Definition example_certified (text : list Z) : option bool :=
  if bool_decide (text = [9; 9]) then Some true else None.
Definition example_library : @env openssl := fun h c =>
  match c as c return ssl_reply c with
  | PEM_read_bio PEM_X509 _ =>
      match last h with
      | Some (BIO_new_mem_buf text) => if bool_decide (text = [9; 9]) then 1 else 0
      | _ => 0
      end
  | X509_get_pubkey _ => 2
  | PEM_read_bio what bio => bit_library h (PEM_read_bio what bio)
  | BIO_get_mem_ptr bio => bit_library h (BIO_get_mem_ptr bio)
  | EVP_SignFinal c k => sum_library h (EVP_SignFinal c k)
  | EVP_VerifyFinal c s k => sum_library h (EVP_VerifyFinal c s k)
  | c => disk_library example_disk h c
  end.

Lemma example_signs : signs sum_sig example_library.
Proof. destruct sum_signs as [? ? ? ? ? Hf]. by split; [..|exact Hf]. Qed.
Lemma example_verifies : verifies sum_valid example_library.
Proof. destruct sum_verifies as [? ? ? Hf]. by split; [..|exact Hf]. Qed.
Lemma example_stores : stores example_disk example_library.
Proof. destruct (disk_stores example_disk) as [? ? Ht Hr]. by split; [..|exact Ht|exact Hr]. Qed.
Lemma example_texts : pem_texts bit_value bit_text example_library.
Proof.
  destruct bit_texts as [? ? ? ? Ht Hr]. split; [done..|exact Ht|]. intros h what bio v nul Hw Hn.
  specialize (Hr h what bio v nul Hw Hn). by destruct what.
Qed.
Lemma example_certifies :
  certifies bit_value example_certified (fun _ => true) example_library.
Proof.
  split; [|done]. intros h text. simpl. rewrite last_snoc. unfold example_certified.
  by destruct (bool_decide _).
Qed.

Lemma DigitalSign_verifies_witness : exists k h, bit_value k = true /\
  DigitalSign_main "a.txt" example_library tt [] =
    (Ok (printDigitalSign (sum_sig k [5; 6; 7]), true), tt, h).
Proof.
  apply (DigitalSign_verifies bit_value bit_text example_certified (fun _ => true) sum_sig sum_valid
    true example_disk example_library "a.txt" [5; 6; 7] [9; 9] example_signs example_verifies example_stores example_texts
    example_certifies); try reflexivity; try (simpl; lia).
  - intros k p m Hk%Z.eqb_eq Hp%Z.eqb_eq. subst. by apply bool_decide_true.
  - simpl. unfold INT_MAX. lia.
Defined.

Lemma DigitalSign_frees_all_witness :
  releases (history (DigitalSign_main "a.txt" example_library tt [])) ≡ₚ
  acquires example_library [] (history (DigitalSign_main "a.txt" example_library tt [])).
Proof.
  apply (DigitalSign_frees_all "a.txt" example_library (printDigitalSign [20], true) tt).
  vm_compute. reflexivity.
Defined.

Lemma file_encrypted_and_back_witness : exists s' h',
  EncryptDecryptFile_main padding_library "a.txt" example_library [] [] = (Ok (false, true), s', h') /\
  (files example_disk h').1 =
    <["a.txt.enc" := padded AES_128_CBC keyBuffer example_iv [5; 6; 7]]> (files example_disk []).1.
Proof.
  apply (file_encrypted_and_back padded example_disk padding_library example_library "a.txt" [5; 6; 7]
    [] [] padded_laws padding_encrypts (padding_decrypts 0) example_stores); [reflexivity|].
  simpl. unfold INT_MAX. lia.
Defined.
